(* ===== verification/_CoqProject ===== *)
-Q . S2P
Prelude.v
Text.v
Memory.v
Platform.v
Allocator.v
Links.v
Stack.v
BlockPool.v
FreeList.v
FreeListRing.v
FreeListPhys.v
FreeListProofs.v
FreeListSpec.v
Buddy.v
BuddyPart.v
BuddyLists.v
BuddyProofs.v
BuddySpec.v
Statistics.v
Slab.v
SlabProofs.v
DebugHeap.v
DebugTable.v
DebugProofs.v
DebugSpec.v
PersistentPool.v
PoolTrace.v
PoolProofs.v
PoolSpec.v
PoolClaims.v
GuardHeap.v
GuardProofs.v
GuardSpec.v
GuardThreads.v
Analyzer.v
AnalyzerProofs.v
AnalyzerSpec.v
Logger.v
Locks.v
BlockPoolThreads.v
Cpp.v
Windows.v
CppStack.v
CppBlockPool.v
CppFreeList.v
CppBuddy.v
CppSlab.v
CppPorts.v
CppAnalyzer.v
CppLogger.v
CppDebugHeap.v
CppDebugProofs.v
CppGuardHeap.v
CppGuardProofs.v
CppGuardSpec.v
CppPool.v
CppPoolProofs.v
CppPoolPhases.v
CppPoolSpec.v
CppPoolClaims.v
Demo.v
Rust.v
RustBuddy.v
RustBuddyProofs.v
RustStack.v
RustBlockPool.v
RustSlab.v
RustPoolsProofs.v
