(* ===== verification/Prelude.v ===== *)
(** * HeapForge: a verification library

    HeapForge is a collection of memory allocators and heap diagnostics with
    three implementations, a C library ([src/c/src],
    [src/c/include/heapforge]), C++ classes ([src/include/heapforge]) and a
    Rust crate ([src/rust/src]).  This library models the first two and the
    core of the third, and proves what makes each part correct.

    ** The program

    Every allocator keeps its state in a C struct and is reached through a
    table of function pointers ([hf_allocator.h]): allocate, deallocate, name,
    statistics, walk, destroy.  Five manage an arena of their own: a stack, a
    pool of equal blocks with a bitmap, a free list with boundary tags and
    three fit policies, a buddy system, and a slab allocator with a magazine
    per thread.  The debug heap wraps any of them with canaries and a table of
    all blocks ever handed out; the guard heap puts every block between pages
    it closes and classifies faults in a signal handler.  The persistent
    pool keeps blocks in a mapped file with a write-ahead log and survives
    crashes.  The analyzer takes snapshots of any allocator through the walk
    and exports them; the logger filters and routes messages.  The C++ classes
    are the same parts; some follow the same algorithms as the C code (the
    arena allocators, the logger, the exports), others are designs of their own
    (the debug heap over a hash map that remembers freed blocks, the guard heap
    with a bounded quarantine and a registry shared by all heaps, the
    persistent pool with numbered records, generations and a mark of clean
    shutdown).  The Rust crate follows the same plan; its buddy allocator
    (stacks of offsets with stale entries) and slab allocator (one stack of
    free slots) are designs of their own.

    ** The model

    A [size_t], pointer or [uint64_t] is a [Z] in [0, 2^64) with its
    wrap-around written out ([+%], [-%], [*%]).  Arena bytes live in a shared
    byte memory ([Memory]): headers, list links, canaries and log records are
    loads and stores of it, so aliasing and corruption are what they are in C.
    Structs are records, C arrays are lists whose accesses fault out of range,
    fallible code returns an [outcome] (a value, a failed assert, a fault, or
    fuel used up).  What the operating system answers ([mmap], [mprotect],
    [munmap], [msync], [realloc], [fopen], the clock) is a parameter of the
    definitions; hypotheses on it ([page_size_ok], [mmap_fresh], [kernel_ok],
    ...) state its documented behaviour and are met by the concrete kernels of
    the examples.  No theorem on the guard heaps assumes that [mprotect]
    succeeds: the code ignores its result, and the theorems say what is closed
    by what the kernel answered.  Which syncs of a pool take effect is a
    parameter of a crash; where a theorem needs them all to succeed it says so
    ([syncs_ok]).
    [ndebug] chooses between the builds with and without asserts, [chk] between
    Rust builds with and without overflow checks.  Mutexes make an operation
    one step: [Locks] runs threads at the granularity of single accesses of the
    shared state over what POSIX and Win32 promise of a mutex, and
    [bp_threads_atomic] justifies the convention for the block pool.  Where the
    code is lock-free (the guard heap) or per-thread (the slab magazines),
    threads interleave explicitly.  A method
    of a C++ class is a computation over its members and the memory ([meth] in
    [Cpp]); waiting for a lock the thread holds itself is a run that does not
    return.  Standard containers get the memory they ask for, and the order in
    which an unordered map is traversed is left open.

    ** Files

    - [Prelude]: outcomes, machine integers, automation, counting.
    - [Text]: what is used of [snprintf], and IEEE doubles.
    - [Memory]: the byte memory and its load/store laws.
    - [Platform]: [hf_platform.h], the bit tricks related to their meaning on
      every input; what is assumed of [mmap].
    - [Allocator]: [hf_allocator.h] as a class; the contract [AllocatorSpec]
      (blocks are fresh, aligned, apart, untouched while live) and client
      programs; [client_run_ok] proves once what every instance inherits.
    - [Stack], [BlockPool]: [hf_stack.c], [hf_block_pool.c], code and proofs.
    - [Links]: doubly-linked nodes in memory, shared by the next two.
    - [FreeList] (code of [hf_free_list.c]), [FreeListRing] (the circular list
      of free nodes), [FreeListPhys] (the chain of headers), [FreeListProofs]
      (the operations keep the invariant), [FreeListSpec] (claims).
    - [Buddy] (code of [hf_buddy.c]), [BuddyPart] (the partition into blocks),
      [BuddyLists], [BuddyProofs], [BuddySpec].
    - [Slab] (code of [hf_slab.c], one magazine per thread), [SlabProofs].
    - [DebugHeap] (code of [hf_debug_heap.c] over any backend), [DebugTable]
      (the hash table with rehash), [DebugProofs], [DebugSpec].
    - [PersistentPool] (code of [hf_persistent_pool.c] with the trace of its
      stores and syncs), [PoolTrace] (what a crash can leave of a trace),
      [PoolProofs], [PoolSpec], [PoolClaims].
    - [GuardHeap] (code of [hf_guard_heap.c] with page protections and signal
      dispositions as state), [GuardProofs], [GuardSpec], [GuardThreads] (the
      table under interleaved threads, one access per step).
    - [Analyzer] (code of [hf_analyzer.c]), [AnalyzerProofs], [AnalyzerSpec].
    - [Logger]: [hf_logger.c], code, abstract logger and refinement.
    - [Locks]: [hf_mutex] as a class with its two implementations, threads that
      lock, access and unlock, and the simulation by atomic methods;
      [BlockPoolThreads]: the methods of the block pool, access by access.
    - [Statistics]: what [hf_get_stats] reports, for three allocators.
    - [Windows]: the Win32 branches of the two platform headers, and the stubs
      of the C pool and guard heap on other systems.
    - [Cpp]: methods, [allocator.h] and [platform.h]; [Port] relates a class to
      the C allocator with the same algorithm, call by call.
    - [CppStack], [CppBlockPool], [CppFreeList], [CppBuddy], [CppSlab]: the
      classes of the headers of these names and their ports; [CppPorts]: the
      claims that follow from them.
    - [CppAnalyzer], [CppLogger]: [analyzer.h], [logger.h].
    - [CppDebugHeap] (code of [debug_heap.h] over any inner allocator),
      [CppDebugProofs].
    - [CppGuardHeap] (code of [guard_heap.h], both fault handlers included),
      [CppGuardProofs], [CppGuardSpec].
    - [CppPool] (code of [persistent_pool.h]), [CppPoolProofs] (records, slots
      and the crash invariant [durable]), [CppPoolPhases] (the stores and syncs
      of commits and recovery), [CppPoolSpec] (opening, creating, operations),
      [CppPoolClaims].
    - [Demo]: the benchmark and two parts of [main] of [demo.c].
    - [Rust]: [lib.rs] and [platform.rs]; the contract [RustSpec] of the trait
      [Allocator], its clients, and [port_spec], by which a Rust allocator
      inherits the contract of the C one it refines.
    - [RustBuddy] (code of [buddy.rs]), [RustBuddyProofs].
    - [RustStack], [RustBlockPool], [RustSlab] (code of [stack.rs],
      [block_pool.rs], [slab.rs]), [RustPoolsProofs].

    ** What the theorems show

    - Client safety ([*_client_safe]): every program of allocations of bounded
      size (2^62 bytes unless the theorem says otherwise; larger ones wrap),
      frees of owned blocks and writes to owned bytes runs on the allocator, as
      created by its constructor, without abort or fault; live blocks are
      aligned and disjoint and keep what was written.  Proved against [AllocatorSpec] for
      the pool, the free list, the buddy system, the debug heap (over any
      backend that meets the contract) and the guard heap.
    - Functional behaviour of each operation on every branch
      ([*_allocate_correct], [*_deallocate_correct], [find_fit_policy],
      [st_unwind], [gh_allocate_guarded], [gh_fault_verdict], ...), coalescing
      as an invariant, and the walks as partitions of the arena.
    - Threads: [sl_threads_safe] (any interleaving of slab operations),
      [gh_threads_safe] (any interleaving of the single accesses of the guard
      heap's lock-free table, those to its plain fields taken as indivisible),
      with [solo_allocate] and [solo_deallocate] relating the steps to the
      sequential functions.  For the block pool, from
      single accesses under any schedule: every run is a run of atomic methods
      ([bp_threads_atomic]), threads that obey the contract never crash and
      never share a block ([bp_threads_safe]), and they always finish
      ([bp_threads_live]).
    - Statistics: [stats_correct] ([used] covers the bytes held, stays below
      its peak and the peak below the capacity, the peak is the largest [used]
      there was, and the counters account for every live block).
    - Composition: [demo_bench] (the benchmark, proved against the contract,
      leaves every allocator as it found it), [demo_run] (debug heap, free list
      and analyzer together).
    - The Rust crate: [rust_buddy_safe], [rust_slab_safe] and [rust_pool_safe]
      (clients run without a panic in both builds), [stack_alloc_c],
      [stack_free_c] and [stack_rewind_c] (the stack is the C one).
    - Crash safety: [pool_crash_atomic] (a crash at any store or sync of a
      commit, or of the recovery that follows, loses nothing and invents
      nothing), [pool_refines] (the pool as a list of bits),
      [pool_operations_correct] (allocation and free on every branch),
      [recovery_detects_byte] (recovery passes over a record or a meta slot
      with one corrupted byte).  For the C++ pool
      [cpp_pool_crash_atomic] and [cpp_pool_refines] allow any number of
      crashes during recovery and while closing; [cpp_pool_reopen],
      [cpp_pool_drill] and [cpp_pool_refuses] describe opening and refusing.
      Crashes are taken to be noticed by the checksums where they tear a record
      ([op_tears]), and syncs to succeed.
    - The C++ classes: [cpp_free_list_same], [cpp_buddy_same],
      [cpp_slab_same], [cpp_fixed_same] and [cpp_log_same] (no sequence of
      calls, wild pointers and failed requests included, tells a class from the
      C code, so what holds of one holds of the other); [cpp_debug_client_safe]
      and [cpp_debug_verdicts]; [cpp_guard_client_safe] (bounded programs run
      for ever), [cpp_guard_allocate], [cpp_guard_free], [cpp_guard_quarantine]
      and [cpp_guard_handler] (a fault between any two stores of an allocation
      is attributed right).
    - Platform loops: [platform_loops_terminate] (prefaulting touches one byte
      of each page and returns exactly when these are mapped), and the fuel
      below.
    - Diagnostics: [dh_free_verdict], [dh_sweeps] (double, foreign and
      corrupted frees and leaks are counted exactly), [gh_quarantine_forever],
      [fl_snapshot_predicts] (the largest free block of a snapshot decides
      which allocations succeed), [csv_roundtrip], [exports_exact],
      [log_refines].
    - Limits of the code, as theorems: oversize requests that wrap
      ([fl_oversize_wraps], [st_allocate_wraps], [bd_oversize_wraps],
      [rust_buddy_oversize]), sizes that wrap when a pool is created
      ([bp_create_wraps], [cpp_pool_size_cut]), a sync whose failure goes
      unnoticed ([pool_lost_msync]), guards the kernel refused
      ([gh_guards_refused], [cpp_guards_refused]), a data race on the plain
      fields of the guard heap's table ([gh_threads_race]),
      ignored alignments ([bd_alignment_ignored]), a forged header
      ([fl_forged_header]), a magazine shared by two slabs
      ([sl_shared_magazine]), a forgetful rehash ([dh_rehash_forgets]), 32-bit
      indices in the log ([pool_index_truncated]), guard slots that are never
      reclaimed ([gh_slots_never_reclaimed]), one active guard heap per process
      ([gh_second_heap_blind]), a replay loop without end
      ([replay_never_ends]), a thread that waits for itself
      ([cpp_guard_allocate]), two heaps in one slot ([slot_race]), a pool file
      that is refused for ever ([create_interrupted]).

    ** Fuel

    Loops that are not structural take fuel, and the theorems prove that the
    fuel given is enough: the walks and searches of the free list get one round
    per minimal block of the arena ([fl_fuel]), the hash table one round per
    entry, recovery 257 rounds for 256 log records, the growing string buffer
    64 doublings, decimal printing one round per bit, prefaulting one per page.
    In [BlockPoolThreads] a scan has one round per word of the bitmap and a
    walk one per block, plus one for the exit; in [RustBuddy] the loops have
    one round per order, plus one, and the walk one per slot.

    ** Not modelled

    The non-POSIX stubs of the C++ pool; the frames of a backtrace beyond their
    number; the log lines the C allocators write (of the C++ classes the
    channel and reason of each line are modelled, and so are the loggers
    themselves); failing [fprintf].  Memory accesses are sequentially
    consistent.  That a method under its mutex is one step is proved for the
    block pool and a convention for the other allocators, whose methods lock
    and unlock in the same way.  A mapping is as long as the file says: a pool
    file that was cut short is not modelled.  Of the Rust crate the free list,
    the debug heap, the guard heap, the persistent pool, the analyzer and the
    logger are not modelled: they translate the C and C++ components; poisoned
    mutexes are entered as the code does ([into_inner]) and are no state.
    Tests, the rest of the demo and the umbrella headers are glue. *)

From Stdlib Require Export ZArith Lia.
From stdpp Require Export base numbers gmap strings option list.

#[global] Open Scope Z_scope.

(** ** Results of C code *)

(** What running a piece of C code can end in: a value, a failed [assert]
    (the process aborts), a trapping memory access, or nothing: a loop of the
    model used up its fuel, or a thread waits for a lock it holds itself. *)
Inductive outcome (A : Type) : Type :=
| Ok (a : A)
| Abort
| Fault
| OutOfFuel.
Arguments Ok {A} _.
Arguments Abort {A}.
Arguments Fault {A}.
Arguments OutOfFuel {A}.

#[global] Instance outcome_ret : MRet outcome := @Ok.
#[global] Instance outcome_bind : MBind outcome := λ A B f o,
  match o with Ok a => f a | Abort => Abort | Fault => Fault | OutOfFuel => OutOfFuel end.

(** [assert(b)] under [ndebug] (the macro [NDEBUG]): with it the check is
    compiled out, without it a false condition aborts. *)
Definition c_assert (ndebug b : bool) : outcome unit :=
  if ndebug || b then Ok () else Abort.

(** A null pointer. *)
Abbreviation NULL := 0 (only parsing).

(** ** Unsigned machine integers

    A [size_t], [uint64_t] or [uintptr_t] is a [Z] in [0, 2^64); arithmetic
    on it wraps. *)
Definition wrap64 (z : Z) : Z := z mod 2 ^ 64.
Definition wrap32 (z : Z) : Z := z mod 2 ^ 32.
Definition wrap8 (z : Z) : Z := z mod 2 ^ 8.

Declare Scope c_scope.
Delimit Scope c_scope with c.
Notation "a +% b" := (wrap64 (a + b)) (at level 50, left associativity) : c_scope.
Notation "a -% b" := (wrap64 (a - b)) (at level 50, left associativity) : c_scope.
Notation "a *% b" := (wrap64 (a * b)) (at level 40, left associativity) : c_scope.
#[global] Open Scope c_scope.

(** [~x] on 64 bits. *)
Definition not64 (x : Z) : Z := wrap64 (Z.lnot x).

Definition is_u64 (z : Z) : Prop := 0 ≤ z < 2 ^ 64.
#[global] Instance is_u64_dec z : Decision (is_u64 z).
Proof. unfold is_u64. apply _. Defined.

(** ** Automation *)

Create HintDb hf discriminated.

(** Case analysis on the boolean comparisons of the code. *)
Ltac zb :=
  repeat match goal with
  | H : (_ <? _) = true |- _ => apply Z.ltb_lt in H
  | H : (_ <? _) = false |- _ => apply Z.ltb_ge in H
  | H : (_ <=? _) = true |- _ => apply Z.leb_le in H
  | H : (_ <=? _) = false |- _ => apply Z.leb_gt in H
  | H : (_ >? _) = true |- _ => apply Z.gtb_lt in H
  | H : (_ >? _) = false |- _ => rewrite Z.gtb_ltb in H; apply Z.ltb_ge in H
  | H : (_ >=? _) = true |- _ => rewrite Z.geb_leb in H; apply Z.leb_le in H
  | H : (_ >=? _) = false |- _ => rewrite Z.geb_leb in H; apply Z.leb_gt in H
  | H : (_ =? _) = true |- _ => apply Z.eqb_eq in H
  | H : (_ =? _) = false |- _ => apply Z.eqb_neq in H
  | H : (_ && _)%bool = true |- _ => apply andb_true_iff in H as [? ?]
  | H : (_ || _)%bool = false |- _ => apply orb_false_iff in H as [? ?]
  | H : negb _ = true |- _ => apply negb_true_iff in H
  | H : negb _ = false |- _ => apply negb_false_iff in H
  end.

(** Split on the next [if] of the goal, turning comparisons into [Z] facts. *)
Ltac case_if :=
  match goal with
  | |- context [if ?b then _ else _] => destruct b eqn:?
  end; zb.

(** [lia] with the range of a machine word unfolded. *)
Ltac ulia := unfold is_u64 in *; lia.

(** Membership in explicit lists. *)
Ltac elem :=
  repeat match goal with
  | H : context [_ ∈ _] |- _ => progress rewrite ?elem_of_cons, ?elem_of_app, ?elem_of_nil in H
  end;
  repeat first [rewrite elem_of_cons | rewrite elem_of_app | rewrite elem_of_nil];
  intuition congruence.

(** ** Lemmas on outcomes *)

Lemma Ok_inj {A} (a b : A) : Ok a = Ok b → a = b.
Proof. by intros [= ->]. Qed.

Lemma c_assert_true nd b : b = true → c_assert nd b = Ok ().
Proof. intros ->. unfold c_assert. by rewrite orb_true_r. Qed.

Lemma c_assert_false b : b = false → c_assert false b = Abort.
Proof. by intros ->. Qed.

Lemma c_assert_ndebug b : c_assert true b = Ok ().
Proof. done. Qed.

(** Runs the next assertion, whose condition the tactic proves. *)
Tactic Notation "step_assert" "by" tactic3(tac) :=
  match goal with
  | |- context [c_assert ?nd ?b] => rewrite (c_assert_true nd b) by tac
  end; cbn [mbind outcome_bind].

(** ** Lemmas on wrap-around *)

Lemma wrap64_range z : is_u64 (wrap64 z).
Proof. apply Z.mod_pos_bound. lia. Qed.

Lemma wrap64_small z : is_u64 z → wrap64 z = z.
Proof. intros. by apply Z.mod_small. Qed.

Lemma wrap64_idemp z : wrap64 (wrap64 z) = wrap64 z.
Proof. apply wrap64_small, wrap64_range. Qed.

Lemma wrap64_sub_borrow z : - 2 ^ 64 ≤ z < 0 → wrap64 z = z + 2 ^ 64.
Proof.
  intros. unfold wrap64. rewrite <- (Z.mod_add z 1) by lia.
  apply Z.mod_small. lia.
Qed.

Lemma wrap64_add_carry z : 2 ^ 64 ≤ z < 2 * 2 ^ 64 → wrap64 z = z - 2 ^ 64.
Proof.
  intros. unfold wrap64. rewrite <- (Z.mod_add z (-1)) by lia.
  rewrite Z.mod_small; lia.
Qed.

Lemma not64_spec x : is_u64 x → not64 x = 2 ^ 64 - 1 - x.
Proof.
  intros [? ?]. unfold not64, Z.lnot.
  rewrite wrap64_sub_borrow; lia.
Qed.

(** ** Bits *)

Lemma land_ones_mod n k : 0 ≤ k → Z.land n (2 ^ k - 1) = n mod 2 ^ k.
Proof.
  intros. rewrite <- Z.land_ones by done. f_equal. rewrite Z.ones_equiv. lia.
Qed.

Lemma land_clear_low n k : is_u64 n → 0 ≤ k ≤ 64 →
  Z.land n (2 ^ 64 - 1 - (2 ^ k - 1)) = n / 2 ^ k * 2 ^ k.
Proof.
  intros Hn Hk.
  rewrite <- Z.shiftr_div_pow2, <- Z.shiftl_mul_pow2 by lia.
  replace (2 ^ 64 - 1 - (2 ^ k - 1)) with (Z.shiftl (Z.ones (64 - k)) k).
  2:{ rewrite Z.shiftl_mul_pow2, Z.ones_equiv by lia.
      replace (2 ^ 64) with (2 ^ (64 - k) * 2 ^ k); [lia|].
      rewrite <- Z.pow_add_r by lia. f_equal. lia. }
  apply Z.bits_inj'. intros i Hi.
  rewrite Z.land_spec, !Z.shiftl_spec by done.
  destruct (decide (i < k)).
  { by rewrite !(Z.testbit_neg_r _ (i - k)), andb_false_r by lia. }
  rewrite Z.shiftr_spec by lia. replace (i - k + k) with i by lia.
  destruct (decide (i < 64)).
  - rewrite Z.ones_spec_low by lia. by rewrite andb_true_r.
  - rewrite Z.ones_spec_high by lia. rewrite andb_false_r.
    symmetry. destruct (decide (n = 0)) as [->|]; [apply Z.bits_0|].
    apply Z.bits_above_log2; [unfold is_u64 in *; lia|].
    enough (Z.log2 n < 64) by lia. apply Z.log2_lt_pow2; unfold is_u64 in *; lia.
Qed.

Lemma u64_testbit_high n i : is_u64 n → 64 ≤ i → Z.testbit n i = false.
Proof.
  intros Hn Hi. destruct (decide (n = 0)) as [->|]; [apply Z.bits_0|].
  apply Z.bits_above_log2; [unfold is_u64 in *; lia|].
  enough (Z.log2 n < 64) by lia. apply Z.log2_lt_pow2; unfold is_u64 in *; lia.
Qed.

Lemma pow2_pos k : 0 ≤ k → 0 < 2 ^ k.
Proof. intros. apply Z.pow_pos_nonneg; lia. Qed.

Lemma pow2_le_mono j k : 0 ≤ j ≤ k → 2 ^ j ≤ 2 ^ k.
Proof. intros. apply Z.pow_le_mono_r; lia. Qed.

Lemma pow2_lt_mono j k : 0 ≤ j < k → 2 ^ j < 2 ^ k.
Proof. intros. apply Z.pow_lt_mono_r; lia. Qed.

Lemma pow2_divide j k : 0 ≤ j ≤ k → (2 ^ j | 2 ^ k).
Proof.
  intros. exists (2 ^ (k - j)). rewrite <- Z.pow_add_r by lia. f_equal. lia.
Qed.

(** Testing, setting and clearing one bit the way the bitmaps do. *)
Lemma land_shiftl_1 x k : 0 ≤ k →
  Z.land x (Z.shiftl 1 k) = if Z.testbit x k then 2 ^ k else 0.
Proof.
  intros Hk. rewrite Z.shiftl_1_l. apply Z.bits_inj'. intros j Hj.
  rewrite Z.land_spec. destruct (decide (j = k)) as [->|].
  - rewrite Z.pow2_bits_true, andb_true_r by done.
    destruct (Z.testbit x k); [by rewrite Z.pow2_bits_true|by rewrite Z.bits_0].
  - rewrite Z.pow2_bits_false, andb_false_r by done.
    destruct (Z.testbit x k); [by rewrite Z.pow2_bits_false|by rewrite Z.bits_0].
Qed.

Lemma test_mask x k : 0 ≤ k →
  negb (Z.land x (Z.shiftl 1 k) =? 0) = Z.testbit x k.
Proof.
  intros Hk. rewrite land_shiftl_1 by done. destruct (Z.testbit x k); [|done].
  pose proof (pow2_pos k Hk). by destruct (Z.eqb_spec (2 ^ k) 0); [lia|].
Qed.

Lemma testbit_set_mask x k j : 0 ≤ k → 0 ≤ j →
  Z.testbit (Z.lor x (Z.shiftl 1 k)) j = Z.testbit x j || (j =? k).
Proof.
  intros. rewrite Z.lor_spec, Z.shiftl_1_l. f_equal. rewrite Z.pow2_bits_eqb by done.
  apply Z.eqb_sym.
Qed.

Lemma testbit_clear_mask x k j : 0 ≤ k < 64 → 0 ≤ j < 64 →
  Z.testbit (Z.land x (not64 (Z.shiftl 1 k))) j = Z.testbit x j && negb (j =? k).
Proof.
  intros. rewrite Z.land_spec, Z.shiftl_1_l. f_equal. unfold not64, wrap64.
  rewrite Z.mod_pow2_bits_low, Z.lnot_spec, Z.pow2_bits_eqb by lia. f_equal. apply Z.eqb_sym.
Qed.

Lemma lor_u64 x y : is_u64 x → is_u64 y → is_u64 (Z.lor x y).
Proof.
  intros Hx Hy. assert (0 ≤ Z.lor x y) as H0 by (apply Z.lor_nonneg; ulia).
  split; [done|]. destruct (decide (Z.lor x y = 0)) as [->|]; [lia|].
  apply Z.log2_lt_pow2; [lia|]. rewrite Z.log2_lor by ulia.
  assert (∀ z, is_u64 z → Z.log2 z < 64) as Hl.
  { intros z Hz. destruct (decide (z = 0)) as [->|]; [done|]. apply Z.log2_lt_pow2; ulia. }
  pose proof (Hl x Hx). pose proof (Hl y Hy). lia.
Qed.

Lemma land_u64 x y : is_u64 x → 0 ≤ y → is_u64 (Z.land x y).
Proof.
  intros Hx Hy. split; [apply Z.land_nonneg; ulia|].
  destruct (decide (Z.land x y = 0)) as [->|]; [lia|].
  destruct (decide (x = 0)) as [->|]; [by rewrite Z.land_0_l|].
  assert (0 ≤ Z.land x y) by (apply Z.land_nonneg; ulia).
  apply Z.log2_lt_pow2; [lia|]. pose proof (Z.log2_land x y ltac:(ulia) Hy).
  assert (Z.log2 x < 64) by (apply Z.log2_lt_pow2; ulia). lia.
Qed.

Lemma shiftl_1_u64 k : 0 ≤ k < 64 → is_u64 (Z.shiftl 1 k).
Proof.
  intros. rewrite Z.shiftl_1_l. pose proof (pow2_pos k ltac:(lia)).
  pose proof (pow2_lt_mono k 64 ltac:(lia)). ulia.
Qed.

(** ** Counting with a boolean predicate *)

Fixpoint count_if {A : Type} (f : A → bool) (l : list A) : Z :=
  match l with
  | [] => 0
  | x :: l => (if f x then 1 else 0) + count_if f l
  end.

Lemma count_if_ext {A} (f g : A → bool) l :
  (∀ x, x ∈ l → f x = g x) → count_if f l = count_if g l.
Proof.
  induction l as [|x l IH]; intros H; [done|]. simpl. rewrite (H x) by left.
  f_equal. apply IH. intros. apply H. by right.
Qed.

Lemma count_if_bounds {A} (f : A → bool) l : 0 ≤ count_if f l ≤ Z.of_nat (length l).
Proof. induction l as [|x l IH]; simpl; [lia|]. destruct (f x); lia. Qed.

(** Two predicates that differ in one element of a duplicate-free list. *)
Lemma count_if_flip {A} (f g : A → bool) l x :
  NoDup l → x ∈ l → f x = false → g x = true → (∀ y, y ∈ l → y ≠ x → f y = g y) →
  count_if g l = count_if f l + 1.
Proof.
  intros Hnd Hx Hf Hg Hfg. induction Hnd as [|y l Hy Hnd IH]; [by apply not_elem_of_nil in Hx|].
  simpl. apply elem_of_cons in Hx as [<-|Hx].
  - rewrite Hf, Hg, (count_if_ext g f); [lia|]. intros z Hz. symmetry. apply Hfg; [by right|set_solver].
  - rewrite (Hfg y); [|by left|set_solver]. rewrite IH; [lia|done|].
    intros z Hz ?. apply Hfg; [by right|done].
Qed.

Lemma count_if_full {A} (f : A → bool) l :
  count_if f l = Z.of_nat (length l) ↔ ∀ x, x ∈ l → f x = true.
Proof.
  induction l as [|x l IH]; simpl; [set_solver|].
  pose proof (count_if_bounds f l). split.
  - intros H' y Hy. destruct (f x) eqn:E; [|lia]. apply elem_of_cons in Hy as [->|Hy]; [done|].
    apply IH; [lia|done].
  - intros H'. rewrite (H' x) by left. assert (count_if f l = Z.of_nat (length l)); [|lia].
    apply IH. intros. apply H'. by right.
Qed.

Lemma count_if_app {A} (f : A → bool) l1 l2 :
  count_if f (l1 ++ l2) = count_if f l1 + count_if f l2.
Proof. induction l1; simpl; lia. Qed.

Lemma count_if_const {A} (f : A → bool) b l : (∀ x, x ∈ l → f x = b) →
  count_if f l = if b then Z.of_nat (length l) else 0.
Proof.
  induction l as [|x l IH]; intros H; [by destruct b|].
  cbn [count_if length]. rewrite (H x) by left. rewrite IH by (intros; apply H; by right).
  destruct b; lia.
Qed.

Lemma count_if_insert {A} (f : A → bool) l i x y : l !! i = Some x →
  count_if f (<[i := y]> l) = count_if f l - (if f x then 1 else 0) + (if f y then 1 else 0).
Proof.
  revert i. induction l as [|z l IH]; intros [|i] H; simplify_eq/=; [lia|]. rewrite (IH i H). lia.
Qed.

Lemma count_if_perm {A} (f : A → bool) l l' : l ≡ₚ l' → count_if f l = count_if f l'.
Proof. induction 1; simpl; lia. Qed.

Lemma count_if_fmap {A B} (f : B → bool) (g : A → B) l : count_if f (g <$> l) = count_if (λ x, f (g x)) l.
Proof. induction l as [|x l IH]; [done|]. rewrite fmap_cons. simpl. by rewrite IH. Qed.

(** ** Checks over a range of integers *)

Lemma forallb_below n (P : Z → bool) : forallb P (seqZ 0 n) = true → ∀ i, 0 ≤ i < n → P i = true.
Proof.
  intros H i Hi. rewrite forallb_forall in H. apply H, list_elem_of_In, elem_of_seqZ. lia.
Qed.
