(* ===== verification/Text.v ===== *)
(** * Text

    What the C code uses of [snprintf]: decimal numbers, numbers padded with
    zeros, doubles with a fixed number of decimals, and truncation to a
    buffer.  Doubles are IEEE binary64 values ([SpecFloat]), so the arithmetic
    of the code and the digits printed are computed, not approximated. *)

From Stdlib Require Import Ascii String SpecFloat.
From S2P Require Import Prelude.

(** Characters that cannot be written in a string literal. *)
Definition newline : string := String "010" EmptyString.
Definition dquote : string := String "034" EmptyString.
Definition quoted (s : string) : string := dquote +:+ s +:+ dquote.

(** ** Decimal numbers *)

Definition digit (d : Z) : ascii := ascii_of_nat (Z.to_nat (48 + d)).

Fixpoint dec_loop (fuel : nat) (n : Z) (acc : string) : string :=
  match fuel with
  | O => acc
  | S fuel =>
      let acc := String (digit (n mod 10)) acc in
      if n <? 10 then acc else dec_loop fuel (n / 10) acc
  end.

(** [%zu] and [%llu]; a number has at most as many decimal digits as bits. *)
Definition dec (n : Z) : string := dec_loop (S (Z.to_nat (Z.log2 n))) n EmptyString.

Fixpoint zeros (n : nat) : string := match n with O => EmptyString | S n => String "0" (zeros n) end.

(** [%0<w>d] for [n >= 0]. *)
Definition dec_padded (w : nat) (n : Z) : string := zeros (w - String.length (dec n)) +:+ dec n.

(** [snprintf(buf, size, ...)]: what the buffer holds for the text [s]. *)
Definition truncate (size : Z) (s : string) : string := String.substring 0 (Z.to_nat (size - 1)) s.

(** ** Doubles *)

Definition double : Type := spec_float.
Definition double_of (n : Z) : double := binary_normalize 53 1024 n 0 false.
Definition double_div : double → double → double := SFdiv 53 1024.
Definition double_mul : double → double → double := SFmul 53 1024.
Definition double_sub : double → double → double := SFsub 53 1024.

(** The quotient rounded to the nearest integer, ties to even. *)
Definition round_even (num den : Z) : Z :=
  let q := num / den in
  match 2 * (num mod den) ?= den with
  | Lt => q
  | Gt => q + 1
  | Eq => if Z.even q then q else q + 1
  end.

(** [%.<k>f]: the decimal rounding of the exact value. *)
Definition fixed (k : nat) (x : double) : string :=
  let body (z : Z) := dec (z / 10 ^ Z.of_nat k) +:+ "." +:+ dec_padded k (z mod 10 ^ Z.of_nat k) in
  let sign (s : bool) := if s then "-" else EmptyString in
  match x with
  | S754_zero s => sign s +:+ body 0
  | S754_infinity s => sign s +:+ "inf"
  | S754_nan => "nan"
  | S754_finite s m e =>
      sign s +:+ body (if 0 <=? e then Z.pos m * 2 ^ e * 10 ^ Z.of_nat k else round_even (Z.pos m * 10 ^ Z.of_nat k) (2 ^ (- e)))
  end.

Example fixed_third : fixed 4 (double_sub (double_of 1) (double_div (double_of 1) (double_of 3))) = "0.6667".
Proof. reflexivity. Qed.

(** ** Reading numbers back *)

Definition digit_val (c : ascii) : option Z :=
  let n := Z.of_nat (nat_of_ascii c) in if (48 <=? n) && (n <=? 57) then Some (n - 48) else None.

(** The number at the start of a string, and the rest. *)
Fixpoint read_dec (acc : Z) (s : string) : Z * string :=
  match s with
  | EmptyString => (acc, EmptyString)
  | String c s' => match digit_val c with Some d => read_dec (acc * 10 + d) s' | None => (acc, s) end
  end.

Lemma digit_val_digit d : 0 ≤ d < 10 → digit_val (digit d) = Some d.
Proof.
  intros Hd. enough (∀ d, 0 ≤ d < 10 → bool_decide (digit_val (digit d) = Some d) = true) as H.
  { specialize (H d Hd). by apply bool_decide_eq_true_1 in H. }
  apply forallb_below. by vm_compute.
Qed.

Lemma read_dec_loop fuel n acc : 0 ≤ n < 10 ^ Z.of_nat fuel → (0 < fuel)%nat → read_dec 0 (dec_loop fuel n acc) = read_dec n acc.
Proof.
  revert n acc. induction fuel as [|fuel IH]; intros n acc Hn Hf; [lia|]. cbn [dec_loop].
  pose proof (Z.mod_pos_bound n 10 ltac:(lia)). pose proof (Z.div_mod n 10 ltac:(lia)). destruct (Z.ltb_spec n 10).
  - cbn [read_dec]. rewrite digit_val_digit by lia. f_equal. lia.
  - rewrite Nat2Z.inj_succ, Z.pow_succ_r in Hn by lia. destruct fuel as [|fuel]; [simpl in Hn; lia|].
    rewrite IH; [|lia|lia]. cbn [read_dec]. rewrite digit_val_digit by lia. f_equal. lia.
Qed.

Lemma dec_loop_app fuel n acc rest : dec_loop fuel n acc +:+ rest = dec_loop fuel n (acc +:+ rest).
Proof. revert n acc. induction fuel as [|fuel IH]; intros n acc; [done|]. cbn [dec_loop]. destruct (n <? 10); [done|]. by rewrite IH. Qed.

(** A printed number is read back, when what follows is not a digit. *)
Lemma read_dec_dec n rest : 0 ≤ n → (∀ c s, rest = String c s → digit_val c = None) → read_dec 0 (dec n +:+ rest) = (n, rest).
Proof.
  intros Hn Hrest. unfold dec. rewrite dec_loop_app. rewrite read_dec_loop; [|split; [done|]|lia].
  - change (EmptyString +:+ rest) with rest. destruct rest as [|c s]; [done|]. cbn [read_dec]. by rewrite (Hrest c s).
  - destruct (decide (n = 0)) as [->|Hne]; [done|]. pose proof (Z.log2_nonneg n). pose proof (Z.log2_spec n ltac:(lia)) as [_ Hl].
    rewrite Nat2Z.inj_succ, Z2Nat.id by lia. eapply Z.lt_le_trans; [exact Hl|]. apply Z.pow_le_mono_l. lia.
Qed.

(** ** Lengths *)

Lemma string_cons_app c s t : String c s +:+ t = String c (s +:+ t).
Proof. done. Qed.

Lemma string_length_app s t : String.length (s +:+ t) = (String.length s + String.length t)%nat.
Proof. induction s as [|c s IH]; [done|]. rewrite string_cons_app. simpl. by rewrite IH. Qed.

Lemma string_app_assoc s t u : (s +:+ t) +:+ u = s +:+ t +:+ u.
Proof. induction s as [|c s IH]; [done|]. by rewrite !string_cons_app, IH. Qed.

Lemma string_app_nil s : s +:+ EmptyString = s.
Proof. induction s as [|c s IH]; [done|]. by rewrite string_cons_app, IH. Qed.

Lemma truncate_short size s : Z.of_nat (String.length s) < size → truncate size s = s.
Proof.
  intros H. unfold truncate. assert (String.length s ≤ Z.to_nat (size - 1))%nat as Hl by lia. clear H.
  revert Hl. generalize (Z.to_nat (size - 1)). induction s as [|c s IH]; intros [|n] Hl; simpl in *; try done; try lia.
  f_equal. apply IH. lia.
Qed.

Lemma truncate_length size s : 0 < size → Z.of_nat (String.length (truncate size s)) = Z.min (Z.of_nat (String.length s)) (size - 1).
Proof.
  intros Hs. unfold truncate. rewrite <- (Z2Nat.id (size - 1)) at 2 by lia. generalize (Z.to_nat (size - 1)).
  induction s as [|c s IH]; intros [|n]; simpl; try lia. specialize (IH n). lia.
Qed.

Lemma truncate_prefix size s : ∃ t, s = truncate size s +:+ t.
Proof.
  unfold truncate. generalize (Z.to_nat (size - 1)). induction s as [|c s IH]; intros [|n]; simpl.
  - by exists EmptyString.
  - by exists EmptyString.
  - by exists (String c s).
  - destruct (IH n) as [t Ht]. exists t. by rewrite string_cons_app, <- Ht.
Qed.
