(* ===== verification/Memory.v ===== *)
(** * Byte-addressed memory

    The memory the allocators hand out and keep their headers in: a finite
    map from addresses to bytes in which an address never written holds 0, as
    anonymous [mmap] memory does.  Loads and stores of the widths the code
    uses (1, 4 and 8 bytes) are little-endian, as on the platforms the code
    supports.  The lemmas say what a load sees after a store, and that a load
    depends only on the bytes it covers. *)

From S2P Require Import Prelude.

Abbreviation mem := (gmap Z Z).

Definition load8 (m : mem) (a : Z) : Z := wrap8 (default 0 (m !! a)).

Definition store8 (m : mem) (a v : Z) : mem := <[a := wrap8 v]> m.

(** The [n] low bytes of [v], least significant first, and back. *)
Fixpoint le_bytes (n : nat) (v : Z) : list Z :=
  match n with
  | O => []
  | S n => v mod 2 ^ 8 :: le_bytes n (v / 2 ^ 8)
  end.

Fixpoint le_val (bs : list Z) : Z :=
  match bs with
  | [] => 0
  | b :: bs => b + 2 ^ 8 * le_val bs
  end.

Fixpoint load_bytes (m : mem) (a : Z) (n : nat) : list Z :=
  match n with
  | O => []
  | S n => load8 m a :: load_bytes m (a + 1) n
  end.

Fixpoint store_bytes (m : mem) (a : Z) (bs : list Z) : mem :=
  match bs with
  | [] => m
  | b :: bs => store8 (store_bytes m (a + 1) bs) a b
  end.

(** [*(uint64_t* )a], [*(uint32_t* )a] as rvalues and as assignment targets. *)
Definition load64 (m : mem) (a : Z) : Z := le_val (load_bytes m a 8).
Definition store64 (m : mem) (a v : Z) : mem := store_bytes m a (le_bytes 8 v).
Definition load32 (m : mem) (a : Z) : Z := le_val (load_bytes m a 4).
Definition store32 (m : mem) (a v : Z) : mem := store_bytes m a (le_bytes 4 v).

(** [memset(a, c, n)]. *)
Definition memset (m : mem) (a c : Z) (n : nat) : mem :=
  store_bytes m a (replicate n c).

(** Two memories with the same byte at every address of [P]. *)
Definition agree_on (P : Z → Prop) (m m' : mem) : Prop :=
  ∀ x, P x → load8 m' x = load8 m x.

(** The addresses of an [n]-byte object at [a]. *)
Definition range (a n : Z) (x : Z) : Prop := a ≤ x < a + n.

(** [lia] with ranges of addresses and words unfolded. *)
Ltac rlia := unfold range, is_u64 in *; lia.

(** ** Bytes and values *)

Lemma load8_range m a : 0 ≤ load8 m a < 2 ^ 8.
Proof. unfold load8, wrap8. apply Z.mod_pos_bound. lia. Qed.

Lemma length_le_bytes n v : length (le_bytes n v) = n.
Proof. revert v. induction n; intros; simpl; auto. Qed.

Lemma length_load_bytes m a n : length (load_bytes m a n) = n.
Proof. revert a. induction n; intros; simpl; auto. Qed.

Lemma le_bytes_byte n v : Forall (λ b, 0 ≤ b < 2 ^ 8) (le_bytes n v).
Proof.
  revert v. induction n; intros; constructor; [|done]. apply Z.mod_pos_bound; lia.
Qed.

Lemma le_val_range bs : Forall (λ b, 0 ≤ b < 2 ^ 8) bs →
  0 ≤ le_val bs < 2 ^ (8 * Z.of_nat (length bs)).
Proof.
  induction 1 as [|b bs Hb _ IH]; cbn [le_val length]; [done|].
  replace (8 * Z.of_nat (S (length bs))) with (8 + 8 * Z.of_nat (length bs)) by lia.
  rewrite Z.pow_add_r by lia. lia.
Qed.

Lemma load_bytes_byte m a n : Forall (λ b, 0 ≤ b < 2 ^ 8) (load_bytes m a n).
Proof. revert a. induction n; constructor; [apply load8_range|done]. Qed.

Lemma load64_range m a : is_u64 (load64 m a).
Proof.
  unfold load64. pose proof (le_val_range _ (load_bytes_byte m a 8)) as H.
  by rewrite length_load_bytes in H.
Qed.

Lemma load32_range m a : 0 ≤ load32 m a < 2 ^ 32.
Proof.
  unfold load32. pose proof (le_val_range _ (load_bytes_byte m a 4)) as H.
  by rewrite length_load_bytes in H.
Qed.

Lemma le_val_le_bytes n v : le_val (le_bytes n v) = v mod 2 ^ (8 * Z.of_nat n).
Proof.
  revert v. induction n as [|n IH]; intros v; cbn [le_val le_bytes].
  { by rewrite Z.mod_1_r. }
  rewrite IH. replace (8 * Z.of_nat (S n)) with (8 + 8 * Z.of_nat n) by lia.
  rewrite Z.pow_add_r by lia. rewrite Z.rem_mul_r by lia. done.
Qed.

(** ** What a byte holds after a store *)

Lemma load8_store8 m a v x :
  load8 (store8 m a v) x = if decide (x = a) then wrap8 v else load8 m x.
Proof.
  unfold load8, store8. case_decide; subst.
  - rewrite lookup_insert_eq. simpl. unfold wrap8. by rewrite Zmod_mod.
  - by rewrite lookup_insert_ne.
Qed.

Lemma load8_store_bytes_in m a bs i b :
  bs !! i = Some b → load8 (store_bytes m a bs) (a + Z.of_nat i) = wrap8 b.
Proof.
  revert a i. induction bs as [|c bs IH]; intros a i; [done|].
  destruct i as [|i]; simpl; intros Hi; rewrite load8_store8.
  - simplify_eq. rewrite decide_True by lia. done.
  - rewrite decide_False by lia.
    replace (a + Z.of_nat (S i)) with (a + 1 + Z.of_nat i) by lia. auto.
Qed.

Lemma load8_store_bytes_out m a bs x :
  ¬ range a (Z.of_nat (length bs)) x → load8 (store_bytes m a bs) x = load8 m x.
Proof.
  unfold range. revert a. induction bs as [|c bs IH]; intros a Hx; [done|].
  cbn [length store_bytes] in *. rewrite load8_store8, decide_False by lia.
  apply IH. lia.
Qed.

Lemma load8_store64_out m a v x :
  ¬ range a 8 x → load8 (store64 m a v) x = load8 m x.
Proof. intros. apply load8_store_bytes_out. by rewrite length_le_bytes. Qed.

Lemma load8_store32_out m a v x :
  ¬ range a 4 x → load8 (store32 m a v) x = load8 m x.
Proof. intros. apply load8_store_bytes_out. by rewrite length_le_bytes. Qed.

Lemma load8_memset_in m a c n x :
  range a (Z.of_nat n) x → load8 (memset m a c n) x = wrap8 c.
Proof.
  unfold range, memset. intros.
  replace x with (a + Z.of_nat (Z.to_nat (x - a))) by lia.
  apply load8_store_bytes_in. apply lookup_replicate_2. lia.
Qed.

Lemma load8_memset_out m a c n x :
  ¬ range a (Z.of_nat n) x → load8 (memset m a c n) x = load8 m x.
Proof. intros. apply load8_store_bytes_out. by rewrite length_replicate. Qed.

(** ** Loads depend only on the bytes they cover *)

Lemma load_bytes_agree m m' a n :
  agree_on (range a (Z.of_nat n)) m m' → load_bytes m' a n = load_bytes m a n.
Proof.
  unfold agree_on, range. revert a. induction n as [|n IH]; intros a H; [done|].
  cbn [load_bytes]. f_equal; [apply H; lia|]. apply IH. intros. apply H. lia.
Qed.

Lemma load64_agree m m' a :
  agree_on (range a 8) m m' → load64 m' a = load64 m a.
Proof. intros. unfold load64. by rewrite (load_bytes_agree m m'). Qed.

Lemma load32_agree m m' a :
  agree_on (range a 4) m m' → load32 m' a = load32 m a.
Proof. intros. unfold load32. by rewrite (load_bytes_agree m m'). Qed.

Lemma load_bytes_store_bytes m a bs :
  Forall (λ b, 0 ≤ b < 2 ^ 8) bs →
  load_bytes (store_bytes m a bs) a (length bs) = bs.
Proof.
  intros Hbs. apply list_eq. intros i.
  assert (∀ m' n a i, (i < n)%nat →
    load_bytes m' a n !! i = Some (load8 m' (a + Z.of_nat i))) as Hlk.
  { intros m'. induction n as [|n IH]; intros a' i' Hi; [lia|].
    destruct i' as [|i']; cbn; [by rewrite Z.add_0_r|].
    rewrite IH by lia. do 2 f_equal. lia. }
  destruct (decide (i < length bs)%nat) as [Hi|Hi].
  - rewrite Hlk by done. destruct (lookup_lt_is_Some_2 bs i Hi) as [b Hb].
    rewrite (load8_store_bytes_in _ _ _ _ _ Hb), Hb. f_equal.
    apply Z.mod_small. by eapply Forall_lookup_1 in Hbs.
  - rewrite !lookup_ge_None_2; [done|lia|rewrite length_load_bytes; lia].
Qed.

Lemma load64_store64_eq m a v : load64 (store64 m a v) a = wrap64 v.
Proof.
  unfold load64, store64.
  rewrite <- (length_le_bytes 8 v) at 2.
  rewrite load_bytes_store_bytes by apply le_bytes_byte.
  by rewrite le_val_le_bytes.
Qed.

Lemma load32_store32_eq m a v : load32 (store32 m a v) a = wrap32 v.
Proof.
  unfold load32, store32.
  rewrite <- (length_le_bytes 4 v) at 2.
  rewrite load_bytes_store_bytes by apply le_bytes_byte.
  by rewrite le_val_le_bytes.
Qed.

Lemma load64_store64_ne m a v b :
  b + 8 ≤ a ∨ a + 8 ≤ b → load64 (store64 m a v) b = load64 m b.
Proof.
  intros. apply load64_agree. intros x Hx. apply load8_store64_out.
  unfold range in *. lia.
Qed.

Lemma agree_on_refl P m : agree_on P m m.
Proof. done. Qed.

Lemma agree_on_trans P m1 m2 m3 :
  agree_on P m1 m2 → agree_on P m2 m3 → agree_on P m1 m3.
Proof. intros H1 H2 x Hx. rewrite (H2 x Hx). auto. Qed.

Lemma agree_on_sub (P Q : Z → Prop) m m' :
  agree_on Q m m' → (∀ x, P x → Q x) → agree_on P m m'.
Proof. intros H HPQ x Hx. auto. Qed.

Lemma agree_on_store64 (P : Z → Prop) m a v :
  (∀ x, P x → ¬ range a 8 x) → agree_on P m (store64 m a v).
Proof. intros H x Hx. apply load8_store64_out. auto. Qed.

(** Between aligned words a store is a plain update. *)
Lemma load64_store64 m a v b : (8 | a) → (8 | b) →
  load64 (store64 m a v) b = if decide (b = a) then wrap64 v else load64 m b.
Proof.
  intros [i ->] [j ->]. case_decide as E.
  - rewrite E. apply load64_store64_eq.
  - apply load64_store64_ne. lia.
Qed.

Lemma agree_on_weaken_store (P : Z → Prop) m m' a v :
  agree_on P m m' → (∀ x, P x → ¬ range a 8 x) → agree_on P m (store64 m' a v).
Proof.
  intros H Hr. eapply agree_on_trans; [done|]. by apply agree_on_store64.
Qed.

(** Normalises loads over stores when the addresses are visibly equal or
    apart; side conditions go to [lia]. *)
Ltac mem_simpl :=
  repeat first
    [ rewrite load64_store64_eq
    | rewrite load64_store64_ne by lia ].

(** ** C arrays on the C heap

    An array that [calloc] returned, as the list of its elements; an access
    outside it faults. *)

Definition arr_get (l : list Z) (i : Z) : outcome Z :=
  if i <? 0 then Fault else
  match l !! Z.to_nat i with Some v => Ok v | None => Fault end.

Definition arr_set (l : list Z) (i v : Z) : outcome (list Z) :=
  if (0 <=? i) && (i <? Z.of_nat (length l)) then Ok (<[Z.to_nat i := v]> l) else Fault.

Lemma arr_get_ok l i v : 0 ≤ i → l !! Z.to_nat i = Some v → arr_get l i = Ok v.
Proof. intros Hi Hl. unfold arr_get. rewrite (proj2 (Z.ltb_ge _ _)) by lia. by rewrite Hl. Qed.

Lemma arr_set_ok l i v : 0 ≤ i < Z.of_nat (length l) → arr_set l i v = Ok (<[Z.to_nat i := v]> l).
Proof.
  intros Hi. unfold arr_set. by rewrite (proj2 (Z.leb_le _ _)), (proj2 (Z.ltb_lt _ _)) by lia.
Qed.
