(* ===== verification/Platform.v ===== *)
(** * Platform layer ([c/include/heapforge/hf_platform.h])

    The arithmetic helpers every allocator uses: rounding up to an alignment,
    the power-of-two test, the next power of two by bit smearing and the floor
    of the logarithm by shifting; and the page-size cache and the rounding
    that [hf_vm_reserve] does before it calls [mmap].  Each helper is related
    to its mathematical meaning on every input, the wrapping ones included. *)

From S2P Require Import Prelude Memory.

(** [HF_DEFAULT_ALIGN]. *)
Definition HF_DEFAULT_ALIGN : Z := 16.

(** [hf_protection]. *)
Inductive hf_protection : Type :=
| HF_PROT_NONE
| HF_PROT_RO
| HF_PROT_RW.

#[global] Instance hf_protection_eq_dec : EqDecision hf_protection.
Proof. solve_decision. Defined.

(** [hf_page_size]: the static [ps] is read from [sysconf] on the first call. *)
Definition hf_page_size (sysconf : Z) (ps : Z) : Z * Z :=
  let ps := if ps =? 0 then wrap64 sysconf else ps in (ps, ps).

Definition hf_align_up (n align : Z) : Z :=
  Z.land (n +% align -% 1) (not64 (align -% 1)).

Definition hf_is_pow2 (n : Z) : bool :=
  negb (n =? 0) && (Z.land n (n -% 1) =? 0).

Definition hf_next_pow2 (n : Z) : Z :=
  if n <=? 1 then 1 else
  let n := n -% 1 in
  let n := Z.lor n (Z.shiftr n 1) in
  let n := Z.lor n (Z.shiftr n 2) in
  let n := Z.lor n (Z.shiftr n 4) in
  let n := Z.lor n (Z.shiftr n 8) in
  let n := Z.lor n (Z.shiftr n 16) in
  let n := Z.lor n (Z.shiftr n 32) in
  n +% 1.

(** [while (n >>= 1) ++r;] The loop runs at most 63 times on a 64-bit [n], so
    64 rounds of fuel are enough ([hf_log2_floor_spec]). *)
Fixpoint hf_log2_floor_loop (fuel : nat) (n r : Z) : Z :=
  match fuel with
  | O => r
  | S fuel =>
      let n := Z.shiftr n 1 in
      if n =? 0 then r else hf_log2_floor_loop fuel n (r + 1)
  end.

Definition hf_log2_floor (n : Z) : Z := hf_log2_floor_loop 64 n 0.

(** [hf_vm_reserve]: rounds the size up to whole pages and asks [mmap], whose
    answer (an address, or [MAP_FAILED]) is the parameter. *)
Definition hf_vm_reserve (ps : Z) (mmap : Z → option Z) (size : Z) : Z :=
  let size := hf_align_up size ps in
  match mmap size with
  | None => NULL
  | Some p => p
  end.

(** [hf_vm_release]: the pages [munmap] is asked to unmap, and its result. *)
Definition hf_vm_release (ps : Z) (munmap : Z → Z → bool) (ptr size : Z) : bool :=
  if ptr =? NULL then true else munmap ptr (hf_align_up size ps).

(** [hf_vm_prefault]: one byte of each page is read and written back, which
    faults on a page that is not mapped for reading and writing ([mapped]); the
    fuel is one iteration per page and one for the exit. *)
Fixpoint prefault_loop (fuel : nat) (mapped : Z → bool) (ps : Z) (m : mem) (p off size : Z) : outcome mem :=
  match fuel with
  | O => OutOfFuel
  | S fuel =>
      if off <? size then
        if mapped (p +% off)
        then prefault_loop fuel mapped ps (store8 m (p +% off) (load8 m (p +% off))) p (off +% ps) size
        else Fault
      else Ok m
  end.

Definition hf_vm_prefault (mapped : Z → bool) (ps : Z) (m : mem) (ptr size : Z) : outcome mem :=
  prefault_loop (S (S (Z.to_nat (size / ps)))) mapped ps m ptr 0 size.

(** The least multiple of [a] that is at least [n]. *)
Definition round_up (n a : Z) : Z := (n + a - 1) / a * a.

(** ** [round_up] *)

Lemma round_up_ge n a : 0 < a → n ≤ round_up n a.
Proof.
  intros. unfold round_up. pose proof (Z.div_mod (n + a - 1) a ltac:(lia)).
  pose proof (Z.mod_pos_bound (n + a - 1) a ltac:(lia)). lia.
Qed.

Lemma round_up_lt n a : 0 < a → round_up n a < n + a.
Proof.
  intros. unfold round_up. pose proof (Z.div_mod (n + a - 1) a ltac:(lia)).
  pose proof (Z.mod_pos_bound (n + a - 1) a ltac:(lia)). lia.
Qed.

Lemma round_up_divide n a : (a | round_up n a).
Proof. unfold round_up. apply Z.divide_factor_r. Qed.

Lemma round_up_mod n a : 0 < a → round_up n a mod a = 0.
Proof. intros. unfold round_up. apply Z.mod_mul. lia. Qed.

Lemma round_up_id n a : 0 < a → (a | n) → round_up n a = n.
Proof.
  intros ? [k ->]. unfold round_up.
  replace (k * a + a - 1) with ((a - 1) + k * a) by lia.
  rewrite Z.div_add by lia. rewrite Z.div_small by lia. lia.
Qed.

(** ** [hf_align_up] *)

Lemma align_mask k : 0 ≤ k < 64 →
  not64 (2 ^ k -% 1) = 2 ^ 64 - 1 - (2 ^ k - 1).
Proof.
  intros. pose proof (pow2_pos k ltac:(lia)). pose proof (pow2_lt_mono k 64 ltac:(lia)).
  rewrite not64_spec by apply wrap64_range.
  rewrite wrap64_small; unfold is_u64; lia.
Qed.

Lemma hf_align_up_pow2 n k : 0 ≤ n → 0 ≤ k < 64 → n + 2 ^ k ≤ 2 ^ 64 →
  hf_align_up n (2 ^ k) = round_up n (2 ^ k).
Proof.
  intros Hn Hk Hov. unfold hf_align_up, round_up.
  pose proof (pow2_pos k ltac:(lia)).
  rewrite align_mask by done.
  destruct (decide (n + 2 ^ k = 2 ^ 64)) as [E|].
  - rewrite E. unfold wrap64 at 2. rewrite Z_mod_same_full.
    rewrite (wrap64_sub_borrow (0 - 1)) by lia.
    rewrite land_clear_low by (unfold is_u64; lia). done.
  - rewrite (wrap64_small (n + 2 ^ k)) by (unfold is_u64; lia).
    rewrite (wrap64_small (n + 2 ^ k - 1)) by (unfold is_u64; lia).
    rewrite land_clear_low by (unfold is_u64; lia). done.
Qed.

Lemma hf_align_up_wraps n k : is_u64 n → 0 ≤ k < 64 → 2 ^ 64 < n + 2 ^ k →
  hf_align_up n (2 ^ k) = 0.
Proof.
  intros [? ?] Hk Hov. unfold hf_align_up. pose proof (pow2_pos k ltac:(lia)).
  pose proof (pow2_lt_mono k 64 ltac:(lia)).
  rewrite align_mask by done.
  rewrite (wrap64_add_carry (n + 2 ^ k)) by lia.
  rewrite (wrap64_small (n + 2 ^ k - 2 ^ 64 - 1)) by (unfold is_u64; lia).
  rewrite land_clear_low by (unfold is_u64; lia).
  rewrite Z.div_small by lia. done.
Qed.

(** ** [hf_log2_floor] *)

Lemma log2_floor_loop_spec fuel n r : 0 < n < 2 ^ Z.of_nat fuel →
  hf_log2_floor_loop fuel n r = r + Z.log2 n.
Proof.
  revert n r. induction fuel as [|fuel IH]; intros n r Hn; [simpl in Hn; lia|].
  cbn [hf_log2_floor_loop]. rewrite Z.shiftr_div_pow2, Z.pow_1_r by lia.
  rewrite Nat2Z.inj_succ, Z.pow_succ_r in Hn by lia.
  case_if.
  - assert (n = 1) as -> by (pose proof (Z.div_mod n 2 ltac:(lia));
      pose proof (Z.mod_pos_bound n 2 ltac:(lia)); lia). simpl. lia.
  - assert (0 < n / 2) by (pose proof (Z.div_pos n 2 ltac:(lia) ltac:(lia)); lia).
    rewrite IH by (split; [lia|apply Z.div_lt_upper_bound; lia]).
    pose proof (Z.log2_shiftr n 1 ltac:(lia)) as E.
    rewrite Z.shiftr_div_pow2, Z.pow_1_r in E by lia.
    assert (2 ≤ n) by (destruct (decide (2 ≤ n)); [done|]; rewrite Z.div_small in * by lia; lia).
    pose proof (Z.log2_pos n ltac:(lia)). lia.
Qed.

Lemma hf_log2_floor_0 : hf_log2_floor 0 = 0.
Proof. reflexivity. Qed.

Lemma hf_log2_floor_pos n : 0 < n < 2 ^ 64 → hf_log2_floor n = Z.log2 n.
Proof. intros. unfold hf_log2_floor. by rewrite log2_floor_loop_spec. Qed.

(** ** [hf_next_pow2] *)

(** [x] is [n] smeared to the right over [w] positions. *)
Definition smeared (w n x : Z) : Prop :=
  ∀ i, 0 ≤ i → Z.testbit x i = true ↔ ∃ d, 0 ≤ d < w ∧ Z.testbit n (i + d) = true.

Lemma smeared_1 n : smeared 1 n n.
Proof.
  intros i Hi. split.
  - intros. exists 0. by rewrite Z.add_0_r.
  - intros (d & ? & Hd). assert (d = 0) as -> by lia. by rewrite Z.add_0_r in Hd.
Qed.

Lemma smeared_step w n x : 0 < w → smeared w n x →
  smeared (2 * w) n (Z.lor x (Z.shiftr x w)).
Proof.
  intros Hw Hx i Hi. rewrite Z.lor_spec, Z.shiftr_spec, orb_true_iff by done.
  rewrite (Hx i), (Hx (i + w)) by lia. split.
  - intros [(d & ? & Hd)|(d & ? & Hd)]; [by exists d; split; [lia|]|].
    exists (w + d). split; [lia|]. by rewrite Z.add_assoc.
  - intros (d & ? & Hd). destruct (decide (d < w)); [left; by exists d; split; [lia|]|].
    right. exists (d - w). split; [lia|]. by replace (i + w + (d - w)) with (i + d) by lia.
Qed.

Lemma lor_shiftr_nonneg x k : 0 ≤ x → 0 ≤ Z.lor x (Z.shiftr x k).
Proof. intros. apply Z.lor_nonneg. by rewrite Z.shiftr_nonneg. Qed.

Lemma smeared_ones n x : 0 < n < 2 ^ 64 → 0 ≤ x → smeared 64 n x →
  x = 2 ^ (Z.log2 n + 1) - 1.
Proof.
  intros Hn Hx Hs. assert (Z.log2 n < 64) by (apply Z.log2_lt_pow2; lia).
  pose proof (Z.log2_nonneg n).
  replace (2 ^ (Z.log2 n + 1) - 1) with (Z.ones (Z.log2 n + 1)) by (rewrite Z.ones_equiv; lia).
  apply Z.bits_inj'. intros i Hi. apply eq_bool_prop_intro.
  rewrite !Is_true_true. rewrite (Hs i Hi). split.
  - intros (d & ? & Hd). apply Z.ones_spec_low. split; [done|].
    destruct (decide (i + d ≤ Z.log2 n)); [lia|].
    rewrite Z.bits_above_log2 in Hd; [done|lia|lia].
  - intros Ho. destruct (decide (i ≤ Z.log2 n)).
    + exists (Z.log2 n - i). split; [lia|].
      replace (i + (Z.log2 n - i)) with (Z.log2 n) by lia. apply Z.bit_log2; lia.
    + rewrite Z.ones_spec_high in Ho by lia. done.
Qed.

Lemma hf_next_pow2_cases n : 1 < n < 2 ^ 64 →
  hf_next_pow2 n = wrap64 (2 ^ (Z.log2 (n - 1) + 1)).
Proof.
  intros Hn. unfold hf_next_pow2. destruct (n <=? 1) eqn:E; zb; [lia|].
  rewrite (wrap64_small (n - 1)) by (unfold is_u64; lia).
  match goal with |- context [wrap64 (?x + 1)] => set (s := x) end.
  assert (smeared 64 (n - 1) s) as Hs.
  { apply (smeared_step 32); [lia|]. apply (smeared_step 16); [lia|].
    apply (smeared_step 8); [lia|]. apply (smeared_step 4); [lia|].
    apply (smeared_step 2); [lia|]. apply (smeared_step 1); [lia|]. apply smeared_1. }
  assert (0 ≤ s) as Hs0.
  { repeat apply lor_shiftr_nonneg. lia. }
  clearbody s. rewrite (smeared_ones (n - 1) s ltac:(lia) Hs0 Hs). f_equal. lia.
Qed.

Lemma hf_next_pow2_log2_up n : 1 ≤ n ≤ 2 ^ 63 → hf_next_pow2 n = 2 ^ Z.log2_up n.
Proof.
  intros Hn. destruct (decide (n = 1)) as [->|]; [reflexivity|].
  rewrite hf_next_pow2_cases by lia.
  rewrite Z.log2_up_eqn by lia. rewrite <- Z.sub_1_r. unfold Z.succ.
  apply wrap64_small. assert (Z.log2 (n - 1) < 63) by (apply Z.log2_lt_pow2; lia).
  pose proof (Z.log2_nonneg (n - 1)).
  pose proof (pow2_pos (Z.log2 (n - 1) + 1) ltac:(lia)).
  pose proof (pow2_lt_mono (Z.log2 (n - 1) + 1) 64 ltac:(lia)).
  unfold is_u64. lia.
Qed.

Lemma hf_next_pow2_overflow n : 2 ^ 63 < n < 2 ^ 64 → hf_next_pow2 n = 0.
Proof.
  intros Hn. rewrite hf_next_pow2_cases by lia.
  assert (Z.log2 (n - 1) = 63) as -> by (apply Z.log2_unique; lia). done.
Qed.

(** ** [hf_is_pow2] *)

Lemma hf_is_pow2_iff n : is_u64 n →
  hf_is_pow2 n = true ↔ ∃ k, 0 ≤ k < 64 ∧ n = 2 ^ k.
Proof.
  intros Hn. unfold hf_is_pow2. rewrite andb_true_iff, negb_true_iff, Z.eqb_neq, Z.eqb_eq.
  split.
  - intros [Hn0 Hl]. unfold is_u64 in Hn. rewrite wrap64_small in Hl by (unfold is_u64; lia).
    exists (Z.log2 n). pose proof (Z.log2_nonneg n).
    assert (Z.log2 n < 64) by (apply Z.log2_lt_pow2; lia). split; [lia|].
    pose proof (Z.log2_spec n ltac:(lia)) as [Hlo Hhi]. unfold Z.succ in Hhi.
    destruct (decide (n = 2 ^ Z.log2 n)) as [|Hne]; [done|exfalso].
    assert (Z.log2 (n - 1) = Z.log2 n) as El by (apply Z.log2_unique; lia).
    assert (Z.testbit (Z.land n (n - 1)) (Z.log2 n) = true) as Hb.
    { rewrite Z.land_spec, Z.bit_log2 by lia. rewrite <- El at 1. apply Z.bit_log2.
      pose proof (pow2_pos (Z.log2 n) ltac:(lia)). lia. }
    by rewrite Hl, Z.bits_0 in Hb.
  - intros (k & Hk & ->). pose proof (pow2_pos k ltac:(lia)). split; [lia|].
    pose proof (pow2_lt_mono k 64 ltac:(lia)).
    rewrite wrap64_small by (unfold is_u64; lia).
    rewrite land_ones_mod by lia. apply Z_mod_same_full.
Qed.

(** ** [hf_vm_reserve] *)

(** A page size: a power of two between 4 KiB and 1 GiB. *)
Definition page_size_ok (ps : Z) : Prop := ∃ k, 12 ≤ k ≤ 30 ∧ ps = 2 ^ k.

(** What the kernel promises of [mmap(NULL, size, ...)]: a mapping is page
    aligned, non-null and does not wrap around the address space. *)
Definition mmap_ok (ps : Z) (mmap : Z → option Z) : Prop :=
  ∀ size p, mmap size = Some p → 0 < p ∧ (ps | p) ∧ p + size ≤ 2 ^ 64.

Lemma hf_align_up_page n ps : page_size_ok ps → 0 ≤ n ≤ 2 ^ 63 →
  hf_align_up n ps = round_up n ps.
Proof.
  intros (k & Hk & ->) Hn. pose proof (pow2_le_mono k 30 ltac:(lia)).
  apply hf_align_up_pow2; lia.
Qed.

Lemma hf_align_up_16 n : 0 ≤ n ≤ 2 ^ 64 - 16 → hf_align_up n 16 = round_up n 16.
Proof. intros. change 16 with (2 ^ 4). apply hf_align_up_pow2; lia. Qed.

Lemma page_size_bounds ps : page_size_ok ps → 4096 ≤ ps ≤ 2 ^ 30 ∧ (16 | ps) ∧ (4096 | ps).
Proof.
  intros (k & Hk & ->). pose proof (pow2_le_mono 12 k ltac:(lia)).
  pose proof (pow2_le_mono k 30 ltac:(lia)). split; [lia|].
  split; [apply (pow2_divide 4 k)|apply (pow2_divide 12 k)]; lia.
Qed.

(** A mapping of [n] bytes, when the kernel gives one. *)
Lemma hf_vm_reserve_ok ps mmap n p :
  page_size_ok ps → mmap_ok ps mmap → 0 ≤ n ≤ 2 ^ 63 → hf_vm_reserve ps mmap n = p → p ≠ NULL →
  0 < p ∧ (ps | p) ∧ p + n ≤ 2 ^ 64.
Proof.
  intros Hps Hm Hn Hr Hp. unfold hf_vm_reserve in Hr.
  rewrite hf_align_up_page in Hr by done. pose proof (page_size_bounds _ Hps).
  destruct (mmap _) eqn:E; [|congruence]. subst. apply Hm in E as (? & ? & ?).
  pose proof (round_up_ge n ps ltac:(lia)). split; [done|]. split; [done|]. lia.
Qed.

(** A kernel that maps up to 2^40 bytes at address 2^20, for examples. *)
Definition ex_mmap (sz : Z) : option Z := if sz <=? 2 ^ 40 then Some (2 ^ 20) else None.

Lemma ex_mmap_ok : mmap_ok 4096 ex_mmap.
Proof.
  intros sz p. unfold ex_mmap. destruct (_ <=? _) eqn:E; zb; [|done]. intros [= <-].
  split; [lia|]. split; [by exists 256|lia].
Qed.

Lemma page_4096_ok : page_size_ok 4096.
Proof. exists 12. split; [lia|done]. Qed.

(** What the kernel promises of a fresh mapping, given those there are. *)
Definition mmap_fresh (ps : Z) (mmap : list (Z * Z) → Z → option Z) : Prop :=
  ∀ maps size p, mmap maps size = Some p →
    0 < p ∧ (ps | p) ∧ p + size ≤ 2 ^ 64 ∧ (∀ q n, (q, n) ∈ maps → p + size ≤ q ∨ q + n ≤ p).

Lemma vm_reserve_fresh ps mmap maps n : page_size_ok ps → mmap_fresh ps mmap → 0 ≤ n ≤ 2 ^ 63 → hf_vm_reserve ps (mmap maps) n ≠ NULL →
  let p := hf_vm_reserve ps (mmap maps) n in
  0 < p ∧ (ps | p) ∧ p + round_up n ps ≤ 2 ^ 64 ∧
  (∀ q k, (q, k) ∈ maps → p + round_up n ps ≤ q ∨ q + k ≤ p).
Proof.
  intros Hps Hmm Hn. unfold hf_vm_reserve. rewrite (hf_align_up_page n) by done.
  destruct (mmap maps (round_up n ps)) as [p|] eqn:E; [|done]. intros _. by apply Hmm.
Qed.

(** Mappings of a process are in the lower half of the address space. *)
Definition mmap_low (mmap : list (Z * Z) → Z → option Z) : Prop :=
  ∀ maps size p, mmap maps size = Some p → p + size ≤ 2 ^ 63.

(** A kernel that maps behind everything that is mapped, for examples. *)
Definition ex_mmaps (maps : list (Z * Z)) (size : Z) : option Z :=
  let p := round_up (foldr (λ qn acc, Z.max acc (qn.1 + qn.2)) (2 ^ 20) maps) 4096 in
  if p + size <=? 2 ^ 47 then Some p else None.

Lemma ex_mmaps_fresh : mmap_fresh 4096 ex_mmaps.
Proof.
  intros maps size p. unfold ex_mmaps. set (e := foldr _ _ _).
  assert (2 ^ 20 ≤ e ∧ ∀ q n, (q, n) ∈ maps → q + n ≤ e) as [He Hmax].
  { unfold e. induction maps as [|[q n] maps [IH1 IH2]]; simpl; [split; [lia|intros q n; by rewrite elem_of_nil]|].
    split; [lia|]. intros q' n' Hin. apply elem_of_cons in Hin as [[= -> ->]|Hin]; [lia|]. specialize (IH2 _ _ Hin). lia. }
  destruct (_ <=? _) eqn:E; [|done]. zb. intros [= <-].
  pose proof (round_up_ge e 4096 ltac:(lia)). pose proof (round_up_divide e 4096).
  split; [lia|]. split; [done|]. split; [lia|]. intros q n Hin. specialize (Hmax q n Hin). lia.
Qed.

Lemma ex_mmaps_low : mmap_low ex_mmaps.
Proof. intros maps size p. unfold ex_mmaps. destruct (_ <=? _) eqn:E; [|done]. zb. intros [= <-]. lia. Qed.
