(* ===== verification/Allocator.v ===== *)
(** * The allocator interface ([c/include/heapforge/hf_allocator.h])

    The C code dispatches through a table of function pointers; here the table
    is the class [hf_allocator_vtable] over the allocator's own state, and the
    allocators are its instances.  The arena an allocator manages is shared
    byte memory, so the operations take and return it.

    [AllocatorSpec] is what an allocator promises to a client such as
    [DebugHeap]: which blocks are live, that a new block is aligned, fresh and
    apart from every live block, that live bytes are never touched, and that
    clients may write to their own blocks.  [BlockPool], [FreeList], [Buddy]
    and [GuardHeap] are shown to meet it; [DebugHeap] is verified against it. *)

From S2P Require Import Prelude Memory Platform.

(** [hf_block_info]. *)
Record hf_block_info : Type := BlockInfo {
  offset : Z;
  size : Z;
  is_free : bool
}.

(** [hf_stats]. *)
Record hf_stats : Type := Stats {
  capacity : Z;
  used : Z;
  peak_used : Z;
  alloc_calls : Z;
  free_calls : Z;
  failed_allocs : Z
}.

#[global] Instance hf_block_info_eq_dec : EqDecision hf_block_info.
Proof. solve_decision. Defined.
#[global] Instance hf_stats_eq_dec : EqDecision hf_stats.
Proof. solve_decision. Defined.

(** The updates the allocators make to their counters. *)

(** [stats.alloc_calls++]. *)
Definition bump_alloc (s : hf_stats) : hf_stats :=
  Stats (capacity s) (used s) (peak_used s) (alloc_calls s +% 1) (free_calls s) (failed_allocs s).

(** [stats.free_calls++]. *)
Definition bump_free (s : hf_stats) : hf_stats :=
  Stats (capacity s) (used s) (peak_used s) (alloc_calls s) (free_calls s +% 1) (failed_allocs s).

(** [stats.failed_allocs++]. *)
Definition bump_failed (s : hf_stats) : hf_stats :=
  Stats (capacity s) (used s) (peak_used s) (alloc_calls s) (free_calls s) (failed_allocs s +% 1).

(** [stats.used = u]. *)
Definition set_used (u : Z) (s : hf_stats) : hf_stats :=
  Stats (capacity s) u (peak_used s) (alloc_calls s) (free_calls s) (failed_allocs s).

(** [if (stats.used > stats.peak_used) stats.peak_used = stats.used]. *)
Definition raise_peak (s : hf_stats) : hf_stats :=
  Stats (capacity s) (used s) (if used s >? peak_used s then used s else peak_used s)
        (alloc_calls s) (free_calls s) (failed_allocs s).

(** The counters of a zeroed allocator with [stats.capacity = c]. *)
Definition stats_zero (c : Z) : hf_stats := Stats c 0 0 0 0 0.

(** [hf_allocator_vtable]: one entry per function pointer.  [walk] yields the
    blocks in the order its callback is called with them; what [destroy] does
    besides freeing the allocator's own struct is [vt_destroyed]. *)
Class hf_allocator_vtable (S : Type) : Type := {
  vt_allocate : S → mem → Z → Z → outcome (S * mem * Z);
  vt_deallocate : S → mem → Z → outcome (S * mem);
  vt_name : S → string;
  vt_get_stats : S → hf_stats;
  vt_walk : S → mem → outcome (list hf_block_info);
  vt_destroyed : Type;
  vt_destroy : S → mem → outcome vt_destroyed
}.

Section dispatch.
Context {S : Type} `{!hf_allocator_vtable S}.

Definition hf_allocate (a : S) (m : mem) (size : Z) : outcome (S * mem * Z) :=
  vt_allocate a m size HF_DEFAULT_ALIGN.

Definition hf_allocate_aligned (a : S) (m : mem) (size align : Z) : outcome (S * mem * Z) :=
  vt_allocate a m size align.

Definition hf_deallocate (a : S) (m : mem) (ptr : Z) : outcome (S * mem) :=
  vt_deallocate a m ptr.

Definition hf_name (a : S) : string := vt_name a.

Definition hf_get_stats (a : S) : hf_stats := vt_get_stats a.

Definition hf_walk (a : S) (m : mem) : outcome (list hf_block_info) := vt_walk a m.

(** [if (a) a->vt->destroy(a)]; [None] is the null allocator. *)
Definition hf_destroy (a : option S) (m : mem) : outcome (option vt_destroyed) :=
  match a with
  | None => Ok None
  | Some a => d ← vt_destroy a m; Ok (Some d)
  end.
End dispatch.

(** The pointer an allocation returned (null when it did not return). *)
Definition result_ptr {S : Type} (o : outcome (S * mem * Z)) : Z :=
  match o with Ok (_, _, p) => p | _ => NULL end.

(** ** What an allocator promises *)

(** The live blocks: the pointer handed out and the size asked for. *)
Abbreviation live_map := (gmap Z Z).

(** Byte [x] belongs to a live block. *)
Definition in_live (L : live_map) (x : Z) : Prop :=
  ∃ q n, L !! q = Some n ∧ range q n x.

(** The block of [n] bytes at [p] shares no byte with a live block. *)
Definition apart (L : live_map) (p n : Z) : Prop :=
  ∀ x, range p n x → ¬ in_live L x.

(** Requests the arithmetic of every allocator handles without wrapping. *)
Definition request_ok (size : Z) : Prop := 0 ≤ size ≤ 2 ^ 62.

(** The contract: an allocator that serves requests of up to [lim] bytes with
    addresses that are multiples of [al]. *)
Class AllocatorSpec (al lim : Z) (S : Type) `{!hf_allocator_vtable S} : Type := {
  (** the state, the memory and the live blocks belong together *)
  alloc_inv : S → mem → live_map → Prop;
  spec_live_range s m L p n :
    alloc_inv s m L → L !! p = Some n →
    0 < p ∧ 0 ≤ n ∧ p + n ≤ 2 ^ 64 ∧ (al | p);
  spec_live_apart s m L p n q k :
    alloc_inv s m L → L !! p = Some n → L !! q = Some k → p ≠ q →
    ∀ x, range p n x → ¬ range q k x;
  spec_allocate s m L size :
    alloc_inv s m L → 0 ≤ size ≤ lim →
    ∃ s' m' p, hf_allocate s m size = Ok (s', m', p) ∧
      agree_on (in_live L) m m' ∧
      ((p = NULL ∧ alloc_inv s' m' L) ∨
       (p ≠ NULL ∧ L !! p = None ∧ apart L p size ∧ alloc_inv s' m' (<[p := size]> L)));
  spec_deallocate s m L p n :
    alloc_inv s m L → L !! p = Some n →
    ∃ s' m', hf_deallocate s m p = Ok (s', m') ∧
      agree_on (in_live (delete p L)) m m' ∧ alloc_inv s' m' (delete p L);
  spec_client_write s m m' L :
    alloc_inv s m L → agree_on (λ x, ¬ in_live L x) m m' → alloc_inv s m' L
}.

(** ** Layouts *)

(** The blocks of a layout follow one another from [off] to [stop] without
    gaps or overlaps. *)
Fixpoint tiles (off stop : Z) (bs : list hf_block_info) : Prop :=
  match bs with
  | [] => off = stop
  | b :: bs => offset b = off ∧ 0 < size b ∧ tiles (off + size b) stop bs
  end.

(** Bytes in the blocks of a layout that are free (resp. used). *)
Definition sum_sizes (f : bool) (bs : list hf_block_info) : Z :=
  foldr (λ b acc, (if Bool.eqb (is_free b) f then size b else 0) + acc) 0 bs.

Lemma tiles_app off mid stop bs1 bs2 :
  tiles off mid bs1 → tiles mid stop bs2 → tiles off stop (bs1 ++ bs2).
Proof.
  revert off. induction bs1 as [|b bs1 IH]; intros off; simpl; [by intros ->|].
  intros (? & ? & ?) ?. auto.
Qed.

Lemma tiles_le off stop bs : tiles off stop bs → off ≤ stop.
Proof.
  revert off. induction bs as [|b bs IH]; intros off; simpl; [lia|].
  intros (? & ? & H). apply IH in H. lia.
Qed.

Lemma tiles_sum off stop bs :
  tiles off stop bs → sum_sizes true bs + sum_sizes false bs = stop - off.
Proof.
  revert off. induction bs as [|b bs IH]; intros off; simpl; [lia|].
  intros (? & ? & H). apply IH in H. destruct (is_free b); simpl; lia.
Qed.

Lemma sum_sizes_app f bs1 bs2 :
  sum_sizes f (bs1 ++ bs2) = sum_sizes f bs1 + sum_sizes f bs2.
Proof. induction bs1; simpl; lia. Qed.

(** ** Live maps *)

Lemma in_live_insert L p n x :
  L !! p = None → in_live (<[p := n]> L) x ↔ range p n x ∨ in_live L x.
Proof.
  intros HN. split.
  - intros (q & k & Hq & Hx). destruct (decide (q = p)) as [->|].
    + rewrite lookup_insert_eq in Hq. simplify_eq. by left.
    + rewrite lookup_insert_ne in Hq by done. right. by exists q, k.
  - intros [Hx|(q & k & Hq & Hx)].
    + exists p, n. by rewrite lookup_insert_eq.
    + exists q, k. rewrite lookup_insert_ne by congruence. done.
Qed.

Lemma in_live_delete L p x : in_live (delete p L) x → in_live L x.
Proof.
  intros (q & k & Hq & Hx). apply lookup_delete_Some in Hq as [? Hq]. by exists q, k.
Qed.

Lemma in_live_lookup (L : live_map) p n x :
  L !! p = Some n → range p n x → in_live L x.
Proof. intros. by exists p, n. Qed.

#[export] Hint Resolve in_live_delete in_live_lookup agree_on_refl : hf.

(** ** Clients

    A client allocates, frees blocks it owns and writes bytes of blocks it
    owns; [cl_shadow] remembers the last value written to each byte that is
    still owned.  Running any such program on an allocator that meets
    [AllocatorSpec] never aborts or faults, keeps the invariant, and every
    byte the client wrote and did not overwrite or free is still there. *)

Inductive client_op : Type :=
| CAlloc (size : Z)
| CFree (p : Z)
| CWrite (x v : Z).

Record client (S : Type) : Type := Client {
  cl_alloc : S;
  cl_mem : mem;
  cl_live : live_map;
  cl_shadow : gmap Z Z
}.
Arguments Client {S} _ _ _ _.
Arguments cl_alloc {S} _.
Arguments cl_mem {S} _.
Arguments cl_live {S} _.
Arguments cl_shadow {S} _.

Definition in_live_b (L : live_map) (x : Z) : bool :=
  existsb (λ qn, (qn.1 <=? x) && (x <? qn.1 + qn.2)) (map_to_list L).

Definition op_ok (lim : Z) (o : client_op) : Prop :=
  match o with CAlloc size => 0 ≤ size ≤ lim | _ => True end.

Section client.
Context {S : Type} `{!hf_allocator_vtable S}.

Definition client_step (c : client S) (o : client_op) : outcome (client S) :=
  match o with
  | CAlloc size =>
      '(s, m, p) ← hf_allocate (cl_alloc c) (cl_mem c) size;
      Ok (Client s m (if p =? NULL then cl_live c else <[p := size]> (cl_live c)) (cl_shadow c))
  | CFree p =>
      match cl_live c !! p with
      | None => Ok c
      | Some n =>
          '(s, m) ← hf_deallocate (cl_alloc c) (cl_mem c) p;
          Ok (Client s m (delete p (cl_live c))
                (filter (λ xv, ¬ (p ≤ xv.1 < p + n)) (cl_shadow c)))
      end
  | CWrite x v =>
      if in_live_b (cl_live c) x
      then Ok (Client (cl_alloc c) (store8 (cl_mem c) x v) (cl_live c) (<[x := wrap8 v]> (cl_shadow c)))
      else Ok c
  end.

Fixpoint client_run (c : client S) (os : list client_op) : outcome (client S) :=
  match os with
  | [] => Ok c
  | o :: os => c ← client_step c o; client_run c os
  end.

Context {al lim : Z} `{!AllocatorSpec al lim S}.

(** The allocator's invariant holds, and the client sees what it wrote. *)
Definition client_inv (c : client S) : Prop :=
  alloc_inv (cl_alloc c) (cl_mem c) (cl_live c) ∧
  ∀ x v, cl_shadow c !! x = Some v → in_live (cl_live c) x ∧ load8 (cl_mem c) x = v.

Lemma in_live_b_spec L x : in_live_b L x = true → in_live L x.
Proof.
  unfold in_live_b. rewrite existsb_exists. intros ([q n] & Hin & Hx). simpl in Hx. zb.
  apply list_elem_of_In, elem_of_map_to_list in Hin. exists q, n. split; [done|rlia].
Qed.

Lemma client_step_safe c o : client_inv c → op_ok lim o →
  ∃ c', client_step c o = Ok c' ∧ client_inv c'.
Proof.
  intros [Hinv Hsh] Ho. destruct o as [n|p|x v]; simpl.
  - destruct (spec_allocate _ _ _ n Hinv Ho) as (s' & m' & p & -> & Hag & Hcase).
    cbn [mbind outcome_bind]. eexists. split; [done|].
    destruct Hcase as [[-> Hinv']|(Hp & HN & Hap & Hinv')].
    + rewrite Z.eqb_refl. split; simpl; [done|]. intros x v Hx. destruct (Hsh x v Hx) as [Hl <-].
      split; [done|]. by apply Hag.
    + destruct (Z.eqb_spec p 0); [done|]. split; simpl; [done|]. intros x v Hx.
      destruct (Hsh x v Hx) as [Hl <-]. split; [|by apply Hag].
      apply in_live_insert; [done|]. by right.
  - destruct (cl_live c !! p) as [n|] eqn:Hp; [|by exists c].
    destruct (spec_deallocate _ _ _ p n Hinv Hp) as (s' & m' & -> & Hag & Hinv').
    cbn [mbind outcome_bind]. eexists. split; [done|]. split; simpl; [done|].
    intros x v Hx. apply map_lookup_filter_Some in Hx as [Hx Hout]. simpl in Hout.
    destruct (Hsh x v Hx) as [(q & k & Hq & Hr) <-].
    assert (in_live (delete p (cl_live c)) x) as Hl.
    { exists q, k. split; [|done]. apply lookup_delete_Some. split; [|done]. intros <-.
      simplify_eq. rlia. }
    split; [done|]. by apply Hag.
  - destruct (in_live_b _ x) eqn:Hx; [|by exists c]. apply in_live_b_spec in Hx.
    eexists. split; [done|]. split; simpl.
    + eapply spec_client_write; [done|]. intros y Hy. rewrite load8_store8, decide_False; [done|].
      by intros ->.
    + intros y w Hy. rewrite load8_store8. destruct (decide (y = x)) as [->|].
      * rewrite lookup_insert_eq in Hy. by simplify_eq.
      * rewrite lookup_insert_ne in Hy by done. by apply Hsh.
Qed.

Lemma client_run_safe c os : client_inv c → Forall (op_ok lim) os →
  ∃ c', client_run c os = Ok c' ∧ client_inv c'.
Proof.
  intros Hc Hos. revert c Hc. induction Hos as [|o os Ho _ IH]; intros c Hc; [by exists c|].
  destruct (client_step_safe c o Hc Ho) as (c' & Hstep & Hc'). simpl. rewrite Hstep.
  cbn [mbind outcome_bind]. auto.
Qed.

(** What a finished run guarantees, in terms of the client only. *)
Definition client_ok (al : Z) (c : client S) : Prop :=
  (∀ p n, cl_live c !! p = Some n → 0 < p ∧ p + n ≤ 2 ^ 64 ∧ (al | p)) ∧
  (∀ p n q k x, cl_live c !! p = Some n → cl_live c !! q = Some k → p ≠ q →
     range p n x → ¬ range q k x) ∧
  (∀ x v, cl_shadow c !! x = Some v → load8 (cl_mem c) x = v).

Lemma client_inv_ok c : client_inv c → client_ok al c.
Proof.
  intros [Hinv Hsh]. split_and!.
  - intros p n Hp. pose proof (spec_live_range _ _ _ p n Hinv Hp). tauto.
  - intros p n q k x Hp Hq Hne. by apply (spec_live_apart _ _ _ p n q k Hinv).
  - intros x v Hx. by apply Hsh.
Qed.

Lemma client_run_ok s m L os : alloc_inv s m L → Forall (op_ok lim) os →
  ∃ c, client_run (Client s m L ∅) os = Ok c ∧ client_ok al c ∧
       alloc_inv (cl_alloc c) (cl_mem c) (cl_live c).
Proof.
  intros Hinv Hos. destruct (client_run_safe (Client s m L ∅) os) as (c & Hrun & Hc); [|done|].
  - split; [done|]. intros x v. simpl. by rewrite lookup_empty.
  - exists c. split; [done|]. split; [by apply client_inv_ok|apply Hc].
Qed.
End client.
