(* ===== verification/Links.v ===== *)
(** * List nodes in memory

    The free list and the buddy allocator keep their lists inside the free
    blocks: a node is two words, [next] and then [prev] ([fl_node] and
    [bd_node] have the same layout).  The accessors, and what writing a link
    of one node does to the links of the others. *)

From S2P Require Import Prelude Memory.

Definition node_next (m : mem) (n : Z) : Z := load64 m n.
Definition node_prev (m : mem) (n : Z) : Z := load64 m (n + 8).
Definition set_next (m : mem) (n v : Z) : mem := store64 m n v.
Definition set_prev (m : mem) (n v : Z) : mem := store64 m (n + 8) v.

(** Nodes are non-null, 16-aligned words of the address space, listed once. *)
Definition nodes_ok (l : list Z) : Prop :=
  NoDup l ∧ Forall (λ n, 0 < n < 2 ^ 64 ∧ (16 | n)) l.

(** Byte [x] belongs to the links of a node of [l]. *)
Definition node_bytes (l : list Z) (x : Z) : Prop := ∃ n, n ∈ l ∧ range n 16 x.

(** ** Aligned words *)

Lemma node_aligned l n : nodes_ok l → n ∈ l → (8 | n) ∧ (8 | n + 8) ∧ 0 < n < 2 ^ 64 ∧ (16 | n).
Proof.
  intros [_ H] Hn. destruct (proj1 (list.Forall_forall _ _) H n Hn) as [? [k ->]].
  split_and!; try done; try lia; [exists (2 * k)|exists (2 * k + 1)|exists k]; lia.
Qed.

Lemma nodes_ok_perm l l' : l ≡ₚ l' → nodes_ok l → nodes_ok l'.
Proof. intros E [H1 H2]. split; by rewrite <- E. Qed.

Lemma nodes_ok_cons n l : nodes_ok (n :: l) → nodes_ok l ∧ (n ∉ l) ∧ 0 < n < 2 ^ 64 ∧ (16 | n).
Proof.
  intros [H1 H2]. apply NoDup_cons in H1 as [? ?]. apply Forall_cons in H2 as [[? ?] ?].
  done.
Qed.

Lemma nodes_apart l a b : nodes_ok l → a ∈ l → b ∈ l → a = b ∨ a + 16 ≤ b ∨ b + 16 ≤ a.
Proof.
  intros H Ha Hb. destruct (node_aligned l a H Ha) as (_ & _ & _ & [i ->]).
  destruct (node_aligned l b H Hb) as (_ & _ & _ & [j ->]). lia.
Qed.

(** Reading a link word of one node after writing one of another node. *)
Lemma next_set_next l m a v b : nodes_ok l → a ∈ l → b ∈ l →
  node_next (set_next m a v) b = if decide (b = a) then wrap64 v else node_next m b.
Proof.
  intros H Ha Hb. pose proof (node_aligned l a H Ha) as (? & ? & _).
  pose proof (node_aligned l b H Hb) as (? & ? & _). by apply load64_store64.
Qed.

Lemma prev_set_prev l m a v b : nodes_ok l → a ∈ l → b ∈ l →
  node_prev (set_prev m a v) b = if decide (b = a) then wrap64 v else node_prev m b.
Proof.
  intros H Ha Hb. pose proof (node_aligned l a H Ha) as (? & ? & _).
  pose proof (node_aligned l b H Hb) as (? & ? & _).
  unfold node_prev, set_prev. rewrite load64_store64 by done.
  destruct (decide (b = a)), (decide (b + 8 = a + 8)); done || lia.
Qed.

Lemma next_set_prev l m a v b : nodes_ok l → a ∈ l → b ∈ l →
  node_next (set_prev m a v) b = node_next m b.
Proof.
  intros H Ha Hb. unfold node_next, set_prev. apply load64_store64_ne.
  destruct (nodes_apart l a b H Ha Hb) as [->|]; lia.
Qed.

Lemma prev_set_next l m a v b : nodes_ok l → a ∈ l → b ∈ l →
  node_prev (set_next m a v) b = node_prev m b.
Proof.
  intros H Ha Hb. unfold node_prev, set_next. apply load64_store64_ne.
  destruct (nodes_apart l a b H Ha Hb) as [->|]; lia.
Qed.

(** Stores to link words leave all other bytes alone. *)
Lemma node_bytes_set_next l m a v : a ∈ l → agree_on (λ x, ¬ node_bytes l x) m (set_next m a v).
Proof.
  intros Ha. apply agree_on_store64. intros x Hx Hr. apply Hx. exists a. split; [done|rlia].
Qed.

Lemma node_bytes_set_prev l m a v : a ∈ l → agree_on (λ x, ¬ node_bytes l x) m (set_prev m a v).
Proof.
  intros Ha. apply agree_on_store64. intros x Hx Hr. apply Hx. exists a. split; [done|rlia].
Qed.

#[export] Hint Resolve node_bytes_set_next node_bytes_set_prev : hf.

Lemma node_bytes_perm l l' x : l ≡ₚ l' → node_bytes l x ↔ node_bytes l' x.
Proof. intros E. unfold node_bytes. by setoid_rewrite E. Qed.

Lemma agree_on_perm l l' m m' : l ≡ₚ l' →
  agree_on (λ x, ¬ node_bytes l x) m m' → agree_on (λ x, ¬ node_bytes l' x) m m'.
Proof. intros E H x Hx. apply H. by rewrite (node_bytes_perm l l'). Qed.
