(* ===== verification/Stack.v ===== *)
(** * The stack allocator ([c/src/hf_stack.c])

    Bump-pointer allocation in one mapping: each block is preceded by a
    16-byte header holding the previous top and the previous payload, so that
    frees undo allocations in LIFO order; [mark]/[rewind] drop a whole segment.
    The mutex makes each operation one atomic step; [ndebug] says whether the
    asserts are compiled in. *)

From S2P Require Import Prelude Memory Platform Allocator.

(** [sizeof(st_header)]: two [size_t] fields, [prev_top] at 0 and
    [prev_payload] at 8. *)
Definition st_header_size : Z := 16.

(** [ST_NONE], [(size_t)-1]. *)
Definition ST_NONE : Z := 2 ^ 64 - 1.

(** [st_alloc]. *)
Record st_alloc : Type := StAlloc {
  st_mem : Z;
  st_capacity : Z;
  st_top : Z;
  st_last_payload : Z;
  st_stats : hf_stats
}.

Definition st_allocate (a : st_alloc) (m : mem) (size alignment : Z) : outcome (st_alloc * mem * Z) :=
  let stats := bump_alloc (st_stats a) in
  let hdr_at := hf_align_up (st_top a) (if st_header_size <? 8 then 8 else 8) in
  let payload := hf_align_up (hdr_at +% st_header_size) alignment in
  let new_top := payload +% size in
  if new_top >? st_capacity a then
    Ok (StAlloc (st_mem a) (st_capacity a) (st_top a) (st_last_payload a) (bump_failed stats), m, NULL)
  else
    let h := st_mem a + payload - st_header_size in
    let m := store64 m h (st_top a) in
    let m := store64 m (h + 8) (st_last_payload a) in
    Ok (StAlloc (st_mem a) (st_capacity a) new_top payload (raise_peak (set_used new_top stats)),
        m, st_mem a + payload).

Definition st_deallocate (ndebug : bool) (a : st_alloc) (m : mem) (ptr : Z) : outcome (st_alloc * mem) :=
  if ptr =? NULL then Ok (a, m) else
  let stats := bump_free (st_stats a) in
  let payload := wrap64 (ptr - st_mem a) in
  _ ← c_assert ndebug (payload =? st_last_payload a);
  if negb (payload =? st_last_payload a) then
    Ok (StAlloc (st_mem a) (st_capacity a) (st_top a) (st_last_payload a) stats, m)
  else
    let h := st_mem a + payload - st_header_size in
    let top := load64 m h in
    Ok (StAlloc (st_mem a) (st_capacity a) top (load64 m (h + 8)) (set_used top stats), m).

Definition st_name (a : st_alloc) : string := "Stack".

Definition st_get_stats (a : st_alloc) : hf_stats := st_stats a.

Definition st_walk (a : st_alloc) (m : mem) : outcome (list hf_block_info) :=
  Ok ((if st_top a =? 0 then [] else [BlockInfo 0 (st_top a) false]) ++
      (if st_top a <? st_capacity a
       then [BlockInfo (st_top a) (st_capacity a -% st_top a) true] else [])).

(** The mapping [hf_vm_release] is called on. *)
Definition st_destroy (a : st_alloc) (m : mem) : outcome (Z * Z) :=
  Ok (st_mem a, st_capacity a).

#[global] Instance ST_VT (ndebug : bool) : hf_allocator_vtable st_alloc := {
  vt_allocate := st_allocate;
  vt_deallocate := st_deallocate ndebug;
  vt_name := st_name;
  vt_get_stats := st_get_stats;
  vt_walk := st_walk;
  vt_destroyed := Z * Z;
  vt_destroy := st_destroy
}.

Definition hf_stack_create (ps : Z) (mmap : Z → option Z) (calloc_ok : bool) (capacity : Z) : option st_alloc :=
  let capacity := hf_align_up (if capacity =? 0 then ps else capacity) ps in
  if negb calloc_ok then None else
  let p := hf_vm_reserve ps mmap capacity in
  if p =? NULL then None else
  Some (StAlloc p capacity 0 ST_NONE (stats_zero capacity)).

Definition hf_stack_mark (a : st_alloc) : Z := st_top a.

Definition hf_stack_rewind (ndebug : bool) (a : st_alloc) (marker : Z) : outcome st_alloc :=
  _ ← c_assert ndebug (marker <=? st_top a);
  Ok (StAlloc (st_mem a) (st_capacity a) marker ST_NONE (set_used marker (st_stats a))).

Definition hf_stack_reset (ndebug : bool) (a : st_alloc) : outcome st_alloc :=
  hf_stack_rewind ndebug a 0.

(** ** The frames below the top

    [frames m base bot top last fs]: from [top], whose newest payload is
    [last], the headers in memory lead back through the blocks [fs] (payload
    offset and size, newest first) to [bot], below which nothing can be freed
    one by one. *)
Inductive frames (m : mem) (base bot : Z) : Z → Z → list (Z * Z) → Prop :=
| frames_nil : frames m base bot bot ST_NONE []
| frames_cons top last payload size fs :
    frames m base bot top last fs →
    load64 m (base + payload - 16) = top →
    load64 m (base + payload - 8) = last →
    0 ≤ top → top + 16 ≤ payload → 0 ≤ size →
    frames m base bot (payload + size) payload ((payload, size) :: fs).

(** Well-formed stacks. *)
Record st_wf (a : st_alloc) (m : mem) (bot : Z) (fs : list (Z * Z)) : Prop := {
  wf_base : 0 < st_mem a;
  wf_cap : 0 ≤ st_capacity a ≤ 2 ^ 62;
  wf_space : st_mem a + st_capacity a ≤ 2 ^ 64;
  wf_bot : 0 ≤ bot;
  wf_top : st_top a ≤ st_capacity a;
  wf_used : used (st_stats a) = st_top a;
  wf_frames : frames m (st_mem a) bot (st_top a) (st_last_payload a) fs
}.

(** The bytes the client owns. *)
Definition frame_bytes (base : Z) (fs : list (Z * Z)) (x : Z) : Prop :=
  ∃ p n, (p, n) ∈ fs ∧ range (base + p) n x.

Lemma frames_top_ge m base bot top last fs :
  frames m base bot top last fs → bot ≤ top.
Proof. induction 1; lia. Qed.

Lemma frames_below m base bot top last fs p n :
  frames m base bot top last fs → (p, n) ∈ fs → bot + 16 ≤ p ∧ 0 ≤ n ∧ p + n ≤ top.
Proof.
  intros H. revert p n. induction H as [|top last payload size fs H IH]; intros p n Hin.
  { by apply not_elem_of_nil in Hin. }
  pose proof (frames_top_ge _ _ _ _ _ _ H).
  apply elem_of_cons in Hin as [[= -> ->]|Hin]; [lia|]. apply IH in Hin. lia.
Qed.

(** The chain survives any change of memory that leaves everything below the
    top alone, except the bytes of the blocks themselves. *)
Lemma frames_agree m m' base bot top last fs :
  frames m base bot top last fs →
  agree_on (λ x, base + bot ≤ x < base + top ∧ ¬ frame_bytes base fs x) m m' →
  frames m' base bot top last fs.
Proof.
  induction 1 as [|top last payload size fs H IH Ht Hl H0 Hp Hs]; intros Hag.
  { constructor. }
  pose proof (frames_top_ge _ _ _ _ _ _ H) as Hge.
  assert (∀ x, payload - 16 ≤ x - base < payload →
               ¬ frame_bytes base ((payload, size) :: fs) x) as Hhdr.
  { intros x Hx (p & n & Hin & Hr). unfold range in Hr.
    apply elem_of_cons in Hin as [[= -> ->]|Hin]; [lia|].
    pose proof (frames_below _ _ _ _ _ _ _ _ H Hin). lia. }
  econstructor; [apply IH|..|done|done|done].
  - intros x [Hx Hn]. apply Hag. split; [lia|].
    intros (p & n & Hin & Hr). apply elem_of_cons in Hin as [[= -> ->]|Hin].
    + unfold range in Hr. lia.
    + apply Hn. by exists p, n.
  - rewrite (load64_agree m m'); [done|]. intros x Hx. unfold range in Hx.
    apply Hag. split; [lia|]. apply Hhdr. lia.
  - rewrite (load64_agree m m'); [done|]. intros x Hx. unfold range in Hx.
    apply Hag. split; [lia|]. apply Hhdr. lia.
Qed.

(** Where the next payload goes. *)
Definition next_payload (top align : Z) : Z := round_up (round_up top 8 + 16) align.

Lemma next_payload_bounds top align : 0 < align →
  top + 16 ≤ next_payload top align < top + 24 + align.
Proof.
  intros. unfold next_payload. pose proof (round_up_ge top 8 ltac:(lia)).
  pose proof (round_up_lt top 8 ltac:(lia)).
  pose proof (round_up_ge (round_up top 8 + 16) align ltac:(lia)).
  pose proof (round_up_lt (round_up top 8 + 16) align ltac:(lia)). lia.
Qed.

(** The payload the code computes, when nothing wraps. *)
Lemma st_payload_eq top k : 0 ≤ top ≤ 2 ^ 62 → 0 ≤ k ≤ 62 →
  hf_align_up (hf_align_up top 8 +% 16) (2 ^ k) = next_payload top (2 ^ k).
Proof.
  intros Ht Hk. pose proof (pow2_pos k ltac:(lia)). pose proof (pow2_le_mono k 62 ltac:(lia)).
  pose proof (round_up_ge top 8 ltac:(lia)). pose proof (round_up_lt top 8 ltac:(lia)).
  pose proof (hf_align_up_pow2 top 3 ltac:(lia) ltac:(lia) ltac:(lia)) as E.
  change (2 ^ 3) with 8 in E. rewrite E.
  rewrite wrap64_small by (unfold is_u64; lia).
  rewrite hf_align_up_pow2 by lia. done.
Qed.

(** Unfolding of an allocation that does not wrap. *)
Lemma st_allocate_eq a m bot fs size k :
  st_wf a m bot fs → request_ok size → 0 ≤ k ≤ 62 →
  let payload := next_payload (st_top a) (2 ^ k) in
  let stats := bump_alloc (st_stats a) in
  let h := st_mem a + payload - 16 in
  st_allocate a m size (2 ^ k) =
    if payload + size >? st_capacity a
    then Ok (StAlloc (st_mem a) (st_capacity a) (st_top a) (st_last_payload a) (bump_failed stats), m, NULL)
    else Ok (StAlloc (st_mem a) (st_capacity a) (payload + size) payload
               (raise_peak (set_used (payload + size) stats)),
             store64 (store64 m h (st_top a)) (h + 8) (st_last_payload a),
             st_mem a + payload).
Proof.
  intros Hwf [? ?] Hk payload stats h. destruct Hwf.
  pose proof (frames_top_ge _ _ _ _ _ _ wf_frames0).
  pose proof (pow2_pos k ltac:(lia)). pose proof (pow2_le_mono k 62 ltac:(lia)).
  pose proof (next_payload_bounds (st_top a) (2 ^ k) ltac:(lia)).
  unfold st_allocate. change (if st_header_size <? 8 then 8 else 8) with 8.
  change st_header_size with 16. rewrite st_payload_eq by lia.
  fold payload. subst payload h stats.
  rewrite (wrap64_small (next_payload _ _ + size)) by (unfold is_u64; lia). done.
Qed.

(** The chain of the frames, extended by the header an allocation writes. *)
Lemma frames_push m base bot top last fs payload size :
  frames m base bot top last fs →
  0 ≤ bot → is_u64 top → is_u64 last → top + 16 ≤ payload → 0 ≤ size →
  let h := base + payload - 16 in
  frames (store64 (store64 m h top) (h + 8) last) base bot (payload + size) payload
         ((payload, size) :: fs).
Proof.
  intros Hf Hb Ht Hl Hp Hs h. subst h.
  pose proof (frames_top_ge _ _ _ _ _ _ Hf).
  apply (frames_cons _ _ _ top last); [|..|ulia|lia|done].
  - apply (frames_agree m); [done|]. intros x [Hx _].
    rewrite !load8_store64_out; [done|unfold range; lia|unfold range; lia].
  - mem_simpl. by apply wrap64_small.
  - replace (base + payload - 8) with (base + payload - 16 + 8) by lia. mem_simpl.
    by apply wrap64_small.
Qed.

Lemma frames_last_range m base bot top last fs :
  frames m base bot top last fs → 0 ≤ bot → top ≤ 2 ^ 63 → is_u64 last.
Proof.
  intros H Hb Ht. destruct H as [|top last payload size fs H].
  - unfold ST_NONE, is_u64. lia.
  - pose proof (frames_top_ge _ _ _ _ _ _ H). unfold is_u64. lia.
Qed.

Lemma frames_cons_inv m base bot top last p n fs :
  frames m base bot top last ((p, n) :: fs) →
  let t := load64 m (base + p - 16) in
  last = p ∧ top = p + n ∧ 0 ≤ n ∧ 0 ≤ t ∧ t + 16 ≤ p ∧
  frames m base bot t (load64 m (base + p - 8)) fs.
Proof. intros H t. inversion H; simplify_eq. auto 10. Qed.

(** Freeing the newest block of a well-formed stack, in either build. *)
Lemma st_deallocate_top nd a m bot p n fs :
  st_wf a m bot ((p, n) :: fs) →
  let top := load64 m (st_mem a + p - 16) in
  let a' := StAlloc (st_mem a) (st_capacity a) top (load64 m (st_mem a + p - 8))
                    (set_used top (bump_free (st_stats a))) in
  st_deallocate nd a m (st_mem a + p) = Ok (a', m) ∧ st_wf a' m bot fs.
Proof.
  intros [Hb Hc Hsp Hbot Ht Hu Hf] top a'.
  apply frames_cons_inv in Hf as (El & Et & Hn & Ht0 & Htp & Hf).
  unfold st_deallocate. destruct (st_mem a + p =? 0) eqn:E; zb; [lia|].
  replace (st_mem a + p - st_mem a) with p by lia.
  rewrite (wrap64_small p) by ulia.
  rewrite El, Z.eqb_refl. unfold c_assert. rewrite orb_true_r. simpl.
  change st_header_size with 16.
  replace (st_mem a + p - 16 + 8) with (st_mem a + p - 8) by lia.
  split; [done|]. split; simpl; try done; lia.
Qed.

(** A well-formed stack stays so under writes of the client to its blocks. *)
Lemma st_wf_client_write a m m' bot fs :
  st_wf a m bot fs →
  agree_on (λ x, ¬ frame_bytes (st_mem a) fs x) m m' →
  st_wf a m' bot fs.
Proof.
  intros [] Hag. split; try done. eapply frames_agree; [done|].
  intros x [_ Hx]. by apply Hag.
Qed.

Definition free_all (nd : bool) (a : st_alloc) (m : mem) (ps : list Z) : outcome (st_alloc * mem) :=
  foldl (λ r p, '(a, m) ← r; st_deallocate nd a m p) (Ok (a, m)) ps.

Lemma st_wf_last a m bot p n fs :
  st_wf a m bot ((p, n) :: fs) → st_last_payload a = p ∧ st_top a = p + n.
Proof. intros [_ _ _ _ _ _ Hf]. by apply frames_cons_inv in Hf as (-> & -> & _). Qed.

Lemma st_wf_live_apart a m bot fs p n q k :
  st_wf a m bot ((p, n) :: fs) → (q, k) ∈ fs → q + k + 16 ≤ p.
Proof.
  intros [_ _ _ _ _ _ Hf] Hin. apply frames_cons_inv in Hf as (_ & _ & _ & _ & ? & Hf).
  pose proof (frames_below _ _ _ _ _ _ _ _ Hf Hin). lia.
Qed.

(** A stack with one block in a 64 KiB arena at address 2^20. *)
Definition ex_arena : st_alloc := StAlloc (2 ^ 20) (2 ^ 16) 0 ST_NONE (stats_zero (2 ^ 16)).

Lemma ex_arena_wf : st_wf ex_arena ∅ 0 [].
Proof. split; try (simpl; lia). constructor. Qed.

(** The same arena with a block of 100 bytes at offset 16. *)
Definition ex_one : st_alloc :=
  StAlloc (2 ^ 20) (2 ^ 16) 116 16 (set_used 116 (stats_zero (2 ^ 16))).
Definition ex_one_mem : mem := store64 (store64 ∅ (2 ^ 20) 0) (2 ^ 20 + 8) ST_NONE.

Lemma ex_one_wf : st_wf ex_one ex_one_mem 0 [(16, 100)].
Proof.
  split; try (simpl; lia).
  apply (frames_push ∅ (2 ^ 20) 0 0 ST_NONE [] 16 100); try lia; try (unfold ST_NONE; ulia).
  constructor.
Qed.

(** ** Claims *)

(** Allocation in the stack, on both branches.  For a power-of-two
    alignment and a request that does not wrap, [st_allocate] either finds
    that the rounded-up block does not fit, counts the failure and changes
    nothing else, or returns the address of the next aligned payload.  In the
    second case the block lies inside the arena, above every live block and
    with 16 bytes of header between, only that header is written, and the
    stack stays well-formed with the new frame on top. *)
Theorem st_allocate_correct a m bot fs size k :
  st_wf a m bot fs → request_ok size → 0 ≤ k ≤ 62 →
  let payload := next_payload (st_top a) (2 ^ k) in
  ∃ a' m' p, st_allocate a m size (2 ^ k) = Ok (a', m', p) ∧
    ((p = NULL ∧ m' = m ∧ payload + size > st_capacity a ∧ st_wf a' m bot fs ∧
      failed_allocs (st_stats a') = failed_allocs (st_stats a) +% 1) ∨
     (p = st_mem a + payload ∧ (2 ^ k | payload) ∧ payload + size ≤ st_capacity a ∧
      st_wf a' m' bot ((payload, size) :: fs) ∧
      (∀ q n, (q, n) ∈ fs → q + n + 16 ≤ payload) ∧
      agree_on (λ x, ¬ range (p - 16) 16 x) m m')).
Proof.
  intros Hwf Hs Hk payload. rewrite (st_allocate_eq _ _ bot fs) by done. fold payload.
  pose proof (pow2_pos k ltac:(lia)).
  pose proof (next_payload_bounds (st_top a) (2 ^ k) ltac:(lia)) as Hp. fold payload in Hp.
  destruct Hs as [Hs0 Hs1].
  pose proof Hwf as [Hb Hc Hsp Hbot Ht Hu Hf].
  pose proof (frames_top_ge _ _ _ _ _ _ Hf).
  case_if; do 3 eexists; (split; [reflexivity|]).
  - left. split_and!; simpl; done || lia.
  - right. split; [done|]. split; [apply round_up_divide|]. split; [lia|].
    split; [|split].
    + split; simpl; try done; try lia.
      apply frames_push; try done; try ulia.
      eapply frames_last_range; [done..|lia].
    + intros q n Hin. pose proof (frames_below _ _ _ _ _ _ _ _ Hf Hin). lia.
    + intros x Hx. rewrite !load8_store64_out; [done|rlia|rlia].
Qed.

(** 100 bytes in a fresh arena. *)
Lemma st_allocate_correct_witness :
  ∃ a' m' p, st_allocate ex_arena ∅ 100 (2 ^ 4) = Ok (a', m', p) ∧
    ((p = NULL ∧ m' = ∅ ∧ next_payload 0 16 + 100 > 2 ^ 16 ∧ st_wf a' ∅ 0 [] ∧
      failed_allocs (st_stats a') = 0 +% 1) ∨
     (p = 2 ^ 20 + next_payload 0 16 ∧ (2 ^ 4 | next_payload 0 16) ∧ next_payload 0 16 + 100 ≤ 2 ^ 16 ∧
      st_wf a' m' 0 [(next_payload 0 16, 100)] ∧
      (∀ q n, (q, n) ∈ [] → q + n + 16 ≤ next_payload 0 16) ∧
      agree_on (λ x, ¬ range (p - 16) 16 x) ∅ m')).
Proof.
  apply (st_allocate_correct ex_arena ∅ 0 [] 100 4).
  - apply ex_arena_wf.
  - unfold request_ok. lia.
  - lia.
Defined.

(** LIFO round trip.  After any allocation that succeeds, and any writes
    of the client to its blocks, freeing the returned pointer is accepted in
    both builds and gives back the top, the newest payload, the frames and
    the byte count from before the allocation. *)
Theorem st_lifo_roundtrip nd a m bot fs size k a' m' p m'' :
  st_wf a m bot fs → request_ok size → 0 ≤ k ≤ 62 →
  st_allocate a m size (2 ^ k) = Ok (a', m', p) → p ≠ NULL →
  agree_on (λ x, ¬ frame_bytes (st_mem a') ((p - st_mem a', size) :: fs) x) m' m'' →
  ∃ a'', st_deallocate nd a' m'' p = Ok (a'', m'') ∧
    st_wf a'' m'' bot fs ∧ st_top a'' = st_top a ∧
    st_last_payload a'' = st_last_payload a ∧ used (st_stats a'') = used (st_stats a).
Proof.
  intros Hwf Hs Hk Hal Hp Hag. pose proof Hal as Hal'.
  rewrite (st_allocate_eq _ _ bot fs) in Hal by done.
  pose proof (pow2_pos k ltac:(lia)).
  pose proof (next_payload_bounds (st_top a) (2 ^ k) ltac:(lia)) as Hpb.
  destruct Hs as [Hs0 Hs1]. pose proof Hwf as [Hb Hc Hsp Hbot Ht Hu Hf].
  pose proof (frames_top_ge _ _ _ _ _ _ Hf).
  pose proof (frames_last_range _ _ _ _ _ _ Hf Hbot ltac:(lia)) as Hlast.
  destruct (_ >? _) eqn:E; zb; [by simplify_eq|]. simplify_eq. simpl in Hag.
  replace (st_mem a + next_payload (st_top a) (2 ^ k) - st_mem a)
    with (next_payload (st_top a) (2 ^ k)) in Hag by lia.
  set (payload := next_payload (st_top a) (2 ^ k)) in *.
  match goal with |- context [st_deallocate nd ?s] => set (a1 := s) end.
  match type of Hag with agree_on _ ?x _ => set (m1 := x) in * end.
  assert (frames m1 (st_mem a) bot (payload + size) payload ((payload, size) :: fs)) as Hf1
    by (apply frames_push; try done; ulia).
  assert (st_wf a1 m1 bot ((payload, size) :: fs)) as Hwf1 by (split; simpl; try done; lia).
  pose proof (st_wf_client_write _ _ _ _ _ Hwf1 Hag) as Hwf2.
  destruct (st_deallocate_top nd _ _ _ _ _ _ Hwf2) as (Hd & Hwf3).
  assert (load64 m'' (st_mem a + payload - 16) = st_top a ∧
          load64 m'' (st_mem a + payload - 8) = st_last_payload a) as [E1 E2].
  { assert (∀ x, range (st_mem a + payload - 16) 16 x → load8 m'' x = load8 m1 x) as Hh.
    { intros x Hx. apply Hag. intros (q & n & Hin & Hr).
      apply elem_of_cons in Hin as [[= -> ->]|Hin]; [rlia|].
      pose proof (frames_below _ _ _ _ _ _ _ _ Hf Hin). rlia. }
    rewrite !(load64_agree m1 m'') by (intros x Hx; apply Hh; rlia).
    subst m1. replace (st_mem a + payload - 8) with (st_mem a + payload - 16 + 8) by lia.
    mem_simpl. split; apply wrap64_small; ulia. }
  eexists. split; [exact Hd|]. split; [done|]. simpl. rewrite E1, E2. auto.
Qed.

(** Allocate 100 bytes in a fresh arena and free them. *)
Lemma st_lifo_roundtrip_witness :
  ∃ a' m' a'', st_allocate ex_arena ∅ 100 (2 ^ 4) = Ok (a', m', 2 ^ 20 + 16) ∧
    st_deallocate false a' m' (2 ^ 20 + 16) = Ok (a'', m') ∧
    st_wf a'' m' 0 [] ∧ st_top a'' = 0 ∧ st_last_payload a'' = ST_NONE ∧ used (st_stats a'') = 0.
Proof.
  pose proof (eq_refl : result_ptr (st_allocate ex_arena ∅ 100 (2 ^ 4)) = 2 ^ 20 + 16) as Hp.
  destruct (st_allocate ex_arena ∅ 100 (2 ^ 4)) as [[[a' m'] p]| | |] eqn:E; try discriminate Hp.
  simpl in Hp. rewrite Hp in E.
  destruct (st_lifo_roundtrip false ex_arena ∅ 0 [] 100 4 a' m' (2 ^ 20 + 16) m') as (a'' & H).
  - apply ex_arena_wf.
  - unfold request_ok. lia.
  - lia.
  - exact E.
  - discriminate.
  - apply agree_on_refl.
  - exists a', m', a''. split; [by rewrite Hp|]. exact H.
Defined.

(** C30. Unwinding.  Freeing the live blocks newest first is accepted at every
    step in both builds (the assert never fires) and leaves a well-formed
    stack with no frames, whose top is where the oldest frame began. *)
Theorem st_unwind nd a m bot fs :
  st_wf a m bot fs →
  ∃ a', free_all nd a m ((λ f, st_mem a + f.1) <$> fs) = Ok (a', m) ∧
        st_wf a' m bot [] ∧ st_top a' = bot.
Proof.
  revert a. induction fs as [|[p n] fs IH]; intros a Hwf.
  - exists a. split; [done|]. split; [done|].
    destruct Hwf as [_ _ _ _ _ _ Hf]. by inversion Hf.
  - destruct (st_deallocate_top nd _ _ _ _ _ _ Hwf) as (Hd & Hwf').
    destruct (IH _ Hwf') as (a' & Hfree & H). exists a'. split; [|done].
    unfold free_all in *. cbn [foldl fmap list_fmap fst]. simpl mbind. rewrite Hd. exact Hfree.
Qed.

(** Witness of C30: the arena with one block. *)
Lemma st_unwind_witness :
  ∃ a', free_all false ex_one ex_one_mem [2 ^ 20 + 16] = Ok (a', ex_one_mem) ∧
        st_wf a' ex_one_mem 0 [] ∧ st_top a' = 0.
Proof. apply (st_unwind false ex_one ex_one_mem 0 [(16, 100)]). apply ex_one_wf. Defined.

(** A pointer that is not the newest block is refused: the debug build
    aborts on the assert, and with [NDEBUG] the call only counts the free. *)
Theorem st_deallocate_non_lifo a m ptr :
  ptr ≠ NULL → wrap64 (ptr - st_mem a) ≠ st_last_payload a →
  st_deallocate false a m ptr = Abort ∧
  st_deallocate true a m ptr =
    Ok (StAlloc (st_mem a) (st_capacity a) (st_top a) (st_last_payload a) (bump_free (st_stats a)), m).
Proof.
  intros Hp Hne. unfold st_deallocate, c_assert. apply Z.eqb_neq in Hp, Hne. by rewrite Hp, Hne.
Qed.

(** Freeing an address inside the only block. *)
Lemma st_deallocate_non_lifo_witness :
  st_deallocate false ex_one ∅ (2 ^ 20 + 32) = Abort ∧
  st_deallocate true ex_one ∅ (2 ^ 20 + 32) =
    Ok (StAlloc (2 ^ 20) (2 ^ 16) 116 16 (bump_free (st_stats ex_one)), ∅).
Proof. apply (st_deallocate_non_lifo ex_one ∅ (2 ^ 20 + 32)); vm_compute; discriminate. Defined.

(** Rewinding to a mark not above the top is accepted in both builds and
    leaves a well-formed stack with no frames and the mark as its top; in
    particular a rewind to the mark taken before some allocations gives their
    bytes back, and [hf_stack_reset] empties the arena. *)
Theorem hf_stack_rewind_correct nd a m bot fs marker :
  st_wf a m bot fs → 0 ≤ marker ≤ hf_stack_mark a →
  ∃ a', hf_stack_rewind nd a marker = Ok a' ∧ st_wf a' m marker [] ∧
        hf_stack_mark a' = marker ∧ used (st_stats a') = marker.
Proof.
  intros [] [? ?]. unfold hf_stack_rewind, hf_stack_mark in *.
  assert ((marker <=? st_top a) = true) as -> by (apply Z.leb_le; lia).
  unfold c_assert. rewrite orb_true_r. simpl. eexists. split; [done|].
  split; [|done]. split; simpl; try done; try lia. constructor.
Qed.

(** The arena with one block, rewound to its start. *)
Lemma hf_stack_rewind_correct_witness :
  ∃ a', hf_stack_rewind false ex_one 0 = Ok a' ∧ st_wf a' ex_one_mem 0 [] ∧
        hf_stack_mark a' = 0 ∧ used (st_stats a') = 0.
Proof.
  apply (hf_stack_rewind_correct false ex_one ex_one_mem 0 [(16, 100)] 0).
  - apply ex_one_wf.
  - unfold hf_stack_mark. simpl. lia.
Defined.

(** A request whose end wraps around the address space is not refused:
    the sum [payload + size] overflows, the check against the capacity passes
    and the top moves below the payload, so the next block overlaps the
    "allocated" one.  Shown on a fresh arena: a request for [2^64 - 16] bytes
    succeeds and leaves the top at 0. *)
Theorem st_allocate_wraps m :
  ∃ a' m', st_allocate ex_arena m (2 ^ 64 - 16) 16 = Ok (a', m', 2 ^ 20 + 16) ∧
           st_top a' = 0.
Proof. eexists _, _. by split. Qed.
