(* ===== verification/BlockPool.v ===== *)
(** * The block pool ([c/src/hf_block_pool.c])

    A mapping cut into blocks of one size, with one bit per block in an array
    of 64-bit words (0 = free).  Allocation scans the words from a hint, skips
    full ones and takes the lowest zero bit; a free clears the bit and moves
    the hint.  The bitmap is the C array: reading a word outside it faults. *)

From S2P Require Import Prelude Memory Platform Allocator.

(** [bp_alloc]. *)
Record bp_alloc : Type := BpAlloc {
  bp_mem : Z;
  bp_capacity : Z;
  bp_block_size : Z;
  bp_block_count : Z;
  bp_hint : Z;
  bp_bitmap : list Z;
  bp_words : Z;
  bp_stats : hf_stats
}.

(** One [if (!(inv & mask)) { n += w; inv >>= w; }] of [lowest_zero]. *)
Definition lowest_zero_step (w : Z) (s : Z * Z) : Z * Z :=
  let '(n, inv) := s in
  if Z.land inv (2 ^ w - 1) =? 0 then (n + w, Z.shiftr inv w) else (n, inv).

Definition lowest_zero (bits : Z) : Z :=
  let s := (0, not64 bits) in
  let s := lowest_zero_step 32 s in
  let s := lowest_zero_step 16 s in
  let s := lowest_zero_step 8 s in
  let s := lowest_zero_step 4 s in
  let s := lowest_zero_step 2 s in
  let '(n, inv) := s in
  if Z.land inv 1 =? 0 then n + 1 else n.

(** [a->bitmap[wi]] as an rvalue and as an assignment target. *)
Definition bp_word (a : bp_alloc) (wi : Z) : outcome Z :=
  match bp_bitmap a !! Z.to_nat wi with Some w => Ok w | None => Fault end.

Definition bp_set_word (a : bp_alloc) (wi v : Z) (hint : Z) (stats : hf_stats) : bp_alloc :=
  BpAlloc (bp_mem a) (bp_capacity a) (bp_block_size a) (bp_block_count a) hint
          (<[Z.to_nat wi := v]> (bp_bitmap a)) (bp_words a) stats.

Definition bp_set_stats (a : bp_alloc) (stats : hf_stats) : bp_alloc :=
  BpAlloc (bp_mem a) (bp_capacity a) (bp_block_size a) (bp_block_count a) (bp_hint a)
          (bp_bitmap a) (bp_words a) stats.

Definition bp_test (a : bp_alloc) (idx : Z) : outcome bool :=
  bits ← bp_word a (idx / 64);
  Ok (negb (Z.land bits (Z.shiftl 1 (idx mod 64)) =? 0)).

(** The scan of [bp_allocate]: [n] rounds are left, the current one looks at
    word [(hint + w) % words].  Yields the word and the bit taken. *)
Fixpoint bp_find (a : bp_alloc) (w : Z) (n : nat) : outcome (option (Z * Z)) :=
  match n with
  | O => Ok None
  | S n =>
      let wi := (bp_hint a +% w) mod bp_words a in
      bits ← bp_word a wi;
      if bits =? 2 ^ 64 - 1 then bp_find a (w + 1) n else
      let bit := lowest_zero bits in
      let idx := wi *% 64 +% bit in
      if idx >=? bp_block_count a then bp_find a (w + 1) n else
      Ok (Some (wi, bit))
  end.

Definition bp_allocate (a : bp_alloc) (m : mem) (size alignment : Z) : outcome (bp_alloc * mem * Z) :=
  let stats := bump_alloc (bp_stats a) in
  if size >? bp_block_size a then Ok (bp_set_stats a (bump_failed stats), m, NULL) else
  r ← bp_find a 0 (Z.to_nat (bp_words a));
  match r with
  | Some (wi, bit) =>
      bits ← bp_word a wi;
      let idx := wi *% 64 +% bit in
      let stats := raise_peak (set_used (used stats +% bp_block_size a) stats) in
      Ok (bp_set_word a wi (Z.lor bits (Z.shiftl 1 bit)) wi stats, m,
          bp_mem a + idx * bp_block_size a)
  | None => Ok (bp_set_stats a (bump_failed stats), m, NULL)
  end.

Definition bp_deallocate (ndebug : bool) (a : bp_alloc) (m : mem) (ptr : Z) : outcome (bp_alloc * mem) :=
  if ptr =? NULL then Ok (a, m) else
  let stats := bump_free (bp_stats a) in
  let off := wrap64 (ptr - bp_mem a) in
  _ ← c_assert ndebug (off mod bp_block_size a =? 0);
  let idx := off / bp_block_size a in
  _ ← c_assert ndebug (idx <? bp_block_count a);
  let mask := Z.shiftl 1 (idx mod 64) in
  bits ← bp_word a (idx / 64);
  _ ← c_assert ndebug (negb (Z.land bits mask =? 0));
  let stats := set_used (used stats -% bp_block_size a) stats in
  Ok (bp_set_word a (idx / 64) (Z.land bits (not64 mask)) (idx / 64) stats, m).

Definition bp_name (a : bp_alloc) : string := "BlockPool".

Definition bp_get_stats (a : bp_alloc) : hf_stats := bp_stats a.

(** The loop of [bp_walk] at index [i], with [n] rounds left. *)
Fixpoint bp_walk_loop (a : bp_alloc) (i run_start : Z) (run_used : bool) (n : nat) : outcome (list hf_block_info) :=
  match n with
  | O => Ok []
  | S n =>
      used ← (if i <? bp_block_count a then bp_test a i else Ok (negb run_used));
      if Bool.eqb used run_used then bp_walk_loop a (i + 1) run_start run_used n else
      bs ← bp_walk_loop a (i + 1) i used n;
      Ok (BlockInfo (run_start *% bp_block_size a) ((i - run_start) *% bp_block_size a)
                    (negb run_used) :: bs)
  end.

Definition bp_walk (a : bp_alloc) (m : mem) : outcome (list hf_block_info) :=
  run_used ← bp_test a 0;
  bp_walk_loop a 1 0 run_used (Z.to_nat (bp_block_count a)).

(** The mapping [hf_vm_release] is called on. *)
Definition bp_destroy (a : bp_alloc) (m : mem) : outcome (Z * Z) :=
  Ok (bp_mem a, bp_capacity a).

#[global] Instance BP_VT (ndebug : bool) : hf_allocator_vtable bp_alloc := {
  vt_allocate := bp_allocate;
  vt_deallocate := bp_deallocate ndebug;
  vt_name := bp_name;
  vt_get_stats := bp_get_stats;
  vt_walk := bp_walk;
  vt_destroyed := Z * Z;
  vt_destroy := bp_destroy
}.

(** [calloc_ok] and [bitmap_ok] say whether the two [calloc]s succeed. *)
Definition hf_block_pool_create (ps : Z) (mmap : Z → option Z) (calloc_ok bitmap_ok : bool)
    (block_size block_count : Z) : option bp_alloc :=
  if negb calloc_ok then None else
  let bs := hf_align_up block_size HF_DEFAULT_ALIGN in
  let bytes := hf_align_up (bs *% block_count) ps in
  let p := hf_vm_reserve ps mmap bytes in
  if p =? NULL then None else
  let words := (block_count +% 63) / 64 in
  if negb bitmap_ok then None else
  Some (BpAlloc p bytes bs block_count 0 (replicate (Z.to_nat words) 0) words (stats_zero bytes)).

(** ** [lowest_zero] *)

(** [inv] is [INV >> n], no bit of [INV] below [n] is set, and one of the [w]
    lowest bits of [inv] is. *)
Definition lz_inv (INV w : Z) (s : Z * Z) : Prop :=
  0 ≤ s.1 ∧ s.2 = Z.shiftr INV s.1 ∧ (∀ j, 0 ≤ j < s.1 → Z.testbit INV j = false) ∧
  Z.land s.2 (2 ^ w - 1) ≠ 0.

Lemma land_ones_zero_bits x w : 0 ≤ w → Z.land x (2 ^ w - 1) = 0 →
  ∀ j, 0 ≤ j < w → Z.testbit x j = false.
Proof.
  intros Hw H j Hj. rewrite land_ones_mod in H by done.
  rewrite <- (Z.mod_pow2_bits_low x w) by lia. by rewrite H, Z.bits_0.
Qed.

Lemma lowest_zero_step_inv INV w s : 0 < w → lz_inv INV (2 * w) s →
  lz_inv INV w (lowest_zero_step w s).
Proof.
  intros Hw (Hn & Hi & Hlow & Hnz). destruct s as [n inv]. simpl in *.
  unfold lowest_zero_step. destruct (_ =? 0) eqn:E; zb; [|done]. split_and!; simpl; [lia|..].
  - rewrite Hi, Z.shiftr_shiftr by lia. done.
  - intros j Hj. destruct (decide (j < n)); [apply Hlow; lia|].
    pose proof (land_ones_zero_bits inv w ltac:(lia) E (j - n) ltac:(lia)) as Hb.
    rewrite Hi, Z.shiftr_spec in Hb by lia. by replace (j - n + n) with j in Hb by lia.
  - intros H. apply Hnz. rewrite land_ones_mod by lia. apply Z.bits_inj'. intros j Hj.
    rewrite Z.bits_0. destruct (decide (j < 2 * w)).
    + rewrite Z.mod_pow2_bits_low by lia. destruct (decide (j < w)).
      * apply (land_ones_zero_bits inv w); [lia|done|lia].
      * pose proof (land_ones_zero_bits (Z.shiftr inv w) w ltac:(lia) H (j - w) ltac:(lia)) as Hb.
        rewrite Z.shiftr_spec in Hb by lia. by replace (j - w + w) with j in Hb by lia.
    + by rewrite Z.mod_pow2_bits_high by lia.
Qed.

Lemma lowest_zero_spec bits : is_u64 bits → bits ≠ 2 ^ 64 - 1 →
  0 ≤ lowest_zero bits < 64 ∧ Z.testbit bits (lowest_zero bits) = false ∧
  ∀ j, 0 ≤ j < lowest_zero bits → Z.testbit bits j = true.
Proof.
  intros Hu Hne. pose (INV := not64 bits).
  assert (∀ j, 0 ≤ j < 64 → Z.testbit INV j = negb (Z.testbit bits j)) as HINV.
  { intros j Hj. unfold INV, not64, wrap64. rewrite Z.mod_pow2_bits_low by lia.
    by rewrite Z.lnot_spec by lia. }
  assert (lz_inv INV 64 (0, INV)) as H64.
  { split_and!; simpl; [lia|by rewrite Z.shiftr_0_r|lia|].
    rewrite land_ones_mod by lia. unfold INV. rewrite not64_spec by done.
    rewrite Z.mod_small by ulia. ulia. }
  apply (lowest_zero_step_inv _ 32) in H64; [|lia].
  apply (lowest_zero_step_inv _ 16) in H64; [|lia].
  apply (lowest_zero_step_inv _ 8) in H64; [|lia].
  apply (lowest_zero_step_inv _ 4) in H64; [|lia].
  apply (lowest_zero_step_inv _ 2) in H64; [|lia].
  apply (lowest_zero_step_inv _ 1) in H64; [|lia].
  unfold lowest_zero. fold INV.
  destruct (lowest_zero_step 2 _) as [n inv]. unfold lowest_zero_step in H64.
  change (2 ^ 1 - 1) with 1 in H64.
  assert (∀ r, 0 ≤ r → (∀ j, 0 ≤ j < r → Z.testbit INV j = false) → Z.testbit INV r = true →
    0 ≤ r < 64 ∧ Z.testbit bits r = false ∧ ∀ j, 0 ≤ j < r → Z.testbit bits j = true) as Hfin.
  { intros r Hr Hlow Hbit. assert (r < 64).
    { destruct (decide (r < 64)); [done|]. rewrite u64_testbit_high in Hbit; [done| |lia].
      apply wrap64_range. }
    split; [lia|]. rewrite HINV in Hbit by lia. split; [by destruct (Z.testbit bits r)|].
    intros j Hj. pose proof (Hlow j Hj) as Hb. rewrite HINV in Hb by lia.
    by destruct (Z.testbit bits j). }
  assert (∀ n, 0 ≤ n → Z.land (Z.shiftr INV n) 1 ≠ 0 → Z.testbit INV n = true) as Hlast.
  { intros n' Hn' H. destruct (Z.testbit INV n') eqn:E; [done|]. destruct H.
    change 1 with (2 ^ 1 - 1). rewrite land_ones_mod by lia.
    rewrite Z.pow_1_r, <- Z.bit0_mod, Z.shiftr_spec, Z.add_0_l, E by lia. done. }
  destruct (Z.land inv 1 =? 0); destruct H64 as (Hn & Hi & Hlow & Hnz); cbn [fst snd] in *;
    rewrite Hi in Hnz; change (2 ^ 1 - 1) with 1 in Hnz; apply Hfin; auto.
Qed.

(** ** The bitmap *)

(** The bit of block [idx]. *)
Definition bp_bit (a : bp_alloc) (idx : Z) : bool :=
  Z.testbit (default 0 (bp_bitmap a !! Z.to_nat (idx / 64))) (idx mod 64).

(** The number of blocks in use. *)
Definition bp_used_count (a : bp_alloc) : Z :=
  count_if (bp_bit a) (seqZ 0 (bp_block_count a)).

(** Well-formed pools. *)
Record bp_wf (a : bp_alloc) : Prop := {
  bp_wf_mem : 0 < bp_mem a ∧ (16 | bp_mem a);
  bp_wf_size : 0 < bp_block_size a ∧ (16 | bp_block_size a);
  bp_wf_count : 0 < bp_block_count a;
  bp_wf_fits : bp_block_size a * bp_block_count a ≤ bp_capacity a;
  bp_wf_space : bp_mem a + bp_capacity a ≤ 2 ^ 64;
  bp_wf_words : bp_words a = (bp_block_count a + 63) / 64;
  bp_wf_length : length (bp_bitmap a) = Z.to_nat (bp_words a);
  bp_wf_u64 : Forall is_u64 (bp_bitmap a);
  bp_wf_hint : 0 ≤ bp_hint a < bp_words a;
  bp_wf_used : used (bp_stats a) = bp_block_size a * bp_used_count a
}.

Section pool.
Context (a : bp_alloc) (Hwf : bp_wf a).

Lemma bp_count_small : bp_block_count a ≤ 2 ^ 60.
Proof.
  destruct Hwf as [[? _] [? [k Hk]] ? ? ? _ _ _ _ _].
  assert (16 ≤ bp_block_size a) by lia. nia.
Qed.

Lemma bp_words_bounds : 0 < bp_words a ∧ bp_words a ≤ 2 ^ 55 ∧ bp_block_count a ≤ bp_words a * 64.
Proof.
  pose proof bp_count_small. destruct Hwf as [_ _ ? _ _ Hw _ _ _ _]. rewrite Hw.
  pose proof (Z.div_mod (bp_block_count a + 63) 64 ltac:(lia)).
  pose proof (Z.mod_pos_bound (bp_block_count a + 63) 64 ltac:(lia)). lia.
Qed.

Lemma bp_word_ok wi : 0 ≤ wi < bp_words a →
  ∃ w, bp_word a wi = Ok w ∧ bp_bitmap a !! Z.to_nat wi = Some w ∧ is_u64 w.
Proof.
  intros Hwi. destruct Hwf as [_ _ _ _ _ _ Hl Hu _ _]. unfold bp_word.
  destruct (lookup_lt_is_Some_2 (bp_bitmap a) (Z.to_nat wi)) as [w Hw]; [lia|].
  rewrite Hw. exists w. split; [done|]. split; [done|]. by eapply Forall_lookup_1 in Hu.
Qed.

Lemma bp_idx_word idx : 0 ≤ idx < bp_block_count a → 0 ≤ idx / 64 < bp_words a.
Proof.
  intros. pose proof bp_words_bounds. split; [apply Z.div_pos; lia|].
  apply Z.div_lt_upper_bound; lia.
Qed.

Lemma bp_test_ok idx : 0 ≤ idx < bp_block_count a → bp_test a idx = Ok (bp_bit a idx).
Proof.
  intros Hi. destruct (bp_word_ok (idx / 64)) as (w & Hw & Hl & _); [by apply bp_idx_word|].
  unfold bp_test, bp_bit. rewrite Hw, Hl. simpl. f_equal. apply test_mask.
  apply Z.mod_pos_bound. lia.
Qed.

Lemma bp_bit_word wi bit w : 0 ≤ wi → 0 ≤ bit < 64 → bp_bitmap a !! Z.to_nat wi = Some w →
  bp_bit a (wi * 64 + bit) = Z.testbit w bit.
Proof.
  intros. unfold bp_bit. rewrite Z.div_add_l, Z.div_small, Z.add_0_r by lia.
  rewrite Z.add_comm, Z.mod_add, Z.mod_small by lia. by rewrite H1.
Qed.

(** Replacing word [wi] changes the bits of that word and no others. *)
Lemma bp_bit_set_word wi v hint stats idx : 0 ≤ wi < bp_words a → 0 ≤ idx →
  bp_bit (bp_set_word a wi v hint stats) idx =
    if decide (idx / 64 = wi) then Z.testbit v (idx mod 64) else bp_bit a idx.
Proof.
  intros Hwi Hi. unfold bp_bit, bp_set_word. simpl. pose proof (Z.div_pos idx 64 Hi ltac:(lia)).
  case_decide; subst.
  - rewrite list_lookup_insert_eq; [done|]. destruct Hwf as [_ _ _ _ _ _ -> _ _ _]. lia.
  - rewrite list_lookup_insert_ne; [done|lia].
Qed.

(** ** The scan *)

Lemma bp_find_spec w n : 0 ≤ w → w + Z.of_nat n ≤ bp_words a →
  ∃ r, bp_find a w n = Ok r ∧
    match r with
    | Some (wi, bit) =>
        0 ≤ wi < bp_words a ∧ 0 ≤ bit < 64 ∧ wi * 64 + bit < bp_block_count a ∧
        bp_bit a (wi * 64 + bit) = false ∧
        (∀ j, 0 ≤ j < bit → bp_bit a (wi * 64 + j) = true)
    | None =>
        ∀ w' idx, w ≤ w' < w + Z.of_nat n → 0 ≤ idx < bp_block_count a →
          idx / 64 = (bp_hint a + w') mod bp_words a → bp_bit a idx = true
    end.
Proof.
  pose proof bp_words_bounds as (Hw0 & Hw1 & Hw2). pose proof (bp_wf_hint _ Hwf) as Hh.
  revert w. induction n as [|n IH]; intros w Hw Hn; cbn [bp_find].
  { exists None. split; [done|]. lia. }
  set (wi := (bp_hint a +% w) mod bp_words a).
  assert (wi = (bp_hint a + w) mod bp_words a) as Ewi by (unfold wi; rewrite wrap64_small; [done|ulia]).
  assert (0 ≤ wi < bp_words a) as Hwi by (apply Z.mod_pos_bound; lia).
  destruct (bp_word_ok wi Hwi) as (bits & Hbits & Hlk & Hu). rewrite Hbits. cbn [mbind outcome_bind].
  destruct (IH (w + 1)) as (r & Hr & Hspec); [lia..|].
  assert ((∀ idx, 0 ≤ idx < bp_block_count a → idx / 64 = wi → bp_bit a idx = true) →
    ∃ r, bp_find a (w + 1) n = Ok r ∧ match r with
    | Some (wi, bit) =>
        0 ≤ wi < bp_words a ∧ 0 ≤ bit < 64 ∧ wi * 64 + bit < bp_block_count a ∧
        bp_bit a (wi * 64 + bit) = false ∧ (∀ j, 0 ≤ j < bit → bp_bit a (wi * 64 + j) = true)
    | None =>
        ∀ w' idx, w ≤ w' < w + Z.of_nat (S n) → 0 ≤ idx < bp_block_count a →
          idx / 64 = (bp_hint a + w') mod bp_words a → bp_bit a idx = true
    end) as Hskip.
  { intros Hfull. exists r. split; [done|]. destruct r as [[? ?]|]; [done|].
    intros w' idx Hw' Hidx Hdiv. destruct (decide (w' = w)) as [->|].
    - apply Hfull; [done|]. by rewrite Ewi.
    - apply (Hspec w' idx); [lia|done|done]. }
  assert (∀ idx, 0 ≤ idx → idx / 64 = wi → bp_bit a idx = Z.testbit bits (idx mod 64)) as Hbit.
  { intros idx _ Hd. unfold bp_bit. by rewrite Hd, Hlk. }
  destruct (bits =? 2 ^ 64 - 1) eqn:Efull; zb.
  { apply Hskip. intros idx Hidx Hd. rewrite Hbit by (done || lia). rewrite Efull.
    change (2 ^ 64 - 1) with (Z.ones 64). apply Z.ones_spec_low. apply Z.mod_pos_bound. lia. }
  pose proof (lowest_zero_spec bits Hu Efull) as (Hlz & Hz & Hlow).
  rewrite (wrap64_small (wi * 64)) by ulia. rewrite wrap64_small by ulia.
  destruct (_ >=? _) eqn:Ege; zb.
  - apply Hskip. intros idx Hidx Hd. rewrite Hbit by (done || lia). apply Hlow.
    pose proof (Z.div_mod idx 64 ltac:(lia)). pose proof (Z.mod_pos_bound idx 64 ltac:(lia)). lia.
  - eexists. split; [done|]. simpl. split_and!; try lia.
    + by rewrite (bp_bit_word wi _ bits) by (done || lia).
    + intros j Hj. rewrite (bp_bit_word wi _ bits) by (done || lia). by apply Hlow.
Qed.

(** The whole scan finds a free block exactly when there is one. *)
Lemma bp_find_all :
  ∃ r, bp_find a 0 (Z.to_nat (bp_words a)) = Ok r ∧
    match r with
    | Some (wi, bit) =>
        0 ≤ wi < bp_words a ∧ 0 ≤ bit < 64 ∧ wi * 64 + bit < bp_block_count a ∧
        bp_bit a (wi * 64 + bit) = false
    | None => ∀ idx, 0 ≤ idx < bp_block_count a → bp_bit a idx = true
    end.
Proof.
  pose proof bp_words_bounds as (Hw0 & Hw1 & Hw2). pose proof (bp_wf_hint _ Hwf) as Hh.
  destruct (bp_find_spec 0 (Z.to_nat (bp_words a))) as (r & Hr & Hspec); [lia..|].
  exists r. split; [done|]. destruct r as [[wi bit]|]; [tauto|].
  intros idx Hidx. pose proof (bp_idx_word idx Hidx) as Hd.
  apply (Hspec ((idx / 64 - bp_hint a) mod bp_words a)).
  - pose proof (Z.mod_pos_bound (idx / 64 - bp_hint a) (bp_words a) ltac:(lia)). lia.
  - done.
  - rewrite Z.add_mod_idemp_r by lia. replace (bp_hint a + _) with (idx / 64) by lia.
    by rewrite Z.mod_small.
Qed.
End pool.

(** ** The operations *)

(** The fields no operation changes. *)
Definition bp_same (a a' : bp_alloc) : Prop :=
  bp_mem a' = bp_mem a ∧ bp_capacity a' = bp_capacity a ∧ bp_block_size a' = bp_block_size a ∧
  bp_block_count a' = bp_block_count a ∧ bp_words a' = bp_words a.

(** The address of block [i]. *)
Definition bp_addr (a : bp_alloc) (i : Z) : Z := bp_mem a + i * bp_block_size a.

Lemma bp_used_count_bounds a : bp_wf a → 0 ≤ bp_used_count a ≤ bp_block_count a.
Proof.
  intros Hwf. pose proof (bp_wf_count _ Hwf).
  pose proof (count_if_bounds (bp_bit a) (seqZ 0 (bp_block_count a))) as H1.
  rewrite length_seqZ in H1. unfold bp_used_count. lia.
Qed.

Lemma bp_wf_set_stats a st : bp_wf a → used st = used (bp_stats a) → bp_wf (bp_set_stats a st).
Proof. intros [] H. split; try done. simpl. by rewrite H. Qed.

(** Writing a 64-bit word keeps a pool well-formed when the byte count follows
    the number of set bits. *)
Lemma bp_wf_set_word a wi v st : bp_wf a → 0 ≤ wi < bp_words a → is_u64 v →
  used st = bp_block_size a * bp_used_count (bp_set_word a wi v wi st) →
  bp_wf (bp_set_word a wi v wi st).
Proof.
  intros [] Hwi Hv Hst. split; try done.
  - simpl. by rewrite length_insert.
  - simpl. by apply Forall_insert.
Qed.

(** Setting, resp. clearing, the bit of block [i] as the code does. *)
Lemma bp_bit_set a i w st j : bp_wf a → 0 ≤ i < bp_block_count a → 0 ≤ j →
  bp_bitmap a !! Z.to_nat (i / 64) = Some w →
  bp_bit (bp_set_word a (i / 64) (Z.lor w (Z.shiftl 1 (i mod 64))) (i / 64) st) j
    = bp_bit a j || (j =? i).
Proof.
  intros Hwf Hi Hj Hw. pose proof (bp_idx_word a Hwf i Hi). rewrite bp_bit_set_word by done.
  pose proof (Z.mod_pos_bound i 64 ltac:(lia)). pose proof (Z.mod_pos_bound j 64 ltac:(lia)).
  pose proof (Z.div_mod i 64 ltac:(lia)). pose proof (Z.div_mod j 64 ltac:(lia)).
  case_decide as E.
  - rewrite testbit_set_mask by lia. unfold bp_bit at 1. rewrite E, Hw. simpl. f_equal.
    destruct (Z.eqb_spec (j mod 64) (i mod 64)), (Z.eqb_spec j i); congruence || lia.
  - destruct (Z.eqb_spec j i); [congruence|]. by rewrite orb_false_r.
Qed.

Lemma bp_bit_clear a i w st j : bp_wf a → 0 ≤ i < bp_block_count a → 0 ≤ j →
  bp_bitmap a !! Z.to_nat (i / 64) = Some w →
  bp_bit (bp_set_word a (i / 64) (Z.land w (not64 (Z.shiftl 1 (i mod 64)))) (i / 64) st) j
    = bp_bit a j && negb (j =? i).
Proof.
  intros Hwf Hi Hj Hw. pose proof (bp_idx_word a Hwf i Hi). rewrite bp_bit_set_word by done.
  pose proof (Z.mod_pos_bound i 64 ltac:(lia)). pose proof (Z.mod_pos_bound j 64 ltac:(lia)).
  pose proof (Z.div_mod i 64 ltac:(lia)). pose proof (Z.div_mod j 64 ltac:(lia)).
  case_decide as E.
  - rewrite testbit_clear_mask by lia. unfold bp_bit at 1. rewrite E, Hw. simpl. do 2 f_equal.
    destruct (Z.eqb_spec (j mod 64) (i mod 64)), (Z.eqb_spec j i); congruence || lia.
  - destruct (Z.eqb_spec j i); [congruence|]. by rewrite andb_true_r.
Qed.

Lemma bp_used_count_set a a' i : bp_wf a → 0 ≤ i < bp_block_count a → bp_same a a' →
  bp_bit a i = false → (∀ j, 0 ≤ j → bp_bit a' j = bp_bit a j || (j =? i)) →
  bp_used_count a' = bp_used_count a + 1.
Proof.
  intros Hwf Hi (_ & _ & _ & Hc & _) Hf Hb. unfold bp_used_count. rewrite Hc.
  apply (count_if_flip _ _ _ i); [apply NoDup_seqZ|apply elem_of_seqZ; lia|done|..].
  - rewrite Hb by lia. by rewrite Z.eqb_refl, orb_true_r.
  - intros y Hy Hne. apply elem_of_seqZ in Hy. rewrite Hb by lia.
    destruct (Z.eqb_spec y i); [done|]. by rewrite orb_false_r.
Qed.

Lemma bp_used_count_clear a a' i : bp_wf a → 0 ≤ i < bp_block_count a → bp_same a a' →
  bp_bit a i = true → (∀ j, 0 ≤ j → bp_bit a' j = bp_bit a j && negb (j =? i)) →
  bp_used_count a = bp_used_count a' + 1.
Proof.
  intros Hwf Hi (_ & _ & _ & Hc & _) Hf Hb. unfold bp_used_count. rewrite Hc.
  apply (count_if_flip _ _ _ i); [apply NoDup_seqZ|apply elem_of_seqZ; lia| |done|..].
  - rewrite Hb by lia. by rewrite Z.eqb_refl, andb_false_r.
  - intros y Hy Hne. apply elem_of_seqZ in Hy. rewrite Hb by lia.
    destruct (Z.eqb_spec y i); [done|]. by rewrite andb_true_r.
Qed.

(** What an allocation that fits the block size does. *)
Lemma bp_allocate_cases a m size al : bp_wf a → size ≤ bp_block_size a →
  (∃ i a', 0 ≤ i < bp_block_count a ∧ bp_bit a i = false ∧
     bp_allocate a m size al = Ok (a', m, bp_addr a i) ∧ bp_wf a' ∧ bp_same a a' ∧
     bp_hint a' = i / 64 ∧ (∀ j, 0 ≤ j → bp_bit a' j = bp_bit a j || (j =? i))) ∨
  ((∀ i, 0 ≤ i < bp_block_count a → bp_bit a i = true) ∧
   bp_allocate a m size al = Ok (bp_set_stats a (bump_failed (bump_alloc (bp_stats a))), m, NULL)).
Proof.
  intros Hwf Hsz. unfold bp_allocate. destruct (size >? _) eqn:E; zb; [lia|].
  destruct (bp_find_all a Hwf) as (r & -> & Hr). cbn [mbind outcome_bind].
  destruct r as [[wi bit]|]; [left|by right].
  destruct Hr as (Hwi & Hbit & Hlt & Hfree).
  pose proof (bp_words_bounds a Hwf) as (_ & Hws & _).
  rewrite (wrap64_small (wi * 64)) by ulia. rewrite (wrap64_small (wi * 64 + bit)) by ulia.
  set (i := wi * 64 + bit) in *.
  assert (i / 64 = wi) as Ed by (unfold i; rewrite Z.div_add_l, Z.div_small by lia; lia).
  assert (i mod 64 = bit) as Em by (unfold i; rewrite Z.add_comm, Z.mod_add, Z.mod_small by lia; lia).
  destruct (bp_word_ok a Hwf wi Hwi) as (w & -> & Hw & Hu). cbn [mbind outcome_bind].
  rewrite <- Em. rewrite <- Ed in Hw |- *.
  match goal with |- context [Ok (?x, m, _)] => set (a' := x) end.
  assert (∀ j, 0 ≤ j → bp_bit a' j = bp_bit a j || (j =? i)) as Hb
    by (intros; apply bp_bit_set; done || lia).
  pose proof (bp_used_count_set a a' i Hwf ltac:(lia) ltac:(done) Hfree Hb) as Hcnt.
  exists i, a'. split_and!; try done; try lia.
  apply bp_wf_set_word; [done|by rewrite Ed| |].
  - apply lor_u64; [done|]. apply shiftl_1_u64. lia.
  - fold a'. rewrite Hcnt. simpl. rewrite (bp_wf_used _ Hwf).
    assert (bp_used_count a' ≤ bp_block_count a).
    { unfold bp_used_count. pose proof (count_if_bounds (bp_bit a') (seqZ 0 (bp_block_count a'))) as Hbd.
      rewrite length_seqZ in Hbd. change (bp_block_count a') with (bp_block_count a) in *. lia. }
    pose proof (bp_used_count_bounds a Hwf). destruct Hwf. rewrite wrap64_small; [lia|].
    split; nia.
Qed.

(** What freeing a block in use does, in either build. *)
Lemma bp_deallocate_used nd a m i : bp_wf a → 0 ≤ i < bp_block_count a → bp_bit a i = true →
  ∃ a', bp_deallocate nd a m (bp_addr a i) = Ok (a', m) ∧ bp_wf a' ∧ bp_same a a' ∧
        bp_hint a' = i / 64 ∧ (∀ j, 0 ≤ j → bp_bit a' j = bp_bit a j && negb (j =? i)).
Proof.
  intros Hwf Hi Hbit. pose proof Hwf as [[Hm _] [Hs _] Hc Hfit Hsp _ _ _ _ Hused].
  unfold bp_deallocate, bp_addr.
  destruct (bp_mem a + i * bp_block_size a =? 0) eqn:E; zb; [nia|].
  replace (bp_mem a + i * bp_block_size a - bp_mem a) with (i * bp_block_size a) by lia.
  rewrite (wrap64_small (i * _)) by (unfold is_u64; nia).
  rewrite Z.mod_mul, Z.div_mul, Z.eqb_refl by lia.
  step_assert by done. step_assert by (apply Z.ltb_lt; lia).
  destruct (bp_word_ok a Hwf (i / 64)) as (w & -> & Hw & Hu); [by apply bp_idx_word|].
  cbn [mbind outcome_bind].
  pose proof (Z.mod_pos_bound i 64 ltac:(lia)) as Him.
  step_assert by (rewrite test_mask by lia; unfold bp_bit in Hbit; by rewrite Hw in Hbit).
  match goal with |- context [Ok (?x, m)] => set (a' := x) end.
  assert (∀ j, 0 ≤ j → bp_bit a' j = bp_bit a j && negb (j =? i)) as Hb
    by (intros; apply bp_bit_clear; done || lia).
  pose proof (bp_used_count_clear a a' i Hwf Hi ltac:(done) Hbit Hb) as Hcnt.
  exists a'. split_and!; try done.
  apply bp_wf_set_word; [done|by apply bp_idx_word| |].
  - apply land_u64; [done|]. pose proof (wrap64_range (Z.lnot (Z.shiftl 1 (i mod 64)))).
    unfold not64. ulia.
  - fold a'. simpl. rewrite Hused.
    pose proof (bp_used_count_bounds a Hwf).
    assert (0 ≤ bp_used_count a').
    { unfold bp_used_count. pose proof (count_if_bounds (bp_bit a') (seqZ 0 (bp_block_count a'))). lia. }
    rewrite wrap64_small by (unfold is_u64; nia). nia.
Qed.

(** ** The layout [bp_walk] reports *)

(** Neighbouring blocks of the layout differ in state; [f] is the state of the
    first one. *)
Fixpoint alternating (f : bool) (bs : list hf_block_info) : Prop :=
  match bs with
  | [] => True
  | b :: bs => is_free b = f ∧ alternating (negb f) bs
  end.

(** The state a layout reports for block [idx] of the pool is its bit. *)
Definition layout_matches (a : bp_alloc) (bs : list hf_block_info) : Prop :=
  ∀ b idx, b ∈ bs → 0 ≤ idx →
    offset b ≤ idx * bp_block_size a < offset b + size b → bp_bit a idx = negb (is_free b).

Lemma bp_walk_loop_spec a i start u n : bp_wf a →
  0 ≤ start < i → i + Z.of_nat n = bp_block_count a →
  (∀ j, start ≤ j < i → bp_bit a j = u) →
  ∃ bs, bp_walk_loop a i start u (S n) = Ok bs ∧
    tiles (start * bp_block_size a) (bp_block_count a * bp_block_size a) bs ∧
    alternating (negb u) bs ∧ layout_matches a bs ∧
    sum_sizes false bs
      = bp_block_size a * count_if (bp_bit a) (seqZ start (bp_block_count a - start)).
Proof.
  intros Hwf. pose proof Hwf as [[Hm _] [Hs _] Hc Hfit Hsp _ _ _ _ _].
  revert i start u. induction n as [|n IH]; intros i start u Hst Hin Hrun.
  - cbn [bp_walk_loop]. destruct (i <? _) eqn:E; zb; [lia|]. cbn [mbind outcome_bind].
    assert (Bool.eqb (negb u) u = false) as -> by by destruct u.
    eexists. split; [done|]. assert (i = bp_block_count a) as -> by lia.
    rewrite !wrap64_small by (unfold is_u64; nia). split_and!; [simpl; split_and!; nia|done|..].
    + intros b idx Hb Hi Hr. apply list_elem_of_singleton in Hb. subst b. simpl in *.
      rewrite negb_involutive. apply Hrun. nia.
    + cbn. rewrite (count_if_const _ u), length_seqZ.
      2:{ intros x Hx. apply elem_of_seqZ in Hx. apply Hrun. lia. }
      destruct u; simpl; lia.
  - remember (S n) as n' eqn:En'. cbn [bp_walk_loop].
    destruct (i <? _) eqn:E; zb; [|lia].
    rewrite bp_test_ok by (done || lia). cbn [mbind outcome_bind]. subst n'.
    destruct (Bool.eqb (bp_bit a i) u) eqn:Eu.
    { apply eqb_prop in Eu. apply (IH (i + 1)); [lia..|].
      intros j Hj. destruct (decide (j = i)) as [->|]; [done|]. apply Hrun. lia. }
    assert (bp_bit a i = negb u) as Ebit by (destruct (bp_bit a i), u; done).
    destruct (IH (i + 1) i (bp_bit a i)) as (bs & Hbs & Ht & Ha & Hl & Hsum); [lia..| |].
    { intros j Hj. by replace j with i by lia. }
    rewrite Hbs. cbn [mbind outcome_bind]. eexists. split; [done|].
    rewrite !wrap64_small by (unfold is_u64; nia). split_and!.
    + simpl. split_and!; [done|nia|]. replace (_ + (i - start) * _) with (i * bp_block_size a) by lia. done.
    + simpl. by rewrite Ebit in Ha.
    + intros b idx Hb Hi Hr. apply elem_of_cons in Hb as [->|Hb].
      * simpl in *. rewrite negb_involutive. apply Hrun. nia.
      * by apply (Hl b).
    + replace (bp_block_count a - start) with ((i - start) + (bp_block_count a - i)) by lia.
      rewrite seqZ_app by lia. replace (start + (i - start)) with i by lia.
      rewrite count_if_app, (count_if_const (bp_bit a) u (seqZ start _)), length_seqZ.
      2:{ intros x Hx. apply elem_of_seqZ in Hx. apply Hrun. lia. }
      cbn [sum_sizes foldr is_free size] in *. unfold sum_sizes in Hsum. rewrite Hsum.
      destruct u; simpl; lia.
Qed.

(** ** The pool as an allocator *)

(** The live blocks of a pool: one entry per set bit, at the block's address. *)
Definition bp_live (a : bp_alloc) (L : live_map) : Prop :=
  (∀ i, 0 ≤ i < bp_block_count a → bp_bit a i = true ↔ is_Some (L !! bp_addr a i)) ∧
  (∀ p n, L !! p = Some n → 0 ≤ n ≤ bp_block_size a ∧
     ∃ i, 0 ≤ i < bp_block_count a ∧ p = bp_addr a i).

Definition bp_inv (a : bp_alloc) (m : mem) (L : live_map) : Prop := bp_wf a ∧ bp_live a L.

Lemma bp_addr_inj a i j : bp_wf a → bp_addr a i = bp_addr a j → i = j.
Proof. intros [_ [? _] _ _ _ _ _ _ _ _]. unfold bp_addr. nia. Qed.

Lemma bp_addr_pos a i : bp_wf a → 0 ≤ i → 0 < bp_addr a i.
Proof. intros [[? _] [? _] _ _ _ _ _ _ _ _]. unfold bp_addr. nia. Qed.

Lemma bp_addr_apart a i j n k x : bp_wf a → i ≠ j → n ≤ bp_block_size a → k ≤ bp_block_size a →
  range (bp_addr a i) n x → ¬ range (bp_addr a j) k x.
Proof. intros [_ [? _] _ _ _ _ _ _ _ _]. unfold bp_addr, range. nia. Qed.

Lemma bp_same_addr a a' i : bp_same a a' → bp_addr a' i = bp_addr a i.
Proof. intros (E1 & _ & E3 & _). unfold bp_addr. by rewrite E1, E3. Qed.

Lemma bp_live_alloc a a' L i n : bp_wf a → bp_live a L → bp_same a a' →
  0 ≤ i < bp_block_count a → 0 ≤ n ≤ bp_block_size a →
  (∀ j, 0 ≤ j → bp_bit a' j = bp_bit a j || (j =? i)) →
  bp_live a' (<[bp_addr a i := n]> L).
Proof.
  intros Hwf [Hbits Hblk] Hsame Hi Hn Hb. pose proof Hsame as (_ & _ & Es & Ec & _).
  split; rewrite Ec.
  - intros j Hj. rewrite (bp_same_addr a a') by done. rewrite Hb by lia.
    destruct (decide (j = i)) as [->|].
    + rewrite lookup_insert_eq, Z.eqb_refl, orb_true_r. split; [eauto|done].
    + rewrite lookup_insert_ne by (intros E; by apply bp_addr_inj in E).
      destruct (Z.eqb_spec j i); [done|]. rewrite orb_false_r. by apply Hbits.
  - intros p k Hp. rewrite Es. destruct (decide (p = bp_addr a i)) as [->|].
    + rewrite lookup_insert_eq in Hp. simplify_eq. split; [done|]. exists i.
      by rewrite (bp_same_addr a a').
    + rewrite lookup_insert_ne in Hp by done. destruct (Hblk p k Hp) as (? & j & ? & ->).
      split; [done|]. exists j. by rewrite (bp_same_addr a a').
Qed.

Lemma bp_live_free a a' L i : bp_wf a → bp_live a L → bp_same a a' →
  0 ≤ i < bp_block_count a →
  (∀ j, 0 ≤ j → bp_bit a' j = bp_bit a j && negb (j =? i)) →
  bp_live a' (delete (bp_addr a i) L).
Proof.
  intros Hwf [Hbits Hblk] Hsame Hi Hb. pose proof Hsame as (_ & _ & Es & Ec & _).
  split; rewrite Ec.
  - intros j Hj. rewrite (bp_same_addr a a') by done. rewrite Hb by lia.
    destruct (decide (j = i)) as [->|].
    + rewrite lookup_delete_eq, Z.eqb_refl, andb_false_r. split; [done|by intros [? ?]].
    + rewrite lookup_delete_ne by (intros E; by apply bp_addr_inj in E).
      destruct (Z.eqb_spec j i); [done|]. rewrite andb_true_r. by apply Hbits.
  - intros p k [_ Hp]%lookup_delete_Some. rewrite Es. destruct (Hblk p k Hp) as (? & j & ? & ->).
    split; [done|]. exists j. by rewrite (bp_same_addr a a').
Qed.

Lemma bp_inv_apart a m L p n q k : bp_inv a m L → L !! p = Some n → L !! q = Some k → p ≠ q →
  ∀ x, range p n x → ¬ range q k x.
Proof.
  intros [Hwf [_ Hblk]] Hp Hq Hne x Hx. destruct (Hblk p n Hp) as (? & i & ? & ->).
  destruct (Hblk q k Hq) as (? & j & ? & ->).
  eapply (bp_addr_apart a i j n k); [done|congruence|lia|lia|done].
Qed.

#[global] Instance bp_spec (nd : bool) : AllocatorSpec HF_DEFAULT_ALIGN (2 ^ 62) bp_alloc (hf_allocator_vtable0 := BP_VT nd).
Proof.
  refine {| alloc_inv := bp_inv |}.
  - intros s m L p n [Hwf [_ Hblk]] Hp. destruct (Hblk p n Hp) as (? & i & ? & ->).
    pose proof (bp_addr_pos s i Hwf ltac:(lia)). split; [done|].
    destruct Hwf as [[? Hm] [? Hs] _ ? ? _ _ _ _ _]. split; [lia|]. split.
    + unfold bp_addr. nia.
    + apply Z.divide_add_r; [done|]. by apply Z.divide_mul_r.
  - apply bp_inv_apart.
  - intros s m L sz [Hwf Hl] [Hs _]. unfold hf_allocate, vt_allocate, BP_VT.
    destruct (decide (sz ≤ bp_block_size s)) as [Hle|Hgt].
    + destruct (bp_allocate_cases s m sz HF_DEFAULT_ALIGN Hwf Hle)
        as [(i & a' & Hi & Hfree & -> & Hwf' & Hsame & _ & Hb)|(Hfull & ->)].
      * exists a', m, (bp_addr s i). split; [done|]. split; [done|]. right.
        pose proof (bp_addr_pos s i Hwf ltac:(lia)).
        assert (L !! bp_addr s i = None) as HN.
        { destruct (L !! bp_addr s i) eqn:E; [|done].
          enough (bp_bit s i = true) by congruence. apply (proj1 Hl i Hi). by rewrite E. }
        split; [lia|]. split; [done|]. split.
        { intros x Hx (q & k & Hq & Hr). destruct (proj2 Hl q k Hq) as (? & j & ? & ->).
          eapply (bp_addr_apart s i j sz k); [done| |lia|lia|done|done]. intros ->. congruence. }
        split; [done|]. eapply bp_live_alloc; done || lia.
      * eexists _, _, _. split; [done|]. split; [done|]. left. split; [done|].
        split; [by apply bp_wf_set_stats|done].
    + unfold bp_allocate. assert ((sz >? bp_block_size s) = true) as -> by (rewrite Z.gtb_ltb; apply Z.ltb_lt; lia).
      eexists _, _, _. split; [done|]. split; [done|]. left. split; [done|].
      split; [by apply bp_wf_set_stats|done].
  - intros s m L p n [Hwf Hl] Hp. destruct (proj2 Hl p n Hp) as (? & i & Hi & ->).
    assert (bp_bit s i = true) as Hbit by (apply (proj1 Hl i Hi); by rewrite Hp).
    destruct (bp_deallocate_used nd s m i Hwf Hi Hbit) as (a' & Hd & Hwf' & Hsame & _ & Hb).
    exists a', m. split; [done|]. split; [done|]. split; [done|]. by eapply bp_live_free.
  - by intros s m m' L [Hwf Hl] _.
Defined.

(** The geometries whose size is no larger than 2^62: there are blocks, they
    have bytes, and [n] blocks of [bs] bytes rounded up to 16 fit. *)
Definition bp_geometry (bs n : Z) : Prop := 0 < bs ∧ 0 < n ∧ (bs + 15) * n ≤ 2 ^ 62.

Lemma bp_geometry_small bs n : 0 < bs ≤ 2 ^ 30 → 0 < n ≤ 2 ^ 30 → bp_geometry bs n.
Proof. intros Hb Hn. split_and!; [lia|lia|nia]. Qed.

(** A pool that has just been created is well-formed, and no block is live. *)
Lemma bp_create_inv ps mmap c1 c2 bs n a m :
  page_size_ok ps → mmap_ok ps mmap → bp_geometry bs n →
  hf_block_pool_create ps mmap c1 c2 bs n = Some a →
  bp_inv a m ∅ ∧ bp_block_size a = round_up bs 16 ∧ bp_block_count a = n.
Proof.
  intros Hps Hm (Hbs & Hn & Hprod) Hc. unfold hf_block_pool_create in Hc.
  assert (bs ≤ 2 ^ 62 ∧ n ≤ 2 ^ 58) as [Hbs62 Hn58] by nia.
  destruct c1; [|done]. simpl in Hc. unfold HF_DEFAULT_ALIGN in Hc.
  pose proof (round_up_ge bs 16 ltac:(lia)). pose proof (round_up_lt bs 16 ltac:(lia)).
  pose proof (page_size_bounds ps Hps) as (? & Hp16 & _).
  rewrite hf_align_up_16 in Hc by lia. set (b := round_up bs 16) in *.
  assert (0 < b * n ≤ 2 ^ 62) by nia.
  rewrite (wrap64_small (b * n)) in Hc by ulia.
  rewrite (hf_align_up_page (b * n)) in Hc by (done || lia).
  pose proof (round_up_ge (b * n) ps ltac:(lia)). pose proof (round_up_lt (b * n) ps ltac:(lia)).
  destruct (_ =? 0) eqn:E; zb; [done|]. destruct c2; [|done]. injection Hc as <-.
  pose proof (hf_vm_reserve_ok ps mmap (round_up (b * n) ps) _ Hps Hm ltac:(lia) eq_refl E) as (? & ? & ?).
  rewrite (wrap64_small (n + 63)) by ulia.
  pose proof (Z.div_str_pos (n + 63) 64 ltac:(lia)).
  assert (∀ i, bp_bit (BpAlloc (hf_vm_reserve ps mmap (round_up (b * n) ps)) (round_up (b * n) ps) b n 0
    (replicate (Z.to_nat ((n + 63) / 64)) 0) ((n + 63) / 64) (stats_zero (round_up (b * n) ps))) i = false) as Hbit.
  { intros i. unfold bp_bit. simpl. destruct (_ !! _) as [w|] eqn:Ew; simpl; [|apply Z.bits_0].
    apply lookup_replicate_1 in Ew as [-> _]. apply Z.bits_0. }
  split; [|done]. split; [split; simpl; try done; try lia|split].
  - split; [done|]. by apply (Z.divide_trans _ ps).
  - split; [lia|]. apply round_up_divide.
  - by rewrite length_replicate.
  - apply Forall_replicate. ulia.
  - unfold bp_used_count. rewrite (count_if_const _ false); [lia|]. intros. apply Hbit.
  - intros i _. rewrite Hbit, lookup_empty. split; [done|by intros [? ?]].
  - intros p k. by rewrite lookup_empty.
Qed.

(** A 128-block pool of 64-byte blocks at address 2^20. *)
Definition ex_pool : bp_alloc :=
  BpAlloc (2 ^ 20) 8192 64 128 0 [0; 0] 2 (stats_zero 8192).

Lemma ex_pool_created : hf_block_pool_create 4096 ex_mmap true true 60 128 = Some ex_pool.
Proof. reflexivity. Qed.

Lemma ex_pool_geometry : bp_geometry 60 128.
Proof. split_and!; lia. Qed.

Lemma ex_pool_inv m : bp_inv ex_pool m ∅.
Proof.
  pose proof (bp_create_inv 4096 ex_mmap true true 60 128 ex_pool m page_4096_ok ex_mmap_ok
    ex_pool_geometry ex_pool_created) as [H _]. exact H.
Qed.

(** ** Claims *)

(** Allocation in the block pool, every branch.  A request larger than
    the block size fails; a request that fits fails only when all blocks are
    in use; otherwise it returns the address of a block whose bit was clear,
    sets exactly that bit and adds one block size to the byte count. *)
Theorem bp_allocate_correct a m size al :
  bp_wf a →
  ∃ a' p, bp_allocate a m size al = Ok (a', m, p) ∧ bp_wf a' ∧ bp_same a a' ∧
    ((p = NULL ∧ bp_bitmap a' = bp_bitmap a ∧
      (size > bp_block_size a ∨ ∀ i, 0 ≤ i < bp_block_count a → bp_bit a i = true)) ∨
     (∃ i, 0 ≤ i < bp_block_count a ∧ p = bp_addr a i ∧ size ≤ bp_block_size a ∧ bp_bit a i = false ∧
        (∀ j, 0 ≤ j → bp_bit a' j = bp_bit a j || (j =? i)) ∧
        used (bp_stats a') = used (bp_stats a) + bp_block_size a)).
Proof.
  intros Hwf. destruct (decide (size ≤ bp_block_size a)) as [Hle|Hgt].
  - destruct (bp_allocate_cases a m size al Hwf Hle)
      as [(i & a' & Hi & Hfree & -> & Hwf' & Hsame & _ & Hb)|(Hfull & ->)].
    + exists a', (bp_addr a i). split_and!; try done. right. exists i. split_and!; try done; try lia.
      rewrite (bp_wf_used _ Hwf'), (bp_wf_used _ Hwf).
      rewrite (bp_used_count_set a a' i) by done. destruct Hsame as (_ & _ & -> & _). lia.
    + eexists _, _. split; [done|]. split; [by apply bp_wf_set_stats|]. split; [done|]. left. auto.
  - unfold bp_allocate. assert ((size >? bp_block_size a) = true) as ->
      by (rewrite Z.gtb_ltb; apply Z.ltb_lt; lia).
    eexists _, _. split; [done|]. split; [by apply bp_wf_set_stats|]. split; [done|]. left.
    split; [done|]. split; [done|]. left. lia.
Qed.

(** 60 bytes from the fresh pool. *)
Lemma bp_allocate_correct_witness :
  ∃ a' p, bp_allocate ex_pool ∅ 60 16 = Ok (a', ∅, p) ∧ bp_wf a' ∧ bp_same ex_pool a' ∧
    ((p = NULL ∧ bp_bitmap a' = bp_bitmap ex_pool ∧
      (60 > 64 ∨ ∀ i, 0 ≤ i < 128 → bp_bit ex_pool i = true)) ∨
     (∃ i, 0 ≤ i < 128 ∧ p = bp_addr ex_pool i ∧ 60 ≤ 64 ∧ bp_bit ex_pool i = false ∧
        (∀ j, 0 ≤ j → bp_bit a' j = bp_bit ex_pool j || (j =? i)) ∧
        used (bp_stats a') = 0 + 64)).
Proof. apply (bp_allocate_correct ex_pool ∅ 60 16). apply (ex_pool_inv ∅). Defined.

(** C19. Client safety of the block pool.  From a pool that was created with
    [n] blocks of [bs] bytes, where [bs] and [n] are positive and (bs + 15) * n
    is at most 2^62 (beyond 2^64 the product wraps, [bp_create_wraps]), every
    program of allocations of at most 2^62 bytes each, frees of owned blocks
    and writes to owned bytes runs without a failed assert or an access outside
    the bitmap, in both builds; live blocks are 16-aligned and never overlap,
    and every owned byte holds what the client last wrote there. *)
Theorem bp_client_safe nd ps mmap c1 c2 bs n a m os :
  page_size_ok ps → mmap_ok ps mmap → bp_geometry bs n →
  hf_block_pool_create ps mmap c1 c2 bs n = Some a → Forall (op_ok (2 ^ 62)) os →
  ∃ c, client_run (hf_allocator_vtable0 := BP_VT nd) (Client a m ∅ ∅) os = Ok c ∧ client_ok HF_DEFAULT_ALIGN c.
Proof.
  intros Hps Hm Hg Hc Hos.
  destruct (bp_create_inv ps mmap c1 c2 bs n a m Hps Hm Hg Hc) as [Hinv _].
  destruct (client_run_ok (AllocatorSpec0 := bp_spec nd) a m ∅ os Hinv Hos) as (c & Hrun & Hok & _).
  by exists c.
Qed.

(** Witness of C19: two allocations, a write and a free. *)
Lemma bp_client_safe_witness :
  ∃ c, client_run (hf_allocator_vtable0 := BP_VT false) (Client ex_pool ∅ ∅ ∅)
         [CAlloc 60; CAlloc 10; CWrite (2 ^ 20 + 64) 7; CFree (2 ^ 20)] = Ok c ∧ client_ok HF_DEFAULT_ALIGN c.
Proof.
  apply (bp_client_safe false 4096 ex_mmap true true 60 128 ex_pool ∅).
  - apply page_4096_ok.
  - apply ex_mmap_ok.
  - apply ex_pool_geometry.
  - reflexivity.
  - repeat constructor; simpl; unfold request_ok; lia.
Defined.

(** The size of the mapping is the product of the geometry modulo 2^64, with
    no check: 2^24 blocks of 2^40 + 16 bytes are created in a mapping of 2^28
    bytes, in which not even the first block fits. *)
Theorem bp_create_wraps mmap p :
  mmap (2 ^ 28) = Some p → 0 < p →
  ∃ a, hf_block_pool_create 4096 mmap true true (2 ^ 40 + 16) (2 ^ 24) = Some a ∧
    bp_mem a = p ∧ bp_capacity a = 2 ^ 28 ∧ bp_block_size a = 2 ^ 40 + 16 ∧ bp_block_count a = 2 ^ 24.
Proof.
  intros Hp H0. unfold hf_block_pool_create.
  change (hf_align_up (hf_align_up (2 ^ 40 + 16) HF_DEFAULT_ALIGN *% 2 ^ 24) 4096) with (2 ^ 28).
  unfold hf_vm_reserve. change (hf_align_up (2 ^ 28) 4096) with (2 ^ 28). rewrite Hp. cbn [negb].
  rewrite (proj2 (Z.eqb_neq p 0)) by lia. eexists. split; [reflexivity|]. split_and!; reflexivity.
Qed.

Lemma bp_create_wraps_witness :
  ∃ a, hf_block_pool_create 4096 ex_mmap true true (2 ^ 40 + 16) (2 ^ 24) = Some a ∧ bp_capacity a < bp_block_size a.
Proof.
  destruct (bp_create_wraps ex_mmap (2 ^ 20) eq_refl ltac:(lia)) as (a & E & _ & Hc & Hs & _).
  exists a. split; [exact E|]. rewrite Hc, Hs. reflexivity.
Defined.

(** Bad frees are caught by the debug build: a pointer that is not the
    address of a block of the pool, or that of a block that is not in use
    (a double free), fails an assert. *)
Theorem bp_deallocate_rejects a m ptr :
  bp_wf a → ptr ≠ NULL →
  (∀ i, 0 ≤ i < bp_block_count a → wrap64 (ptr - bp_mem a) = i * bp_block_size a → bp_bit a i = false) →
  bp_deallocate false a m ptr = Abort.
Proof.
  intros Hwf Hp Hbad. unfold bp_deallocate. destruct (Z.eqb_spec ptr 0); [done|].
  set (off := wrap64 (ptr - bp_mem a)) in *. pose proof (wrap64_range (ptr - bp_mem a)) as Hoff.
  fold off in Hoff. pose proof (bp_wf_size _ Hwf) as [Hs _].
  destruct (off mod bp_block_size a =? 0) eqn:E1; [|done]. step_assert by done. zb.
  pose proof (Z.div_mod off (bp_block_size a) ltac:(lia)) as Hdm. set (i := off / bp_block_size a) in *.
  assert (0 ≤ i) by (apply Z.div_pos; ulia).
  destruct (i <? bp_block_count a) eqn:E2; [|done]. step_assert by done. zb.
  assert (bp_bit a i = false) as Hbit by (apply Hbad; lia).
  destruct (bp_word_ok a Hwf (i / 64)) as (w & -> & Hw & _); [apply bp_idx_word; done || lia|].
  cbn [mbind outcome_bind]. rewrite test_mask by (apply Z.mod_pos_bound; lia).
  unfold bp_bit in Hbit. rewrite Hw in Hbit. simpl in Hbit. by rewrite Hbit.
Qed.

(** Freeing a block of a fresh pool. *)
Lemma bp_deallocate_rejects_witness : bp_deallocate false ex_pool ∅ (2 ^ 20 + 64) = Abort.
Proof.
  apply (bp_deallocate_rejects ex_pool ∅ (2 ^ 20 + 64)).
  - apply (ex_pool_inv ∅).
  - discriminate.
  - intros i Hi. change (wrap64 (2 ^ 20 + 64 - bp_mem ex_pool)) with 64. simpl. intros E.
    assert (i = 1) as -> by lia. reflexivity.
Defined.

(** The layout [bp_walk] reports.  The walk ends without a fault, its
    blocks tile the managed bytes from 0 to [block_count * block_size] as
    maximal runs (neighbours differ in state), each run has the state its
    bits have, and the used runs add up to the byte count of the stats. *)
Theorem bp_walk_correct a m :
  bp_wf a →
  ∃ bs, bp_walk a m = Ok bs ∧ tiles 0 (bp_block_count a * bp_block_size a) bs ∧
        alternating (negb (bp_bit a 0)) bs ∧ layout_matches a bs ∧
        sum_sizes false bs = used (bp_stats a).
Proof.
  intros Hwf. pose proof (bp_wf_count _ Hwf). unfold bp_walk.
  rewrite bp_test_ok by (done || lia). cbn [mbind outcome_bind].
  destruct (bp_walk_loop_spec a 1 0 (bp_bit a 0) (Z.to_nat (bp_block_count a - 1)) Hwf)
    as (bs & Hbs & Ht & Ha & Hl & Hsum); [lia|lia| |].
  { intros j Hj. by replace j with 0 by lia. }
  exists bs. replace (Z.to_nat (bp_block_count a)) with (S (Z.to_nat (bp_block_count a - 1))) by lia.
  split_and!; try done. rewrite Hsum, (bp_wf_used _ Hwf), Z.sub_0_r. done.
Qed.

(** The fresh pool is one free run. *)
Lemma bp_walk_correct_witness :
  ∃ bs, bp_walk ex_pool ∅ = Ok bs ∧ tiles 0 (128 * 64) bs ∧
        alternating (negb (bp_bit ex_pool 0)) bs ∧ layout_matches ex_pool bs ∧
        sum_sizes false bs = 0.
Proof. apply (bp_walk_correct ex_pool ∅). apply (ex_pool_inv ∅). Defined.

