(* ===== verification/FreeList.v ===== *)
(** * The free-list allocator ([c/src/hf_free_list.c]): the code

    Blocks with boundary tags: each block starts with a 16-byte header (its
    size with the used bit, and the address of the block before it), a free
    block carries the two links of a circular doubly-linked list behind its
    header, a free coalesces with the free neighbours.  Headers and links live
    in the arena, so every access below is a load or a store of the shared
    memory; pointers are addresses and [NULL] is 0.  The loops that follow
    links or headers take fuel; [FreeListProofs] shows that the fuel given
    here is enough. *)

From S2P Require Import Prelude Memory Platform Allocator Links.

(** [hf_fit_policy]. *)
Inductive hf_fit_policy : Type :=
| HF_FIT_FIRST
| HF_FIT_BEST
| HF_FIT_NEXT.

#[global] Instance hf_fit_policy_eq_dec : EqDecision hf_fit_policy.
Proof. solve_decision. Defined.

(** [fl_alloc]. *)
Record fl_alloc : Type := FlAlloc {
  fl_mem : Z;
  fl_capacity : Z;
  fl_policy : hf_fit_policy;
  fl_free_head : Z;
  fl_cursor : Z;
  fl_stats : hf_stats
}.

(** [FL_HDR] and [FL_MIN]: the sizes of [fl_header] (fields [size_flags] at 0,
    [prev_phys] at 8) and of a header with an [fl_node] ([next] at 0, [prev]
    at 8) behind it. *)
Definition FL_HDR : Z := 16.
Definition FL_MIN : Z := FL_HDR + 16.

Definition hdr_size (m : mem) (h : Z) : Z := Z.land (load64 m h) (not64 1).
Definition hdr_used (m : mem) (h : Z) : bool := negb (Z.land (load64 m h) 1 =? 0).
Definition hdr_set (m : mem) (h sz : Z) (used : bool) : mem :=
  store64 m h (Z.lor sz (if used then 1 else 0)).

Definition prev_phys (m : mem) (h : Z) : Z := load64 m (h + 8).
Definition set_prev_phys (m : mem) (h v : Z) : mem := store64 m (h + 8) v.

Definition payload_node (h : Z) : Z := h + FL_HDR.
Definition header_of (n : Z) : Z := n - FL_HDR.

Definition next_phys (a : fl_alloc) (m : mem) (h : Z) : Z :=
  let n := h + hdr_size m h in
  if n <? fl_mem a + fl_capacity a then n else NULL.

Definition plausible_header (a : fl_alloc) (m : mem) (h : Z) : bool :=
  if (h <? fl_mem a) || (h >=? fl_mem a + fl_capacity a) then false else
  let sz := hdr_size m h in
  hdr_used m h && (sz >=? FL_MIN) && (sz mod HF_DEFAULT_ALIGN =? 0) &&
  (h + sz <=? fl_mem a + fl_capacity a).

Definition fl_set_head (a : fl_alloc) (v : Z) : fl_alloc :=
  FlAlloc (fl_mem a) (fl_capacity a) (fl_policy a) v (fl_cursor a) (fl_stats a).
Definition fl_set_cursor (a : fl_alloc) (v : Z) : fl_alloc :=
  FlAlloc (fl_mem a) (fl_capacity a) (fl_policy a) (fl_free_head a) v (fl_stats a).
Definition fl_set_stats (a : fl_alloc) (v : hf_stats) : fl_alloc :=
  FlAlloc (fl_mem a) (fl_capacity a) (fl_policy a) (fl_free_head a) (fl_cursor a) v.

Definition fl_insert (a : fl_alloc) (m : mem) (n : Z) : fl_alloc * mem :=
  let '(a, m) :=
    if fl_free_head a =? NULL then
      let a := fl_set_head a n in
      let m := set_prev m n n in
      (a, set_next m n n)
    else
      let m := set_next m n (node_next m (fl_free_head a)) in
      let m := set_prev m n (fl_free_head a) in
      let m := set_prev m (node_next m (fl_free_head a)) n in
      (a, set_next m (fl_free_head a) n) in
  (if fl_cursor a =? NULL then fl_set_cursor a n else a, m).

Definition fl_unlink (a : fl_alloc) (m : mem) (n : Z) : fl_alloc * mem :=
  if node_next m n =? n then (fl_set_cursor (fl_set_head a NULL) NULL, m) else
  let m := set_next m (node_prev m n) (node_next m n) in
  let m := set_prev m (node_next m n) (node_prev m n) in
  let a := if fl_free_head a =? n then fl_set_head a (node_next m n) else a in
  let a := if fl_cursor a =? n then fl_set_cursor a (node_next m n) else a in
  (a, m).

(** The three loops of [find_fit]; each round looks at node [n]. *)
Fixpoint first_fit_loop (fuel : nat) (a : fl_alloc) (m : mem) (need n : Z) : outcome Z :=
  match fuel with
  | O => OutOfFuel
  | S fuel =>
      if hdr_size m (header_of n) >=? need then Ok n else
      let n := node_next m n in
      if n =? fl_free_head a then Ok NULL else first_fit_loop fuel a m need n
  end.

Fixpoint best_fit_loop (fuel : nat) (a : fl_alloc) (m : mem) (need n best best_sz : Z) : outcome Z :=
  match fuel with
  | O => OutOfFuel
  | S fuel =>
      let sz := hdr_size m (header_of n) in
      let '(best, best_sz) := if (sz >=? need) && (sz <? best_sz) then (n, sz) else (best, best_sz) in
      let n := node_next m n in
      if n =? fl_free_head a then Ok best else best_fit_loop fuel a m need n best best_sz
  end.

(** Yields the node and the new cursor. *)
Fixpoint next_fit_loop (fuel : nat) (a : fl_alloc) (m : mem) (need start n : Z) : outcome (Z * Z) :=
  match fuel with
  | O => OutOfFuel
  | S fuel =>
      if hdr_size m (header_of n) >=? need then Ok (n, node_next m n) else
      let n := node_next m n in
      if n =? start then Ok (NULL, fl_cursor a) else next_fit_loop fuel a m need start n
  end.

(** Enough for a list with one node per minimal block. *)
Definition fl_fuel (a : fl_alloc) : nat := S (Z.to_nat (fl_capacity a / FL_MIN)).

Definition find_fit (a : fl_alloc) (m : mem) (need : Z) : outcome (fl_alloc * Z) :=
  if fl_free_head a =? NULL then Ok (a, NULL) else
  match fl_policy a with
  | HF_FIT_FIRST =>
      n ← first_fit_loop (fl_fuel a) a m need (fl_free_head a); Ok (a, n)
  | HF_FIT_BEST =>
      n ← best_fit_loop (fl_fuel a) a m need (fl_free_head a) NULL (2 ^ 64 - 1); Ok (a, n)
  | HF_FIT_NEXT =>
      let start := if fl_cursor a =? NULL then fl_free_head a else fl_cursor a in
      '(n, cur) ← next_fit_loop (fl_fuel a) a m need start start;
      Ok (fl_set_cursor a cur, n)
  end.

(** The size of block [fl_allocate] looks for. *)
Definition fl_need (size alignment : Z) : Z :=
  let size := if size =? 0 then 1 else size in
  let size := if alignment >? HF_DEFAULT_ALIGN then size +% alignment else size in
  let need := hf_align_up (FL_HDR +% size) HF_DEFAULT_ALIGN in
  if need <? FL_MIN then FL_MIN else need.

(** The split of block [h] into [need] used bytes and a free rest. *)
Definition fl_split (a : fl_alloc) (m : mem) (h need remain : Z) : fl_alloc * mem :=
  let split := h + need in
  let m := hdr_set m split remain false in
  let m := set_prev_phys m split h in
  let after := next_phys a m split in
  let m := if after =? NULL then m else set_prev_phys m after split in
  let m := hdr_set m h need true in
  fl_insert a m (payload_node split).

(** The free block of [node] becomes the used block. *)
Definition fl_carve (a : fl_alloc) (m : mem) (node need : Z) : fl_alloc * mem :=
  let h := header_of node in
  let '(a, m) := fl_unlink a m node in
  let remain := hdr_size m h -% need in
  if remain >=? FL_MIN then fl_split a m h need remain
  else (a, hdr_set m h (hdr_size m h) true).

Definition fl_allocate (a : fl_alloc) (m : mem) (size alignment : Z) : outcome (fl_alloc * mem * Z) :=
  let need := fl_need size alignment in
  let a := fl_set_stats a (bump_alloc (fl_stats a)) in
  '(a, node) ← find_fit a m need;
  if node =? NULL then Ok (fl_set_stats a (bump_failed (fl_stats a)), m, NULL) else
  let h := header_of node in
  let '(a, m) := fl_carve a m node need in
  let a := fl_set_stats a (raise_peak (set_used (used (fl_stats a) +% hdr_size m h) (fl_stats a))) in
  let p := h + FL_HDR in
  if alignment >? HF_DEFAULT_ALIGN then
    let aligned := hf_align_up (p +% 8) alignment in
    Ok (a, store64 m (aligned - 8) (aligned -% p), aligned)
  else Ok (a, m, p).

(** The two merges of [fl_deallocate]: of [h] with the block [nb] after it,
    and of [h] into the block [pb] before it (yielding the merged header). *)
Definition fl_merge_next (a : fl_alloc) (m : mem) (h : Z) : fl_alloc * mem :=
  let nb := next_phys a m h in
  if negb (nb =? NULL) && negb (hdr_used m nb) then
    let '(a, m) := fl_unlink a m (payload_node nb) in
    let a := if fl_cursor a =? payload_node nb then fl_set_cursor a NULL else a in
    let m := hdr_set m h (hdr_size m h +% hdr_size m nb) false in
    let nn := next_phys a m h in
    (a, if nn =? NULL then m else set_prev_phys m nn h)
  else (a, m).

Definition fl_merge_prev (a : fl_alloc) (m : mem) (h : Z) : fl_alloc * mem * Z :=
  let pb := prev_phys m h in
  if negb (pb =? NULL) && negb (hdr_used m pb) then
    let '(a, m) := fl_unlink a m (payload_node pb) in
    let a := if fl_cursor a =? payload_node pb then fl_set_cursor a NULL else a in
    let m := hdr_set m pb (hdr_size m pb +% hdr_size m h) false in
    let nn := next_phys a m pb in
    (a, if nn =? NULL then m else set_prev_phys m nn pb, pb)
  else (a, m, h).

(** The header [fl_deallocate] takes [ptr] to belong to. *)
Definition fl_block_of (a : fl_alloc) (m : mem) (ptr : Z) : Z :=
  let h := ptr - FL_HDR in
  if plausible_header a m h then h else ptr - load64 m (ptr - 8) - FL_HDR.

Definition fl_deallocate (ndebug : bool) (a : fl_alloc) (m : mem) (ptr : Z) : outcome (fl_alloc * mem) :=
  if ptr =? NULL then Ok (a, m) else
  let a := fl_set_stats a (bump_free (fl_stats a)) in
  let h := fl_block_of a m ptr in
  _ ← c_assert ndebug (hdr_used m h);
  let a := fl_set_stats a (set_used (used (fl_stats a) -% hdr_size m h) (fl_stats a)) in
  let m := hdr_set m h (hdr_size m h) false in
  let '(a, m) := fl_merge_next a m h in
  let '(a, m, h) := fl_merge_prev a m h in
  Ok (fl_insert a m (payload_node h)).

Definition fl_name (a : fl_alloc) : string :=
  match fl_policy a with
  | HF_FIT_FIRST => "FreeList/FirstFit"
  | HF_FIT_BEST => "FreeList/BestFit"
  | HF_FIT_NEXT => "FreeList/NextFit"
  end.

Definition fl_get_stats (a : fl_alloc) : hf_stats := fl_stats a.

(** The loop of [fl_walk] at address [c]. *)
Fixpoint fl_walk_loop (fuel : nat) (a : fl_alloc) (m : mem) (c : Z) : outcome (list hf_block_info) :=
  match fuel with
  | O => OutOfFuel
  | S fuel =>
      if c <? fl_mem a + fl_capacity a then
        bs ← fl_walk_loop fuel a m (c + hdr_size m c);
        Ok (BlockInfo (wrap64 (c - fl_mem a)) (hdr_size m c) (negb (hdr_used m c)) :: bs)
      else Ok []
  end.

Definition fl_walk (a : fl_alloc) (m : mem) : outcome (list hf_block_info) :=
  fl_walk_loop (fl_fuel a) a m (fl_mem a).

(** The mapping [hf_vm_release] is called on. *)
Definition fl_destroy (a : fl_alloc) (m : mem) : outcome (Z * Z) :=
  Ok (fl_mem a, fl_capacity a).

#[global] Instance FL_VT (ndebug : bool) : hf_allocator_vtable fl_alloc := {
  vt_allocate := fl_allocate;
  vt_deallocate := fl_deallocate ndebug;
  vt_name := fl_name;
  vt_get_stats := fl_get_stats;
  vt_walk := fl_walk;
  vt_destroyed := Z * Z;
  vt_destroy := fl_destroy
}.

Definition hf_free_list_create (ps : Z) (mmap : Z → option Z) (calloc_ok : bool) (m : mem)
    (capacity : Z) (policy : hf_fit_policy) : option (fl_alloc * mem) :=
  let capacity := if capacity <? FL_MIN * 2 then FL_MIN * 2 else capacity in
  let capacity := hf_align_up capacity ps in
  if negb calloc_ok then None else
  let p := hf_vm_reserve ps mmap capacity in
  if p =? NULL then None else
  let m := hdr_set m p capacity false in
  let m := set_prev_phys m p NULL in
  let head := payload_node p in
  let m := set_prev m head head in
  let m := set_next m head head in
  Some (FlAlloc p capacity policy head head (stats_zero capacity), m).

(** A small heap to run: allocate twice, free both, and the walk sees one
    free block again. *)
Definition ex_fl_run : outcome (list hf_block_info * list hf_block_info) :=
  match hf_free_list_create 4096 (λ _, Some 8192) true ∅ 4096 HF_FIT_FIRST with
  | None => Fault
  | Some (a, m) =>
      '(a, m, p) ← fl_allocate a m 100 16;
      '(a, m, q) ← fl_allocate a m 200 64;
      w1 ← fl_walk a m;
      '(a, m) ← fl_deallocate false a m p;
      '(a, m) ← fl_deallocate false a m q;
      w2 ← fl_walk a m;
      Ok (w1, w2)
  end.

Example ex_fl_run_ok :
  ex_fl_run = Ok ([BlockInfo 0 128 false; BlockInfo 128 288 false; BlockInfo 416 3680 true],
                  [BlockInfo 0 4096 true]).
Proof. vm_compute. reflexivity. Qed.
