(* ===== verification/FreeListRing.v ===== *)
(** * The circular list of free blocks

    The list [fl_insert] and [fl_unlink] maintain and [find_fit] searches,
    described by the sequence of its nodes: [ring m l] says that the [next]
    and [prev] words in memory link the nodes of [l] in a circle.  The two
    updates are shown to insert behind the head and to remove one node, and
    the three searches to return the node their policy promises. *)

From S2P Require Import Prelude Memory Platform Allocator Links FreeList.

(** Consecutive nodes of [l] point at each other. *)
Fixpoint links (m : mem) (l : list Z) : Prop :=
  match l with
  | a :: ((b :: _) as t) => node_next m a = b ∧ node_prev m b = a ∧ links m t
  | _ => True
  end.

Definition ring (m : mem) (l : list Z) : Prop :=
  match l with
  | [] => True
  | a :: _ => links m (l ++ [a])
  end.

(** ** Links *)

Lemma links_app m l1 x l2 :
  links m (l1 ++ x :: l2) ↔ links m (l1 ++ [x]) ∧ links m (x :: l2).
Proof.
  induction l1 as [|a l1 IH]; [simpl; tauto|].
  destruct l1 as [|b l1]; simpl in *; tauto.
Qed.

Lemma links_cons m a b l :
  links m (a :: b :: l) ↔ node_next m a = b ∧ node_prev m b = a ∧ links m (b :: l).
Proof. done. Qed.

(** The links of [l ++ [z]] are the [next] words of [l] and the [prev] words
    of everything after the first node. *)
Lemma links_frame m m' l z :
  links m (l ++ [z]) →
  (∀ a, a ∈ l → node_next m' a = node_next m a) →
  (∀ b, b ∈ tail (l ++ [z]) → node_prev m' b = node_prev m b) →
  links m' (l ++ [z]).
Proof.
  induction l as [|a l IH]; intros H Hn Hp; [done|].
  simpl in Hp. cbn [app] in *. destruct (l ++ [z]) as [|b t] eqn:E; [done|].
  rewrite links_cons in H |- *. destruct H as (H1 & H2 & H3). split_and!.
  - rewrite Hn by set_solver. done.
  - rewrite Hp by set_solver. done.
  - apply IH; [done|intros; apply Hn; set_solver|]. intros c Hc. apply Hp. simpl in *. set_solver.
Qed.

Lemma ring_rotate m l1 l2 : ring m (l1 ++ l2) → ring m (l2 ++ l1).
Proof.
  destruct l1 as [|a l1]; [by rewrite app_nil_r|]. destruct l2 as [|b l2]; [by rewrite app_nil_r|].
  cbn [ring app]. rewrite <- !app_assoc. cbn [app]. intros H.
  change (links m ((a :: l1) ++ b :: (l2 ++ [a]))) in H.
  change (links m ((b :: l2) ++ a :: (l1 ++ [b]))).
  rewrite links_app in H |- *. tauto.
Qed.

(** ** Unlinking *)

(** The neighbours of [n] in a ring that starts at [n]. *)
Lemma ring_neighbours m n t :
  ring m (n :: t) →
  ∃ y x, last (n :: t) = Some y ∧ head (t ++ [n]) = Some x ∧
         node_next m n = x ∧ node_prev m n = y.
Proof.
  intros H. unfold ring in H.
  destruct (t ++ [n]) as [|x t'] eqn:E; [by destruct t|].
  assert (∃ l y, n :: t = l ++ [y]) as (l & y & El).
  { destruct (exists_last (l := n :: t)) as (l & y & El); [done|by exists l, y]. }
  exists y, x. split_and!; [by rewrite El, last_snoc|done|..].
  - simpl in H. rewrite E in H. by destruct H.
  - rewrite El in H. rewrite <- app_assoc in H. simpl in H.
    apply links_app in H as [_ H]. by destruct H as (_ & ? & _).
Qed.

(** [n->prev->next = n->next; n->next->prev = n->prev] takes [n] out. *)
Lemma ring_unlink m n t : nodes_ok (n :: t) → ring m (n :: t) → t ≠ [] →
  let m1 := set_next m (node_prev m n) (node_next m n) in
  let m2 := set_prev m1 (node_next m1 n) (node_prev m1 n) in
  ring m2 t ∧ agree_on (λ x, ¬ node_bytes t x) m m2 ∧ node_next m2 n = hd NULL t.
Proof.
  intros Hok Hr Ht m1 m2. destruct t as [|x t]; [done|].
  destruct (ring_neighbours _ _ _ Hr) as (y & x' & Hy & Hx & En & Ep).
  simpl in Hx. injection Hx as <-. cbn [last] in Hy.
  pose proof (nodes_ok_cons _ _ Hok) as (Hok' & Hn & _).
  assert (y ∈ x :: t) as Hyin by (apply last_Some_elem_of; done).
  assert (x ∈ x :: t) as Hxin by left.
  assert (n ≠ y) as Hny by (intros ->; by apply Hn).
  assert (n ≠ x) as Hnx by (intros ->; by apply Hn).
  assert (∀ z, z ∈ x :: t → z ∈ n :: x :: t) as Hsub by (intros; by right).
  assert (n ∈ n :: x :: t) as Hnin by left.
  assert (is_u64 x ∧ is_u64 y) as [Hx64 Hy64].
  { pose proof (node_aligned _ x Hok' Hxin). pose proof (node_aligned _ y Hok' Hyin). ulia. }
  assert (node_next m1 n = x) as En1.
  { unfold m1. rewrite (next_set_next (n :: x :: t)) by (subst; auto).
    rewrite decide_False by congruence. done. }
  assert (node_prev m1 n = y) as Ep1.
  { unfold m1. rewrite (prev_set_next (n :: x :: t)) by (subst; auto). done. }
  subst m2. rewrite En1, Ep1.
  assert (agree_on (λ z, ¬ node_bytes (x :: t) z) m (set_prev m1 x y)) as Hag.
  { eapply agree_on_trans; [|by apply node_bytes_set_prev]. unfold m1. rewrite Ep.
    by apply node_bytes_set_next. }
  split_and!; [|done|].
  2:{ rewrite (next_set_prev (n :: x :: t)) by auto. done. }
  (* the last node of t is y *)
  destruct (exists_last (l := x :: t)) as (l & y' & El); [done|].
  rewrite El, last_snoc in Hy. injection Hy as ->.
  unfold ring in Hr |- *. cbn [app] in Hr.
  assert (links m (l ++ [y])) as Hl.
  { rewrite links_cons in Hr. destruct Hr as (_ & _ & Hr).
    change (links m ((x :: t) ++ [n])) in Hr.
    rewrite El, <- app_assoc in Hr. simpl in Hr. by apply links_app in Hr as [Hr _]. }
  rewrite El, <- app_assoc. cbn [app]. apply links_app. split.
  - apply (links_frame m); [done|..].
    + intros a Ha. assert (a ∈ x :: t) by (rewrite El; elem).
      rewrite (next_set_prev (n :: x :: t)) by auto. unfold m1.
      rewrite (next_set_next (n :: x :: t)) by (subst; auto). rewrite decide_False; [done|].
      rewrite Ep. intros ->. destruct Hok' as [Hnd _]. rewrite El in Hnd.
      apply NoDup_app in Hnd as (_ & Hnd & _). apply (Hnd y); [done|elem].
    + intros b Hb. rewrite <- El in Hb. simpl in Hb.
      rewrite (prev_set_prev (n :: x :: t)) by (auto || elem). rewrite decide_False.
      * unfold m1. rewrite (prev_set_next (n :: x :: t)) by (subst; auto || elem). done.
      * intros ->. destruct Hok' as [Hnd _]. apply NoDup_cons in Hnd as [? _]. done.
  - rewrite links_cons. split_and!; [..|done].
    + rewrite (next_set_prev (n :: x :: t)) by auto. unfold m1.
      rewrite (next_set_next (n :: x :: t)) by (subst; auto).
      rewrite decide_True by congruence. rewrite En. by apply wrap64_small.
    + rewrite (prev_set_prev (n :: x :: t)) by auto. rewrite decide_True by done.
      by apply wrap64_small.
Qed.

(** ** The allocator's view of the list *)

(** The free list of allocator [a] is [l], starting at [free_head]. *)
Record fl_list (a : fl_alloc) (m : mem) (l : list Z) : Prop := {
  fll_nodes : nodes_ok l;
  fll_ring : ring m l;
  fll_head : fl_free_head a = hd NULL l;
  fll_cursor_nil : l = [] → fl_cursor a = NULL;
  fll_cursor : l ≠ [] → fl_cursor a ∈ l
}.

(** The fields the list operations leave alone. *)
Definition fl_same (a a' : fl_alloc) : Prop :=
  fl_mem a' = fl_mem a ∧ fl_capacity a' = fl_capacity a ∧
  fl_policy a' = fl_policy a ∧ fl_stats a' = fl_stats a.

Lemma fl_unlink_spec a m l1 n l2 :
  fl_list a m (l1 ++ n :: l2) →
  ∃ a' m', fl_unlink a m n = (a', m') ∧ fl_list a' m' (l1 ++ l2) ∧ fl_same a a' ∧
    agree_on (λ x, ¬ node_bytes (l1 ++ l2) x) m m'.
Proof.
  intros [Hok Hr Hh Hc0 Hc].
  assert (l1 ++ n :: l2 ≡ₚ n :: (l2 ++ l1)) as Hperm.
  { rewrite (Permutation_app_comm l2 l1). by rewrite Permutation_middle. }
  pose proof (nodes_ok_perm _ _ Hperm Hok) as Hok1.
  pose proof (nodes_ok_cons _ _ Hok1) as (Hok2 & Hn & Hn0 & _).
  assert (nodes_ok (l1 ++ l2)) as Hok3
    by (eapply nodes_ok_perm; [|exact Hok2]; apply Permutation_app_comm).
  assert (ring m (n :: (l2 ++ l1))) as Hr1.
  { change (ring m ((n :: l2) ++ l1)). by apply ring_rotate. }
  assert (fl_cursor a ∈ l1 ++ n :: l2) as Hcur by (apply Hc; by destruct l1).
  assert (fl_cursor a ≠ n → fl_cursor a ∈ l1 ++ l2) as Hcur' by (intros; elem).
  unfold fl_unlink. destruct (ring_neighbours _ _ _ Hr1) as (y & x & Hy & Hx & En & Ep).
  destruct (decide (l2 ++ l1 = [])) as [E0|E0].
  - apply app_eq_nil in E0 as [-> ->]. simpl in Hx. injection Hx as <-. rewrite En, Z.eqb_refl.
    eexists _, _. split; [done|]. split; [|done]. split; simpl; try done.
  - assert (x ∈ l2 ++ l1) as Hxin.
    { destruct (l2 ++ l1) as [|z ?]; [done|]. simpl in Hx. injection Hx as <-. left. }
    destruct (node_next m n =? n) eqn:E; zb; [exfalso; rewrite En in E; apply Hn; by rewrite <- E|].
    destruct (ring_unlink m n (l2 ++ l1) Hok1 Hr1 E0) as (Hr2 & Hag & Hnn).
    apply ring_rotate in Hr2.
    assert (hd NULL (l2 ++ l1) = x) as Ehd by (destruct (l2 ++ l1); [done|]; simpl in *; congruence).
    eexists _, _. split; [reflexivity|]. rewrite !Hnn, Ehd.
    assert (x ∈ l1 ++ l2) as Hxin' by elem.
    split; [|split].
    + split; [done|done|..].
      * assert (∀ b v, fl_free_head (if fl_cursor b =? n then fl_set_cursor b v else b) = fl_free_head b) as Hsc
          by (intros; by destruct (_ =? n)).
        rewrite Hsc, Hh. destruct l1 as [|h l1]; simpl.
        -- rewrite app_nil_r in Ehd. by rewrite Z.eqb_refl.
        -- destruct (Z.eqb_spec h n) as [->|]; [exfalso; apply Hn; elem|done].
      * intros E1. destruct E0. by apply app_eq_nil in E1 as [-> ->].
      * intros _. assert (fl_cursor (if fl_free_head a =? n then fl_set_head a x else a) = fl_cursor a) as ->
          by by destruct (_ =? n).
        destruct (fl_cursor a =? n) eqn:Ec; zb; [done|]. simpl.
        assert (fl_cursor (if fl_free_head a =? n then fl_set_head a x else a) = fl_cursor a) as ->
          by by destruct (_ =? n). auto.
    + unfold fl_same. by destruct (fl_free_head a =? n); simpl; destruct (fl_cursor a =? n).
    + eapply agree_on_perm; [|exact Hag]. apply Permutation_app_comm.
Qed.

(** [n->next = h->next; n->prev = h; h->next->prev = n; h->next = n] puts [n]
    behind the head [h]. *)
Lemma ring_insert m h t n : nodes_ok (n :: h :: t) → ring m (h :: t) →
  let m1 := set_next m n (node_next m h) in
  let m2 := set_prev m1 n h in
  let m3 := set_prev m2 (node_next m2 h) n in
  let m4 := set_next m3 h n in
  ring m4 (h :: n :: t) ∧ agree_on (λ x, ¬ node_bytes (n :: h :: t) x) m m4.
Proof.
  intros Hok Hr m1 m2 m3 m4. set (l := n :: h :: t) in *.
  pose proof (nodes_ok_cons _ _ Hok) as (Hok1 & Hn & Hn0 & _).
  pose proof (nodes_ok_cons _ _ Hok1) as (Hok2 & Hh & Hh0 & _).
  assert (n ∈ l) as Hnl by left. assert (h ∈ l) as Hhl by (right; left).
  assert (h ≠ n) as Hhn by (intros ->; apply Hn; left).
  assert (∀ z, z ∈ t → z ∈ l) as Htl by (intros; by do 2 right).
  destruct (t ++ [h]) as [|x r] eqn:Et; [by destruct t|].
  assert (x ∈ t ++ [h]) as Hxt by (rewrite Et; left).
  assert (x ∈ l) as Hxl by (apply elem_of_app in Hxt as [?|Hx]; [auto|]; by apply list_elem_of_singleton in Hx as ->).
  assert (x ≠ n) as Hxn by (intros ->; apply Hn; elem).
  pose proof Hr as Hlinks. unfold ring in Hlinks. cbn [app] in Hlinks. rewrite Et in Hlinks.
  apply links_cons in Hlinks as (Enx & Epx & Hlinks).
  assert (is_u64 x) by (pose proof (node_aligned _ _ Hok Hxl); ulia).
  assert (node_next m2 h = x) as E2.
  { unfold m2, m1. rewrite (next_set_prev l), (next_set_next l), decide_False by done. done. }
  assert (m3 = set_prev m2 x n) as E3 by (unfold m3; by rewrite E2).
  split.
  - unfold ring. cbn [app]. apply links_cons. split_and!.
    + unfold m4. rewrite (next_set_next l), decide_True by done. apply wrap64_small. ulia.
    + unfold m4. rewrite (prev_set_next l) by done. rewrite E3.
      rewrite (prev_set_prev l), decide_False by done. unfold m2.
      rewrite (prev_set_prev l), decide_True by done. apply wrap64_small. ulia.
    + rewrite Et. apply links_cons. split_and!.
      * unfold m4. rewrite (next_set_next l), decide_False by done. rewrite E3.
        rewrite (next_set_prev l) by done. unfold m2. rewrite (next_set_prev l) by done.
        unfold m1. rewrite (next_set_next l), decide_True by done. rewrite Enx. by apply wrap64_small.
      * unfold m4. rewrite (prev_set_next l) by done. rewrite E3.
        rewrite (prev_set_prev l), decide_True by done. apply wrap64_small. ulia.
      * rewrite <- Et in Hlinks |- *. apply (links_frame m); [done|..].
        -- intros a Ha. assert (a ∈ l) by auto.
           assert (a ≠ h ∧ a ≠ n) as [? ?] by (split; intros ->; [done|apply Hn; by right]).
           unfold m4. rewrite (next_set_next l), decide_False by done. rewrite E3.
           rewrite (next_set_prev l) by done. unfold m2. rewrite (next_set_prev l) by done.
           unfold m1. by rewrite (next_set_next l), decide_False by done.
        -- intros b Hb.
           assert (b ∈ l ∧ b ≠ n ∧ b ≠ x) as (? & ? & ?).
           { assert (NoDup (t ++ [h])) as Hnd.
             { rewrite <- Permutation_cons_append. apply Hok1. }
             rewrite Et in Hb, Hnd. simpl in Hb. apply NoDup_cons in Hnd as [Hxr _].
             assert (b ∈ t ++ [h]) as Hbt by (rewrite Et; by right).
             split; [|split].
             - apply elem_of_app in Hbt as [?|Hx]; [auto|]. by apply list_elem_of_singleton in Hx as ->.
             - intros ->. apply Hn. elem.
             - by intros ->. }
           unfold m4. rewrite (prev_set_next l) by done. rewrite E3.
           rewrite (prev_set_prev l), decide_False by done. unfold m2.
           rewrite (prev_set_prev l), decide_False by done. unfold m1.
           by rewrite (prev_set_next l) by done.
  - unfold m4. eapply agree_on_trans; [|by apply node_bytes_set_next]. rewrite E3.
    eapply agree_on_trans; [|by apply node_bytes_set_prev]. unfold m2.
    eapply agree_on_trans; [|by apply node_bytes_set_prev]. unfold m1. by apply node_bytes_set_next.
Qed.

(** The list after [fl_insert]. *)
Definition insert_node (n : Z) (l : list Z) : list Z :=
  match l with [] => [n] | h :: t => h :: n :: t end.

Lemma insert_node_perm n l : insert_node n l ≡ₚ n :: l.
Proof. destruct l; [done|]. apply perm_swap. Qed.

Lemma fl_insert_spec a m l n :
  fl_list a m l → nodes_ok (n :: l) →
  ∃ a' m', fl_insert a m n = (a', m') ∧ fl_list a' m' (insert_node n l) ∧ fl_same a a' ∧
    agree_on (λ x, ¬ node_bytes (n :: l) x) m m'.
Proof.
  intros [Hok Hr Hh Hc0 Hc] Hnl. pose proof (nodes_ok_cons _ _ Hnl) as (_ & Hn & Hn0 & Hdiv).
  unfold fl_insert. destruct l as [|h t].
  - simpl in Hh. rewrite Hh, Z.eqb_refl. simpl fl_cursor. rewrite (Hc0 eq_refl). simpl.
    assert (n ∈ [n]) by left. assert (is_u64 n) by ulia.
    eexists _, _. split; [done|]. split; [|split; [done|]].
    + split; simpl; try done; try (intros; by left).
      split_and!; [..|done].
      * rewrite (next_set_next [n]), decide_True by done. by apply wrap64_small.
      * rewrite (prev_set_next [n]) by done. rewrite (prev_set_prev [n]), decide_True by done.
        by apply wrap64_small.
    + eapply agree_on_trans; [by apply node_bytes_set_prev|by apply node_bytes_set_next].
  - pose proof (nodes_ok_cons _ _ Hok) as (_ & _ & Hh0 & _).
    simpl in Hh. rewrite Hh. destruct (h =? 0) eqn:E; zb; [lia|].
    destruct (ring_insert m h t n Hnl Hr) as [Hr' Hag].
    assert (fl_cursor a ∈ h :: t) as Hcur by (by apply Hc).
    assert (fl_cursor a ≠ 0) by (pose proof (node_aligned _ _ Hok Hcur); lia).
    destruct (fl_cursor a =? 0) eqn:Ec; zb; [done|].
    eexists _, _. split; [done|]. split; [|split; [done|done]].
    split; [|done|done|done|].
    + eapply nodes_ok_perm; [|exact Hnl]. apply perm_swap.
    + intros _. simpl. elem.
Qed.

(** ** Searching *)

(** The size of the block of a free node. *)
Definition node_size (m : mem) (n : Z) : Z := hdr_size m (header_of n).

Lemma first_fit_loop_spec a m need t n fuel : 
  links m (n :: t ++ [fl_free_head a]) → (fl_free_head a) ∉ t → (length t < fuel)%nat →
  first_fit_loop fuel a m need n
    = Ok (from_option id NULL (List.find (λ x, node_size m x >=? need) (n :: t))).
Proof.
  revert n fuel. induction t as [|x t IH]; intros n fuel Hl Hh Hf;
    (destruct fuel as [|fuel]; [simpl in Hf; lia|]); cbn [first_fit_loop List.find app] in *;
    apply links_cons in Hl as (En & _ & Hl); unfold node_size at 1;
    (destruct (hdr_size m (header_of n) >=? need) eqn:E; [done|]); rewrite En.
  - by rewrite Z.eqb_refl.
  - destruct (Z.eqb_spec x (fl_free_head a)) as [->|]; [exfalso; apply Hh; left|].
    apply IH; [done|elem|simpl in Hf; lia].
Qed.

Lemma next_fit_loop_spec a m need start t n fuel : 
  links m (n :: t ++ [start]) → start ∉ t → (length t < fuel)%nat →
  next_fit_loop fuel a m need start n
    = Ok (match List.find (λ x, node_size m x >=? need) (n :: t) with
          | Some x => (x, node_next m x)
          | None => (NULL, fl_cursor a)
          end).
Proof.
  revert n fuel. induction t as [|x t IH]; intros n fuel Hl Hh Hf;
    (destruct fuel as [|fuel]; [simpl in Hf; lia|]); cbn [next_fit_loop List.find app] in *;
    apply links_cons in Hl as (En & _ & Hl); unfold node_size at 1;
    (destruct (hdr_size m (header_of n) >=? need) eqn:E; [done|]); rewrite En.
  - by rewrite Z.eqb_refl.
  - destruct (Z.eqb_spec x start) as [->|]; [exfalso; apply Hh; left|].
    apply IH; [done|elem|simpl in Hf; lia].
Qed.

(** The scan of best fit: the smallest fitting node so far, earliest first. *)
Definition best_step (m : mem) (need : Z) (b : Z * Z) (n : Z) : Z * Z :=
  if (node_size m n >=? need) && (node_size m n <? b.2) then (n, node_size m n) else b.

Lemma best_step_eq m need best best_sz n :
  best_step m need (best, best_sz) n =
    if (hdr_size m (header_of n) >=? need) && (hdr_size m (header_of n) <? best_sz)
    then (n, hdr_size m (header_of n)) else (best, best_sz).
Proof. done. Qed.

Lemma best_fit_loop_spec a m need t n best best_sz fuel : 
  links m (n :: t ++ [fl_free_head a]) → (fl_free_head a) ∉ t → (length t < fuel)%nat →
  best_fit_loop fuel a m need n best best_sz
    = Ok (foldl (best_step m need) (best, best_sz) (n :: t)).1.
Proof.
  revert n best best_sz fuel. induction t as [|x t IH]; intros n best best_sz fuel Hl Hh Hf;
    (destruct fuel as [|fuel]; [simpl in Hf; lia|]); cbn [best_fit_loop foldl app] in *;
    apply links_cons in Hl as (En & _ & Hl); rewrite best_step_eq, En;
    destruct ((hdr_size m (header_of n) >=? need) && (hdr_size m (header_of n) <? best_sz)).
  1, 2: by rewrite Z.eqb_refl.
  1, 2: (destruct (Z.eqb_spec x (fl_free_head a)) as [->|]; [exfalso; apply Hh; left|];
    rewrite (IH x); [done|done|elem|simpl in Hf; lia]).
Qed.

Lemma best_fold_spec m need l b :
  let r := foldl (best_step m need) b l in
  (r = b ∧ ∀ x, x ∈ l → node_size m x < need ∨ b.2 ≤ node_size m x) ∨
  (r.1 ∈ l ∧ r.2 = node_size m r.1 ∧ need ≤ r.2 < b.2 ∧
   ∀ x, x ∈ l → need ≤ node_size m x → r.2 ≤ node_size m x).
Proof.
  revert b. induction l as [|n l IH]; intros b; simpl; [left; split; [done|]; intros x Hx; elem|].
  destruct (best_step m need b n) as [b1 s1] eqn:Eb.
  unfold best_step in Eb. destruct ((_ >=? _) && _) eqn:E; simplify_eq.
  - zb. right. destruct (IH (b1, node_size m b1)) as [[-> Hl]|(Hin & Hs & Hr & Hl)]; simpl in *.
    + split_and!; [left|done|lia|lia|]. intros x Hx Hn. apply elem_of_cons in Hx as [->|Hx]; [lia|].
      destruct (Hl x Hx); lia.
    + split_and!; [by right|done|lia|lia|]. intros x Hx Hn. apply elem_of_cons in Hx as [->|Hx]; [lia|].
      by apply Hl.
  - assert (node_size m n < need ∨ s1 ≤ node_size m n) as Hn.
    { apply andb_false_iff in E as [E|E]; zb; simpl in *; lia. }
    destruct (IH (b1, s1)) as [[-> Hl]|(Hin & Hs & Hr & Hl)]; simpl in *.
    + left. split; [done|]. intros x Hx. apply elem_of_cons in Hx as [->|Hx]; [done|by apply Hl].
    + right. split_and!; [by right|done|lia|lia|]. intros x Hx Hn'.
      apply elem_of_cons in Hx as [->|Hx]; [lia|by apply Hl].
Qed.

(** A search result [n] (or [NULL]) found going once around [l]. *)
Definition first_in (m : mem) (need : Z) (l : list Z) (n : Z) : Prop :=
  (n = NULL ∧ ∀ x, x ∈ l → node_size m x < need) ∨
  (∃ l1 l2, l = l1 ++ n :: l2 ∧ need ≤ node_size m n ∧ ∀ x, x ∈ l1 → node_size m x < need).

Definition best_in (m : mem) (need : Z) (l : list Z) (n : Z) : Prop :=
  (n = NULL ∧ ∀ x, x ∈ l → node_size m x < need) ∨
  (n ∈ l ∧ need ≤ node_size m n ∧ ∀ x, x ∈ l → need ≤ node_size m x → node_size m n ≤ node_size m x).

(** What each policy promises: the first fitting node from the head, the
    smallest fitting node, the first fitting node from the cursor. *)
Definition policy_spec (a : fl_alloc) (m : mem) (need : Z) (l : list Z) (n : Z) : Prop :=
  match fl_policy a with
  | HF_FIT_FIRST => first_in m need l n
  | HF_FIT_BEST => best_in m need l n
  | HF_FIT_NEXT =>
      l = [] ∧ n = NULL ∨
      ∃ l1 l2, l = l1 ++ fl_cursor a :: l2 ∧ first_in m need (fl_cursor a :: l2 ++ l1) n
  end.

Lemma first_in_find m need l :
  first_in m need l (from_option id NULL (List.find (λ x, node_size m x >=? need) l)).
Proof.
  induction l as [|x l IH]; simpl; [left; split; [done|]; intros x Hx; elem|].
  destruct (node_size m x >=? need) eqn:E; zb; simpl.
  - right. exists [], l. split_and!; [done|lia|]. intros y Hy. elem.
  - destruct IH as [[E0 Hl]|(l1 & l2 & El & Hn & Hl)].
    + left. split; [done|]. intros y Hy. apply elem_of_cons in Hy as [->|Hy]; [done|by apply Hl].
    + right. exists (x :: l1), l2. split_and!; [by rewrite El at 1|done|].
      intros y Hy. apply elem_of_cons in Hy as [->|Hy]; [done|by apply Hl].
Qed.

Lemma hdr_size_lt m h : 0 ≤ hdr_size m h < 2 ^ 64 - 1.
Proof.
  unfold hdr_size. change (not64 1) with (2 ^ 64 - 1 - (2 ^ 1 - 1)).
  pose proof (load64_range m h) as Hl. rewrite land_clear_low by (done || lia). rewrite Z.pow_1_r.
  pose proof (Z.div_mod (load64 m h) 2 ltac:(lia)). pose proof (Z.mod_pos_bound (load64 m h) 2 ltac:(lia)).
  ulia.
Qed.

Lemma policy_spec_sound a m need l n : policy_spec a m need l n →
  (n = NULL ∧ ∀ x, x ∈ l → node_size m x < need) ∨ (n ∈ l ∧ need ≤ node_size m n).
Proof.
  unfold policy_spec, first_in, best_in. destruct (fl_policy a).
  - intros [?|(l1 & l2 & -> & ? & _)]; [by left|right]. split; [elem|done].
  - intros [?|(? & ? & _)]; [by left|by right].
  - intros [[-> ->]|(l1 & l2 & -> & [[-> H]|(k1 & k2 & E & ? & _)])].
    + left. split; [done|]. intros x Hx. elem.
    + left. split; [done|]. intros x Hx. apply H. elem.
    + right. split; [|done]. assert (n ∈ fl_cursor a :: l2 ++ l1) by (rewrite E; elem). elem.
Qed.

(** [find_fit] ends within its fuel and does what its policy promises. *)
Lemma find_fit_spec a m l need :
  fl_list a m l → (length l < fl_fuel a)%nat →
  ∃ a' n, find_fit a m need = Ok (a', n) ∧ policy_spec a m need l n ∧
          fl_list a' m l ∧ fl_same a a' ∧ (n = NULL → a' = a).
Proof.
  intros Hfl Hfuel. pose proof Hfl as [Hok Hr Hh Hc0 Hc]. unfold find_fit, policy_spec.
  destruct l as [|h t].
  { simpl in Hh. rewrite Hh. simpl. exists a, NULL. split; [done|]. split; [|done].
    destruct (fl_policy a); left; split; try done; intros x Hx; elem. }
  pose proof (nodes_ok_cons _ _ Hok) as (_ & Hnt & Hh0 & _). simpl in Hh, Hfuel.
  destruct (fl_free_head a =? 0) eqn:E; zb; [lia|]. clear E.
  destruct (fl_policy a) eqn:Epol.
  - rewrite (first_fit_loop_spec a m need t) by (rewrite ?Hh; done || lia).
    exists a. eexists. split; [done|]. rewrite Hh. split; [apply first_in_find|done].
  - rewrite (best_fit_loop_spec a m need t) by (rewrite ?Hh; done || lia).
    rewrite Hh. exists a. eexists. split; [done|]. split; [|done].
    destruct (best_fold_spec m need (h :: t) (NULL, 2 ^ 64 - 1)) as [[-> Hl]|(Hin & Hs & Hb & Hl)].
    + left. split; [done|]. intros x Hx. pose proof (hdr_size_lt m (header_of x)).
      destruct (Hl x Hx) as [?|Hb]; [done|]. unfold node_size in Hb. simpl in Hb. lia.
    + right. rewrite Hs in Hb, Hl. split_and!; [done|lia|done].
  - assert (fl_cursor a ∈ h :: t) as Hcur by (by apply Hc).
    pose proof (node_aligned _ _ Hok Hcur) as (_ & _ & Hc1 & _).
    destruct (fl_cursor a =? 0) eqn:E; zb; [lia|].
    destruct (list_elem_of_split _ _ Hcur) as (l1 & l2 & El).
    assert (h :: t ≡ₚ fl_cursor a :: l2 ++ l1) as Hp
      by (rewrite El, (Permutation_app_comm l2 l1); by rewrite Permutation_middle).
    assert (ring m (fl_cursor a :: l2 ++ l1)) as Hr1.
    { rewrite El in Hr. by apply ring_rotate in Hr. }
    assert (length (l2 ++ l1) = length t) as Elen by (apply Permutation_length in Hp; simpl in Hp; lia).
    pose proof (nodes_ok_perm _ _ Hp Hok) as Hok1. pose proof (nodes_ok_cons _ _ Hok1) as (_ & Hcn & _).
    rewrite (next_fit_loop_spec a m need (fl_cursor a) (l2 ++ l1)) by (done || lia).
    cbn [mbind outcome_bind].
    pose proof (first_in_find m need (fl_cursor a :: l2 ++ l1)) as Hfi.
    destruct (List.find _ _) as [x|] eqn:Ef; simpl in Hfi; eexists _, _; (split; [done|]);
      (split; [right; by exists l1, l2|]).
    + assert (x ∈ h :: t) as Hx.
      { rewrite Hp. apply find_some in Ef as [Hin _]. by apply list_elem_of_In. }
      split; [|split; [done|intros ->; by pose proof (node_aligned _ _ Hok Hx); lia]].
      split; try done. intros _. simpl.
      destruct (list_elem_of_split _ _ Hx) as (k1 & k2 & Ek).
      assert (ring m (x :: k2 ++ k1)) as Hr2 by (rewrite Ek in Hr; by apply ring_rotate in Hr).
      destruct (ring_neighbours _ _ _ Hr2) as (_ & y & _ & Hy & -> & _).
      assert (y ∈ (k2 ++ k1) ++ [x]) as Hyin by (destruct ((k2 ++ k1) ++ [x]); [done|]; simpl in Hy;
        injection Hy as ->; left).
      rewrite Ek. elem.
    + split; [by split|]. split; [done|]. intros _. by destruct a.
Qed.
