(* ===== verification/FreeListPhys.v ===== *)
(** * The physical chain of blocks

    The arena of the free-list allocator is a sequence of blocks, each with its
    size, its used bit and the address of the block before it in its header:
    [phys m a prev bs] says that the headers in memory from address [a] on
    describe the blocks [bs].  The lemmas locate blocks, headers and links,
    keep them apart, and say what rewriting one header does. *)

From S2P Require Import Prelude Memory Platform Allocator Links FreeList FreeListRing.

(** A block: its size and whether it is in use. *)
Abbreviation block := (Z * bool)%type.

Fixpoint phys (m : mem) (a prev : Z) (bs : list block) : Prop :=
  match bs with
  | [] => True
  | (sz, u) :: bs =>
      load64 m a = sz + (if u : bool then 1 else 0) ∧ load64 m (a + 8) = prev ∧ phys m (a + sz) a bs
  end.

(** The address behind the last block, and the header of the last block. *)
Fixpoint end_addr (a : Z) (bs : list block) : Z :=
  match bs with [] => a | (sz, _) :: bs => end_addr (a + sz) bs end.

Fixpoint last_hdr (a prev : Z) (bs : list block) : Z :=
  match bs with [] => prev | (sz, _) :: bs => last_hdr (a + sz) a bs end.

(** All headers; the nodes of the free blocks; the used blocks with sizes. *)
Fixpoint hdrs (a : Z) (bs : list block) : list Z :=
  match bs with [] => [] | (sz, _) :: bs => a :: hdrs (a + sz) bs end.

Fixpoint free_nodes (a : Z) (bs : list block) : list Z :=
  match bs with
  | [] => []
  | (sz, u) :: bs => (if u : bool then [] else [a + 16]) ++ free_nodes (a + sz) bs
  end.

Fixpoint used_list (a : Z) (bs : list block) : list (Z * Z) :=
  match bs with
  | [] => []
  | (sz, u) :: bs => (if u : bool then [(a, sz)] else []) ++ used_list (a + sz) bs
  end.

Fixpoint used_bytes (bs : list block) : Z :=
  match bs with [] => 0 | (sz, u) :: bs => (if u : bool then sz else 0) + used_bytes bs end.

Definition blocks_ok (bs : list block) : Prop := Forall (λ b, 32 ≤ b.1 ∧ (16 | b.1)) bs.

(** No two neighbours are free; [pf] says whether the block before is. *)
Fixpoint coal (pf : bool) (bs : list block) : Prop :=
  match bs with
  | [] => True
  | (_, u) :: bs => (pf = true → u = true) ∧ coal (negb u) bs
  end.

Fixpoint last_free (pf : bool) (bs : list block) : bool :=
  match bs with [] => pf | (_, u) :: bs => last_free (negb u) bs end.

(** Byte [x] belongs to a header. *)
Definition hdr_bytes (a : Z) (bs : list block) (x : Z) : Prop := ∃ h, h ∈ hdrs a bs ∧ range h 16 x.

(** ** Concatenation *)

Lemma end_addr_app a bs1 bs2 : end_addr a (bs1 ++ bs2) = end_addr (end_addr a bs1) bs2.
Proof. revert a. induction bs1 as [|[sz u] bs1 IH]; intros; simpl; auto. Qed.

Lemma phys_app m a p bs1 bs2 :
  phys m a p (bs1 ++ bs2) ↔ phys m a p bs1 ∧ phys m (end_addr a bs1) (last_hdr a p bs1) bs2.
Proof.
  revert a p. induction bs1 as [|[sz u] bs1 IH]; intros; simpl; [tauto|]. rewrite IH. tauto.
Qed.

Lemma hdrs_app a bs1 bs2 : hdrs a (bs1 ++ bs2) = hdrs a bs1 ++ hdrs (end_addr a bs1) bs2.
Proof. revert a. induction bs1 as [|[sz u] bs1 IH]; intros; simpl; [done|]. by rewrite IH. Qed.

Lemma free_nodes_app a bs1 bs2 :
  free_nodes a (bs1 ++ bs2) = free_nodes a bs1 ++ free_nodes (end_addr a bs1) bs2.
Proof.
  revert a. induction bs1 as [|[sz u] bs1 IH]; intros; simpl; [done|]. by rewrite IH, app_assoc.
Qed.

Lemma used_list_app a bs1 bs2 :
  used_list a (bs1 ++ bs2) = used_list a bs1 ++ used_list (end_addr a bs1) bs2.
Proof.
  revert a. induction bs1 as [|[sz u] bs1 IH]; intros; simpl; [done|]. by rewrite IH, app_assoc.
Qed.

Lemma used_bytes_app bs1 bs2 : used_bytes (bs1 ++ bs2) = used_bytes bs1 + used_bytes bs2.
Proof. induction bs1 as [|[sz []] bs1 IH]; simpl; lia. Qed.

Lemma coal_app pf bs1 bs2 : coal pf (bs1 ++ bs2) ↔ coal pf bs1 ∧ coal (last_free pf bs1) bs2.
Proof.
  revert pf. induction bs1 as [|[sz u] bs1 IH]; intros; simpl; [tauto|]. rewrite IH. tauto.
Qed.

Lemma blocks_ok_app bs1 bs2 : blocks_ok (bs1 ++ bs2) ↔ blocks_ok bs1 ∧ blocks_ok bs2.
Proof. apply Forall_app. Qed.

Lemma blocks_ok_cons sz u bs : blocks_ok ((sz, u) :: bs) ↔ (32 ≤ sz ∧ (16 | sz)) ∧ blocks_ok bs.
Proof. unfold blocks_ok. by rewrite Forall_cons. Qed.

(** ** Positions *)

Lemma end_addr_shift a bs : end_addr a bs = a + end_addr 0 bs.
Proof.
  revert a. cut (∀ a d, end_addr (a + d) bs = a + end_addr d bs).
  { intros H a. by rewrite <- (H a 0), Z.add_0_r. }
  induction bs as [|[sz u] bs IH]; intros a d; simpl; [done|]. by rewrite <- Z.add_assoc, IH.
Qed.

Lemma end_addr_ge a bs : blocks_ok bs → a + 32 * Z.of_nat (length bs) ≤ end_addr a bs.
Proof.
  revert a. induction bs as [|[sz u] bs IH]; intros a H; cbn [end_addr length]; [lia|].
  apply blocks_ok_cons in H as [[Hmin _] H]. specialize (IH (a + sz) H). lia.
Qed.

Lemma end_addr_div a bs : (16 | a) → blocks_ok bs → (16 | end_addr a bs).
Proof.
  revert a. induction bs as [|[sz u] bs IH]; intros a Ha H; simpl; [done|].
  apply blocks_ok_cons in H as [[_ Hdv] H]. apply IH; [|done]. by apply Z.divide_add_r.
Qed.

Lemma used_bytes_bounds a bs : blocks_ok bs → 0 ≤ used_bytes bs ≤ end_addr a bs - a.
Proof.
  revert a. induction bs as [|[sz u] bs IH]; intros a H; simpl; [lia|].
  apply blocks_ok_cons in H as [[Hmin _] H]. specialize (IH (a + sz) H). destruct u; lia.
Qed.

Lemma hdrs_bounds a bs h : blocks_ok bs → h ∈ hdrs a bs → a ≤ h ∧ h + 32 ≤ end_addr a bs.
Proof.
  revert a. induction bs as [|[sz u] bs IH]; intros a H Hh; simpl in *; [elem|].
  apply blocks_ok_cons in H as [[Hmin _] H]. pose proof (end_addr_ge (a + sz) bs H).
  apply elem_of_cons in Hh as [->|Hh]; [lia|]. apply IH in Hh; [lia|done].
Qed.

Lemma hdrs_split a bs h : h ∈ hdrs a bs →
  ∃ bs1 sz u bs2, bs = bs1 ++ (sz, u) :: bs2 ∧ h = end_addr a bs1.
Proof.
  revert a. induction bs as [|[sz u] bs IH]; intros a Hh; simpl in *; [elem|].
  apply elem_of_cons in Hh as [->|Hh]; [by exists [], sz, u, bs|].
  destruct (IH _ Hh) as (bs1 & sz' & u' & bs2 & -> & ->). by exists ((sz, u) :: bs1), sz', u', bs2.
Qed.

Lemma free_nodes_split a bs n : n ∈ free_nodes a bs →
  ∃ bs1 sz bs2, bs = bs1 ++ (sz, false) :: bs2 ∧ n = end_addr a bs1 + 16.
Proof.
  revert a. induction bs as [|[sz u] bs IH]; intros a Hn; simpl in *; [elem|].
  apply elem_of_app in Hn as [Hn|Hn].
  - destruct u; [elem|]. apply list_elem_of_singleton in Hn as ->. by exists [], sz, bs.
  - destruct (IH _ Hn) as (bs1 & sz' & bs2 & -> & ->). by exists ((sz, u) :: bs1), sz', bs2.
Qed.

Lemma used_list_split a bs h sz : (h, sz) ∈ used_list a bs →
  ∃ bs1 bs2, bs = bs1 ++ (sz, true) :: bs2 ∧ h = end_addr a bs1.
Proof.
  revert a. induction bs as [|[sz' u] bs IH]; intros a Hn; simpl in *; [elem|].
  apply elem_of_app in Hn as [Hn|Hn].
  - destruct u; [|elem]. apply list_elem_of_singleton in Hn as [= -> ->]. by exists [], bs.
  - destruct (IH _ Hn) as (bs1 & bs2 & -> & ->). by exists ((sz', u) :: bs1), bs2.
Qed.

(** Where the free nodes and the used blocks of a chain lie. *)
Lemma free_nodes_bounds a bs n : blocks_ok bs → n ∈ free_nodes a bs → a + 16 ≤ n ∧ n + 16 ≤ end_addr a bs.
Proof.
  intros H Hn. destruct (free_nodes_split _ _ _ Hn) as (bs1 & sz & bs2 & -> & ->).
  apply blocks_ok_app in H as [H1 H2]. apply blocks_ok_cons in H2 as [[Hmin _] H2].
  rewrite end_addr_app. simpl. pose proof (end_addr_ge a bs1 H1).
  pose proof (end_addr_ge (end_addr a bs1 + sz) bs2 H2). lia.
Qed.

Lemma used_list_bounds a bs h sz : blocks_ok bs → (h, sz) ∈ used_list a bs →
  a ≤ h ∧ h + sz ≤ end_addr a bs ∧ 32 ≤ sz.
Proof.
  intros H Hn. destruct (used_list_split _ _ _ _ Hn) as (bs1 & bs2 & -> & ->).
  apply blocks_ok_app in H as [H1 H2]. apply blocks_ok_cons in H2 as [[Hmin _] H2].
  rewrite end_addr_app. simpl. pose proof (end_addr_ge a bs1 H1).
  pose proof (end_addr_ge (end_addr a bs1 + sz) bs2 H2). lia.
Qed.

(** The body of a block holds no header, and its first 16 bytes are the only
    place for a node. *)
Lemma hdr_bytes_body a bs1 sz u bs2 x : blocks_ok (bs1 ++ (sz, u) :: bs2) →
  end_addr a bs1 + 16 ≤ x < end_addr a bs1 + sz → ¬ hdr_bytes a (bs1 ++ (sz, u) :: bs2) x.
Proof.
  intros H Hx (h & Hh & Hr). apply blocks_ok_app in H as [H1 H2].
  apply blocks_ok_cons in H2 as [[Hmin _] H2]. rewrite hdrs_app in Hh. cbn [hdrs] in Hh.
  apply elem_of_app in Hh as [Hh|Hh]; [apply hdrs_bounds in Hh; [rlia|done]|].
  apply elem_of_cons in Hh as [->|Hh]; [rlia|]. apply hdrs_bounds in Hh; [rlia|done].
Qed.

Lemma node_not_hdr a bs x : blocks_ok bs → node_bytes (free_nodes a bs) x → ¬ hdr_bytes a bs x.
Proof.
  intros H (n & Hn & Hr). destruct (free_nodes_split _ _ _ Hn) as (bs1 & sz & bs2 & -> & ->).
  apply hdr_bytes_body; [done|]. apply blocks_ok_app in H as [_ H].
  apply blocks_ok_cons in H as [[Hmin _] _]. rlia.
Qed.

Lemma used_not_meta a bs h sz x : blocks_ok bs → (h, sz) ∈ used_list a bs →
  h + 16 ≤ x < h + sz → ¬ hdr_bytes a bs x ∧ ¬ node_bytes (free_nodes a bs) x.
Proof.
  intros H Hu Hx. destruct (used_list_split _ _ _ _ Hu) as (bs1 & bs2 & -> & ->).
  split; [by apply hdr_bytes_body|]. intros (n & Hn & Hr).
  apply blocks_ok_app in H as [H1 H2]. apply blocks_ok_cons in H2 as [[Hmin _] H2].
  rewrite free_nodes_app in Hn. simpl in Hn. apply elem_of_app in Hn as [Hn|Hn].
  - apply free_nodes_bounds in Hn; [rlia|done].
  - apply free_nodes_bounds in Hn; [rlia|done].
Qed.

Lemma free_nodes_nodup a bs : blocks_ok bs → NoDup (free_nodes a bs).
Proof.
  revert a. induction bs as [|[sz u] bs IH]; intros a H; simpl; [constructor|].
  apply blocks_ok_cons in H as [[Hmin _] H]. destruct u; simpl; [auto|].
  apply NoDup_cons. split; [|auto]. intros Hn. apply free_nodes_bounds in Hn; [lia|done].
Qed.

Lemma free_nodes_ok a bs : 0 < a → (16 | a) → end_addr a bs ≤ 2 ^ 64 → blocks_ok bs →
  nodes_ok (free_nodes a bs).
Proof.
  intros Ha Hd He H. split; [by apply free_nodes_nodup|]. apply list.Forall_forall.
  intros n Hn. pose proof (free_nodes_bounds _ _ _ H Hn). split; [lia|].
  destruct (free_nodes_split _ _ _ Hn) as (bs1 & sz & bs2 & -> & ->).
  apply blocks_ok_app in H as [H1 _]. apply Z.divide_add_r; [by apply end_addr_div|by exists 1].
Qed.

Lemma length_free_nodes a bs : (length (free_nodes a bs) ≤ length bs)%nat.
Proof.
  revert a. induction bs as [|[sz u] bs IH]; intros a; simpl; [lia|].
  rewrite length_app. specialize (IH (a + sz)). destruct u; simpl; lia.
Qed.

(** ** Reading and writing headers *)

Lemma hdr_word sz (u : bool) : (16 | sz) → 0 ≤ sz < 2 ^ 64 →
  Z.lor sz (if u then 1 else 0) = sz + (if u then 1 else 0) ∧ is_u64 (sz + if u then 1 else 0).
Proof.
  intros [k ->] Hsz. destruct u; [|rewrite Z.lor_0_r; ulia].
  split; [|ulia]. rewrite <- Z.lxor_lor, <- Z.add_nocarry_lxor; [done|..];
    apply Z.bits_inj'; intros i Hi; rewrite Z.land_spec, Z.bits_0; destruct (decide (i = 0)) as [->|];
    try (replace (k * 16) with (2 * (k * 8)) by lia; by rewrite Z.testbit_even_0);
    change 1 with (2 ^ 0); rewrite (Z.pow2_bits_false 0) by lia; apply andb_false_r.
Qed.

Lemma hdr_read m h sz u : (16 | sz) → 0 ≤ sz < 2 ^ 64 → load64 m h = sz + (if u : bool then 1 else 0) →
  hdr_size m h = sz ∧ hdr_used m h = u.
Proof.
  intros Hd Hsz Hl. destruct (hdr_word sz u Hd Hsz) as [_ Hu64]. destruct Hd as [k Hk].
  unfold hdr_size, hdr_used. rewrite Hl.
  change (not64 1) with (2 ^ 64 - 1 - (2 ^ 1 - 1)). rewrite land_clear_low by (done || lia).
  assert (Z.land (sz + (if u then 1 else 0)) 1 = if u then 1 else 0) as ->.
  { change 1 with (2 ^ 1 - 1) at 2. rewrite land_ones_mod by lia. rewrite Z.pow_1_r, Hk.
    replace (k * 16 + _) with ((if u then 1 else 0) + (k * 8) * 2) by lia.
    rewrite Z.mod_add by lia. by destruct u. }
  split; [|by destruct u]. rewrite Hk, Z.pow_1_r.
  replace (k * 16 + _) with ((if u then 1 else 0) + (k * 8) * 2) by lia.
  rewrite Z.div_add by lia. assert ((if u then 1 else 0) / 2 = 0) as -> by by destruct u. lia.
Qed.

Lemma hdr_set_read m h sz u : (16 | sz) → 0 ≤ sz < 2 ^ 64 →
  load64 (hdr_set m h sz u) h = sz + (if u : bool then 1 else 0).
Proof.
  intros Hd Hsz. destruct (hdr_word sz u Hd Hsz) as [E Hu]. unfold hdr_set. rewrite E.
  rewrite load64_store64_eq. by apply wrap64_small.
Qed.

Lemma phys_agree m m' a p bs : agree_on (hdr_bytes a bs) m m' → phys m a p bs → phys m' a p bs.
Proof.
  revert a p. induction bs as [|[sz u] bs IH]; intros a p Hag H; [done|].
  simpl in *. destruct H as (H1 & H2 & H3). split_and!.
  - rewrite (load64_agree m m'); [done|]. intros x Hx. apply Hag. exists a. split; [left|rlia].
  - rewrite (load64_agree m m'); [done|]. intros x Hx. apply Hag. exists a. split; [left|rlia].
  - apply IH; [|done]. intros x (h & Hh & Hr). apply Hag. exists h. split; [by right|done].
Qed.

(** Rewriting the back link of the first block of a chain. *)
Lemma phys_set_prev m a p v bs : blocks_ok bs → is_u64 v → phys m a p bs →
  phys (if decide (bs = []) then m else set_prev_phys m a v) a v bs.
Proof.
  intros Hok Hv H. destruct bs as [|[sz u] bs]; [done|]. rewrite decide_False by done.
  apply blocks_ok_cons in Hok as [[Hmin _] Hok]. simpl in *. destruct H as (H1 & H2 & H3).
  unfold set_prev_phys. split_and!.
  - by rewrite load64_store64_ne by lia.
  - rewrite load64_store64_eq. by apply wrap64_small.
  - eapply phys_agree; [|done]. apply agree_on_store64. intros x (h & Hh & Hr).
    apply hdrs_bounds in Hh; [rlia|done].
Qed.

(** Rewriting the size word of a block. *)
Lemma phys_set_hdr m a p bs h sz u : blocks_ok bs → h + 16 ≤ a ∨ end_addr a bs ≤ h → phys m a p bs → phys (hdr_set m h sz u) a p bs.
Proof.
  intros Hok Hh H. eapply phys_agree; [|done]. apply agree_on_store64. intros x (k & Hk & Hr).
  apply hdrs_bounds in Hk; [rlia|done].
Qed.
