(* ===== verification/FreeListProofs.v ===== *)
(** * The free-list allocator: correctness

    The invariant ties the three views together: the chain of headers covers
    the arena, the circular list holds exactly the free blocks, no two
    neighbours are free, and the byte count is that of the used blocks.
    Allocation and free are followed step by step through states in which one
    block is off the list; the allocator is then shown to meet the interface
    of [Allocator]. *)

From S2P Require Import Prelude Memory Platform Allocator Links FreeList FreeListRing FreeListPhys.

(** The blocks [bs] cover the arena. *)
Record fl_geo (a : fl_alloc) (bs : list block) : Prop := {
  fg_base : 0 < fl_mem a ∧ (16 | fl_mem a);
  fg_end : end_addr (fl_mem a) bs = fl_mem a + fl_capacity a;
  fg_space : fl_mem a + fl_capacity a ≤ 2 ^ 64;
  fg_blocks : blocks_ok bs;
  fg_cap : 0 < fl_capacity a
}.

(** Arena, chain and list belong together. *)
Record fl_core (a : fl_alloc) (m : mem) (bs : list block) (l : list Z) : Prop := {
  fc_geo : fl_geo a bs;
  fc_phys : phys m (fl_mem a) NULL bs;
  fc_list : fl_list a m l
}.

(** The invariant between calls. *)
Record fl_wf (a : fl_alloc) (m : mem) (bs : list block) (l : list Z) : Prop := {
  fw_core : fl_core a m bs l;
  fw_perm : l ≡ₚ free_nodes (fl_mem a) bs;
  fw_coal : coal false bs;
  fw_used : used (fl_stats a) = used_bytes bs
}.

(** The payload bytes of the used blocks [U]. *)
Definition body_bytes (U : list (Z * Z)) (x : Z) : Prop :=
  ∃ h sz, (h, sz) ∈ U ∧ h + 16 ≤ x < h + sz.

(** The nodes of the free blocks, and the used blocks, around a block. *)
Definition other_nodes (base : Z) (bs1 : list block) (sz : Z) (bs2 : list block) : list Z :=
  free_nodes base bs1 ++ free_nodes (end_addr base bs1 + sz) bs2.

Definition others (base : Z) (bs1 : list block) (sz : Z) (bs2 : list block) : list (Z * Z) :=
  used_list base bs1 ++ used_list (end_addr base bs1 + sz) bs2.

(** ** Frames *)

Lemma fl_list_agree a m m' l : fl_list a m l → agree_on (node_bytes l) m m' → fl_list a m' l.
Proof.
  intros [Hok Hr Hh Hc0 Hc] Hag. split; try done. destruct l as [|h t]; [done|].
  unfold ring in *.
  assert (∀ z, z ∈ h :: t → node_next m' z = node_next m z ∧ node_prev m' z = node_prev m z) as Hz.
  { intros z Hz. split; apply load64_agree; intros x Hx; apply Hag; exists z; (split; [done|rlia]). }
  assert (∀ z, z ∈ (h :: t) ++ [h] → z ∈ h :: t) as Hin by (intros z Hz'; elem).
  apply (links_frame m); [done|..].
  - intros z Hz'. by apply Hz.
  - intros z Hz'. apply Hz, Hin. cbn [app tail] in *. by right.
Qed.

Lemma fl_geo_same a a' bs : fl_mem a' = fl_mem a → fl_capacity a' = fl_capacity a →
  fl_geo a bs → fl_geo a' bs.
Proof. intros E1 E2 []. split; rewrite ?E1, ?E2; done. Qed.

Lemma fl_core_stats a m bs l st : fl_core a m bs l → fl_core (fl_set_stats a st) m bs l.
Proof.
  intros [Hg Hp Hl]. split; [by apply (fl_geo_same a)|done|]. destruct Hl. by split.
Qed.

(** ** Geometry around one block *)

Section block.
Context (a : fl_alloc) (bs1 : list block) (sz : Z) (u : bool) (bs2 : list block).
Context (Hgeo : fl_geo a (bs1 ++ (sz, u) :: bs2)).

Abbreviation h := (end_addr (fl_mem a) bs1).

Lemma geo_facts :
  fl_mem a ≤ h ∧ h + sz ≤ fl_mem a + fl_capacity a ∧ 32 ≤ sz ∧ (16 | sz) ∧ (16 | h) ∧
  0 < h ∧ blocks_ok bs1 ∧ blocks_ok bs2 ∧
  end_addr (h + sz) bs2 = fl_mem a + fl_capacity a ∧ fl_mem a + fl_capacity a ≤ 2 ^ 64.
Proof.
  destruct Hgeo as [[Hb Hd] He Hs Hok _]. apply blocks_ok_app in Hok as [H1 H2].
  apply blocks_ok_cons in H2 as [[Hmin Hdv] H2]. rewrite end_addr_app in He. simpl in He.
  pose proof (end_addr_ge (fl_mem a) bs1 H1). pose proof (end_addr_ge (h + sz) bs2 H2).
  pose proof (end_addr_div (fl_mem a) bs1 Hd H1). split_and!; try done; lia.
Qed.

(** Payloads of other used blocks are no header, no link of another free
    block and not part of this block. *)
Lemma geo_others x : body_bytes (others (fl_mem a) bs1 sz bs2) x →
  ¬ hdr_bytes (fl_mem a) (bs1 ++ (sz, u) :: bs2) x ∧ ¬ range h sz x ∧
  fl_mem a ≤ x < fl_mem a + fl_capacity a.
Proof.
  pose proof geo_facts as (? & ? & ? & _ & _ & _ & H1 & H2 & He & _).
  intros (h' & s & Hin & Hx). unfold others in Hin.
  assert ((h', s) ∈ used_list (fl_mem a) (bs1 ++ (sz, u) :: bs2)) as Hu.
  { rewrite used_list_app. simpl. elem. }
  pose proof (fg_blocks _ _ Hgeo) as Hok.
  split; [by apply (used_not_meta _ _ h' s)|].
  pose proof (used_list_bounds _ _ _ _ Hok Hu) as Hbd. rewrite (fg_end _ _ Hgeo) in Hbd.
  split; [|lia]. intros Hr.
  apply elem_of_app in Hin as [Hin|Hin]; apply used_list_bounds in Hin; try done; rlia.
Qed.

(** Links of other free blocks are apart from all headers and this block. *)
Lemma geo_nodes x : node_bytes (other_nodes (fl_mem a) bs1 sz bs2) x →
  ¬ hdr_bytes (fl_mem a) (bs1 ++ (sz, u) :: bs2) x ∧ ¬ range h sz x.
Proof.
  pose proof geo_facts as (? & ? & ? & _ & _ & _ & H1 & H2 & He & _).
  intros (n & Hn & Hr). unfold other_nodes in Hn. split.
  - apply (node_not_hdr _ _ _ (fg_blocks _ _ Hgeo)). exists n. split; [|done].
    rewrite free_nodes_app. simpl. elem.
  - apply elem_of_app in Hn as [Hn|Hn]; apply free_nodes_bounds in Hn; try done; rlia.
Qed.

(** What a change inside this block or of any header leaves alone. *)
Lemma geo_frame m m' l :
  (∀ n, n ∈ l → n ∈ other_nodes (fl_mem a) bs1 sz bs2) →
  agree_on (λ x, ¬ (hdr_bytes (fl_mem a) (bs1 ++ (sz, u) :: bs2) x ∨ range h sz x)) m m' →
  agree_on (node_bytes l) m m' ∧ agree_on (body_bytes (others (fl_mem a) bs1 sz bs2)) m m'.
Proof.
  intros Hsub Hag. split; intros x Hx; apply Hag.
  - assert (node_bytes (other_nodes (fl_mem a) bs1 sz bs2) x) as Hx'
      by (destruct Hx as (n & Hn & Hr); exists n; auto).
    pose proof (geo_nodes x Hx'). tauto.
  - pose proof (geo_others x Hx). tauto.
Qed.

(** The header of this block in a memory that describes the chain. *)
Lemma core_header m : phys m (fl_mem a) NULL (bs1 ++ (sz, u) :: bs2) →
  load64 m h = sz + (if u then 1 else 0) ∧ load64 m (h + 8) = last_hdr (fl_mem a) NULL bs1 ∧
  hdr_size m h = sz ∧ hdr_used m h = u ∧ phys m (fl_mem a) NULL bs1 ∧ phys m (h + sz) h bs2.
Proof.
  intros Hp. pose proof geo_facts as (? & ? & ? & ? & ? & ? & _ & _ & _ & ?).
  apply phys_app in Hp as [Hp1 Hp2]. simpl in Hp2. destruct Hp2 as (E1 & E2 & E3).
  pose proof (hdr_read m h sz u ltac:(done) ltac:(lia) E1) as [? ?]. done.
Qed.

(** [next_phys] is the block behind, or [NULL] at the end of the arena. *)
Lemma next_phys_eq m : hdr_size m h = sz →
  next_phys a m h = (if decide (bs2 = []) then NULL else h + sz).
Proof.
  intros Es. pose proof geo_facts as (_ & _ & _ & _ & _ & _ & _ & H2 & He & _).
  unfold next_phys. rewrite Es. destruct bs2 as [|[s2 u2] bs3]; simpl in *.
  - destruct (_ <? _) eqn:E; zb; [lia|done].
  - apply blocks_ok_cons in H2 as [[Hmin _] H2]. pose proof (end_addr_ge (h + sz + s2) bs3 H2).
    destruct (_ <? _) eqn:E; zb; [done|lia].
Qed.

(** [hdr_set(h, sz, u)] and the update of the back link behind the block turn
    a memory that describes [bs1] and, apart from that link, [bs2] into one
    that describes the whole chain. *)
Lemma phys_close m q : phys m (fl_mem a) NULL bs1 →
  load64 m (h + 8) = last_hdr (fl_mem a) NULL bs1 → phys m (h + sz) q bs2 →
  let m1 := hdr_set m h sz u in
  let m2 := if decide (bs2 = []) then m1 else set_prev_phys m1 (h + sz) h in
  hdr_size m1 h = sz ∧ phys m2 (fl_mem a) NULL (bs1 ++ (sz, u) :: bs2) ∧
  agree_on (λ x, ¬ (hdr_bytes (fl_mem a) (bs1 ++ (sz, u) :: bs2) x ∨ range h sz x)) m m2.
Proof.
  intros Hp1 Hb Hp2 m1 m2.
  pose proof geo_facts as (? & ? & ? & ? & ? & ? & H1 & H2 & He & ?).
  assert (load64 m1 h = sz + (if u then 1 else 0)) as E1 by (apply hdr_set_read; [done|lia]).
  split; [apply (hdr_read m1 h sz u); [done|lia|done]|].
  assert (phys m2 (h + sz) h bs2) as Q2.
  { apply (phys_set_prev _ _ q); [done|ulia|]. apply phys_set_hdr; [done|left; lia|done]. }
  assert (agree_on (λ x, x < h + sz + 8 ∨ h + sz + 16 ≤ x) m1 m2) as Q3.
  { unfold m2. case_decide; [done|]. apply agree_on_store64. intros x Hx. rlia. }
  split.
  - apply phys_app. split; [|simpl; split_and!; [..|done]].
    + apply (phys_agree m1); [|apply phys_set_hdr; auto with lia].
      intros x (k & Hk & Hr). apply Q3. apply hdrs_bounds in Hk; [rlia|done].
    + rewrite (load64_agree m1 m2); [done|]. intros x Hx. apply Q3. rlia.
    + rewrite (load64_agree m1 m2); [|intros x Hx; apply Q3; rlia].
      unfold m1, hdr_set. by rewrite load64_store64_ne by lia.
  - apply (agree_on_trans _ _ m1).
    + apply agree_on_store64. intros x Hx Hr. apply Hx. right. rlia.
    + unfold m2. case_decide as E; [done|]. apply agree_on_store64. intros x Hx Hr. apply Hx. left.
      destruct bs2 as [|[s2 u2] bs3]; [done|]. exists (h + sz). split; [|rlia].
      rewrite hdrs_app. simpl. elem.
Qed.
End block.

(** ** Taking a node off the list and putting one on *)

Lemma nodes_ok_free a bs : fl_geo a bs → nodes_ok (free_nodes (fl_mem a) bs).
Proof. intros [[Hb Hd] He Hs Hok _]. apply free_nodes_ok; try done. by rewrite He. Qed.

(** Links of free blocks are no header and no payload of a used block. *)
Lemma geo_node_apart a bs R x : fl_geo a bs →
  (∀ n, n ∈ R → n ∈ free_nodes (fl_mem a) bs) → node_bytes R x →
  ¬ hdr_bytes (fl_mem a) bs x ∧ ¬ body_bytes (used_list (fl_mem a) bs) x.
Proof.
  intros Hg HR (n & Hn & Hr).
  assert (node_bytes (free_nodes (fl_mem a) bs) x) as Hnb by (exists n; auto).
  pose proof (fg_blocks _ _ Hg) as Hok. split; [by apply node_not_hdr|].
  intros (k & sz & Hu & Hx). by destruct (used_not_meta _ _ _ _ x Hok Hu Hx).
Qed.

Lemma fl_unlink_core a m bs l n R :
  fl_core a m bs l → l ≡ₚ n :: R → (∀ x, x ∈ R → x ∈ free_nodes (fl_mem a) bs) →
  ∃ a' m' l', fl_unlink a m n = (a', m') ∧ fl_same a a' ∧ fl_core a' m' bs l' ∧ l' ≡ₚ R ∧
    fl_cursor a' ≠ n ∧ agree_on (body_bytes (used_list (fl_mem a) bs)) m m'.
Proof.
  intros [Hg Hph Hls] Hperm HR. assert (n ∈ l) as Hn by (rewrite Hperm; left).
  destruct (list_elem_of_split _ _ Hn) as (l1 & l2 & ->).
  destruct (fl_unlink_spec a m l1 n l2 Hls) as (a' & m' & Hu & Hl & Hsame & Hag).
  rewrite <- Permutation_middle in Hperm. apply Permutation_cons_inv in Hperm as Hp'.
  exists a', m', (l1 ++ l2). split; [done|]. split; [done|].
  destruct Hsame as (Em & Ec & _). split_and!.
  - split; [by apply (fl_geo_same a)|rewrite Em|done].
    eapply phys_agree; [|done]. intros x Hx. apply Hag. rewrite (node_bytes_perm _ _ _ Hp').
    intros Hnb. by apply (geo_node_apart a bs R x Hg HR) in Hnb as [? _].
  - done.
  - pose proof (fll_nodes _ _ _ Hls) as Hok.
    assert (n ∉ l1 ++ l2) as Hnn.
    { destruct Hok as [Hnd _]. rewrite <- Permutation_middle in Hnd. by apply NoDup_cons in Hnd as [? _]. }
    assert (0 < n) by (pose proof (node_aligned _ n Hok Hn); lia).
    destruct (decide (l1 ++ l2 = [])) as [E0|E0].
    + rewrite (fll_cursor_nil _ _ _ Hl E0). lia.
    + intros E. apply Hnn. rewrite <- E. by apply (fll_cursor _ _ _ Hl).
  - intros x Hx. apply Hag. rewrite (node_bytes_perm _ _ _ Hp').
    intros Hnb. by apply (geo_node_apart a bs R x Hg HR) in Hnb as [_ ?].
Qed.

Lemma fl_insert_core a m bs l n :
  fl_core a m bs l → n :: l ≡ₚ free_nodes (fl_mem a) bs →
  ∃ a' m' l', fl_insert a m n = (a', m') ∧ fl_same a a' ∧ fl_core a' m' bs l' ∧
    l' ≡ₚ free_nodes (fl_mem a) bs ∧ agree_on (body_bytes (used_list (fl_mem a) bs)) m m'.
Proof.
  intros [Hg Hph Hls] Hp. pose proof (nodes_ok_free _ _ Hg) as Hok.
  apply (nodes_ok_perm _ (n :: l)) in Hok; [|done].
  destruct (fl_insert_spec a m l n Hls Hok) as (a' & m' & Hi & Hl & Hsame & Hag).
  assert (∀ x, x ∈ n :: l → x ∈ free_nodes (fl_mem a) bs) as Hsub by (intros x; by rewrite Hp).
  exists a', m', (insert_node n l). split; [done|]. split; [done|].
  destruct Hsame as (Em & Ec & _). split_and!.
  - split; [by apply (fl_geo_same a)|rewrite Em|done].
    eapply phys_agree; [|done]. intros x Hx. apply Hag.
    intros Hnb. by apply (geo_node_apart a bs _ x Hg Hsub) in Hnb as [? _].
  - by rewrite insert_node_perm.
  - intros x Hx. apply Hag. intros Hnb.
    by apply (geo_node_apart a bs _ x Hg Hsub) in Hnb as [_ ?].
Qed.

(** ** Rewriting headers *)

Lemma geo_replace a bs1 x1 x2 bs2 : fl_geo a (bs1 ++ x1 ++ bs2) → blocks_ok x2 →
  end_addr (end_addr (fl_mem a) bs1) x2 = end_addr (end_addr (fl_mem a) bs1) x1 →
  fl_geo a (bs1 ++ x2 ++ bs2).
Proof.
  intros [Hb He Hs Hok Hcap] Hx E. rewrite !blocks_ok_app in Hok. destruct Hok as (H1 & _ & H2).
  split; try done.
  - rewrite <- He, !end_addr_app. by rewrite E.
  - by rewrite !blocks_ok_app.
Qed.

(** [hdr_set(h, hdr_size(h), u')] of a block that is off the list. *)
Lemma fl_core_reflag a m bs1 sz u u' bs2 l :
  fl_core a m (bs1 ++ (sz, u) :: bs2) l →
  (∀ n, n ∈ l → n ∈ other_nodes (fl_mem a) bs1 sz bs2) →
  let m' := hdr_set m (end_addr (fl_mem a) bs1) sz u' in
  fl_core a m' (bs1 ++ (sz, u') :: bs2) l ∧
  agree_on (body_bytes (others (fl_mem a) bs1 sz bs2)) m m'.
Proof.
  intros [Hg Hp Hl] Hsub m'.
  pose proof (geo_facts _ _ _ _ _ Hg) as (? & ? & ? & ? & ? & ? & H1 & H2 & He & ?).
  pose proof (core_header _ _ _ _ _ Hg m Hp) as (E1 & E2 & _ & _ & Hp1 & Hp2).
  assert (fl_geo a (bs1 ++ (sz, u') :: bs2)) as Hg'.
  { apply (geo_replace a bs1 [(sz, u)] [(sz, u')] bs2); [done| |done].
    apply blocks_ok_cons; split; [done|constructor]. }
  destruct (geo_frame a bs1 sz u' bs2 Hg' m m' l Hsub) as [Hn Ho].
  { apply agree_on_store64. intros x Hx Hr. apply Hx. right. rlia. }
  split; [|done]. split; [done| |by eapply fl_list_agree].
  apply phys_app. split; [apply phys_set_hdr; auto with lia|]. simpl. split_and!.
  - apply hdr_set_read; [done|lia].
  - unfold m', hdr_set. by rewrite load64_store64_ne by lia.
  - apply phys_set_hdr; [done|left; lia|done].
Qed.

(** Merging a block with the one behind it, neither of them on the list. *)
Lemma fl_core_join a m bs1 sz u s2 u2 bs3 l :
  fl_core a m (bs1 ++ (sz, u) :: (s2, u2) :: bs3) l →
  (∀ n, n ∈ l → n ∈ other_nodes (fl_mem a) bs1 (sz + s2) bs3) →
  let h := end_addr (fl_mem a) bs1 in
  let m1 := hdr_set m h (sz + s2) false in
  let nn := next_phys a m1 h in
  let m2 := if nn =? NULL then m1 else set_prev_phys m1 nn h in
  fl_core a m2 (bs1 ++ (sz + s2, false) :: bs3) l ∧
  agree_on (body_bytes (others (fl_mem a) bs1 (sz + s2) bs3)) m m2.
Proof.
  intros [Hg Hp Hl] Hsub h m1 nn m2.
  pose proof (geo_facts _ _ _ _ _ Hg) as (B1 & B2 & B3 & B4 & B5 & B6 & H1 & H2 & He & B7).
  fold h in B1, B2, B5, B6, He.
  pose proof (core_header _ _ _ _ _ Hg m Hp) as (E1 & E2 & _ & _ & Hp1 & Hp2). fold h in E1, E2, Hp2.
  apply blocks_ok_cons in H2 as [[Hmin Hdv] Hb3]. simpl in Hp2. destruct Hp2 as (_ & _ & Hp3).
  assert (fl_geo a (bs1 ++ (sz + s2, false) :: bs3)) as Hg'.
  { apply (geo_replace a bs1 [(sz, u); (s2, u2)] [(sz + s2, false)] bs3); [done| |simpl; lia].
    apply blocks_ok_cons. split; [|constructor]. split; [lia|by apply Z.divide_add_r]. }
  rewrite <- Z.add_assoc in Hp3.
  destruct (phys_close a bs1 (sz + s2) false bs3 Hg' m _ Hp1 E2 Hp3) as (Es & Hph & Hag).
  assert (nn = if decide (bs3 = []) then NULL else h + (sz + s2)) as Enn
    by (by apply (next_phys_eq a bs1 (sz + s2) false bs3 Hg')).
  assert (m2 = if decide (bs3 = []) then m1 else set_prev_phys m1 (h + (sz + s2)) h) as ->.
  { unfold m2. rewrite Enn. case_decide; [done|]. by rewrite (proj2 (Z.eqb_neq _ 0)) by lia. }
  destruct (geo_frame a bs1 (sz + s2) false bs3 Hg' m _ l Hsub Hag) as [Hn Ho].
  split; [|done]. split; [done|done|by eapply fl_list_agree].
Qed.

(** Cutting a block into [need] used bytes and a free rest, the back link of
    the block behind included. *)
Lemma fl_core_cut a m bs1 sz u need bs2 l :
  fl_core a m (bs1 ++ (sz, u) :: bs2) l →
  (∀ n, n ∈ l → n ∈ other_nodes (fl_mem a) bs1 sz bs2) →
  32 ≤ need → (16 | need) → 32 ≤ sz - need →
  let h := end_addr (fl_mem a) bs1 in
  let m2 := set_prev_phys (hdr_set m (h + need) (sz - need) false) (h + need) h in
  let after := next_phys a m2 (h + need) in
  let m3 := if after =? NULL then m2 else set_prev_phys m2 after (h + need) in
  let m4 := hdr_set m3 h need true in
  fl_core a m4 (bs1 ++ (need, true) :: (sz - need, false) :: bs2) l ∧
  agree_on (body_bytes (others (fl_mem a) bs1 sz bs2)) m m4.
Proof.
  intros [Hg Hp Hl] Hsub Hn1 Hn2 Hr h m2 after m3 m4.
  pose proof (geo_facts _ _ _ _ _ Hg) as (B1 & B2 & B3 & B4 & B5 & B6 & H1 & H2 & He & B7).
  fold h in B1, B2, B5, B6, He.
  pose proof (core_header _ _ _ _ _ Hg m Hp) as (E1 & E2 & _ & _ & Hp1 & Hp2). fold h in E1, E2, Hp2.
  assert (16 | sz - need) as Hdr by (by apply Z.divide_sub_r).
  assert (fl_geo a (bs1 ++ (need, true) :: (sz - need, false) :: bs2)) as Hg'.
  { apply (geo_replace a bs1 [(sz, u)] [(need, true); (sz - need, false)] bs2); [done| |simpl; lia].
    repeat (apply blocks_ok_cons; split; [done|]). constructor. }
  pose proof (geo_facts a (bs1 ++ [(need, true)]) (sz - need) false bs2) as Hgf.
  rewrite <- app_assoc, end_addr_app in Hgf. specialize (Hgf Hg'). simpl in Hgf. fold h in Hgf.
  (* the rest: its header is written first *)
  assert (load64 m2 (h + need) = sz - need + 0) as F1.
  { unfold m2, set_prev_phys. rewrite load64_store64_ne by lia. apply (hdr_set_read _ _ _ false); [done|lia]. }
  assert (load64 m2 (h + need + 8) = h) as F2.
  { unfold m2, set_prev_phys. rewrite load64_store64_eq. apply wrap64_small. ulia. }
  assert (agree_on (λ x, ¬ range (h + need) 16 x) m m2) as F3.
  { unfold m2. eapply agree_on_trans; [|apply agree_on_store64; intros x Hx; rlia].
    apply agree_on_store64. intros x Hx. rlia. }
  assert (after = if decide (bs2 = []) then NULL else h + sz) as Ea.
  { pose proof (next_phys_eq a (bs1 ++ [(need, true)]) (sz - need) false bs2) as Hne.
    rewrite <- app_assoc, end_addr_app in Hne. simpl in Hne. fold h in Hne.
    unfold after. rewrite Hne; [case_decide; lia|done|].
    apply (hdr_read m2 (h + need) (sz - need) false); [done|lia|done]. }
  assert (m3 = if decide (bs2 = []) then m2 else set_prev_phys m2 (h + sz) (h + need)) as E3.
  { unfold m3. rewrite Ea. case_decide; [done|]. by rewrite (proj2 (Z.eqb_neq _ 0)) by lia. }
  (* the chain behind *)
  assert (phys m2 (h + sz) h bs2) as G2.
  { eapply phys_agree; [|done]. intros x (k & Hk & Hx). apply F3. apply hdrs_bounds in Hk; [rlia|done]. }
  assert (phys m3 (h + sz) (h + need) bs2) as G3.
  { rewrite E3. apply (phys_set_prev m2 _ h); [done|ulia|done]. }
  assert (agree_on (λ x, x < h + sz) m2 m3) as G4.
  { rewrite E3. case_decide; [done|]. apply agree_on_store64. intros x Hx. rlia. }
  assert (agree_on (λ x, ¬ range h 8 x) m3 m4) as G5 by (apply agree_on_store64; intros x Hx; rlia).
  assert (agree_on (λ x, x < h + sz ∧ ¬ range h 8 x ∧ ¬ range (h + need) 16 x) m m4) as G6.
  { intros x (? & ? & ?). rewrite G5, G4, F3 by done. done. }
  assert (agree_on (λ x, ¬ (hdr_bytes (fl_mem a) (bs1 ++ (sz, u) :: bs2) x ∨ range h sz x)) m m4) as Hag.
  { intros x Hx. rewrite G5 by rlia. rewrite <- F3 by rlia. rewrite E3. case_decide; [done|].
    apply load8_store64_out. intros Hx'. apply Hx. left. destruct bs2 as [|[s2 u2] bs3]; [done|].
    exists (h + sz). split; [|rlia]. rewrite hdrs_app. simpl. fold h. elem. }
  destruct (geo_frame a bs1 sz u bs2 Hg m m4 l Hsub Hag) as [Hn Ho].
  split; [|done]. split; [done| |by eapply fl_list_agree].
  apply phys_app. split.
  { eapply phys_agree; [|done]. intros x (k & Hk & Hx). apply G6. apply hdrs_bounds in Hk; [|done].
    fold h in Hk. rlia. }
  simpl. fold h. split_and!.
  - apply (hdr_set_read m3 h need true); [done|lia].
  - rewrite (load64_agree m m4); [done|]. intros x Hx. apply G6. rlia.
  - rewrite (load64_agree m2 m4); [done|]. intros x Hx. rewrite G5, G4; [done|rlia..].
  - rewrite (load64_agree m2 m4); [done|]. intros x Hx. rewrite G5, G4; [done|rlia..].
  - replace (h + need + (sz - need)) with (h + sz) by lia.
    eapply phys_agree; [|exact G3]. intros x (k & Hk & Hx). apply G5. apply hdrs_bounds in Hk; [rlia|done].
Qed.

(** ** Merging *)

(** A block in the middle of a free: marked free, not yet on the list. *)
Definition fl_mid (a : fl_alloc) (m : mem) (bs1 : list block) (sz : Z) (bs2 : list block) (l : list Z) : Prop :=
  fl_core a m (bs1 ++ (sz, false) :: bs2) l ∧ l ≡ₚ other_nodes (fl_mem a) bs1 sz bs2.

Lemma fl_mid_sub a m bs1 sz bs2 l n : fl_mid a m bs1 sz bs2 l → n ∈ l →
  n ∈ other_nodes (fl_mem a) bs1 sz bs2.
Proof. intros [_ ->]. done. Qed.

Lemma fl_cursor_guard a n : fl_cursor a ≠ n → (if fl_cursor a =? n then fl_set_cursor a NULL else a) = a.
Proof. intros H. by rewrite (proj2 (Z.eqb_neq _ _) H). Qed.

(** Two free neighbours, the node [n] of one of them on the list: it is taken
    off and the blocks become one. *)
Lemma fl_join_spec a m bs1 sz s2 bs3 l n :
  fl_core a m (bs1 ++ (sz, false) :: (s2, false) :: bs3) l →
  l ≡ₚ n :: other_nodes (fl_mem a) bs1 (sz + s2) bs3 →
  let h := end_addr (fl_mem a) bs1 in
  ∃ a' m' l',
    (let '(a, m) := fl_unlink a m n in
     let a := if fl_cursor a =? n then fl_set_cursor a NULL else a in
     let m := hdr_set m h (hdr_size m h +% hdr_size m (h + sz)) false in
     let nn := next_phys a m h in
     (a, if nn =? NULL then m else set_prev_phys m nn h)) = (a', m') ∧
    fl_same a a' ∧ fl_mid a' m' bs1 (sz + s2) bs3 l' ∧
    agree_on (body_bytes (others (fl_mem a) bs1 (sz + s2) bs3)) m m'.
Proof.
  intros Hc Hperm h. pose proof (fc_geo _ _ _ _ Hc) as Hg.
  set (bs := bs1 ++ (sz, false) :: (s2, false) :: bs3) in *.
  assert (∀ x, x ∈ other_nodes (fl_mem a) bs1 (sz + s2) bs3 → x ∈ free_nodes (fl_mem a) bs) as Hsub.
  { intros x Hx. unfold other_nodes in Hx. unfold bs. rewrite free_nodes_app. simpl.
    fold h in Hx |- *. replace (h + sz + s2) with (h + (sz + s2)) by lia. elem. }
  destruct (fl_unlink_core a m bs l n _ Hc Hperm Hsub) as (a1 & m1 & l1 & -> & Hsame & Hc1 & Hp1 & Hcur & Hag1).
  rewrite (fl_cursor_guard a1 n Hcur). destruct Hsame as (Em & Ecap & Erest).
  pose proof (fc_geo _ _ _ _ Hc1) as Hg1. pose proof (fc_phys _ _ _ _ Hc1) as Hph1.
  pose proof (geo_facts _ _ _ _ _ Hg1) as (B1 & B2 & B3 & B4 & B5 & B6 & H1 & H2 & He & B7).
  pose proof (core_header _ _ _ _ _ Hg1 m1 Hph1) as (_ & _ & Es1 & _).
  assert (hdr_size m1 (h + sz) = s2) as Es2.
  { replace bs with ((bs1 ++ [(sz, false)]) ++ (s2, false) :: bs3) in Hg1, Hph1
      by (unfold bs; by rewrite <- app_assoc).
    pose proof (core_header _ _ _ _ _ Hg1 m1 Hph1) as (_ & _ & Es2 & _).
    rewrite end_addr_app, Em in Es2. exact Es2. }
  apply blocks_ok_cons in H2 as [[Hmin Hdv] H3]. simpl in He.
  pose proof (end_addr_ge (end_addr (fl_mem a1) bs1 + sz + s2) _ H3) as Hend.
  rewrite Em in Es1, B1, B5, B6, Hend, He. fold h in Es1, B1, B5, B6, Hend, He. rewrite Em in B7.
  rewrite Es1, Es2, wrap64_small by ulia.
  assert (∀ x, x ∈ l1 → x ∈ other_nodes (fl_mem a1) bs1 (sz + s2) bs3) as Hsub1
    by (intros x; by rewrite Hp1, Em).
  destruct (fl_core_join a1 m1 bs1 sz false s2 false bs3 l1 Hc1 Hsub1) as [Hc2 Hag2].
  rewrite Em in Hc2, Hag2. fold h in Hc2, Hag2.
  eexists _, _, l1. split; [reflexivity|]. split; [done|]. split.
  - split; [|by rewrite Em]. exact Hc2.
  - eapply agree_on_trans; [|exact Hag2]. eapply agree_on_sub; [exact Hag1|].
    intros x (k & s & Hin & Hx). exists k, s. split; [|done]. unfold others in Hin. unfold bs.
    rewrite used_list_app. simpl. fold h in Hin |- *.
    replace (h + sz + s2) with (h + (sz + s2)) by lia. elem.
Qed.

Lemma fl_merge_next_spec a m bs1 sz bs2 l :
  fl_mid a m bs1 sz bs2 l → coal false bs2 →
  let h := end_addr (fl_mem a) bs1 in
  ∃ a' m' l' sz' bs2', fl_merge_next a m h = (a', m') ∧ fl_same a a' ∧ fl_mid a' m' bs1 sz' bs2' l' ∧
    coal true bs2' ∧ used_list (h + sz') bs2' = used_list (h + sz) bs2 ∧ used_bytes bs2' = used_bytes bs2 ∧
    agree_on (body_bytes (others (fl_mem a) bs1 sz bs2)) m m'.
Proof.
  intros [Hc Hperm] Hcoal h. pose proof (fc_geo _ _ _ _ Hc) as Hg. pose proof (fc_phys _ _ _ _ Hc) as Hph.
  pose proof (geo_facts _ _ _ _ _ Hg) as (B1 & B2 & B3 & B4 & B5 & B6 & H1 & H2 & He & B7).
  pose proof (core_header _ _ _ _ _ Hg m Hph) as (_ & _ & Es1 & _ & _ & Hp2).
  unfold fl_merge_next, h. rewrite (next_phys_eq _ _ _ _ _ Hg m Es1). fold h in B6, Hp2 |- *.
  destruct bs2 as [|[s2 u2] bs3]; [by exists a, m, l, sz, []|].
  rewrite decide_False, (proj2 (Z.eqb_neq (h + sz) 0)) by (done || lia).
  apply blocks_ok_cons in H2 as [[Hmin Hdv] H3]. cbn [phys] in Hp2. destruct Hp2 as (Hw & _ & _).
  cbn [end_addr] in He. pose proof (end_addr_ge (end_addr (fl_mem a) bs1 + sz + s2) bs3 H3) as Hend.
  destruct (hdr_read m (h + sz) s2 u2 Hdv ltac:(lia) Hw) as [_ ->]. destruct u2; cbn [negb andb].
  { exists a, m, l, sz, ((s2, true) :: bs3). split_and!; try done. split; [done|apply Hcoal]. }
  destruct (fl_join_spec a m bs1 sz s2 bs3 l (payload_node (h + sz)) Hc) as (a' & m' & l' & E & ? & ? & Hag).
  { rewrite Hperm. unfold other_nodes, payload_node, FL_HDR. cbn [free_nodes app]. fold h.
    replace (h + sz + s2) with (h + (sz + s2)) by lia.
    by rewrite <- (Permutation_middle (free_nodes (fl_mem a) bs1)). }
  exists a', m', l', (sz + s2), bs3. split; [exact E|]. split_and!; try done.
  - apply Hcoal.
  - cbn [used_list app]. by rewrite Z.add_assoc.
  - eapply agree_on_sub; [exact Hag|]. intros x Hx. unfold others in *. cbn [used_list] in Hx.
    by replace (end_addr (fl_mem a) bs1 + (sz + s2)) with (end_addr (fl_mem a) bs1 + sz + s2) by lia.
Qed.

Lemma last_hdr_snoc a p bs sz u : last_hdr a p (bs ++ [(sz, u)]) = end_addr a bs.
Proof. revert a p. induction bs as [|[s v] bs IH]; intros; simpl; [done|]. apply IH. Qed.

Lemma last_free_snoc pf bs sz u : last_free pf (bs ++ [(sz, u)]) = negb u.
Proof. revert pf. induction bs as [|[s v] bs IH]; intros; simpl; [done|]. apply IH. Qed.

Lemma fl_merge_prev_spec a m bs1 sz bs2 l :
  fl_mid a m bs1 sz bs2 l → coal false bs1 → coal true bs2 →
  let h := end_addr (fl_mem a) bs1 in
  ∃ a' m' l' bs1' sz', fl_merge_prev a m h = (a', m', end_addr (fl_mem a) bs1') ∧ fl_same a a' ∧
    fl_mid a' m' bs1' sz' bs2 l' ∧ coal false (bs1' ++ (sz', false) :: bs2) ∧
    others (fl_mem a) bs1' sz' bs2 = others (fl_mem a) bs1 sz bs2 ∧ used_bytes bs1' = used_bytes bs1 ∧
    agree_on (body_bytes (others (fl_mem a) bs1 sz bs2)) m m'.
Proof.
  intros [Hc Hperm] Hcoal1 Hcoal2 h. pose proof (fc_geo _ _ _ _ Hc) as Hg. pose proof (fc_phys _ _ _ _ Hc) as Hph.
  pose proof (core_header _ _ _ _ _ Hg m Hph) as (_ & Hpp & _). unfold fl_merge_prev, prev_phys, h. rewrite Hpp.
  destruct bs1 as [|[s0 u0] bs0 _] using rev_ind.
  { exists a, m, l, [], sz. by split_and!. }
  rewrite last_hdr_snoc in *. apply coal_app in Hcoal1 as Hc0.
  rewrite <- app_assoc in Hg, Hph, Hc. cbn [app] in Hg, Hph, Hc.
  pose proof (geo_facts _ _ _ _ _ Hg) as (B1 & B2 & B3 & B4 & B5 & B6 & H1 & H2 & He & B7).
  pose proof (core_header _ _ _ _ _ Hg m Hph) as (_ & _ & _ & Hu & _).
  rewrite (proj2 (Z.eqb_neq _ 0)) by lia. rewrite Hu.
  destruct u0; cbn [negb andb].
  { exists a, m, l, (bs0 ++ [(s0, true)]), sz. split_and!; try done.
    - split; [by rewrite <- app_assoc|done].
    - apply coal_app. rewrite last_free_snoc. simpl. auto. }
  set (k := end_addr (fl_mem a) bs0) in *.
  assert (end_addr (fl_mem a) (bs0 ++ [(s0, false)]) = k + s0) as Ek by (by rewrite end_addr_app).
  unfold other_nodes in Hperm. unfold others. rewrite free_nodes_app, used_list_app, Ek in *.
  cbn [free_nodes used_list] in *. fold k in Hperm |- *.
  replace (k + s0 + sz) with (k + (s0 + sz)) in * by lia.
  destruct (fl_join_spec a m bs0 s0 sz bs2 l (payload_node k) Hc) as (a' & m' & l' & E & ? & ? & Hag).
  { rewrite Hperm. unfold other_nodes, payload_node, FL_HDR. fold k. rewrite <- app_assoc. simpl.
    by rewrite <- (Permutation_middle (free_nodes (fl_mem a) bs0)). }
  exists a', m', l', bs0, (s0 + sz). fold k in E. simpl in E.
  destruct (fl_unlink a m (payload_node k)) as [a1 m1]. simplify_eq. split_and!; try done.
  - apply coal_app. split; [apply Hc0|]. simpl. split; [apply Hc0|done].
  - by rewrite app_nil_r.
  - rewrite used_bytes_app. simpl. lia.
  - eapply agree_on_sub; [exact Hag|]. intros x Hx. unfold others. by rewrite !app_nil_r in Hx.
Qed.

(** ** Free *)

Lemma plausible_header_used a m bs1 sz bs2 :
  fl_geo a (bs1 ++ (sz, true) :: bs2) → phys m (fl_mem a) NULL (bs1 ++ (sz, true) :: bs2) →
  plausible_header a m (end_addr (fl_mem a) bs1) = true.
Proof.
  intros Hg Hp. pose proof (geo_facts _ _ _ _ _ Hg) as (? & ? & ? & Hd & ? & ? & _).
  pose proof (core_header _ _ _ _ _ Hg m Hp) as (_ & _ & Es & Eu & _).
  unfold plausible_header, FL_MIN, HF_DEFAULT_ALIGN. rewrite Es, Eu.
  apply Z.mod_divide in Hd; [|lia]. rewrite Hd.
  destruct (_ || _) eqn:E; zb; [lia|]. 
  rewrite !andb_true_iff. split_and!; [done|apply Z.geb_le; unfold FL_HDR; lia|done|apply Z.leb_le; lia].
Qed.

(** What no operation changes. *)
Definition fl_frame (a a' : fl_alloc) : Prop :=
  fl_mem a' = fl_mem a ∧ fl_capacity a' = fl_capacity a ∧ fl_policy a' = fl_policy a.

Lemma fl_same_frame a a' : fl_same a a' → fl_frame a a'.
Proof. intros (? & ? & ? & _). done. Qed.

Lemma used_list_mid base bs1 sz bs2 :
  used_list base (bs1 ++ (sz, false) :: bs2) = others base bs1 sz bs2.
Proof. by rewrite used_list_app. Qed.

Lemma free_nodes_mid base bs1 sz bs2 :
  free_nodes base (bs1 ++ (sz, false) :: bs2) ≡ₚ end_addr base bs1 + 16 :: other_nodes base bs1 sz bs2.
Proof. rewrite free_nodes_app. simpl. by rewrite <- Permutation_middle. Qed.

Lemma fl_deallocate_core nd a m bs1 sz bs2 l :
  fl_wf a m (bs1 ++ (sz, true) :: bs2) l →
  ∃ a' m' bs' l', fl_deallocate nd a m (end_addr (fl_mem a) bs1 + 16) = Ok (a', m') ∧
    fl_wf a' m' bs' l' ∧ fl_frame a a' ∧
    used_list (fl_mem a) bs' = others (fl_mem a) bs1 sz bs2 ∧
    agree_on (body_bytes (others (fl_mem a) bs1 sz bs2)) m m' ∧
    fl_stats a' = set_used (used (fl_stats a) - sz) (bump_free (fl_stats a)).
Proof.
  intros [Hc Hperm Hcoal Hused]. pose proof (fc_geo _ _ _ _ Hc) as Hg. pose proof (fc_phys _ _ _ _ Hc) as Hph.
  pose proof (geo_facts _ _ _ _ _ Hg) as (B1 & B2 & B3 & B4 & B5 & B6 & H1 & H2 & He & B7).
  pose proof (core_header _ _ _ _ _ Hg m Hph) as (_ & _ & Es & Eu & _).
  apply coal_app in Hcoal as [Hcoal1 [_ Hcoal2]]. simpl in Hcoal2.
  set (h := end_addr (fl_mem a) bs1) in *.
  unfold fl_deallocate, fl_block_of, FL_HDR. rewrite (proj2 (Z.eqb_neq (h + 16) 0)) by lia.
  replace (h + 16 - 16) with h by lia.
  set (a0 := fl_set_stats a (bump_free (fl_stats a))).
  assert (plausible_header a0 m h = true) as -> by (by apply (plausible_header_used a m bs1 sz bs2)).
  rewrite Eu, Es. cbn [c_assert mbind outcome_bind].
  set (a1 := fl_set_stats a0 _).
  assert (fl_core a1 m (bs1 ++ (sz, true) :: bs2) l) as Hc1 by (by repeat apply fl_core_stats).
  assert (∀ n, n ∈ l → n ∈ other_nodes (fl_mem a1) bs1 sz bs2) as Hsub.
  { intros n. rewrite Hperm, free_nodes_app. done. }
  destruct (fl_core_reflag a1 m bs1 sz true false bs2 l Hc1 Hsub) as [Hc2 Hag2].
  change (fl_mem a1) with (fl_mem a) in Hc2, Hag2. fold h in Hc2.
  assert (fl_mid a1 (hdr_set m h sz false) bs1 sz bs2 l) as Hmid.
  { split; [done|]. rewrite Hperm, free_nodes_app. done. }
  destruct (fl_merge_next_spec _ _ _ _ _ _ Hmid Hcoal2)
    as (a2 & m2 & l2 & sz2 & bs2' & E2 & Hs2 & Hmid2 & Hcoal2' & Hul2 & Hub2 & Hag3).
  change (fl_mem a1) with (fl_mem a) in E2, Hul2, Hag3. fold h in E2, Hul2. rewrite E2.
  destruct (fl_merge_prev_spec _ _ _ _ _ _ Hmid2 Hcoal1 Hcoal2')
    as (a3 & m3 & l3 & bs1' & sz3 & E3 & Hs3 & [Hc3 Hp3] & Hcoal3 & Ho3 & Hub3 & Hag4).
  pose proof Hs2 as (Em2 & Ec2 & Ep2 & Et2). pose proof Hs3 as (Em3 & Ec3 & Ep3 & Et3).
  change (fl_mem a1) with (fl_mem a) in Em2.
  rewrite Em2 in E3, Ho3, Hag4, Em3. fold h in E3. rewrite E3.
  assert (others (fl_mem a) bs1 sz2 bs2' = others (fl_mem a) bs1 sz bs2) as Ho2
    by (unfold others; fold h; by rewrite Hul2).
  destruct (fl_insert_core a3 m3 _ l3 (payload_node (end_addr (fl_mem a) bs1')) Hc3)
    as (a4 & m4 & l4 & E4 & Hs4 & Hc4 & Hp4 & Hag5).
  { unfold payload_node, FL_HDR. by rewrite Hp3, Em3, free_nodes_mid. }
  rewrite Em3, used_list_mid, Ho3, Ho2 in Hag5. rewrite Ho2 in Hag4.
  pose proof Hs4 as (Em4 & Ec4 & Ep4 & Et4).
  exists a4, m4, (bs1' ++ (sz3, false) :: bs2'), l4. cbn [mbind outcome_bind]. rewrite E4.
  rewrite used_bytes_app in Hused. cbn [used_bytes] in Hused.
  pose proof (used_bytes_bounds (fl_mem a) bs1 H1) as U1. pose proof (used_bytes_bounds (h + sz) bs2 H2) as U2.
  fold h in U1. pose proof (fg_base _ _ Hg) as [B0 _].
  assert (fl_stats a4 = set_used (used (fl_stats a) - sz) (bump_free (fl_stats a))) as Est.
  { rewrite Et4, Et3, Et2. cbn [a1 a0 fl_set_stats fl_stats bump_free used]. 
    by rewrite (wrap64_small (used (fl_stats a) - sz)) by ulia. }
  split; [by destruct nd|]. split.
  { split; [done|by rewrite Em4|done|]. rewrite Est, used_bytes_app. simpl. lia. }
  split; [unfold fl_frame; rewrite Em4, Em3, Ec4, Ec3, Ec2, Ep4, Ep3, Ep2; done|].
  split; [by rewrite used_list_mid, Ho3|]. split; [|done].
  eapply agree_on_trans; [exact Hag2|]. eapply agree_on_trans; [exact Hag3|].
  by eapply agree_on_trans.
Qed.

(** ** Allocation *)

Lemma coal_use pf bs1 sz u bs2 : coal pf (bs1 ++ (sz, u) :: bs2) → coal pf (bs1 ++ (sz, true) :: bs2).
Proof.
  rewrite !coal_app. simpl. intros (H1 & _ & H2). split_and!; [done|done|].
  destruct bs2 as [|[s v] bs3]; [done|]. simpl in *. split; [done|tauto].
Qed.

Lemma coal_cut pf bs1 sz need rest bs2 : coal pf (bs1 ++ (sz, false) :: bs2) →
  coal pf (bs1 ++ (need, true) :: (rest, false) :: bs2).
Proof. rewrite !coal_app. simpl. intros (? & ? & ?). by split_and!. Qed.

Lemma header_payload h : header_of (payload_node h) = h.
Proof. unfold header_of, payload_node. lia. Qed.

Lemma used_list_use base bs1 sz bs2 :
  used_list base (bs1 ++ (sz, true) :: bs2) ≡ₚ (end_addr base bs1, sz) :: others base bs1 sz bs2.
Proof. rewrite used_list_app. simpl. by rewrite <- Permutation_middle. Qed.

Lemma fl_carve_spec a m bs1 sz bs2 l need :
  fl_core a m (bs1 ++ (sz, false) :: bs2) l → l ≡ₚ free_nodes (fl_mem a) (bs1 ++ (sz, false) :: bs2) →
  coal false (bs1 ++ (sz, false) :: bs2) → 32 ≤ need ≤ sz → (16 | need) →
  let h := end_addr (fl_mem a) bs1 in
  ∃ a' m' bs2' l' sz', fl_carve a m (payload_node h) need = (a', m') ∧ fl_same a a' ∧
    let bs' := bs1 ++ (sz', true) :: bs2' in
    fl_core a' m' bs' l' ∧ l' ≡ₚ free_nodes (fl_mem a) bs' ∧ coal false bs' ∧
    need ≤ sz' < need + 32 ∧ hdr_size m' h = sz' ∧
    others (fl_mem a) bs1 sz' bs2' = others (fl_mem a) bs1 sz bs2 ∧
    used_bytes bs' = used_bytes bs1 + sz' + used_bytes bs2 ∧
    agree_on (body_bytes (others (fl_mem a) bs1 sz bs2)) m m'.
Proof.
  intros Hc Hperm Hcoal Hneed Hdn h. rewrite free_nodes_mid in Hperm. fold h in Hperm.
  pose proof (geo_facts _ _ _ _ _ (fc_geo _ _ _ _ Hc)) as (B1 & B2 & B3 & B4 & B5 & B6 & H1 & H2 & He & B7).
  assert (∀ x, x ∈ other_nodes (fl_mem a) bs1 sz bs2 → x ∈ free_nodes (fl_mem a) (bs1 ++ (sz, false) :: bs2)) as Hs.
  { intros x. rewrite free_nodes_mid. by right. }
  destruct (fl_unlink_core a m _ l (payload_node h) _ Hc Hperm Hs)
    as (a1 & m1 & l1 & E1 & (Em & Ecap & Ep & Et) & Hc1 & Hp1 & _ & Hag1).
  rewrite used_list_mid in Hag1. unfold fl_carve. rewrite E1, (header_payload h). fold h in B1, B2, B6, He.
  pose proof (core_header _ _ _ _ _ (fc_geo _ _ _ _ Hc1) m1 (fc_phys _ _ _ _ Hc1)) as (_ & _ & Es & _).
  rewrite Em in Es. fold h in Es. rewrite Es. rewrite wrap64_small by ulia.
  assert (∀ n, n ∈ l1 → n ∈ other_nodes (fl_mem a1) bs1 sz bs2) as Hsub by (intros n; by rewrite Hp1, Em).
  destruct (_ >=? FL_MIN) eqn:Esp; zb; change FL_MIN with 32 in Esp.
  - unfold fl_split.
    destruct (fl_core_cut a1 m1 bs1 sz false need bs2 l1 Hc1 Hsub ltac:(lia) Hdn ltac:(lia)) as [Hc2 Hag2].
    rewrite Em in Hc2, Hag2. fold h in Hc2, Hag2.
    edestruct (fl_insert_core a1 _ _ l1 (payload_node (h + need)) Hc2)
      as (a2 & m2 & l2 & E2 & Hs2 & Hc3 & Hp3 & Hag3).
    { rewrite Hp1, Em, free_nodes_app. unfold other_nodes. simpl. fold h.
      replace (h + need + (sz - need)) with (h + sz) by lia. by rewrite <- Permutation_middle. }
    rewrite E2. destruct Hs2 as (Em2 & Ec2 & Ep2 & Et2).
    assert (others (fl_mem a) bs1 need ((sz - need, false) :: bs2) = others (fl_mem a) bs1 sz bs2) as Ho.
    { unfold others. cbn [used_list app]. fold h.
      by replace (h + need + (sz - need)) with (h + sz) by lia. }
    exists a2, m2, ((sz - need, false) :: bs2), l2, need. split; [done|].
    split; [unfold fl_same; rewrite Em2, Ec2, Ep2, Et2; done|]. split_and!; try done; try lia.
    + by rewrite Hp3, Em.
    + by eapply coal_cut.
    + pose proof (core_header _ _ _ _ _ (fc_geo _ _ _ _ Hc3) m2 (fc_phys _ _ _ _ Hc3)) as (_ & _ & Es2 & _).
      by rewrite Em2, Em in Es2.
    + rewrite used_bytes_app. simpl. lia.
    + eapply agree_on_trans; [exact Hag1|]. eapply agree_on_trans; [exact Hag2|].
      eapply agree_on_sub; [exact Hag3|]. intros x (k & s & Hin & Hx). exists k, s. split; [|done].
      rewrite Em, used_list_use, Ho. by right.
  - destruct (fl_core_reflag a1 m1 bs1 sz false true bs2 l1 Hc1 Hsub) as [Hc2 Hag2].
    rewrite Em in Hc2, Hag2. fold h in Hc2, Hag2.
    exists a1, (hdr_set m1 h sz true), bs2, l1, sz. split; [done|]. split; [done|]. split_and!; try done; try lia.
    + rewrite Hp1, free_nodes_app. done.
    + by eapply coal_use.
    + pose proof (core_header _ _ _ _ _ (fc_geo _ _ _ _ Hc2) _ (fc_phys _ _ _ _ Hc2)) as (_ & _ & Es2 & _).
      by rewrite Em in Es2.
    + rewrite used_bytes_app. simpl. lia.
    + by eapply agree_on_trans.
Qed.

(** Writing payload bytes of used blocks disturbs nothing. *)
Lemma fl_wf_payload a m m' bs l : fl_wf a m bs l →
  agree_on (λ x, ¬ body_bytes (used_list (fl_mem a) bs) x) m m' → fl_wf a m' bs l.
Proof.
  intros [[Hg Hp Hl] Hperm Hcoal Hused] Hag. pose proof (fg_blocks _ _ Hg) as Hok. split; try done.
  split; [done|eapply phys_agree; [|done]|eapply fl_list_agree; [done|]]; intros x Hx; apply Hag;
    intros (k & sz & Hu & Hb); destruct (used_not_meta _ _ _ _ x Hok Hu Hb) as [Hnh Hnn]; [done|].
  by rewrite (node_bytes_perm _ _ _ Hperm) in Hx.
Qed.

Lemma fl_wf_fuel a m bs l : fl_wf a m bs l → (length l < fl_fuel a)%nat.
Proof.
  intros [[Hg _ _] Hperm _ _]. rewrite Hperm. pose proof (length_free_nodes (fl_mem a) bs).
  pose proof (end_addr_ge (fl_mem a) bs (fg_blocks _ _ Hg)) as He. rewrite (fg_end _ _ Hg) in He.
  unfold fl_fuel. change FL_MIN with 32.
  assert (Z.of_nat (length bs) ≤ fl_capacity a / 32) by (apply Z.div_le_lower_bound; lia). lia.
Qed.

(** The request in bytes, header and alignment slack not counted. *)
Definition fl_request (size alignment : Z) : Z :=
  Z.max 1 size + (if alignment >? 16 then alignment else 0).

Lemma fl_need_spec size al : request_ok size → 0 ≤ al ≤ 2 ^ 62 →
  let need := fl_need size al in
  32 ≤ need ∧ (16 | need) ∧ 16 + fl_request size al ≤ need < 32 + fl_request size al.
Proof.
  intros Hs Ha need. unfold request_ok in Hs.
  assert (need = Z.max 32 (round_up (16 + fl_request size al) 16)) as ->.
  { unfold need, fl_need, fl_request. change HF_DEFAULT_ALIGN with 16. change FL_HDR with 16. change FL_MIN with 32.
    assert ((if size =? 0 then 1 else size) = Z.max 1 size) as -> by (case_if; zb; lia).
    assert ((if al >? 16 then Z.max 1 size +% al else Z.max 1 size)
            = Z.max 1 size + (if al >? 16 then al else 0)) as ->
      by (case_if; [rewrite wrap64_small by ulia|]; lia).
    rewrite wrap64_small by (case_if; ulia). rewrite hf_align_up_16 by (case_if; ulia).
    case_if; zb; lia. }
  pose proof (round_up_ge (16 + fl_request size al) 16 ltac:(lia)).
  pose proof (round_up_lt (16 + fl_request size al) 16 ltac:(lia)).
  pose proof (round_up_divide (16 + fl_request size al) 16).
  assert (1 ≤ fl_request size al) by (unfold fl_request; case_if; lia).
  split_and!; try lia. destruct (Z.max_spec 32 (round_up (16 + fl_request size al) 16)) as [[? ->]|[? ->]]; [done|by exists 2].
Qed.

(** Alignments the allocator serves: up to 16, or a larger power of two. *)
Definition align_ok (al : Z) : Prop := 0 ≤ al ≤ 16 ∨ ∃ k, 4 < k ≤ 62 ∧ al = 2 ^ k.

(** Where [fl_allocate] puts the pointer in the payload at [p]. *)
Definition fl_place (p al : Z) : Z := if al >? 16 then round_up (p + 8) al else p.

Lemma fl_place_spec p al : align_ok al → (16 | p) → 0 < p → p + al < 2 ^ 64 →
  (al >? 16) = true →
  hf_align_up (p +% 8) al = fl_place p al ∧ (al | fl_place p al) ∧ (16 | fl_place p al) ∧
  p + 16 ≤ fl_place p al ≤ p + al.
Proof.
  intros Hal Hd Hp Hsp Hg. zb. destruct Hal as [?|(k & Hk & ->)]; [lia|].
  unfold fl_place. rewrite (proj2 (Z.gtb_lt _ _) Hg). change 16 with (2 ^ 4) in Hd |- *.
  assert (2 ^ k = 2 ^ (k - 4) * 2 ^ 4) as Epow by (rewrite <- Z.pow_add_r by lia; f_equal; lia).
  assert (p + 16 + 2 ^ k ≤ 2 ^ 64).
  { destruct Hd as [j ->]. rewrite Epow in *. change (2 ^ 64) with (2 ^ 60 * 16) in *. change (2 ^ 4) with 16 in *. lia. }
  rewrite wrap64_small by ulia. rewrite hf_align_up_pow2 by ulia.
  pose proof (round_up_ge (p + 8) (2 ^ k) ltac:(lia)). pose proof (round_up_lt (p + 8) (2 ^ k) ltac:(lia)).
  pose proof (round_up_divide (p + 8) (2 ^ k)) as Hdv.
  assert (2 ^ 4 | round_up (p + 8) (2 ^ k)) as Hd16.
  { etransitivity; [|exact Hdv]. exists (2 ^ (k - 4)). done. }
  split_and!; try done; destruct Hd16 as [i Hi]; rewrite Hi in *; destruct Hd as [j ->]; change (2 ^ 4) with 16 in *; lia.
Qed.

(** The bytes of a used block are apart from those of the other ones. *)
Lemma body_bytes_use base bs1 sz bs2 x : body_bytes (used_list base (bs1 ++ (sz, true) :: bs2)) x ↔
  end_addr base bs1 + 16 ≤ x < end_addr base bs1 + sz ∨ body_bytes (others base bs1 sz bs2) x.
Proof.
  unfold body_bytes. split.
  - intros (k & s & Hin & Hx). rewrite used_list_use in Hin. apply elem_of_cons in Hin as [[= -> ->]|Hin]; eauto.
  - intros [Hx|(k & s & Hin & Hx)]; [exists (end_addr base bs1), sz|exists k, s];
      (split; [rewrite used_list_use|done]); [by left|by right].
Qed.

(** The last part of [fl_allocate]: the pointer in the carved block. *)
Lemma fl_place_core a m bs1 sz bs2 l size al : fl_wf a m (bs1 ++ (sz, true) :: bs2) l →
  align_ok al → 0 ≤ size → 16 + fl_request size al ≤ sz →
  let h := end_addr (fl_mem a) bs1 in
  ∃ m', (if al >? HF_DEFAULT_ALIGN then
           let aligned := hf_align_up (h + FL_HDR +% 8) al in
           Ok (a, store64 m (aligned - 8) (aligned -% (h + FL_HDR)), aligned)
         else Ok (a, m, h + FL_HDR)) = Ok (a, m', fl_place (h + 16) al) ∧
    let p := fl_place (h + 16) al in
    fl_wf a m' (bs1 ++ (sz, true) :: bs2) l ∧ h + 16 ≤ p ∧ p + Z.max 1 size ≤ h + sz ∧
    ((al >? 16) = true → (al | p) ∧ h + 32 ≤ p ∧ load64 m' (p - 8) = p - (h + 16)) ∧
    agree_on (body_bytes (others (fl_mem a) bs1 sz bs2)) m m'.
Proof.
  intros Hwf Hal Hs Hfit h. pose proof (fc_geo _ _ _ _ (fw_core _ _ _ _ Hwf)) as Hg.
  pose proof (geo_facts _ _ _ _ _ Hg) as (B1 & B2 & B3 & B4 & B5 & B6 & H1 & H2 & He & B7).
  fold h in B1, B2, B5, B6, He. unfold HF_DEFAULT_ALIGN, FL_HDR, fl_request in *.
  destruct (al >? 16) eqn:Eal; [|exists m; unfold fl_place; rewrite Eal; split_and!; done || lia].
  assert (16 | h + 16) as Hd by (apply Z.divide_add_r; [done|by exists 1]).
  destruct (fl_place_spec (h + 16) al Hal Hd ltac:(lia) ltac:(lia) Eal) as (-> & P1 & P2 & P3).
  set (p := fl_place (h + 16) al) in *. rewrite wrap64_small by ulia.
  eexists. split; [done|]. cbv zeta. split; [|split_and!; try lia].
  - apply (fl_wf_payload _ _ _ _ _ Hwf). apply agree_on_store64. intros x Hx Hr. apply Hx.
    apply body_bytes_use. left. fold h. rlia.
  - intros _. split_and!; [done|lia|]. rewrite load64_store64_eq. apply wrap64_small. ulia.
  - apply agree_on_store64. intros x Hx Hr. apply (geo_others _ _ _ _ _ Hg) in Hx as (_ & Hx & _).
    apply Hx. fold h. rlia.
Qed.

Lemma payload_node_ne a bs1 sz u bs2 : fl_geo a (bs1 ++ (sz, u) :: bs2) →
  (payload_node (end_addr (fl_mem a) bs1) =? NULL) = false.
Proof.
  intros Hg. pose proof (geo_facts _ _ _ _ _ Hg). apply Z.eqb_neq. unfold payload_node, FL_HDR. lia.
Qed.

(** A list without a fitting node: no free block fits. *)
Lemma no_fit_blocks a m bs l need : fl_wf a m bs l → (∀ n, n ∈ l → node_size m n < need) →
  ∀ sz, (sz, false) ∈ bs → sz < need.
Proof.
  intros [Hc Hperm _ _] Hno sz Hin. apply list_elem_of_split in Hin as (bs1 & bs2 & ->).
  pose proof (core_header _ _ _ _ _ (fc_geo _ _ _ _ Hc) m (fc_phys _ _ _ _ Hc)) as (_ & _ & Es & _).
  rewrite <- Es, <- (header_payload (end_addr (fl_mem a) bs1)). apply Hno.
  rewrite Hperm, free_nodes_mid. unfold payload_node, FL_HDR. by left.
Qed.

(** The outcomes of a request: no block fits, or the pointer lies in a
    block cut from a free one, with the distance to the block's start in
    front of it when the alignment asks for one. *)
Lemma fl_allocate_core a m bs l size al :
  fl_wf a m bs l → request_ok size → align_ok al →
  ∃ a' m' p, fl_allocate a m size al = Ok (a', m', p) ∧ fl_frame a a' ∧
  ((p = NULL ∧ m' = m ∧ (∀ sz, (sz, false) ∈ bs → sz < fl_need size al) ∧
    (∃ l', fl_wf a' m bs l') ∧ a' = fl_set_stats a (bump_failed (bump_alloc (fl_stats a)))) ∨
   (∃ bs1 sz bs2 bs2' sz' l', (bs = bs1 ++ (sz, false) :: bs2 ∧ fl_need size al ≤ sz) ∧
      let h := end_addr (fl_mem a) bs1 in
      p = fl_place (h + 16) al ∧ fl_wf a' m' (bs1 ++ (sz', true) :: bs2') l' ∧
      fl_need size al ≤ sz' < fl_need size al + 32 ∧ h + 16 ≤ p ∧ p + Z.max 1 size ≤ h + sz' ∧
      ((al >? 16) = true → (al | p) ∧ h + 32 ≤ p ∧ load64 m' (p - 8) = p - (h + 16)) ∧
      others (fl_mem a) bs1 sz' bs2' = others (fl_mem a) bs1 sz bs2 ∧
      agree_on (body_bytes (used_list (fl_mem a) bs)) m m' ∧
      fl_stats a' = raise_peak (set_used (used (fl_stats a) + sz') (bump_alloc (fl_stats a))))).
Proof.
  intros Hwf Hs Hal. assert (0 ≤ al ≤ 2 ^ 62) as Hal'.
  { destruct Hal as [?|(k & ? & ->)]; [lia|]. pose proof (pow2_pos k). pose proof (pow2_le_mono k 62). lia. }
  pose proof (fl_need_spec size al Hs Hal') as (N1 & N2 & N3). unfold fl_allocate.
  set (need := fl_need size al) in *. set (a0 := fl_set_stats a (bump_alloc (fl_stats a))).
  pose proof Hwf as [Hc Hperm Hcoal Hused]. pose proof (fl_core_stats _ _ _ _ (bump_alloc (fl_stats a)) Hc) as Hc0.
  destruct (find_fit_spec a0 m l need (fc_list _ _ _ _ Hc0) (fl_wf_fuel _ _ _ _ Hwf))
    as (a1 & node & -> & Hpol & Hl1 & (Em & Ecap & Epol & Est) & Hsame). cbn [mbind outcome_bind].
  assert (fl_core a1 m bs l) as Hc1.
  { destruct Hc0 as [Hg Hp Hl]. split; [by apply (fl_geo_same a0)|by rewrite Em|done]. }
  change (fl_mem a0) with (fl_mem a) in Em. change (fl_stats a0) with (bump_alloc (fl_stats a)) in Est.
  apply policy_spec_sound in Hpol as [[-> Hno]|[Hin Hfit]].
  - rewrite Z.eqb_refl. eexists _, _, _. split; [done|]. split; [done|]. left. split_and!; try done.
    + by apply (no_fit_blocks a m bs l need).
    + exists l. split; [by apply fl_core_stats|simpl; by rewrite Em|done|]. simpl. by rewrite Est.
    + by rewrite (Hsame eq_refl).
  - rewrite Hperm in Hin. destruct (free_nodes_split _ _ _ Hin) as (bs1 & sz & bs2 & -> & ->).
    set (h := end_addr (fl_mem a) bs1) in *. change (h + 16) with (payload_node h) in Hin, Hfit |- *.
    pose proof (core_header _ _ _ _ _ (fc_geo _ _ _ _ Hc) m (fc_phys _ _ _ _ Hc)) as (_ & _ & Es & _).
    fold h in Es. unfold node_size in Hfit. rewrite header_payload in *. rewrite Es in Hfit.
    rewrite <- Em in Hperm.
    destruct (fl_carve_spec a1 m bs1 sz bs2 l need Hc1 Hperm Hcoal ltac:(lia) N2)
      as (a2 & m2 & bs2' & l2 & sz' & E2 & (Em2 & Ec2 & Ep2 & Et2) & Hc2 & Hp2 & Hco2 & Hsz & Es2 & Ho & Hub & Hag).
    rewrite Em in *. fold h in E2, Es2. rewrite E2, Es2.
    rewrite used_bytes_app in Hused. cbn [used_bytes] in Hused.
    pose proof (used_bytes_bounds (fl_mem a2) _ (fg_blocks _ _ (fc_geo _ _ _ _ Hc2))) as Hubd.
    rewrite (fg_end _ _ (fc_geo _ _ _ _ Hc2)) in Hubd.
    pose proof (fg_base _ _ (fc_geo _ _ _ _ Hc2)). pose proof (fg_space _ _ (fc_geo _ _ _ _ Hc2)).
    rewrite Et2, Est. cbn [used bump_alloc]. rewrite (wrap64_small (used (fl_stats a) + sz')) by ulia.
    set (st := raise_peak _). set (a3 := fl_set_stats a2 st).
    assert (fl_wf a3 m2 (bs1 ++ (sz', true) :: bs2') l2) as Hwf2.
    { split; [by apply fl_core_stats|simpl; by rewrite Em2|done|]. simpl. lia. }
    destruct (fl_place_core a3 m2 bs1 sz' bs2' l2 size al Hwf2 Hal ltac:(apply Hs) ltac:(lia))
      as (m3 & E3 & W1 & W2 & W3 & W4 & W5).
    change (fl_mem a3) with (fl_mem a2) in *. rewrite Em2 in *. fold h in E3, W2, W3, W4.
    exists a3, m3, (fl_place (h + 16) al). pose proof (payload_node_ne _ _ _ _ _ (fc_geo _ _ _ _ Hc)) as Ene. fold h in Ene.
    split; [by rewrite Ene|].
    split; [unfold fl_frame; simpl; by rewrite Em2, Ec2, Ecap, Ep2, Epol|]. right.
    exists bs1, sz, bs2, bs2', sz', l2. rewrite used_list_mid. split_and!; try done; try lia.
    rewrite Ho in W5. by eapply agree_on_trans.
Qed.

(** ** The interface *)

(** The used blocks are the live ones: each holds what its owner asked for. *)
Definition live_rel (U : list (Z * Z)) (L : live_map) : Prop :=
  (∀ p n, L !! p = Some n → 0 ≤ n ∧ ∃ sz, (p - 16, sz) ∈ U ∧ n ≤ sz - 16) ∧
  (∀ h sz, (h, sz) ∈ U → is_Some (L !! (h + 16))).

Definition fl_inv (a : fl_alloc) (m : mem) (L : live_map) : Prop :=
  ∃ bs l, fl_wf a m bs l ∧ live_rel (used_list (fl_mem a) bs) L.

Lemma used_apart base bs h sz h' sz' : blocks_ok bs →
  (h, sz) ∈ used_list base bs → (h', sz') ∈ used_list base bs → h ≠ h' →
  h + sz ≤ h' ∨ h' + sz' ≤ h.
Proof.
  intros Hok H1 H2 Hne. destruct (used_list_split _ _ _ _ H1) as (bs1 & bs2 & -> & ->).
  rewrite used_list_use in H2. apply blocks_ok_app in Hok as [O1 O2]. apply blocks_ok_cons in O2 as [_ O2].
  apply elem_of_cons in H2 as [[= -> ->]|H2]; [done|].
  apply elem_of_app in H2 as [H2|H2]; apply used_list_bounds in H2; try done; lia.
Qed.

Lemma others_ne base bs1 sz bs2 h s : blocks_ok (bs1 ++ (sz, true) :: bs2) →
  (h, s) ∈ others base bs1 sz bs2 → h ≠ end_addr base bs1.
Proof.
  intros Hok Hin ->. apply blocks_ok_app in Hok as [O1 O2]. apply blocks_ok_cons in O2 as [[? _] O2].
  apply elem_of_app in Hin as [H2|H2]; apply used_list_bounds in H2; try done; lia.
Qed.

Lemma live_rel_body U L x : live_rel U L → in_live L x → body_bytes U x.
Proof.
  intros [HL _] (p & n & Hp & Hr). destruct (HL p n Hp) as (_ & sz & Hin & Hn).
  exists (p - 16), sz. split; [done|]. rlia.
Qed.

(** A new used block with its owner. *)
Lemma live_rel_insert base bs1 sz bs2 U L n : U = others base bs1 sz bs2 → live_rel U L → 0 ≤ n ≤ sz - 16 →
  live_rel (used_list base (bs1 ++ (sz, true) :: bs2)) (<[end_addr base bs1 + 16 := n]> L).
Proof.
  intros -> [H1 H2] Hn. split.
  - intros p k Hp. apply lookup_insert_Some in Hp as [[<- <-]|[Hne Hp]].
    + split; [lia|]. exists sz. rewrite used_list_use. replace (end_addr base bs1 + 16 - 16) with (end_addr base bs1) by lia.
      split; [by left|lia].
    + destruct (H1 p k Hp) as (? & s & ? & ?). split; [done|]. exists s. rewrite used_list_use.
      split; [by right|done].
  - intros h s. rewrite used_list_use. intros Hin. apply lookup_insert_is_Some'.
    apply elem_of_cons in Hin as [[= -> ->]|Hin]; [by left|]. right. by eapply H2.
Qed.

Lemma live_rel_delete base bs1 sz bs2 L : blocks_ok (bs1 ++ (sz, true) :: bs2) →
  live_rel (used_list base (bs1 ++ (sz, true) :: bs2)) L →
  live_rel (others base bs1 sz bs2) (delete (end_addr base bs1 + 16) L).
Proof.
  intros Hok [H1 H2]. split.
  - intros p k Hp. apply lookup_delete_Some in Hp as [Hne Hp]. destruct (H1 p k Hp) as (? & s & Hin & ?).
    split; [done|]. exists s. split; [|done]. rewrite used_list_use in Hin.
    apply elem_of_cons in Hin as [[= ? ?]|Hin]; [lia|done].
  - intros h s Hin. rewrite lookup_delete_ne.
    + eapply H2. rewrite used_list_use. by right.
    + pose proof (others_ne _ _ _ _ _ _ Hok Hin). lia.
Qed.

Lemma fl_inv_allocate a m L size : fl_inv a m L → request_ok size →
  ∃ a' m' p, fl_allocate a m size HF_DEFAULT_ALIGN = Ok (a', m', p) ∧
    agree_on (in_live L) m m' ∧
    ((p = NULL ∧ fl_inv a' m' L) ∨
     (p ≠ NULL ∧ L !! p = None ∧ apart L p size ∧ fl_inv a' m' (<[p := size]> L))).
Proof.
  intros (bs & l & Hwf & Hrel) Hs.
  destruct (fl_allocate_core a m bs l size 16 Hwf Hs ltac:(left; lia)) as (a' & m' & p & E & (Em & Ec & _) & Hcase).
  exists a', m', p. split; [done|].
  destruct Hcase as [(-> & -> & _ & (l' & Hwf') & _)
                    |(bs1 & sz & bs2 & bs2' & sz' & l' & [-> _] & Ep & Hwf' & Hsz & Hlo & Hhi & _ & Ho & Hag & _)].
  { split; [done|]. left. split; [done|]. exists bs, l'. rewrite Em. done. }
  split. { eapply agree_on_sub; [exact Hag|]. intros x. by apply live_rel_body. }
  right. unfold fl_place in Ep. simpl in Ep. rewrite used_list_mid in Hrel.
  pose proof (fc_geo _ _ _ _ (fw_core _ _ _ _ Hwf')) as Hg. pose proof (fg_blocks _ _ Hg) as Hok.
  pose proof (geo_facts _ _ _ _ _ Hg) as (B1 & B2 & B3 & B4 & B5 & B6 & _). rewrite Em in *.
  assert (∀ q k, L !! q = Some k → ∃ s, (q - 16, s) ∈ others (fl_mem a) bs1 sz' bs2' ∧ 0 ≤ k ≤ s - 16) as HL.
  { intros q k Hq. rewrite Ho. destruct Hrel as [H1 _]. destruct (H1 q k Hq) as (? & s & ? & ?). by exists s. }
  split_and!.
  - lia.
  - destruct (L !! p) as [k|] eqn:Hq; [|done]. destruct (HL _ _ Hq) as (s & Hin & _).
    apply (others_ne _ _ _ _ _ _ Hok) in Hin. lia.
  - intros x Hx (q & k & Hq & Hr). rewrite Ep in Hx.
    destruct (HL _ _ Hq) as (s & Hin & Hk). pose proof (others_ne _ _ _ _ _ _ Hok Hin) as Hne.
    pose proof (used_apart (fl_mem a) _ (end_addr (fl_mem a) bs1) sz' (q - 16) s Hok) as Hap.
    rewrite used_list_use in Hap. destruct Hap as [?|?]; [by left|by right|done|rlia..].
  - exists (bs1 ++ (sz', true) :: bs2'), l'. split; [done|]. rewrite Ep, Em.
    by eapply live_rel_insert; [symmetry; exact Ho|done|unfold request_ok in Hs; lia].
Qed.
