(* ===== verification/FreeListSpec.v ===== *)
(** * The free-list allocator: what it promises

    The allocator meets the interface of [Allocator], its layout walk is a
    partition of the arena, freeing everything gives back one free block, and
    the two requests its arithmetic and its alignment trick do not survive. *)

From S2P Require Import Prelude Memory Platform Allocator Links FreeList FreeListRing FreeListPhys FreeListProofs.

Lemma fl_inv_live a m bs l L p n :
  fl_wf a m bs l → live_rel (used_list (fl_mem a) bs) L → L !! p = Some n →
  ∃ bs1 sz bs2, bs = bs1 ++ (sz, true) :: bs2 ∧ p = end_addr (fl_mem a) bs1 + 16 ∧ 0 ≤ n ≤ sz - 16.
Proof.
  intros Hwf [HL _] Hp. destruct (HL p n Hp) as (Hn & sz & Hin & Hle).
  destruct (used_list_split _ _ _ _ Hin) as (bs1 & bs2 & -> & Ep).
  exists bs1, sz, bs2. split_and!; done || lia.
Qed.

Lemma fl_inv_deallocate nd a m L p n : fl_inv a m L → L !! p = Some n →
  ∃ a' m', fl_deallocate nd a m p = Ok (a', m') ∧
    agree_on (in_live (delete p L)) m m' ∧ fl_inv a' m' (delete p L).
Proof.
  intros (bs & l & Hwf & Hrel) Hp.
  destruct (fl_inv_live _ _ _ _ _ _ _ Hwf Hrel Hp) as (bs1 & sz & bs2 & -> & -> & Hn).
  destruct (fl_deallocate_core nd a m bs1 sz bs2 l Hwf) as (a' & m' & bs' & l' & E & Hwf' & (Em & _) & Hu & Hag & _).
  apply live_rel_delete in Hrel; [|apply (fc_geo _ _ _ _ (fw_core _ _ _ _ Hwf))].
  exists a', m'. split; [done|]. split.
  - eapply agree_on_sub; [exact Hag|]. intros x. by apply live_rel_body.
  - exists bs', l'. rewrite Em, Hu. done.
Qed.

#[global] Instance fl_spec (ndebug : bool) : AllocatorSpec HF_DEFAULT_ALIGN (2 ^ 62) fl_alloc (hf_allocator_vtable0 := FL_VT ndebug).
Proof.
  refine {| alloc_inv := fl_inv |}.
  - intros a m L p n (bs & l & Hwf & Hrel) Hp.
    destruct (fl_inv_live _ _ _ _ _ _ _ Hwf Hrel Hp) as (bs1 & sz & bs2 & -> & -> & Hn).
    pose proof (geo_facts _ _ _ _ _ (fc_geo _ _ _ _ (fw_core _ _ _ _ Hwf))) as (? & ? & ? & ? & ? & ? & _ & _ & _ & ?).
    split_and!; try lia. apply Z.divide_add_r; [done|by exists 1].
  - intros a m L p n q k (bs & l & Hwf & [HL _]) Hp Hq Hne x Hx Hx'.
    destruct (HL p n Hp) as (_ & s & Hin & Hs). destruct (HL q k Hq) as (_ & s' & Hin' & Hs').
    pose proof (fg_blocks _ _ (fc_geo _ _ _ _ (fw_core _ _ _ _ Hwf))) as Hok.
    destruct (used_apart _ _ _ _ _ _ Hok Hin Hin' ltac:(lia)); rlia.
  - intros a m L size. apply fl_inv_allocate.
  - intros a m L p n. apply fl_inv_deallocate.
  - intros a m m' L (bs & l & Hwf & Hrel) Hag. exists bs, l. split; [|done].
    apply (fl_wf_payload _ _ _ _ _ Hwf). eapply agree_on_sub; [exact Hag|]. intros x Hx Hl.
    by apply Hx, (live_rel_body _ L).
Defined.

(** ** Creation *)

Lemma fl_create_wf ps mmap ok m cap pol a m' :
  page_size_ok ps → mmap_ok ps mmap → 0 ≤ cap ≤ 2 ^ 62 →
  hf_free_list_create ps mmap ok m cap pol = Some (a, m') →
  fl_wf a m' [(fl_capacity a, false)] [fl_mem a + 16] ∧
  fl_capacity a = round_up (Z.max 64 cap) ps ∧ fl_policy a = pol.
Proof.
  intros Hps Hmm Hcap Hc. unfold hf_free_list_create in Hc. change (FL_MIN * 2) with 64 in Hc.
  pose proof (page_size_bounds ps Hps) as (Hpb & Hp16 & _).
  assert ((if cap <? 64 then 64 else cap) = Z.max 64 cap) as Em by (case_if; zb; lia). rewrite Em in Hc.
  rewrite (hf_align_up_page (Z.max 64 cap)) in Hc by (done || lia).
  pose proof (round_up_ge (Z.max 64 cap) ps ltac:(lia)). pose proof (round_up_lt (Z.max 64 cap) ps ltac:(lia)).
  pose proof (round_up_divide (Z.max 64 cap) ps) as Hd.
  set (c := round_up (Z.max 64 cap) ps) in *. destruct ok; [|done]. cbn [negb] in Hc.
  destruct (_ =? 0) eqn:E; zb; [done|]. set (p := hf_vm_reserve ps mmap c) in *.
  destruct (hf_vm_reserve_ok ps mmap c p Hps Hmm ltac:(lia) eq_refl E) as (Hp & Hpd & Hsp).
  assert (16 | p) by (by apply (Z.divide_trans _ ps)). assert (16 | c) by (by apply (Z.divide_trans _ ps)).
  injection Hc as <- <-. split; [|done].
  assert (16 | p + 16) as Hn16 by (apply Z.divide_add_r; [done|by exists 1]).
  split; [split; [split|..]|..]; simpl; try done.
  - apply blocks_ok_cons. split; [split; [lia|done]|constructor].
  - lia.
  - unfold payload_node, set_next, set_prev, set_prev_phys, FL_HDR. split_and!; [..|done].
    + rewrite !load64_store64_ne by lia. apply (hdr_set_read _ _ _ false); [done|lia].
    + rewrite !load64_store64_ne by lia. by rewrite load64_store64_eq.
  - unfold payload_node, FL_HDR. split; simpl; try done.
    + split; [apply NoDup_singleton|]. apply Forall_singleton. split; [lia|done].
    + unfold node_next, node_prev, set_next, set_prev. split_and!; [..|done].
      * rewrite load64_store64_eq. apply wrap64_small. ulia.
      * rewrite load64_store64_ne by lia. rewrite load64_store64_eq. apply wrap64_small. ulia.
    + intros _. by left.
Qed.

Lemma live_rel_empty : live_rel [] ∅.
Proof. split; [intros p n; by rewrite lookup_empty|intros h sz; by rewrite elem_of_nil]. Qed.

Lemma fl_create_inv ps mmap ok m cap pol a m' :
  page_size_ok ps → mmap_ok ps mmap → 0 ≤ cap ≤ 2 ^ 62 →
  hf_free_list_create ps mmap ok m cap pol = Some (a, m') → fl_inv a m' ∅.
Proof.
  intros Hps Hmm Hcap Hc. destruct (fl_create_wf _ _ _ _ _ _ _ _ Hps Hmm Hcap Hc) as [Hwf _].
  eexists _, _. split; [exact Hwf|]. apply live_rel_empty.
Qed.

(** ** The layout *)

(** The blocks as [fl_walk] reports them. *)
Fixpoint layout (off : Z) (bs : list block) : list hf_block_info :=
  match bs with
  | [] => []
  | (sz, u) :: bs => BlockInfo off sz (negb u) :: layout (off + sz) bs
  end.

Lemma layout_tiles off bs : blocks_ok bs → tiles off (end_addr off bs) (layout off bs).
Proof.
  revert off. induction bs as [|[sz u] bs IH]; intros off H; simpl; [done|].
  apply blocks_ok_cons in H as [[Hsz _] Hok]. split_and!; [done|lia|auto].
Qed.

Lemma layout_used off bs : sum_sizes false (layout off bs) = used_bytes bs.
Proof. revert off. induction bs as [|[sz []] bs IH]; intros off; simpl; rewrite ?IH; done. Qed.

Lemma fl_walk_loop_spec a m bs1 bs2 fuel :
  fl_geo a (bs1 ++ bs2) → phys m (fl_mem a) NULL (bs1 ++ bs2) → (length bs2 < fuel)%nat →
  fl_walk_loop fuel a m (end_addr (fl_mem a) bs1) = Ok (layout (end_addr (fl_mem a) bs1 - fl_mem a) bs2).
Proof.
  revert bs1 fuel. induction bs2 as [|[sz u] bs2 IH]; intros bs1 fuel Hg Hp Hf;
    (destruct fuel as [|fuel]; [simpl in Hf; lia|]); simpl.
  - rewrite app_nil_r in Hg. rewrite (fg_end _ _ Hg). by rewrite (proj2 (Z.ltb_ge _ _)) by lia.
  - pose proof (geo_facts _ _ _ _ _ Hg) as (? & ? & ? & _ & _ & ? & _ & _ & _ & ?).
    pose proof (core_header _ _ _ _ _ Hg m Hp) as (_ & _ & Es & Eu & _).
    pose proof (fg_base _ _ Hg). rewrite (proj2 (Z.ltb_lt _ _)) by lia. rewrite Es, Eu.
    specialize (IH (bs1 ++ [(sz, u)]) fuel). rewrite end_addr_app, <- app_assoc in IH. simpl in IH, Hf.
    rewrite IH by (done || lia). cbn [mbind outcome_bind]. rewrite wrap64_small by ulia.
    do 3 f_equal. lia.
Qed.

Lemma fl_walk_layout a m bs l : fl_wf a m bs l → fl_walk a m = Ok (layout 0 bs).
Proof.
  intros Hwf. pose proof (fw_core _ _ _ _ Hwf) as [Hg Hp _]. unfold fl_walk.
  pose proof (fl_walk_loop_spec a m [] bs (fl_fuel a) Hg Hp) as Hw. cbn [end_addr] in Hw.
  rewrite Z.sub_diag in Hw.
  apply Hw.
  pose proof (end_addr_ge (fl_mem a) bs (fg_blocks _ _ Hg)) as He. rewrite (fg_end _ _ Hg) in He.
  unfold fl_fuel. change FL_MIN with 32.
  assert (Z.of_nat (length bs) ≤ fl_capacity a / 32) by (apply Z.div_le_lower_bound; lia). lia.
Qed.

(** No two free blocks next to each other in a layout. *)
Fixpoint no_adjacent_free (bs : list hf_block_info) : Prop :=
  match bs with
  | b :: ((c :: _) as t) => (is_free b = true → is_free c = false) ∧ no_adjacent_free t
  | _ => True
  end.

Lemma layout_coal pf off bs : coal pf bs → no_adjacent_free (layout off bs).
Proof.
  revert pf off. induction bs as [|[sz u] bs IH]; intros pf off H; [done|].
  destruct H as [_ H]. specialize (IH _ (off + sz) H). destruct bs as [|[s v] bs]; [done|].
  simpl in *. destruct H as [H _]. split; [|done]. intros ?. rewrite H; done.
Qed.

(** Without used blocks a coalesced arena is one free block. *)
Lemma coal_no_used pf base bs : coal pf bs → used_list base bs = [] → bs ≠ [] → ∃ sz, bs = [(sz, false)].
Proof.
  destruct bs as [|[sz u] bs]; [done|]. intros Hc Hu _. simpl in *. destruct u; [done|].
  destruct bs as [|[s v] bs]; [by exists sz|]. simpl in *. destruct v; [done|].
  destruct Hc as [_ [Hc _]]. by specialize (Hc eq_refl).
Qed.

(** A pointer that was moved up for its alignment frees the block it is in. *)
Lemma fl_deallocate_moved nd a m bs1 sz bs2 l p :
  fl_wf a m (bs1 ++ (sz, true) :: bs2) l → let h := end_addr (fl_mem a) bs1 in
  h + 16 ≤ p → load64 m (p - 8) = p - (h + 16) → plausible_header a m (p - 16) = false →
  fl_deallocate nd a m p = fl_deallocate nd a m (h + 16).
Proof.
  intros Hwf h Hp Hoff Hpl. pose proof (fw_core _ _ _ _ Hwf) as [Hg Hph _].
  pose proof (geo_facts _ _ _ _ _ Hg) as (_ & _ & _ & _ & _ & B6 & _). fold h in B6.
  pose proof (plausible_header_used _ _ _ _ _ Hg Hph) as Hpu. fold h in Hpu.
  unfold fl_deallocate. rewrite !(proj2 (Z.eqb_neq _ 0)) by lia.
  assert (∀ st, fl_block_of (fl_set_stats a st) m p = fl_block_of (fl_set_stats a st) m (h + 16)) as ->; [|done].
  intros st. unfold fl_block_of, FL_HDR, plausible_header in *. cbn [fl_mem fl_capacity fl_set_stats].
  replace (h + 16 - 16) with h by lia. rewrite Hpl, Hpu, Hoff. lia.
Qed.

(** The pointers that denote the block with header [h]. *)
Definition points_to_block (a : fl_alloc) (m : mem) (h ptr : Z) : Prop :=
  ptr = h + 16 ∨
  (h + 16 ≤ ptr ∧ load64 m (ptr - 8) = ptr - (h + 16) ∧ plausible_header a m (ptr - 16) = false).

(** ** An example heap *)

(** A fresh first-fit heap of one page. *)
Definition ex_heap (pol : hf_fit_policy) : fl_alloc * mem :=
  default (FlAlloc 0 0 pol 0 0 (stats_zero 0), ∅) (hf_free_list_create 4096 ex_mmap true ∅ 4096 pol).

Lemma ex_heap_created pol :
  hf_free_list_create 4096 ex_mmap true ∅ 4096 pol = Some ((ex_heap pol).1, (ex_heap pol).2).
Proof. unfold ex_heap. simpl. reflexivity. Qed.

Lemma ex_heap_wf pol :
  fl_wf (ex_heap pol).1 (ex_heap pol).2 [(4096, false)] [2 ^ 20 + 16].
Proof.
  destruct (fl_create_wf 4096 ex_mmap true ∅ 4096 pol _ _ page_4096_ok ex_mmap_ok ltac:(lia) (ex_heap_created pol))
    as [H _]. exact H.
Qed.

Lemma ex_heap_inv pol : fl_inv (ex_heap pol).1 (ex_heap pol).2 ∅.
Proof. eexists _, _. split; [apply ex_heap_wf|]. apply live_rel_empty. Qed.

(** ** Claims *)

(** [find_fit] under each policy: on a heap in its invariant the search
    ends within its fuel and returns the first fitting free block from the
    head (first fit), a smallest fitting one (best fit), the first fitting one
    from the cursor on (next fit), or [NULL] when no free block fits; the
    heap stays in its invariant. *)
Theorem find_fit_policy a m bs l need :
  fl_wf a m bs l →
  ∃ a' n, find_fit a m need = Ok (a', n) ∧ policy_spec a m need l n ∧ fl_wf a' m bs l ∧
    (n = NULL → ∀ sz, (sz, false) ∈ bs → sz < need).
Proof.
  intros Hwf. pose proof Hwf as [Hc Hperm Hcoal Hused].
  destruct (find_fit_spec a m l need (fc_list _ _ _ _ Hc) (fl_wf_fuel _ _ _ _ Hwf))
    as (a' & n & E & Hpol & Hl & (Em & Ec & Ep & Et) & _).
  exists a', n. split_and!; [done|done|..].
  - split; [|by rewrite Em|done|by rewrite Et]. destruct Hc as [Hg Hp _].
    split; [by apply (fl_geo_same a)|by rewrite Em|done].
  - intros ->. intros sz Hin. apply policy_spec_sound in Hpol as [[_ Hno]|[Hin0 _]].
    + by apply (no_fit_blocks a m bs l need).
    + pose proof (node_aligned l NULL (fll_nodes _ _ _ Hl) Hin0). lia.
Qed.

Lemma find_fit_policy_witness :
  ∃ a' n, find_fit (ex_heap HF_FIT_BEST).1 (ex_heap HF_FIT_BEST).2 128 = Ok (a', n) ∧
    policy_spec (ex_heap HF_FIT_BEST).1 (ex_heap HF_FIT_BEST).2 128 [2 ^ 20 + 16] n ∧
    fl_wf a' (ex_heap HF_FIT_BEST).2 [(4096, false)] [2 ^ 20 + 16] ∧
    (n = NULL → ∀ sz, (sz, false) ∈ [(4096, false)] → sz < 128).
Proof. apply find_fit_policy. apply ex_heap_wf. Defined.



(** C7. Free in the free list.  A pointer to the block with header [h] is
    either the payload address [h + 16], or one further up with the distance
    to the payload in the word in front of it, as an allocation with an
    alignment above 16 returns it - as long as the 16 bytes in front of it do
    not look like a used header themselves ([fl_forged_header] shows a free
    that goes wrong there).  Freeing a used block by any such pointer succeeds
    in both builds, the block is merged with both free neighbours (no two free
    blocks are adjacent afterwards), exactly that block leaves the used ones,
    the bytes of all others are untouched and [used] falls by its size. *)
Theorem fl_deallocate_correct nd a m bs l h sz ptr :
  fl_wf a m bs l → (h, sz) ∈ used_list (fl_mem a) bs → points_to_block a m h ptr →
  ∃ a' m' bs' l', fl_deallocate nd a m ptr = Ok (a', m') ∧ fl_wf a' m' bs' l' ∧
    used_list (fl_mem a) bs ≡ₚ (h, sz) :: used_list (fl_mem a') bs' ∧ coal false bs' ∧
    agree_on (body_bytes (used_list (fl_mem a') bs')) m m' ∧
    fl_stats a' = set_used (used (fl_stats a) - sz) (bump_free (fl_stats a)).
Proof.
  intros Hwf Hin Hptr. destruct (used_list_split _ _ _ _ Hin) as (bs1 & bs2 & -> & ->).
  destruct (fl_deallocate_core nd a m bs1 sz bs2 l Hwf) as (a' & m' & bs' & l' & E & Hwf' & (Em & _) & Hu & Hag & Hst).
  exists a', m', bs', l'. rewrite Em, Hu, used_list_use. split_and!; try done; [|apply Hwf'].
  destruct Hptr as [->|(Hge & Hoff & Hpl)]; [done|].
  by rewrite (fl_deallocate_moved nd a m bs1 sz bs2 l ptr Hwf Hge Hoff Hpl).
Qed.

(** 100 bytes at alignment 64 from a fresh heap. *)
Lemma ex_aligned : match fl_allocate (ex_heap HF_FIT_FIRST).1 (ex_heap HF_FIT_FIRST).2 100 64 with
  | Ok (a, m, p) => (p =? 2 ^ 20 + 64) && negb (plausible_header a m (p - 16))
  | _ => false
  end = true.
Proof. vm_compute. reflexivity. Qed.

(** Witness of C7: the block of an allocation at alignment 64 is freed by the
    moved pointer 2^20 + 64. *)
Lemma fl_deallocate_correct_witness : ∃ a m a' m' bs' l',
  fl_deallocate false a m (2 ^ 20 + 64) = Ok (a', m') ∧ fl_wf a' m' bs' l' ∧ coal false bs'.
Proof.
  pose proof ex_aligned as Hex.
  destruct (fl_allocate_core _ _ _ _ 100 64 (ex_heap_wf HF_FIT_FIRST)) as (a & m & p & E & (Em & _) & Hcase).
  - unfold request_ok. lia.
  - right. exists 6. split; [lia|reflexivity].
  - rewrite E in Hex. apply andb_true_iff in Hex as [Hp Hpl]. apply Z.eqb_eq in Hp. apply negb_true_iff in Hpl. subst p.
    destruct Hcase as [(Hp & _)|(bs1 & sz & bs2 & bs2' & sz' & l' & [Ebs _] & Ep & Hwf & _ & Hlo & _ & Hoff & _)];
      [discriminate Hp|].
    assert (bs1 = []) as -> by (destruct bs1 as [|? [|? ?]]; [done|discriminate Ebs|discriminate Ebs]).
    destruct (Hoff eq_refl) as (_ & _ & Hw).
    destruct (fl_deallocate_correct false a m _ l' (2 ^ 20) sz' (2 ^ 20 + 64) Hwf) as (a' & m' & bs' & l2 & E2 & Hwf2 & _ & Hc & _).
    { rewrite Em. simpl. left. }
    { right. split; [exact Hlo|]. split; [exact Hw|exact Hpl]. }
    exists a, m, a', m', bs', l2. split; [exact E2|]. split; [exact Hwf2|exact Hc].
Defined.

(** C5. Client safety of the free list, all policies and both builds: from
    any heap that was created with a capacity of at most 2^62, every program
    of allocations of at most 2^62 bytes each at the default alignment, frees
    of owned blocks and writes to owned bytes runs to its end - no [assert]
    fails and no search of the free list goes on for ever; live blocks are
    16-aligned and never overlap, and every owned byte holds what the client
    last wrote there.  (Larger requests wrap,
    [fl_oversize_wraps].) *)
Theorem fl_client_safe nd ps mmap ok m0 cap pol a m os :
  page_size_ok ps → mmap_ok ps mmap → 0 ≤ cap ≤ 2 ^ 62 →
  hf_free_list_create ps mmap ok m0 cap pol = Some (a, m) → Forall (op_ok (2 ^ 62)) os →
  ∃ c, client_run (hf_allocator_vtable0 := FL_VT nd) (Client a m ∅ ∅) os = Ok c ∧ client_ok HF_DEFAULT_ALIGN c.
Proof.
  intros Hps Hm Hcap Hc Hos. pose proof (fl_create_inv _ _ _ _ _ _ _ _ Hps Hm Hcap Hc) as Hinv.
  destruct (client_run_ok (AllocatorSpec0 := fl_spec nd) a m ∅ os Hinv Hos) as (c & Hrun & Hok & _).
  by exists c.
Qed.

(** Witness of C5: two allocations, a write and a free. *)
Lemma fl_client_safe_witness :
  ∃ c, client_run (hf_allocator_vtable0 := FL_VT false)
         (Client (ex_heap HF_FIT_NEXT).1 (ex_heap HF_FIT_NEXT).2 ∅ ∅)
         [CAlloc 100; CAlloc 200; CWrite (2 ^ 20 + 20) 7; CFree (2 ^ 20 + 16)] = Ok c ∧ client_ok HF_DEFAULT_ALIGN c.
Proof.
  apply (fl_client_safe false 4096 ex_mmap true ∅ 4096 HF_FIT_NEXT).
  - apply page_4096_ok.
  - apply ex_mmap_ok.
  - lia.
  - apply ex_heap_created.
  - repeat constructor; simpl; unfold request_ok; lia.
Defined.

(** [fl_walk] reports a partition of the arena: the blocks follow one
    another from 0 to the capacity, no two free ones are adjacent, and the
    bytes in used blocks are the [used] of the statistics. *)
Theorem fl_walk_correct a m L :
  fl_inv a m L →
  ∃ bs, fl_walk a m = Ok bs ∧ tiles 0 (fl_capacity a) bs ∧ no_adjacent_free bs ∧
    sum_sizes false bs = used (fl_get_stats a).
Proof.
  intros (bs & l & Hwf & _). exists (layout 0 bs). pose proof (fw_core _ _ _ _ Hwf) as [Hg _ _].
  split; [by apply (fl_walk_layout a m bs l)|]. split; [|split].
  - pose proof (layout_tiles 0 bs (fg_blocks _ _ Hg)) as Ht. pose proof (fg_end _ _ Hg) as He.
    rewrite (end_addr_shift (fl_mem a)) in He. by replace (fl_capacity a) with (end_addr 0 bs) by lia.
  - by apply (layout_coal false), Hwf.
  - rewrite layout_used. unfold fl_get_stats. by rewrite (fw_used _ _ _ _ Hwf).
Qed.

Lemma fl_walk_correct_witness :
  ∃ bs, fl_walk (ex_heap HF_FIT_FIRST).1 (ex_heap HF_FIT_FIRST).2 = Ok bs ∧
    tiles 0 4096 bs ∧ no_adjacent_free bs ∧ sum_sizes false bs = 0.
Proof. exact (fl_walk_correct _ _ ∅ (ex_heap_inv HF_FIT_FIRST)). Defined.

(** Freeing everything restores the arena: once no block is live, the
    heap is one free block of the whole capacity and [used] is 0 - whatever
    sequence of allocations and frees led there. *)
Theorem fl_all_freed a m :
  fl_inv a m ∅ →
  fl_walk a m = Ok [BlockInfo 0 (fl_capacity a) true] ∧ used (fl_get_stats a) = 0.
Proof.
  intros (bs & l & Hwf & [_ Hl]). pose proof (fw_core _ _ _ _ Hwf) as [Hg _ Hls].
  assert (used_list (fl_mem a) bs = []) as Hu.
  { destruct (used_list _ _) as [|[h sz] U] eqn:E; [done|]. destruct (Hl h sz ltac:(left)) as [? H].
    by rewrite lookup_empty in H. }
  pose proof (fg_end _ _ Hg) as He. rewrite (fl_walk_layout _ _ _ _ Hwf).
  unfold fl_get_stats. rewrite (fw_used _ _ _ _ Hwf).
  destruct bs as [|b bs].
  - exfalso. pose proof (fg_cap _ _ Hg) as Hcap. simpl in He. lia.
  - destruct (coal_no_used _ _ _ (fw_coal _ _ _ _ Hwf) Hu ltac:(done)) as [sz Ebs]. rewrite Ebs in *.
    simpl in *. by replace sz with (fl_capacity a) by lia.
Qed.

Lemma fl_all_freed_witness :
  fl_walk (ex_heap HF_FIT_FIRST).1 (ex_heap HF_FIT_FIRST).2 = Ok [BlockInfo 0 4096 true] ∧
  used (fl_get_stats (ex_heap HF_FIT_FIRST).1) = 0.
Proof. exact (fl_all_freed _ _ (ex_heap_inv HF_FIT_FIRST)). Defined.

(** Over-aligned round trip: a block allocated with an alignment above 16
    is given back by its moved pointer, and the used blocks are those from
    before - provided the 16 bytes in front of the pointer do not look like
    the header of a used block. *)
Theorem fl_aligned_roundtrip nd a m bs l size k a' m' p :
  fl_wf a m bs l → request_ok size → 4 < k ≤ 62 →
  fl_allocate a m size (2 ^ k) = Ok (a', m', p) → p ≠ NULL →
  plausible_header a' m' (p - 16) = false →
  ∃ a'' m'' bs'' l'', fl_deallocate nd a' m' p = Ok (a'', m'') ∧ fl_wf a'' m'' bs'' l'' ∧
    used_list (fl_mem a'') bs'' = used_list (fl_mem a) bs ∧
    used (fl_stats a'') = used (fl_stats a) ∧
    agree_on (body_bytes (used_list (fl_mem a) bs)) m m''.
Proof.
  intros Hwf Hs Hk E Hp Hpl.
  destruct (fl_allocate_core a m bs l size (2 ^ k) Hwf Hs ltac:(right; eauto)) as (a1 & m1 & p1 & E1 & (Em & _) & Hcase).
  rewrite E in E1. simplify_eq.
  destruct Hcase as [(-> & _)|(bs1 & sz & bs2 & bs2' & sz' & l' & [-> _] & Ep & Hwf' & _ & Hlo & _ & Hoff & Ho & Hag & Hst)];
    [done|].
  assert ((2 ^ k >? 16) = true) as H16
    by (apply Z.gtb_lt; change 16 with (2 ^ 4); apply Z.pow_lt_mono_r; lia).
  destruct (Hoff H16) as (_ & _ & Hw). rewrite <- Em in Hlo, Hw.
  rewrite (fl_deallocate_moved nd a1 m1 bs1 sz' bs2' l' p1 Hwf' Hlo Hw Hpl).
  destruct (fl_deallocate_core nd a1 m1 bs1 sz' bs2' l' Hwf')
    as (a2 & m2 & bs3 & l3 & E2 & Hwf2 & (Em2 & _) & Hu2 & Hag2 & Hst2).
  exists a2, m2, bs3, l3. rewrite Em2, Hu2, Em, Ho, used_list_mid. split_and!; try done.
  - by rewrite <- Em.
  - rewrite Hst2, Hst. simpl. lia.
  - rewrite used_list_mid in Hag. rewrite Em, Ho in Hag2. by eapply agree_on_trans.
Qed.

(** The block of [ex_aligned] is freed again. *)
Lemma fl_aligned_roundtrip_witness : ∃ a m a' m' bs' l',
  fl_deallocate false a m (2 ^ 20 + 64) = Ok (a', m') ∧ fl_wf a' m' bs' l' ∧ used (fl_stats a') = 0.
Proof.
  pose proof ex_aligned as Hex. destruct (fl_allocate _ _ 100 64) as [[[a m] p]| | |] eqn:E; try discriminate Hex.
  apply andb_true_iff in Hex as [Hp Hpl]. apply Z.eqb_eq in Hp. apply negb_true_iff in Hpl. subst p.
  destruct (fl_aligned_roundtrip false _ _ _ _ 100 6 a m (2 ^ 20 + 64) (ex_heap_wf HF_FIT_FIRST))
    as (a' & m' & bs' & l' & E2 & Hwf & _ & Hu & _).
  - unfold request_ok. lia.
  - lia.
  - exact E.
  - discriminate.
  - exact Hpl.
  - exists a, m, a', m', bs', l'. split; [exact E2|]. split; [exact Hwf|exact Hu].
Defined.

(** A request within 16 bytes of [SIZE_MAX] is served as a request for
    one byte: the header size is added before any check and the sum wraps, so
    the caller gets a 32-byte block for a buffer of almost 2^64 bytes. *)
Theorem fl_oversize_wraps a m size :
  2 ^ 64 - 16 ≤ size < 2 ^ 64 → fl_allocate a m size 16 = fl_allocate a m 1 16.
Proof.
  intros Hs. unfold fl_allocate. assert (fl_need size 16 = fl_need 1 16) as ->; [|done].
  change (fl_need 1 16) with 32. unfold fl_need. change FL_HDR with 16. change FL_MIN with 32. change HF_DEFAULT_ALIGN with 16.
  rewrite (proj2 (Z.eqb_neq _ _)) by lia. change (16 >? 16) with false. cbv iota.
  rewrite (wrap64_add_carry (16 + size)) by lia. rewrite hf_align_up_16 by lia.
  pose proof (round_up_lt (16 + size - 2 ^ 64) 16 ltac:(lia)).
  rewrite (proj2 (Z.ltb_lt _ _)) by lia. done.
Qed.

(** The heap grants 2^64 - 8 bytes. *)
Lemma fl_oversize_wraps_witness :
  result_ptr (fl_allocate (ex_heap HF_FIT_FIRST).1 (ex_heap HF_FIT_FIRST).2 (2 ^ 64 - 8) 16) = 2 ^ 20 + 16.
Proof. rewrite fl_oversize_wraps; [vm_compute; reflexivity|lia]. Defined.

(** The heap after a client left two words behind in a block it freed, and
    another one asked for a 64-aligned block; with the pointer it got. *)
Definition ex_forged : outcome (fl_alloc * mem * Z) :=
  let '(a, m) := ex_heap HF_FIT_FIRST in
  '(a, m, p) ← fl_allocate a m 200 16;
  let m := store64 m (p + 32) 33 in
  '(a, m) ← fl_deallocate false a m p;
  fl_allocate a m 100 64.

(** Stale data can forge a header: in a heap where every call so far was
    legal, [fl_deallocate] of a live over-aligned pointer takes the 16 bytes
    in front of it for a block header - they are payload bytes of the block,
    left there by an earlier owner - and reads the distance word as the
    address of the previous block, which is no address of the arena. *)
Theorem fl_forged_header :
  ∃ a m, ex_forged = Ok (a, m, 2 ^ 20 + 64) ∧
    fl_block_of a m (2 ^ 20 + 64) = 2 ^ 20 + 48 ∧ hdr_size m (2 ^ 20) = 192 ∧
    hdr_used m (2 ^ 20) = true ∧ prev_phys m (2 ^ 20 + 48) = 48 ∧ 48 < fl_mem a.
Proof.
  assert (match ex_forged with
    | Ok (a, m, p) => (p =? 2 ^ 20 + 64) && (fl_block_of a m p =? 2 ^ 20 + 48) && (hdr_size m (2 ^ 20) =? 192) &&
        hdr_used m (2 ^ 20) && (prev_phys m (2 ^ 20 + 48) =? 48) && (48 <? fl_mem a)
    | _ => false end = true) as H by (vm_compute; reflexivity).
  destruct ex_forged as [[[a m] p]| | |]; try done. zb. subst p. by exists a, m.
Qed.
