(* ===== verification/Buddy.v ===== *)
(** * The buddy allocator ([c/src/hf_buddy.c]): the code

    A power-of-two arena is split in halves on demand; the buddy of a block is
    its offset with the bit of its size flipped.  Free blocks hang in one
    doubly-linked list per order, inside the blocks; [order_map] keeps a byte
    per minimal block (bit 7 used, bit 6 valid, low six bits the order).  A
    used block carries its order in its first word.  [free_lists] and
    [order_map] are C arrays: an access outside them faults. *)

From S2P Require Import Prelude Memory Platform Allocator Links.

(** [BD_HDR]. *)
Definition BD_HDR : Z := 16.

(** [bd_alloc]. *)
Record bd_alloc : Type := BdAlloc {
  bd_mem : Z;
  bd_capacity : Z;
  min_order : Z;
  max_order : Z;
  free_lists : list Z;
  order_map : list Z;
  bd_stats : hf_stats
}.

Definition bd_set_lists (a : bd_alloc) (v : list Z) : bd_alloc :=
  BdAlloc (bd_mem a) (bd_capacity a) (min_order a) (max_order a) v (order_map a) (bd_stats a).
Definition bd_set_map (a : bd_alloc) (v : list Z) : bd_alloc :=
  BdAlloc (bd_mem a) (bd_capacity a) (min_order a) (max_order a) (free_lists a) v (bd_stats a).
Definition bd_set_stats (a : bd_alloc) (v : hf_stats) : bd_alloc :=
  BdAlloc (bd_mem a) (bd_capacity a) (min_order a) (max_order a) (free_lists a) (order_map a) v.

Definition slot_of (a : bd_alloc) (p : Z) : Z := Z.shiftr (wrap64 (p - bd_mem a)) (min_order a).

Definition bd_push (a : bd_alloc) (m : mem) (n order : Z) : outcome (bd_alloc * mem) :=
  let m := set_prev m n NULL in
  head ← arr_get (free_lists a) order;
  let m := set_next m n head in
  let m := if node_next m n =? NULL then m else set_prev m (node_next m n) n in
  fls ← arr_set (free_lists a) order n;
  om ← arr_set (order_map a) (slot_of a n) (wrap8 (Z.lor order 0x40));
  Ok (bd_set_map (bd_set_lists a fls) om, m).

Definition bd_pop (a : bd_alloc) (m : mem) (order : Z) : outcome (bd_alloc * mem * Z) :=
  n ← arr_get (free_lists a) order;
  fls ← arr_set (free_lists a) order (node_next m n);
  let m := if node_next m n =? NULL then m else set_prev m (node_next m n) NULL in
  Ok (bd_set_lists a fls, m, n).

Definition bd_unlink (a : bd_alloc) (m : mem) (n order : Z) : outcome (bd_alloc * mem) :=
  '(a, m) ← (if negb (node_prev m n =? NULL)
             then Ok (a, set_next m (node_prev m n) (node_next m n))
             else fls ← arr_set (free_lists a) order (node_next m n); Ok (bd_set_lists a fls, m));
  let m := if node_next m n =? NULL then m else set_prev m (node_next m n) (node_prev m n) in
  Ok (a, m).

Definition bd_mark_used (a : bd_alloc) (p order : Z) : outcome bd_alloc :=
  om ← arr_set (order_map a) (slot_of a p) (wrap8 (Z.lor (Z.lor order 0x80) 0x40));
  Ok (bd_set_map a om).

Definition bd_is_free_at (a : bd_alloc) (buddy order : Z) : outcome bool :=
  enc ← arr_get (order_map a) (slot_of a buddy);
  Ok (negb (Z.land enc 0x40 =? 0) && (Z.land enc 0x80 =? 0) && (Z.land enc 0x3F =? order)).

Definition order_for (a : bd_alloc) (bytes : Z) : Z :=
  let o := hf_log2_floor (hf_next_pow2 bytes) in
  if o <? min_order a then min_order a else o.

(** The bytes [bd_allocate] needs a block for. *)
Definition bd_need (size alignment : Z) : Z :=
  let need := size +% BD_HDR in
  if alignment >? need then alignment +% BD_HDR else need.

(** [while (o <= a->max_order && !a->free_lists[o]) ++o;], at most [n] rounds. *)
Fixpoint bd_search (a : bd_alloc) (o : Z) (n : nat) : outcome Z :=
  match n with
  | O => Ok o
  | S n =>
      if o <=? max_order a then
        h ← arr_get (free_lists a) o;
        if h =? NULL then bd_search a (o + 1) n else Ok o
      else Ok o
  end.

(** [while (o > order) { ... }]: [n = o - order] rounds. *)
Fixpoint bd_split_loop (a : bd_alloc) (m : mem) (blk o : Z) (n : nat) : outcome (bd_alloc * mem) :=
  match n with
  | O => Ok (a, m)
  | S n =>
      let o := o - 1 in
      let buddy := blk + Z.shiftl 1 o in
      '(a, m) ← bd_push a m buddy o;
      bd_split_loop a m blk o n
  end.

Definition bd_allocate (a : bd_alloc) (m : mem) (size alignment : Z) : outcome (bd_alloc * mem * Z) :=
  let need := bd_need size alignment in
  let order := order_for a need in
  let a := bd_set_stats a (bump_alloc (bd_stats a)) in
  if order >? max_order a then Ok (bd_set_stats a (bump_failed (bd_stats a)), m, NULL) else
  o ← bd_search a order (Z.to_nat (max_order a + 1 - order));
  if o >? max_order a then Ok (bd_set_stats a (bump_failed (bd_stats a)), m, NULL) else
  '(a, m, blk) ← bd_pop a m o;
  '(a, m) ← bd_split_loop a m blk o (Z.to_nat (o - order));
  a ← bd_mark_used a blk order;
  let a := bd_set_stats a (raise_peak (set_used (used (bd_stats a) +% Z.shiftl 1 order) (bd_stats a))) in
  let m := store64 m blk order in
  Ok (a, m, blk + BD_HDR).

(** [while (order < a->max_order) { ... }], with at most [n] rounds left;
    yields the offset and the order of the merged block. *)
Fixpoint bd_merge_loop (a : bd_alloc) (m : mem) (off order : Z) (n : nat) : outcome (bd_alloc * mem * Z * Z) :=
  match n with
  | O => Ok (a, m, off, order)
  | S n =>
      if order <? max_order a then
        let buddy_off := Z.lxor off (Z.shiftl 1 order) in
        let buddy := bd_mem a + buddy_off in
        free ← bd_is_free_at a buddy order;
        if negb free then Ok (a, m, off, order) else
        '(a, m) ← bd_unlink a m buddy order;
        bd_merge_loop a m (Z.land off (not64 (Z.shiftl 1 order))) (order + 1) n
      else Ok (a, m, off, order)
  end.

(** Without the assertion an order of 64 or more would be an undefined shift. *)
Definition bd_deallocate (ndebug : bool) (a : bd_alloc) (m : mem) (ptr : Z) : outcome (bd_alloc * mem) :=
  if ptr =? NULL then Ok (a, m) else
  let a := bd_set_stats a (bump_free (bd_stats a)) in
  let blk := ptr - BD_HDR in
  let order := wrap32 (load64 m blk) in
  _ ← c_assert ndebug ((order >=? min_order a) && (order <=? max_order a));
  if order >=? 64 then Fault else
  let a := bd_set_stats a (set_used (used (bd_stats a) -% Z.shiftl 1 order) (bd_stats a)) in
  let off := wrap64 (blk - bd_mem a) in
  '(a, m, off, order) ← bd_merge_loop a m off order (Z.to_nat (max_order a - order));
  bd_push a m (bd_mem a + off) order.

Definition bd_name (a : bd_alloc) : string := "Buddy".

Definition bd_get_stats (a : bd_alloc) : hf_stats := bd_stats a.

(** The loop of [bd_walk] at [slot]. *)
Fixpoint bd_walk_loop (fuel : nat) (a : bd_alloc) (slot total : Z) : outcome (list hf_block_info) :=
  match fuel with
  | O => OutOfFuel
  | S fuel =>
      if slot <? total then
        enc ← arr_get (order_map a) slot;
        let order := Z.land enc 0x3F in
        let used := negb (Z.land enc 0x80 =? 0) in
        if (order =? 0) && (Z.land enc 0x40 =? 0) then bd_walk_loop fuel a (slot + 1) total else
        let sz := Z.shiftl 1 order in
        bs ← bd_walk_loop fuel a (slot +% Z.shiftr sz (min_order a)) total;
        Ok (BlockInfo (wrap64 (Z.shiftl slot (min_order a))) sz (negb used) :: bs)
      else Ok []
  end.

(** A round advances by a slot at least: one round per slot is enough. *)
Definition bd_walk (a : bd_alloc) (m : mem) : outcome (list hf_block_info) :=
  let total := Z.shiftr (bd_capacity a) (min_order a) in
  bd_walk_loop (S (Z.to_nat total)) a 0 total.

(** The mapping [hf_vm_release] is called on; the arrays are freed too. *)
Definition bd_destroy (a : bd_alloc) (m : mem) : outcome (Z * Z) :=
  Ok (bd_mem a, bd_capacity a).

#[global] Instance BD_VT (ndebug : bool) : hf_allocator_vtable bd_alloc := {
  vt_allocate := bd_allocate;
  vt_deallocate := bd_deallocate ndebug;
  vt_name := bd_name;
  vt_get_stats := bd_get_stats;
  vt_walk := bd_walk;
  vt_destroyed := Z * Z;
  vt_destroy := bd_destroy
}.

(** [c1], [c2], [c3]: whether the three [calloc]s succeed.  The outer option
    is the [NULL] result. *)
Definition hf_buddy_create (ps : Z) (mmap : Z → option Z) (c1 c2 c3 : bool) (m : mem)
    (capacity min_block : Z) : outcome (option (bd_alloc * mem)) :=
  let floor := 16 + BD_HDR in
  let min_block := if min_block <? floor then floor else min_block in
  let min_block := hf_next_pow2 min_block in
  let capacity := if capacity <? min_block then min_block else capacity in
  let capacity := hf_next_pow2 capacity in
  if negb c1 then Ok None else
  let p := hf_vm_reserve ps mmap capacity in
  if p =? NULL then Ok None else
  let mn := hf_log2_floor min_block in
  let mx := hf_log2_floor capacity in
  if negb c2 || negb c3 then Ok None else
  let a := BdAlloc p capacity mn mx (replicate (Z.to_nat (mx + 1)) NULL)
             (replicate (Z.to_nat (Z.shiftr capacity mn)) 0) (stats_zero capacity) in
  '(a, m) ← bd_push a m p mx;
  Ok (Some (a, m)).

(** A small arena to run: allocate twice, free both. *)
Definition ex_bd_run : outcome (list hf_block_info * list hf_block_info) :=
  r ← hf_buddy_create 4096 (λ _, Some 8192) true true true ∅ 1024 64;
  match r with
  | None => Fault
  | Some (a, m) =>
      '(a, m, p) ← bd_allocate a m 40 16;
      '(a, m, q) ← bd_allocate a m 200 16;
      w1 ← bd_walk a m;
      '(a, m) ← bd_deallocate false a m p;
      '(a, m) ← bd_deallocate false a m q;
      w2 ← bd_walk a m;
      Ok (w1, w2)
  end.

Example ex_bd_run_ok :
  ex_bd_run = Ok ([BlockInfo 0 64 false; BlockInfo 64 64 true; BlockInfo 128 128 true;
                   BlockInfo 256 256 false; BlockInfo 512 512 true],
                  [BlockInfo 0 1024 true]).
Proof. vm_compute. reflexivity. Qed.
