(* ===== verification/BuddyPart.v ===== *)
(** * Buddy partitions

    The arena of the buddy allocator as a map from the offset of each block to
    its order and state.  A partition has aligned, disjoint blocks that cover
    the arena; splitting a block in halves and merging two buddies keep it
    one, and the offset the code computes for a buddy is always the start of
    a block. *)

From S2P Require Import Prelude Memory Platform Allocator.

(** A block is on a free list, in use, or in the hand of a running call. *)
Inductive bstate : Type := BFree | BUsed | BHand.

#[global] Instance bstate_eq_dec : EqDecision bstate.
Proof. solve_decision. Defined.

Abbreviation part_map := (gmap Z (Z * bstate)).

Record part (mn mx : Z) (T : part_map) : Prop := {
  pt_orders : 0 ≤ mn ≤ mx;
  pt_block off o s : T !! off = Some (o, s) → mn ≤ o ≤ mx ∧ (2 ^ o | off) ∧ 0 ≤ off ∧ off + 2 ^ o ≤ 2 ^ mx;
  pt_apart x o s y k t : T !! x = Some (o, s) → T !! y = Some (k, t) → x ≠ y → x + 2 ^ o ≤ y ∨ y + 2 ^ k ≤ x;
  pt_cover x : 0 ≤ x < 2 ^ mx → ∃ off o s, T !! off = Some (o, s) ∧ off ≤ x < off + 2 ^ o
}.

(** The buddy of the block of order [o] at [off], and where the two merge. *)
Definition buddy_off (off o : Z) : Z := if Z.testbit off o then off - 2 ^ o else off + 2 ^ o.
Definition merge_off (off o : Z) : Z := if Z.testbit off o then off - 2 ^ o else off.

(** ** The bit arithmetic of the code *)

Lemma div_pow2_bits off o i : 0 ≤ o → (2 ^ o | off) → i < o → Z.testbit off i = false.
Proof.
  intros Ho [k ->] Hi. destruct (decide (0 ≤ i)); [|by rewrite Z.testbit_neg_r by lia].
  by rewrite Z.mul_pow2_bits_low.
Qed.

Lemma land_pow2_clear off o : 0 ≤ o → Z.testbit off o = false → Z.land off (2 ^ o) = 0.
Proof.
  intros Ho Hb. apply Z.bits_inj'. intros i Hi. rewrite Z.land_spec, Z.bits_0, Z.pow2_bits_eqb by done.
  destruct (Z.eqb_spec o i) as [<-|]; [by rewrite Hb|by rewrite andb_false_r].
Qed.

Lemma lxor_pow2 off o : 0 ≤ o → Z.lxor off (Z.shiftl 1 o) = buddy_off off o.
Proof.
  intros Ho. rewrite Z.shiftl_1_l. unfold buddy_off. destruct (Z.testbit off o) eqn:Hb.
  - assert (Z.testbit (Z.lxor off (2 ^ o)) o = false) as Hb'
      by (rewrite Z.lxor_spec, Hb, Z.pow2_bits_true by done; done).
    pose proof (Z.add_nocarry_lxor _ _ (land_pow2_clear _ o Ho Hb')) as H.
    rewrite Z.lxor_assoc, Z.lxor_nilpotent, Z.lxor_0_r in H. lia.
  - symmetry. apply Z.add_nocarry_lxor. by apply land_pow2_clear.
Qed.

Lemma land_not_pow2 off o : is_u64 off → 0 ≤ o < 64 → Z.land off (not64 (Z.shiftl 1 o)) = merge_off off o.
Proof.
  intros Hoff Ho.
  assert (Z.land off (not64 (Z.shiftl 1 o)) = Z.ldiff off (2 ^ o)) as ->.
  { rewrite Z.shiftl_1_l. apply Z.bits_inj'. intros i Hi. rewrite Z.land_spec, Z.ldiff_spec. unfold not64, wrap64.
    destruct (decide (i < 64)).
    - rewrite Z.mod_pow2_bits_low by lia. by rewrite Z.lnot_spec by done.
    - rewrite (u64_testbit_high off) by (done || lia). done. }
  unfold merge_off. destruct (Z.testbit off o) eqn:Hb.
  - pose proof (lxor_pow2 off o ltac:(lia)) as H. unfold buddy_off in H. rewrite Hb in H. rewrite <- H.
    rewrite Z.shiftl_1_l. apply Z.bits_inj'. intros i Hi. rewrite Z.ldiff_spec, Z.lxor_spec, Z.pow2_bits_eqb by lia.
    destruct (Z.eqb_spec o i) as [<-|]; [by rewrite Hb|]. by destruct (Z.testbit off i).
  - apply Z.bits_inj'. intros i Hi. rewrite Z.ldiff_spec, Z.pow2_bits_eqb by lia.
    destruct (Z.eqb_spec o i) as [<-|]; [by rewrite Hb|]. by destruct (Z.testbit off i).
Qed.

Lemma pow2_succ o : 0 ≤ o → 2 ^ (o + 1) = 2 ^ o + 2 ^ o.
Proof. intros. rewrite Z.pow_add_r by lia. lia. Qed.

(** A multiple of [2^o] is one of [2^(o+1)] once bit [o] is cleared. *)
Lemma merge_off_divide off o : 0 ≤ o → (2 ^ o | off) → (2 ^ (o + 1) | merge_off off o).
Proof.
  intros Ho [k ->]. unfold merge_off. rewrite Z.mul_pow2_bits, Z.sub_diag by lia.
  pose proof (Z.div2_odd k) as Hk. rewrite <- Z.bit0_odd in Hk. rewrite pow2_succ by done.
  destruct (Z.testbit k 0); simpl in Hk; exists (Z.div2 k); lia.
Qed.

Lemma buddy_off_divide off o : 0 ≤ o → (2 ^ o | off) → (2 ^ o | buddy_off off o).
Proof.
  intros Ho Hd. unfold buddy_off. destruct (Z.testbit off o); [apply Z.divide_sub_r|apply Z.divide_add_r]; done.
Qed.

(** Block and buddy are the two halves at the merged offset. *)
Lemma buddy_halves off o :
  off = merge_off off o ∧ buddy_off off o = merge_off off o + 2 ^ o ∨
  off = merge_off off o + 2 ^ o ∧ buddy_off off o = merge_off off o.
Proof. unfold merge_off, buddy_off. destruct (Z.testbit off o); lia. Qed.

(** The buddy of the upper half is the lower half. *)
Lemma buddy_off_upper x o : 0 ≤ o → (2 ^ (o + 1) | x) → buddy_off (x + 2 ^ o) o = x.
Proof.
  intros Ho [k ->]. unfold buddy_off. rewrite pow2_succ by done.
  replace (k * (2 ^ o + 2 ^ o) + 2 ^ o) with ((2 * k + 1) * 2 ^ o) by lia.
  rewrite Z.mul_pow2_bits, Z.sub_diag, Z.testbit_odd_0 by done. lia.
Qed.

(** Multiples of a block size do not fall strictly inside a block. *)
Lemma divide_gap d x y : 0 < d → (d | x) → (d | y) → x < y → x + d ≤ y.
Proof. intros Hd [i ->] [j ->] Hlt. assert (i < j) by nia. nia. Qed.

(** ** Partitions *)

Section part.
Context (mn mx : Z).

Lemma part_restate T off o s s' : part mn mx T → T !! off = Some (o, s) →
  part mn mx (<[off := (o, s')]> T).
Proof.
  intros [Ho Hb Ha Hc] Hoff. split; [done|..].
  - intros x k t. destruct (decide (x = off)) as [->|];
      [rewrite lookup_insert_eq|rewrite lookup_insert_ne by done]; [intros [= <- <-]|]; eauto.
  - intros x k t y j u Hx Hy Hne.
    assert (∃ t', T !! x = Some (k, t')) as [t' Hx'].
    { apply lookup_insert_Some in Hx as [[<- [= <- <-]]|[_ ?]]; eauto. }
    assert (∃ u', T !! y = Some (j, u')) as [u' Hy'].
    { apply lookup_insert_Some in Hy as [[<- [= <- <-]]|[_ ?]]; eauto. }
    eauto.
  - intros x Hx. destruct (Hc x Hx) as (y & k & t & Hy & Hr). destruct (decide (y = off)) as [->|].
    + simplify_eq. exists off, o, s'. by rewrite lookup_insert_eq.
    + exists y, k, t. by rewrite lookup_insert_ne.
Qed.

(** A block of order [o + 1] becomes its two halves. *)
Lemma part_split T off o s s1 s2 : part mn mx T → T !! off = Some (o + 1, s) → mn ≤ o →
  T !! (off + 2 ^ o) = None ∧ part mn mx (<[off + 2 ^ o := (o, s2)]> (<[off := (o, s1)]> T)).
Proof.
  intros [Ho Hb Ha Hc] Hoff Hmn. destruct (Hb _ _ _ Hoff) as (B1 & B2 & B3 & B4).
  rewrite pow2_succ in B4 by lia. pose proof (pow2_pos o ltac:(lia)) as Hp.
  assert (2 ^ o | off) as Hd.
  { etransitivity; [|exact B2]. apply pow2_divide. lia. }
  assert (T !! (off + 2 ^ o) = None) as Hn.
  { destruct (T !! (off + 2 ^ o)) as [[k t]|] eqn:E; [|done].
    destruct (Hb _ _ _ E) as (? & _ & _ & _). pose proof (pow2_pos k ltac:(lia)).
    destruct (Ha _ _ _ _ _ _ Hoff E ltac:(lia)) as [Hq|Hq]; [rewrite pow2_succ in Hq by lia|]; lia. }
  split; [done|].
  assert (∀ x k t, <[off + 2 ^ o := (o, s2)]> (<[off := (o, s1)]> T) !! x = Some (k, t) →
    (x = off + 2 ^ o ∧ k = o) ∨ (x = off ∧ k = o) ∨ (x ≠ off ∧ T !! x = Some (k, t))) as Hinv.
  { intros x k t Hx. apply lookup_insert_Some in Hx as [[<- [= <- <-]]|[_ Hx]]; [auto|].
    apply lookup_insert_Some in Hx as [[<- [= <- <-]]|[? Hx]]; auto. }
  assert (∀ x k t, x ≠ off → T !! x = Some (k, t) → x + 2 ^ k ≤ off ∨ off + 2 ^ o + 2 ^ o ≤ x) as Hout.
  { intros x k t Hne Hx. destruct (Ha _ _ _ _ _ _ Hoff Hx ltac:(done)) as [Hq|Hq];
      [rewrite pow2_succ in Hq by lia|]; lia. }
  split; [done|..].
  - intros x k t Hx. apply Hinv in Hx as [[-> ->]|[[-> ->]|[_ Hx]]]; [| |eauto]; split_and!; try lia; try done.
    by apply Z.divide_add_r.
  - intros x k t y j u Hx Hy Hne. apply Hinv in Hx, Hy.
    destruct Hx as [[-> ->]|[[-> ->]|[? Hx]]]; destruct Hy as [[-> ->]|[[-> ->]|[? Hy]]]; try lia; eauto;
      (eapply Hout in Hx || eapply Hout in Hy); done || lia.
  - intros x Hx. destruct (Hc x Hx) as (y & k & t & Hy & Hr). destruct (decide (y = off)) as [->|].
    + simplify_eq. rewrite pow2_succ in Hr by lia. destruct (decide (x < off + 2 ^ o)).
      * exists off, o, s1. rewrite lookup_insert_ne, lookup_insert_eq by lia. split; [done|lia].
      * exists (off + 2 ^ o), o, s2. rewrite lookup_insert_eq. split; [done|lia].
    + exists y, k, t. rewrite !lookup_insert_ne; [done|done|]. intros <-. congruence.
Qed.

(** Two halves become a block of order [o + 1]. *)
Lemma part_merge T x o s1 s2 s : part mn mx T → T !! x = Some (o, s1) → T !! (x + 2 ^ o) = Some (o, s2) →
  o < mx → (2 ^ (o + 1) | x) → part mn mx (<[x := (o + 1, s)]> (delete (x + 2 ^ o) T)).
Proof.
  intros [Ho Hb Ha Hc] Hx Hy Hmx Hd. destruct (Hb _ _ _ Hx) as (B1 & B2 & B3 & B4).
  destruct (Hb _ _ _ Hy) as (_ & _ & _ & B5). pose proof (pow2_pos o ltac:(lia)) as Hp.
  assert (∀ z k t, <[x := (o + 1, s)]> (delete (x + 2 ^ o) T) !! z = Some (k, t) →
    (z = x ∧ k = o + 1) ∨ (z ≠ x ∧ z ≠ x + 2 ^ o ∧ T !! z = Some (k, t))) as Hinv.
  { intros z k t Hz. apply lookup_insert_Some in Hz as [[<- [= <- <-]]|[? Hz]]; [auto|].
    apply lookup_delete_Some in Hz as [? Hz]. right. auto. }
  assert (∀ z k t, z ≠ x → z ≠ x + 2 ^ o → T !! z = Some (k, t) → z + 2 ^ k ≤ x ∨ x + 2 ^ o + 2 ^ o ≤ z) as Hout.
  { intros z k t Hn1 Hn2 Hz. destruct (Ha _ _ _ _ _ _ Hx Hz ltac:(done)) as [Hq|Hq]; [|lia].
    destruct (Ha _ _ _ _ _ _ Hy Hz ltac:(done)) as [Hr|Hr]; [lia|].
    destruct (Hb _ _ _ Hz) as (? & _). pose proof (pow2_pos k ltac:(lia)). lia. }
  split; [done|..].
  - intros z k t Hz. apply Hinv in Hz as [[-> ->]|(_ & _ & Hz)]; [|eauto].
    rewrite pow2_succ by lia. split_and!; try done; try lia. by rewrite <- pow2_succ by lia.
  - intros z k t w j u Hz Hw Hne. apply Hinv in Hz, Hw.
    destruct Hz as [[-> ->]|(? & ? & Hz)]; destruct Hw as [[-> ->]|(? & ? & Hw)]; [done|..|eauto].
    + rewrite pow2_succ by lia. destruct (Hout _ _ _ ltac:(done) ltac:(done) Hw); lia.
    + rewrite pow2_succ by lia. destruct (Hout _ _ _ ltac:(done) ltac:(done) Hz); lia.
  - intros z Hz. destruct (Hc z Hz) as (w & k & t & Hw & Hr).
    destruct (decide (w = x)) as [->|Hn1]; [|destruct (decide (w = x + 2 ^ o)) as [->|Hn2]].
    + simplify_eq. exists x, (o + 1), s. rewrite lookup_insert_eq, pow2_succ by lia. split; [done|lia].
    + simplify_eq. exists x, (o + 1), s. rewrite lookup_insert_eq, pow2_succ by lia. split; [done|lia].
    + exists w, k, t. rewrite lookup_insert_ne, lookup_delete_ne by done. done.
Qed.

(** The buddy of a block below the top order is the start of a block, which
    is no larger. *)
Lemma part_buddy T off o s : part mn mx T → T !! off = Some (o, s) → o < mx →
  ∃ k t, T !! buddy_off off o = Some (k, t) ∧ k ≤ o.
Proof.
  intros [Ho Hb Ha Hc] Hoff Hmx. destruct (Hb _ _ _ Hoff) as (B1 & B2 & B3 & B4).
  pose proof (pow2_pos o ltac:(lia)) as Hp. set (b := buddy_off off o).
  pose proof (buddy_off_divide off o ltac:(lia) B2) as Hbd. fold b in Hbd.
  pose proof (merge_off_divide off o ltac:(lia) B2) as Hmd. set (g := merge_off off o) in *.
  assert (off = g ∧ b = g + 2 ^ o ∨ off = g + 2 ^ o ∧ b = g) as Hhalf by apply buddy_halves.
  clearbody g b.
  assert (0 ≤ g) as Hg0.
  { destruct Hhalf as [[? ?]|[E _]]; [lia|]. destruct Hmd as [i Hi].
    rewrite pow2_succ in Hi by lia. assert (0 ≤ i) by nia. nia. }
  assert (g + 2 ^ (o + 1) ≤ 2 ^ mx) as Hg1.
  { apply divide_gap; [apply pow2_pos; lia|done|apply pow2_divide; lia|]. lia. }
  rewrite pow2_succ in Hg1 by lia.
  destruct (Hc b ltac:(lia)) as (y & k & t & Hy & Hr). destruct (Hb _ _ _ Hy) as (K1 & K2 & K3 & K4).
  assert (y ≠ off) as Hne by (intros ->; simplify_eq; lia).
  destruct (decide (k ≤ o)) as [Hk|Hk].
  - exists k, t. split; [|done]. destruct (decide (y = b)) as [->|]; [done|].
    assert (2 ^ k | b) as Hkb by (etransitivity; [apply (pow2_divide k o); lia|done]).
    pose proof (divide_gap (2 ^ k) y b (pow2_pos k ltac:(lia)) K2 Hkb ltac:(lia)). lia.
  - exfalso. pose proof (pow2_pos k ltac:(lia)).
    assert (2 ^ (o + 1) | 2 ^ k) as Hok by (apply pow2_divide; lia).
    assert (2 ^ (o + 1) | y) as Hoy by (by etransitivity).
    pose proof (pow2_succ o ltac:(lia)) as Es.
    (* the block of [b] is a union of pairs of halves, so it has [off] too *)
    assert (y ≤ g).
    { destruct (decide (y ≤ g)); [done|]. pose proof (divide_gap _ g y (pow2_pos (o + 1) ltac:(lia)) Hmd Hoy). lia. }
    assert (g + 2 ^ (o + 1) ≤ y + 2 ^ k).
    { apply divide_gap; [apply pow2_pos; lia|done|by apply Z.divide_add_r|lia]. }
    destruct (Ha _ _ _ _ _ _ Hoff Hy ltac:(done)); lia.
Qed.

(** The block behind a block, or the end of the arena. *)
Lemma part_next T off o s : part mn mx T → T !! off = Some (o, s) →
  off + 2 ^ o = 2 ^ mx ∨ ∃ k t, T !! (off + 2 ^ o) = Some (k, t).
Proof.
  intros [Ho Hb Ha Hc] Hoff. destruct (Hb _ _ _ Hoff) as (B1 & B2 & B3 & B4).
  destruct (decide (off + 2 ^ o = 2 ^ mx)); [by left|right]. pose proof (pow2_pos o ltac:(lia)).
  destruct (Hc (off + 2 ^ o) ltac:(lia)) as (y & k & t & Hy & Hr).
  destruct (decide (y = off + 2 ^ o)) as [->|]; [eauto|].
  destruct (decide (y = off)) as [->|]; [simplify_eq; lia|].
  destruct (Hb _ _ _ Hy) as (K1 & _). pose proof (pow2_pos k ltac:(lia)).
  destruct (Ha _ _ _ _ _ _ Hoff Hy ltac:(done)); lia.
Qed.

Lemma part_first T : part mn mx T → ∃ o s, T !! 0 = Some (o, s).
Proof.
  intros [Ho Hb Ha Hc]. destruct (Hc 0) as (y & k & t & Hy & Hr); [pose proof (pow2_pos mx ltac:(lia)); lia|].
  destruct (Hb _ _ _ Hy) as (_ & _ & ? & _). assert (y = 0) as -> by lia. eauto.
Qed.

(** A fresh arena. *)
Lemma part_whole s : 0 ≤ mn ≤ mx → part mn mx {[0 := (mx, s)]}.
Proof.
  intros Ho. pose proof (pow2_pos mx ltac:(lia)). split; [done|..].
  - intros off o t Hx. apply lookup_singleton_Some in Hx as [<- [= <- <-]].
    split_and!; try lia. apply Z.divide_0_r.
  - intros x o t y k u Hx Hy. apply lookup_singleton_Some in Hx as [<- _], Hy as [<- _]. done.
  - intros x Hx. exists 0, mx, s. rewrite lookup_singleton_eq. split; [done|lia].
Qed.
End part.

(** ** Bytes in use *)

Definition block_used (b : Z * bstate) : Z := match b.2 with BUsed => 2 ^ b.1 | _ => 0 end.

Definition used_sum (T : part_map) : Z := map_fold (λ _ b acc, block_used b + acc) 0 T.

Lemma used_sum_insert T off b : T !! off = None → used_sum (<[off := b]> T) = block_used b + used_sum T.
Proof. intros Hn. unfold used_sum. rewrite map_fold_insert_L; [done| |done]. intros. lia. Qed.

Lemma used_sum_delete T off b : T !! off = Some b → used_sum T = block_used b + used_sum (delete off T).
Proof.
  intros Hs. rewrite <- (used_sum_insert (delete off T) off b) by apply lookup_delete_eq.
  by rewrite insert_delete_id.
Qed.

Lemma used_sum_update T off b b' : T !! off = Some b →
  used_sum (<[off := b']> T) = used_sum T - block_used b + block_used b'.
Proof.
  intros Hs. rewrite <- insert_delete_eq, used_sum_insert by apply lookup_delete_eq.
  rewrite (used_sum_delete T off b Hs). lia.
Qed.

(** Two partitions with the same used blocks. *)
Definition used_eq (T T' : part_map) : Prop := ∀ x k, T' !! x = Some (k, BUsed) ↔ T !! x = Some (k, BUsed).

#[global] Instance used_eq_equiv : Equivalence used_eq.
Proof.
  split; [done|intros T T' H x k; symmetry; apply H|].
  intros T1 T2 T3 H1 H2 x k. etransitivity; [apply H2|apply H1].
Qed.

Lemma used_sum_filter T : used_sum T = used_sum (filter (λ xb, xb.2.2 = BUsed) T).
Proof.
  induction T as [|x [k s] T Hx IH] using map_ind; [done|]. rewrite used_sum_insert by done.
  destruct (decide (s = BUsed)) as [->|Hs].
  - rewrite map_filter_insert_True by done. rewrite used_sum_insert; [by rewrite <- IH|].
    apply map_lookup_filter_None. by left.
  - rewrite map_filter_insert_False by done. rewrite delete_id by done. rewrite <- IH. by destruct s.
Qed.

Lemma used_sum_eq T T' : used_eq T T' → used_sum T' = used_sum T.
Proof.
  intros H. rewrite (used_sum_filter T), (used_sum_filter T'). f_equal. apply map_eq. intros x.
  apply option_eq. intros [k s]. rewrite !map_lookup_filter_Some. simpl.
  split; intros [Hx ->]; (split; [by apply H|done]).
Qed.

Lemma used_eq_update T x b b' : T !! x = Some b → b.2 ≠ BUsed → b'.2 ≠ BUsed → used_eq T (<[x := b']> T).
Proof.
  intros Hx Hb Hb' y k. destruct (decide (y = x)) as [->|].
  - rewrite lookup_insert_eq, Hx. split; intros [= ->]; done.
  - by rewrite lookup_insert_ne.
Qed.

Lemma used_eq_insert T x b : T !! x = None → b.2 ≠ BUsed → used_eq T (<[x := b]> T).
Proof.
  intros Hx Hb y k. destruct (decide (y = x)) as [->|].
  - rewrite lookup_insert_eq, Hx. split; [intros [= ->]|]; done.
  - by rewrite lookup_insert_ne.
Qed.

Lemma used_eq_delete T x b : T !! x = Some b → b.2 ≠ BUsed → used_eq T (delete x T).
Proof.
  intros Hx Hb y k. destruct (decide (y = x)) as [->|].
  - rewrite lookup_delete_eq, Hx. split; [done|]. intros [= ->]. done.
  - by rewrite lookup_delete_ne.
Qed.

(** ** Coalesced partitions: no two free buddies *)

Definition coalesced (mx : Z) (T : part_map) : Prop :=
  ∀ x o, o < mx → T !! x = Some (o, BFree) → T !! buddy_off x o ≠ Some (o, BFree).

Lemma coalesced_sub mx T T' : coalesced mx T →
  (∀ x o, T' !! x = Some (o, BFree) → T !! x = Some (o, BFree)) → coalesced mx T'.
Proof. intros Hc Hsub x o Ho Hx Hy. by apply (Hc x o Ho); apply Hsub. Qed.

Lemma buddy_off_involutive x o : 0 ≤ o → buddy_off (buddy_off x o) o = x.
Proof.
  intros Ho. rewrite <- !lxor_pow2 by done. by rewrite Z.lxor_assoc, Z.lxor_nilpotent, Z.lxor_0_r.
Qed.

Lemma coalesced_free mx T x o s : coalesced mx T → T !! x = Some (o, s) → 0 ≤ o →
  o = mx ∨ T !! buddy_off x o ≠ Some (o, BFree) → coalesced mx (<[x := (o, BFree)]> T).
Proof.
  intros Hc Hx H0 Ho y k Hk Hy Hz.
  assert (buddy_off x o ≠ x) as Hne.
  { unfold buddy_off. pose proof (pow2_pos o H0). destruct (Z.testbit x o); lia. }
  apply lookup_insert_Some in Hy as [[<- [= <-]]|[Hyx Hy]].
  - rewrite lookup_insert_ne in Hz by done. destruct Ho as [?|Ho]; [lia|done].
  - apply lookup_insert_Some in Hz as [[E [= ->]]|[_ Hz]]; [|by apply (Hc y k Hk)].
    rewrite E, buddy_off_involutive in Ho by done. destruct Ho as [?|Ho]; [lia|done].
Qed.

(** A coalesced partition without a block in use is one free block. *)
Lemma coalesced_all_free mn mx T : part mn mx T → coalesced mx T →
  (∀ x o s, T !! x = Some (o, s) → s = BFree) → ∀ x o s, T !! x = Some (o, s) → o = mx.
Proof.
  intros Hp Hc Hf x o s Hx. pose proof (pt_orders _ _ _ Hp).
  destruct (pt_block _ _ _ Hp _ _ _ Hx) as (Ho & _). revert x s Hx.
  induction (Z.lt_wf 0 o) as [o _ IH]. intros x s Hx. destruct (decide (o = mx)) as [|Hne]; [done|exfalso].
  destruct (part_buddy _ _ _ _ _ _ Hp Hx ltac:(lia)) as (k & t & Hy & Hk).
  destruct (pt_block _ _ _ Hp _ _ _ Hy) as (Hk' & _).
  destruct (decide (k = o)) as [->|].
  - rewrite (Hf _ _ _ Hy) in Hy. rewrite (Hf _ _ _ Hx) in Hx. by apply (Hc x o ltac:(lia)).
  - assert (k = mx) by (apply (IH k ltac:(lia) ltac:(lia) _ _ Hy)). lia.
Qed.

(** ** Sweeping the arena block by block *)

Lemma part_sweep mn mx T (P : Z → Prop) : part mn mx T → P (2 ^ mx) →
  (∀ off o s, T !! off = Some (o, s) → P (off + 2 ^ o) → P off) → P 0.
Proof.
  intros Hp Hend Hstep. destruct (part_first _ _ _ Hp) as (o0 & s0 & H0).
  cut (∀ n off, Z.to_nat (2 ^ mx - off) = n → (off = 2 ^ mx ∨ ∃ o s, T !! off = Some (o, s)) → P off).
  { intros H. apply (H _ 0 eq_refl). eauto. }
  induction n as [n IH] using lt_wf_ind. intros off Hn [->|(o & s & Hoff)]; [done|].
  destruct (pt_block _ _ _ Hp _ _ _ Hoff) as (? & _ & ? & ?). pose proof (pt_orders _ _ _ Hp).
  pose proof (pow2_pos o ltac:(lia)).
  apply (Hstep off o s Hoff), (IH (Z.to_nat (2 ^ mx - (off + 2 ^ o)))); [lia|done|].
  by apply (part_next mn mx T off o s).
Qed.

(** The blocks from [off] on. *)
Definition tail_part (off : Z) (T : part_map) : part_map := filter (λ xb, off ≤ xb.1) T.

Lemma tail_part_all mn mx T : part mn mx T → tail_part 0 T = T.
Proof.
  intros Hp. apply map_filter_id. intros x [o s] Hx. simpl. by destruct (pt_block _ _ _ Hp _ _ _ Hx) as (_ & _ & ? & _).
Qed.

Lemma tail_part_none mn mx T : part mn mx T → tail_part (2 ^ mx) T = ∅.
Proof.
  intros Hp. apply map_empty. intros x. apply map_lookup_filter_None. right. intros [o s] Hx. simpl.
  destruct (pt_block _ _ _ Hp _ _ _ Hx) as (? & _ & _ & ?). pose proof (pt_orders _ _ _ Hp).
  pose proof (pow2_pos o ltac:(lia)). lia.
Qed.

Lemma tail_part_step mn mx T off o s : part mn mx T → T !! off = Some (o, s) →
  used_sum (tail_part off T) = block_used (o, s) + used_sum (tail_part (off + 2 ^ o) T).
Proof.
  intros Hp Hoff. destruct (pt_block _ _ _ Hp _ _ _ Hoff) as (? & _ & _ & _). pose proof (pt_orders _ _ _ Hp).
  pose proof (pow2_pos o ltac:(lia)). rewrite <- (used_sum_insert _ off).
  - f_equal. apply map_eq. intros x. apply option_eq. intros [k t]. unfold tail_part.
    rewrite lookup_insert_Some, !map_lookup_filter_Some. simpl. split.
    + intros [Hx Hle]. destruct (decide (x = off)) as [->|Hne]; [left; split; congruence|right].
      split; [done|]. split; [done|]. destruct (pt_block _ _ _ Hp _ _ _ Hx) as (? & _ & _ & _).
      pose proof (pow2_pos k ltac:(lia)). destruct (pt_apart _ _ _ Hp _ _ _ _ _ _ Hoff Hx); lia.
    + intros [[<- [= <- <-]]|(Hne & Hx & Hle)]; (split; [done|lia]).
  - apply map_lookup_filter_None. right. intros b _. simpl. lia.
Qed.

Lemma used_sum_bounds mn mx T : part mn mx T → 0 ≤ used_sum T ≤ 2 ^ mx.
Proof.
  intros Hp. rewrite <- (tail_part_all mn mx T Hp).
  cut (0 ≤ used_sum (tail_part 0 T) ≤ 2 ^ mx - 0); [lia|].
  apply (part_sweep mn mx T (λ off, 0 ≤ used_sum (tail_part off T) ≤ 2 ^ mx - off)); [done|..].
  - rewrite (tail_part_none mn mx T Hp). unfold used_sum. rewrite map_fold_empty. lia.
  - intros off o s Hoff IH. rewrite (tail_part_step mn mx T off o s Hp Hoff).
    destruct (pt_block _ _ _ Hp _ _ _ Hoff) as (? & _). pose proof (pt_orders _ _ _ Hp).
    pose proof (pow2_pos o ltac:(lia)). unfold block_used. simpl. destruct s; lia.
Qed.
