(* ===== verification/BuddyLists.v ===== *)
(** * The free lists of the buddy allocator

    Doubly-linked, null-terminated lists inside the free blocks: [dseg m p l nx]
    says that the nodes of [l] are linked in memory, coming from [p] and going
    on to [nx].  Pushing, popping and unlinking a node do what they should. *)

From S2P Require Import Prelude Memory Platform Allocator Links.

Fixpoint dseg (m : mem) (p : Z) (l : list Z) (nx : Z) : Prop :=
  match l with
  | [] => True
  | n :: t => node_prev m n = p ∧ node_next m n = hd nx t ∧ dseg m n t nx
  end.

Lemma hd_app (d : Z) l1 l2 : hd d (l1 ++ l2) = hd (hd d l2) l1.
Proof. by destruct l1. Qed.

Lemma default_last (p n : Z) l : default p (last (n :: l)) = default n (last l).
Proof. rewrite last_cons. by destruct (last l). Qed.

Lemma dseg_app m p l1 l2 nx :
  dseg m p (l1 ++ l2) nx ↔ dseg m p l1 (hd nx l2) ∧ dseg m (default p (last l1)) l2 nx.
Proof.
  revert p. induction l1 as [|n l1 IH]; intros p; [simpl; tauto|].
  rewrite default_last. cbn [app dseg]. rewrite IH, hd_app. tauto.
Qed.

Lemma dseg_agree m m' p l nx : agree_on (node_bytes l) m m' → dseg m p l nx → dseg m' p l nx.
Proof.
  revert p. induction l as [|n l IH]; intros p Hag H; [done|]. destruct H as (Hp & Hn & H).
  split_and!.
  - rewrite <- Hp. apply load64_agree. intros x Hx. apply Hag. exists n. split; [left|rlia].
  - rewrite <- Hn. apply load64_agree. intros x Hx. apply Hag. exists n. split; [left|rlia].
  - apply IH; [|done]. intros x (k & Hk & Hx). apply Hag. exists k. split; [by right|done].
Qed.

(** Writing a link of a node outside [l] keeps [l] linked. *)
Lemma dseg_set_next L m p l nx n v : nodes_ok L → n ∈ L → (∀ x, x ∈ l → x ∈ L ∧ x ≠ n) →
  dseg m p l nx → dseg (set_next m n v) p l nx.
Proof.
  intros HL Hn Hl. revert p. induction l as [|k l IH]; intros p H; [done|]. destruct H as (H1 & H2 & H3).
  destruct (Hl k ltac:(left)) as [Hk Hkn]. simpl. rewrite (prev_set_next L), (next_set_next L), decide_False by done.
  split_and!; try done. apply IH; [|done]. intros x Hx. apply Hl. by right.
Qed.

Lemma dseg_set_prev L m p l nx n v : nodes_ok L → n ∈ L → (∀ x, x ∈ l → x ∈ L ∧ x ≠ n) →
  dseg m p l nx → dseg (set_prev m n v) p l nx.
Proof.
  intros HL Hn Hl. revert p. induction l as [|k l IH]; intros p H; [done|]. destruct H as (H1 & H2 & H3).
  destruct (Hl k ltac:(left)) as [Hk Hkn]. simpl. rewrite (next_set_prev L), (prev_set_prev L), decide_False by done.
  split_and!; try done. apply IH; [|done]. intros x Hx. apply Hl. by right.
Qed.

(** The head of a list gets a new predecessor. *)
Lemma dseg_relink L m p q l nx : nodes_ok L → (∀ x, x ∈ l → x ∈ L) → NoDup l → is_u64 q →
  dseg m p l nx → dseg (if hd NULL l =? NULL then m else set_prev m (hd NULL l) q) q l nx.
Proof.
  intros HL Hl Hnd Hq H. destruct l as [|y t]; [done|]. simpl in *. destruct H as (H1 & H2 & H3).
  pose proof (node_aligned L y HL ltac:(apply Hl; left)) as (_ & _ & Hy & _).
  rewrite (proj2 (Z.eqb_neq _ 0)) by lia. apply NoDup_cons in Hnd as [Hyt Hnd].
  assert (y ∈ L) as HyL by (apply Hl; left).
  rewrite (prev_set_prev L), decide_True, wrap64_small, (next_set_prev L) by done. split_and!; try done.
  apply (dseg_set_prev L); try done. intros x Hx. split; [apply Hl; by right|]. by intros ->.
Qed.

Lemma set_prev_bytes L m n v (b : bool) : n ∈ L ∨ b = true →
  agree_on (λ x, ¬ node_bytes L x) m (if b then m else set_prev m n v).
Proof. intros [H| ->]; [|done]. destruct b; [done|]. by apply node_bytes_set_prev. Qed.

Lemma hd_in (l : list Z) : hd NULL l ∈ l ∨ (hd NULL l =? NULL) = true.
Proof. destruct l; [by right|left; left]. Qed.

Lemma hd_u64 L l : nodes_ok L → (∀ x, x ∈ l → x ∈ L) → is_u64 (hd NULL l).
Proof.
  intros HL Hl. destruct l as [|x l]; simpl; [ulia|].
  pose proof (node_aligned L x HL ltac:(apply Hl; left)). ulia.
Qed.

(** ** The three operations *)

Lemma dseg_push m n l : nodes_ok (n :: l) → dseg m NULL l NULL →
  let m1 := set_next (set_prev m n NULL) n (hd NULL l) in
  let m2 := if node_next m1 n =? NULL then m1 else set_prev m1 (node_next m1 n) n in
  dseg m2 NULL (n :: l) NULL ∧ agree_on (λ x, ¬ node_bytes (n :: l) x) m m2.
Proof.
  intros HL Hd m1 m2. set (L := n :: l) in *. assert (n ∈ L) as HnL by left.
  assert (∀ x, x ∈ l → x ∈ L) as Hl by (intros; by right).
  pose proof HL as [Hnd _]. apply NoDup_cons in Hnd as [Hnl Hnd].
  pose proof (hd_u64 L l HL Hl) as Hhd. pose proof (node_aligned L n HL HnL) as (_ & _ & Hn & _).
  assert (node_next m1 n = hd NULL l) as E1
    by (unfold m1; by rewrite (next_set_next L), decide_True, wrap64_small).
  assert (node_prev m1 n = NULL) as E2
    by (unfold m1; by rewrite (prev_set_next L), (prev_set_prev L), decide_True by done).
  assert (∀ x, x ∈ l → x ∈ L ∧ x ≠ n) as Hl' by (intros x Hx; split; [auto|by intros ->]).
  assert (dseg m1 NULL l NULL) as Hd1.
  { unfold m1. by apply (dseg_set_next L), (dseg_set_prev L). }
  unfold m2. rewrite E1. split.
  - simpl. assert (hd NULL l ≠ n) as Hne.
    { destruct l as [|y t]; simpl; [lia|]. intros ->. apply Hnl. left. }
    split_and!.
    + destruct (hd_in l) as [Hin|Hz]; [|by rewrite Hz]. case_if; [done|].
      rewrite (prev_set_prev L), decide_False by auto. done.
    + destruct (hd_in l) as [Hin|Hz]; [|by rewrite Hz]. case_if; [done|].
      by rewrite (next_set_prev L) by auto.
    + eapply (dseg_relink L); try done. ulia.
  - apply (agree_on_trans _ _ m1); [unfold m1|].
    + eapply agree_on_trans; [by apply node_bytes_set_prev|by apply node_bytes_set_next].
    + apply set_prev_bytes. destruct (hd_in l) as [|]; auto.
Qed.

Lemma dseg_unlink m l1 n l2 : nodes_ok (l1 ++ n :: l2) → dseg m NULL (l1 ++ n :: l2) NULL →
  let p := node_prev m n in
  let m1 := if p =? NULL then m else set_next m p (node_next m n) in
  let m2 := if node_next m1 n =? NULL then m1 else set_prev m1 (node_next m1 n) (node_prev m1 n) in
  p = default NULL (last l1) ∧ node_next m n = hd NULL l2 ∧
  dseg m2 NULL (l1 ++ l2) NULL ∧ agree_on (λ x, ¬ node_bytes (l1 ++ n :: l2) x) m m2.
Proof.
  intros HL Hd p m1 m2. assert (node_prev m n = p) as Epn by done. clearbody p.
  set (L := l1 ++ n :: l2) in *.
  apply dseg_app in Hd as [Hd1 Hd2]. simpl in Hd1, Hd2. destruct Hd2 as (Ep & En & Hd2). rewrite Epn in Ep.
  assert (n ∈ L) as HnL by (unfold L; elem).
  pose proof HL as [Hnd _]. unfold L in Hnd. apply NoDup_app in Hnd as (Hnd1 & Hdis & Hnd2).
  apply NoDup_cons in Hnd2 as [Hn2 Hnd2].
  assert (n ∉ l1) as Hn1 by (intros Hn; apply (Hdis n Hn); left).
  assert (∀ x, x ∈ l1 → x ∈ L ∧ x ≠ n) as Hl1 by (intros x Hx; split; [unfold L; elem|by intros ->]).
  assert (∀ x, x ∈ l2 → x ∈ L ∧ x ≠ n) as Hl2 by (intros x Hx; split; [unfold L; elem|by intros ->]).
  assert (p = NULL ∧ l1 = [] ∨ ∃ l0, l1 = l0 ++ [p] ∧ p ∈ L ∧ p ≠ NULL ∧ p ≠ n) as Hp.
  { rewrite Ep. destruct l1 as [|x l0 _] using rev_ind; [by left|]. rewrite last_snoc. simpl. right.
    exists l0. destruct (Hl1 x ltac:(elem)) as [HxL Hxn]. pose proof (node_aligned L x HL HxL). split_and!; done || lia. }
  pose proof (hd_u64 L l2 HL ltac:(intros; by apply Hl2)) as Hhd.
  assert (node_next m1 n = hd NULL l2 ∧ node_prev m1 n = p) as [E1 E2].
  { unfold m1. destruct Hp as [[-> _]|(l0 & _ & HpL & Hp0 & Hpn)]; [done|].
    rewrite (proj2 (Z.eqb_neq _ _) Hp0). rewrite (next_set_next L), decide_False, (prev_set_next L) by done. done. }
  assert (dseg m1 NULL l1 (hd NULL l2) ∧ dseg m1 n l2 NULL) as [G1 G2].
  { unfold m1. destruct Hp as [[-> ->]|(l0 & -> & HpL & Hp0 & Hpn)]; [done|].
    rewrite (proj2 (Z.eqb_neq _ _) Hp0). apply NoDup_app in Hnd1 as (_ & Hd0 & _).
    apply dseg_app in Hd1 as [F1 (F2 & F3 & _)]. split.
    - apply dseg_app. split.
      + apply (dseg_set_next L); try done. intros x Hx. split; [apply Hl1; elem|].
        intros ->. apply (Hd0 p Hx). left.
      + simpl. rewrite (prev_set_next L), (next_set_next L), decide_True, En, wrap64_small by done. done.
    - apply (dseg_set_next L); try done. intros x Hx. split; [by apply Hl2|]. intros ->.
      apply (Hdis p); [elem|by right]. }
  assert (is_u64 p) as Hpu.
  { destruct Hp as [[-> _]|(l0 & _ & HpL & _)]; [ulia|]. pose proof (node_aligned L p HL HpL). ulia. }
  split_and!; [done|done|..].
  - apply dseg_app. rewrite <- Ep. unfold m2. rewrite E1, E2. split.
    + destruct (hd_in l2) as [Hin|Hz]; [|by rewrite Hz]. destruct (hd NULL l2 =? NULL); [done|].
      apply (dseg_set_prev L); try done; [by apply Hl2|]. intros x Hx. split; [by apply Hl1|].
      intros ->. apply (Hdis _ Hx). by right.
    + eapply (dseg_relink L); try done. intros; by apply Hl2.
  - apply (agree_on_trans _ _ m1).
    + unfold m1. destruct Hp as [[-> _]|(l0 & _ & HpL & Hp0 & _)]; [done|].
      rewrite (proj2 (Z.eqb_neq _ _) Hp0). by apply node_bytes_set_next.
    + unfold m2. rewrite E1, E2. apply set_prev_bytes.
      destruct (hd_in l2) as [Hin|]; [left; by apply Hl2|by right].
Qed.
