(* ===== verification/BuddyProofs.v ===== *)
(** * The buddy allocator: correctness

    The invariant ties the arrays and the memory to a partition of the arena:
    [order_map] has the order and state of every block, list [o] holds exactly
    the free blocks of order [o], every used block carries its order.  A call
    takes blocks into its hand, splits or merges them there and puts them
    back; each step is one lemma. *)

From S2P Require Import Prelude Memory Platform Allocator Links Buddy BuddyPart BuddyLists.

(** The byte of [order_map] for a block. *)
Definition enc (o : Z) (s : bstate) : Z := match s with BUsed => o + 192 | _ => o + 64 end.

(** The bytes of the used blocks. *)
Definition used_area (base : Z) (T : part_map) (x : Z) : Prop :=
  ∃ off o, T !! off = Some (o, BUsed) ∧ range (base + off) (2 ^ o) x.

Record bd_geo (a : bd_alloc) : Prop := {
  bg_base : 0 < bd_mem a ∧ (16 | bd_mem a);
  bg_space : bd_mem a + 2 ^ max_order a ≤ 2 ^ 64;
  bg_orders : 5 ≤ min_order a ≤ max_order a ∧ max_order a ≤ 62;
  bg_cap : bd_capacity a = 2 ^ max_order a;
  bg_lists : Z.of_nat (length (free_lists a)) = max_order a + 1;
  bg_map : Z.of_nat (length (order_map a)) = 2 ^ (max_order a - min_order a)
}.

Record bd_core (a : bd_alloc) (m : mem) (T : part_map) (F : Z → list Z) : Prop := {
  bc_geo : bd_geo a;
  bc_part : part (min_order a) (max_order a) T;
  bc_map off o s : T !! off = Some (o, s) → s ≠ BHand →
    order_map a !! Z.to_nat (off / 2 ^ min_order a) = Some (enc o s);
  bc_head o : 0 ≤ o ≤ max_order a → free_lists a !! Z.to_nat o = Some (hd NULL (F o));
  bc_list o : 0 ≤ o ≤ max_order a → dseg m NULL (F o) NULL;
  bc_nodup o : 0 ≤ o ≤ max_order a → NoDup (F o);
  bc_nodes o n : 0 ≤ o ≤ max_order a → n ∈ F o ↔ T !! (n - bd_mem a) = Some (o, BFree);
  bc_tag off o : T !! off = Some (o, BUsed) → load64 m (bd_mem a + off) = o
}.

Definition upd (F : Z → list Z) (o : Z) (l : list Z) (k : Z) : list Z := if decide (k = o) then l else F k.

Lemma upd_eq F o l : upd F o l o = l.
Proof. unfold upd. by rewrite decide_True. Qed.

Lemma upd_ne F o l k : k ≠ o → upd F o l k = F k.
Proof. intros. unfold upd. by rewrite decide_False. Qed.

(** What an operation leaves alone. *)
Definition bd_same (a a' : bd_alloc) : Prop :=
  bd_mem a' = bd_mem a ∧ bd_capacity a' = bd_capacity a ∧ min_order a' = min_order a ∧
  max_order a' = max_order a ∧ bd_stats a' = bd_stats a.

Lemma bd_same_trans a b c : bd_same a b → bd_same b c → bd_same a c.
Proof. intros (? & ? & ? & ? & ?) (? & ? & ? & ? & ?). split_and!; congruence. Qed.

(** ** Blocks and bytes *)

Section core.
Context (a : bd_alloc) (m : mem) (T : part_map) (F : Z → list Z).
Context (Hc : bd_core a m T F).

Lemma core_block off o s : T !! off = Some (o, s) →
  5 ≤ min_order a ≤ o ∧ o ≤ max_order a ∧ 0 ≤ off ∧ off + 2 ^ o ≤ 2 ^ max_order a ∧ (2 ^ o | off) ∧
  32 ≤ 2 ^ o ∧ (16 | bd_mem a + off) ∧ 0 < bd_mem a ∧ bd_mem a + off + 2 ^ o ≤ 2 ^ 64 ∧ max_order a ≤ 62.
Proof.
  intros H. destruct (pt_block _ _ _ (bc_part _ _ _ _ Hc) _ _ _ H) as (? & Hd & ? & ?).
  destruct (bc_geo _ _ _ _ Hc) as [[? Hm] ? [? ?] _ _ _].
  pose proof (pow2_le_mono 5 o ltac:(lia)). split_and!; try done; try lia.
  apply Z.divide_add_r; [done|]. etransitivity; [|exact Hd]. apply (pow2_divide 4). lia.
Qed.

(** Blocks at different offsets do not overlap. *)
Lemma core_apart x o s y k t : T !! x = Some (o, s) → T !! y = Some (k, t) → x ≠ y →
  ∀ z, range (bd_mem a + x) (2 ^ o) z → ¬ range (bd_mem a + y) (2 ^ k) z.
Proof.
  intros Hx Hy Hne z H1 H2.
  destruct (pt_apart _ _ _ (bc_part _ _ _ _ Hc) _ _ _ _ _ _ Hx Hy Hne); rlia.
Qed.

(** The first bytes of blocks that are not used, for a set [W] of nodes. *)
Definition loose (W : list Z) : Prop := ∀ n, n ∈ W → ∃ o s, T !! (n - bd_mem a) = Some (o, s) ∧ s ≠ BUsed.

Lemma loose_used W x : loose W → node_bytes W x → ¬ used_area (bd_mem a) T x.
Proof.
  intros HW (n & Hn & Hx) (off & o & Hoff & Hr). destruct (HW n Hn) as (k & s & Hk & Hs).
  assert (n - bd_mem a ≠ off) as Hne by (intros E; rewrite E in Hk; simplify_eq).
  pose proof (core_block _ _ _ Hk) as (? & ? & ? & ? & ? & ? & _).
  apply (core_apart _ _ _ _ _ _ Hk Hoff Hne x); [rlia|done].
Qed.

Lemma loose_nodes W V x : loose W → loose V → (∀ n, n ∈ W → n ∉ V) → node_bytes W x → ¬ node_bytes V x.
Proof.
  intros HW HV Hd (n & Hn & Hx) (n' & Hn' & Hx'). destruct (HW n Hn) as (k & s & Hk & _).
  destruct (HV n' Hn') as (k' & s' & Hk' & _).
  assert (n - bd_mem a ≠ n' - bd_mem a) as Hne.
  { intros E. apply (Hd n Hn). by replace n with n' by lia. }
  pose proof (core_block _ _ _ Hk) as (_ & _ & _ & _ & _ & ? & _).
  pose proof (core_block _ _ _ Hk') as (_ & _ & _ & _ & _ & ? & _).
  apply (core_apart _ _ _ _ _ _ Hk Hk' Hne x); rlia.
Qed.

Lemma loose_list o : 0 ≤ o ≤ max_order a → loose (F o).
Proof. intros Ho n Hn. apply (bc_nodes _ _ _ _ Hc) in Hn; [|done]. eauto. Qed.

Lemma loose_ok W : loose W → NoDup W → nodes_ok W.
Proof.
  intros HW Hnd. split; [done|]. apply list.Forall_forall. intros n Hn.
  destruct (HW n Hn) as (o & s & Ho & _). pose proof (core_block _ _ _ Ho) as (? & ? & ? & ? & ? & ? & Hd & ? & ? & _).
  replace (bd_mem a + (n - bd_mem a)) with n in * by lia. split; [lia|done].
Qed.

(** After a change of the bytes of some loose nodes, everything else holds. *)
Lemma core_tag_frame W m' off o : loose W → agree_on (λ x, ¬ node_bytes W x) m m' →
  T !! off = Some (o, BUsed) → load64 m' (bd_mem a + off) = o.
Proof.
  intros HW Hag Hoff. transitivity (load64 m (bd_mem a + off)); [|by apply (bc_tag _ _ _ _ Hc)]. apply load64_agree. intros x Hx.
  apply Hag. intros Hn. apply (loose_used W x HW Hn). exists off, o. split; [done|].
  pose proof (core_block _ _ _ Hoff). rlia.
Qed.

Lemma core_list_frame W m' o : loose W → (∀ n, n ∈ W → n ∉ F o) → 0 ≤ o ≤ max_order a →
  agree_on (λ x, ¬ node_bytes W x) m m' → dseg m' NULL (F o) NULL.
Proof.
  intros HW Hd Ho Hag. eapply dseg_agree; [|by apply (bc_list _ _ _ _ Hc)].
  intros x Hx. apply Hag. intros Hw. by apply (loose_nodes W (F o) x HW (loose_list o Ho) Hd Hw).
Qed.

Lemma loose_frame W m' : loose W → agree_on (λ x, ¬ node_bytes W x) m m' → agree_on (used_area (bd_mem a) T) m m'.
Proof. intros HW Hag. eapply agree_on_sub; [exact Hag|]. intros x Hu Hn. by apply (loose_used W x HW Hn). Qed.

(** The index of a block in [order_map]. *)
Lemma core_slot off o s : T !! off = Some (o, s) →
  slot_of a (bd_mem a + off) = off / 2 ^ min_order a ∧
  0 ≤ off / 2 ^ min_order a < Z.of_nat (length (order_map a)).
Proof.
  intros H. pose proof (core_block _ _ _ H) as (? & ? & ? & ? & ? & ? & _ & ? & ? & ?).
  unfold slot_of. replace (bd_mem a + off - bd_mem a) with off by lia.
  rewrite wrap64_small, Z.shiftr_div_pow2 by ulia. split; [done|].
  rewrite (bg_map _ (bc_geo _ _ _ _ Hc)). pose proof (pow2_pos (min_order a) ltac:(lia)).
  split; [apply Z.div_pos; lia|]. apply Z.div_lt_upper_bound; [lia|].
  rewrite <- Z.pow_add_r by lia. replace (min_order a + (max_order a - min_order a)) with (max_order a) by lia.
  pose proof (pow2_pos o ltac:(lia)). lia.
Qed.

(** Different blocks have different slots. *)
Lemma core_slot_ne x o s y k t : T !! x = Some (o, s) → T !! y = Some (k, t) → x ≠ y →
  Z.to_nat (x / 2 ^ min_order a) ≠ Z.to_nat (y / 2 ^ min_order a).
Proof.
  intros Hx Hy Hne E. destruct (core_slot _ _ _ Hx) as [_ ?]. destruct (core_slot _ _ _ Hy) as [_ ?].
  assert (x / 2 ^ min_order a = y / 2 ^ min_order a) as E' by lia.
  pose proof (core_block _ _ _ Hx) as (? & ? & ? & ? & Hdx & ? & _).
  pose proof (core_block _ _ _ Hy) as (? & ? & ? & ? & Hdy & ? & _).
  assert (2 ^ min_order a | x) as [i ->] by (etransitivity; [apply (pow2_divide _ o); lia|done]).
  assert (2 ^ min_order a | y) as [j ->] by (etransitivity; [apply (pow2_divide _ k); lia|done]).
  pose proof (pow2_pos (min_order a) ltac:(lia)). rewrite !Z.div_mul in E' by lia. congruence.
Qed.
End core.

(** ** The bytes of [order_map] *)

Lemma enc_bytes o : 0 ≤ o < 64 →
  wrap8 (Z.lor o 0x40) = enc o BFree ∧ wrap8 (Z.lor (Z.lor o 0x80) 0x40) = enc o BUsed ∧
  (Z.land (enc o BFree) 0x40 ≠ 0 ∧ Z.land (enc o BFree) 0x80 = 0 ∧ Z.land (enc o BFree) 0x3F = o) ∧
  (Z.land (enc o BUsed) 0x40 ≠ 0 ∧ Z.land (enc o BUsed) 0x80 ≠ 0 ∧ Z.land (enc o BUsed) 0x3F = o).
Proof.
  intros Ho.
  pose proof (forallb_below 64 (λ o, (wrap8 (Z.lor o 0x40) =? enc o BFree) &&
    (wrap8 (Z.lor (Z.lor o 0x80) 0x40) =? enc o BUsed) &&
    (negb (Z.land (enc o BFree) 0x40 =? 0) && (Z.land (enc o BFree) 0x80 =? 0) && (Z.land (enc o BFree) 0x3F =? o)) &&
    (negb (Z.land (enc o BUsed) 0x40 =? 0) && negb (Z.land (enc o BUsed) 0x80 =? 0) && (Z.land (enc o BUsed) 0x3F =? o)))
    ltac:(vm_compute; reflexivity) o Ho) as H. cbv beta in H. zb. done.
Qed.

(** ** A free block is taken into the hand *)

Lemma core_take a m T F a' m' off o l' :
  bd_core a m T F → T !! off = Some (o, BFree) → F o ≡ₚ bd_mem a + off :: l' →
  bd_same a a' → order_map a' = order_map a → length (free_lists a') = length (free_lists a) →
  (∀ k, 0 ≤ k ≤ max_order a → free_lists a' !! Z.to_nat k = Some (hd NULL (upd F o l' k))) →
  dseg m' NULL l' NULL → agree_on (λ x, ¬ node_bytes (F o) x) m m' →
  bd_core a' m' (<[off := (o, BHand)]> T) (upd F o l') ∧ agree_on (used_area (bd_mem a) T) m m'.
Proof.
  intros Hc Hoff Hp (Em & Ec & Emn & Emx & Est) Eom Elen Hfl Hd Hag.
  pose proof (core_block _ _ _ _ Hc _ _ _ Hoff) as (? & ? & _).
  pose proof (loose_list _ _ _ _ Hc o ltac:(lia)) as HW.
  split; [|by apply (loose_frame _ _ _ _ Hc (F o))].
  assert (NoDup (bd_mem a + off :: l')) as Hnd by (rewrite <- Hp; apply (bc_nodup _ _ _ _ Hc); lia).
  apply NoDup_cons in Hnd as [Hnin Hnd].
  split.
  - destruct (bc_geo _ _ _ _ Hc). split; rewrite ?Em, ?Ec, ?Emn, ?Emx, ?Eom, ?Elen; done.
  - rewrite Emn, Emx. apply (part_restate _ _ T off o BFree); [apply Hc|done].
  - intros x k s Hx Hs. rewrite Emn, Eom. apply lookup_insert_Some in Hx as [[<- [= <- <-]]|[? Hx]]; [done|].
    by apply (bc_map _ _ _ _ Hc).
  - rewrite Emx. done.
  - rewrite Emx. intros k Hk. unfold upd. case_decide as E; [done|].
    apply (core_list_frame _ _ _ _ Hc (F o)); try done. intros n Hn Hn'.
    apply (bc_nodes _ _ _ _ Hc) in Hn, Hn'; [|done|lia]. simplify_eq.
  - rewrite Emx. intros k Hk. unfold upd. case_decide; [done|]. by apply (bc_nodup _ _ _ _ Hc).
  - rewrite Emx, Em. intros k n Hk. pose proof (bc_nodes _ _ _ _ Hc k n Hk) as Hn.
    destruct (decide (n = bd_mem a + off)) as [->|Hne].
    + replace (bd_mem a + off - bd_mem a) with off in * by lia. rewrite lookup_insert_eq. split; [|done].
      unfold upd. case_decide as E; [done|]. intros Hin. apply Hn in Hin. simplify_eq.
    + rewrite lookup_insert_ne, <- Hn by lia. unfold upd. case_decide as E; [|done]. subst k.
      rewrite Hp, elem_of_cons. split; [by right|]. by intros [?|?].
  - rewrite Em. intros x k Hx. apply lookup_insert_Some in Hx as [[_ [=]]|[? Hx]].
    by apply (core_tag_frame _ _ _ _ Hc (F o) m').
Qed.

Lemma hd_upd a m T F o v l' k : bd_core a m T F → 0 ≤ o ≤ max_order a → v = hd NULL l' → 0 ≤ k ≤ max_order a →
  <[Z.to_nat o := v]> (free_lists a) !! Z.to_nat k = Some (hd NULL (upd F o l' k)).
Proof.
  intros Hc Ho -> Hk. unfold upd. case_decide as E.
  - subst k. apply list_lookup_insert_eq. pose proof (bg_lists _ (bc_geo _ _ _ _ Hc)). lia.
  - rewrite list_lookup_insert_ne by lia. by apply (bc_head _ _ _ _ Hc).
Qed.

Lemma bd_unlink_core a m T F off o : bd_core a m T F → T !! off = Some (o, BFree) →
  ∃ a' m' l', bd_unlink a m (bd_mem a + off) o = Ok (a', m') ∧ bd_same a a' ∧
    bd_core a' m' (<[off := (o, BHand)]> T) (upd F o l') ∧ agree_on (used_area (bd_mem a) T) m m'.
Proof.
  intros Hc Hoff. pose proof (core_block _ _ _ _ Hc _ _ _ Hoff) as (? & ? & _).
  assert (0 ≤ o ≤ max_order a) as Ho by lia. set (n := bd_mem a + off).
  assert (n ∈ F o) as Hn.
  { apply (bc_nodes _ _ _ _ Hc); [done|]. unfold n. by replace (bd_mem a + off - bd_mem a) with off by lia. }
  destruct (list_elem_of_split _ _ Hn) as (l1 & l2 & El).
  pose proof (loose_ok _ _ _ _ Hc (F o) (loose_list _ _ _ _ Hc o Ho) (bc_nodup _ _ _ _ Hc o Ho)) as Hok.
  pose proof (bc_list _ _ _ _ Hc o Ho) as Hd. rewrite El in Hok, Hd.
  destruct (dseg_unlink m l1 n l2 Hok Hd) as (Ep & En & Hd' & Hag). rewrite <- El in Hag.
  assert (F o ≡ₚ n :: (l1 ++ l2)) as Hp by (rewrite El; by rewrite <- Permutation_middle).
  pose proof (bg_lists _ (bc_geo _ _ _ _ Hc)) as Hlen.
  unfold bd_unlink. destruct (node_prev m n =? NULL) eqn:Eq; cbn [negb].
  - rewrite arr_set_ok by lia. cbn [mbind outcome_bind]. zb. rewrite Eq in Ep.
    assert (l1 = []) as ->.
    { destruct l1 as [|x l0 _] using rev_ind; [done|]. rewrite last_snoc in Ep. simpl in Ep. exfalso.
      pose proof (node_aligned _ x Hok ltac:(elem)). lia. }
    eexists _, _, l2. split; [reflexivity|]. split; [done|].
    apply (core_take a m T F _ _ off o l2 Hc Hoff Hp); try done; simpl.
    + by rewrite length_insert.
    + intros k Hk. by apply (hd_upd a m T).
  - zb. cbn [mbind outcome_bind]. eexists _, _, (l1 ++ l2). split; [reflexivity|]. split; [done|].
    apply (core_take a m T F _ _ off o (l1 ++ l2) Hc Hoff Hp); try done.
    intros k Hk. rewrite (bc_head _ _ _ _ Hc k Hk). unfold upd. case_decide as E; [|done]. subst k. rewrite El.
    destruct l1 as [|x l0]; [done|]. done.
Qed.

Lemma bd_pop_core a m T F o n t : bd_core a m T F → 0 ≤ o ≤ max_order a → F o = n :: t →
  let off := n - bd_mem a in
  T !! off = Some (o, BFree) ∧
  ∃ a' m', bd_pop a m o = Ok (a', m', n) ∧ bd_same a a' ∧
    bd_core a' m' (<[off := (o, BHand)]> T) (upd F o t) ∧ agree_on (used_area (bd_mem a) T) m m'.
Proof.
  intros Hc Ho El off.
  assert (T !! off = Some (o, BFree)) as Hoff by (apply (bc_nodes _ _ _ _ Hc); [done|rewrite El; left]).
  split; [done|]. assert (n = bd_mem a + off) as En by (unfold off; lia).
  pose proof (loose_ok _ _ _ _ Hc (F o) (loose_list _ _ _ _ Hc o Ho) (bc_nodup _ _ _ _ Hc o Ho)) as Hok.
  pose proof (bc_list _ _ _ _ Hc o Ho) as Hd. rewrite El in Hok, Hd. pose proof Hd as (Hp & Hnx & _).
  destruct (dseg_unlink m [] n t Hok Hd) as (_ & _ & Hd' & Hag). simpl in Hd', Hag. rewrite Hp in Hd', Hag.
  simpl in Hd', Hag. rewrite Hp in Hd', Hag.
  pose proof (bg_lists _ (bc_geo _ _ _ _ Hc)) as Hlen. unfold bd_pop.
  rewrite (arr_get_ok _ _ n) by (lia || by rewrite (bc_head _ _ _ _ Hc), El). cbn [mbind outcome_bind].
  rewrite arr_set_ok by lia. cbn [mbind outcome_bind].
  eexists _, _. split; [reflexivity|]. split; [done|].
  apply (core_take a m T F _ _ off o t Hc Hoff); try done; simpl.
  - by rewrite El, En.
  - by rewrite length_insert.
  - intros k Hk. by apply (hd_upd a m T).
  - by rewrite El.
Qed.

(** ** A block in the hand goes to a free list *)

Lemma bd_push_core a m T F off o : bd_core a m T F → T !! off = Some (o, BHand) →
  ∃ a' m' F', bd_push a m (bd_mem a + off) o = Ok (a', m') ∧ bd_same a a' ∧
    bd_core a' m' (<[off := (o, BFree)]> T) F' ∧ agree_on (used_area (bd_mem a) T) m m'.
Proof.
  intros Hc Hoff. pose proof (core_block _ _ _ _ Hc _ _ _ Hoff) as (? & ? & ? & ? & ? & ? & ? & ? & ? & ?).
  assert (0 ≤ o ≤ max_order a) as Ho by lia. set (n := bd_mem a + off).
  assert (n - bd_mem a = off) as En by (unfold n; lia).
  assert (loose a T (n :: F o)) as HW.
  { intros x Hx. apply elem_of_cons in Hx as [->|Hx]; [rewrite En; eauto|].
    by apply (loose_list _ _ _ _ Hc o Ho). }
  assert (n ∉ F o) as Hnin.
  { intros Hn. apply (bc_nodes _ _ _ _ Hc) in Hn; [|done]. rewrite En in Hn. simplify_eq. }
  pose proof (bc_nodup _ _ _ _ Hc o Ho) as Hnd. assert (NoDup (n :: F o)) as Hnd' by (by apply NoDup_cons).
  destruct (dseg_push m n (F o) (loose_ok _ _ _ _ Hc _ HW Hnd') (bc_list _ _ _ _ Hc o Ho)) as [Hd Hag].
  pose proof (bg_lists _ (bc_geo _ _ _ _ Hc)) as Hlen. pose proof (core_slot _ _ _ _ Hc _ _ _ Hoff) as [Eslot Hslot].
  unfold bd_push. rewrite (arr_get_ok _ _ _ (proj1 Ho) (bc_head _ _ _ _ Hc o Ho)). cbn [mbind outcome_bind].
  rewrite (arr_set_ok (free_lists a)) by lia. cbn [mbind outcome_bind]. fold n in Eslot.
  rewrite Eslot, arr_set_ok by lia.
  cbn [mbind outcome_bind]. destruct (enc_bytes o ltac:(lia)) as (-> & _).
  match type of Hag with agree_on _ _ ?mm => set (m' := mm) in * end. clearbody m'.
  eexists _, m', (upd F o (n :: F o)). split; [reflexivity|]. split; [unfold bd_same; split_and!; reflexivity|].
  split; [|by apply (loose_frame _ _ _ _ Hc (n :: F o))]. split; simpl.
  - destruct (bc_geo _ _ _ _ Hc). split; simpl; rewrite ?length_insert; done.
  - apply (part_restate _ _ T off o BHand); [apply Hc|done].
  - intros x k s Hx Hs. apply lookup_insert_Some in Hx as [[<- [= <- <-]]|[Hne Hx]].
    + apply list_lookup_insert_eq. lia.
    + rewrite list_lookup_insert_ne; [by apply (bc_map _ _ _ _ Hc)|].
      apply (core_slot_ne _ _ _ _ Hc _ _ _ _ _ _ Hoff Hx Hne).
  - intros k Hk. by apply (hd_upd a m T).
  - intros k Hk. unfold upd. case_decide as E; [done|].
    apply (core_list_frame _ _ _ _ Hc (n :: F o)); try done. intros x Hx Hx'.
    apply (bc_nodes _ _ _ _ Hc) in Hx'; [|done].
    apply elem_of_cons in Hx as [->|Hx]; [rewrite En in Hx'; simplify_eq|].
    apply (bc_nodes _ _ _ _ Hc) in Hx; [simplify_eq|done].
  - intros k Hk. unfold upd. case_decide; [done|]. by apply (bc_nodup _ _ _ _ Hc).
  - intros k x Hk. pose proof (bc_nodes _ _ _ _ Hc k x Hk) as Hx. destruct (decide (x = n)) as [->|Hne].
    + rewrite En in *. rewrite lookup_insert_eq. unfold upd. case_decide as E; [subst k; split; [done|left]|].
      split; [|congruence]. intros Hin. apply Hx in Hin. simplify_eq.
    + rewrite lookup_insert_ne, <- Hx by lia. unfold upd. case_decide as E; [|done]. subst k.
      rewrite elem_of_cons. split; [by intros [?|?]|by right].
  - intros x k Hx. apply lookup_insert_Some in Hx as [[_ [=]]|[? Hx]].
    by apply (core_tag_frame _ _ _ _ Hc (n :: F o) _).
Qed.

(** ** Splitting and merging in the hand *)

(** A change of the partition that keeps the free blocks and adds no used one. *)
Lemma core_rehand a m T T' F : bd_core a m T F → part (min_order a) (max_order a) T' →
  (∀ off o s, s ≠ BHand → T' !! off = Some (o, s) → T !! off = Some (o, s)) →
  (∀ off o, T !! off = Some (o, BFree) → T' !! off = Some (o, BFree)) → bd_core a m T' F.
Proof.
  intros Hc Hp Hsub Hfree. destruct Hc as [Hg Hpt Hmap Hh Hl Hnd Hn Ht]. split; try done.
  - intros off o s H Hs. apply (Hmap off); [by apply Hsub|done].
  - intros o n Ho. rewrite Hn by done. split; [apply Hfree|by apply Hsub].
  - intros off o H. apply Ht. by apply Hsub.
Qed.

Lemma bd_split_core a m T F off o : bd_core a m T F → T !! off = Some (o + 1, BHand) → min_order a ≤ o →
  T !! (off + 2 ^ o) = None ∧
  bd_core a m (<[off + 2 ^ o := (o, BHand)]> (<[off := (o, BHand)]> T)) F.
Proof.
  intros Hc Hoff Ho.
  destruct (part_split _ _ _ _ _ _ BHand BHand (bc_part _ _ _ _ Hc) Hoff Ho) as [Hn Hp]. split; [done|].
  apply (core_rehand _ _ T); [done|done|..].
  - intros x k s Hs Hx. apply lookup_insert_Some in Hx as [[_ [= _ <-]]|[_ Hx]]; [done|].
    by apply lookup_insert_Some in Hx as [[_ [= _ <-]]|[_ Hx]].
  - intros x k Hx. rewrite !lookup_insert_ne; [done|congruence..].
Qed.

Lemma bd_merge_core a m T F x o : bd_core a m T F → T !! x = Some (o, BHand) →
  T !! (x + 2 ^ o) = Some (o, BHand) → o < max_order a → (2 ^ (o + 1) | x) →
  bd_core a m (<[x := (o + 1, BHand)]> (delete (x + 2 ^ o) T)) F.
Proof.
  intros Hc Hx Hy Ho Hd.
  pose proof (part_merge _ _ _ _ _ _ _ BHand (bc_part _ _ _ _ Hc) Hx Hy Ho Hd) as Hp.
  apply (core_rehand _ _ T); [done|done|..].
  - intros z k s Hs Hz. apply lookup_insert_Some in Hz as [[_ [= _ <-]]|[_ Hz]]; [done|].
    by apply lookup_delete_Some in Hz as [_ Hz].
  - intros z k Hz. rewrite lookup_insert_ne, lookup_delete_ne; [done|congruence..].
Qed.

(** A used block is taken into the hand: nothing in memory changes. *)
Lemma bd_hold_core a m T F off o : bd_core a m T F → T !! off = Some (o, BUsed) →
  bd_core a m (<[off := (o, BHand)]> T) F.
Proof.
  intros Hc Hoff. apply (core_rehand _ _ T); [done|..].
  - apply (part_restate _ _ T off o BUsed); [apply Hc|done].
  - intros x k s Hs Hx. by apply lookup_insert_Some in Hx as [[_ [= _ <-]]|[_ Hx]].
  - intros x k Hx. rewrite lookup_insert_ne; [done|congruence].
Qed.

(** A block in the hand is marked used and tagged. *)
Lemma bd_use_core a m T F off o : bd_core a m T F → T !! off = Some (o, BHand) →
  let m' := store64 m (bd_mem a + off) o in
  ∃ a', bd_mark_used a (bd_mem a + off) o = Ok a' ∧ bd_same a a' ∧
    bd_core a' m' (<[off := (o, BUsed)]> T) F ∧ agree_on (used_area (bd_mem a) T) m m'.
Proof.
  intros Hc Hoff m'. pose proof (core_block _ _ _ _ Hc _ _ _ Hoff) as (? & ? & ? & ? & ? & ? & ? & ? & ? & ?).
  set (n := bd_mem a + off) in *. assert (n - bd_mem a = off) as En by (unfold n; lia).
  assert (loose a T [n]) as HW.
  { intros x Hx. apply list_elem_of_singleton in Hx as ->. rewrite En. eauto. }
  assert (agree_on (λ x, ¬ node_bytes [n] x) m m') as Hag.
  { apply agree_on_store64. intros x Hx Hr. apply Hx. exists n. split; [left|rlia]. }
  pose proof (core_slot _ _ _ _ Hc _ _ _ Hoff) as [Eslot Hslot]. fold n in Eslot.
  unfold bd_mark_used. rewrite Eslot, arr_set_ok by lia. cbn [mbind outcome_bind].
  destruct (enc_bytes o ltac:(lia)) as (_ & -> & _).
  eexists. split; [reflexivity|]. split; [unfold bd_same; split_and!; reflexivity|].
  split; [|by apply (loose_frame _ _ _ _ Hc [n])].
  assert (load64 m' n = o) as Htag by (unfold m'; rewrite load64_store64_eq; apply wrap64_small; ulia).
  clearbody m'. split; simpl.
  - destruct (bc_geo _ _ _ _ Hc). split; simpl; rewrite ?length_insert; done.
  - apply (part_restate _ _ T off o BHand); [apply Hc|done].
  - intros x k s Hx Hs. apply lookup_insert_Some in Hx as [[<- [= <- <-]]|[Hne Hx]].
    + apply list_lookup_insert_eq. lia.
    + rewrite list_lookup_insert_ne; [by apply (bc_map _ _ _ _ Hc)|].
      apply (core_slot_ne _ _ _ _ Hc _ _ _ _ _ _ Hoff Hx Hne).
  - apply Hc.
  - intros k Hk. apply (core_list_frame _ _ _ _ Hc [n]); try done. intros x Hx Hx'.
    apply list_elem_of_singleton in Hx as ->. apply (bc_nodes _ _ _ _ Hc) in Hx'; [|done].
    rewrite En in Hx'. simplify_eq.
  - apply Hc.
  - intros k x Hk. rewrite (bc_nodes _ _ _ _ Hc k x Hk). destruct (decide (x - bd_mem a = off)) as [->|].
    + rewrite lookup_insert_eq, Hoff. split; congruence.
    + by rewrite lookup_insert_ne.
  - intros x k Hx. apply lookup_insert_Some in Hx as [[<- [= <-]]|[Hne Hx]]; [done|].
    by apply (core_tag_frame _ _ _ _ Hc [n]).
Qed.

(** ** The loops *)

(** Only the block at [off] is in the hand. *)
Definition only_hand (T : part_map) (off : Z) : Prop := ∀ x k, T !! x = Some (k, BHand) → x = off.

Lemma used_area_eq base T T' x : used_eq T T' → used_area base T' x ↔ used_area base T x.
Proof.
  intros H. unfold used_area. split; intros (off & o & Hoff & Hr); exists off, o; (split; [by apply H|done]).
Qed.

Lemma agree_used_trans base T T' m1 m2 m3 : used_eq T T' →
  agree_on (used_area base T) m1 m2 → agree_on (used_area base T') m2 m3 → agree_on (used_area base T) m1 m3.
Proof.
  intros He H1 H2. eapply agree_on_trans; [exact H1|]. eapply agree_on_sub; [exact H2|].
  intros x. by apply used_area_eq.
Qed.

Lemma bd_split_loop_spec n : ∀ a m T F off o,
  bd_core a m T F → T !! off = Some (o, BHand) → only_hand T off → coalesced (max_order a) T →
  min_order a ≤ o - Z.of_nat n →
  ∃ a' m' T' F', bd_split_loop a m (bd_mem a + off) o n = Ok (a', m') ∧ bd_same a a' ∧
    bd_core a' m' T' F' ∧ T' !! off = Some (o - Z.of_nat n, BHand) ∧ only_hand T' off ∧
    coalesced (max_order a) T' ∧ used_eq T T' ∧ agree_on (used_area (bd_mem a) T) m m'.
Proof.
  induction n as [|n IH]; intros a m T F off o Hc Hoff Honly Hco Hn.
  { exists a, m, T, F. split_and!; try done. by rewrite Z.sub_0_r. }
  assert (T !! off = Some (o - 1 + 1, BHand)) as Hoff' by (by replace (o - 1 + 1) with o by lia).
  destruct (bd_split_core a m T F off (o - 1) Hc Hoff' ltac:(lia)) as [Hnone Hc1].
  pose proof (core_block _ _ _ _ Hc _ _ _ Hoff) as (? & ? & ? & ? & Hd & _).
  pose proof (pow2_pos (o - 1) ltac:(lia)) as Hpos. set (y := off + 2 ^ (o - 1)) in *.
  set (T1 := <[y := (o - 1, BHand)]> (<[off := (o - 1, BHand)]> T)) in *.
  assert (T1 !! y = Some (o - 1, BHand)) as Hy1 by apply lookup_insert_eq.
  assert (T1 !! off = Some (o - 1, BHand)) as Ho1
    by (unfold T1; rewrite lookup_insert_ne by (unfold y; lia); apply lookup_insert_eq).
  destruct (bd_push_core a m T1 F y (o - 1) Hc1 Hy1) as (a2 & m2 & F2 & E2 & Hs2 & Hc2 & Hag2).
  set (T2 := <[y := (o - 1, BFree)]> T1) in *.
  assert (T2 !! off = Some (o - 1, BHand)) as Ho2 by (unfold T2; by rewrite lookup_insert_ne by (unfold y; lia)).
  assert (used_eq T T1) as He1.
  { transitivity (<[off := (o - 1, BHand)]> T); [by eapply used_eq_update|].
    apply used_eq_insert; [|done]. by rewrite lookup_insert_ne by (unfold y; lia). }
  assert (used_eq T1 T2) as He2 by (by eapply used_eq_update).
  destruct Hs2 as (Em & Ec & Emn & Emx & Est).
  assert (buddy_off y (o - 1) = off) as Eb.
  { apply buddy_off_upper; [lia|]. by replace (o - 1 + 1) with o by lia. }
  destruct (IH a2 m2 T2 F2 off (o - 1) Hc2 Ho2) as (a3 & m3 & T3 & F3 & E3 & Hs3 & Hc3 & Ho3 & Hon3 & Hco3 & He3 & Hag3).
  - intros x k Hx. unfold T2, T1 in Hx. destruct (decide (x = y)) as [->|];
      [rewrite lookup_insert_eq in Hx; congruence|rewrite !lookup_insert_ne in Hx by done].
    destruct (decide (x = off)) as [|]; [done|]. rewrite lookup_insert_ne in Hx by done. by apply (Honly x k).
  - rewrite Emx. apply (coalesced_free _ T1 y (o - 1) BHand); [|done|lia|].
    + apply (coalesced_sub _ T); [done|]. intros x k Hx.
      apply lookup_insert_Some in Hx as [[_ [=]]|[_ Hx]]. by apply lookup_insert_Some in Hx as [[_ [=]]|[_ Hx]].
    + right. rewrite Eb, Ho1. congruence.
  - rewrite Emn. lia.
  - exists a3, m3, T3, F3. cbn [bd_split_loop]. rewrite Z.shiftl_1_l.
    replace (bd_mem a + off + 2 ^ (o - 1)) with (bd_mem a + y) by (unfold y; lia). rewrite E2. cbn [mbind outcome_bind].
    rewrite Em, Emx in *. split; [done|]. split; [by eapply bd_same_trans; [|done]|].
    replace (o - Z.of_nat (S n)) with (o - 1 - Z.of_nat n) by lia. split_and!; try done.
    + transitivity T1; [done|]. by transitivity T2.
    + assert (used_eq T T2) as He by (by transitivity T1). apply (agree_used_trans _ T T2 _ m2); [done| |done].
      eapply agree_on_sub; [exact Hag2|]. intros x. by apply used_area_eq.
Qed.

Lemma bd_is_free_at_core a m T F off o k s : bd_core a m T F → T !! off = Some (k, s) → s ≠ BHand → 
  bd_is_free_at a (bd_mem a + off) o = Ok (bool_decide (s = BFree ∧ k = o)).
Proof.
  intros Hc Hoff Hs. pose proof (core_block _ _ _ _ Hc _ _ _ Hoff) as (? & ? & _ & _ & _ & _ & _ & _ & _ & ?).
  pose proof (core_slot _ _ _ _ Hc _ _ _ Hoff) as [Es Hslot]. unfold bd_is_free_at. rewrite Es.
  rewrite (arr_get_ok _ _ _ (proj1 Hslot) (bc_map _ _ _ _ Hc _ _ _ Hoff Hs)). cbn [mbind outcome_bind].
  destruct (enc_bytes k ltac:(lia)) as (_ & _ & (F1 & F2 & F3) & (U1 & U2 & U3)). f_equal. symmetry.
  destruct s; [|clear F1 F2 F3|done].
  - rewrite (proj2 (Z.eqb_neq _ _) F1), F2, F3. simpl. destruct (Z.eqb_spec k o).
    + by apply bool_decide_eq_true_2.
    + apply bool_decide_eq_false_2. by intros [_ ?].
  - rewrite (proj2 (Z.eqb_neq _ _) U2), andb_false_r. done.
Qed.

(** One round of merging: the free buddy is unlinked and joined. *)
Lemma bd_join_core a m T F off o :
  bd_core a m T F → T !! off = Some (o, BHand) → only_hand T off → coalesced (max_order a) T →
  o < max_order a → T !! buddy_off off o = Some (o, BFree) →
  let x := merge_off off o in
  ∃ a' m' T' F', bd_unlink a m (bd_mem a + buddy_off off o) o = Ok (a', m') ∧ bd_same a a' ∧
    bd_core a' m' T' F' ∧ T' !! x = Some (o + 1, BHand) ∧ only_hand T' x ∧ coalesced (max_order a) T' ∧
    used_eq T T' ∧ agree_on (used_area (bd_mem a) T) m m'.
Proof.
  intros Hc Hoff Honly Hco Ho Hb x. set (b := buddy_off off o) in *.
  destruct (bd_unlink_core a m T F b o Hc Hb) as (a1 & m1 & l1 & E1 & Hs1 & Hc1 & Hag1).
  set (T1 := <[b := (o, BHand)]> T) in *. assert (b ≠ off) as Hne by congruence.
  assert (T1 !! b = Some (o, BHand)) as Hb1 by apply lookup_insert_eq.
  assert (T1 !! off = Some (o, BHand)) as Ho1 by (unfold T1; by rewrite lookup_insert_ne).
  assert (off = x ∧ b = x + 2 ^ o ∨ off = x + 2 ^ o ∧ b = x) as Hhalf by apply buddy_halves.
  pose proof (core_block _ _ _ _ Hc _ _ _ Hoff) as (? & ? & ? & ? & Hd & _).
  pose proof (merge_off_divide off o ltac:(lia) Hd) as Hdx. fold x in Hdx. clearbody x b.
  assert (T1 !! x = Some (o, BHand) ∧ T1 !! (x + 2 ^ o) = Some (o, BHand)) as [Hx1 Hy1]
    by (destruct Hhalf as [[<- <-]|[<- <-]]; done).
  pose proof Hs1 as (Em & Ec & Emn & Emx & Est). pose proof (pow2_pos o ltac:(lia)).
  pose proof (bd_merge_core a1 m1 T1 _ x o Hc1 Hx1 Hy1 ltac:(lia) Hdx) as Hc2.
  eexists a1, m1, _, _. split; [done|]. split; [done|]. split; [exact Hc2|].
  split; [apply lookup_insert_eq|].
  assert (∀ z k s, <[x := (o + 1, BHand)]> (delete (x + 2 ^ o) T1) !! z = Some (k, s) → z = x ∨ T !! z = Some (k, s)) as Hinv.
  { intros z k s Hz. apply lookup_insert_Some in Hz as [[<- _]|[Hzx Hz]]; [by left|right].
    apply lookup_delete_Some in Hz as [Hzy Hz]. apply lookup_insert_Some in Hz as [[<- _]|[_ Hz]]; [lia|done]. }
  split_and!.
  - intros z k Hz. destruct (Hinv _ _ _ Hz) as [|HT]; [done|]. apply lookup_insert_Some in Hz as [[<- _]|[Hzx Hz]]; [done|].
    apply lookup_delete_Some in Hz as [Hzy _]. apply Honly in HT. lia.
  - apply (coalesced_sub _ T); [done|]. intros z k Hz. destruct (Hinv _ _ _ Hz) as [->|]; [|done].
    rewrite lookup_insert_eq in Hz. congruence.
  - transitivity T1; [by eapply used_eq_update|]. transitivity (delete (x + 2 ^ o) T1); [by eapply used_eq_delete|].
    eapply used_eq_update; [rewrite lookup_delete_ne by lia; exact Hx1|done|done].
  - done.
Qed.

Lemma bd_merge_loop_spec n : ∀ a m T F off o,
  bd_core a m T F → T !! off = Some (o, BHand) → only_hand T off → coalesced (max_order a) T →
  Z.of_nat n = max_order a - o →
  ∃ a' m' T' F' off' o', bd_merge_loop a m off o n = Ok (a', m', off', o') ∧ bd_same a a' ∧
    bd_core a' m' T' F' ∧ T' !! off' = Some (o', BHand) ∧ only_hand T' off' ∧ coalesced (max_order a) T' ∧
    (o' = max_order a ∨ T' !! buddy_off off' o' ≠ Some (o', BFree)) ∧
    used_eq T T' ∧ agree_on (used_area (bd_mem a) T) m m'.
Proof.
  induction n as [|n IH]; intros a m T F off o Hc Hoff Honly Hco Hn.
  { exists a, m, T, F, off, o. split_and!; try done. left. lia. }
  pose proof (core_block _ _ _ _ Hc _ _ _ Hoff) as (? & ? & ? & ? & Hd & ? & _ & ? & ? & ?).
  cbn [bd_merge_loop]. rewrite (proj2 (Z.ltb_lt _ _)) by lia. rewrite lxor_pow2 by lia.
  destruct (part_buddy _ _ _ _ _ _ (bc_part _ _ _ _ Hc) Hoff ltac:(lia)) as (k & t & Hb & Hk).
  assert (buddy_off off o ≠ off) as Hne.
  { unfold buddy_off. destruct (Z.testbit off o); lia. }
  assert (t ≠ BHand) as Ht by (intros ->; by apply Hne, (Honly _ k)).
  rewrite (bd_is_free_at_core _ _ _ _ _ o _ _ Hc Hb Ht). cbn [mbind outcome_bind].
  case_bool_decide as Hfree; cbn [negb].
  - destruct Hfree as [-> ->].
    destruct (bd_join_core a m T F off o Hc Hoff Honly Hco ltac:(lia) Hb)
      as (a1 & m1 & T1 & F1 & E1 & Hs1 & Hc1 & Hx1 & Hon1 & Hco1 & He1 & Hag1).
    rewrite E1. cbn [mbind outcome_bind]. rewrite land_not_pow2 by (ulia || lia).
    pose proof Hs1 as (Em & Ec & Emn & Emx & Est).
    destruct (IH a1 m1 T1 F1 (merge_off off o) (o + 1) Hc1 Hx1 Hon1) as (a2 & m2 & T2 & F2 & off2 & o2 & E2 & Hs2 & Hc2 & Hx2 & Hon2 & Hco2 & Hfin & He2 & Hag2).
    + by rewrite Emx.
    + lia.
    + rewrite Em, Emx in *. exists a2, m2, T2, F2, off2, o2. split_and!; try done.
      * by eapply bd_same_trans.
      * by transitivity T1.
      * by apply (agree_used_trans _ T T1 _ m1).
  - exists a, m, T, F, off, o. split_and!; try done. right. rewrite Hb. intros [= -> ->]. by apply Hfree.
Qed.
