(* ===== verification/BuddySpec.v ===== *)
(** * The buddy allocator: what it promises

    Allocation and free in terms of partitions, the interface of [Allocator],
    the layout walk, and the requests the code mishandles. *)

From S2P Require Import Prelude Memory Platform Allocator Links Buddy BuddyPart BuddyLists BuddyProofs.

(** The invariant between calls: nothing is in the hand, no two free blocks
    are buddies, and [used] counts the used blocks. *)
Record bd_wf (a : bd_alloc) (m : mem) (T : part_map) (F : Z → list Z) : Prop := {
  bw_core : bd_core a m T F;
  bw_hand : ∀ x k, T !! x ≠ Some (k, BHand);
  bw_coal : coalesced (max_order a) T;
  bw_used : used (bd_stats a) = used_sum T
}.

Lemma bd_core_stats a m T F st : bd_core a m T F → bd_core (bd_set_stats a st) m T F.
Proof. intros [Hg ? ? ? ? ? ? ?]. split; try done. by destruct Hg; split. Qed.

(** ** Orders *)

(** The order of the blocks that serve [bytes]. *)
Definition order_spec (mn bytes : Z) : Z := Z.max mn (Z.log2_up bytes).

Lemma order_for_spec a bytes : 1 ≤ bytes ≤ 2 ^ 63 → order_for a bytes = order_spec (min_order a) bytes.
Proof.
  intros Hb. unfold order_for, order_spec. rewrite hf_next_pow2_log2_up by lia.
  pose proof (Z.log2_up_nonneg bytes).
  assert (Z.log2_up bytes ≤ 63) by (rewrite <- (Z.log2_up_pow2 63) by lia; apply Z.log2_up_le_mono; lia).
  pose proof (pow2_pos (Z.log2_up bytes) ltac:(lia)). pose proof (pow2_lt_mono (Z.log2_up bytes) 64 ltac:(lia)).
  rewrite hf_log2_floor_pos, Z.log2_pow2 by lia. case_if; lia.
Qed.

Lemma order_spec_fits mn bytes : 0 ≤ mn → 1 ≤ bytes → bytes ≤ 2 ^ order_spec mn bytes.
Proof.
  intros Hmn Hb. unfold order_spec. pose proof (Z.log2_up_nonneg bytes).
  assert (bytes ≤ 2 ^ Z.log2_up bytes).
  { destruct (decide (bytes = 1)) as [->|]; [done|]. apply Z.log2_up_spec. lia. }
  pose proof (pow2_le_mono (Z.log2_up bytes) (Z.max mn (Z.log2_up bytes)) ltac:(lia)). lia.
Qed.

Lemma order_spec_least mn bytes : 0 ≤ mn → mn < order_spec mn bytes → 2 ^ (order_spec mn bytes - 1) < bytes.
Proof.
  unfold order_spec. intros Hmn H. assert (Z.max mn (Z.log2_up bytes) = Z.log2_up bytes) as -> by lia.
  assert (1 < bytes) as Hb.
  { destruct (decide (1 < bytes)); [done|]. rewrite (Z.log2_up_eqn0 bytes) in H by lia. lia. }
  apply (Z.log2_up_spec bytes Hb).
Qed.

Lemma bd_need_spec size al : request_ok size → 0 ≤ al ≤ 2 ^ 62 →
  bd_need size al = (if al >? size + 16 then al + 16 else size + 16).
Proof.
  unfold request_ok. intros Hs Ha. unfold bd_need, BD_HDR. rewrite wrap64_small by ulia.
  case_if; [apply wrap64_small; ulia|done].
Qed.

(** ** The search for a non-empty list *)

Lemma bd_search_spec n : ∀ a m T F o, bd_core a m T F → 0 ≤ o → Z.of_nat n = max_order a + 1 - o →
  ∃ o', bd_search a o n = Ok o' ∧ o ≤ o' ≤ max_order a + 1 ∧
    (∀ x k, o ≤ k < o' → T !! x ≠ Some (k, BFree)) ∧
    (o' ≤ max_order a → ∃ nd t, F o' = nd :: t).
Proof.
  induction n as [|n IH]; intros a m T F o Hc Ho Hn.
  { exists o. split_and!; try done; try lia. }
  cbn [bd_search]. rewrite (proj2 (Z.leb_le _ _)) by lia.
  rewrite (arr_get_ok _ _ _ Ho (bc_head _ _ _ _ Hc o ltac:(lia))). cbn [mbind outcome_bind].
  destruct (F o) as [|nd t] eqn:EF; simpl.
  - destruct (IH a m T F (o + 1) Hc ltac:(lia) ltac:(lia)) as (o' & E & Hr & Hno & Hyes).
    exists o'. split_and!; try done; try lia. intros x k Hk Hx. destruct (decide (k = o)) as [->|].
    + assert (bd_mem a + x ∈ F o) as Hin.
      { apply (bc_nodes _ _ _ _ Hc); [lia|]. by replace (bd_mem a + x - bd_mem a) with x by lia. }
      rewrite EF in Hin. elem.
    + apply (Hno x k); [lia|done].
  - assert (nd ∈ F o) as Hin by (rewrite EF; left).
    pose proof (loose_ok _ _ _ _ Hc _ (loose_list _ _ _ _ Hc o ltac:(lia)) (bc_nodup _ _ _ _ Hc o ltac:(lia))) as Hok.
    pose proof (node_aligned _ nd Hok Hin). rewrite (proj2 (Z.eqb_neq _ _)) by lia.
    exists o. split_and!; try done; try lia. intros _. eauto.
Qed.

(** ** Allocation *)

(** The calls of [bd_allocate] once a list with a block has been found. *)
Lemma bd_carve_core a m T F o order off t :
  bd_core a m T F → (∀ x k, T !! x ≠ Some (k, BHand)) → coalesced (max_order a) T →
  F o = bd_mem a + off :: t → min_order a ≤ order ≤ o → o ≤ max_order a →
  ∃ a1 m1 a2 m2 a3 T' F', T !! off = Some (o, BFree) ∧
    bd_pop a m o = Ok (a1, m1, bd_mem a + off) ∧
    bd_split_loop a1 m1 (bd_mem a + off) o (Z.to_nat (o - order)) = Ok (a2, m2) ∧
    bd_mark_used a2 (bd_mem a + off) order = Ok a3 ∧ bd_same a a3 ∧
    bd_core a3 (store64 m2 (bd_mem a + off) order) T' F' ∧ T' !! off = Some (order, BUsed) ∧
    (∀ x k, x ≠ off → T' !! x = Some (k, BUsed) ↔ T !! x = Some (k, BUsed)) ∧
    (∀ x k, T' !! x ≠ Some (k, BHand)) ∧ coalesced (max_order a) T' ∧
    used_sum T' = used_sum T + 2 ^ order ∧
    agree_on (used_area (bd_mem a) T) m (store64 m2 (bd_mem a + off) order).
Proof.
  intros Hc Hhand Hco EF Hord Hmx. pose proof (bg_orders _ (bc_geo _ _ _ _ Hc)) as Hg.
  destruct (bd_pop_core a m T F o _ t Hc ltac:(lia) EF) as (Hoff & a1 & m1 & E1 & Hs1 & Hc1 & Hag1).
  replace (bd_mem a + off - bd_mem a) with off in * by lia.
  set (T1 := <[off := (o, BHand)]> T) in *. pose proof Hs1 as (Em & Ec & Emn & Emx & Est).
  destruct (bd_split_loop_spec (Z.to_nat (o - order)) a1 m1 T1 (upd F o t) off o Hc1)
    as (a2 & m2 & T2 & F2 & E2 & Hs2 & Hc2 & Ho2 & Hon2 & Hco2 & He2 & Hag2).
  { apply lookup_insert_eq. }
  { intros x k Hx. apply lookup_insert_Some in Hx as [[<- _]|[_ Hx]]; [done|]. by destruct (Hhand x k). }
  { rewrite Emx. apply (coalesced_sub _ T); [done|]. intros x k Hx. by apply lookup_insert_Some in Hx as [[_ [=]]|[_ Hx]]. }
  { lia. }
  replace (o - Z.of_nat (Z.to_nat (o - order))) with order in Ho2 by lia.
  pose proof Hs2 as (Em2 & Ec2 & Emn2 & Emx2 & Est2). rewrite Em in E2, Hag2, Em2. rewrite Emx in Hco2.
  destruct (bd_use_core a2 m2 T2 F2 off order Hc2 Ho2) as (a3 & E3 & Hs3 & Hc3 & Hag3). rewrite Em2 in E3, Hc3, Hag3.
  assert (used_eq T T1) as He1 by (by eapply used_eq_update).
  assert (used_eq T T2) as He by (by transitivity T1).
  exists a1, m1, a2, m2, a3, (<[off := (order, BUsed)]> T2), F2. split_and!; try done.
  - eapply bd_same_trans; [exact Hs1|]. by eapply bd_same_trans.
  - apply lookup_insert_eq.
  - intros x k Hx. rewrite lookup_insert_ne by done. apply He.
  - intros x k Hx. apply lookup_insert_Some in Hx as [[_ [=]]|[Hne Hx]]. by apply Hon2 in Hx.
  - apply (coalesced_sub _ T2); [done|]. intros x k Hx. by apply lookup_insert_Some in Hx as [[_ [=]]|[_ Hx]].
  - rewrite (used_sum_update _ _ _ _ Ho2), (used_sum_eq T T2 He). unfold block_used. simpl. lia.
  - apply (agree_used_trans _ T T1 _ m1); [done|done|]. by apply (agree_used_trans _ T1 T2 _ m2).
Qed.

Lemma bd_allocate_core a m T F size al : bd_wf a m T F → request_ok size → 0 ≤ al ≤ 2 ^ 62 →
  let order := order_spec (min_order a) (bd_need size al) in
  ∃ a' m' p, bd_allocate a m size al = Ok (a', m', p) ∧ bd_mem a' = bd_mem a ∧ max_order a' = max_order a ∧
    min_order a' = min_order a ∧
    ((p = NULL ∧ m' = m ∧ bd_wf a' m T F ∧ (∀ x k, T !! x = Some (k, BFree) → k < order) ∧
      a' = bd_set_stats a (bump_failed (bump_alloc (bd_stats a)))) ∨
     (∃ off o T' F', p = bd_mem a + off + 16 ∧ T !! off = Some (o, BFree) ∧ order ≤ o ∧
        (∀ x k, T !! x = Some (k, BFree) → order ≤ k → o ≤ k) ∧
        bd_wf a' m' T' F' ∧ T' !! off = Some (order, BUsed) ∧
        (∀ x k, x ≠ off → T' !! x = Some (k, BUsed) ↔ T !! x = Some (k, BUsed)) ∧
        agree_on (used_area (bd_mem a) T) m m' ∧
        bd_stats a' = raise_peak (set_used (used (bd_stats a) + 2 ^ order) (bump_alloc (bd_stats a))))).
Proof.
  intros [Hc Hhand Hco Hused] Hs Hal order. pose proof (bc_geo _ _ _ _ Hc) as Hg.
  pose proof (bg_orders _ Hg) as Hord. unfold request_ok in Hs.
  assert (1 ≤ bd_need size al ≤ 2 ^ 63) as Hneed by (rewrite bd_need_spec by done; case_if; lia).
  unfold bd_allocate. rewrite (order_for_spec a _ Hneed). fold order.
  assert (min_order a ≤ order) as Hmn by (unfold order, order_spec; lia).
  set (a0 := bd_set_stats a (bump_alloc (bd_stats a))).
  assert (bd_core a0 m T F) as Hc0 by (by apply bd_core_stats).
  change (max_order a0) with (max_order a).
  assert (∀ st, used st = used (bd_stats a) → bd_wf (bd_set_stats a st) m T F) as Hsame.
  { intros st Hst. split; [by apply bd_core_stats|done|done|]. simpl. by rewrite Hst. }
  destruct (order >? max_order a) eqn:E1; zb.
  { eexists _, _, _. split; [reflexivity|]. do 3 (split; [done|]). left. split_and!; try done; [by apply Hsame|].
    intros x k Hx. pose proof (core_block _ _ _ _ Hc _ _ _ Hx). lia. }
  destruct (bd_search_spec (Z.to_nat (max_order a + 1 - order)) a0 m T F order Hc0 ltac:(lia)) as (o & -> & Hr & Hno & Hyes).
  { change (max_order a0) with (max_order a). lia. }
  change (max_order a0) with (max_order a) in Hr, Hyes. cbn [mbind outcome_bind].
  destruct (o >? max_order a) eqn:E2; zb.
  { eexists _, _, _. split; [reflexivity|]. do 3 (split; [done|]). left. split_and!; try done; [by apply Hsame|].
    intros x k Hx. pose proof (core_block _ _ _ _ Hc _ _ _ Hx). destruct (decide (order ≤ k)); [|lia].
    exfalso. by apply (Hno x k); [lia|]. }
  destruct (Hyes ltac:(lia)) as (nd & t & EF).
  assert (∃ off, nd = bd_mem a0 + off) as [off ->] by (exists (nd - bd_mem a0); lia).
  destruct (bd_carve_core a0 m T F o order off t Hc0 Hhand Hco EF ltac:(simpl; lia) ltac:(simpl; lia))
    as (a1 & m1 & a2 & m2 & a3 & T' & F' & Hoff & -> & E3 & E4 & Hs3 & Hc3 & Ho3 & Hu3 & Hh3 & Hco3 & Hsum & Hag).
  cbn [mbind outcome_bind]. rewrite E3. cbn [mbind outcome_bind]. rewrite E4. cbn [mbind outcome_bind].
  pose proof Hs3 as (Em & Ec & Emn & Emx & Est). simpl in Em, Emx, Emn.
  pose proof (used_sum_bounds _ _ _ (bc_part _ _ _ _ Hc3)) as Hb. rewrite Emx in Hb.
  pose proof (pow2_le_mono (max_order a) 62 ltac:(lia)).
  rewrite Est. simpl (used (bd_stats a0)). rewrite Z.shiftl_1_l, (wrap64_small (used (bd_stats a) + 2 ^ order)) by ulia.
  eexists _, _, _. split; [reflexivity|]. do 3 (split; [done|]). right. exists off, o, T', F'.
  split_and!; try done; try lia.
  - intros x k Hx Hk. destruct (decide (o ≤ k)); [done|]. exfalso. by apply (Hno x k); [lia|].
  - split; [by apply bd_core_stats|done|simpl; by rewrite Emx|]. simpl. lia.
Qed.

(** ** Free *)

Lemma bd_deallocate_core nd a m T F off o : bd_wf a m T F → T !! off = Some (o, BUsed) →
  ∃ a' m' T' F', bd_deallocate nd a m (bd_mem a + off + 16) = Ok (a', m') ∧
    bd_mem a' = bd_mem a ∧ max_order a' = max_order a ∧ min_order a' = min_order a ∧ bd_wf a' m' T' F' ∧
    (∀ x k, T' !! x = Some (k, BUsed) ↔ x ≠ off ∧ T !! x = Some (k, BUsed)) ∧
    agree_on (used_area (bd_mem a) (delete off T)) m m' ∧
    bd_stats a' = set_used (used (bd_stats a) - 2 ^ o) (bump_free (bd_stats a)).
Proof.
  intros [Hc Hhand Hco Hused] Hoff.
  pose proof (core_block _ _ _ _ Hc _ _ _ Hoff) as (B1 & B2 & B3 & B4 & B5 & B6 & B7 & B8 & B9 & B10).
  unfold bd_deallocate, BD_HDR. rewrite (proj2 (Z.eqb_neq _ 0)) by lia.
  replace (bd_mem a + off + 16 - 16) with (bd_mem a + off) by lia.
  rewrite (bc_tag _ _ _ _ Hc _ _ Hoff). replace (wrap32 o) with o by (unfold wrap32; rewrite Z.mod_small; lia).
  cbn [min_order max_order bd_set_stats bd_mem bd_stats].
  step_assert by (rewrite andb_true_iff; split; [apply Z.geb_le|apply Z.leb_le]; lia).
  destruct (o >=? 64) eqn:E64; zb; [lia|].
  assert (used_sum T - 2 ^ o = used_sum (<[off := (o, BHand)]> T)) as Hsum.
  { rewrite (used_sum_update _ _ _ _ Hoff). unfold block_used. simpl. lia. }
  pose proof (bd_hold_core a m T F off o Hc Hoff) as Hc0. set (T0 := <[off := (o, BHand)]> T) in *.
  pose proof (used_sum_bounds _ _ _ (bc_part _ _ _ _ Hc0)) as Hb0.
  pose proof (used_sum_bounds _ _ _ (bc_part _ _ _ _ Hc)) as Hb.
  pose proof (pow2_le_mono (max_order a) 62 ltac:(lia)).
  replace (bd_mem a + off - bd_mem a) with off by lia. rewrite (wrap64_small off) by ulia.
  rewrite Z.shiftl_1_l. cbn [used bump_free]. rewrite (wrap64_small (used (bd_stats a) - 2 ^ o)) by ulia.
  set (st := set_used _ _). set (a1 := bd_set_stats _ st).
  assert (bd_core a1 m T0 F) as Hc1 by (by repeat apply bd_core_stats).
  destruct (bd_merge_loop_spec (Z.to_nat (max_order a - o)) a1 m T0 F off o Hc1)
    as (a2 & m2 & T2 & F2 & off2 & o2 & E2 & Hs2 & Hc2 & Ho2 & Hon2 & Hco2 & Hfin & He2 & Hag2).
  { apply lookup_insert_eq. }
  { intros x k Hx. apply lookup_insert_Some in Hx as [[<- _]|[_ Hx]]; [done|]. by destruct (Hhand x k). }
  { apply (coalesced_sub _ T); [done|]. intros x k Hx. by apply lookup_insert_Some in Hx as [[_ [=]]|[_ Hx]]. }
  { simpl. lia. }
  change (max_order a1) with (max_order a) in E2, Hco2, Hfin. rewrite E2. cbn [mbind outcome_bind].
  pose proof Hs2 as (Em & Ec & Emn & Emx & Est). simpl in Em, Emx, Emn, Est.
  destruct (bd_push_core a2 m2 T2 F2 off2 o2 Hc2 Ho2) as (a3 & m3 & F3 & E3 & Hs3 & Hc3 & Hag3).
  rewrite E3. pose proof Hs3 as (Em3 & Ec3 & Emn3 & Emx3 & Est3).
  pose proof (core_block _ _ _ _ Hc2 _ _ _ Ho2) as (C1 & C2 & _).
  assert (used_eq T2 (<[off2 := (o2, BFree)]> T2)) as He3 by (by eapply used_eq_update).
  assert (used_eq T0 (<[off2 := (o2, BFree)]> T2)) as He by (by transitivity T2).
  exists a3, m3, (<[off2 := (o2, BFree)]> T2), F3. split; [done|]. do 3 (split; [congruence|]). split_and!.
  - split; [done|..].
    + intros x k Hx. apply lookup_insert_Some in Hx as [[_ [=]]|[Hne Hx]]. by apply Hon2 in Hx.
    + rewrite Emx3, Emx. apply (coalesced_free _ T2 off2 o2 BHand); [done|done|lia|done].
    + rewrite Est3, Est, (used_sum_eq T0 _ He). simpl. lia.
  - intros x k. etransitivity; [apply He|]. unfold T0. rewrite lookup_insert_Some. split; [intros [[_ [=]]|?]|intros]; naive_solver.
  - assert (∀ x, used_area (bd_mem a) (delete off T) x → used_area (bd_mem a) T0 x) as Hsub.
    { intros x (y & k & Hy & Hr). apply lookup_delete_Some in Hy as [? Hy]. exists y, k. split; [|done].
      unfold T0. by rewrite lookup_insert_ne. }
    eapply agree_on_sub; [|exact Hsub]. apply (agree_used_trans _ T0 T2 _ m2); [done|exact Hag2|]. by rewrite Em in Hag3.
  - by rewrite Est3, Est.
Qed.

(** ** The interface *)

(** The used blocks are the live ones. *)
Definition bd_live (base : Z) (T : part_map) (L : live_map) : Prop :=
  (∀ p n, L !! p = Some n → 0 ≤ n ∧ ∃ o, T !! (p - 16 - base) = Some (o, BUsed) ∧ n + 16 ≤ 2 ^ o) ∧
  (∀ off o, T !! off = Some (o, BUsed) → is_Some (L !! (base + off + 16))).

Definition bd_inv (a : bd_alloc) (m : mem) (L : live_map) : Prop :=
  ∃ T F, bd_wf a m T F ∧ bd_live (bd_mem a) T L.

Lemma bd_live_area base T L x : bd_live base T L → in_live L x → used_area base T x.
Proof.
  intros [H _] (p & n & Hp & Hr). destruct (H p n Hp) as (_ & o & Ho & Hn).
  exists (p - 16 - base), o. split; [done|rlia].
Qed.

(** A block becomes used, and live. *)
Lemma bd_live_insert base T T' L off order size : bd_live base T L → (∀ k, T !! off ≠ Some (k, BUsed)) →
  T' !! off = Some (order, BUsed) → (∀ x k, x ≠ off → T' !! x = Some (k, BUsed) ↔ T !! x = Some (k, BUsed)) →
  0 ≤ size → size + 16 ≤ 2 ^ order →
  (∀ q k, L !! q = Some k → q - 16 - base ≠ off) ∧ L !! (base + off + 16) = None ∧
  bd_live base T' (<[base + off + 16 := size]> L).
Proof.
  intros [HL1 HL2] Hoff Ho' Hu Hs Hfit.
  assert (∀ q k, L !! q = Some k → q - 16 - base ≠ off) as Hne.
  { intros q k Hq E'. destruct (HL1 q k Hq) as (_ & j & Hj & _). rewrite E' in Hj. by destruct (Hoff j). }
  split; [done|]. split; [destruct (L !! _) as [k|] eqn:Hq; [|done]; exfalso; apply (Hne _ _ Hq); lia|]. split.
  - intros q k Hq. apply lookup_insert_Some in Hq as [[<- <-]|[_ Hq]].
    + split; [lia|]. exists order. replace (base + off + 16 - 16 - base) with off by lia. done.
    + destruct (HL1 q k Hq) as (? & j & Hj & ?). split; [done|]. exists j. split; [|done]. apply Hu; [by eapply Hne|done].
  - intros x j Hx. apply lookup_insert_is_Some'. destruct (decide (x = off)) as [->|]; [by left|right].
    apply (HL2 x j). by apply Hu.
Qed.

(** A used block becomes free, and dead. *)
Lemma bd_live_delete base T T' L off : bd_live base T L →
  (∀ x k, T' !! x = Some (k, BUsed) ↔ x ≠ off ∧ T !! x = Some (k, BUsed)) → bd_live base T' (delete (base + off + 16) L).
Proof.
  intros [HL1 HL2] Hu. split.
  - intros q k Hq. apply lookup_delete_Some in Hq as [? Hq]. destruct (HL1 q k Hq) as (? & j & Hj & ?). split; [done|].
    exists j. split; [|done]. apply Hu. split; [lia|done].
  - intros x j Hx. apply Hu in Hx as [Hne Hx]. rewrite lookup_delete_ne by lia. by apply (HL2 x j).
Qed.

(** Bytes behind the tags are the clients'. *)
Lemma bd_wf_payload a m m' T F L : bd_wf a m T F → bd_live (bd_mem a) T L →
  agree_on (λ x, ¬ in_live L x) m m' → bd_wf a m' T F.
Proof.
  intros [Hc Hh Hco Hu] Hlv Hag. pose proof Hlv as [HL _]. split; try done. pose proof Hc as [Hg Hp Hmap Hhd Hl Hnd Hn Ht]. split; try done.
  - intros o Ho. eapply dseg_agree; [|by apply Hl]. intros x Hx. apply Hag. intros Hlive.
    apply (loose_used _ _ _ _ Hc (F o) x (loose_list _ _ _ _ Hc o Ho) Hx).
    by apply (bd_live_area _ _ L).
  - intros off o Hoff. transitivity (load64 m (bd_mem a + off)); [|by apply Ht]. apply load64_agree. intros x Hx. apply Hag.
    intros (p & n & Hpn & Hr). destruct (HL p n Hpn) as (_ & k & Hk & Hle).
    pose proof (core_block _ _ _ _ Hc _ _ _ Hoff) as (_ & _ & _ & _ & _ & ? & _).
    destruct (decide (p - 16 - bd_mem a = off)) as [E|Hne]; [rlia|].
    apply (core_apart _ _ _ _ Hc _ _ _ _ _ _ Hk Hoff Hne x); rlia.
Qed.

Lemma bd_inv_allocate a m L size : bd_inv a m L → request_ok size →
  ∃ a' m' p, bd_allocate a m size HF_DEFAULT_ALIGN = Ok (a', m', p) ∧
    agree_on (in_live L) m m' ∧
    ((p = NULL ∧ bd_inv a' m' L) ∨
     (p ≠ NULL ∧ L !! p = None ∧ apart L p size ∧ bd_inv a' m' (<[p := size]> L))).
Proof.
  intros (T & F & Hwf & Hlive) Hs. pose proof Hs as Hs'. unfold request_ok in Hs'.
  destruct (bd_allocate_core a m T F size 16 Hwf Hs ltac:(lia)) as (a' & m' & p & E & Em & Emx & Emn & Hcase).
  exists a', m', p. split; [done|].
  destruct Hcase as [(-> & -> & Hwf' & _)|(off & o & T' & F' & -> & Hoff & Ho & _ & Hwf' & Ho' & Hu & Hag & _)].
  { split; [done|]. left. split; [done|]. exists T, F. by rewrite Em. }
  split. { eapply agree_on_sub; [exact Hag|]. intros x. by apply bd_live_area. }
  right. pose proof (bw_core _ _ _ _ Hwf) as Hc. pose proof (bw_core _ _ _ _ Hwf') as Hc'.
  pose proof (core_block _ _ _ _ Hc _ _ _ Hoff) as (? & ? & ? & _ & _ & _ & _ & ? & _).
  set (order := order_spec _ _) in *.
  assert (size + 16 ≤ 2 ^ order) as Hfit.
  { pose proof (bg_orders _ (bc_geo _ _ _ _ Hc)).
    assert (bd_need size 16 = size + 16) by (rewrite bd_need_spec by (done || lia); case_if; lia).
    pose proof (order_spec_fits (min_order a) (bd_need size 16) ltac:(lia) ltac:(lia)) as Hf.
    fold order in Hf. lia. }
  destruct (bd_live_insert (bd_mem a) T T' L off order size Hlive) as (Hne & HN & Hlive'); [by intros k; rewrite Hoff|done|done|lia|done|].
  pose proof Hlive as [HL1 _]. split_and!; [lia|done| |exists T', F'; by rewrite Em].
  intros x Hx (q & k & Hq & Hr). destruct (HL1 q k Hq) as (_ & j & Hj & Hk).
  apply Hu in Hj; [|by eapply Hne]. pose proof (core_apart _ _ _ _ Hc' _ _ _ _ _ _ Ho' Hj) as Hap. rewrite Em in Hap.
  apply (Hap ltac:(apply not_eq_sym; by eapply Hne) x); rlia.
Qed.

Lemma bd_inv_deallocate nd a m L p n : bd_inv a m L → L !! p = Some n →
  ∃ a' m', bd_deallocate nd a m p = Ok (a', m') ∧
    agree_on (in_live (delete p L)) m m' ∧ bd_inv a' m' (delete p L).
Proof.
  intros (T & F & Hwf & Hlive) Hp. pose proof Hlive as [HL1 _]. destruct (HL1 p n Hp) as (Hn & o & Ho & Hle).
  set (off := p - 16 - bd_mem a) in *. assert (p = bd_mem a + off + 16) as Ep by (unfold off; lia). clearbody off. subst p.
  destruct (bd_deallocate_core nd a m T F off o Hwf Ho) as (a' & m' & T' & F' & E & Em & _ & _ & Hwf' & Hu & Hag & _).
  exists a', m'. split; [done|].
  split; [|exists T', F'; rewrite Em; split; [done|by apply (bd_live_delete _ T)]].
  eapply agree_on_sub; [exact Hag|]. intros x (q & k & Hq & Hr). apply lookup_delete_Some in Hq as [Hne Hq].
  destruct (HL1 q k Hq) as (_ & j & Hj & ?). exists (q - 16 - bd_mem a), j.
  rewrite lookup_delete_ne by lia. split; [done|rlia].
Qed.

#[global] Instance bd_spec (ndebug : bool) : AllocatorSpec HF_DEFAULT_ALIGN (2 ^ 62) bd_alloc (hf_allocator_vtable0 := BD_VT ndebug).
Proof.
  refine {| alloc_inv := bd_inv |}.
  - intros a m L p n (T & F & Hwf & [HL _]) Hp. destruct (HL p n Hp) as (? & o & Ho & Hle).
    pose proof (core_block _ _ _ _ (bw_core _ _ _ _ Hwf) _ _ _ Ho) as (_ & _ & ? & ? & _ & ? & Hd & ? & ? & _).
    split_and!; try lia. replace p with (bd_mem a + (p - 16 - bd_mem a) + 16) by lia.
    apply Z.divide_add_r; [done|by exists 1].
  - intros a m L p n q k (T & F & Hwf & [HL _]) Hp Hq Hne x Hx Hx'.
    destruct (HL p n Hp) as (_ & o & Ho & ?). destruct (HL q k Hq) as (_ & j & Hj & ?).
    apply (core_apart _ _ _ _ (bw_core _ _ _ _ Hwf) _ _ _ _ _ _ Ho Hj ltac:(lia) x); rlia.
  - intros a m L size. apply bd_inv_allocate.
  - intros a m L p n. apply bd_inv_deallocate.
  - intros a m m' L (T & F & Hwf & Hlive) Hag. exists T, F. split; [|done]. by apply (bd_wf_payload a m m' T F L).
Defined.

(** ** Creation *)

Lemma next_pow2_spec n : 1 ≤ n ≤ 2 ^ 62 →
  ∃ k, 0 ≤ k ≤ 62 ∧ hf_next_pow2 n = 2 ^ k ∧ hf_log2_floor (hf_next_pow2 n) = k ∧ n ≤ 2 ^ k.
Proof.
  intros Hn. exists (Z.log2_up n). pose proof (Z.log2_up_nonneg n).
  assert (Z.log2_up n ≤ 62) by (rewrite <- (Z.log2_up_pow2 62) by lia; apply Z.log2_up_le_mono; lia).
  pose proof (pow2_pos (Z.log2_up n) ltac:(lia)). pose proof (pow2_lt_mono (Z.log2_up n) 64 ltac:(lia)).
  rewrite hf_next_pow2_log2_up by lia. rewrite hf_log2_floor_pos, Z.log2_pow2 by lia. split_and!; try done; try lia.
  destruct (decide (n = 1)) as [->|]; [done|]. apply Z.log2_up_spec. lia.
Qed.

Lemma pow2_le_inv j k : 0 ≤ j → 0 ≤ k → 2 ^ j ≤ 2 ^ k → j ≤ k.
Proof. intros. apply (Z.pow_le_mono_r_iff 2); lia. Qed.

Lemma bd_create_wf ps mmap c1 c2 c3 m cap mb :
  page_size_ok ps → mmap_ok ps mmap → 0 ≤ cap ≤ 2 ^ 62 → 0 ≤ mb ≤ 2 ^ 62 →
  ∃ r, hf_buddy_create ps mmap c1 c2 c3 m cap mb = Ok r ∧
    ∀ a m', r = Some (a, m') → ∃ F, bd_wf a m' {[0 := (max_order a, BFree)]} F ∧
      bd_capacity a = 2 ^ max_order a ∧ cap ≤ bd_capacity a ∧ mb ≤ 2 ^ min_order a.
Proof.
  intros Hps Hmm Hcap Hmb. unfold hf_buddy_create. change (16 + BD_HDR) with 32.
  assert ((if mb <? 32 then 32 else mb) = Z.max 32 mb) as -> by (case_if; lia).
  destruct (next_pow2_spec (Z.max 32 mb) ltac:(lia)) as (mn & Hmn & -> & -> & Hle1).
  pose proof (pow2_pos mn ltac:(lia)). pose proof (pow2_le_mono mn 62 ltac:(lia)).
  assert ((if cap <? 2 ^ mn then 2 ^ mn else cap) = Z.max (2 ^ mn) cap) as -> by (case_if; lia).
  destruct (next_pow2_spec (Z.max (2 ^ mn) cap) ltac:(lia)) as (mx & Hmx & -> & -> & Hle2).
  assert (5 ≤ mn) as H5 by (apply pow2_le_inv; lia). assert (mn ≤ mx) as Hmnx by (apply pow2_le_inv; lia).
  destruct c1; [|by exists None]. cbn [negb].
  destruct (_ =? 0) eqn:Ep; [by exists None|]. zb. destruct c2, c3; try (by exists None). cbn [negb orb].
  pose proof (pow2_le_mono mx 62 ltac:(lia)). pose proof (page_size_bounds ps Hps) as (Hpb & Hp16 & _).
  set (p := hf_vm_reserve ps mmap (2 ^ mx)) in *.
  destruct (hf_vm_reserve_ok ps mmap (2 ^ mx) p Hps Hmm ltac:(lia) eq_refl Ep) as (Hp & Hpd & Hsp).
  assert (16 | p) by (by apply (Z.divide_trans _ ps)).
  set (a0 := BdAlloc _ _ _ _ _ _ _).
  assert (Z.shiftr (2 ^ mx) mn = 2 ^ (mx - mn)) as Esh.
  { rewrite Z.shiftr_div_pow2 by lia. by rewrite Z.pow_sub_r by lia. }
  pose proof (pow2_pos (mx - mn) ltac:(lia)).
  assert (bd_core a0 m {[0 := (mx, BHand)]} (λ _, [])) as Hc0.
  { split; simpl; try done.
    - split; simpl; try done; try lia; rewrite length_replicate, ?Esh; lia.
    - apply part_whole. lia.
    - intros off o s Hx. by apply lookup_singleton_Some in Hx as [<- [= <- <-]].
    - intros o Ho. apply lookup_replicate. split; [done|lia].
    - intros. constructor.
    - intros o n Ho. rewrite elem_of_nil, lookup_singleton_Some. split; [done|]. by intros [_ [=]].
    - intros off o Hx. by apply lookup_singleton_Some in Hx as [_ [=]]. }
  destruct (bd_push_core a0 m _ _ 0 mx Hc0) as (a1 & m1 & F1 & E1 & Hs1 & Hc1 & _); [apply lookup_singleton_eq|].
  simpl in E1. rewrite Z.add_0_r in E1. rewrite E1. cbn [mbind outcome_bind].
  eexists. split; [done|]. intros a m' [= <- <-]. destruct Hs1 as (Em & Ec & Emn & Emx & Est). simpl in *.
  exists F1. rewrite insert_singleton_eq, Emx in *. split; [|split_and!; rewrite ?Ec, ?Emn; try done; lia].
  split; [done|..].
  - intros x k Hx. by apply lookup_singleton_Some in Hx as [_ [=]].
  - rewrite Emx. intros x o Ho Hx. apply lookup_singleton_Some in Hx as [<- [= <-]]. lia.
  - rewrite Est. unfold used_sum. by rewrite map_fold_singleton.
Qed.

(** ** The layout *)

Lemma bd_walk_spec a m T F : bd_wf a m T F →
  ∃ bs, bd_walk a m = Ok bs ∧ tiles 0 (bd_capacity a) bs ∧ sum_sizes false bs = used_sum T ∧
    Forall (λ b, ∃ o s, T !! offset b = Some (o, s) ∧ size b = 2 ^ o ∧ is_free b = bool_decide (s = BFree)) bs.
Proof.
  intros [Hc Hh _ _]. pose proof (bc_geo _ _ _ _ Hc) as Hg. pose proof (bc_part _ _ _ _ Hc) as Hp.
  pose proof (bg_orders _ Hg) as Hord. set (mn := min_order a) in *. set (mx := max_order a) in *.
  pose proof (pow2_pos mn ltac:(lia)) as Hmn. unfold bd_walk. rewrite (bg_cap _ Hg). fold mn mx.
  assert (Z.shiftr (2 ^ mx) mn = 2 ^ (mx - mn)) as ->.
  { rewrite Z.shiftr_div_pow2 by lia. by rewrite Z.pow_sub_r by lia. }
  assert (2 ^ mx = 2 ^ (mx - mn) * 2 ^ mn) as Emx by (rewrite <- Z.pow_add_r by lia; f_equal; lia).
  cut (∀ fuel, (Z.to_nat (2 ^ (mx - mn) - 0 / 2 ^ mn) < fuel)%nat →
    ∃ bs, bd_walk_loop fuel a (0 / 2 ^ mn) (2 ^ (mx - mn)) = Ok bs ∧ tiles 0 (2 ^ mx) bs ∧
      sum_sizes false bs = used_sum (tail_part 0 T) ∧
      Forall (λ b, ∃ o s, T !! offset b = Some (o, s) ∧ size b = 2 ^ o ∧ is_free b = bool_decide (s = BFree)) bs).
  { intros H. rewrite (tail_part_all mn mx T Hp) in H. apply (H (S (Z.to_nat (2 ^ (mx - mn))))). rewrite Z.div_0_l by lia. lia. }
  apply (part_sweep mn mx T (λ off, ∀ fuel, (Z.to_nat (2 ^ (mx - mn) - off / 2 ^ mn) < fuel)%nat →
    ∃ bs, bd_walk_loop fuel a (off / 2 ^ mn) (2 ^ (mx - mn)) = Ok bs ∧ tiles off (2 ^ mx) bs ∧
      sum_sizes false bs = used_sum (tail_part off T) ∧ Forall _ bs)); [done|..].
  - intros [|fuel] Hf; [lia|]. exists []. cbn [bd_walk_loop]. rewrite Emx, Z.div_mul, Z.ltb_irrefl by lia.
    split_and!; try done. rewrite <- Emx, (tail_part_none mn mx T Hp). done.
  - intros off o s Hoff IH fuel Hf.
    pose proof (core_block _ _ _ _ Hc _ _ _ Hoff) as (K1 & K2 & K3 & K4 & K5 & K6 & _ & _ & _ & _). fold mn mx in K1, K2, K4.
    pose proof (core_slot _ _ _ _ Hc _ _ _ Hoff) as [_ Hslot]. rewrite (bg_map _ Hg) in Hslot. fold mn mx in Hslot.
    assert (s ≠ BHand) as Hs by (intros ->; by apply (Hh off o)).
    assert (2 ^ o = 2 ^ (o - mn) * 2 ^ mn) as Eo by (rewrite <- Z.pow_add_r by lia; f_equal; lia).
    pose proof (pow2_pos (o - mn) ltac:(lia)) as Hpo.
    assert ((off + 2 ^ o) / 2 ^ mn = off / 2 ^ mn + 2 ^ (o - mn)) as En by (by rewrite Eo, Z.div_add by lia).
    assert (off / 2 ^ mn * 2 ^ mn = off) as Ediv.
    { assert (2 ^ mn | off) as [i ->] by (etransitivity; [apply (pow2_divide mn o); lia|done]). by rewrite Z.div_mul by lia. }
    destruct fuel as [|fuel]; [lia|]. destruct (IH fuel) as (bs & E & Ht & Hsum & Hall); [rewrite En; lia|].
    cbn [bd_walk_loop]. rewrite (proj2 (Z.ltb_lt _ _)) by lia.
    rewrite (arr_get_ok _ _ _ (proj1 Hslot) (bc_map _ _ _ _ Hc _ _ _ Hoff Hs)). cbn [mbind outcome_bind].
    assert (Z.land (enc o s) 0x3F = o ∧ negb (Z.land (enc o s) 0x80 =? 0) = bool_decide (s = BUsed)) as [-> ->].
    { destruct (enc_bytes o ltac:(lia)) as (_ & _ & (_ & F2 & F3) & (_ & U2 & U3)).
      destruct s; [rewrite F2, F3|rewrite U3, (proj2 (Z.eqb_neq _ _) U2)|]; done. }
    rewrite (proj2 (Z.eqb_neq o 0)) by lia. cbn [andb]. rewrite Z.shiftl_1_l. fold mn.
    pose proof (pow2_le_mono (mx - mn) 62 ltac:(lia)). pose proof (pow2_le_mono mx 62 ltac:(lia)).
    assert (Z.shiftr (2 ^ o) mn = 2 ^ (o - mn)) as -> by (rewrite Z.shiftr_div_pow2, Eo, Z.div_mul by lia; done).
    assert (off / 2 ^ mn + 2 ^ (o - mn) ≤ 2 ^ (mx - mn)) by nia.
    rewrite (wrap64_small (off / 2 ^ mn + 2 ^ (o - mn))) by ulia. rewrite <- En, E. cbn [mbind outcome_bind].
    rewrite Z.shiftl_mul_pow2, Ediv, (wrap64_small off) by ulia.
    eexists. split; [reflexivity|]. cbn [tiles sum_sizes foldr offset size is_free].
    assert (negb (bool_decide (s = BUsed)) = bool_decide (s = BFree)) as Eb by (by destruct s).
    rewrite Eb. split_and!; try done; try lia.
    + rewrite (tail_part_step mn mx T off o s Hp Hoff), <- Hsum. unfold sum_sizes, block_used. by destruct s.
    + constructor; [|done]. simpl. eauto.
Qed.

(** ** An example arena *)

Definition ex_buddy : bd_alloc * mem :=
  match hf_buddy_create 4096 ex_mmap true true true ∅ 4096 64 with
  | Ok (Some am) => am
  | _ => (BdAlloc 0 0 0 0 [] [] (stats_zero 0), ∅)
  end.

Lemma ex_buddy_created :
  hf_buddy_create 4096 ex_mmap true true true ∅ 4096 64 = Ok (Some (ex_buddy.1, ex_buddy.2)).
Proof. reflexivity. Qed.

Lemma ex_buddy_wf : ∃ F, bd_wf ex_buddy.1 ex_buddy.2 {[0 := (12, BFree)]} F.
Proof.
  destruct (bd_create_wf 4096 ex_mmap true true true ∅ 4096 64 page_4096_ok ex_mmap_ok) as (r & E & Hr); [lia|lia|].
  rewrite ex_buddy_created in E. apply Ok_inj in E.
  destruct (Hr ex_buddy.1 ex_buddy.2 (eq_sym E)) as (F & HF & _). exists F. exact HF.
Qed.

Lemma bd_live_empty base mx : bd_live base {[0 := (mx, BFree)]} ∅.
Proof.
  split; [intros p n; by rewrite lookup_empty|]. intros off o H. by apply lookup_singleton_Some in H as [_ [=]].
Qed.

Lemma ex_buddy_inv : bd_inv ex_buddy.1 ex_buddy.2 ∅.
Proof. destruct ex_buddy_wf as [F HF]. exists {[0 := (12, BFree)]}, F. split; [exact HF|apply bd_live_empty]. Qed.

(** ** Claims *)

(** C9. Buddy allocation, for a request and an alignment of at most 2^62 (a
    request above 2^63 - 16 wraps, [bd_oversize_wraps]), on any arena in its
    invariant.  The bytes needed are the request and its 16-byte tag, or the
    alignment and the tag when the alignment is larger than the former; the
    order served is that of the least power of two that holds them, and at
    least the minimal order.  The request fails exactly when no free block has
    that order or more, and then of all the state only the two counters
    change; otherwise it takes a free block of the least sufficient order,
    splits it down, and returns the bytes behind the tag.  The partition, the
    free lists and the order map stay consistent, no two free buddies appear,
    and the bytes of the blocks in use are untouched.  (The address returned
    is not moved for the alignment, [bd_alignment_ignored].) *)
Theorem bd_allocate_correct a m T F size al :
  bd_wf a m T F → request_ok size → 0 ≤ al ≤ 2 ^ 62 →
  let bytes := if al >? size + 16 then al + 16 else size + 16 in
  ∃ order, min_order a ≤ order ∧ bytes ≤ 2 ^ order ∧ (min_order a < order → 2 ^ (order - 1) < bytes) ∧
  ∃ a' m' p T' F', bd_allocate a m size al = Ok (a', m', p) ∧ bd_wf a' m' T' F' ∧ coalesced (max_order a') T' ∧
    ((p = NULL ∧ m' = m ∧ T' = T ∧ (∀ x k, T !! x = Some (k, BFree) → k < order) ∧
      a' = bd_set_stats a (bump_failed (bump_alloc (bd_stats a)))) ∨
     (∃ off o, p = bd_mem a + off + 16 ∧ T !! off = Some (o, BFree) ∧ order ≤ o ∧
        (∀ x k, T !! x = Some (k, BFree) → order ≤ k → o ≤ k) ∧
        T' !! off = Some (order, BUsed) ∧ size + 16 ≤ 2 ^ order ∧
        (∀ x k, x ≠ off → T' !! x = Some (k, BUsed) ↔ T !! x = Some (k, BUsed)) ∧
        agree_on (used_area (bd_mem a) T) m m' ∧
        bd_stats a' = raise_peak (set_used (used (bd_stats a) + 2 ^ order) (bump_alloc (bd_stats a))))).
Proof.
  intros Hwf Hs Hal bytes. pose proof (bg_orders _ (bc_geo _ _ _ _ (bw_core _ _ _ _ Hwf))) as Hord.
  pose proof Hs as Hs'. unfold request_ok in Hs'.
  assert (size + 16 ≤ bytes) as Hb by (unfold bytes; destruct (al >? size + 16) eqn:Eal; zb; lia).
  destruct (bd_allocate_core a m T F size al Hwf Hs Hal) as (a' & m' & p & E & _ & _ & _ & Hcase).
  rewrite bd_need_spec in Hcase by done. fold bytes in Hcase.
  exists (order_spec (min_order a) bytes). split; [unfold order_spec; lia|].
  pose proof (order_spec_fits (min_order a) bytes ltac:(lia) ltac:(lia)) as Hfit. split; [done|].
  split; [apply order_spec_least; lia|].
  destruct Hcase as [(-> & -> & Hwf' & Hno & Hst)|(off & o & T' & F' & -> & Hoff & Ho & Hbest & Hwf' & Ho' & Hu & Hag & Hst)].
  - exists a', m, NULL, T, F. split_and!; [done|done|apply Hwf'|]. left. done.
  - exists a', m', (bd_mem a + off + 16), T', F'. split_and!; [done|done|apply Hwf'|]. right. exists off, o.
    split_and!; try done. lia.
Qed.

(** Witness of C9: 100 bytes at alignment 256 from a fresh arena. *)
Lemma bd_allocate_correct_witness : ∃ order a' m' p T' F', 272 ≤ 2 ^ order ∧
  bd_allocate ex_buddy.1 ex_buddy.2 100 256 = Ok (a', m', p) ∧ bd_wf a' m' T' F'.
Proof.
  destruct ex_buddy_wf as [F HF].
  destruct (bd_allocate_correct _ _ _ _ 100 256 HF ltac:(unfold request_ok; lia) ltac:(lia))
    as (order & _ & Ho & _ & a' & m' & p & T' & F' & E & Hwf & _).
  exists order, a', m', p, T', F'. split; [exact Ho|]. split; [exact E|exact Hwf].
Defined.

(** C10. Buddy free: freeing a used block succeeds in both builds, removes
    exactly that block from the used ones, leaves the bytes of the others
    alone and merges as far as it goes - the invariant again has no two free
    buddies. *)
Theorem bd_deallocate_correct nd a m T F off o :
  bd_wf a m T F → T !! off = Some (o, BUsed) →
  ∃ a' m' T' F', bd_deallocate nd a m (bd_mem a + off + 16) = Ok (a', m') ∧ bd_wf a' m' T' F' ∧
    coalesced (max_order a') T' ∧
    (∀ x k, T' !! x = Some (k, BUsed) ↔ x ≠ off ∧ T !! x = Some (k, BUsed)) ∧
    agree_on (used_area (bd_mem a) (delete off T)) m m' ∧
    bd_stats a' = set_used (used (bd_stats a) - 2 ^ o) (bump_free (bd_stats a)).
Proof.
  intros Hwf Hoff. destruct (bd_deallocate_core nd a m T F off o Hwf Hoff) as (a' & m' & T' & F' & E & _ & _ & _ & Hwf' & Hrest).
  exists a', m', T', F'. split; [done|]. split; [done|]. split; [apply Hwf'|done].
Qed.

(** Witness of C10: a block is allocated and freed. *)
Lemma bd_deallocate_correct_witness : ∃ a m T F off a' m' T' F',
  bd_wf a m T F ∧ bd_deallocate false a m (bd_mem a + off + 16) = Ok (a', m') ∧ bd_wf a' m' T' F'.
Proof.
  destruct ex_buddy_wf as [F HF].
  destruct (bd_allocate_core _ _ _ _ 100 16 HF ltac:(unfold request_ok; lia) ltac:(lia))
    as (a & m & p & E & Em & Emx & Emn & Hcase).
  destruct Hcase as [(_ & _ & _ & Hno & _)|(off & o & T & F1 & Ep & _ & _ & _ & Hwf & Ho & _)].
  { specialize (Hno 0 12 eq_refl). vm_compute in Hno. discriminate Hno. }
  destruct (bd_deallocate_correct false a m T F1 off _ Hwf Ho) as (a' & m' & T' & F' & E2 & Hwf2 & _).
  exists a, m, T, F1, off, a', m', T', F'. split; [exact Hwf|]. split; [exact E2|exact Hwf2].
Defined.

(** A new arena satisfies the invariant with no live block. *)
Lemma bd_create_inv ps mmap c1 c2 c3 m0 cap mb a m :
  page_size_ok ps → mmap_ok ps mmap → 0 ≤ cap ≤ 2 ^ 62 → 0 ≤ mb ≤ 2 ^ 62 →
  hf_buddy_create ps mmap c1 c2 c3 m0 cap mb = Ok (Some (a, m)) → bd_inv a m ∅.
Proof.
  intros Hps Hm Hcap Hmb Hc.
  destruct (bd_create_wf ps mmap c1 c2 c3 m0 cap mb Hps Hm Hcap Hmb) as (r & E & Hr). rewrite Hc in E. injection E as <-.
  destruct (Hr a m eq_refl) as (F & HF & _). eexists _, F. split; [exact HF|apply bd_live_empty].
Qed.

(** C8. Client safety of the buddy allocator, in both builds: from any arena
    that was created with a capacity and a minimal block of at most 2^62,
    every program of allocations of at most 2^62 bytes each at the default
    alignment, frees of owned blocks and writes to owned bytes runs without a
    failed assert, an out-of-bounds access of the two arrays or an endless
    loop; live blocks are 16-aligned and never overlap, and every owned byte
    holds what the client last wrote there.  (Requests above 2^63 - 16 wrap,
    [bd_oversize_wraps].) *)
Theorem bd_client_safe nd ps mmap c1 c2 c3 m0 cap mb a m os :
  page_size_ok ps → mmap_ok ps mmap → 0 ≤ cap ≤ 2 ^ 62 → 0 ≤ mb ≤ 2 ^ 62 →
  hf_buddy_create ps mmap c1 c2 c3 m0 cap mb = Ok (Some (a, m)) → Forall (op_ok (2 ^ 62)) os →
  ∃ c, client_run (hf_allocator_vtable0 := BD_VT nd) (Client a m ∅ ∅) os = Ok c ∧ client_ok HF_DEFAULT_ALIGN c.
Proof.
  intros Hps Hm Hcap Hmb Hc Hos. pose proof (bd_create_inv _ _ _ _ _ _ _ _ _ _ Hps Hm Hcap Hmb Hc) as Hinv.
  destruct (client_run_ok (AllocatorSpec0 := bd_spec nd) a m ∅ os Hinv Hos) as (c & Hrun & Hok & _). by exists c.
Qed.

(** Witness of C8: two allocations, a write and a free. *)
Lemma bd_client_safe_witness :
  ∃ c, client_run (hf_allocator_vtable0 := BD_VT false) (Client ex_buddy.1 ex_buddy.2 ∅ ∅)
         [CAlloc 100; CAlloc 200; CWrite (2 ^ 20 + 20) 7; CFree (2 ^ 20 + 16)] = Ok c ∧ client_ok HF_DEFAULT_ALIGN c.
Proof.
  apply (bd_client_safe false 4096 ex_mmap true true true ∅ 4096 64).
  - apply page_4096_ok.
  - apply ex_mmap_ok.
  - lia.
  - lia.
  - reflexivity.
  - repeat constructor; simpl; unfold request_ok; lia.
Defined.

(** [bd_walk] reports a partition of the arena into blocks of powers of
    two; the bytes in used blocks are the [used] of the statistics; and once
    no block is live the arena is one free block again. *)
Theorem bd_walk_correct a m L :
  bd_inv a m L →
  ∃ bs, bd_walk a m = Ok bs ∧ tiles 0 (bd_capacity a) bs ∧
    Forall (λ b, ∃ o, min_order a ≤ o ≤ max_order a ∧ size b = 2 ^ o) bs ∧
    sum_sizes false bs = used (bd_get_stats a) ∧
    (L = ∅ → bs = [BlockInfo 0 (bd_capacity a) true]).
Proof.
  intros (T & F & Hwf & [_ Hlive]). destruct (bd_walk_spec a m T F Hwf) as (bs & E & Ht & Hs & Hall).
  pose proof (bc_part _ _ _ _ (bw_core _ _ _ _ Hwf)) as Hp. pose proof (bc_geo _ _ _ _ (bw_core _ _ _ _ Hwf)) as Hg.
  exists bs. split_and!; try done.
  - eapply Forall_impl; [exact Hall|]. intros b (o & s & Hb & Hsz & _). exists o. split; [|done].
    by destruct (pt_block _ _ _ Hp _ _ _ Hb) as (? & _).
  - rewrite Hs. unfold bd_get_stats. by rewrite (bw_used _ _ _ _ Hwf).
  - intros ->. assert (∀ x o s, T !! x = Some (o, s) → s = BFree) as Hf.
    { intros x o [] Hx; [done| |by destruct (bw_hand _ _ _ _ Hwf x o)]. destruct (Hlive x o Hx) as [? Hq]. by rewrite lookup_empty in Hq. }
    pose proof (coalesced_all_free _ _ _ Hp (bw_coal _ _ _ _ Hwf) Hf) as Hmx.
    pose proof (pow2_pos (max_order a) ltac:(pose proof (bg_orders _ Hg); lia)). rewrite (bg_cap _ Hg) in *.
    destruct bs as [|b bs]; simpl in Ht; [lia|]. destruct Ht as (Eo & ? & Ht). apply Forall_cons in Hall as [(o & s & Hb & Esz & Ef) _].
    rewrite (Hf _ _ _ Hb) in Ef. rewrite (Hmx _ _ _ Hb) in Esz. rewrite Esz, Z.add_0_l in Ht.
    destruct bs as [|c bs]; simpl in Ht.
    + destruct b as [bo bsz bf]. simpl in *. by rewrite Eo, Esz, Ef.
    + destruct Ht as (_ & ? & Ht). apply tiles_le in Ht. lia.
Qed.

Lemma bd_walk_correct_witness :
  ∃ bs, bd_walk ex_buddy.1 ex_buddy.2 = Ok bs ∧ tiles 0 4096 bs ∧ bs = [BlockInfo 0 4096 true].
Proof.
  destruct (bd_walk_correct _ _ ∅ ex_buddy_inv) as (bs & E & Ht & _ & _ & H).
  exists bs. split; [exact E|]. split; [exact Ht|exact (H eq_refl)].
Defined.

(** Alignments above 16 are never honoured: the code makes the block
    larger but always returns the address 16 bytes behind its start, which is
    no multiple of 32 in a page-aligned arena. *)
Theorem bd_alignment_ignored a m T F size k a' m' p :
  bd_wf a m T F → (32 | bd_mem a) → request_ok size → 5 ≤ k ≤ 62 →
  bd_allocate a m size (2 ^ k) = Ok (a', m', p) → p ≠ NULL → ¬ (2 ^ k | p).
Proof.
  intros Hwf Hd Hs Hk E Hp Hkp. pose proof (pow2_pos k ltac:(lia)). pose proof (pow2_le_mono k 62 ltac:(lia)).
  destruct (bd_allocate_core a m T F size (2 ^ k) Hwf Hs ltac:(lia)) as (a1 & m1 & p1 & E1 & _ & _ & _ & Hcase).
  rewrite E in E1. simplify_eq. destruct Hcase as [(-> & _)|(off & o & T' & F' & -> & Hoff & _)]; [done|].
  pose proof (core_block _ _ _ _ (bw_core _ _ _ _ Hwf) _ _ _ Hoff) as (? & _ & _ & _ & Hdo & _).
  assert (32 | off) as [i ->] by (etransitivity; [apply (pow2_divide 5 o); lia|done]).
  assert (32 | bd_mem a + i * 32 + 16) as [j Hj] by (etransitivity; [apply (pow2_divide 5 k); lia|done]).
  destruct Hd as [l Hl]. lia.
Qed.

(** A 64-aligned request gets an address that is 16 mod 64. *)
Lemma bd_alignment_ignored_witness :
  ∃ a' m' p, bd_allocate ex_buddy.1 ex_buddy.2 100 64 = Ok (a', m', p) ∧ ¬ (64 | p).
Proof.
  destruct ex_buddy_wf as [F HF].
  assert (result_ptr (bd_allocate ex_buddy.1 ex_buddy.2 100 64) = 2 ^ 20 + 16) as Hr by (vm_compute; reflexivity).
  destruct (bd_allocate ex_buddy.1 ex_buddy.2 100 64) as [[[a' m'] p]| | |] eqn:E; try discriminate Hr.
  exists a', m', p. split; [reflexivity|].
  apply (bd_alignment_ignored _ _ _ _ 100 6 a' m' p HF).
  - exists (2 ^ 15). reflexivity.
  - unfold request_ok. lia.
  - lia.
  - exact E.
  - simpl in Hr. rewrite Hr. discriminate.
Defined.

(** A request above 2^63 - 16 bytes is served as an empty one: the sum
    with the tag wraps, or the next power of two overflows to 0 and its
    logarithm is 0, so the caller gets a minimal block. *)
Theorem bd_oversize_wraps a m size :
  5 ≤ min_order a ≤ 62 → 2 ^ 63 - 16 < size < 2 ^ 64 →
  bd_allocate a m size 16 = bd_allocate a m 0 16.
Proof.
  intros Hmn Hs. unfold bd_allocate. assert (order_for a (bd_need size 16) = order_for a (bd_need 0 16)) as ->; [|done].
  change (bd_need 0 16) with 16. change (order_for a 16) with (if 4 <? min_order a then min_order a else 4).
  rewrite (proj2 (Z.ltb_lt _ _)) by lia. unfold bd_need, BD_HDR. destruct (decide (size < 2 ^ 64 - 16)).
  - rewrite wrap64_small by ulia. rewrite Z.gtb_ltb, (proj2 (Z.ltb_ge _ _)) by lia.
    unfold order_for. rewrite hf_next_pow2_overflow by lia. change (hf_log2_floor 0) with 0.
    by rewrite (proj2 (Z.ltb_lt _ _)) by lia.
  - rewrite (wrap64_add_carry (size + 16)) by lia. rewrite Z.gtb_ltb, (proj2 (Z.ltb_lt _ _)) by lia.
    change (wrap64 (16 + 16)) with 32. change (order_for a 32) with (if 5 <? min_order a then min_order a else 5).
    case_if; lia.
Qed.

(** The arena grants 2^63 bytes. *)
Lemma bd_oversize_wraps_witness :
  result_ptr (bd_allocate ex_buddy.1 ex_buddy.2 (2 ^ 63) 16) = 2 ^ 20 + 16.
Proof. rewrite bd_oversize_wraps; [vm_compute; reflexivity|vm_compute; split; discriminate|lia]. Defined.
