(* ===== verification/Statistics.v ===== *)
(** * The statistics of the allocators ([c/include/heapforge/hf_allocator.h])

    What the six counters of [hf_stats] say after any use of an allocator.
    [StatsSpec] is the part of an allocator's contract that concerns them; the
    free list, the buddy allocator and the block pool meet it, and the results
    on client programs are proved once, against the class. *)

From S2P Require Import Prelude Memory Platform Allocator Links BlockPool FreeList FreeListRing FreeListPhys FreeListProofs FreeListSpec.
From S2P Require Import Buddy BuddyPart BuddyLists BuddyProofs BuddySpec.

(** The bytes a client has asked for and not given back. *)
Definition held_bytes (L : live_map) : Z := map_fold (λ _ n acc, n + acc) 0 L.

Fixpoint sum_snd (U : list (Z * Z)) : Z := match U with [] => 0 | u :: U => u.2 + sum_snd U end.

Lemma held_bytes_delete L p n : L !! p = Some n → held_bytes L = n + held_bytes (delete p L).
Proof. intros Hp. unfold held_bytes. rewrite (map_fold_delete_L _ _ p n L); [done| |done]. intros. lia. Qed.

(** Blocks that hold what was asked for sum up to at least as much. *)
Lemma held_bytes_le (U : list (Z * Z)) L :
  Forall (λ u, 0 ≤ u.2) U → (∀ p n, L !! p = Some n → ∃ s, (p, s) ∈ U ∧ n ≤ s) → held_bytes L ≤ sum_snd U.
Proof.
  intros HU. revert L. induction HU as [|[q s] U Hs HU IH]; intros L HL; cbn in *.
  - destruct (map_eq_dec_empty L) as [->|Hne]; [done|]. apply map_choose in Hne as (p & n & Hp).
    destruct (HL p n Hp) as (s & Hin & _). by apply elem_of_nil in Hin.
  - destruct (L !! q) as [n|] eqn:Hq; [destruct (decide (n ≤ s)) as [Hle|Hgt]|].
    + rewrite (held_bytes_delete L q n Hq). enough (held_bytes (delete q L) ≤ sum_snd U) by lia. apply IH.
      intros p k Hp. apply lookup_delete_Some in Hp as [Hne Hp]. destruct (HL p k Hp) as (s' & Hin & Hk).
      apply elem_of_cons in Hin as [[= -> ->]|Hin]; [done|by exists s'].
    + enough (held_bytes L ≤ sum_snd U) by lia. apply IH. intros p k Hp. destruct (HL p k Hp) as (s' & Hin & Hk).
      apply elem_of_cons in Hin as [[= -> ->]|Hin]; [|by exists s']. rewrite Hq in Hp. injection Hp as ->. lia.
    + enough (held_bytes L ≤ sum_snd U) by lia. apply IH. intros p k Hp. destruct (HL p k Hp) as (s' & Hin & Hk).
      apply elem_of_cons in Hin as [[= -> ->]|Hin]; [congruence|by exists s'].
Qed.

(** [stats_total] is the number of bytes the allocator manages.  [used] is at
    least what the client holds, and 0 when it holds nothing; a served request
    raises [used], a failed one counts as failed, a free lowers [used]. *)
Class StatsSpec (al lim : Z) (S : Type) `{!hf_allocator_vtable S} `{!AllocatorSpec al lim S} : Type := {
  stats_total : S → Z;
  stats_used s m L : alloc_inv s m L → 0 ≤ used (hf_get_stats s) ≤ stats_total s;
  stats_live s m L : alloc_inv s m L → held_bytes L ≤ used (hf_get_stats s) ∧ (L = ∅ → used (hf_get_stats s) = 0);
  stats_allocate s m L size s' m' p :
    alloc_inv s m L → 0 ≤ size ≤ lim → hf_allocate s m size = Ok (s', m', p) →
    stats_total s' = stats_total s ∧
    if p =? NULL then hf_get_stats s' = bump_failed (bump_alloc (hf_get_stats s))
    else ∃ u, used (hf_get_stats s) < u ∧ hf_get_stats s' = raise_peak (set_used u (bump_alloc (hf_get_stats s)));
  stats_deallocate s m L p n s' m' :
    alloc_inv s m L → L !! p = Some n → hf_deallocate s m p = Ok (s', m') →
    stats_total s' = stats_total s ∧
    ∃ u, u < used (hf_get_stats s) ∧ hf_get_stats s' = set_used u (bump_free (hf_get_stats s))
}.

Lemma wrap64_add_l x y : wrap64 (wrap64 x + y) = wrap64 (x + y).
Proof. unfold wrap64. by rewrite Z.add_mod_idemp_l. Qed.

Lemma wrap64_add_r x y : wrap64 (x + wrap64 y) = wrap64 (x + y).
Proof. unfold wrap64. by rewrite Z.add_mod_idemp_r. Qed.

(** ** Client programs *)

Section client.
Context {al lim : Z} {S : Type} `{!hf_allocator_vtable S} `{!AllocatorSpec al lim S} `{!StatsSpec al lim S}.

Definition client_stats (c : client S) : hf_stats := hf_get_stats (cl_alloc c).

(** [used] after each step of a program. *)
Fixpoint client_used (c : client S) (os : list client_op) : list Z :=
  match os with
  | [] => []
  | o :: os => match client_step c o with Ok c => used (client_stats c) :: client_used c os | _ => [] end
  end.

Definition is_alloc (o : client_op) : bool := match o with CAlloc _ => true | _ => false end.

(** The counters of an allocator that manages [tot] bytes, whose client has
    [live] blocks: [used] never exceeds the peak nor the peak the capacity,
    and every allocation that did not fail is either live or freed. *)
Record counters_ok (tot live : Z) (st : hf_stats) : Prop := {
  ck_used : 0 ≤ used st ≤ peak_used st;
  ck_peak : peak_used st ≤ capacity st;
  ck_cap : capacity st = tot;
  ck_calls : alloc_calls st = wrap64 (failed_allocs st + free_calls st + live)
}.

Definition live_blocks (c : client S) : Z := Z.of_nat (base.size (cl_live c)).

Lemma counters_failed tot live st :
  counters_ok tot live st → counters_ok tot live (bump_failed (bump_alloc st)).
Proof.
  intros []. split; cbn; try done. rewrite ck_calls0, wrap64_add_l.
  replace (wrap64 (failed_allocs st + 1) + free_calls st + live) with (wrap64 (failed_allocs st + 1) + (free_calls st + live)) by lia.
  rewrite wrap64_add_l. f_equal. lia.
Qed.

Lemma counters_served tot live u st :
  counters_ok tot live st → 0 ≤ u ≤ tot → counters_ok tot (live + 1) (raise_peak (set_used u (bump_alloc st))).
Proof.
  intros [] Hu. split; cbn; try done.
  - destruct (u >? peak_used st) eqn:E; zb; lia.
  - destruct (u >? peak_used st) eqn:E; zb; lia.
  - rewrite ck_calls0, wrap64_add_l. f_equal. lia.
Qed.

Lemma counters_freed tot live u st :
  counters_ok tot live st → 0 ≤ u ≤ used st → counters_ok tot (live - 1) (set_used u (bump_free st)).
Proof.
  intros [] Hu. split; cbn; try done; [lia|]. rewrite ck_calls0.
  replace (failed_allocs st + wrap64 (free_calls st + 1) + (live - 1)) with (failed_allocs st + live - 1 + wrap64 (free_calls st + 1)) by lia.
  rewrite wrap64_add_r. f_equal. lia.
Qed.

(** What one step does to the counters. *)
Lemma client_step_stats c o c' tot :
  client_inv c → op_ok lim o → client_step c o = Ok c' → stats_total (cl_alloc c) = tot →
  counters_ok tot (live_blocks c) (client_stats c) →
  stats_total (cl_alloc c') = tot ∧ counters_ok tot (live_blocks c') (client_stats c') ∧
  peak_used (client_stats c') = Z.max (peak_used (client_stats c)) (used (client_stats c')) ∧
  alloc_calls (client_stats c') = wrap64 (alloc_calls (client_stats c) + (if is_alloc o then 1 else 0)).
Proof.
  intros Hc Ho Hs Ht Hk. destruct (client_step_safe c o Hc Ho) as (c2 & Hs2 & Hc2). rewrite Hs in Hs2. injection Hs2 as <-.
  pose proof (stats_used _ _ _ (proj1 Hc2)) as Hused. pose proof Hk as [Hu1 Hu2 Hcap Hcalls]. destruct Hc as [Hinv _].
  assert (alloc_calls (client_stats c) = wrap64 (alloc_calls (client_stats c) + 0)) as Hid
    by (rewrite Hcalls, wrap64_add_l; f_equal; lia).
  destruct o as [n|p|x v]; cbn [client_step is_alloc] in *.
  - destruct (hf_allocate (cl_alloc c) (cl_mem c) n) as [[[s m] p]| | |] eqn:E; try done. injection Hs as <-.
    destruct (spec_allocate _ _ _ n Hinv Ho) as (s2 & m2 & p2 & E2 & _ & Hcase). rewrite E in E2. injection E2 as <- <- <-.
    destruct (stats_allocate _ _ _ _ _ _ _ Hinv Ho E) as [Htot Hst]. unfold client_stats, live_blocks in *. cbn in *.
    split; [congruence|]. destruct (p =? NULL) eqn:Ep; zb.
    + rewrite Hst. split; [by apply counters_failed|]. cbn. split; [lia|done].
    + destruct Hst as (u & Hu & Hst). rewrite Hst in *. cbn in Hused. rewrite Htot in Hused. split; [|split; [|done]].
      * destruct Hcase as [[? _]|(_ & HN & _)]; [done|]. rewrite map_size_insert_None by done.
        replace (Z.of_nat (Datatypes.S _)) with (Z.of_nat (base.size (cl_live c)) + 1) by lia. apply counters_served; [done|]. lia.
      * cbn. destruct (u >? peak_used _) eqn:Eu; zb; lia.
  - destruct (cl_live c !! p) as [n|] eqn:Ep; [|injection Hs as <-; split_and!; try done; lia].
    destruct (hf_deallocate (cl_alloc c) (cl_mem c) p) as [[s m]| | |] eqn:E; try done. injection Hs as <-.
    destruct (stats_deallocate _ _ _ _ _ _ _ Hinv Ep E) as [Htot (u & Hu & Hst)]. unfold client_stats, live_blocks in *. cbn in *.
    rewrite Hst in *. cbn in Hused. rewrite Htot in *. split; [congruence|]. split; [|cbn; split; [lia|done]].
    pose proof (map_size_delete_Some p (cl_live c) (mk_is_Some _ _ Ep)) as Hsz.
    assert (base.size (cl_live c) ≠ 0%nat) by (intros E0; apply map_size_empty_inv in E0; by rewrite E0, lookup_empty in Ep).
    replace (Z.of_nat (base.size (delete p (cl_live c)))) with (Z.of_nat (base.size (cl_live c)) - 1) by lia.
    apply counters_freed; [done|lia].
  - destruct (in_live_b _ x); injection Hs as <-; split_and!; try done; unfold client_stats in *; cbn; lia.
Qed.

(** The counters after a whole program. *)
Lemma client_run_stats os c tot :
  client_inv c → Forall (op_ok lim) os → stats_total (cl_alloc c) = tot →
  counters_ok tot (live_blocks c) (client_stats c) →
  ∃ c', client_run c os = Ok c' ∧ client_inv c' ∧ counters_ok tot (live_blocks c') (client_stats c') ∧
    peak_used (client_stats c') = foldl Z.max (peak_used (client_stats c)) (client_used c os) ∧
    alloc_calls (client_stats c') = wrap64 (alloc_calls (client_stats c) + count_if is_alloc os).
Proof.
  intros Hc Hos. revert c Hc. induction Hos as [|o os Ho Hos IH]; intros c Hc Ht Hk.
  - exists c. split_and!; try done. cbn. rewrite (ck_calls _ _ _ Hk), wrap64_add_l. f_equal. lia.
  - destruct (client_step_safe c o Hc Ho) as (c1 & Hs & Hc1).
    destruct (client_step_stats c o c1 tot Hc Ho Hs Ht Hk) as (Ht1 & Hk1 & Hp1 & Ha1).
    destruct (IH c1 Hc1 Ht1 Hk1) as (c' & Hr & Hi' & Hk' & Hp' & Ha').
    exists c'. cbn [client_run client_used]. rewrite Hs. cbn [mbind outcome_bind foldl]. split_and!; try done.
    + by rewrite Hp', Hp1.
    + rewrite Ha', Ha1, wrap64_add_l. f_equal. cbn. destruct (is_alloc o); lia.
Qed.
End client.

(** ** The instances *)

Lemma used_list_sum base bs : sum_snd ((λ u, (u.1 + 16, u.2)) <$> used_list base bs) = used_bytes bs.
Proof. revert base. induction bs as [|[sz []] bs IH]; intros base; cbn; rewrite ?IH; done || lia. Qed.

Lemma fl_stats_live a m L : fl_inv a m L → held_bytes L ≤ used (fl_stats a) ∧ (L = ∅ → used (fl_stats a) = 0).
Proof.
  intros (bs & l & Hwf & [HL HU]). rewrite (fw_used _ _ _ _ Hwf), <- (used_list_sum (fl_mem a)). split.
  - pose proof (fg_blocks _ _ (fc_geo _ _ _ _ (fw_core _ _ _ _ Hwf))) as Hok. apply held_bytes_le.
    + apply Forall_fmap, Forall_forall. intros [h sz] Hin. pose proof (used_list_bounds _ _ _ _ Hok Hin). cbn. lia.
    + intros p n Hp. destruct (HL p n Hp) as (_ & sz & Hin & Hn). exists sz. split; [|lia].
      apply list_elem_of_fmap. exists (p - 16, sz). split; [f_equal; cbn; lia|done].
  - intros ->. destruct (used_list _ _) as [|[h sz] U]; [done|]. destruct (HU h sz ltac:(left)) as [k Hk]. by rewrite lookup_empty in Hk.
Qed.

Lemma used_sum_list base T :
  sum_snd ((λ xb : Z * (Z * bstate), (base + xb.1 + 16, block_used xb.2)) <$> map_to_list T) = used_sum T.
Proof. unfold used_sum. rewrite map_fold_foldr. by induction (map_to_list T) as [|[x b] l IH]; cbn; [|rewrite <- IH]. Qed.

Lemma bd_stats_live a m L : bd_inv a m L → held_bytes L ≤ used (bd_stats a) ∧ (L = ∅ → used (bd_stats a) = 0).
Proof.
  intros (T & F & Hwf & [HL HU]). rewrite (bw_used _ _ _ _ Hwf), <- (used_sum_list (bd_mem a)).
  assert (∀ b, 0 ≤ block_used b) as Hnn by (intros [o []]; unfold block_used; cbn; try apply Z.pow_nonneg; lia). split.
  - apply held_bytes_le.
    + apply Forall_fmap, Forall_forall. intros [x b] _. apply Hnn.
    + intros p n Hp. destruct (HL p n Hp) as (_ & o & Ho & Hn). exists (2 ^ o). split; [|lia].
      apply list_elem_of_fmap. exists (p - 16 - bd_mem a, (o, BUsed)). split; [f_equal; cbn; lia|]. by apply elem_of_map_to_list.
  - intros ->. rewrite used_sum_list, used_sum_filter.
    assert (filter (λ xb : Z * (Z * bstate), xb.2.2 = BUsed) T = ∅) as ->; [|done]. apply map_empty. intros x.
    destruct (filter _ T !! x) as [[o st]|] eqn:Hx; [|done]. apply map_lookup_filter_Some in Hx as [Hx Hu]. cbn in Hu. subst st.
    destruct (HU x o Hx) as [k Hk]. by rewrite lookup_empty in Hk.
Qed.

Lemma bp_blocks_sum a l :
  sum_snd ((λ i, (bp_addr a i, if bp_bit a i then bp_block_size a else 0)) <$> l) = bp_block_size a * count_if (bp_bit a) l.
Proof. induction l as [|i l IH]; cbn; [lia|]. rewrite IH. destruct (bp_bit a i); lia. Qed.

Lemma bp_stats_live a m L : bp_inv a m L → held_bytes L ≤ used (bp_stats a) ∧ (L = ∅ → used (bp_stats a) = 0).
Proof.
  intros [Hwf [Hbits HL]]. rewrite (bp_wf_used _ Hwf). pose proof (bp_wf_size _ Hwf) as [Hbs _]. split.
  - unfold bp_used_count. rewrite <- bp_blocks_sum. apply held_bytes_le.
    + apply Forall_fmap, Forall_forall. intros i _. cbn. destruct (bp_bit a i); lia.
    + intros p n Hp. destruct (HL p n Hp) as (Hn & i & Hi & ->). exists (bp_block_size a). split; [|lia].
      apply list_elem_of_fmap. exists i. split; [|apply elem_of_seqZ; lia].
      rewrite (proj2 (Hbits i Hi)); [done|by exists n].
  - intros ->. unfold bp_used_count. rewrite (count_if_const _ false); [lia|]. intros i Hi. apply elem_of_seqZ in Hi.
    destruct (bp_bit a i) eqn:E; [|done]. apply (Hbits i ltac:(lia)) in E as [k Hk]. by rewrite lookup_empty in Hk.
Qed.

#[global] Instance fl_stats_spec (nd : bool) : StatsSpec HF_DEFAULT_ALIGN (2 ^ 62) fl_alloc (hf_allocator_vtable0 := FL_VT nd).
Proof.
  refine {| stats_total := fl_capacity |}.
  - intros a m L (bs & l & Hwf & _). change (hf_get_stats a) with (fl_stats a). rewrite (fw_used _ _ _ _ Hwf).
    pose proof (fc_geo _ _ _ _ (fw_core _ _ _ _ Hwf)) as Hg.
    pose proof (used_bytes_bounds (fl_mem a) bs (fg_blocks _ _ Hg)). rewrite (fg_end _ _ Hg) in *. lia.
  - intros a m L. apply fl_stats_live.
  - intros a m L size a' m' p (bs & l & Hwf & _) Hs E. change (fl_allocate a m size 16 = Ok (a', m', p)) in E.
    destruct (fl_allocate_core a m bs l size 16 Hwf Hs ltac:(left; lia)) as (a2 & m2 & p2 & E2 & (_ & Ec & _) & Hcase).
    rewrite E in E2. injection E2 as <- <- <-. split; [done|]. change (@hf_get_stats fl_alloc _) with fl_stats.
    destruct Hcase as [(-> & _ & _ & _ & ->)|(bs1 & sz & bs2 & bs2' & sz' & l' & _ & _ & Hwf' & Hsz & Hlo & _ & _ & _ & _ & Hst)]; [done|].
    pose proof (geo_facts _ _ _ _ _ (fc_geo _ _ _ _ (fw_core _ _ _ _ Hwf'))) as (_ & _ & ? & _ & _ & Hpos & _).
    pose proof (fg_base _ _ (fc_geo _ _ _ _ (fw_core _ _ _ _ Hwf))) as [? _].
    pose proof (end_addr_ge (fl_mem a) bs1). pose proof (fg_blocks _ _ (fc_geo _ _ _ _ (fw_core _ _ _ _ Hwf'))) as [Hb1 _]%blocks_ok_app.
    destruct (Z.eqb_spec p 0); [specialize (H1 Hb1); lia|]. eexists. split; [|done]. lia.
  - intros a m L p n a' m' (bs & l & Hwf & Hrel) Hp E. change (fl_deallocate nd a m p = Ok (a', m')) in E.
    destruct (fl_inv_live _ _ _ _ _ _ _ Hwf Hrel Hp) as (bs1 & sz & bs2 & -> & -> & Hn).
    destruct (fl_deallocate_core nd a m bs1 sz bs2 l Hwf) as (a2 & m2 & bs' & l' & E2 & _ & (_ & Ec & _) & _ & _ & Hst).
    rewrite E in E2. injection E2 as <- <-. split; [done|]. eexists. split; [|exact Hst]. change (@hf_get_stats fl_alloc _) with fl_stats.
    pose proof (geo_facts _ _ _ _ _ (fc_geo _ _ _ _ (fw_core _ _ _ _ Hwf))) as (_ & _ & ? & _). lia.
Defined.

Lemma bd_stats_used a m L : bd_inv a m L → 0 ≤ used (bd_stats a) ≤ 2 ^ max_order a.
Proof.
  intros (T & F & Hwf & _). rewrite (bw_used _ _ _ _ Hwf).
  eapply used_sum_bounds. apply (bc_part _ _ _ _ (bw_core _ _ _ _ Hwf)).
Qed.

Lemma bd_stats_allocate a m L size a' m' p :
  bd_inv a m L → 0 ≤ size ≤ 2 ^ 62 → bd_allocate a m size HF_DEFAULT_ALIGN = Ok (a', m', p) →
  2 ^ max_order a' = 2 ^ max_order a ∧
  if p =? NULL then bd_stats a' = bump_failed (bump_alloc (bd_stats a))
  else ∃ u, used (bd_stats a) < u ∧ bd_stats a' = raise_peak (set_used u (bump_alloc (bd_stats a))).
Proof.
  intros (T & F & Hwf & _) Hs E.
  destruct (bd_allocate_core a m T F size HF_DEFAULT_ALIGN Hwf Hs ltac:(unfold HF_DEFAULT_ALIGN; lia)) as (a2 & m2 & p2 & E2 & _ & Emx & _ & Hcase).
  rewrite E in E2. injection E2 as <- <- <-. split; [by rewrite Emx|].
  destruct Hcase as [(-> & _ & _ & _ & ->)|(off & o & T' & F' & -> & Hoff & _ & _ & _ & _ & _ & _ & Hst)]; [done|].
  pose proof (core_block _ _ _ _ (bw_core _ _ _ _ Hwf) _ _ _ Hoff) as (? & ? & ? & _ & _ & _ & _ & ? & _).
  pose proof (bg_orders _ (bc_geo _ _ _ _ (bw_core _ _ _ _ Hwf))).
  destruct (Z.eqb_spec (bd_mem a + off + 16) 0); [lia|]. eexists. split; [|exact Hst].
  match goal with |- context [2 ^ ?e] => pose proof (pow2_pos e ltac:(unfold order_spec; lia)) end. lia.
Qed.

Lemma bd_stats_deallocate nd a m L p n a' m' :
  bd_inv a m L → L !! p = Some n → bd_deallocate nd a m p = Ok (a', m') →
  2 ^ max_order a' = 2 ^ max_order a ∧
  ∃ u, u < used (bd_stats a) ∧ bd_stats a' = set_used u (bump_free (bd_stats a)).
Proof.
  intros (T & F & Hwf & [HL _]) Hp E. destruct (HL p n Hp) as (_ & o & Ho & _).
  replace p with (bd_mem a + (p - 16 - bd_mem a) + 16) in E by lia.
  destruct (bd_deallocate_core nd a m T F _ o Hwf Ho) as (a2 & m2 & T' & F' & E2 & _ & Emx & _ & _ & _ & _ & Hst).
  rewrite E in E2. injection E2 as <- <-. split; [by rewrite Emx|]. eexists. split; [|exact Hst].
  pose proof (core_block _ _ _ _ (bw_core _ _ _ _ Hwf) _ _ _ Ho) as (? & _).
  pose proof (bg_orders _ (bc_geo _ _ _ _ (bw_core _ _ _ _ Hwf))). pose proof (pow2_pos o ltac:(lia)). lia.
Qed.

#[global] Instance bd_stats_spec (nd : bool) : StatsSpec HF_DEFAULT_ALIGN (2 ^ 62) bd_alloc (hf_allocator_vtable0 := BD_VT nd) := {
  stats_total a := 2 ^ max_order a;
  stats_used := bd_stats_used;
  stats_live := bd_stats_live;
  stats_allocate := bd_stats_allocate;
  stats_deallocate := bd_stats_deallocate nd
}.

(** The byte count of a well-formed pool lies within its mapping. *)
Lemma bp_used_bounds a : bp_wf a → 0 ≤ used (bp_stats a) ≤ bp_capacity a.
Proof.
  intros Hwf. rewrite (bp_wf_used _ Hwf). pose proof (bp_used_count_bounds a Hwf). pose proof (bp_wf_size _ Hwf) as [? _].
  pose proof (bp_wf_fits _ Hwf). nia.
Qed.

#[global] Instance bp_stats_spec (nd : bool) : StatsSpec HF_DEFAULT_ALIGN (2 ^ 62) bp_alloc (hf_allocator_vtable0 := BP_VT nd).
Proof.
  refine {| stats_total := bp_capacity |}.
  - intros a m L [Hwf _]. by apply bp_used_bounds.
  - apply bp_stats_live.
  - intros a m L size a' m' p [Hwf Hl] Hs E. change (bp_allocate a m size 16 = Ok (a', m', p)) in E.
    change (@hf_get_stats bp_alloc _) with bp_stats. unfold bp_allocate in E. pose proof (bp_wf_size _ Hwf) as [Hbs _].
    destruct (size >? bp_block_size a); [by injection E as <- <- <-|].
    destruct (bp_find_all a Hwf) as (r & Hf & Hr). rewrite Hf in E. cbn [mbind outcome_bind] in E.
    destruct r as [[wi bit]|]; [|by injection E as <- <- <-]. destruct Hr as (Hwi & Hbit & Hlt & Hfree).
    destruct (bp_word_ok a Hwf wi Hwi) as (w & Hw & _). rewrite Hw in E. cbn [mbind outcome_bind] in E.
    pose proof (bp_words_bounds a Hwf) as (_ & Hws & _).
    rewrite (wrap64_small (wi * 64)) in E by ulia. rewrite (wrap64_small (wi * 64 + bit)) in E by ulia.
    injection E as <- <- <-. split; [done|]. pose proof (bp_wf_mem _ Hwf) as [? _].
    destruct (Z.eqb_spec (bp_mem a + (wi * 64 + bit) * bp_block_size a) 0); [nia|].
    assert (used (bp_stats a) + bp_block_size a ≤ bp_capacity a) as Hfit.
    { rewrite (bp_wf_used _ Hwf). enough (bp_used_count a < bp_block_count a) by (pose proof (bp_wf_fits _ Hwf); nia).
      pose proof (bp_used_count_bounds a Hwf). enough (bp_used_count a ≠ bp_block_count a) by lia. intros Hall.
      enough (bp_bit a (wi * 64 + bit) = true) by congruence. unfold bp_used_count in Hall.
      apply (proj1 (count_if_full (bp_bit a) (seqZ 0 (bp_block_count a)))); [rewrite length_seqZ; pose proof (bp_wf_count _ Hwf); lia|].
      apply elem_of_seqZ. lia. }
    eexists. split; [|done]. cbn. pose proof (bp_used_bounds a Hwf). pose proof (bp_wf_space _ Hwf). rewrite wrap64_small by ulia. lia.
  - intros a m L p n a' m' [Hwf [Hbits Hl]] Hp E. change (bp_deallocate nd a m p = Ok (a', m')) in E.
    change (@hf_get_stats bp_alloc _) with bp_stats. destruct (Hl p n Hp) as (_ & i & Hi & ->).
    assert (bp_bit a i = true) as Hbit by (apply (Hbits i Hi); by rewrite Hp).
    destruct (bp_deallocate_used nd a m i Hwf Hi Hbit) as (a2 & E2 & Hwf' & Hsame & _ & Hb).
    rewrite E in E2. injection E2 as <- <-. pose proof (bp_used_count_clear a a' i Hwf Hi Hsame Hbit Hb) as Hcnt.
    pose proof (bp_wf_size _ Hwf) as [Hbs _]. pose proof (bp_wf_used _ Hwf) as Hu. pose proof (bp_wf_used _ Hwf') as Hu'.
    destruct Hsame as (_ & Ec & Es & _). rewrite Es in Hu'. split; [done|]. exists (used (bp_stats a')). split; [nia|].
    unfold bp_deallocate in E. destruct (_ =? NULL); [injection E as <-; nia|].
    repeat match type of E with context [c_assert ?x ?y] => destruct (c_assert x y); cbn [mbind outcome_bind] in E; try done end.
    destruct (bp_word a _); cbn [mbind outcome_bind] in E; try done.
    destruct (c_assert _ _); cbn [mbind outcome_bind] in E; try done. injection E as <-. done.
Defined.

(** ** Claims *)

(** After the program [os] on a fresh allocator the counters are right: they
    are within their bounds, [used] covers what the client holds and is 0 when
    it holds nothing, the peak is the largest [used] there ever was, and every
    call was counted. *)
Definition counters_after {S : Type} `{!hf_allocator_vtable S} (s : S) (m : mem) (tot : Z) (os : list client_op) : Prop :=
  ∃ c, client_run (Client s m ∅ ∅) os = Ok c ∧
    counters_ok tot (live_blocks c) (client_stats c) ∧
    held_bytes (cl_live c) ≤ used (client_stats c) ∧ (cl_live c = ∅ → used (client_stats c) = 0) ∧
    peak_used (client_stats c) = foldl Z.max 0 (client_used (Client s m ∅ ∅) os) ∧
    alloc_calls (client_stats c) = wrap64 (count_if is_alloc os).

Lemma counters_after_fresh {al lim S} `{!hf_allocator_vtable S} `{!AllocatorSpec al lim S} `{!StatsSpec al lim S} (s : S) m tot os :
  alloc_inv s m ∅ → stats_total s = tot → hf_get_stats s = stats_zero tot → Forall (op_ok lim) os → counters_after s m tot os.
Proof.
  intros Hi Ht Hz Hos. pose proof (stats_used _ _ _ Hi) as Hu. rewrite Hz, Ht in Hu. cbn in Hu.
  destruct (client_run_stats os (Client s m ∅ ∅) tot) as (c & Hr & Hi' & Hk & Hp & Ha); [|done|done|..].
  - split; [done|]. intros x v. cbn. by rewrite lookup_empty.
  - unfold live_blocks, client_stats. cbn. rewrite Hz. split; cbn; done || lia.
  - unfold client_stats in Hp, Ha. cbn [cl_alloc] in Hp, Ha. rewrite Hz in Hp, Ha. cbn in Hp. exists c.
    destruct (stats_live _ _ _ (proj1 Hi')) as [Hlv He].
    split_and!; [done|done|done|done|done|]. unfold client_stats. rewrite Ha. cbn [alloc_calls stats_zero]. by rewrite Z.add_0_l.
Qed.

Lemma fl_create_stats ps mmap ok m0 cap pol a m :
  hf_free_list_create ps mmap ok m0 cap pol = Some (a, m) → fl_stats a = stats_zero (fl_capacity a).
Proof.
  unfold hf_free_list_create. destruct (negb ok); [done|]. destruct (_ =? NULL); [done|]. by intros [= <- _].
Qed.

Lemma bd_push_stats a m n o a' m' : bd_push a m n o = Ok (a', m') → bd_stats a' = bd_stats a ∧ bd_capacity a' = bd_capacity a.
Proof.
  unfold bd_push. destruct (arr_get _ _); cbn [mbind outcome_bind]; try discriminate.
  destruct (arr_set (free_lists a) _ _); cbn [mbind outcome_bind]; try discriminate.
  destruct (arr_set _ _ _); cbn [mbind outcome_bind]; try discriminate.
  match goal with |- Ok (_, ?x) = _ → _ => generalize x end. intros mm H. injection H as <- _. split; reflexivity.
Qed.

Lemma bd_create_stats ps mmap c1 c2 c3 m0 cap mb a m :
  hf_buddy_create ps mmap c1 c2 c3 m0 cap mb = Ok (Some (a, m)) → bd_stats a = stats_zero (bd_capacity a).
Proof.
  unfold hf_buddy_create. destruct (negb c1); [discriminate|]. destruct (_ =? NULL); [discriminate|]. destruct (_ || _); [discriminate|].
  destruct (bd_push _ _ _ _) as [[a1 m1]| | |] eqn:E; cbn [mbind outcome_bind]; try discriminate.
  intros H. injection H as <- _. apply bd_push_stats in E as [Es Ec]. rewrite Es, Ec. reflexivity.
Qed.

Lemma bp_create_stats ps mmap c1 c2 bs n a :
  hf_block_pool_create ps mmap c1 c2 bs n = Some a → bp_stats a = stats_zero (bp_capacity a).
Proof.
  unfold hf_block_pool_create. destruct (negb c1); [done|]. destruct (_ =? NULL); [done|]. destruct (negb c2); [done|]. by intros [= <-].
Qed.

(** C40. The statistics are right.  After any program of allocations of at
    most 2^62 bytes each, frees of owned blocks and writes to owned bytes, on a
    free list or a buddy allocator created with a capacity of at most 2^62, or
    on a block pool created with positive [bs] and [n] where (bs + 15) * n is at
    most 2^62: [used] is at least the sum of the bytes the client asked for and
    has not freed, and 0 when it has freed everything;
    [used <= peak_used <= capacity], the capacity is the size of the arena, the
    peak is the largest value [used] had after any step, [alloc_calls] counts
    the requests, and the requests that neither failed nor were freed are
    exactly the live blocks (the call counters modulo 2^64, their width). *)
Theorem stats_correct nd ps mmap os :
  page_size_ok ps → mmap_ok ps mmap → Forall (op_ok (2 ^ 62)) os →
  (∀ ok m0 cap pol a m, 0 ≤ cap ≤ 2 ^ 62 → hf_free_list_create ps mmap ok m0 cap pol = Some (a, m) →
     counters_after (hf_allocator_vtable0 := FL_VT nd) a m (fl_capacity a) os) ∧
  (∀ c1 c2 c3 m0 cap mb a m, 0 ≤ cap ≤ 2 ^ 62 → 0 ≤ mb ≤ 2 ^ 62 →
     hf_buddy_create ps mmap c1 c2 c3 m0 cap mb = Ok (Some (a, m)) →
     counters_after (hf_allocator_vtable0 := BD_VT nd) a m (bd_capacity a) os) ∧
  (∀ c1 c2 bs n a m, bp_geometry bs n → hf_block_pool_create ps mmap c1 c2 bs n = Some a →
     counters_after (hf_allocator_vtable0 := BP_VT nd) a m (bp_capacity a) os).
Proof.
  intros Hps Hm Hos. split_and!.
  - intros ok m0 cap pol a m Hcap Hc. apply (counters_after_fresh (StatsSpec0 := fl_stats_spec nd)); [|done|by eapply fl_create_stats|done].
    by eapply fl_create_inv.
  - intros c1 c2 c3 m0 cap mb a m Hcap Hmb Hc. pose proof (bd_create_inv _ _ _ _ _ _ _ _ _ _ Hps Hm Hcap Hmb Hc) as Hi.
    apply (counters_after_fresh (StatsSpec0 := bd_stats_spec nd)); [done| |by eapply bd_create_stats|done].
    destruct Hi as (T & F & Hwf & _). symmetry. apply (bg_cap _ (bc_geo _ _ _ _ (bw_core _ _ _ _ Hwf))).
  - intros c1 c2 bs n a m Hg Hc. apply (counters_after_fresh (StatsSpec0 := bp_stats_spec nd)); [|done|by eapply bp_create_stats|done].
    by apply (bp_create_inv ps mmap c1 c2 bs n a m).
Qed.

(** Witness of C40: a request that is served, one that fails and a free, on
    each of the three. *)
Lemma stats_correct_witness :
  let os := [CAlloc 40; CAlloc (2 ^ 40); CFree (2 ^ 20 + 16)] in
  counters_after (hf_allocator_vtable0 := FL_VT false) (ex_heap HF_FIT_FIRST).1 (ex_heap HF_FIT_FIRST).2 4096 os ∧
  counters_after (hf_allocator_vtable0 := BD_VT false) ex_buddy.1 ex_buddy.2 4096 os ∧
  counters_after (hf_allocator_vtable0 := BP_VT false) ex_pool ∅ 8192 os.
Proof.
  intros os. assert (Forall (op_ok (2 ^ 62)) os) as Hos by (repeat constructor; simpl; lia).
  destruct (stats_correct false 4096 ex_mmap os page_4096_ok ex_mmap_ok Hos) as (H1 & H2 & H3). split_and!.
  - apply (H1 true ∅ 4096 HF_FIT_FIRST); [lia|apply ex_heap_created].
  - apply (H2 true true true ∅ 4096 64); [lia|lia|reflexivity].
  - apply (H3 true true 60 128); [apply ex_pool_geometry|apply ex_pool_created].
Defined.
