(* ===== verification/Slab.v ===== *)
(** * The slab allocator ([c/src/hf_slab.c]): the code

    Slabs are mappings cut into slots of one size.  Free slots are linked
    through their first word: in the allocator's central list, or in the
    magazine of a thread.  The magazine is one thread-local variable of the
    module, [tl_magazine], not a field of the allocator: every slab allocator
    a thread uses shares it.  The world below therefore has the allocator, the
    magazine of every thread and the mappings the process has; an operation
    runs on behalf of one thread, under the allocator's lock. *)

From S2P Require Import Prelude Memory Platform Allocator.

(** [sl_alloc]; [sl_slabs] has the first [slab_count] elements of the array. *)
Record sl_alloc : Type := SlAlloc {
  obj_size : Z;
  slab_bytes : Z;
  slots_per_slab : Z;
  sl_slabs : list Z;
  slab_cap : Z;
  central_free : Z;
  sl_stats : hf_stats
}.

Definition slab_count (a : sl_alloc) : Z := Z.of_nat (length (sl_slabs a)).

(** [SL_BATCH]. *)
Definition SL_BATCH : Z := 32.

(** What a thread sees: an allocator, the magazines ([NULL] unless set) and
    the mappings (address, size) of the process. *)
Record sl_world : Type := SlWorld {
  w_alloc : sl_alloc;
  tl_magazine : gmap nat Z;
  w_maps : list (Z * Z)
}.

Definition magazine (w : sl_world) (t : nat) : Z := default NULL (tl_magazine w !! t).

Definition w_set_alloc (w : sl_world) (a : sl_alloc) : sl_world := SlWorld a (tl_magazine w) (w_maps w).
Definition w_set_mag (w : sl_world) (t : nat) (v : Z) : sl_world :=
  SlWorld (w_alloc w) (<[t := v]> (tl_magazine w)) (w_maps w).

Definition sl_set_free (a : sl_alloc) (v : Z) : sl_alloc :=
  SlAlloc (obj_size a) (slab_bytes a) (slots_per_slab a) (sl_slabs a) (slab_cap a) v (sl_stats a).
Definition sl_set_stats (a : sl_alloc) (v : hf_stats) : sl_alloc :=
  SlAlloc (obj_size a) (slab_bytes a) (slots_per_slab a) (sl_slabs a) (slab_cap a) (central_free a) v.

Definition slot_next (m : mem) (s : Z) : Z := load64 m s.
Definition set_slot_next (m : mem) (s v : Z) : mem := store64 m s v.

(** [stats.capacity += n]. *)
Definition grow_capacity (n : Z) (s : hf_stats) : hf_stats :=
  Stats (capacity s +% n) (used s) (peak_used s) (alloc_calls s) (free_calls s) (failed_allocs s).

(** The loop of [sl_grow]: links slots [i - 1], ..., 0 in front of [head]. *)
Fixpoint sl_link (m : mem) (base obj : Z) (i : nat) (head : Z) : mem * Z :=
  match i with
  | O => (m, head)
  | S i =>
      let s := base + Z.of_nat i * obj in
      sl_link (set_slot_next m s head) base obj i s
  end.

Section ops.
(** The page size, what [mmap] answers given the current mappings, and
    whether [realloc] to a number of elements succeeds. *)
Context (ps : Z) (mmap : list (Z * Z) → Z → option Z) (realloc_ok : Z → bool).

Definition sl_grow (w : sl_world) (m : mem) : sl_world * mem :=
  let a := w_alloc w in
  let base := hf_vm_reserve ps (mmap (w_maps w)) (slab_bytes a) in
  if base =? NULL then (w, m) else
  let region := (base, hf_align_up (slab_bytes a) ps) in
  let '(m, head) := sl_link m base (obj_size a) (Z.to_nat (slots_per_slab a)) (central_free a) in
  let a := sl_set_free a head in
  let full := slab_count a =? slab_cap a in
  let nc := if slab_cap a =? 0 then 8 else slab_cap a *% 2 in
  if full && negb (realloc_ok nc) then (w_set_alloc w a, m) else
  let cap := if full then nc else slab_cap a in
  let a := SlAlloc (obj_size a) (slab_bytes a) (slots_per_slab a) (sl_slabs a ++ [base]) cap
             (central_free a) (grow_capacity (slab_bytes a) (sl_stats a)) in
  (SlWorld a (tl_magazine w) (region :: w_maps w), m).

(** [while (tail->next && n < SL_BATCH) { tail = tail->next; ++n; }], with
    [k = SL_BATCH - n] rounds at most. *)
Fixpoint sl_batch (m : mem) (tail : Z) (k : nat) : Z :=
  match k with
  | O => tail
  | S k => if slot_next m tail =? NULL then tail else sl_batch m (slot_next m tail) k
  end.

Definition sl_refill (w : sl_world) (m : mem) (t : nat) : sl_world * mem :=
  let '(w, m) := if central_free (w_alloc w) =? NULL then sl_grow w m else (w, m) in
  if central_free (w_alloc w) =? NULL then (w, m) else
  let head := central_free (w_alloc w) in
  let tail := sl_batch m head (Z.to_nat (SL_BATCH - 1)) in
  let w := w_set_alloc w (sl_set_free (w_alloc w) (slot_next m tail)) in
  let m := set_slot_next m tail NULL in
  (w_set_mag w t head, m).

Definition sl_allocate (t : nat) (w : sl_world) (m : mem) (size alignment : Z) : outcome (sl_world * mem * Z) :=
  let bump f w := w_set_alloc w (sl_set_stats (w_alloc w) (f (sl_stats (w_alloc w)))) in
  let w := bump bump_alloc w in
  if size >? obj_size (w_alloc w) then Ok (bump bump_failed w, m, NULL) else
  let '(w, m) := if magazine w t =? NULL then sl_refill w m t else (w, m) in
  if magazine w t =? NULL then Ok (bump bump_failed w, m, NULL) else
  let s := magazine w t in
  let w := w_set_mag w t (slot_next m s) in
  let w := bump (λ st, raise_peak (set_used (used st +% obj_size (w_alloc w)) st)) w in
  Ok (w, m, s).

Definition sl_deallocate (t : nat) (w : sl_world) (m : mem) (ptr : Z) : outcome (sl_world * mem) :=
  if ptr =? NULL then Ok (w, m) else
  let st := bump_free (sl_stats (w_alloc w)) in
  let st := set_used (used st -% obj_size (w_alloc w)) st in
  let w := w_set_alloc w (sl_set_stats (w_alloc w) st) in
  let m := set_slot_next m ptr (magazine w t) in
  Ok (w_set_mag w t ptr, m).

Definition sl_name (w : sl_world) : string := "Slab".

Definition sl_get_stats (w : sl_world) : hf_stats := sl_stats (w_alloc w).

(** The loop of [sl_walk] over [n] more slabs. *)
Fixpoint sl_walk_loop (bytes off remaining : Z) (n : nat) : list hf_block_info :=
  match n with
  | O => []
  | S n =>
      let used := if remaining <? bytes then remaining else bytes in
      let remaining := remaining -% used in
      (if used =? 0 then [] else [BlockInfo off used false]) ++
      (if used <? bytes then [BlockInfo (off +% used) (bytes -% used) true] else []) ++
      sl_walk_loop bytes (off +% bytes) remaining n
  end.

Definition sl_walk (w : sl_world) (m : mem) : outcome (list hf_block_info) :=
  let a := w_alloc w in
  Ok (sl_walk_loop (slab_bytes a) 0 (used (sl_stats a)) (length (sl_slabs a))).

(** The mappings [hf_vm_release] is called on.  The magazines keep their
    slots. *)
Definition sl_destroy (w : sl_world) (m : mem) : outcome (list (Z * Z)) :=
  Ok ((λ s, (s, slab_bytes (w_alloc w))) <$> sl_slabs (w_alloc w)).

#[global] Instance SL_VT (t : nat) : hf_allocator_vtable sl_world := {
  vt_allocate := sl_allocate t;
  vt_deallocate := sl_deallocate t;
  vt_name := sl_name;
  vt_get_stats := sl_get_stats;
  vt_walk := sl_walk;
  vt_destroyed := list (Z * Z);
  vt_destroy := sl_destroy
}.

(** An object size that rounds to 0 makes the division trap. *)
Definition hf_slab_create (calloc_ok : bool) (object_size slab_bytes : Z) : outcome (option sl_alloc) :=
  let obj := if object_size <? 8 then 8 else object_size in
  let obj := hf_align_up obj HF_DEFAULT_ALIGN in
  let slab_bytes := if slab_bytes =? 0 then 64 * 1024 else slab_bytes in
  let slab_bytes := hf_align_up slab_bytes ps in
  if obj =? 0 then Fault else
  if slab_bytes / obj =? 0 then Ok None else
  if negb calloc_ok then Ok None else
  Ok (Some (SlAlloc obj slab_bytes (slab_bytes / obj) [] 0 NULL (stats_zero 0))).
End ops.
