(* ===== verification/SlabProofs.v ===== *)
(** * The slab allocator: correctness

    Every slot of every slab has one owner: the central list, the magazine of
    one thread, or a client.  The operations move slots between owners; run by
    any threads in any order they meet the interface of [Allocator].  The last
    part shows what the shared magazine does when a thread uses two slab
    allocators. *)

From S2P Require Import Prelude Memory Platform Allocator Slab.

Inductive owner : Type := ONone | OCentral | OMag (t : nat) | OLive.

#[global] Instance owner_eq_dec : EqDecision owner.
Proof. solve_decision. Defined.

(** The slots of [l] are linked, the last one pointing at [nx]. *)
Fixpoint sseg (m : mem) (l : list Z) (nx : Z) : Prop :=
  match l with
  | [] => True
  | s :: l => slot_next m s = hd nx l ∧ sseg m l nx
  end.

Definition is_slot (a : sl_alloc) (p : Z) : Prop :=
  ∃ b i, b ∈ sl_slabs a ∧ 0 ≤ i < slots_per_slab a ∧ p = b + i * obj_size a.

Record sl_geo (w : sl_world) : Prop := {
  sg_obj : 16 ≤ obj_size (w_alloc w) ∧ (16 | obj_size (w_alloc w));
  sg_slots : 0 < slots_per_slab (w_alloc w) ∧
    slots_per_slab (w_alloc w) * obj_size (w_alloc w) ≤ slab_bytes (w_alloc w) ≤ 2 ^ 62;
  sg_slab b : b ∈ sl_slabs (w_alloc w) →
    0 < b ∧ (16 | b) ∧ b + slab_bytes (w_alloc w) ≤ 2 ^ 64 ∧
    ∃ n, (b, n) ∈ w_maps w ∧ slab_bytes (w_alloc w) ≤ n;
  sg_apart b c : b ∈ sl_slabs (w_alloc w) → c ∈ sl_slabs (w_alloc w) → b ≠ c →
    b + slab_bytes (w_alloc w) ≤ c ∨ c + slab_bytes (w_alloc w) ≤ b
}.

Record sl_wf (w : sl_world) (m : mem) (O : Z → owner) (C : list Z) (M : nat → list Z) : Prop := {
  sw_geo : sl_geo w;
  sw_slot p : is_slot (w_alloc w) p ↔ O p ≠ ONone;
  sw_central : central_free (w_alloc w) = hd NULL C ∧ sseg m C NULL ∧ NoDup C;
  sw_mag t : magazine w t = hd NULL (M t) ∧ sseg m (M t) NULL ∧ NoDup (M t);
  sw_in_central p : p ∈ C ↔ O p = OCentral;
  sw_in_mag t p : p ∈ M t ↔ O p = OMag t
}.

(** How many blocks are live. *)
Definition live_count (L : live_map) : Z := Z.of_nat (base.size L).

Definition sl_inv (w : sl_world) (m : mem) (L : live_map) : Prop :=
  ∃ O C M, sl_wf w m O C M ∧
    (∀ p n, L !! p = Some n → O p = OLive ∧ 0 ≤ n ≤ obj_size (w_alloc w)) ∧
    (∀ p, O p = OLive → is_Some (L !! p)) ∧
    used (sl_stats (w_alloc w)) = wrap64 (obj_size (w_alloc w) * live_count L).

(** ** Slots *)

Section geo.
Context (w : sl_world) (Hg : sl_geo w).
Abbreviation obj := (obj_size (w_alloc w)).

Lemma slot_bounds p : is_slot (w_alloc w) p → 0 < p ∧ p + obj ≤ 2 ^ 64 ∧ (16 | p).
Proof.
  intros (b & i & Hb & Hi & ->). destruct Hg as [[? Hd] [? [? ?]] Hs _].
  destruct (Hs b Hb) as (? & Hbd & ? & _). split_and!; [nia|nia|].
  apply Z.divide_add_r; [done|by apply Z.divide_mul_r].
Qed.

Lemma slots_apart p q : is_slot (w_alloc w) p → is_slot (w_alloc w) q → p ≠ q → p + obj ≤ q ∨ q + obj ≤ p.
Proof.
  intros (b & i & Hb & Hi & ->) (c & j & Hc & Hj & ->) Hne. destruct Hg as [[? _] [? [? _]] _ Ha].
  destruct (decide (b = c)) as [->|Hbc].
  - assert (i ≠ j) as Hij by (intros ->; done). destruct (decide (i < j)); nia.
  - destruct (Ha b c Hb Hc Hbc); nia.
Qed.

(** Writing the link of one slot leaves those of the others. *)
Lemma slot_next_set m p v q : is_slot (w_alloc w) p → is_slot (w_alloc w) q →
  slot_next (set_slot_next m p v) q = if decide (q = p) then wrap64 v else slot_next m q.
Proof.
  intros Hp Hq. unfold slot_next, set_slot_next. case_decide as E.
  - subst. apply load64_store64_eq.
  - apply load64_store64_ne. destruct Hg as [[? _] _ _ _]. destruct (slots_apart p q Hp Hq ltac:(done)); lia.
Qed.

Lemma sseg_set m l nx p v : is_slot (w_alloc w) p → (∀ q, q ∈ l → is_slot (w_alloc w) q ∧ q ≠ p) →
  sseg m l nx → sseg (set_slot_next m p v) l nx.
Proof.
  intros Hp. induction l as [|s l IH]; intros Hl H; [done|]. destruct H as [H1 H2].
  destruct (Hl s ltac:(left)) as [Hs Hsp]. split.
  - by rewrite slot_next_set, decide_False by done.
  - apply IH; [|done]. intros q Hq. apply Hl. by right.
Qed.

Lemma hd_slot_u64 l : (∀ q, q ∈ l → is_slot (w_alloc w) q) → is_u64 (hd NULL l).
Proof.
  intros Hl. destruct l as [|s l]; simpl; [ulia|]. destruct (slot_bounds s (Hl s ltac:(left))) as (? & ? & _).
  destruct Hg as [[? _] _ _ _]. ulia.
Qed.
End geo.

Lemma sseg_app m l1 l2 nx : sseg m (l1 ++ l2) nx ↔ sseg m l1 (hd nx l2) ∧ sseg m l2 nx.
Proof.
  induction l1 as [|s l1 IH]; simpl; [tauto|]. rewrite IH. destruct l1; simpl; tauto.
Qed.

Lemma sseg_agree m m' l nx : agree_on (λ x, ∃ s, s ∈ l ∧ range s 8 x) m m' → sseg m l nx → sseg m' l nx.
Proof.
  induction l as [|s l IH]; intros Hag H; [done|]. destruct H as [H1 H2]. split.
  - rewrite <- H1. apply load64_agree. intros x Hx. apply Hag. exists s. split; [left|done].
  - apply IH; [|done]. intros x (q & Hq & Hx). apply Hag. exists q. split; [by right|done].
Qed.

(** Bytes of slots that clients own. *)
Definition live_slots (O : Z → owner) (obj : Z) (x : Z) : Prop := ∃ p, O p = OLive ∧ range p obj x.

(** Writing the link of a slot no client owns. *)
Lemma live_slots_set w m O C M p v : sl_wf w m O C M → O p ≠ ONone → O p ≠ OLive →
  agree_on (live_slots O (obj_size (w_alloc w))) m (set_slot_next m p v).
Proof.
  intros Hw Hp Hl. apply agree_on_store64. intros x (q & Hq & Hx) Hr.
  pose proof (sw_geo _ _ _ _ _ Hw) as Hg. apply (sw_slot _ _ _ _ _ Hw) in Hp as Hps.
  assert (is_slot (w_alloc w) q) as Hqs by (apply (sw_slot _ _ _ _ _ Hw); congruence).
  pose proof (sg_obj _ Hg) as [? _].
  destruct (slots_apart w Hg p q Hps Hqs ltac:(congruence)); rlia.
Qed.

(** ** Growing *)

Definition new_slots (base obj : Z) (n : nat) : list Z := (λ i, base + Z.of_nat i * obj) <$> seq 0 n.

Lemma new_slots_S base obj n : new_slots base obj (S n) = new_slots base obj n ++ [base + Z.of_nat n * obj].
Proof. unfold new_slots. by rewrite seq_S, fmap_app. Qed.

Lemma elem_of_new_slots base obj n p :
  p ∈ new_slots base obj n ↔ ∃ i, 0 ≤ i < Z.of_nat n ∧ p = base + i * obj.
Proof.
  unfold new_slots. rewrite list_elem_of_fmap. split.
  - intros (i & -> & Hi). apply elem_of_seq in Hi. exists (Z.of_nat i). split; [lia|done].
  - intros (i & Hi & ->). exists (Z.to_nat i). rewrite Z2Nat.id by lia. split; [done|]. apply elem_of_seq. lia.
Qed.

Lemma new_slots_nodup base obj n : 0 < obj → NoDup (new_slots base obj n).
Proof.
  intros Ho. unfold new_slots. apply NoDup_fmap_2; [|apply NoDup_seq]. intros i j E. nia.
Qed.

Lemma sl_link_spec n : ∀ m base obj head, 8 ≤ obj → is_u64 head → 0 ≤ base → base + Z.of_nat n * obj ≤ 2 ^ 64 →
  ∃ m', sl_link m base obj n head = (m', hd head (new_slots base obj n)) ∧ sseg m' (new_slots base obj n) head ∧
    agree_on (λ x, x < base ∨ base + Z.of_nat n * obj ≤ x) m m'.
Proof.
  induction n as [|n IH]; intros m base obj head Ho Hh Hb Hsp; [by exists m|].
  set (s := base + Z.of_nat n * obj). assert (is_u64 s) as Hs by (unfold s; ulia).
  destruct (IH (set_slot_next m s head) base obj s Ho Hs Hb ltac:(lia)) as (m' & E & Hseg & Hag).
  exists m'. cbn [sl_link]. fold s. rewrite E, new_slots_S. fold s. split_and!.
  - f_equal. by destruct (new_slots base obj n).
  - apply sseg_app. split; [done|]. simpl. split; [|done].
    transitivity (slot_next (set_slot_next m s head) s).
    + apply load64_agree. intros x Hx. apply Hag. right. unfold s in Hx. rlia.
    + unfold slot_next, set_slot_next. rewrite load64_store64_eq. by apply wrap64_small.
  - eapply agree_on_trans; [|eapply agree_on_sub; [exact Hag|]].
    + apply agree_on_store64. intros x Hx Hr. unfold s in Hr. rlia.
    + intros x [Hx|Hx]; [by left|right; lia].
Qed.

Section spec.
Context (ps : Z) (mmap : list (Z * Z) → Z → option Z) (realloc_ok : Z → bool).
Context (Hps : page_size_ok ps) (Hmm : mmap_fresh ps mmap) (Hra : ∀ n, realloc_ok n = true).

(** What no operation changes of the allocator. *)
Definition sl_same (w w' : sl_world) : Prop :=
  obj_size (w_alloc w') = obj_size (w_alloc w) ∧ slab_bytes (w_alloc w') = slab_bytes (w_alloc w) ∧
  used (sl_stats (w_alloc w')) = used (sl_stats (w_alloc w)).

(** Another slab, apart from the others. *)
Lemma sl_geo_grow w base n cap free st mag : let a := w_alloc w in sl_geo w →
  0 < base → (16 | base) → base + slab_bytes a ≤ 2 ^ 64 → slab_bytes a ≤ n →
  (∀ b, b ∈ sl_slabs a → base + slab_bytes a ≤ b ∨ b + slab_bytes a ≤ base) →
  sl_geo (SlWorld (SlAlloc (obj_size a) (slab_bytes a) (slots_per_slab a) (sl_slabs a ++ [base]) cap free st) mag ((base, n) :: w_maps w)).
Proof.
  intros a [Ho Hs Hslab Hap] B1 B2 B3 Hn Hnew. split; simpl; try done.
  - intros b Hb. apply elem_of_app in Hb as [Hb|Hb].
    + destruct (Hslab b Hb) as (? & ? & ? & k & Hk & ?). split_and!; try done. exists k. split; [by right|done].
    + apply list_elem_of_singleton in Hb as ->. split_and!; try done. exists n. split; [left|done].
  - intros b c Hb Hc Hne. apply elem_of_app in Hb, Hc. destruct Hb as [Hb|Hb], Hc as [Hc|Hc].
    + by apply Hap.
    + apply list_elem_of_singleton in Hc as ->. destruct (Hnew b Hb); lia.
    + apply list_elem_of_singleton in Hb as ->. destruct (Hnew c Hc); lia.
    + apply list_elem_of_singleton in Hb as ->, Hc as ->. done.
Qed.

Lemma is_slot_grow a base cap free st p : 0 ≤ slots_per_slab a →
  is_slot (SlAlloc (obj_size a) (slab_bytes a) (slots_per_slab a) (sl_slabs a ++ [base]) cap free st) p ↔
  p ∈ new_slots base (obj_size a) (Z.to_nat (slots_per_slab a)) ∨ is_slot a p.
Proof.
  intros H0. unfold is_slot. simpl. rewrite elem_of_new_slots, Z2Nat.id by done. split.
  - intros (b & i & Hb & Hi & ->). apply elem_of_app in Hb as [Hb|Hb]; [right; by exists b, i|]. apply list_elem_of_singleton in Hb as ->.
    left. by exists i.
  - intros [(i & Hi & ->)|(b & i & Hb & Hi & ->)]; [exists base, i|exists b, i]; split_and!; try done; try lia; elem.
Qed.

Lemma sl_grow_spec w m O C M : sl_wf w m O C M →
  ∃ w' m' O' C', sl_grow ps mmap realloc_ok w m = (w', m') ∧ sl_wf w' m' O' C' M ∧ sl_same w w' ∧
    (∀ p, O' p = OLive ↔ O p = OLive) ∧ tl_magazine w' = tl_magazine w ∧
    agree_on (live_slots O (obj_size (w_alloc w))) m m'.
Proof.
  intros Hw. pose proof (sw_geo _ _ _ _ _ Hw) as Hg. pose proof Hg as [[Ho Hod] [Hs1 [Hs2 Hs3]] Hslab Hap].
  unfold sl_grow. set (a := w_alloc w) in *. set (base := hf_vm_reserve _ _ _).
  destruct (base =? NULL) eqn:E0; [by exists w, m, O, C|]. zb.
  pose proof (page_size_bounds ps Hps) as (Hpb & Hp16 & _).
  assert (hf_align_up (slab_bytes a) ps = round_up (slab_bytes a) ps) as Eal by (apply hf_align_up_page; done || lia).
  pose proof (round_up_ge (slab_bytes a) ps ltac:(lia)) as Hru.
  assert (0 < base ∧ (ps | base) ∧ base + round_up (slab_bytes a) ps ≤ 2 ^ 64 ∧
    (∀ q n, (q, n) ∈ w_maps w → base + round_up (slab_bytes a) ps ≤ q ∨ q + n ≤ base)) as (B1 & B2 & B3 & B4).
  { apply vm_reserve_fresh; [done|done|lia|done]. }
  assert (16 | base) as Hb16 by (by apply (Z.divide_trans _ ps)). clearbody base.
  pose proof (sw_central _ _ _ _ _ Hw) as (Ecf & HsC & HndC). fold a in Ecf.
  assert (∀ q, q ∈ C → is_slot a q) as HCs.
  { intros q Hq. apply (sw_slot _ _ _ _ _ Hw). apply (sw_in_central _ _ _ _ _ Hw) in Hq. congruence. }
  pose proof (hd_slot_u64 w Hg C HCs) as Hhu.
  set (ns := Z.to_nat (slots_per_slab a)) in *. set (new := new_slots base (obj_size a) ns) in *.
  assert (Z.of_nat ns * obj_size a ≤ slab_bytes a) as Hns by (unfold ns; rewrite Z2Nat.id by lia; lia).
  destruct (sl_link_spec ns m base (obj_size a) (central_free a)) as (m' & El & Hseg & Hag);
    [lia|by rewrite Ecf|lia|lia|]. fold new in El, Hseg. rewrite El. rewrite Hra, andb_false_r.
  assert (∀ b, b ∈ sl_slabs a → base + slab_bytes a ≤ b ∨ b + slab_bytes a ≤ base) as Hnew.
  { intros b Hb. destruct (Hslab b Hb) as (_ & _ & _ & n & Hn & ?). destruct (B4 b n Hn); lia. }
  assert (∀ p, is_slot a p → p + obj_size a ≤ base ∨ base + slab_bytes a ≤ p) as Hold.
  { intros p (b & i & Hb & Hi & ->). fold a in Hi. destruct (Hnew b Hb); nia. }
  assert (∀ p, p ∈ new → base ≤ p ∧ p + obj_size a ≤ base + slab_bytes a) as Hin.
  { intros p Hp. apply elem_of_new_slots in Hp as (i & Hi & ->). nia. }
  assert (∀ p, p ∈ new → O p = ONone) as HOn.
  { intros p Hp. destruct (decide (O p = ONone)) as [|Hne]; [done|]. apply (sw_slot _ _ _ _ _ Hw) in Hne.
    apply Hold in Hne. apply Hin in Hp. lia. }
  assert (∀ l, (∀ q, q ∈ l → is_slot a q) → sseg m l NULL → sseg m' l NULL) as Hkeep.
  { intros l Hl. apply sseg_agree. intros x (q & Hq & Hx). apply Hag. apply Hl, Hold in Hq.
    destruct Hq as [?|?]; [left|right]; rlia. }
  eexists _, m', (λ p, if decide (p ∈ new) then OCentral else O p), (new ++ C). split; [reflexivity|].
  split; [split|split_and!]; simpl; try done.
  - apply sl_geo_grow; try done; fold a; rewrite ?Eal; lia.
  - intros p. fold a. rewrite (is_slot_grow a) by lia. fold ns new. pose proof (sw_slot _ _ _ _ _ Hw p) as Hsl. fold a in Hsl. rewrite Hsl. case_decide; [split; auto|]. split; [by intros [|]|auto].
  - split_and!.
    + rewrite Ecf. by destruct new.
    + apply sseg_app. split; [by rewrite <- Ecf|by apply Hkeep].
    + apply NoDup_app. split_and!; [apply new_slots_nodup; lia| |done]. intros p Hp Hc.
      apply (sw_in_central _ _ _ _ _ Hw) in Hc. rewrite (HOn p Hp) in Hc. done.
  - intros t. destruct (sw_mag _ _ _ _ _ Hw t) as (? & ? & ?). split_and!; try done. apply Hkeep; [|done].
    intros q Hq. apply (sw_slot _ _ _ _ _ Hw). apply (sw_in_mag _ _ _ _ _ Hw) in Hq. congruence.
  - intros p. rewrite elem_of_app, (sw_in_central _ _ _ _ _ Hw). case_decide; [split; auto|]. split; [by intros [?|?]|auto].
  - intros t p. rewrite (sw_in_mag _ _ _ _ _ Hw). case_decide as Hd; [|done]. rewrite (HOn p Hd). done.
  - intros p. case_decide as Hd; [|done]. rewrite (HOn p Hd). done.
  - intros x (p & Hp & Hx). apply Hag. assert (is_slot a p) as Hsl by (apply (sw_slot _ _ _ _ _ Hw); congruence).
    apply Hold in Hsl. destruct Hsl as [?|?]; [left|right]; rlia.
Qed.

(** ** Refilling a magazine *)

Lemma sl_batch_spec m k : ∀ s l, sseg m (s :: l) NULL → (∀ q, q ∈ l → 0 < q) →
  ∃ l1 l2, s :: l = l1 ++ sl_batch m s k :: l2 ∧ slot_next m (sl_batch m s k) = hd NULL l2 ∧
    (length l1 ≤ k)%nat.
Proof.
  induction k as [|k IH]; intros s l H Hpos.
  { exists [], l. split_and!; [done|apply H|done]. }
  cbn [sl_batch]. destruct H as [H1 H2]. rewrite H1. destruct l as [|q l]; simpl.
  { exists [], []. split_and!; [done|done|simpl; lia]. }
  rewrite (proj2 (Z.eqb_neq _ _)) by (specialize (Hpos q ltac:(left)); lia).
  destruct (IH q l H2) as (l1 & l2 & E & En & Hl); [intros x Hx; apply Hpos; by right|].
  exists (s :: l1), l2. rewrite E. split_and!; [done|done|simpl; lia].
Qed.

Lemma wf_slot w m O C M p : sl_wf w m O C M → O p ≠ ONone → is_slot (w_alloc w) p.
Proof. intros Hw H. by apply (sw_slot _ _ _ _ _ Hw). Qed.

Lemma magazine_set w t v u : magazine (w_set_mag w t v) u = if decide (u = t) then v else magazine w u.
Proof.
  unfold magazine, w_set_mag. simpl. case_decide as E; [subst; by rewrite lookup_insert_eq|].
  by rewrite lookup_insert_ne.
Qed.

(** A prefix of the central list becomes the magazine of a thread that has
    none. *)
Lemma sl_take_batch w m O C M t : sl_wf w m O C M → M t = [] → C ≠ [] →
  let head := central_free (w_alloc w) in
  let tail := sl_batch m head (Z.to_nat (SL_BATCH - 1)) in
  let w' := w_set_mag (w_set_alloc w (sl_set_free (w_alloc w) (slot_next m tail))) t head in
  let m' := set_slot_next m tail NULL in
  ∃ O' C' M', sl_wf w' m' O' C' M' ∧ M' t ≠ [] ∧ (length (M' t) ≤ 32)%nat ∧ (∀ p, O' p = OLive ↔ O p = OLive) ∧
    agree_on (live_slots O (obj_size (w_alloc w))) m m'.
Proof.
  intros Hw HMt HC. pose proof (sw_geo _ _ _ _ _ Hw) as Hg.
  pose proof (sw_central _ _ _ _ _ Hw) as (Ecf & HsC & HndC).
  assert (∀ q, q ∈ C → is_slot (w_alloc w) q) as HCs.
  { intros q Hq. apply (wf_slot _ _ _ _ _ _ Hw). apply (sw_in_central _ _ _ _ _ Hw) in Hq. congruence. }
  destruct C as [|s l]; [done|]. simpl in Ecf.
  destruct (sl_batch_spec m (Z.to_nat (SL_BATCH - 1)) s l HsC) as (l1 & l2 & El & En & Hlen).
  { intros q Hq. by apply (slot_bounds w Hg q), HCs; right. }
  cbv zeta. rewrite Ecf. set (tl := sl_batch m s _) in *. clearbody tl.
  set (w' := w_set_mag _ _ _). set (m' := set_slot_next m tl NULL). rewrite El in *.
  apply NoDup_app in HndC as (Hnd1 & Hd12 & Hnd2). apply NoDup_cons in Hnd2 as [Htl2 Hnd2].
  apply sseg_app in HsC as [HsC1 HsC2]. simpl in HsC1. destruct HsC2 as [_ HsC2].
  assert (O tl = OCentral) as HOt by (apply (sw_in_central _ _ _ _ _ Hw); elem).
  assert (is_slot (w_alloc w) tl) as Htls by (apply HCs; elem).
  assert (tl ∉ l1) as Htl1 by (intros Hx; apply (Hd12 tl Hx); left).
  exists (λ p, if decide (p ∈ l1 ++ [tl]) then OMag t else O p), l2, (λ u, if decide (u = t) then l1 ++ [tl] else M u).
  assert (∀ l', (∀ q, q ∈ l' → is_slot (w_alloc w) q ∧ q ≠ tl) → sseg m l' NULL → sseg m' l' NULL) as Hkeep.
  { intros l' Hl'. by apply (sseg_set w Hg). }
  split; [split|split_and!].
  - destruct Hg as [? ? ? ?]. split; done.
  - intros p. case_decide as Hd; [|apply (sw_slot _ _ _ _ _ Hw)]. split; [done|]. intros _. apply HCs. elem.
  - split_and!; [done| |done]. apply Hkeep; [|done]. intros q Hq. split; [apply HCs; elem|]. by intros ->.
  - intros u. unfold w'; rewrite magazine_set. case_decide as Eu; [|].
    + split_and!.
      * by destruct l1; simplify_eq/=.
      * apply sseg_app. split; [apply (sseg_set w Hg); [done| |done]|].
        -- intros q Hq. split; [apply HCs; elem|]. by intros ->.
        -- simpl. split; [|done]. unfold m'. by rewrite (slot_next_set w Hg), decide_True.
      * apply NoDup_app. split_and!; [done| |apply NoDup_singleton]. intros x Hx Hx'.
        apply list_elem_of_singleton in Hx' as ->. done.
    + destruct (sw_mag _ _ _ _ _ Hw u) as (? & ? & ?). split_and!; try done. apply Hkeep; [|done].
      intros q Hq. apply (sw_in_mag _ _ _ _ _ Hw) in Hq. split; [apply (wf_slot _ _ _ _ _ _ Hw); congruence|]. congruence.
  - intros p. pose proof (sw_in_central _ _ _ _ _ Hw p) as Hp. case_decide as Hd.
    + split; [|done]. intros Hp2. exfalso. apply elem_of_app in Hd as [Hd|Hd]; [apply (Hd12 p Hd); by right|].
      apply list_elem_of_singleton in Hd as ->. done.
    + rewrite <- Hp. elem.
  - intros u p. pose proof (sw_in_mag _ _ _ _ _ Hw u p) as Hp. case_decide as Eu; case_decide as Hd; try done.
    + subst. split; done.
    + rewrite <- Hp. subst. rewrite HMt. split; [done|]. elem.
    + split; [|congruence]. intros Hx. apply Hp in Hx.
      assert (O p = OCentral) by (apply (sw_in_central _ _ _ _ _ Hw); elem). congruence.
  - case_decide; [|done]. by destruct l1.
  - case_decide; [|done]. rewrite length_app. simpl. unfold SL_BATCH in Hlen. lia.
  - intros p. case_decide as Hd; [|done]. split; [done|]. intros Hp.
    assert (O p = OCentral) by (apply (sw_in_central _ _ _ _ _ Hw); elem). congruence.
  - by apply (live_slots_set w m O (l1 ++ tl :: l2) M); [|congruence..].
Qed.

Lemma sl_same_trans w1 w2 w3 : sl_same w1 w2 → sl_same w2 w3 → sl_same w1 w3.
Proof. intros (? & ? & ?) (? & ? & ?). split_and!; congruence. Qed.

Lemma live_slots_eq O O' obj x : (∀ p, O' p = OLive ↔ O p = OLive) → live_slots O' obj x ↔ live_slots O obj x.
Proof. intros H. split; intros (p & Hp & Hx); exists p; (split; [by apply H|done]). Qed.

Lemma sl_refill_spec w m O C M t : sl_wf w m O C M → M t = [] →
  ∃ w' m' O' C' M', sl_refill ps mmap realloc_ok w m t = (w', m') ∧ sl_wf w' m' O' C' M' ∧ sl_same w w' ∧
    (∀ p, O' p = OLive ↔ O p = OLive) ∧ agree_on (live_slots O (obj_size (w_alloc w))) m m'.
Proof.
  intros Hw HMt. unfold sl_refill.
  assert (∃ w1 m1 O1 C1, (if central_free (w_alloc w) =? NULL then sl_grow ps mmap realloc_ok w m else (w, m)) = (w1, m1) ∧
    sl_wf w1 m1 O1 C1 M ∧ sl_same w w1 ∧ (∀ p, O1 p = OLive ↔ O p = OLive) ∧
    agree_on (live_slots O (obj_size (w_alloc w))) m m1) as (w1 & m1 & O1 & C1 & -> & Hw1 & Hs1 & Hl1 & Hag1).
  { destruct (_ =? NULL); [|by exists w, m, O, C].
    destruct (sl_grow_spec w m O C M Hw) as (w1 & m1 & O1 & C1 & ? & ? & ? & ? & _ & ?). by exists w1, m1, O1, C1. }
  pose proof (sw_central _ _ _ _ _ Hw1) as (Ecf & _).
  destruct (central_free (w_alloc w1) =? NULL) eqn:E; [by exists w1, m1, O1, C1, M|]. zb.
  assert (C1 ≠ []) as HC1 by (intros ->; simpl in Ecf; congruence).
  destruct (sl_take_batch w1 m1 O1 C1 M t Hw1 HMt HC1) as (O2 & C2 & M2 & Hw2 & _ & _ & Hl2 & Hag2).
  eexists _, _, O2, C2, M2. split; [reflexivity|]. split; [exact Hw2|]. split_and!.
  - exact Hs1.
  - intros p. etransitivity; [apply Hl2|apply Hl1].
  - eapply agree_on_trans; [exact Hag1|]. destruct Hs1 as (Eo & _). rewrite Eo in Hag2. eapply agree_on_sub; [exact Hag2|].
    intros x. by apply live_slots_eq.
Qed.

Definition upd_mag (M : nat → list Z) (t : nat) (l : list Z) (u : nat) : list Z := if decide (u = t) then l else M u.
Definition upd_own (O : Z → owner) (p : Z) (o : owner) (q : Z) : owner := if decide (q = p) then o else O q.

(** The first slot of a magazine goes to a client. *)
Lemma sl_pop_spec w m O C M t s l : sl_wf w m O C M → M t = s :: l →
  sl_wf (w_set_mag w t (slot_next m s)) m (upd_own O s OLive) C (upd_mag M t l) ∧ O s = OMag t.
Proof.
  intros Hw EM. assert (O s = OMag t) as HO by (apply (sw_in_mag _ _ _ _ _ Hw); rewrite EM; left). split; [|done].
  destruct (sw_mag _ _ _ _ _ Hw t) as (_ & Hseg & Hnd). rewrite EM in Hseg, Hnd. destruct Hseg as [Hn Hseg].
  apply NoDup_cons in Hnd as [Hsl Hnd]. unfold upd_own, upd_mag. split.
  - destruct (sw_geo _ _ _ _ _ Hw). split; done.
  - intros p. case_decide as E; [|apply (sw_slot _ _ _ _ _ Hw)]. subst. split; [done|]. intros _.
    apply (wf_slot _ _ _ _ _ _ Hw). congruence.
  - apply (sw_central _ _ _ _ _ Hw).
  - intros u. rewrite magazine_set. case_decide; [done|apply (sw_mag _ _ _ _ _ Hw)].
  - intros p. rewrite (sw_in_central _ _ _ _ _ Hw). case_decide as E; [|done]. subst. rewrite HO. done.
  - intros u p. pose proof (sw_in_mag _ _ _ _ _ Hw u p) as Hp. case_decide as Eu; case_decide as E; subst.
    + split; [|done]. intros ?. done.
    + rewrite <- Hp, EM. rewrite elem_of_cons. split; [by right|]. by intros [?|?].
    + rewrite Hp, HO. split; [|done]. intros [= ->]. done.
    + done.
Qed.

(** A slot of a client goes to the front of a magazine. *)
Lemma sl_push_spec w m O C M t s : sl_wf w m O C M → O s = OLive →
  sl_wf (w_set_mag w t s) (set_slot_next m s (magazine w t)) (upd_own O s (OMag t)) C (upd_mag M t (s :: M t)).
Proof.
  intros Hw HO. pose proof (sw_geo _ _ _ _ _ Hw) as Hg.
  assert (is_slot (w_alloc w) s) as Hs by (apply (wf_slot _ _ _ _ _ _ Hw); congruence).
  destruct (sw_mag _ _ _ _ _ Hw t) as (Em & Hseg & Hnd).
  assert (∀ u q, q ∈ M u → is_slot (w_alloc w) q ∧ q ≠ s) as HMs.
  { intros u q Hq. apply (sw_in_mag _ _ _ _ _ Hw) in Hq. split; [apply (wf_slot _ _ _ _ _ _ Hw)|]; congruence. }
  pose proof (hd_slot_u64 w Hg (M t) ltac:(intros; by apply (HMs t))) as Hu.
  unfold upd_own, upd_mag. split.
  - destruct Hg. split; done.
  - intros p. case_decide as E; [|apply (sw_slot _ _ _ _ _ Hw)]. subst. split; done.
  - destruct (sw_central _ _ _ _ _ Hw) as (? & ? & ?). split_and!; try done. apply (sseg_set w Hg); try done.
    intros q Hq. apply (sw_in_central _ _ _ _ _ Hw) in Hq. split; [apply (wf_slot _ _ _ _ _ _ Hw)|]; congruence.
  - intros u. rewrite magazine_set. case_decide as Eu.
    + split_and!; [done| |].
      * simpl. rewrite (slot_next_set w Hg), decide_True, Em, wrap64_small by done. split; [done|].
        apply (sseg_set w Hg); try done. apply HMs.
      * apply NoDup_cons. split; [|done]. intros Hx. by destruct (HMs t s Hx).
    + destruct (sw_mag _ _ _ _ _ Hw u) as (? & ? & ?). split_and!; try done. apply (sseg_set w Hg); try done. apply HMs.
  - intros p. rewrite (sw_in_central _ _ _ _ _ Hw). case_decide as E; [|done]. subst. rewrite HO. done.
  - intros u p. pose proof (sw_in_mag _ _ _ _ _ Hw u p) as Hp. case_decide as Eu; case_decide as E; subst.
    + split; [done|]. intros _. left.
    + rewrite <- Hp, elem_of_cons. split; [by intros [?|?]|by right].
    + rewrite Hp, HO. split; [done|]. intros [= ->]. done.
    + done.
Qed.

Lemma sl_wf_stats w m O C M st : sl_wf w m O C M →
  sl_wf (w_set_alloc w (sl_set_stats (w_alloc w) st)) m O C M.
Proof. intros Hw. destruct Hw as [Hg ? ? ? ? ?]. split; try done. by destruct Hg; split. Qed.

Lemma live_count_insert L p n : L !! p = None → live_count (<[p := n]> L) = live_count L + 1.
Proof. intros H. unfold live_count. rewrite map_size_insert_None by done. lia. Qed.

Lemma live_count_delete L p n : L !! p = Some n → live_count (delete p L) = live_count L - 1.
Proof.
  intros H. unfold live_count. rewrite map_size_delete_Some by eauto.
  assert (base.size L ≠ 0%nat) by (apply map_size_ne_0_lookup; eauto). lia.
Qed.

(** ** The interface *)

Lemma sl_live_slots O L obj x : (∀ p n, L !! p = Some n → O p = OLive ∧ 0 ≤ n ≤ obj) →
  in_live L x → live_slots O obj x.
Proof. intros H (p & n & Hp & Hr). destruct (H p n Hp). exists p. split; [done|rlia]. Qed.

Lemma sl_inv_allocate t w m L size : sl_inv w m L → request_ok size →
  ∃ w' m' p, sl_allocate ps mmap realloc_ok t w m size HF_DEFAULT_ALIGN = Ok (w', m', p) ∧
    agree_on (in_live L) m m' ∧
    ((p = NULL ∧ sl_inv w' m' L) ∨
     (p ≠ NULL ∧ L !! p = None ∧ apart L p size ∧ sl_inv w' m' (<[p := size]> L))).
Proof.
  intros (O & C & M & Hw & HL1 & HL2 & Hu) Hs. unfold request_ok in Hs. unfold sl_allocate.
  set (w0 := w_set_alloc w _). assert (sl_wf w0 m O C M) as Hw0 by (by apply sl_wf_stats).
  assert (sl_same w w0) as Hs0 by done. change (obj_size (w_alloc w0)) with (obj_size (w_alloc w)).
  assert (∀ w1 st, sl_same w w1 → used st = used (sl_stats (w_alloc w1)) → ∀ m1 O1 C1 M1, sl_wf w1 m1 O1 C1 M1 →
    (∀ p, O1 p = OLive ↔ O p = OLive) → sl_inv (w_set_alloc w1 (sl_set_stats (w_alloc w1) st)) m1 L) as Hfail.
  { intros w1 st (E1 & E2 & E3) Hst m1 O1 C1 M1 Hw1 Hl1. exists O1, C1, M1. split; [by apply sl_wf_stats|].
    simpl. rewrite E1, Hst, E3. split_and!; [|intros p Hp; apply HL2; by apply Hl1|done].
    intros p n Hp. destruct (HL1 p n Hp). split; [by apply Hl1|done]. }
  destruct (size >? obj_size (w_alloc w)) eqn:E; zb.
  { eexists _, _, _. split; [reflexivity|]. split; [done|]. left. split; [done|].
    apply (Hfail w0 (bump_failed (sl_stats (w_alloc w0))) Hs0 eq_refl m O C M Hw0). done. }
  assert (∃ w1 m1 O1 C1 M1, (if magazine w0 t =? NULL then sl_refill ps mmap realloc_ok w0 m t else (w0, m)) = (w1, m1) ∧
    sl_wf w1 m1 O1 C1 M1 ∧ sl_same w w1 ∧ (∀ p, O1 p = OLive ↔ O p = OLive) ∧
    agree_on (live_slots O (obj_size (w_alloc w))) m m1) as (w1 & m1 & O1 & C1 & M1 & -> & Hw1 & Hs1 & Hl1 & Hag1).
  { destruct (_ =? NULL) eqn:E0; [|by exists w0, m, O, C, M]. zb.
    destruct (sl_refill_spec w0 m O C M t Hw0) as (w1 & m1 & O1 & C1 & M1 & ? & ? & ? & ? & ?); [|by exists w1, m1, O1, C1, M1].
    destruct (sw_mag _ _ _ _ _ Hw0 t) as (Em & _). destruct (M t) as [|s l] eqn:EM; [done|]. exfalso.
    assert (is_slot (w_alloc w0) s) as Hsl.
    { apply (wf_slot _ _ _ _ _ _ Hw0). assert (O s = OMag t) by (apply (sw_in_mag _ _ _ _ _ Hw0); rewrite EM; left). congruence. }
    apply (slot_bounds w0 (sw_geo _ _ _ _ _ Hw0)) in Hsl. simpl in Em. lia. }
  assert (agree_on (in_live L) m m1) as HagL by (eapply agree_on_sub; [exact Hag1|]; intros x; by apply sl_live_slots).
  destruct (sw_mag _ _ _ _ _ Hw1 t) as (Em & _). destruct (magazine w1 t =? NULL) eqn:E1; zb.
  { eexists _, _, _. split; [reflexivity|]. split; [done|]. left. split; [done|].
    by apply (Hfail w1 (bump_failed (sl_stats (w_alloc w1))) Hs1 eq_refl m1 O1 C1 M1 Hw1). }
  destruct (M1 t) as [|s l] eqn:EM; [done|]. simpl in Em. rewrite Em.
  destruct (sl_pop_spec w1 m1 O1 C1 M1 t s l Hw1 EM) as [Hw2 HOs].
  set (w2 := w_set_mag w1 t _) in *. eexists _, _, _. split; [reflexivity|]. split; [done|]. right.
  destruct Hs1 as (E2 & _ & E3). pose proof (sw_geo _ _ _ _ _ Hw1) as Hg1.
  assert (is_slot (w_alloc w1) s) as Hsl by (apply (wf_slot _ _ _ _ _ _ Hw1); congruence).
  assert (L !! s = None) as HN.
  { destruct (L !! s) as [n|] eqn:Hq; [|done]. destruct (HL1 s n Hq) as [HO _]. apply Hl1 in HO. congruence. }
  split_and!.
  - by apply (slot_bounds w1 Hg1) in Hsl as (? & _); lia.
  - done.
  - intros x Hx (q & k & Hq & Hr). destruct (HL1 q k Hq) as [HO Hk]. apply Hl1 in HO.
    assert (is_slot (w_alloc w1) q) as Hql by (apply (wf_slot _ _ _ _ _ _ Hw1); congruence).
    destruct (slots_apart w1 Hg1 s q Hsl Hql ltac:(congruence)); rlia.
  - exists (upd_own O1 s OLive), C1, (upd_mag M1 t l). split; [by apply sl_wf_stats|]. simpl. split_and!.
    + intros p n Hp. unfold upd_own. apply lookup_insert_Some in Hp as [[<- <-]|[Hne Hp]].
      * rewrite decide_True by done. split; [done|lia].
      * rewrite decide_False by done. destruct (HL1 p n Hp). split; [by apply Hl1|lia].
    + intros p Hp. unfold upd_own in Hp. apply lookup_insert_is_Some'. case_decide; [by left|right]. apply HL2. by apply Hl1.
    + rewrite E2, E3, Hu, live_count_insert by done. unfold wrap64. rewrite Zplus_mod_idemp_l. f_equal. lia.
Qed.

Lemma sl_inv_deallocate t w m L p n : sl_inv w m L → L !! p = Some n →
  ∃ w' m', sl_deallocate t w m p = Ok (w', m') ∧
    agree_on (in_live (delete p L)) m m' ∧ sl_inv w' m' (delete p L).
Proof.
  intros (O & C & M & Hw & HL1 & HL2 & Hu) Hp. destruct (HL1 p n Hp) as [HO Hn].
  pose proof (sw_geo _ _ _ _ _ Hw) as Hg.
  assert (is_slot (w_alloc w) p) as Hsl by (apply (wf_slot _ _ _ _ _ _ Hw); congruence).
  destruct (slot_bounds w Hg p Hsl) as (Hpos & _). pose proof (sg_obj _ Hg) as [Ho _].
  unfold sl_deallocate. rewrite (proj2 (Z.eqb_neq _ _)) by lia. eexists _, _. split; [reflexivity|]. split.
  - apply agree_on_store64. intros x (q & k & Hq & Hx) Hr. apply lookup_delete_Some in Hq as [Hne Hq].
    destruct (HL1 q k Hq) as [HOq Hk].
    assert (is_slot (w_alloc w) q) as Hql by (apply (wf_slot _ _ _ _ _ _ Hw); congruence).
    destruct (slots_apart w Hg p q Hsl Hql Hne); rlia.
  - set (w1 := w_set_alloc w _). assert (sl_wf w1 m O C M) as Hw1 by (by apply sl_wf_stats).
    exists (upd_own O p (OMag t)), C, (upd_mag M t (p :: M t)). split; [by apply sl_push_spec|]. simpl. split_and!.
    + intros q k Hq. apply lookup_delete_Some in Hq as [Hne Hq]. unfold upd_own. rewrite decide_False by done. by apply HL1.
    + intros q Hq. unfold upd_own in Hq. case_decide as E; [done|]. rewrite lookup_delete_ne by done. by apply HL2.
    + rewrite Hu, (live_count_delete L p n Hp). unfold wrap64. rewrite Zminus_mod_idemp_l. f_equal. lia.
Qed.

#[global] Instance sl_spec (t : nat) : AllocatorSpec HF_DEFAULT_ALIGN (2 ^ 62) sl_world (hf_allocator_vtable0 := SL_VT ps mmap realloc_ok t).
Proof.
  refine {| alloc_inv := sl_inv |}.
  - intros w m L p n (O & C & M & Hw & HL1 & _) Hp. destruct (HL1 p n Hp) as [HO Hn].
    assert (is_slot (w_alloc w) p) as Hsl by (apply (wf_slot _ _ _ _ _ _ Hw); congruence).
    destruct (slot_bounds w (sw_geo _ _ _ _ _ Hw) p Hsl) as (? & ? & ?). split_and!; done || lia.
  - intros w m L p n q k (O & C & M & Hw & HL1 & _) Hp Hq Hne x Hx Hx'.
    destruct (HL1 p n Hp) as [HO Hn]. destruct (HL1 q k Hq) as [HO' Hk].
    destruct (slots_apart w (sw_geo _ _ _ _ _ Hw) p q); [apply (wf_slot _ _ _ _ _ _ Hw); congruence..|done|rlia|rlia].
  - intros w m L size. apply sl_inv_allocate.
  - intros w m L p n. apply sl_inv_deallocate.
  - intros w m m' L (O & C & M & Hw & HL1 & HL2 & Hu) Hag. exists O, C, M. split; [|done].
    pose proof (sw_geo _ _ _ _ _ Hw) as Hg. pose proof (sg_obj _ Hg) as [Ho _].
    assert (∀ l, (∀ q, q ∈ l → O q ≠ OLive ∧ O q ≠ ONone) → sseg m l NULL → sseg m' l NULL) as Hkeep.
    { intros l Hl. apply sseg_agree. intros x (q & Hq & Hx). apply Hag. intros (p & n & Hp & Hr).
      destruct (HL1 p n Hp) as [HO Hn]. destruct (Hl q Hq) as [HO1 HO2].
      destruct (slots_apart w Hg p q); [apply (wf_slot _ _ _ _ _ _ Hw); congruence..|congruence|rlia|rlia]. }
    destruct Hw as [? ? (? & ? & ?) Hm Hic Him]. split; try done.
    + split_and!; try done. apply Hkeep; [|done]. intros q Hq. apply Hic in Hq. rewrite Hq. done.
    + intros u. destruct (Hm u) as (? & ? & ?). split_and!; try done. apply Hkeep; [|done].
      intros q Hq. apply Him in Hq. rewrite Hq. done.
Defined.
End spec.

(** ** Creation *)

Lemma sl_create_inv ps ok os sb a maps m :
  page_size_ok ps → 0 ≤ os ≤ 2 ^ 30 → 0 ≤ sb ≤ 2 ^ 40 →
  hf_slab_create ps ok os sb = Ok (Some a) → sl_inv (SlWorld a ∅ maps) m ∅.
Proof.
  intros Hps Hos Hsb Hc. unfold hf_slab_create in Hc. change HF_DEFAULT_ALIGN with 16 in Hc.
  assert ((if os <? 8 then 8 else os) = Z.max 8 os) as E1 by (case_if; lia). rewrite E1 in Hc.
  rewrite (hf_align_up_16 (Z.max 8 os)) in Hc by lia.
  set (sb' := if sb =? 0 then 64 * 1024 else sb) in *.
  assert (0 < sb' ≤ 2 ^ 40) as Hsb' by (unfold sb'; case_if; lia). clearbody sb'.
  rewrite (hf_align_up_page sb') in Hc by (done || lia).
  pose proof (round_up_ge (Z.max 8 os) 16 ltac:(lia)). pose proof (round_up_divide (Z.max 8 os) 16) as Hd.
  pose proof (round_up_lt sb' ps). pose proof (round_up_ge sb' ps). pose proof (page_size_bounds ps Hps) as (? & _).
  set (obj := round_up (Z.max 8 os) 16) in *. set (bytes := round_up sb' ps) in *. clearbody obj bytes.
  destruct (obj =? 0) eqn:E2; [done|]. destruct (bytes / obj =? 0) eqn:E3; [done|]. zb. destruct ok; [|done].
  injection Hc as <-. assert (16 ≤ obj) by (destruct Hd; lia).
  assert (0 ≤ bytes / obj) by (apply Z.div_pos; lia). pose proof (Z.mul_div_le bytes obj ltac:(lia)).
  exists (λ _, ONone), [], (λ _, []). split; [split|split_and!]; simpl; try done.
  - split; simpl; try done; [lia| |]; intros b; intros; by exfalso; eapply not_elem_of_nil.
  - intros p. split; [|done]. intros (b & i & Hb & _). by apply not_elem_of_nil in Hb.
  - split_and!; [done|done|constructor].
  - intros t. split_and!; [done|done|constructor].
  - intros p. by rewrite elem_of_nil.
  - intros t p. by rewrite elem_of_nil.
  - rewrite Z.mul_0_r. done.
Qed.

(** ** Threads *)

Section threads.
Context (ps : Z) (mmap : list (Z * Z) → Z → option Z) (realloc_ok : Z → bool).

(** Threads take turns (each call holds the lock throughout): a run is a
    sequence of client operations, each by one thread. *)
Fixpoint threads_run (c : client sl_world) (os : list (nat * client_op)) : outcome (client sl_world) :=
  match os with
  | [] => Ok c
  | (t, o) :: os =>
      c ← client_step (hf_allocator_vtable0 := SL_VT ps mmap realloc_ok t) c o; threads_run c os
  end.
End threads.

(** A fresh allocator of 48-byte objects in one-page slabs. *)
Definition ex_slab : sl_alloc := SlAlloc 48 4096 85 [] 0 NULL (stats_zero 0).
Definition ex_slab_world : sl_world := SlWorld ex_slab ∅ [].

(** ** Claims *)

(** C11. The slab allocator under threads: any interleaving of allocations,
    frees (by any thread) and writes to owned bytes, with one magazine per
    thread, runs without a fault; live objects are 16-aligned and never
    overlap, and every owned byte holds what was last written there - as long
    as this is the only slab allocator of the process and growing its slab
    table succeeds. *)
Theorem sl_threads_safe ps mmap realloc_ok ok osz sb a maps m os :
  page_size_ok ps → mmap_fresh ps mmap → (∀ n, realloc_ok n = true) →
  0 ≤ osz ≤ 2 ^ 30 → 0 ≤ sb ≤ 2 ^ 40 → hf_slab_create ps ok osz sb = Ok (Some a) →
  Forall (λ to, op_ok (2 ^ 62) to.2) os →
  ∃ c, threads_run ps mmap realloc_ok (Client (SlWorld a ∅ maps) m ∅ ∅) os = Ok c ∧ client_ok HF_DEFAULT_ALIGN c.
Proof.
  intros Hps Hmm Hra Hosz Hsb Hc Hos.
  pose proof (sl_create_inv ps ok osz sb a maps m Hps Hosz Hsb Hc) as Hinv.
  set (c0 := Client (SlWorld a ∅ maps) m ∅ ∅).
  assert (client_inv (AllocatorSpec0 := sl_spec ps mmap realloc_ok Hps Hmm Hra 0) c0) as H0.
  { split; [done|]. intros x v. simpl. by rewrite lookup_empty. }
  clearbody c0. revert c0 H0. induction Hos as [|[t o] os Ho _ IH]; intros c0 H0.
  - exists c0. split; [done|]. by apply (client_inv_ok (AllocatorSpec0 := sl_spec ps mmap realloc_ok Hps Hmm Hra 0)).
  - destruct (client_step_safe (AllocatorSpec0 := sl_spec ps mmap realloc_ok Hps Hmm Hra t) c0 o H0 Ho) as (c1 & E & H1).
    simpl. rewrite E. cbn [mbind outcome_bind]. apply IH. exact H1.
Qed.

(** Witness of C11: thread 0 allocates twice, thread 1 frees one object and
    allocates again. *)
Lemma sl_threads_safe_witness :
  ∃ c, threads_run 4096 ex_mmaps (λ _, true) (Client ex_slab_world ∅ ∅ ∅)
    [(0%nat, CAlloc 40); (0%nat, CAlloc 48); (1%nat, CFree (2 ^ 20)); (1%nat, CAlloc 10);
     (0%nat, CWrite (2 ^ 20 + 48) 5)] = Ok c ∧ client_ok HF_DEFAULT_ALIGN c.
Proof.
  apply (sl_threads_safe 4096 ex_mmaps (λ _, true) true 40 4096 ex_slab []).
  - apply page_4096_ok.
  - apply ex_mmaps_fresh.
  - reflexivity.
  - lia.
  - lia.
  - reflexivity.
  - repeat constructor; simpl; unfold request_ok; lia.
Defined.

(** One thread, two slab allocators: 48-byte objects, then 1024-byte ones. *)
Definition ex_two_slabs : outcome (Z * Z * Z * nat) :=
  '(w, m, p) ← sl_allocate 4096 ex_mmaps (λ _, true) 0 ex_slab_world ∅ 48 16;
  let big := SlAlloc 1024 4096 4 [] 0 NULL (stats_zero 0) in
  let small := w_alloc w in
  '(w, m, q) ← sl_allocate 4096 ex_mmaps (λ _, true) 0 (w_set_alloc w big) m 1024 16;
  let slabs := length (sl_slabs (w_alloc w)) in
  '(w, m, r) ← sl_allocate 4096 ex_mmaps (λ _, true) 0 (w_set_alloc w small) m 48 16;
  Ok (p, q, r, slabs).

(** The thread-local magazine is shared by all slab allocators: after
    one object of a 48-byte allocator, the first object of a 1024-byte
    allocator is a 48-byte slot of the other one - the second allocator never
    even made a slab - and the next 48-byte object lies inside it. *)
Theorem sl_shared_magazine :
  ∃ p q r, ex_two_slabs = Ok (p, q, r, 0%nat) ∧ q = p + 48 ∧ r ≠ q ∧ range q 1024 r.
Proof.
  exists (2 ^ 20), (2 ^ 20 + 48), (2 ^ 20 + 96). split; [vm_compute; reflexivity|]. split_and!; [done|done|]. rlia.
Qed.

(** When the slab table cannot grow, the new mapping is released but its
    slots stay linked in the central list: the next object is an address in
    no mapping of the process and in no slab. *)
Theorem sl_grow_dangling :
  ∃ w m, sl_allocate 4096 ex_mmaps (λ _, false) 0 ex_slab_world ∅ 48 16 = Ok (w, m, 2 ^ 20) ∧
    w_maps w = [] ∧ sl_slabs (w_alloc w) = [] ∧ failed_allocs (sl_stats (w_alloc w)) = 0.
Proof.
  assert (match sl_allocate 4096 ex_mmaps (λ _, false) 0 ex_slab_world ∅ 48 16 with
    | Ok (w, m, p) => (p =? 2 ^ 20) && bool_decide (w_maps w = []) && bool_decide (sl_slabs (w_alloc w) = []) &&
        (failed_allocs (sl_stats (w_alloc w)) =? 0)
    | _ => false end = true) as H by (vm_compute; reflexivity).
  destruct (sl_allocate _ _ _ _ _ _ _ _) as [[[w m] p]| | |]; try done. zb. subst p.
  exists w, m. split; [done|]. repeat match goal with H : bool_decide _ = true |- _ => apply bool_decide_eq_true in H end. done.
Qed.

(** ** The layout *)

Lemma sl_walk_loop_spec bytes n : ∀ off rem, 0 < bytes → 0 ≤ off → off + Z.of_nat n * bytes < 2 ^ 64 →
  0 ≤ rem ≤ Z.of_nat n * bytes →
  tiles off (off + Z.of_nat n * bytes) (sl_walk_loop bytes off rem n) ∧
  sum_sizes false (sl_walk_loop bytes off rem n) = rem.
Proof.
  induction n as [|n IH]; intros off rem Hb Ho Hsp Hr; [simpl; lia|].
  cbn [sl_walk_loop]. set (u := if rem <? bytes then rem else bytes).
  assert (0 ≤ u ≤ bytes ∧ u ≤ rem ∧ (u < bytes → u = rem)) as (U1 & U2 & U3) by (unfold u; case_if; lia).
  assert (rem - u ≤ Z.of_nat n * bytes) by (destruct (decide (u < bytes)); [|assert (u = bytes) as -> by lia]; lia).
  clearbody u. rewrite !wrap64_small by ulia.
  destruct (IH (off + bytes) (rem - u) Hb ltac:(lia) ltac:(lia) ltac:(lia)) as [Ht Hs].
  replace (off + bytes + Z.of_nat n * bytes) with (off + Z.of_nat (S n) * bytes) in Ht by lia.
  rewrite !sum_sizes_app, Hs.
  destruct (Z.eqb_spec u 0) as [->|]; [rewrite (proj2 (Z.ltb_lt 0 bytes)) by lia|destruct (u <? bytes) eqn:E; zb]; simpl.
  - split_and!; try lia. by replace (off + (bytes - 0)) with (off + bytes) by lia.
  - split_and!; try lia. by replace (off + u + (bytes - u)) with (off + bytes) by lia.
  - assert (u = bytes) as -> by lia. split_and!; try done; lia.
Qed.

(** All slots of the slabs. *)
Definition all_slots (a : sl_alloc) : list Z :=
  b ← sl_slabs a; new_slots b (obj_size a) (Z.to_nat (slots_per_slab a)).

Lemma all_slots_length a : length (all_slots a) = (length (sl_slabs a) * Z.to_nat (slots_per_slab a))%nat.
Proof.
  unfold all_slots. induction (sl_slabs a) as [|b l IH]; [done|]. rewrite bind_cons, length_app, IH.
  unfold new_slots. rewrite length_fmap, length_seq. simpl. lia.
Qed.

Lemma live_count_le w m L : sl_inv w m L → live_count L ≤ slab_count (w_alloc w) * slots_per_slab (w_alloc w).
Proof.
  intros (O & C & M & Hw & HL1 & _). pose proof (sg_slots _ (sw_geo _ _ _ _ _ Hw)) as [Hs _].
  assert ((map_to_list L).*1 ⊆+ all_slots (w_alloc w)) as Hsub.
  { apply NoDup_submseteq; [apply NoDup_fst_map_to_list|]. intros p Hp.
    apply list_elem_of_fmap in Hp as ([q n] & -> & Hp). apply elem_of_map_to_list in Hp.
    destruct (HL1 q n Hp) as [HO _].
    assert (is_slot (w_alloc w) q) as (b & i & Hb & Hi & ->) by (apply (wf_slot _ _ _ _ _ _ Hw); congruence).
    unfold all_slots. apply list_elem_of_bind. exists b. split; [|done]. apply elem_of_new_slots. exists i.
    split; [lia|done]. }
  apply submseteq_length in Hsub. rewrite length_fmap, length_map_to_list, all_slots_length in Hsub.
  unfold live_count, slab_count. lia.
Qed.

(** [sl_walk] reports a partition of the slabs, and the bytes it calls
    used are the [used] of the statistics, which is the object size times the
    number of live objects. *)
Theorem sl_walk_correct w m L :
  sl_inv w m L → slab_count (w_alloc w) * slab_bytes (w_alloc w) < 2 ^ 64 →
  ∃ bs, sl_walk w m = Ok bs ∧ tiles 0 (slab_count (w_alloc w) * slab_bytes (w_alloc w)) bs ∧
    sum_sizes false bs = used (sl_get_stats w) ∧ used (sl_get_stats w) = obj_size (w_alloc w) * live_count L.
Proof.
  intros Hinv Hsp. pose proof (live_count_le w m L Hinv) as Hle. destruct Hinv as (O & C & M & Hw & _ & _ & Hu).
  pose proof (sw_geo _ _ _ _ _ Hw) as Hg. pose proof (sg_slots _ Hg) as [Hs1 [Hs2 Hs3]]. pose proof (sg_obj _ Hg) as [Ho _].
  assert (0 ≤ live_count L) by (unfold live_count; lia). unfold sl_get_stats.
  assert (obj_size (w_alloc w) * live_count L ≤ slab_count (w_alloc w) * slab_bytes (w_alloc w)) as Hub.
  { transitivity (slab_count (w_alloc w) * (slots_per_slab (w_alloc w) * obj_size (w_alloc w))); [nia|].
    apply Z.mul_le_mono_nonneg_l; [unfold slab_count|]; lia. }
  rewrite wrap64_small in Hu by (split; [nia|lia]).
  unfold sl_walk. eexists. split; [reflexivity|].
  destruct (sl_walk_loop_spec (slab_bytes (w_alloc w)) (length (sl_slabs (w_alloc w))) 0 (used (sl_stats (w_alloc w))))
    as [Ht Hsum]; [nia|lia|done|unfold slab_count in *; nia|]. done.
Qed.

Lemma sl_walk_correct_witness :
  ∃ bs, sl_walk ex_slab_world ∅ = Ok bs ∧ tiles 0 0 bs ∧ sum_sizes false bs = 0.
Proof.
  destruct (sl_walk_correct ex_slab_world ∅ ∅) as (bs & E & Ht & Hs & _).
  - apply (sl_create_inv 4096 true 40 4096 ex_slab [] ∅ page_4096_ok); [lia|lia|reflexivity].
  - reflexivity.
  - exists bs. split; [exact E|]. split; [exact Ht|exact Hs].
Defined.
