(* ===== verification/DebugHeap.v ===== *)
(** * The debug heap ([c/src/hf_debug_heap.c]): the code

    A decorator around any allocator: each block gets a canary in front (with
    its size) and one behind, is filled when it is handed out and poisoned
    when it is freed; an open-addressing hash table keyed by the user pointer
    remembers every block ever handed out, so that double and foreign frees
    and leaks are reported.  The backend is any [hf_allocator_vtable]; the
    table is the C array, and a [NULL] dereference faults.  The log lines of
    [HF_BUG] and [HF_DBG] are not part of the state; the counters of the
    report are. *)

From S2P Require Import Prelude Memory Platform Allocator.

(** [DH_CANARY], [DH_POISON], [DH_FILL], [DH_HEAD], [DH_TAIL]. *)
Definition DH_CANARY : Z := 0xDEADBEEF.
Definition DH_POISON : Z := 0xCD.
Definition DH_FILL : Z := 0xAB.
Definition DH_HEAD : Z := 4 + 8.
Definition DH_TAIL : Z := 4.

(** [dh_entry]. *)
Record dh_entry : Type := DhEntry {
  e_user : Z;
  e_raw : Z;
  e_size : Z;
  e_freed : bool
}.

#[global] Instance dh_entry_eq_dec : EqDecision dh_entry.
Proof. solve_decision. Defined.

(** An entry of a table that [calloc] returned. *)
Definition entry_zero : dh_entry := DhEntry NULL NULL 0 false.

(** [hf_debug_report]. *)
Record hf_debug_report : Type := Report {
  active_allocs : Z;
  total_allocs : Z;
  total_frees : Z;
  canary_violations : Z;
  double_frees : Z;
  invalid_frees : Z;
  leaked_blocks : Z;
  leaked_bytes : Z
}.

Definition report_zero : hf_debug_report := Report 0 0 0 0 0 0 0 0.

(** The updates of the report. *)
Definition rep_alloc (r : hf_debug_report) : hf_debug_report :=
  Report (active_allocs r +% 1) (total_allocs r +% 1) (total_frees r) (canary_violations r)
    (double_frees r) (invalid_frees r) (leaked_blocks r) (leaked_bytes r).
Definition rep_free (r : hf_debug_report) : hf_debug_report :=
  Report (active_allocs r -% 1) (total_allocs r) (total_frees r +% 1) (canary_violations r)
    (double_frees r) (invalid_frees r) (leaked_blocks r) (leaked_bytes r).
Definition rep_canary (r : hf_debug_report) : hf_debug_report :=
  Report (active_allocs r) (total_allocs r) (total_frees r) (canary_violations r +% 1)
    (double_frees r) (invalid_frees r) (leaked_blocks r) (leaked_bytes r).
Definition rep_double (r : hf_debug_report) : hf_debug_report :=
  Report (active_allocs r) (total_allocs r) (total_frees r) (canary_violations r)
    (double_frees r +% 1) (invalid_frees r) (leaked_blocks r) (leaked_bytes r).
Definition rep_invalid (r : hf_debug_report) : hf_debug_report :=
  Report (active_allocs r) (total_allocs r) (total_frees r) (canary_violations r)
    (double_frees r) (invalid_frees r +% 1) (leaked_blocks r) (leaked_bytes r).
Definition rep_leaks (blocks bytes : Z) (r : hf_debug_report) : hf_debug_report :=
  Report (active_allocs r) (total_allocs r) (total_frees r) (canary_violations r)
    (double_frees r) (invalid_frees r) blocks bytes.

(** The hash table of a [dh_heap]: the fields [table], [cap] and [count]. *)
Record dh_table : Type := DhTable {
  t_entries : list dh_entry;
  t_cap : Z;
  t_count : Z
}.

(** [dh_heap] over a backend with state [S]. *)
Record dh_heap (S : Type) : Type := DhHeap {
  dh_backend : S;
  dh_tab : dh_table;
  dh_rep : hf_debug_report
}.
Arguments DhHeap {S} _ _ _.
Arguments dh_backend {S} _.
Arguments dh_tab {S} _.
Arguments dh_rep {S} _.

Definition head_canary (m : mem) (raw : Z) : Z := load32 m raw.
Definition tail_canary (m : mem) (raw sz : Z) : Z := load32 m (raw + DH_HEAD + sz).

(** ** The hash table *)

Definition dh_hash (p cap : Z) : Z :=
  let x := p in
  let x := Z.lxor x (Z.shiftr x 33) in
  let x := x *% 0xff51afd7ed558ccd in
  let x := Z.lxor x (Z.shiftr x 33) in
  Z.land x (cap -% 1).

Definition entry_at (es : list dh_entry) (i : Z) : outcome dh_entry :=
  match es !! Z.to_nat i with Some e => Ok e | None => Fault end.

(** The loop of [dh_find], [n] rounds left; yields the index of the entry. *)
Fixpoint dh_find_loop (t : dh_table) (user i : Z) (n : nat) : outcome (option Z) :=
  match n with
  | O => Ok None
  | S n =>
      e ← entry_at (t_entries t) i;
      if (e_user e =? NULL) && negb (e_freed e) then Ok None else
      if e_user e =? user then Ok (Some i) else
      dh_find_loop t user (Z.land (i +% 1) (t_cap t -% 1)) n
  end.

Definition dh_find (t : dh_table) (user : Z) : outcome (option Z) :=
  dh_find_loop t user (dh_hash user (t_cap t)) (Z.to_nat (t_cap t)).

(** The endless loop of [dh_put]; a full round of the table is the fuel. *)
Fixpoint dh_put_loop (fuel : nat) (t : dh_table) (user raw size i : Z) : outcome dh_table :=
  match fuel with
  | O => OutOfFuel
  | S fuel =>
      e ← entry_at (t_entries t) i;
      if (e_user e =? NULL) || (e_user e =? user) then
        let count := if (e_user e =? NULL) && negb (e_freed e) then t_count t +% 1 else t_count t in
        Ok (DhTable (<[Z.to_nat i := DhEntry user raw size false]> (t_entries t)) (t_cap t) count)
      else dh_put_loop fuel t user raw size (Z.land (i +% 1) (t_cap t -% 1))
  end.

(** [dh_rehash], given the [dh_put] it calls: [calloc] of the new table, then
    every entry with a user pointer is put again. *)
Definition dh_rehash_with (calloc_ok : Z → bool) (put : dh_table → Z → Z → Z → outcome dh_table)
    (t : dh_table) (ncap : Z) : outcome dh_table :=
  if negb (calloc_ok ncap) then Fault else
  foldl (λ acc e, t ← acc; if e_user e =? NULL then Ok t else put t (e_user e) (e_raw e) (e_size e))
        (Ok (DhTable (replicate (Z.to_nat ncap) entry_zero) ncap 0)) (t_entries t).

(** [dh_put] and [dh_rehash] call each other; [depth] bounds the nesting. *)
Fixpoint dh_put_depth (calloc_ok : Z → bool) (depth : nat) (t : dh_table) (user raw size : Z) : outcome dh_table :=
  match depth with
  | O => OutOfFuel
  | S depth =>
      t ← (if (t_count t +% 1) *% 10 >=? t_cap t *% 7
           then dh_rehash_with calloc_ok (dh_put_depth calloc_ok depth) t (t_cap t *% 2) else Ok t);
      dh_put_loop (Z.to_nat (t_cap t)) t user raw size (dh_hash user (t_cap t))
  end.

(** A rehash doubles the table and never rehashes again: two levels are
    enough. *)
Definition dh_put (calloc_ok : Z → bool) (t : dh_table) (user raw size : Z) : outcome dh_table :=
  dh_put_depth calloc_ok 2 t user raw size.

Definition dh_rehash (calloc_ok : Z → bool) (t : dh_table) (ncap : Z) : outcome dh_table :=
  dh_rehash_with calloc_ok (dh_put_depth calloc_ok 1) t ncap.

(** ** The allocator *)

Definition write_guards (m : mem) (raw size : Z) : mem :=
  let m := store32 m raw DH_CANARY in
  let m := store64 m (raw + 4) size in
  store32 m (raw + DH_HEAD + size) DH_CANARY.

Section ops.
Context {S : Type} `{!hf_allocator_vtable S} (calloc_ok : Z → bool).

Definition dh_set_rep (h : dh_heap S) (r : hf_debug_report) : dh_heap S := DhHeap (dh_backend h) (dh_tab h) r.

Definition dh_allocate (h : dh_heap S) (m : mem) (size alignment : Z) : outcome (dh_heap S * mem * Z) :=
  let total := DH_HEAD +% size +% DH_TAIL in
  '(b, m, raw) ← hf_allocate_aligned (dh_backend h) m total alignment;
  if raw =? NULL then Ok (DhHeap b (dh_tab h) (dh_rep h), m, NULL) else
  let m := write_guards m raw size in
  let user := raw + DH_HEAD in
  let m := memset m user DH_FILL (Z.to_nat size) in
  t ← dh_put calloc_ok (dh_tab h) user raw size;
  Ok (DhHeap b t (rep_alloc (dh_rep h)), m, user).

(** [verify_block] reads the canaries behind [raw]. *)
Definition verify_block (h : dh_heap S) (m : mem) (raw size : Z) : outcome (bool * dh_heap S) :=
  if raw =? NULL then Fault else
  let ok := (head_canary m raw =? DH_CANARY) && (tail_canary m raw size =? DH_CANARY) in
  Ok (ok, if ok then h else dh_set_rep h (rep_canary (dh_rep h))).

Definition dh_deallocate (h : dh_heap S) (m : mem) (ptr : Z) : outcome (dh_heap S * mem) :=
  if ptr =? NULL then Ok (h, m) else
  r ← dh_find (dh_tab h) ptr;
  match r with
  | None => Ok (dh_set_rep h (rep_invalid (dh_rep h)), m)
  | Some i =>
      e ← entry_at (t_entries (dh_tab h)) i;
      if negb (e_user e =? ptr) then Ok (dh_set_rep h (rep_invalid (dh_rep h)), m) else
      if e_freed e then Ok (dh_set_rep h (rep_double (dh_rep h)), m) else
      let raw := e_raw e in
      let size := e_size e in
      '(_, h) ← verify_block h m raw size;
      let m := memset m ptr DH_POISON (Z.to_nat size) in
      let e' := DhEntry (e_user e) NULL size true in
      let t := DhTable (<[Z.to_nat i := e']> (t_entries (dh_tab h))) (t_cap (dh_tab h)) (t_count (dh_tab h)) in
      '(b, m) ← hf_deallocate (dh_backend h) m raw;
      Ok (DhHeap b t (rep_free (dh_rep h)), m)
  end.

(** A live entry, as [hf_debug_heap_check], the report and [dh_destroy] see it. *)
Definition entry_live (e : dh_entry) : bool :=
  negb (e_user e =? NULL) && negb (e_freed e) && negb (e_raw e =? NULL).

Definition hf_debug_heap_check (h : dh_heap S) (m : mem) : outcome (dh_heap S * Z) :=
  foldl (λ acc e, '(h, bad) ← acc;
           if entry_live e then
             '(ok, h) ← verify_block h m (e_raw e) (e_size e);
             Ok (h, if ok : bool then bad else bad +% 1)
           else Ok (h, bad))
        (Ok (h, 0)) (t_entries (dh_tab h)).

Definition dh_name (h : dh_heap S) : string := "DebugHeap".

Definition dh_get_stats (h : dh_heap S) : hf_stats := hf_get_stats (dh_backend h).

Definition dh_walk (h : dh_heap S) (m : mem) : outcome (list hf_block_info) := hf_walk (dh_backend h) m.

Definition hf_debug_heap_report (h : dh_heap S) : hf_debug_report :=
  let '(blocks, bytes) :=
    foldl (λ acc e, if entry_live e then (acc.1 +% 1, acc.2 +% e_size e) else acc) (0, 0)
          (t_entries (dh_tab h)) in
  rep_leaks blocks bytes (dh_rep h).

(** Leaked blocks go back to the backend, which the caller keeps. *)
Definition dh_destroy (h : dh_heap S) (m : mem) : outcome (S * mem) :=
  foldl (λ acc e, '(b, m) ← acc; if entry_live e then hf_deallocate b m (e_raw e) else Ok (b, m))
        (Ok (dh_backend h, m)) (t_entries (dh_tab h)).

#[global] Instance DH_VT : hf_allocator_vtable (dh_heap S) := {
  vt_allocate := dh_allocate;
  vt_deallocate := dh_deallocate;
  vt_name := dh_name;
  vt_get_stats := dh_get_stats;
  vt_walk := dh_walk;
  vt_destroyed := S * mem;
  vt_destroy := dh_destroy
}.

(** [backend = None] is a [NULL] backend; [c1], [c2]: the two [calloc]s. *)
Definition hf_debug_heap_create (c1 c2 : bool) (backend : option S) : option (dh_heap S) :=
  match backend with
  | None => None
  | Some b =>
      if negb c1 then None else
      if negb c2 then None else
      Some (DhHeap b (DhTable (replicate 64 entry_zero) 64 0) report_zero)
  end.
End ops.
