(* ===== verification/DebugTable.v ===== *)
(** * The hash table of the debug heap

    Linear probing in a table whose size is a power of two and that is never
    full: [tbl_wf t C] says that the table [t] stores exactly the map [C] from
    user pointers to block, size and freed flag, and that every entry can be
    reached from its hash over slots in use.  Finding, putting and rehashing
    are shown to be the operations on [C]. *)

From S2P Require Import Prelude Memory Platform Allocator DebugHeap.

Abbreviation content := (gmap Z (Z * Z * bool)).

Definition in_use (e : dh_entry) : bool := negb (e_user e =? NULL).

Record tbl_wf (t : dh_table) (C : content) : Prop := {
  tw_cap : ∃ k, 0 ≤ k ≤ 61 ∧ t_cap t = 2 ^ k;
  tw_len : Z.of_nat (length (t_entries t)) = t_cap t;
  tw_count : t_count t = count_if in_use (t_entries t);
  tw_null i e : t_entries t !! i = Some e → e_user e = NULL → e_freed e = false;
  tw_rep u raw sz fr : C !! u = Some (raw, sz, fr) ↔
    u ≠ NULL ∧ ∃ i, t_entries t !! i = Some (DhEntry u raw sz fr);
  tw_uniq i j e e' : t_entries t !! i = Some e → t_entries t !! j = Some e' →
    e_user e = e_user e' → e_user e ≠ NULL → i = j;
  tw_probe i e : t_entries t !! i = Some e → e_user e ≠ NULL →
    ∃ j, 0 ≤ j < t_cap t ∧ Z.of_nat i = (dh_hash (e_user e) (t_cap t) + j) mod t_cap t ∧
      ∀ j', 0 ≤ j' < j → ∀ e', t_entries t !! Z.to_nat ((dh_hash (e_user e) (t_cap t) + j') mod t_cap t) = Some e' →
        e_user e' ≠ NULL
}.

(** ** Probing *)

Lemma cap_mask t C x : tbl_wf t C → 0 ≤ x → Z.land x (t_cap t -% 1) = x mod t_cap t.
Proof.
  intros Hw Hx. destruct (tw_cap _ _ Hw) as (k & Hk & ->). pose proof (pow2_pos k ltac:(lia)).
  pose proof (pow2_le_mono k 61 ltac:(lia)). rewrite wrap64_small by ulia. apply land_ones_mod. lia.
Qed.

Lemma cap_pos t C : tbl_wf t C → 0 < t_cap t ≤ 2 ^ 61.
Proof.
  intros Hw. destruct (tw_cap _ _ Hw) as (k & Hk & ->). pose proof (pow2_pos k ltac:(lia)).
  pose proof (pow2_le_mono k 61 ltac:(lia)). lia.
Qed.

Lemma lxor_u64 x y : is_u64 x → is_u64 y → is_u64 (Z.lxor x y).
Proof.
  intros Hx Hy. assert (0 ≤ Z.lxor x y) as H0 by (apply Z.lxor_nonneg; ulia). split; [done|].
  destruct (decide (Z.lxor x y = 0)) as [->|]; [lia|]. apply Z.log2_lt_pow2; [lia|].
  pose proof (Z.log2_lxor x y ltac:(ulia) ltac:(ulia)).
  assert (∀ z, is_u64 z → Z.log2 z < 64) as Hl.
  { intros z Hz. destruct (decide (z = 0)) as [->|]; [done|]. apply Z.log2_lt_pow2; ulia. }
  pose proof (Hl x Hx). pose proof (Hl y Hy). lia.
Qed.

Lemma dh_hash_range t C u : tbl_wf t C → 0 ≤ dh_hash u (t_cap t) < t_cap t.
Proof.
  intros Hw. unfold dh_hash. set (x := wrap64 _). assert (is_u64 x) as Hx by apply wrap64_range.
  rewrite (cap_mask t C) by (done || (apply Z.lxor_nonneg; rewrite Z.shiftr_nonneg; ulia)).
  apply Z.mod_pos_bound. by apply (cap_pos t C).
Qed.

(** The next probe. *)
Lemma probe_next t C h j : tbl_wf t C → 0 ≤ h → 0 ≤ j →
  Z.land ((h + j) mod t_cap t +% 1) (t_cap t -% 1) = (h + (j + 1)) mod t_cap t.
Proof.
  intros Hw Hh Hj. pose proof (cap_pos t C Hw). pose proof (Z.mod_pos_bound (h + j) (t_cap t) ltac:(lia)).
  rewrite wrap64_small by ulia. rewrite (cap_mask t C) by (done || lia).
  rewrite Zplus_mod_idemp_l. f_equal. lia.
Qed.

Lemma probe_entry t C x : tbl_wf t C → ∃ e, t_entries t !! Z.to_nat (x mod t_cap t) = Some e ∧
  entry_at (t_entries t) (x mod t_cap t) = Ok e.
Proof.
  intros Hw. pose proof (cap_pos t C Hw). pose proof (Z.mod_pos_bound x (t_cap t) ltac:(lia)).
  destruct (lookup_lt_is_Some_2 (t_entries t) (Z.to_nat (x mod t_cap t))) as [e He];
    [pose proof (tw_len _ _ Hw); lia|]. exists e. split; [done|]. unfold entry_at. by rewrite He.
Qed.

(** Every slot is probed, once. *)
Lemma probe_all t C h i : tbl_wf t C → 0 ≤ h < t_cap t → 0 ≤ i < t_cap t →
  ∃ j, 0 ≤ j < t_cap t ∧ i = (h + j) mod t_cap t.
Proof.
  intros Hw Hh Hi. exists ((i - h) mod t_cap t). split; [apply Z.mod_pos_bound; lia|].
  rewrite Zplus_mod_idemp_r. replace (h + (i - h)) with i by lia. by rewrite Z.mod_small.
Qed.

Lemma probe_inj t C h j j' : tbl_wf t C → 0 ≤ j < t_cap t → 0 ≤ j' < t_cap t →
  (h + j) mod t_cap t = (h + j') mod t_cap t → j = j'.
Proof.
  intros Hw Hj Hj' E. assert ((j - j') mod t_cap t = 0) as E0.
  { replace (j - j') with ((h + j) - (h + j')) by lia. rewrite Zminus_mod, E, Z.sub_diag. apply Z.mod_0_l. lia. }
  apply Z.mod_divide in E0 as [q Hq]; [|lia]. assert (q = 0) by nia. lia.
Qed.

(** ** Finding *)

Lemma dh_find_loop_hit t C u n : ∀ j J i e, tbl_wf t C → u ≠ NULL →
  t_entries t !! i = Some e → e_user e = u → 0 ≤ j ≤ J → J < t_cap t →
  Z.of_nat i = (dh_hash u (t_cap t) + J) mod t_cap t →
  (∀ j', 0 ≤ j' < J → ∀ e', t_entries t !! Z.to_nat ((dh_hash u (t_cap t) + j') mod t_cap t) = Some e' → e_user e' ≠ NULL) →
  J - j < Z.of_nat n →
  dh_find_loop t u ((dh_hash u (t_cap t) + j) mod t_cap t) n = Ok (Some (Z.of_nat i)).
Proof.
  induction n as [|n IH]; intros j J i e Hw Hu0 Hi He Hj HJ Ei Hchain Hn; [lia|].
  cbn [dh_find_loop]. pose proof (dh_hash_range t C u Hw) as Hh. set (h := dh_hash u (t_cap t)) in *.
  destruct (probe_entry t C (h + j) Hw) as (e0 & He0 & ->). cbn [mbind outcome_bind].
  destruct (decide (j = J)) as [->|Hne].
  - rewrite <- Ei, Nat2Z.id in He0. simplify_eq. rewrite (proj2 (Z.eqb_neq _ _) Hu0), Z.eqb_refl. simpl. by rewrite Ei.
  - pose proof (Hchain j ltac:(lia) e0 He0) as Hnz. rewrite (proj2 (Z.eqb_neq _ _) Hnz). simpl.
    assert (e_user e0 ≠ u) as Hneu.
    { intros E. assert (Z.to_nat ((h + j) mod t_cap t) = i) as E' by (eapply (tw_uniq _ _ Hw); [done|done|congruence|congruence]).
      apply Hne. apply (probe_inj t C h); try done; try lia. rewrite <- Ei, <- E'. rewrite Z2Nat.id; [done|].
      pose proof (Z.mod_pos_bound (h + j) (t_cap t) ltac:(lia)). lia. }
    rewrite (proj2 (Z.eqb_neq _ _) Hneu), (probe_next t C) by (done || lia). by eapply IH; try done; lia.
Qed.

Lemma dh_find_loop_miss t C u n : ∀ j, tbl_wf t C → u ≠ NULL → C !! u = None → 0 ≤ j →
  dh_find_loop t u ((dh_hash u (t_cap t) + j) mod t_cap t) n = Ok None.
Proof.
  induction n as [|n IH]; intros j Hw Hu0 HC Hj; [done|]. cbn [dh_find_loop].
  pose proof (dh_hash_range t C u Hw) as Hh. set (h := dh_hash u (t_cap t)) in *.
  destruct (probe_entry t C (h + j) Hw) as (e0 & He0 & ->). cbn [mbind outcome_bind].
  destruct (e_user e0 =? NULL) eqn:E; zb; [by rewrite (tw_null _ _ Hw _ _ He0 E)|]. simpl.
  assert (e_user e0 ≠ u) as Hneu.
  { intros <-. assert (C !! e_user e0 = Some (e_raw e0, e_size e0, e_freed e0)); [|congruence].
    apply (tw_rep _ _ Hw). split; [done|]. eexists. rewrite He0. by destruct e0. }
  rewrite (proj2 (Z.eqb_neq _ _) Hneu), (probe_next t C) by (done || lia). apply IH; try done. lia.
Qed.

(** [dh_find] is lookup. *)
Lemma dh_find_spec t C u : tbl_wf t C → u ≠ NULL →
  match C !! u with
  | None => dh_find t u = Ok None
  | Some (raw, sz, fr) => ∃ i, dh_find t u = Ok (Some (Z.of_nat i)) ∧ t_entries t !! i = Some (DhEntry u raw sz fr)
  end.
Proof.
  intros Hw Hu0. pose proof (dh_hash_range t C u Hw) as Hh. unfold dh_find.
  assert (dh_hash u (t_cap t) = (dh_hash u (t_cap t) + 0) mod t_cap t) as -> by (rewrite Z.add_0_r, Z.mod_small; done).
  destruct (C !! u) as [[[raw sz] fr]|] eqn:E.
  - apply (tw_rep _ _ Hw) in E as (_ & i & Hi). exists i. split; [|done].
    destruct (tw_probe _ _ Hw i _ Hi Hu0) as (J & HJ & Ei & Hch). simpl in *.
    eapply (dh_find_loop_hit t C u _ 0 J); try done; lia.
  - by apply (dh_find_loop_miss t C).
Qed.

(** ** Putting *)

(** Storing at a slot that is empty, or has the same user, keeps the table. *)
Lemma tbl_store t C u raw sz J e : tbl_wf t C → u ≠ NULL → 0 ≤ J < t_cap t →
  let i := Z.to_nat ((dh_hash u (t_cap t) + J) mod t_cap t) in
  t_entries t !! i = Some e → e_user e = NULL ∨ e_user e = u → (e_user e = NULL → C !! u = None) →
  (∀ j', 0 ≤ j' < J → ∀ e', t_entries t !! Z.to_nat ((dh_hash u (t_cap t) + j') mod t_cap t) = Some e' → e_user e' ≠ NULL) →
  tbl_wf (DhTable (<[i := DhEntry u raw sz false]> (t_entries t)) (t_cap t)
            (if e_user e =? NULL then t_count t + 1 else t_count t))
         (<[u := (raw, sz, false)]> C).
Proof.
  intros Hw Hu0 HJ i Hi Hcase HCn Hch. pose proof Hw as [Hcap Hlen Hcnt Hnull Hrep Huniq Hprobe].
  assert ((i < length (t_entries t))%nat) as Hlt by (by apply lookup_lt_Some in Hi).
  assert (∀ k e', k ≠ i → t_entries t !! k = Some e' → e_user e' ≠ u) as Hothers.
  { intros k e' Hki Hk E. destruct Hcase as [E0|E0].
    - specialize (HCn E0). assert (C !! u = Some (e_raw e', e_size e', e_freed e')); [|congruence].
      apply Hrep. split; [done|]. exists k. rewrite Hk. by destruct e'; simplify_eq/=.
    - apply Hki. eapply Huniq; [done|done|congruence|congruence]. }
  split; simpl; try done.
  - by rewrite length_insert.
  - rewrite (count_if_insert _ _ _ e) by done. unfold in_use at 2 3. simpl.
    rewrite (proj2 (Z.eqb_neq u 0) Hu0). simpl. rewrite Hcnt.
    destruct Hcase as [->| ->]; [simpl; lia|]. rewrite (proj2 (Z.eqb_neq u 0) Hu0). simpl. lia.
  - intros k e' Hk. destruct (decide (k = i)) as [->|].
    + rewrite list_lookup_insert_eq in Hk by done. simplify_eq. done.
    + rewrite list_lookup_insert_ne in Hk by done. by apply (Hnull k).
  - intros v r s f. rewrite lookup_insert_Some. split.
    + intros [[<- [= <- <- <-]]|[Hne HC]].
      * split; [done|]. exists i. by rewrite list_lookup_insert_eq.
      * apply Hrep in HC as (Hv & k & Hk). split; [done|]. exists k. rewrite list_lookup_insert_ne; [done|].
        intros <-. rewrite Hi in Hk. simplify_eq. simpl in *. destruct Hcase; congruence.
    + intros (Hv & k & Hk). destruct (decide (k = i)) as [->|Hki].
      * rewrite list_lookup_insert_eq in Hk by done. simplify_eq. by left.
      * rewrite list_lookup_insert_ne in Hk by done. right. split; [|apply Hrep; eauto].
        apply not_eq_sym. by apply (Hothers k _ Hki Hk).
  - intros k l e1 e2 Hk Hl E E0. destruct (decide (k = i)) as [->|Hki], (decide (l = i)) as [->|Hli]; [done|..].
    + rewrite list_lookup_insert_eq in Hk by done. rewrite list_lookup_insert_ne in Hl by done. simplify_eq. simpl in *.
      by destruct (Hothers l e2 Hli Hl).
    + rewrite list_lookup_insert_eq in Hl by done. rewrite list_lookup_insert_ne in Hk by done. simplify_eq. simpl in *.
      by destruct (Hothers k e1 Hki Hk).
    + rewrite list_lookup_insert_ne in Hk, Hl by done. by eapply Huniq.
  - assert (∀ h j', ∀ e', <[i := DhEntry u raw sz false]> (t_entries t) !! Z.to_nat ((h + j') mod t_cap t) = Some e' →
      e_user e' = NULL → t_entries t !! Z.to_nat ((h + j') mod t_cap t) = Some e') as Hold.
    { intros h j' e' He' Ez. destruct (decide (Z.to_nat ((h + j') mod t_cap t) = i)) as [E|].
      - rewrite E, list_lookup_insert_eq in He' by done. simplify_eq.
      - by rewrite list_lookup_insert_ne in He'. }
    intros k e' Hk Hnz. destruct (decide (k = i)) as [->|Hki].
    + rewrite list_lookup_insert_eq in Hk by done. simplify_eq. simpl. exists J. split; [done|].
      pose proof (Z.mod_pos_bound (dh_hash u (t_cap t) + J) (t_cap t) ltac:(lia)). split; [unfold i; lia|].
      intros j' Hj' e'' He'' Ez. by apply (Hch j' Hj' e''); [apply Hold|].
    + rewrite list_lookup_insert_ne in Hk by done. destruct (Hprobe k e' Hk Hnz) as (j & Hj & Ek & Hc).
      exists j. split; [done|]. split; [done|]. intros j' Hj' e'' He'' Ez. by apply (Hc j' Hj' e''); [apply Hold|].
Qed.

Lemma tbl_has_null t C : tbl_wf t C → t_count t < t_cap t →
  ∃ i e, 0 ≤ i < t_cap t ∧ t_entries t !! Z.to_nat i = Some e ∧ e_user e = NULL.
Proof.
  intros Hw Hlt. rewrite (tw_count _ _ Hw), <- (tw_len _ _ Hw) in Hlt.
  destruct (decide (Exists (λ e, e_user e = NULL) (t_entries t))) as [H|H].
  - apply Exists_exists in H as (e & Hin & He). apply list_elem_of_lookup in Hin as [i Hi].
    exists (Z.of_nat i), e. rewrite Nat2Z.id. apply lookup_lt_Some in Hi as Hl. rewrite <- (tw_len _ _ Hw). split; [lia|done].
  - exfalso. assert (count_if in_use (t_entries t) = Z.of_nat (length (t_entries t))); [|lia].
    apply count_if_full. intros e He. unfold in_use. apply negb_true_iff, Z.eqb_neq. intros E. apply H.
    apply Exists_exists. eauto.
Qed.

Lemma dh_put_loop_spec t C u raw sz n : ∀ j J, tbl_wf t C → u ≠ NULL → t_count t + 1 < 2 ^ 64 →
  0 ≤ j ≤ J → J < t_cap t → J - j < Z.of_nat n →
  (∃ e, t_entries t !! Z.to_nat ((dh_hash u (t_cap t) + J) mod t_cap t) = Some e ∧ e_user e = NULL) →
  (∀ j', 0 ≤ j' < j → ∀ e', t_entries t !! Z.to_nat ((dh_hash u (t_cap t) + j') mod t_cap t) = Some e' →
     e_user e' ≠ NULL ∧ e_user e' ≠ u) →
  ∃ t', dh_put_loop n t u raw sz ((dh_hash u (t_cap t) + j) mod t_cap t) = Ok t' ∧
    tbl_wf t' (<[u := (raw, sz, false)]> C) ∧ t_cap t' = t_cap t ∧ t_count t' ≤ t_count t + 1.
Proof.
  induction n as [|n IH]; intros j J Hw Hu0 Hov Hj HJ Hn Hnull Hch; [lia|]. cbn [dh_put_loop].
  pose proof (dh_hash_range t C u Hw) as Hh. set (h := dh_hash u (t_cap t)) in *.
  pose proof (count_if_bounds in_use (t_entries t)) as Hcb. rewrite <- (tw_count _ _ Hw) in Hcb.
  destruct (probe_entry t C (h + j) Hw) as (e & He & ->). cbn [mbind outcome_bind].
  destruct ((e_user e =? NULL) || (e_user e =? u)) eqn:E.
  - assert (e_user e = NULL ∨ e_user e = u) as Hcase by (apply orb_true_iff in E as [E|E]; zb; auto).
    assert ((if (e_user e =? 0) && negb (e_freed e) then t_count t +% 1 else t_count t)
            = if e_user e =? NULL then t_count t + 1 else t_count t) as ->.
    { destruct (e_user e =? 0) eqn:E0; zb; [|done]. rewrite (tw_null _ _ Hw _ _ He E0). simpl. apply wrap64_small. ulia. }
    eexists. split; [reflexivity|]. split; [|split; [done|simpl; case_if; lia]].
    apply (tbl_store t C u raw sz j e); try done; [lia| |by intros j' Hj' e' He'; apply (Hch j')].
    intros E0. destruct (C !! u) as [[[r s] f]|] eqn:EC; [|done]. exfalso.
    apply (tw_rep _ _ Hw) in EC as (_ & i & Hi). destruct (tw_probe _ _ Hw i _ Hi Hu0) as (Ju & HJu & Ei & Hcu). simpl in *.
    fold h in Ei, Hcu. destruct (Z.lt_total Ju j) as [Hlt|[->|Hgt]].
    + destruct (Hch Ju ltac:(lia) (DhEntry u r s f)) as [_ Hx]; [by rewrite <- Ei, Nat2Z.id|done].
    + rewrite <- Ei, Nat2Z.id in He. rewrite Hi in He. by simplify_eq.
    + by apply (Hcu j ltac:(lia) e He).
  - apply orb_false_iff in E as [E1 E2]. zb.
    destruct (decide (j = J)) as [->|HneJ].
    { destruct Hnull as (e' & He' & Ez). rewrite He in He'. by simplify_eq. }
    rewrite (probe_next t C) by (done || lia).
    apply (IH (j + 1) J); try done; try lia. intros j' Hj' e' He'. destruct (decide (j' = j)) as [->|].
    + rewrite He in He'. simplify_eq. done.
    + by apply (Hch j' ltac:(lia)).
Qed.

(** [dh_put] without a rehash is insertion. *)
Lemma dh_put_loop_ok t C u raw sz : tbl_wf t C → u ≠ NULL → t_count t < t_cap t →
  ∃ t', dh_put_loop (Z.to_nat (t_cap t)) t u raw sz (dh_hash u (t_cap t)) = Ok t' ∧
    tbl_wf t' (<[u := (raw, sz, false)]> C) ∧ t_cap t' = t_cap t ∧ t_count t' ≤ t_count t + 1.
Proof.
  intros Hw Hu0 Hlt. pose proof (cap_pos t C Hw). pose proof (dh_hash_range t C u Hw) as Hh.
  destruct (tbl_has_null t C Hw Hlt) as (i & e & Hi & He & Ez).
  destruct (probe_all t C (dh_hash u (t_cap t)) i Hw Hh Hi) as (J & HJ & Ei).
  assert (dh_hash u (t_cap t) = (dh_hash u (t_cap t) + 0) mod t_cap t) as E0 by (rewrite Z.add_0_r, Z.mod_small; done).
  destruct (dh_put_loop_spec t C u raw sz (Z.to_nat (t_cap t)) 0 J) as (t' & Et & Hrest); try done; try lia.
  { exists e. by rewrite <- Ei. }
  exists t'. rewrite <- E0 in Et. done.
Qed.

(** ** Rehashing *)

(** The load factor [dh_put] maintains. *)
Definition load_ok (t : dh_table) : Prop := t_count t * 10 < t_cap t * 7.

Lemma tbl_empty k : 0 ≤ k ≤ 61 → tbl_wf (DhTable (replicate (Z.to_nat (2 ^ k)) entry_zero) (2 ^ k) 0) ∅.
Proof.
  intros Hk. pose proof (pow2_pos k ltac:(lia)).
  assert (∀ i e, replicate (Z.to_nat (2 ^ k)) entry_zero !! i = Some e → e = entry_zero) as Hz.
  { intros i e He. by apply lookup_replicate in He as [? _]. }
  split; simpl.
  - eauto.
  - rewrite length_replicate. lia.
  - rewrite (count_if_const _ false); [done|]. intros e He. by apply elem_of_replicate in He as [-> _].
  - intros i e He _. by rewrite (Hz i e He).
  - intros u raw sz fr. rewrite lookup_empty. split; [done|]. intros (Hu & i & Hi). apply Hz in Hi. unfold entry_zero in Hi. congruence.
  - intros i j e e' Hi _ _ Hnz. by rewrite (Hz i e Hi) in Hnz.
  - intros i e Hi Hnz. by rewrite (Hz i e Hi) in Hnz.
Qed.

(** [dh_put] while there is room. *)
Lemma dh_put_depth_room calloc_ok depth t C u raw sz : tbl_wf t C → u ≠ NULL →
  (t_count t + 1) * 10 < t_cap t * 7 →
  ∃ t', dh_put_depth calloc_ok (S depth) t u raw sz = Ok t' ∧
    tbl_wf t' (<[u := (raw, sz, false)]> C) ∧ t_cap t' = t_cap t ∧ t_count t' ≤ t_count t + 1.
Proof.
  intros Hw Hu0 Hload. pose proof (cap_pos t C Hw).
  pose proof (count_if_bounds in_use (t_entries t)) as Hcb. rewrite <- (tw_count _ _ Hw) in Hcb.
  cbn [dh_put_depth]. rewrite (wrap64_small (t_count t + 1)), (wrap64_small ((t_count t + 1) * 10)), (wrap64_small (t_cap t * 7)) by ulia.
  rewrite Z.geb_leb, (proj2 (Z.leb_gt _ _)) by lia. cbn [mbind outcome_bind]. apply dh_put_loop_ok; done || lia.
Qed.

Definition reset (C : content) : content := (λ rsf, (rsf.1.1, rsf.1.2, false)) <$> C.

(** The content of a list of entries, put in a fresh table. *)
Definition put_all (es : list dh_entry) : content :=
  foldl (λ C e, if e_user e =? NULL then C else <[e_user e := (e_raw e, e_size e, false)]> C) ∅ es.

Lemma put_all_snoc es e : put_all (es ++ [e]) =
  if e_user e =? NULL then put_all es else <[e_user e := (e_raw e, e_size e, false)]> (put_all es).
Proof. unfold put_all. by rewrite foldl_app. Qed.

Lemma put_all_lookup es u rsf : put_all es !! u = Some rsf →
  ∃ i e, es !! i = Some e ∧ e_user e = u ∧ u ≠ NULL ∧ rsf = (e_raw e, e_size e, false).
Proof.
  induction es as [|e es IH] using rev_ind; [change (put_all []) with (∅ : content); by rewrite lookup_empty|]. rewrite put_all_snoc. intros H.
  assert (put_all es !! u = Some rsf ∨ e_user e = u ∧ u ≠ NULL ∧ rsf = (e_raw e, e_size e, false)) as [H'|H'].
  { destruct (e_user e =? NULL) eqn:E; zb; [by left|]. apply lookup_insert_Some in H as [[<- <-]|[_ H]]; auto. }
  - destruct (IH H') as (i & e' & Hi & ?). exists i, e'. split; [|done]. by apply lookup_app_l_Some.
  - exists (length es), e. split; [|done]. by rewrite lookup_app_r, Nat.sub_diag.
Qed.

Lemma put_all_is_Some es i e : es !! i = Some e → e_user e ≠ NULL → is_Some (put_all es !! e_user e).
Proof.
  induction es as [|e' es IH] using rev_ind; [done|]. intros Hi Hnz. rewrite put_all_snoc.
  apply lookup_app_Some in Hi as [Hi|[_ Hi]].
  - destruct (e_user e' =? NULL); [by apply IH|]. apply lookup_insert_is_Some'. right. by apply IH.
  - apply list_lookup_singleton_Some in Hi as [_ ->]. rewrite (proj2 (Z.eqb_neq _ _) Hnz). apply lookup_insert_is_Some'. by left.
Qed.

Lemma put_all_reset t C : tbl_wf t C → put_all (t_entries t) = reset C.
Proof.
  intros Hw. apply map_eq. intros u. unfold reset. rewrite lookup_fmap.
  destruct (put_all (t_entries t) !! u) as [rsf|] eqn:E.
  - apply put_all_lookup in E as (i & e & Hi & <- & Hnz & ->).
    assert (C !! e_user e = Some (e_raw e, e_size e, e_freed e)) as ->; [|done].
    apply (tw_rep _ _ Hw). split; [done|]. exists i. rewrite Hi. by destruct e.
  - destruct (C !! u) as [[[r s] f]|] eqn:EC; [|done]. exfalso.
    apply (tw_rep _ _ Hw) in EC as (Hu & i & Hi). destruct (put_all_is_Some _ _ _ Hi Hu) as [? H]. simpl in H. congruence.
Qed.

Lemma dh_rehash_spec calloc_ok depth t C k : tbl_wf t C → load_ok t → t_cap t = 2 ^ k → 0 ≤ k → k + 1 ≤ 61 →
  calloc_ok (2 ^ (k + 1)) = true →
  ∃ t', dh_rehash_with calloc_ok (dh_put_depth calloc_ok (S depth)) t (2 ^ (k + 1)) = Ok t' ∧
    tbl_wf t' (reset C) ∧ t_cap t' = 2 ^ (k + 1) ∧ t_count t' ≤ t_count t.
Proof.
  intros Hw Hload Ecap Hk0 Hk Hca. unfold dh_rehash_with. rewrite Hca. cbn [negb].
  rewrite <- (put_all_reset t C Hw), (tw_count _ _ Hw).
  pose proof (tbl_empty (k + 1) ltac:(lia)) as Hemp. set (t0 := DhTable _ _ 0) in *.
  unfold load_ok in Hload. rewrite Ecap, (tw_count _ _ Hw) in Hload.
  assert (2 ^ (k + 1) = 2 * 2 ^ k) as E2 by (rewrite Z.pow_add_r by lia; lia).
  clear Hw Ecap. generalize dependent (t_entries t). intros es Hload.
  assert (∀ es1 es2, es = es1 ++ es2 → ∃ t',
    foldl (λ acc e, t ← acc; if e_user e =? NULL then Ok t else dh_put_depth calloc_ok (S depth) t (e_user e) (e_raw e) (e_size e)) (Ok t0) es1 = Ok t' ∧
    tbl_wf t' (put_all es1) ∧ t_cap t' = 2 ^ (k + 1) ∧ t_count t' ≤ count_if in_use es1) as H; [|apply (H es []); by rewrite app_nil_r].
  intros es1. induction es1 as [|e es1 IH] using rev_ind; intros es2 Ees; [by exists t0|].
  rewrite <- app_assoc in Ees. destruct (IH _ Ees) as (t1 & E1 & Hw1 & Hc1 & Hn1).
  rewrite foldl_app, E1. cbn [foldl mbind outcome_bind]. rewrite put_all_snoc, count_if_app. cbn [count_if].
  unfold in_use at 2. destruct (e_user e =? NULL) eqn:Eu; zb.
  { exists t1. simpl. split_and!; try done. lia. }
  rewrite Ees, !count_if_app in Hload. cbn [app count_if] in Hload. unfold in_use at 2 in Hload.
  rewrite (proj2 (Z.eqb_neq _ _) Eu) in Hload. pose proof (count_if_bounds in_use es2).
  destruct (dh_put_depth_room calloc_ok depth t1 (put_all es1) (e_user e) (e_raw e) (e_size e) Hw1 Eu) as (t2 & E & Hw2 & Hc2 & Hn2).
  { simpl in Hload. lia. }
  exists t2. split_and!; try done; [congruence|simpl; lia].
Qed.

(** ** How many entries there can be *)

Lemma count_if_pigeon {A} (f : A → bool) (g : A → Z) l n : 0 ≤ n →
  (∀ i x, l !! i = Some x → f x = true → 0 ≤ g x < n) →
  (∀ i j x y, l !! i = Some x → l !! j = Some y → f x = true → f y = true → g x = g y → i = j) →
  count_if f l ≤ n.
Proof.
  intros Hn Hr Hinj. set (l' := g <$> filter (λ x, f x = true) l).
  assert (Z.of_nat (length l') = count_if f l) as <-.
  { unfold l'. rewrite length_fmap. clear. induction l as [|x l IH]; [done|]. rewrite filter_cons. simpl.
    destruct (f x) eqn:E; [rewrite decide_True by done|rewrite decide_False by congruence]; simpl; lia. }
  assert (l' ⊆+ seqZ 0 n) as Hsub.
  { apply NoDup_submseteq.
    - unfold l'. clear Hr. induction l as [|x l IH]; [constructor|]. rewrite filter_cons.
      assert (NoDup (g <$> filter (λ x, f x = true) l)) as IH'.
      { apply IH. intros i j y z Hi Hj F1 F2 E'. specialize (Hinj (S i) (S j) y z Hi Hj F1 F2 E'). lia. }
      case_decide as E; [|done]. cbn [fmap list_fmap]. apply NoDup_cons. split; [|done].
      intros Hin. apply list_elem_of_fmap in Hin as (y & Ey & Hy). apply list_elem_of_filter in Hy as [Hfy Hy].
      apply list_elem_of_lookup in Hy as [j Hj]. by specialize (Hinj 0%nat (S j) x y eq_refl Hj E Hfy Ey).
    - intros z Hz. unfold l' in Hz. apply list_elem_of_fmap in Hz as (y & -> & Hy).
      apply list_elem_of_filter in Hy as [Hfy Hy]. apply list_elem_of_lookup in Hy as [j Hj]. apply elem_of_seqZ.
      specialize (Hr j y Hj Hfy). lia. }
  apply submseteq_length in Hsub. rewrite length_seqZ in Hsub. lia.
Qed.

(** User pointers lie 12 bytes behind 16-aligned addresses. *)
Definition users_ok (C : content) : Prop := ∀ u x, C !! u = Some x → u mod 16 = 12 ∧ is_u64 u.

Lemma tbl_count_bound t C : tbl_wf t C → users_ok C → t_count t ≤ 2 ^ 60.
Proof.
  intros Hw Hus. rewrite (tw_count _ _ Hw).
  assert (∀ i e, t_entries t !! i = Some e → in_use e = true → e_user e mod 16 = 12 ∧ is_u64 (e_user e) ∧ e_user e ≠ NULL) as Hx.
  { intros i e Hi Hf. unfold in_use in Hf. zb.
    destruct (Hus (e_user e) (e_raw e, e_size e, e_freed e)); [|done].
    apply (tw_rep _ _ Hw). split; [done|]. exists i. rewrite Hi. by destruct e. }
  apply (count_if_pigeon in_use (λ e, e_user e / 16)); [lia|..].
  - intros i e Hi Hf. destruct (Hx i e Hi Hf) as (_ & [? ?] & _). split; [apply Z.div_pos; lia|].
    apply Z.div_lt_upper_bound; [lia|]. change (16 * 2 ^ 60) with (2 ^ 64). lia.
  - intros i j e e' Hi Hj Hf Hf' E. destruct (Hx i e Hi Hf) as (M1 & _ & Hnz). destruct (Hx j e' Hj Hf') as (M2 & _ & _).
    apply (tw_uniq _ _ Hw i j e e' Hi Hj); [|done].
    rewrite (Z.div_mod (e_user e) 16), (Z.div_mod (e_user e') 16) by lia. by rewrite E, M1, M2.
Qed.

(** [dh_put] keeps the load factor: it inserts, and when it had to grow the
    table first every entry lost its freed flag. *)
Lemma dh_put_spec calloc_ok t C u raw sz :
  tbl_wf t C → load_ok t → users_ok C → 64 ≤ t_cap t → u ≠ NULL → (∀ n, calloc_ok n = true) →
  ∃ t' C', dh_put calloc_ok t u raw sz = Ok t' ∧ tbl_wf t' (<[u := (raw, sz, false)]> C') ∧
    load_ok t' ∧ 64 ≤ t_cap t' ∧ (C' = C ∨ C' = reset C).
Proof.
  intros Hw Hload Hus H64 Hu0 Hca. pose proof (tbl_count_bound t C Hw Hus) as Hcb. pose proof (cap_pos t C Hw).
  pose proof (count_if_bounds in_use (t_entries t)) as Hc0. rewrite <- (tw_count _ _ Hw) in Hc0. unfold load_ok in *.
  destruct (decide ((t_count t + 1) * 10 < t_cap t * 7)) as [Hroom|Hfull].
  { destruct (dh_put_depth_room calloc_ok 1 t C u raw sz Hw Hu0 Hroom) as (t' & E & Hw' & Ec & En).
    exists t', C. rewrite Ec. split_and!; try done; auto. lia. }
  destruct (tw_cap _ _ Hw) as (k & Hk & Ecap).
  assert (k ≤ 60) as Hk60.
  { destruct (decide (k ≤ 60)); [done|]. assert (k = 61) as -> by lia. rewrite Ecap in Hfull.
    change (2 ^ 61) with (2 * 2 ^ 60) in Hfull. lia. }
  destruct (dh_rehash_spec calloc_ok 0 t C k Hw Hload Ecap ltac:(lia) ltac:(lia) ltac:(apply Hca)) as (t1 & E1 & Hw1 & Ec1 & En1).
  assert (2 ^ (k + 1) = 2 * 2 ^ k) as E2 by (rewrite Z.pow_add_r by lia; lia).
  destruct (dh_put_loop_ok t1 (reset C) u raw sz Hw1 Hu0) as (t2 & Et2 & Hw2 & Ec2 & En2).
  { rewrite Ec1, E2, <- Ecap. lia. }
  exists t2, (reset C). split_and!; try done; auto.
  - unfold dh_put. cbn [dh_put_depth].
    rewrite (wrap64_small (t_count t + 1)), (wrap64_small ((t_count t + 1) * 10)), (wrap64_small (t_cap t * 7)), (wrap64_small (t_cap t * 2)) by ulia.
    rewrite Z.geb_leb, (proj2 (Z.leb_le _ _)) by lia. replace (t_cap t * 2) with (2 ^ (k + 1)) by lia.
    change (dh_put_depth calloc_ok 1) with (dh_put_depth calloc_ok (S 0)) in E1. 
    fold (dh_put_depth calloc_ok 1). rewrite E1. cbn [mbind outcome_bind]. done.
  - rewrite Ec2, Ec1, E2, <- Ecap. lia.
  - rewrite Ec2, Ec1, E2, <- Ecap. lia.
Qed.
