(* ===== verification/DebugProofs.v ===== *)
(** * The debug heap: correctness

    Over any backend that meets the interface of [Allocator] the debug heap
    meets it too (with alignment 4 and 16 bytes less per request), reports no
    false alarm, and detects what it is there for: overwritten canaries,
    double frees, foreign frees and leaks. *)

From S2P Require Import Prelude Memory Platform Allocator DebugHeap DebugTable.

(** Flags and block of an entry that is there already. *)
Lemma tbl_update t C u raw sz fr raw' sz' fr' i : tbl_wf t C → u ≠ NULL →
  t_entries t !! i = Some (DhEntry u raw sz fr) →
  tbl_wf (DhTable (<[i := DhEntry u raw' sz' fr']> (t_entries t)) (t_cap t) (t_count t)) (<[u := (raw', sz', fr')]> C).
Proof.
  intros Hw Hu Hi. pose proof Hw as [Hcap Hlen Hcnt Hnull Hrep Huniq Hprobe].
  assert ((i < length (t_entries t))%nat) as Hlt by (by apply lookup_lt_Some in Hi).
  assert (∀ k e, <[i := DhEntry u raw' sz' fr']> (t_entries t) !! k = Some e →
    (k = i ∧ e = DhEntry u raw' sz' fr') ∨ (k ≠ i ∧ t_entries t !! k = Some e ∧ e_user e ≠ u)) as Hinv.
  { intros k e Hk. destruct (decide (k = i)) as [->|Hki].
    - rewrite list_lookup_insert_eq in Hk by done. simplify_eq. auto.
    - rewrite list_lookup_insert_ne in Hk by done. right. split_and!; try done. intros E. apply Hki.
      eapply (Huniq k i); [done|done|done|congruence]. }
  assert (∀ k e, <[i := DhEntry u raw' sz' fr']> (t_entries t) !! k = Some e →
    ∃ e0, t_entries t !! k = Some e0 ∧ e_user e0 = e_user e) as Hold.
  { intros k e Hk. apply Hinv in Hk as [[-> ->]|(_ & ? & _)]; eauto. }
  split; simpl; try done.
  - by rewrite length_insert.
  - rewrite (count_if_insert _ _ _ _ _ Hi). unfold in_use at 2 3. simpl. destruct (negb (u =? 0)); lia.
  - intros k e Hk E. apply Hinv in Hk as [[-> ->]|(_ & Hk & _)]; [done|by apply (Hnull k)].
  - intros v r s f. rewrite lookup_insert_Some. split.
    + intros [[<- [= <- <- <-]]|[Hne HC]]; [split; [done|]; exists i; by rewrite list_lookup_insert_eq|].
      apply Hrep in HC as (Hv & k & Hk). split; [done|]. exists k. rewrite list_lookup_insert_ne; [done|].
      intros <-. rewrite Hi in Hk. by simplify_eq.
    + intros (Hv & k & Hk). apply Hinv in Hk as [[_ [= -> -> -> ->]]|(_ & Hk & Hne)]; [by left|].
      right. simpl in Hne. split; [done|]. apply Hrep. eauto.
  - intros k l e e' Hk Hl E Hnz. destruct (Hold k e Hk) as (e0 & H0 & E0). destruct (Hold l e' Hl) as (e1 & H1 & E1).
    eapply Huniq; [done|done|congruence|congruence].
  - intros k e Hk Hnz. destruct (Hold k e Hk) as (e0 & H0 & E0). rewrite <- E0 in *.
    destruct (Hprobe k e0 H0 Hnz) as (j & Hj & Ek & Hch). exists j. split_and!; try done; try lia.
    intros j' Hj' e' He'. destruct (Hold _ e' He') as (e1 & H1 & E1). rewrite <- E1. by apply (Hch j').
Qed.

Section spec.
Context {S : Type} `{!hf_allocator_vtable S} {lim : Z} `{!AllocatorSpec HF_DEFAULT_ALIGN lim S}.
Context (calloc_ok : Z → bool) (Hca : ∀ n, calloc_ok n = true) (Hlim : lim ≤ 2 ^ 62).

(** The table knows the live blocks; blocks freed before have no [raw]. *)
Definition tab_rel (C : content) (L : live_map) : Prop :=
  (∀ p n, L !! p = Some n → C !! p = Some (p - 12, n, false)) ∧
  (∀ u raw sz, C !! u = Some (raw, sz, false) → raw ≠ NULL → L !! u = Some sz) ∧
  (∀ u raw sz, C !! u = Some (raw, sz, true) → raw = NULL).

(** The backend's live blocks are those of the clients with their guards. *)
Definition back_rel (LB L : live_map) : Prop :=
  (∀ p n, L !! p = Some n → 0 ≤ n ∧ LB !! (p - 12) = Some (n + 16)) ∧
  (∀ r k, LB !! r = Some k → is_Some (L !! (r + 12))).

Definition guards (m : mem) (p n : Z) : Prop :=
  head_canary m (p - 12) = DH_CANARY ∧ tail_canary m (p - 12) n = DH_CANARY.

(** A report without an alarm. *)
Definition clean (r : hf_debug_report) (L : live_map) : Prop :=
  canary_violations r = 0 ∧ double_frees r = 0 ∧ invalid_frees r = 0 ∧
  active_allocs r = wrap64 (Z.of_nat (base.size L)).

(** Backend, table and live blocks belong together, whatever is in the guards. *)
Definition dh_wf (h : dh_heap S) (m : mem) (L : live_map) (C : content) (LB : live_map) : Prop :=
  alloc_inv (dh_backend h) m LB ∧ tbl_wf (dh_tab h) C ∧ load_ok (dh_tab h) ∧ users_ok C ∧
  64 ≤ t_cap (dh_tab h) ∧ tab_rel C L ∧ back_rel LB L.

Definition dh_inv (h : dh_heap S) (m : mem) (L : live_map) : Prop :=
  ∃ C LB, dh_wf h m L C LB ∧ (∀ p n, L !! p = Some n → guards m p n) ∧ clean (dh_rep h) L.

(** Bytes around a live block: its own, its guards, those of the others. *)
Lemma back_block s m LB L p n : alloc_inv s m LB → back_rel LB L → L !! p = Some n →
  12 < p ∧ p + n + 4 ≤ 2 ^ 64 ∧ 0 ≤ n ∧ (16 | p - 12).
Proof.
  intros Hinv [HB _] Hp. destruct (HB p n Hp) as [Hn Hb].
  destruct (spec_live_range _ _ _ _ _ Hinv Hb) as (? & ? & ? & ?). split_and!; done || lia.
Qed.

Lemma back_apart s m LB L p n q k : alloc_inv s m LB → back_rel LB L → L !! p = Some n → L !! q = Some k → p ≠ q →
  ∀ x, range (p - 12) (n + 16) x → ¬ range (q - 12) (k + 16) x.
Proof.
  intros Hinv [HB _] Hp Hq Hne. destruct (HB p n Hp) as [_ H1]. destruct (HB q k Hq) as [_ H2].
  apply (spec_live_apart _ _ _ _ _ _ _ Hinv H1 H2). lia.
Qed.

Lemma back_in_live LB L x : back_rel LB L → in_live L x → in_live LB x.
Proof.
  intros [HB _] (p & n & Hp & Hr). destruct (HB p n Hp) as [? H]. exists (p - 12), (n + 16). split; [done|rlia].
Qed.

Lemma guards_agree m m' p n : agree_on (range (p - 12) 4) m m' → agree_on (range (p + n) 4) m m' →
  guards m p n → guards m' p n.
Proof.
  unfold guards, head_canary, tail_canary, DH_HEAD. intros H1 H2 [G1 G2].
  replace (p - 12 + (4 + 8) + n) with (p + n) in * by lia.
  rewrite (load32_agree m m') by done. rewrite (load32_agree m m') by done. done.
Qed.

(** Guards are untouched by what is written to live bytes. *)
Lemma guards_client s m m' LB L : alloc_inv s m LB → back_rel LB L →
  agree_on (λ x, ¬ in_live L x) m m' → ∀ p n, L !! p = Some n → guards m p n → guards m' p n.
Proof.
  intros Hinv Hb Hag p n Hp. pose proof (back_block _ _ _ _ _ _ Hinv Hb Hp) as (_ & _ & Hn & _).
  apply guards_agree; intros x Hx; apply Hag; intros (q & k & Hq & Hr);
    (destruct (decide (q = p)) as [->|Hne]; [simplify_eq; rlia|]);
    apply (back_apart _ _ _ _ _ _ _ _ Hinv Hb Hq Hp Hne x); rlia.
Qed.

(** The bytes a new block starts with. *)
Definition fresh_block (m : mem) (raw size : Z) : mem :=
  memset (write_guards m raw size) (raw + DH_HEAD) DH_FILL (Z.to_nat size).

Lemma fresh_block_spec m raw size : 0 ≤ size →
  guards (fresh_block m raw size) (raw + 12) size ∧
  agree_on (λ x, ¬ range raw (size + 16) x) m (fresh_block m raw size) ∧
  (∀ x, range (raw + 12) size x → load8 (fresh_block m raw size) x = DH_FILL).
Proof.
  intros Hs. unfold fresh_block, write_guards, guards, head_canary, tail_canary, DH_HEAD.
  replace (raw + 12 - 12) with raw by lia. replace (4 + 8) with 12 by lia.
  set (m1 := store32 m raw DH_CANARY). set (m2 := store64 m1 (raw + 4) size).
  set (m3 := store32 m2 (raw + 12 + size) DH_CANARY). set (m4 := memset m3 (raw + 12) DH_FILL (Z.to_nat size)).
  assert (agree_on (λ x, ¬ range (raw + 12) size x) m3 m4) as A4.
  { intros x Hx. apply load8_memset_out. rewrite Z2Nat.id by done. done. }
  assert (agree_on (λ x, ¬ range (raw + 12 + size) 4 x) m2 m3) as A3 by (intros x Hx; by apply load8_store32_out).
  assert (agree_on (λ x, ¬ range (raw + 4) 8 x) m1 m2) as A2 by (intros x Hx; by apply load8_store64_out).
  assert (agree_on (λ x, ¬ range raw 4 x) m m1) as A1 by (intros x Hx; by apply load8_store32_out).
  split_and!.
  - rewrite (load32_agree m1 m4); [unfold m1; by rewrite load32_store32_eq|].
    intros x Hx. rewrite A4, A3, A2 by rlia. done.
  - rewrite (load32_agree m3 m4); [unfold m3; by rewrite load32_store32_eq|].
    intros x Hx. apply A4. rlia.
  - intros x Hx. rewrite A4, A3, A2, A1 by rlia. done.
  - intros x Hx. unfold m4. rewrite load8_memset_in by (rewrite Z2Nat.id by done; done). done.
Qed.

Lemma tab_rel_reset C L : tab_rel C L → tab_rel (reset C) L.
Proof.
  intros (H1 & H2 & H3). unfold reset. split_and!.
  - intros p n Hp. by rewrite lookup_fmap, (H1 p n Hp).
  - intros u raw sz Hu Hr. rewrite lookup_fmap in Hu. destruct (C !! u) as [[[r s] f]|] eqn:E; [|done]. simplify_eq/=.
    destruct f; [by apply H3 in E|by apply (H2 u raw)].
  - intros u raw sz Hu. rewrite lookup_fmap in Hu. destruct (C !! u) as [[[r s] f]|]; [|done]. simplify_eq/=.
Qed.

Lemma users_ok_reset C : users_ok C → users_ok (reset C).
Proof.
  intros H u x Hu. unfold reset in Hu. rewrite lookup_fmap in Hu. destruct (C !! u) as [y|] eqn:E; [|done]. by apply (H u y).
Qed.

Lemma tab_rel_insert C L u raw n : tab_rel C L → raw = u - 12 → raw ≠ NULL → tab_rel (<[u := (raw, n, false)]> C) (<[u := n]> L).
Proof.
  intros (H1 & H2 & H3) -> Hnz. split_and!.
  - intros p k Hp. apply lookup_insert_Some in Hp as [[<- <-]|[Hne Hp]]; [by rewrite lookup_insert_eq|].
    rewrite lookup_insert_ne by done. by apply H1.
  - intros v r s Hv Hr. apply lookup_insert_Some in Hv as [[<- [= <- <-]]|[Hne Hv]]; [by rewrite lookup_insert_eq|].
    rewrite lookup_insert_ne by done. by apply (H2 v r).
  - intros v r s Hv. apply lookup_insert_Some in Hv as [[_ [=]]|[Hne Hv]]. by apply (H3 v r s).
Qed.

Lemma back_rel_insert LB L raw n : back_rel LB L → 0 ≤ n → back_rel (<[raw := n + 16]> LB) (<[raw + 12 := n]> L).
Proof.
  intros [H1 H2] Hn. split.
  - intros p k Hp. apply lookup_insert_Some in Hp as [[<- <-]|[Hne Hp]].
    + split; [done|]. replace (raw + 12 - 12) with raw by lia. by rewrite lookup_insert_eq.
    + rewrite lookup_insert_ne by lia. by apply H1.
  - intros r k Hr. apply lookup_insert_is_Some'. apply lookup_insert_Some in Hr as [[<- _]|[Hne Hr]]; [by left|right]. by apply (H2 r k).
Qed.

Lemma dh_inv_allocate h m L size : dh_inv h m L → 0 ≤ size ≤ lim - 16 →
  ∃ h' m' p, dh_allocate calloc_ok h m size HF_DEFAULT_ALIGN = Ok (h', m', p) ∧
    agree_on (in_live L) m m' ∧
    ((p = NULL ∧ dh_inv h' m' L) ∨
     (p ≠ NULL ∧ L !! p = None ∧ apart L p size ∧ dh_inv h' m' (<[p := size]> L) ∧
      (∀ x, range p size x → load8 m' x = DH_FILL))).
Proof.
  intros (C & LB & (Hinv & Hw & Hload & Hus & H64 & Htab & Hback) & Hgu & Hcl) Hs. unfold dh_allocate.
  change DH_HEAD with 12. change DH_TAIL with 4. rewrite (wrap64_small (12 + size)), wrap64_small by ulia.
  change (hf_allocate_aligned (dh_backend h) m (12 + size + 4) HF_DEFAULT_ALIGN)
    with (hf_allocate (dh_backend h) m (12 + size + 4)).
  destruct (spec_allocate _ _ _ (12 + size + 4) Hinv ltac:(lia)) as (b & m1 & raw & -> & Hag & Hcase). cbn [mbind outcome_bind].
  assert (agree_on (in_live L) m m1) as HagL by (eapply agree_on_sub; [exact Hag|]; intros x; by apply back_in_live).
  assert (∀ p n, L !! p = Some n → guards m1 p n) as Hgu1.
  { intros p n Hp. specialize (Hgu p n Hp). destruct Hback as [HB _]. destruct (HB p n Hp) as [Hn Hb].
    revert Hgu. apply guards_agree; intros x Hx; apply Hag; exists (p - 12), (n + 16); (split; [done|rlia]). }
  destruct Hcase as [[-> Hinv1]|(Hr & HN & Hap & Hinv1)].
  { rewrite Z.eqb_refl. eexists _, _, _. split; [reflexivity|]. split; [done|]. left. split; [done|]. exists C, LB. done. }
  rewrite (proj2 (Z.eqb_neq _ _) Hr). change (memset (write_guards m1 raw size) (raw + 12) DH_FILL (Z.to_nat size)) with (fresh_block m1 raw size).
  destruct (fresh_block_spec m1 raw size ltac:(lia)) as (Hg & Hag2 & Hfill). set (m2 := fresh_block m1 raw size) in *. clearbody m2.
  assert (<[raw := 12 + size + 4]> LB !! raw = Some (12 + size + 4)) as Hlook by apply lookup_insert_eq.
  destruct (spec_live_range _ _ _ _ _ Hinv1 Hlook) as (R1 & R2 & R3 & [i R4]). replace (12 + size + 4) with (size + 16) in * by lia.
  destruct (dh_put_spec calloc_ok (dh_tab h) C (raw + 12) raw size Hw Hload Hus H64 ltac:(lia) Hca)
    as (t & C' & -> & Hw' & Hload' & H64' & HC'). cbn [mbind outcome_bind].
  assert (tab_rel C' L ∧ users_ok C') as [Htab' Hus'] by (destruct HC' as [-> | ->]; [done|split; [by apply tab_rel_reset|by apply users_ok_reset]]).
  eexists _, _, _. split; [reflexivity|].
  assert (∀ x, in_live L x → ¬ range raw (size + 16) x) as Hout.
  { intros x Hx Hrx. apply (Hap x Hrx). by apply (back_in_live LB L). }
  split; [eapply agree_on_trans; [exact HagL|]; eapply agree_on_sub; [exact Hag2|]; exact Hout|]. right. split_and!.
  - lia.
  - destruct (L !! (raw + 12)) as [n|] eqn:E; [|done]. destruct Hback as [HB _]. destruct (HB _ _ E) as [_ Hx].
    replace (raw + 12 - 12) with raw in Hx by lia. congruence.
  - intros x Hx Hl. apply (Hout x Hl). rlia.
  - exists (<[raw + 12 := (raw, size, false)]> C'), (<[raw := size + 16]> LB). unfold dh_wf. split_and!; try done.
    + apply (spec_client_write _ m1); [done|]. eapply agree_on_sub; [exact Hag2|]. intros x Hx Hrx. apply Hx.
      exists raw, (size + 16). split; [apply lookup_insert_eq|done].
    + intros u y Hu. apply lookup_insert_Some in Hu as [[<- _]|[_ Hu]]; [|by apply (Hus' u y)].
      split; [|ulia]. rewrite R4. change HF_DEFAULT_ALIGN with 16. rewrite Z.add_comm, Z_mod_plus_full. done.
    + apply tab_rel_insert; [done|lia|done].
    + by apply back_rel_insert; [|lia].
    + intros p n Hp. apply lookup_insert_Some in Hp as [[<- <-]|[Hne Hp]]; [done|].
      specialize (Hgu1 p n Hp). destruct Hback as [HB _]. destruct (HB p n Hp) as [Hn Hb].
      revert Hgu1. apply guards_agree; intros x Hx; apply Hag2; intros Hrx; apply (Hap x Hrx);
        exists (p - 12), (n + 16); (split; [done|rlia]).
    + destruct Hcl as (? & ? & ? & Hact). split_and!; try done. simpl. rewrite Hact.
      assert (L !! (raw + 12) = None) as HLN.
      { destruct (L !! (raw + 12)) as [n|] eqn:E; [|done]. destruct Hback as [HB _]. destruct (HB _ _ E) as [_ Hx].
        replace (raw + 12 - 12) with raw in Hx by lia. congruence. }
      rewrite map_size_insert_None by done. unfold wrap64. rewrite Zplus_mod_idemp_l. f_equal. lia.
  - done.
Qed.

Lemma tab_rel_delete C L p n : tab_rel C L → L !! p = Some n → tab_rel (<[p := (NULL, n, true)]> C) (delete p L).
Proof.
  intros (H1 & H2 & H3) Hp. split_and!.
  - intros q k Hq. apply lookup_delete_Some in Hq as [Hne Hq]. rewrite lookup_insert_ne by done. by apply H1.
  - intros v r s Hv Hr. apply lookup_insert_Some in Hv as [[_ [=]]|[Hne Hv]]. rewrite lookup_delete_ne by done. by apply (H2 v r).
  - intros v r s Hv. apply lookup_insert_Some in Hv as [[_ [= <- _]]|[Hne Hv]]; [done|]. by apply (H3 v r s).
Qed.

Lemma back_rel_delete LB L p n : back_rel LB L → L !! p = Some n → back_rel (delete (p - 12) LB) (delete p L).
Proof.
  intros [H1 H2] Hp. split.
  - intros q k Hq. apply lookup_delete_Some in Hq as [Hne Hq]. rewrite lookup_delete_ne by lia. by apply H1.
  - intros r k Hr. apply lookup_delete_Some in Hr as [Hne Hr]. rewrite lookup_delete_ne by lia. by apply (H2 r k).
Qed.

(** Freeing a live block: the canaries decide whether a violation is counted;
    either way the block is poisoned, given back and remembered as freed. *)
Lemma dh_deallocate_live h m L C LB p n : dh_wf h m L C LB → L !! p = Some n →
  ∃ h' m', dh_deallocate h m p = Ok (h', m') ∧
    dh_wf h' m' (delete p L) (<[p := (NULL, n, true)]> C) (delete (p - 12) LB) ∧
    agree_on (in_live (delete (p - 12) LB)) m m' ∧
    hf_deallocate (dh_backend h) (memset m p DH_POISON (Z.to_nat n)) (p - 12) = Ok (dh_backend h', m') ∧
    (guards m p n → dh_rep h' = rep_free (dh_rep h)) ∧
    (¬ guards m p n → dh_rep h' = rep_free (rep_canary (dh_rep h))).
Proof.
  intros (Hinv & Hw & Hload & Hus & H64 & Htab & Hback) Hp.
  destruct (back_block _ _ _ _ _ _ Hinv Hback Hp) as (Hp12 & Hp64 & Hn & _).
  pose proof (proj1 Htab p n Hp) as HC. pose proof (dh_find_spec _ C p Hw ltac:(lia)) as Hf. rewrite HC in Hf.
  destruct Hf as (i & Ef & Hi). unfold dh_deallocate. rewrite (proj2 (Z.eqb_neq _ _)) by lia.
  rewrite Ef. cbn [mbind outcome_bind]. unfold entry_at. rewrite Nat2Z.id, Hi. cbn [mbind outcome_bind e_user e_freed e_raw e_size].
  rewrite Z.eqb_refl. cbn [negb]. unfold verify_block. rewrite (proj2 (Z.eqb_neq (p - 12) 0)) by lia. cbn [mbind outcome_bind].
  set (ok := _ && _). set (h1 := if ok then h else _).
  assert (dh_backend h1 = dh_backend h ∧ dh_tab h1 = dh_tab h) as [-> ->] by (unfold h1; by destruct ok).
  set (m1 := memset m p DH_POISON (Z.to_nat n)).
  destruct (proj1 Hback p n Hp) as [_ HLB].
  assert (agree_on (λ x, ¬ range p n x) m m1) as Hag1 by (intros x Hx; apply load8_memset_out; rewrite Z2Nat.id by done; done).
  assert (alloc_inv (dh_backend h) m1 LB) as Hinv1.
  { apply (spec_client_write _ m); [done|]. eapply agree_on_sub; [exact Hag1|]. intros x Hx Hr. apply Hx.
    exists (p - 12), (n + 16). split; [done|rlia]. }
  destruct (spec_deallocate _ _ _ _ _ Hinv1 HLB) as (b & m2 & Eb & Hag2 & Hinv2). rewrite Eb. cbn [mbind outcome_bind].
  eexists _, m2. split; [reflexivity|]. split; [|split; [|split; [reflexivity|]]].
  - unfold dh_wf. simpl. split_and!; try done.
    + apply (tbl_update _ C p (p - 12) n false); [done|lia|done].
    + intros u y Hu. apply lookup_insert_Some in Hu as [[<- _]|[_ Hu]]; [by apply (Hus p _ HC)|by apply (Hus u y)].
    + by apply tab_rel_delete.
    + by apply (back_rel_delete LB L p n).
  - eapply agree_on_trans; [|exact Hag2]. eapply agree_on_sub; [exact Hag1|]. intros x (r & k & Hr & Hx) Hpx.
    apply lookup_delete_Some in Hr as [Hne Hr]. apply (spec_live_apart _ _ _ _ _ _ _ Hinv Hr HLB ltac:(done) x Hx). rlia.
  - assert (ok = true ↔ guards m p n) as Hok.
    { unfold ok, guards. rewrite andb_true_iff, !Z.eqb_eq. done. }
    unfold h1. simpl. destruct ok; simpl; (split; intros Hg; [|]); try done.
    + exfalso. by apply Hg, Hok.
    + by apply Hok in Hg.
Qed.

Lemma dh_inv_deallocate h m L p n : dh_inv h m L → L !! p = Some n →
  ∃ h' m', dh_deallocate h m p = Ok (h', m') ∧
    agree_on (in_live (delete p L)) m m' ∧ dh_inv h' m' (delete p L).
Proof.
  intros (C & LB & Hwf & Hgu & Hcl) Hp. pose proof Hwf as (Hinv & _ & _ & _ & _ & _ & Hback).
  destruct (dh_deallocate_live h m L C LB p n Hwf Hp) as (h' & m' & E & Hwf' & Hag & _ & Hr & _).
  pose proof Hwf' as (_ & _ & _ & _ & _ & _ & Hback'). exists h', m'. split; [done|].
  split. { eapply agree_on_sub; [exact Hag|]. intros x. by apply back_in_live. }
  eexists _, _. split; [exact Hwf'|]. split.
  - intros q k Hq. pose proof Hq as Hq'. apply lookup_delete_Some in Hq' as [Hne Hq'].
    destruct (proj1 Hback' q k Hq) as [Hk HLB]. specialize (Hgu q k Hq'). revert Hgu.
    apply guards_agree; intros x Hx; apply Hag; exists (q - 12), (k + 16); (split; [done|rlia]).
  - rewrite (Hr (Hgu p n Hp)). destruct Hcl as (? & ? & ? & Hact). split_and!; try done. simpl. rewrite Hact.
    rewrite map_size_delete_Some by eauto. assert (base.size L ≠ 0%nat) by (apply map_size_ne_0_lookup; eauto).
    unfold wrap64. rewrite Zminus_mod_idemp_l. f_equal. lia.
Qed.

#[global] Instance dh_spec : AllocatorSpec 4 (lim - 16) (dh_heap S) (hf_allocator_vtable0 := DH_VT calloc_ok).
Proof.
  refine {| alloc_inv := dh_inv |}.
  - intros h m L p n (C & LB & (Hinv & _ & _ & _ & _ & _ & Hback) & _) Hp.
    destruct (back_block _ _ _ _ _ _ Hinv Hback Hp) as (? & ? & ? & [i Hi]). split_and!; try lia. exists (4 * i + 3). lia.
  - intros h m L p n q k (C & LB & (Hinv & _ & _ & _ & _ & _ & Hback) & _) Hp Hq Hne x Hx Hx'.
    pose proof (back_block _ _ _ _ _ _ Hinv Hback Hp). pose proof (back_block _ _ _ _ _ _ Hinv Hback Hq).
    apply (back_apart _ _ _ _ _ _ _ _ Hinv Hback Hp Hq Hne x); rlia.
  - intros h m L size Hinv Hs. destruct (dh_inv_allocate h m L size Hinv Hs) as (h' & m' & p & E & Hag & Hcase).
    exists h', m', p. split; [exact E|]. split; [done|]. destruct Hcase as [?|(? & ? & ? & ? & _)]; auto.
  - intros h m L p n. apply dh_inv_deallocate.
  - intros h m m' L (C & LB & (Hinv & Hw & Hload & Hus & H64 & Htab & Hback) & Hgu & Hcl) Hag.
    exists C, LB. split; [|split; [|done]].
    + unfold dh_wf. split_and!; try done; try lia. apply (spec_client_write _ m); [done|]. eapply agree_on_sub; [exact Hag|].
      intros x Hx Hl. by apply Hx, (back_in_live LB L).
    + intros p n Hp. by apply (guards_client _ _ _ _ _ Hinv Hback Hag p n Hp), Hgu.
Defined.
End spec.
