(* ===== verification/DebugSpec.v ===== *)
(** * The debug heap: leaks, verdicts and claims

    What the reports say of the live blocks, what [hf_debug_heap_check] and
    [dh_destroy] do, and the claims about the debug heap. *)

From S2P Require Import Prelude Memory Platform Allocator DebugHeap DebugTable DebugProofs.
From S2P Require Import FreeList FreeListProofs FreeListSpec.

(** ** The live entries of the table *)

Definition live_entries (t : dh_table) : list dh_entry := filter (λ e, entry_live e = true) (t_entries t).

Definition entry_pair (e : dh_entry) : Z * Z := (e_user e, e_size e).

(** Total size of the blocks of a live map. *)
Definition live_bytes (L : live_map) : Z := foldr (λ pn acc, pn.2 + acc) 0 (map_to_list L).

(** A loop over the table that skips dead entries visits the live ones. *)
Lemma foldl_live {A} (f : A → dh_entry → A) (a : A) es :
  foldl (λ acc e, if entry_live e then f acc e else acc) a es = foldl f a (filter (λ e, entry_live e = true) es).
Proof.
  revert a. induction es as [|e es IH]; intros a; [done|]. rewrite filter_cons. simpl. rewrite IH.
  destruct (entry_live e) eqn:E; [by rewrite decide_True|rewrite decide_False; done].
Qed.

Lemma filter_NoDup_users t C : tbl_wf t C → NoDup (e_user <$> live_entries t).
Proof.
  intros Hw. unfold live_entries. pose proof (tw_uniq _ _ Hw) as Hu. revert Hu. generalize (t_entries t).
  induction l as [|e l IH]; intros Hu; [by rewrite filter_nil; constructor|]. rewrite filter_cons.
  assert (NoDup (e_user <$> filter (λ e0, entry_live e0 = true) l)) as Hnd.
  { apply IH. intros i j e1 e2 Hi Hj E1 E2. by apply Nat.succ_inj, (Hu (S i) (S j) e1 e2). }
  destruct (decide (entry_live e = true)) as [Hl|]; [|done]. rewrite fmap_cons. constructor; [|done].
  intros (e' & E & He')%list_elem_of_fmap. apply list_elem_of_filter in He' as [_ He'].
  apply list_elem_of_lookup in He' as [i Hi].
  assert (e_user e ≠ NULL) as Hnz by (unfold entry_live in Hl; zb; done).
  specialize (Hu 0%nat (S i) e e' eq_refl Hi E Hnz). done.
Qed.

Section leaks.
Context {S : Type} `{!hf_allocator_vtable S} {lim : Z} `{!AllocatorSpec HF_DEFAULT_ALIGN lim S}.

(** The live entries are exactly the live blocks. *)
Lemma live_entries_elem h m L C LB e : dh_wf h m L C LB →
  e ∈ live_entries (dh_tab h) ↔ ∃ p n, L !! p = Some n ∧ e = DhEntry p (p - 12) n false.
Proof.
  intros (Hinv & Hw & _ & Hus & _ & Htab & Hback). unfold live_entries. rewrite list_elem_of_filter. split.
  - intros [Hl He]. unfold entry_live in Hl. zb. apply list_elem_of_lookup in He as [i Hi].
    destruct e as [u raw sz fr]; simpl in *. subst fr.
    assert (C !! u = Some (raw, sz, false)) as HC by (apply (tw_rep _ _ Hw); eauto).
    destruct Htab as (H1 & H2 & _). pose proof (H2 _ _ _ HC ltac:(done)) as HL. exists u, sz. split; [done|].
    rewrite (H1 _ _ HL) in HC. by simplify_eq.
  - intros (p & n & HL & ->). pose proof (proj1 Htab p n HL) as HC.
    destruct (back_block _ _ _ _ _ _ Hinv Hback HL) as (Hp & _).
    apply (tw_rep _ _ Hw) in HC as (_ & i & Hi). split; [|by apply list_elem_of_lookup; exists i].
    unfold entry_live. simpl. rewrite !(proj2 (Z.eqb_neq _ _)) by lia. done.
Qed.

Lemma live_entries_perm h m L C LB : dh_wf h m L C LB →
  entry_pair <$> live_entries (dh_tab h) ≡ₚ map_to_list L.
Proof.
  intros Hwf. pose proof Hwf as (_ & Hw & _). apply NoDup_Permutation.
  - apply (NoDup_fmap_1 fst). rewrite <- list_fmap_compose. by apply (filter_NoDup_users _ C).
  - apply NoDup_map_to_list.
  - intros [p n]. rewrite elem_of_map_to_list, list_elem_of_fmap. split.
    + intros (e & E & He). apply (live_entries_elem _ _ _ _ _ _ Hwf) in He as (q & k & HL & ->).
      unfold entry_pair in E. by simplify_eq/=.
    + intros HL. exists (DhEntry p (p - 12) n false). split; [done|]. apply (live_entries_elem _ _ _ _ _ _ Hwf). eauto.
Qed.

(** The report counts the live blocks and their bytes. *)
Lemma report_leaks h m L C LB : dh_wf h m L C LB →
  hf_debug_heap_report h = rep_leaks (wrap64 (Z.of_nat (base.size L))) (wrap64 (live_bytes L)) (dh_rep h).
Proof.
  intros Hwf. unfold hf_debug_heap_report. rewrite (foldl_live (λ acc e, (acc.1 +% 1, acc.2 +% e_size e))).
  change (filter _ (t_entries (dh_tab h))) with (live_entries (dh_tab h)).
  assert (∀ es a b, foldl (λ acc e, (acc.1 +% 1, acc.2 +% e_size e)) (wrap64 a, wrap64 b) es =
    (wrap64 (a + Z.of_nat (length es)), wrap64 (b + foldr (λ pn acc, pn.2 + acc) 0 (entry_pair <$> es)))) as Hf.
  { induction es as [|e es IH]; intros a b; simpl; [by rewrite !Z.add_0_r|].
    replace (wrap64 a +% 1) with (wrap64 (a + 1)) by (unfold wrap64; by rewrite Zplus_mod_idemp_l).
    replace (wrap64 b +% e_size e) with (wrap64 (b + e_size e)) by (unfold wrap64; by rewrite Zplus_mod_idemp_l).
    rewrite IH. change (list_fmap _ _ entry_pair es) with (entry_pair <$> es). f_equal; f_equal; lia. }
  specialize (Hf (live_entries (dh_tab h)) 0 0). rewrite !Z.add_0_l in Hf. change (wrap64 0) with 0 in Hf. rewrite Hf.
  pose proof (live_entries_perm _ _ _ _ _ Hwf) as Hp. f_equal; f_equal.
  - f_equal. rewrite <- (length_map_to_list L), <- Hp. by rewrite length_fmap.
  - unfold live_bytes. apply (foldr_permutation_proper eq (λ (pn : Z * Z) acc, pn.2 + acc)); [solve_proper|intros; lia|exact Hp].
Qed.

(** The sweep over the table reads the canaries of every live block. *)
Definition guards_b (m : mem) (p n : Z) : bool :=
  (head_canary m (p - 12) =? DH_CANARY) && (tail_canary m (p - 12) n =? DH_CANARY).

Lemma guards_b_spec m p n : guards_b m p n = true ↔ guards m p n.
Proof. unfold guards_b, guards. by rewrite andb_true_iff, !Z.eqb_eq. Qed.

Lemma guards_words m p n :
  (load32 m (p - 12) =? 0xDEADBEEF) && (load32 m (p + n) =? 0xDEADBEEF) = guards_b m p n.
Proof. unfold guards_b, head_canary, tail_canary, DH_HEAD. by replace (p - 12 + (4 + 8) + n) with (p + n) by lia. Qed.

(** A poisoned block, byte by byte. *)
Lemma load8_poisoned m p n x : 0 ≤ n →
  load8 (memset m p DH_POISON (Z.to_nat n)) x = if (p <=? x) && (x <? p + n) then 0xCD else load8 m x.
Proof.
  intros Hn. destruct ((p <=? x) && (x <? p + n)) eqn:E.
  - zb. by rewrite load8_memset_in by (unfold range; rewrite Z2Nat.id by done; lia).
  - apply load8_memset_out. unfold range. rewrite Z2Nat.id by done. intros Hr.
    apply andb_false_iff in E as [E|E]; zb; lia.
Qed.

(** Live blocks with a smashed canary. *)
Definition smashed (m : mem) (L : live_map) : Z :=
  count_if (λ pn, negb (guards_b m pn.1 pn.2)) (map_to_list L).

Lemma smashed_0 m L : smashed m L = 0 ↔ ∀ p n, L !! p = Some n → guards m p n.
Proof.
  unfold smashed. split.
  - intros H p n HL. apply guards_b_spec. apply elem_of_map_to_list in HL.
    induction (map_to_list L) as [|x l IH]; [by apply not_elem_of_nil in HL|]. simpl in H.
    pose proof (count_if_bounds (λ pn, negb (guards_b m pn.1 pn.2)) l).
    apply elem_of_cons in HL as [<-|HL]; [|apply IH; [destruct (negb _); lia|done]].
    simpl in H. destruct (guards_b m p n); [done|simpl in H; lia].
  - intros H. rewrite (count_if_const _ false); [done|]. intros [p n] Hpn. apply elem_of_map_to_list in Hpn. simpl.
    by rewrite (proj2 (guards_b_spec m p n) (H p n Hpn)).
Qed.

Lemma check_list (h : dh_heap S) m bad es : Forall (λ e, entry_live e = true) es →
  foldl (λ acc e, '(h, bad) ← acc; '(ok, h) ← verify_block h m (e_raw e) (e_size e);
           Ok (h, if ok : bool then bad else bad +% 1)) (Ok (h, wrap64 bad)) es =
  Ok (foldl (λ h e, if guards_b m (e_raw e + 12) (e_size e) then h else dh_set_rep h (rep_canary (dh_rep h))) h es,
      wrap64 (bad + count_if (λ e, negb (guards_b m (e_raw e + 12) (e_size e))) es)).
Proof.
  intros Hes. revert h bad. induction Hes as [|e es He _ IH]; intros h bad; cbn [foldl count_if]; [by rewrite Z.add_0_r|].
  unfold verify_block at 2. unfold entry_live in He. zb. rewrite (proj2 (Z.eqb_neq _ _)) by done. cbn [mbind outcome_bind].
  assert ((head_canary m (e_raw e) =? DH_CANARY) && (tail_canary m (e_raw e) (e_size e) =? DH_CANARY) =
    guards_b m (e_raw e + 12) (e_size e)) as ->.
  { unfold guards_b. by replace (e_raw e + 12 - 12) with (e_raw e) by lia. }
  destruct (guards_b m (e_raw e + 12) (e_size e)); cbn [negb]; [by rewrite IH|].
  replace (wrap64 bad +% 1) with (wrap64 (bad + 1)) by (unfold wrap64; by rewrite Zplus_mod_idemp_l).
  rewrite IH. do 3 f_equal. lia.
Qed.

(** Violations found in a sweep are added to the report. *)
Definition rep_violations (k : Z) (r : hf_debug_report) : hf_debug_report :=
  Report (active_allocs r) (total_allocs r) (total_frees r) (wrap64 (canary_violations r + k))
    (double_frees r) (invalid_frees r) (leaked_blocks r) (leaked_bytes r).

Lemma check_report (h : dh_heap S) (f : dh_entry → bool) es : is_u64 (canary_violations (dh_rep h)) →
  foldl (λ h e, if f e then h else dh_set_rep h (rep_canary (dh_rep h))) h es =
  dh_set_rep h (rep_violations (count_if (λ e, negb (f e)) es) (dh_rep h)).
Proof.
  revert h. induction es as [|e es IH]; intros h Hc; cbn [foldl count_if].
  { destruct h as [b t []]. unfold dh_set_rep, rep_violations. simpl in *. rewrite Z.add_0_r, wrap64_small by done. done. }
  destruct (f e); cbn [negb]; [rewrite IH by done; by rewrite Z.add_0_l|].
  rewrite IH by apply wrap64_range. unfold dh_set_rep, rep_violations, rep_canary. simpl. do 2 f_equal.
  unfold wrap64. rewrite Zplus_mod_idemp_l. f_equal. lia.
Qed.

Lemma check_spec h m L C LB : dh_wf h m L C LB → is_u64 (canary_violations (dh_rep h)) →
  hf_debug_heap_check h m = Ok (dh_set_rep h (rep_violations (smashed m L) (dh_rep h)), wrap64 (smashed m L)).
Proof.
  intros Hwf Hc. unfold hf_debug_heap_check.
  assert (∀ es (a : outcome (dh_heap S * Z)), foldl (λ acc e, '(h, bad) ← acc; if entry_live e then
      '(ok, h) ← verify_block h m (e_raw e) (e_size e); Ok (h, if ok : bool then bad else bad +% 1) else Ok (h, bad)) a es =
    foldl (λ acc e, '(h, bad) ← acc; '(ok, h) ← verify_block h m (e_raw e) (e_size e);
      Ok (h, if ok : bool then bad else bad +% 1)) a (filter (λ e, entry_live e = true) es)) as Hfold.
  { intros es a. rewrite <- foldl_live. revert a. induction es as [|e es IH]; intros a; [done|]. cbn [foldl]. rewrite IH. f_equal.
    destruct (entry_live e); [done|]. by destruct a as [[? ?]| | |]. }
  rewrite Hfold. change (filter _ _) with (live_entries (dh_tab h)). change 0 with (wrap64 0) at 1.
  rewrite check_list by (apply Forall_forall; intros e He; by apply list_elem_of_filter in He as [? _]).
  rewrite check_report by done. rewrite Z.add_0_l.
  assert (count_if (λ e, negb (guards_b m (e_raw e + 12) (e_size e))) (live_entries (dh_tab h)) = smashed m L) as ->; [|done].
  unfold smashed. rewrite <- (count_if_perm _ _ _ (live_entries_perm _ _ _ _ _ Hwf)), count_if_fmap.
  apply count_if_ext. intros e He. apply (live_entries_elem _ _ _ _ _ _ Hwf) in He as (p & n & _ & ->). simpl.
  by replace (p - 12 + 12) with p by lia.
Qed.

(** Destruction gives every leaked block back to the backend. *)
Lemma destroy_list es : ∀ (b : S) m LB, alloc_inv b m LB →
  NoDup (e_raw <$> es) → (∀ e, e ∈ es → entry_live e = true ∧ is_Some (LB !! e_raw e)) →
  (∀ r k, LB !! r = Some k → r ∈ e_raw <$> es) →
  ∃ b' m', foldl (λ acc e, '(b, m) ← acc; hf_deallocate b m (e_raw e)) (Ok (b, m)) es = Ok (b', m') ∧ alloc_inv b' m' ∅.
Proof.
  induction es as [|e es IH]; intros b m LB Hinv Hnd Hin Hall; cbn [foldl].
  - exists b, m. split; [done|]. replace (∅ : live_map) with LB; [done|]. apply map_empty. intros r.
    destruct (LB !! r) as [k|] eqn:E; [|done]. by apply Hall, not_elem_of_nil in E.
  - rewrite fmap_cons in Hnd. apply NoDup_cons in Hnd as [Hni Hnd]. destruct (Hin e ltac:(left)) as (_ & k & Hk).
    destruct (spec_deallocate _ _ _ _ _ Hinv Hk) as (b1 & m1 & E & _ & Hinv1). cbn [mbind outcome_bind]. rewrite E.
    apply (IH b1 m1 (delete (e_raw e) LB) Hinv1 Hnd).
    + intros e' He'. destruct (Hin e' ltac:(by right)) as (? & ?). split; [done|]. rewrite lookup_delete_ne; [done|].
      intros Er. apply Hni. rewrite Er. apply list_elem_of_fmap. eauto.
    + intros r j Hr. apply lookup_delete_Some in Hr as [Hne Hr]. apply Hall in Hr. rewrite fmap_cons in Hr.
      apply elem_of_cons in Hr as [->|Hr]; [done|done].
Qed.

Lemma destroy_spec h m L C LB : dh_wf h m L C LB →
  ∃ b m', dh_destroy h m = Ok (b, m') ∧ alloc_inv b m' ∅.
Proof.
  intros Hwf. pose proof Hwf as (Hinv & Hw & _ & _ & _ & _ & Hback). unfold dh_destroy.
  assert (∀ es (a : outcome (S * mem)), foldl (λ acc e, '(b, m) ← acc; if entry_live e then hf_deallocate b m (e_raw e) else Ok (b, m)) a es =
    foldl (λ acc e, '(b, m) ← acc; hf_deallocate b m (e_raw e)) a (filter (λ e, entry_live e = true) es)) as Hfold.
  { intros es a. rewrite <- foldl_live. revert a. induction es as [|e es IH]; intros a; [done|]. cbn [foldl]. rewrite IH. f_equal.
    destruct (entry_live e); [done|]. by destruct a as [[? ?]| | |]. }
  rewrite Hfold. change (filter _ _) with (live_entries (dh_tab h)).
  assert (∀ e, e ∈ live_entries (dh_tab h) → e_raw e = e_user e - 12) as Hraw.
  { intros e He. by apply (live_entries_elem _ _ _ _ _ _ Hwf) in He as (p & n & _ & ->). }
  apply (destroy_list _ _ _ LB Hinv).
  - pose proof (filter_NoDup_users _ _ Hw) as Hnd. rewrite <- (list_fmap_ext (λ e, e_user e - 12) e_raw).
    + rewrite (list_fmap_compose e_user (λ x, x - 12)). apply NoDup_fmap_2_strong; [|done]. intros; lia.
    + intros i e He. symmetry. apply Hraw. by apply list_elem_of_lookup_2 in He.
  - intros e He. split; [by apply list_elem_of_filter in He as [? _]|].
    apply (live_entries_elem _ _ _ _ _ _ Hwf) in He as (p & n & HL & ->). simpl.
    destruct (proj1 Hback p n HL) as [_ ->]. eauto.
  - intros r k Hr. destruct (proj2 Hback r k Hr) as [n Hn]. apply list_elem_of_fmap.
    exists (DhEntry (r + 12) (r + 12 - 12) n false). split; [simpl; lia|]. apply (live_entries_elem _ _ _ _ _ _ Hwf). eauto.
Qed.
End leaks.

(** ** Verdicts of a free *)

Section verdicts.
Context {S : Type} `{!hf_allocator_vtable S} {lim : Z} `{!AllocatorSpec HF_DEFAULT_ALIGN lim S}.

(** A pointer whose entry is not live: nothing but a counter changes. *)
Lemma dh_deallocate_other h m L C LB p : dh_wf h m L C LB → p ≠ NULL →
  (C !! p = None → dh_deallocate h m p = Ok (dh_set_rep h (rep_invalid (dh_rep h)), m)) ∧
  (∀ raw n, C !! p = Some (raw, n, true) → dh_deallocate h m p = Ok (dh_set_rep h (rep_double (dh_rep h)), m)) ∧
  (∀ n, C !! p = Some (NULL, n, false) → dh_deallocate h m p = Fault).
Proof.
  intros (_ & Hw & _) Hp. pose proof (dh_find_spec _ C p Hw Hp) as Hf. unfold dh_deallocate.
  rewrite (proj2 (Z.eqb_neq _ _) Hp). split_and!.
  - intros E. rewrite E in Hf. by rewrite Hf.
  - intros raw n E. rewrite E in Hf. destruct Hf as (i & -> & Hi). cbn [mbind outcome_bind].
    unfold entry_at. rewrite Nat2Z.id, Hi. cbn [mbind outcome_bind e_user e_freed]. by rewrite Z.eqb_refl.
  - intros n E. rewrite E in Hf. destruct Hf as (i & -> & Hi). cbn [mbind outcome_bind].
    unfold entry_at. rewrite Nat2Z.id, Hi. cbn [mbind outcome_bind e_user e_freed e_raw]. by rewrite Z.eqb_refl.
Qed.

Lemma dh_create_inv b m c1 c2 h : alloc_inv b m ∅ → hf_debug_heap_create c1 c2 (Some b) = Some h → dh_inv h m ∅.
Proof.
  intros Hinv Hc. unfold hf_debug_heap_create in Hc. destruct c1, c2; simplify_eq/=.
  exists ∅, ∅. unfold dh_wf. simpl. split_and!; try done; try lia.
  - exact (tbl_empty 6 ltac:(lia)).
Qed.
End verdicts.

(** ** An example: the debug heap over a free list of one page *)

Definition ex_debug : dh_heap fl_alloc :=
  DhHeap (ex_heap HF_FIT_FIRST).1 (DhTable (replicate 64 entry_zero) 64 0) report_zero.

Lemma ex_debug_inv : dh_inv (AllocatorSpec0 := fl_spec false) ex_debug (ex_heap HF_FIT_FIRST).2 ∅.
Proof. apply (dh_create_inv (AllocatorSpec0 := fl_spec false) (ex_heap HF_FIT_FIRST).1 _ true true); [apply ex_heap_inv|reflexivity]. Qed.

(** One block of 24 bytes is live. *)
Lemma ex_debug_live : ∃ h m,
  dh_allocate (hf_allocator_vtable0 := FL_VT false) (λ _, true) ex_debug (ex_heap HF_FIT_FIRST).2 24 HF_DEFAULT_ALIGN =
    Ok (h, m, 2 ^ 20 + 28) ∧
  dh_inv (AllocatorSpec0 := fl_spec false) h m {[2 ^ 20 + 28 := 24]}.
Proof.
  destruct (dh_inv_allocate (AllocatorSpec0 := fl_spec false) (λ _, true) ltac:(done) ltac:(done) _ _ _ 24 ex_debug_inv ltac:(lia))
    as (h & m & p & E & _ & Hcase).
  assert (result_ptr (dh_allocate (hf_allocator_vtable0 := FL_VT false) (λ _, true) ex_debug (ex_heap HF_FIT_FIRST).2 24 HF_DEFAULT_ALIGN)
    = 2 ^ 20 + 28) as Hp by (vm_compute; reflexivity).
  rewrite E in Hp. simpl in Hp. subst p. exists h, m. split; [exact E|].
  clear E. destruct Hcase as [[Hz _]|(_ & _ & _ & Hi & _)]; [discriminate Hz|]. rewrite insert_empty in Hi. exact Hi.
Qed.

(** ** Claims *)

(** C12. The debug heap is transparent to correct clients, whatever backend it
    decorates: over any allocator that meets the interface for requests up to
    some [lim] of at most 2^62, and as long as every [calloc] of a larger table
    succeeds (a failed one is a null dereference in [dh_rehash]), any program
    of allocations of at most [lim - 16] bytes each, frees of owned blocks and
    writes to owned bytes runs without abort or fault, its blocks are apart and
    keep what was written (at addresses that are 12 modulo 16, so aligned to 4
    only); no canary violation, double free or invalid free is reported, a
    sweep finds nothing, the leaks reported are exactly the live blocks and
    their bytes (modulo 2^64), and destroying the heap leaves the backend with
    no live block. *)
Theorem dh_client_safe {S : Type} `{!hf_allocator_vtable S} {lim : Z} `{!AllocatorSpec HF_DEFAULT_ALIGN lim S}
    (calloc_ok : Z → bool) (b : S) m c1 c2 h os :
  (∀ n, calloc_ok n = true) → lim ≤ 2 ^ 62 → alloc_inv b m ∅ →
  hf_debug_heap_create c1 c2 (Some b) = Some h → Forall (op_ok (lim - 16)) os →
  ∃ c, client_run (hf_allocator_vtable0 := DH_VT calloc_ok) (Client h m ∅ ∅) os = Ok c ∧ client_ok 4 c ∧
    (∀ p n, cl_live c !! p = Some n → p mod 16 = 12) ∧
    hf_debug_heap_check (cl_alloc c) (cl_mem c) = Ok (cl_alloc c, 0) ∧
    (let r := hf_debug_heap_report (cl_alloc c) in
     canary_violations r = 0 ∧ double_frees r = 0 ∧ invalid_frees r = 0 ∧
     leaked_blocks r = wrap64 (Z.of_nat (base.size (cl_live c))) ∧
     leaked_blocks r = active_allocs r ∧ leaked_bytes r = wrap64 (live_bytes (cl_live c))) ∧
    ∃ b' m', dh_destroy (cl_alloc c) (cl_mem c) = Ok (b', m') ∧ alloc_inv b' m' ∅.
Proof.
  intros Hca Hlim Hinv Hc Hos. pose proof (dh_create_inv b m c1 c2 h Hinv Hc) as Hi.
  destruct (client_run_ok (AllocatorSpec0 := dh_spec calloc_ok Hca Hlim) h m ∅ os Hi Hos)
    as (c & Hrun & Hok & (C & LB & Hwf & Hgu & Hcl)).
  pose proof Hcl as (Hz & Hd & Hv & Ha). exists c. split_and!; try done.
  - intros p n Hp. destruct Hwf as (Hb & _ & _ & _ & _ & _ & Hback).
    destruct (back_block _ _ _ _ _ _ Hb Hback Hp) as (_ & _ & _ & [i Hpi]).
    replace p with (12 + i * 16) by lia. by rewrite Z_mod_plus_full.
  - rewrite (check_spec _ _ _ _ _ Hwf) by (rewrite Hz; unfold is_u64; lia). rewrite (proj2 (smashed_0 _ _) Hgu).
    destruct (cl_alloc c) as [bk t []]. unfold dh_set_rep, rep_violations. simpl in *. by rewrite Hz.
  - rewrite (report_leaks _ _ _ _ _ Hwf). by unfold rep_leaks.
  - by apply (destroy_spec _ _ _ _ _ Hwf).
Qed.

(** Witness of C12: the debug heap over the free list. *)
Lemma dh_client_safe_witness :
  ∃ c, client_run (hf_allocator_vtable0 := DH_VT (hf_allocator_vtable0 := FL_VT false) (λ _, true))
         (Client ex_debug (ex_heap HF_FIT_FIRST).2 ∅ ∅)
         [CAlloc 100; CAlloc 24; CWrite (2 ^ 20 + 30) 7; CFree (2 ^ 20 + 28)] = Ok c ∧ client_ok 4 c.
Proof.
  destruct (dh_client_safe (AllocatorSpec0 := fl_spec false) (λ _, true) (ex_heap HF_FIT_FIRST).1 (ex_heap HF_FIT_FIRST).2
    true true ex_debug [CAlloc 100; CAlloc 24; CWrite (2 ^ 20 + 30) 7; CFree (2 ^ 20 + 28)]) as (c & Hrun & Hok & _).
  - reflexivity.
  - lia.
  - apply ex_heap_inv.
  - reflexivity.
  - repeat constructor; simpl; lia.
  - exists c. split; [exact Hrun|exact Hok].
Defined.

(** C14. The verdict of a free, every branch.  On a debug heap whose table is
    in order: a pointer the table does not know counts as an invalid free, one
    that was freed as a double free, and nothing else changes.  A live block of
    [n] bytes at [p] is poisoned - the backend gets it back in a memory in which
    all its [n] bytes are 0xCD and every other byte is as before - and counted
    as a canary violation exactly when the four bytes 12 in front of it or the
    four behind it are not 0xDEADBEEF any more; freeing it again at once counts
    as a double free.  An entry that says live but has lost its block makes the
    free dereference a null pointer. *)
Theorem dh_free_verdict {S : Type} `{!hf_allocator_vtable S} {lim : Z} `{!AllocatorSpec HF_DEFAULT_ALIGN lim S}
    (h : dh_heap S) m L C LB p :
  dh_wf h m L C LB → p ≠ NULL →
  match C !! p with
  | None => dh_deallocate h m p = Ok (dh_set_rep h (rep_invalid (dh_rep h)), m)
  | Some (_, _, true) => dh_deallocate h m p = Ok (dh_set_rep h (rep_double (dh_rep h)), m)
  | Some (raw, n, false) =>
      if raw =? NULL then dh_deallocate h m p = Fault else
      ∃ h' m', dh_deallocate h m p = Ok (h', m') ∧
        dh_wf h' m' (delete p L) (<[p := (NULL, n, true)]> C) (delete (p - 12) LB) ∧
        (∃ mp, (∀ x, load8 mp x = if (p <=? x) && (x <? p + n) then 0xCD else load8 m x) ∧
           hf_deallocate (dh_backend h) mp (p - 12) = Ok (dh_backend h', m')) ∧
        dh_rep h' = rep_free (if (load32 m (p - 12) =? 0xDEADBEEF) && (load32 m (p + n) =? 0xDEADBEEF)
                              then dh_rep h else rep_canary (dh_rep h)) ∧
        agree_on (in_live (delete p L)) m m' ∧
        dh_deallocate h' m' p = Ok (dh_set_rep h' (rep_double (dh_rep h')), m')
  end.
Proof.
  intros Hwf Hp. destruct (dh_deallocate_other h m L C LB p Hwf Hp) as (H1 & H2 & H3).
  destruct (C !! p) as [[[raw n] []]|] eqn:E; [by apply (H2 raw n)| |by apply H1].
  destruct (Z.eqb_spec raw NULL) as [->|Hr]; [by apply (H3 n)|].
  pose proof Hwf as (Hinv & _ & _ & _ & _ & (_ & Htab & _) & Hback). pose proof (Htab _ _ _ E Hr) as HL.
  destruct (dh_deallocate_live h m L C LB p n Hwf HL) as (h' & m' & Ed & Hwf' & Hag & Hb & Hg & Hng).
  pose proof (proj1 (proj1 Hback p n HL)) as Hn. exists h', m'. split_and!; try done.
  - exists (memset m p DH_POISON (Z.to_nat n)). split; [|done]. intros x. by apply load8_poisoned.
  - rewrite guards_words. destruct (guards_b m p n) eqn:Eg; [by apply Hg, guards_b_spec|].
    apply Hng. rewrite <- guards_b_spec. by rewrite Eg.
  - eapply agree_on_sub; [exact Hag|]. intros x. apply back_in_live. by destruct Hwf' as (_ & _ & _ & _ & _ & _ & ?).
  - destruct (dh_deallocate_other h' m' _ _ _ p Hwf' Hp) as (_ & H2' & _). apply (H2' NULL n). apply lookup_insert_eq.
Qed.

(** Writing over the tail canary of a live block keeps the table in order. *)
Lemma smash_wf {S : Type} `{!hf_allocator_vtable S} {lim : Z} `{!AllocatorSpec HF_DEFAULT_ALIGN lim S}
    (h : dh_heap S) m L C LB p n v : dh_wf h m L C LB → L !! p = Some n → dh_wf h (store32 m (p + n) v) L C LB.
Proof.
  intros (Hinv & Hw & Hl & Hu & H64 & Ht & Hb) Hp. unfold dh_wf. split_and!; try done.
  apply (spec_client_write _ m); [done|]. intros x Hx. apply load8_store32_out. intros Hr. apply Hx.
  destruct (proj1 Hb p n Hp) as [? HB]. exists (p - 12), (n + 16). split; [done|rlia].
Qed.

(** Witness of C14: a client writes past the end of its 24 bytes. *)
Lemma dh_free_verdict_witness : ∃ h m h' m',
  dh_deallocate (hf_allocator_vtable0 := FL_VT false) h (store32 m (2 ^ 20 + 28 + 24) 0) (2 ^ 20 + 28) = Ok (h', m') ∧
  canary_violations (dh_rep h') = 1.
Proof.
  destruct ex_debug_live as (h & m & _ & (C & LB & Hwf & _ & Hcl)).
  pose proof (smash_wf h m _ C LB (2 ^ 20 + 28) 24 0 Hwf ltac:(reflexivity)) as Hwf2.
  pose proof (dh_free_verdict h _ _ C LB (2 ^ 20 + 28) Hwf2 ltac:(lia)) as Hv.
  pose proof Hwf as (_ & _ & _ & _ & _ & (Htab & _) & _). rewrite (Htab (2 ^ 20 + 28) 24 ltac:(reflexivity)) in Hv.
  change (2 ^ 20 + 28 - 12 =? NULL) with false in Hv. cbv iota in Hv. destruct Hv as (h' & m' & E & _ & _ & Hr & _).
  exists h, m, h', m'. split; [exact E|]. rewrite Hr.
  rewrite load32_store32_eq, andb_false_r.
  cbn [rep_free rep_canary canary_violations]. destruct Hcl as (-> & _). reflexivity.
Defined.

(** The sweeps over the table, on any debug heap whose table is in order,
    canaries smashed or not: [hf_debug_heap_check] returns the number of live
    blocks with a smashed canary and adds it to the violations, changing
    nothing else (so it returns 0 exactly when every canary is intact); the
    report counts the live blocks and their bytes as leaks; destruction gives
    every live block back, and the backend is left without live blocks. *)
Theorem dh_sweeps {S : Type} `{!hf_allocator_vtable S} {lim : Z} `{!AllocatorSpec HF_DEFAULT_ALIGN lim S}
    (h : dh_heap S) m L C LB :
  dh_wf h m L C LB → is_u64 (canary_violations (dh_rep h)) →
  hf_debug_heap_check h m = Ok (dh_set_rep h (rep_violations (smashed m L) (dh_rep h)), wrap64 (smashed m L)) ∧
  (smashed m L = 0 ↔ ∀ p n, L !! p = Some n → guards m p n) ∧
  hf_debug_heap_report h = rep_leaks (wrap64 (Z.of_nat (base.size L))) (wrap64 (live_bytes L)) (dh_rep h) ∧
  ∃ b m', dh_destroy h m = Ok (b, m') ∧ alloc_inv b m' ∅.
Proof.
  intros Hwf Hc. split_and!; [by apply (check_spec _ _ _ C LB)|apply smashed_0..|by apply (report_leaks _ m L C LB)|by apply (destroy_spec _ _ L C LB)].
Qed.

(** The heap of [ex_debug_live], with its canary overwritten. *)
Lemma dh_sweeps_witness : ∃ h m,
  hf_debug_heap_check (S := fl_alloc) h (store32 m (2 ^ 20 + 28 + 24) 0) = Ok (dh_set_rep h (rep_violations 1 (dh_rep h)), 1) ∧
  hf_debug_heap_report h = rep_leaks 1 24 (dh_rep h).
Proof.
  destruct ex_debug_live as (h & m & _ & (C & LB & Hwf & _ & Hcl)).
  pose proof (smash_wf h m _ C LB (2 ^ 20 + 28) 24 0 Hwf ltac:(reflexivity)) as Hwf2.
  destruct (dh_sweeps h _ _ C LB Hwf2) as (E & _ & Er & _); [destruct Hcl as (-> & _); unfold is_u64; lia|].
  assert (smashed (store32 m (2 ^ 20 + 28 + 24) 0) {[2 ^ 20 + 28 := 24]} = 1) as Hs.
  { unfold smashed. rewrite map_to_list_singleton. cbn [count_if fst snd]. unfold guards_b, tail_canary.
    change (2 ^ 20 + 28 - 12 + DH_HEAD + 24) with (2 ^ 20 + 28 + 24). rewrite load32_store32_eq, andb_false_r. reflexivity. }
  rewrite Hs in E. exists h, m. split; [exact E|exact Er].
Defined.

(** A client that frees a block, allocates 44 larger ones and frees the first
    block again. *)
Definition ex_forget : outcome (dh_heap fl_alloc * mem) :=
  let alloc := dh_allocate (hf_allocator_vtable0 := FL_VT false) (λ _, true) in
  let free := dh_deallocate (hf_allocator_vtable0 := FL_VT false) in
  match hf_free_list_create 4096 ex_mmap true ∅ 8192 HF_FIT_FIRST with
  | None => OutOfFuel
  | Some (b, m) =>
      '(h, m, p) ← alloc (DhHeap b (DhTable (replicate 64 entry_zero) 64 0) report_zero) m 16 16;
      '(h, m, q) ← alloc h m 64 16;
      '(h, m) ← free h m p;
      '(h, m) ← foldl (λ acc _, '(h, m) ← acc; '(h, m, _) ← alloc h m 64 16; Ok (h, m)) (Ok (h, m)) (seq 0 43);
      free h m p
  end.

(** Growing the table forgets that blocks were freed: [dh_rehash] puts the
    entries of freed blocks back as live ones without a block, so after 45
    distinct blocks a double free that should be counted dereferences a null
    pointer instead. *)
Theorem dh_rehash_forgets : ex_forget = Fault.
Proof. vm_compute. reflexivity. Qed.
