(* ===== verification/PersistentPool.v ===== *)
(** * The persistent pool ([c/src/hf_persistent_pool.c]): the code

    A pool of equal blocks in a mapped file: page 0 with the header and two
    checksummed meta slots, a ring of write-ahead records, a bitmap, the data.
    The mapping is the file, so the memory here is indexed by file offsets and
    the pointers into the mapping are kept as offsets from [p->map].

    What reaches the disk matters, so every operation also emits the sequence
    of its stores and of its calls of [msync] and [fdatasync] ([w_trace]).  The
    code discards the results of these calls, so it runs on in the same way
    whether they succeed or not; which of them took effect is a parameter of
    what a crash can leave ([crash_given]): a store is durable once a later
    [msync] that covers it, or an [fdatasync], took effect.  The POSIX branch is
    modelled; the log lines, the file descriptor and the mutex (which every
    operation holds throughout) are not. *)

From S2P Require Import Prelude Memory Platform.

(** [hf_durability]. *)
Inductive hf_durability : Type := HF_DURABILITY_FAST | HF_DURABILITY_FULL.

(** What the mapping sees of an operation, in program order. *)
Inductive event : Type :=
| EvStore (a : Z) (bs : list Z)
| EvSync (a len : Z)
| EvFsync.

(** The mapped file and what happened to it so far. *)
Record world : Type := World {
  w_file : mem;
  w_trace : list event
}.

Definition put (w : world) (a : Z) (bs : list Z) : world :=
  World (store_bytes (w_file w) a bs) (w_trace w ++ [EvStore a bs]).

Definition emit (w : world) (e : event) : world := World (w_file w) (w_trace w ++ [e]).

(** [POOL_MAGIC], [WAL_ENTRIES], [WAL_OP_ALLOC], [WAL_OP_FREE] and the sizes
    of [pool_header], [meta_slot] and [wal_entry]. *)
Definition POOL_MAGIC : Z := 0x4846505043020001.
Definition WAL_ENTRIES : Z := 256.
Definition WAL_OP_ALLOC : Z := 1.
Definition WAL_OP_FREE : Z := 2.
Definition sizeof_header : Z := 104.
Definition sizeof_meta : Z := 24.
Definition sizeof_wal : Z := 24.

(** Offsets of the fields of [pool_header]; [meta i] is [hdr->meta[i]]. *)
Definition off_magic : Z := 0.
Definition off_block_size : Z := 8.
Definition off_block_count : Z := 16.
Definition off_wal : Z := 24.
Definition off_bitmap : Z := 32.
Definition off_data : Z := 40.
Definition off_total : Z := 48.
Definition meta (i : Z) : Z := 56 + i * sizeof_meta.

(** [struct hf_persistent_pool]. *)
Record hf_persistent_pool : Type := Pool {
  p_map : Z;
  p_map_size : Z;
  p_wal : Z;
  p_bitmap : Z;
  p_data : Z;
  p_block_size : Z;
  p_block_count : Z;
  p_used_blocks : Z;
  p_next_seq : Z;
  p_active_meta : Z;
  p_dur : hf_durability
}.

Definition set_used_blocks (u : Z) (p : hf_persistent_pool) : hf_persistent_pool :=
  Pool (p_map p) (p_map_size p) (p_wal p) (p_bitmap p) (p_data p) (p_block_size p) (p_block_count p)
    u (p_next_seq p) (p_active_meta p) (p_dur p).
Definition set_next_seq (s : Z) (p : hf_persistent_pool) : hf_persistent_pool :=
  Pool (p_map p) (p_map_size p) (p_wal p) (p_bitmap p) (p_data p) (p_block_size p) (p_block_count p)
    (p_used_blocks p) s (p_active_meta p) (p_dur p).
Definition set_active_meta (i : Z) (p : hf_persistent_pool) : hf_persistent_pool :=
  Pool (p_map p) (p_map_size p) (p_wal p) (p_bitmap p) (p_data p) (p_block_size p) (p_block_count p)
    (p_used_blocks p) (p_next_seq p) i (p_dur p).

(** ** Checksums *)

Definition fnv_step (h b : Z) : Z := Z.lxor h b *% 1099511628211.

Definition fnv1a (bs : list Z) : Z := foldl fnv_step 1469598103934665603 bs.

(** Both records are 16 bytes of content and their checksum. *)
Definition meta_crc (m : mem) (a : Z) : Z := fnv1a (load_bytes m a 16).
Definition wal_crc (m : mem) (a : Z) : Z := fnv1a (load_bytes m a 16).

(** Fields of a [meta_slot] and of a [wal_entry] at offset [a]. *)
Definition m_seq (m : mem) (a : Z) : Z := load64 m a.
Definition m_crc (m : mem) (a : Z) : Z := load64 m (a + 16).
Definition e_seq (m : mem) (a : Z) : Z := load64 m a.
Definition e_op (m : mem) (a : Z) : Z := load32 m (a + 8).
Definition e_index (m : mem) (a : Z) : Z := load32 m (a + 12).
Definition e_crc (m : mem) (a : Z) : Z := load64 m (a + 16).

(** [&p->wal[seq % WAL_ENTRIES]]. *)
Definition wal_slot (p : hf_persistent_pool) (seq : Z) : Z := p_wal p + (seq mod WAL_ENTRIES) * sizeof_wal.

Section ops.
Context (ps : Z).

(** The two calls are recorded; as in the code nothing depends on what they
    return. *)
Definition sync_range (p : hf_persistent_pool) (w : world) (addr len : Z) : world :=
  let start := Z.land addr (not64 (ps -% 1)) in
  let fin := addr +% len in
  let w := emit w (EvSync start (fin -% start)) in
  match p_dur p with
  | HF_DURABILITY_FULL => emit w EvFsync
  | HF_DURABILITY_FAST => w
  end.

(** ** The bitmap *)

Definition bit_byte (p : hf_persistent_pool) (i : Z) : Z := p_bitmap p + i / 8.

Definition bit_test (p : hf_persistent_pool) (m : mem) (i : Z) : bool :=
  negb (Z.land (Z.shiftr (load8 m (bit_byte p i)) (i mod 8)) 1 =? 0).

Definition bit_set (p : hf_persistent_pool) (w : world) (i : Z) : world :=
  put w (bit_byte p i) [Z.lor (load8 (w_file w) (bit_byte p i)) (wrap8 (Z.shiftl 1 (i mod 8)))].

Definition bit_clear (p : hf_persistent_pool) (w : world) (i : Z) : world :=
  put w (bit_byte p i) [Z.land (load8 (w_file w) (bit_byte p i)) (wrap8 (Z.lnot (Z.shiftl 1 (i mod 8))))].

(** ** The three-step commit *)

Definition wal_append (p : hf_persistent_pool) (w : world) (seq op index : Z) : world :=
  let e := wal_slot p seq in
  let w := put w e (le_bytes 8 seq) in
  let w := put w (e + 8) (le_bytes 4 op) in
  let w := put w (e + 12) (le_bytes 4 index) in
  let w := put w (e + 16) (le_bytes 8 (wal_crc (w_file w) e)) in
  sync_range p w e sizeof_wal.

Definition apply_op (p : hf_persistent_pool) (w : world) (op index : Z) : hf_persistent_pool * world :=
  if op =? WAL_OP_ALLOC then
    if negb (bit_test p (w_file w) index)
    then (set_used_blocks (p_used_blocks p +% 1) p, bit_set p w index) else (p, w)
  else
    if bit_test p (w_file w) index
    then (set_used_blocks (p_used_blocks p -% 1) p, bit_clear p w index) else (p, w).

Definition meta_commit (p : hf_persistent_pool) (w : world) (seq : Z) : hf_persistent_pool * world :=
  let next := Z.lxor (p_active_meta p) 1 in
  let a := meta next in
  let w := put w a (le_bytes 8 seq) in
  let w := put w (a + 8) (le_bytes 8 (p_used_blocks p)) in
  let w := put w (a + 16) (le_bytes 8 (meta_crc (w_file w) a)) in
  let w := sync_range p w a sizeof_meta in
  (set_active_meta next p, w).

Definition commit (p : hf_persistent_pool) (w : world) (op index : Z) : hf_persistent_pool * world :=
  let seq := p_next_seq p in
  let p := set_next_seq (p_next_seq p +% 1) p in
  let w := wal_append p w seq op index in
  let '(p, w) := apply_op p w op index in
  let w := sync_range p w (p_bitmap p + index / 8) 1 in
  meta_commit p w seq.

(** ** Recovery *)

(** The loop over the meta slots; [best = -1] when none is valid. *)
Definition best_meta (m : mem) : Z * Z :=
  foldl (λ acc i, let '(best, best_seq) := acc in
           if (m_crc m (meta i) =? meta_crc m (meta i)) && ((best <? 0) || (m_seq m (meta i) >=? best_seq))
           then (i, m_seq m (meta i)) else (best, best_seq))
        (-1, 0) [0; 1].

(** Counting the bits of the bitmap. *)
Definition count_used (p : hf_persistent_pool) (m : mem) : Z :=
  foldl (λ u i, if bit_test p m i then u +% 1 else u) 0 (seqZ 0 (p_block_count p)).

(** The replay loop from [s] while [s <= bound], with [max_seq] and
    [replayed]; the fuel exceeds the number of records of the ring. *)
Fixpoint replay (fuel : nat) (p : hf_persistent_pool) (w : world) (s bound max_seq : Z) (replayed : bool)
    : outcome (hf_persistent_pool * world * Z * bool) :=
  match fuel with
  | O => OutOfFuel
  | S fuel =>
      if negb (s <=? bound) then Ok (p, w, max_seq, replayed) else
      let e := wal_slot p s in
      if negb (e_seq (w_file w) e =? s) || negb (e_crc (w_file w) e =? wal_crc (w_file w) e)
      then replay fuel p w (s +% 1) bound max_seq replayed
      else
        let '(p, w) := apply_op p w (e_op (w_file w) e) (e_index (w_file w) e) in
        replay fuel p w (s +% 1) bound (if s >? max_seq then s else max_seq) true
  end.

Definition recover (p : hf_persistent_pool) (w : world) : outcome (hf_persistent_pool * world) :=
  let '(best, best_seq) := best_meta (w_file w) in
  let '(best, best_seq) := if best <? 0 then (0, 0) else (best, best_seq) in
  let p := set_active_meta best p in
  let p := set_used_blocks (count_used p (w_file w)) p in
  '(p, w, max_seq, replayed) ← replay 257 p w (best_seq +% 1) (best_seq +% WAL_ENTRIES) best_seq false;
  let p := set_next_seq (max_seq +% 1) p in
  if replayed : bool then
    let w := sync_range p w (p_bitmap p) ((p_block_count p +% 7) / 8) in
    Ok (meta_commit p w max_seq)
  else Ok (p, w).

(** ** Opening and closing

    [open1], [open2]: the two [open]s succeed; [file_len]: the length of an
    existing file; [trunc_ok], [calloc_ok] and [map] ([None]: [MAP_FAILED]):
    the other system calls. *)

Record open_env : Type := OpenEnv {
  open1 : bool;
  open2 : bool;
  file_len : Z;
  trunc_ok : bool;
  mmap_at : option Z;
  calloc_ok : bool
}.

(** The branch that writes a new header. *)
Definition init_header (p : hf_persistent_pool) (w : world) (total : Z) : world :=
  let w := put w 0 (replicate (Z.to_nat sizeof_header) 0) in
  let w := put w off_magic (le_bytes 8 POOL_MAGIC) in
  let w := put w off_block_size (le_bytes 8 (p_block_size p)) in
  let w := put w off_block_count (le_bytes 8 (p_block_count p)) in
  let w := put w off_wal (le_bytes 8 (p_wal p)) in
  let w := put w off_bitmap (le_bytes 8 (p_bitmap p)) in
  let w := put w off_data (le_bytes 8 (p_data p)) in
  let w := put w off_total (le_bytes 8 total) in
  let w := put w (p_wal p) (replicate (Z.to_nat (sizeof_wal * WAL_ENTRIES)) 0) in
  let w := put w (p_bitmap p) (replicate (Z.to_nat ((p_block_count p +% 7) / 8)) 0) in
  let w := put w (meta 0 + 16) (le_bytes 8 (meta_crc (w_file w) (meta 0))) in
  sync_range p w 0 sizeof_header.

Definition hf_pool_open (env : open_env) (w : world) (block_size block_count : Z) (dur : hf_durability)
    : outcome (option hf_persistent_pool * world) :=
  let creating := negb (open1 env) in
  if creating && negb (open2 env) then Ok (None, w) else
  if creating && ((block_size =? 0) || (block_count =? 0)) then Ok (None, w) else
  let finish (wal_off bitmap_off data_off total block_size block_count : Z) :=
    match mmap_at env with
    | None => Ok (None, w)
    | Some map =>
        if negb (calloc_ok env) then Ok (None, w) else
        let p := Pool map total wal_off bitmap_off data_off block_size block_count 0 1 0 dur in
        if creating then Ok (Some p, init_header p w total)
        else '(p, w) ← recover p w; Ok (Some p, w)
    end in
  if creating then
    let block_size := hf_align_up block_size HF_DEFAULT_ALIGN in
    let wal_off := ps in
    let bitmap_off := wal_off +% hf_align_up (sizeof_wal * WAL_ENTRIES) ps in
    let data_off := bitmap_off +% hf_align_up ((block_count +% 7) / 8) ps in
    let total := data_off +% hf_align_up (block_size *% block_count) ps in
    if negb (trunc_ok env) then Ok (None, w) else
    finish wal_off bitmap_off data_off total block_size block_count
  else
    let m := w_file w in
    if file_len env <? sizeof_header then Ok (None, w) else
    if negb (load64 m off_magic =? POOL_MAGIC) then Ok (None, w) else
    finish (load64 m off_wal) (load64 m off_bitmap) (load64 m off_data) (load64 m off_total)
      (load64 m off_block_size) (load64 m off_block_count).

Definition hf_pool_flush_all (p : hf_persistent_pool) (w : world) : world :=
  let w := emit w (EvSync 0 (p_map_size p)) in
  match p_dur p with
  | HF_DURABILITY_FULL => emit w EvFsync
  | HF_DURABILITY_FAST => w
  end.

(** The pool is gone; the file is what is left. *)
Definition hf_pool_close (p : option hf_persistent_pool) (w : world) : world :=
  match p with None => w | Some p => hf_pool_flush_all p w end.

(** ** The pool *)

(** The loop of [hf_pool_allocate], [n] rounds left. *)
Fixpoint pool_alloc_loop (p : hf_persistent_pool) (w : world) (i : Z) (n : nat)
    : hf_persistent_pool * world * option (Z * Z) :=
  match n with
  | O => (p, w, None)
  | S n =>
      if negb (bit_test p (w_file w) i) then
        let '(p, w) := commit p w WAL_OP_ALLOC (wrap32 i) in
        (p, w, Some (p_map p +% p_data p +% i *% p_block_size p, i))
      else pool_alloc_loop p w (i +% 1) n
  end.

(** [Some (ptr, index)], or [None] for a null pointer. *)
Definition hf_pool_allocate (p : hf_persistent_pool) (w : world) : hf_persistent_pool * world * option (Z * Z) :=
  pool_alloc_loop p w 0 (Z.to_nat (p_block_count p)).

Definition hf_pool_free (p : hf_persistent_pool) (w : world) (index : Z) : hf_persistent_pool * world :=
  if (index <? p_block_count p) && bit_test p (w_file w) index
  then commit p w WAL_OP_FREE (wrap32 index) else (p, w).

Definition hf_pool_at (p : hf_persistent_pool) (w : world) (index : Z) : Z :=
  if (index >=? p_block_count p) || negb (bit_test p (w_file w) index) then NULL
  else p_map p +% p_data p +% index *% p_block_size p.

Definition hf_pool_flush (p : hf_persistent_pool) (w : world) (index : Z) : world :=
  if index >=? p_block_count p then w
  else sync_range p w (p_data p +% index *% p_block_size p) (p_block_size p).

Definition hf_pool_block_size (p : hf_persistent_pool) : Z := p_block_size p.
Definition hf_pool_block_count (p : hf_persistent_pool) : Z := p_block_count p.
Definition hf_pool_used_blocks (p : hf_persistent_pool) : Z := p_used_blocks p.

(** The test hooks. *)
Definition hf_pool_debug_wal_only (p : hf_persistent_pool) (w : world) (index : Z) (allocate : bool)
    : hf_persistent_pool * world :=
  let seq := p_next_seq p in
  let p := set_next_seq (p_next_seq p +% 1) p in
  (p, wal_append p w seq (if allocate then WAL_OP_ALLOC else WAL_OP_FREE) (wrap32 index)).

Definition hf_pool_debug_crash (p : option hf_persistent_pool) (w : world) : world := w.
End ops.

(** ** Crashes *)

(** The value a store of [bs] at [a] gives the byte [x], if it covers it. *)
Definition hit (a : Z) (bs : list Z) (x : Z) : option Z :=
  if a <=? x then wrap8 <$> bs !! Z.to_nat (x - a) else None.

(** The values a byte may have on disk after a run: the value at the last sync
    that covers it, and every value stored since; the newest first. *)
Definition cand_step (x : Z) (cs : list Z) (e : event) : list Z :=
  match e with
  | EvStore a bs => match hit a bs x with Some v => v :: cs | None => cs end
  | EvSync a len => if (a <=? x) && (x <? a + len) then take 1 cs else cs
  | EvFsync => take 1 cs
  end.

Definition cands (m : mem) (tr : list event) (x : Z) : list Z := foldl (cand_step x) [load8 m x] tr.

(** After a crash each byte of the file has one of the values it may have:
    unsynced stores can be lost or torn in any way. *)
Definition crash (m : mem) (tr : list event) (m' : mem) : Prop :=
  ∀ x, load8 m' x ∈ cands m tr x.

(** A run of events with the syncs that failed left out; [ok i] says whether
    the [i]-th event of the run, when it is a sync, took effect. *)
Fixpoint took_effect (ok : nat → bool) (i : nat) (tr : list event) : list event :=
  match tr with
  | [] => []
  | EvStore a bs :: tr => EvStore a bs :: took_effect ok (S i) tr
  | e :: tr => if ok i then e :: took_effect ok (S i) tr else took_effect ok (S i) tr
  end.

Definition crash_given (ok : nat → bool) (m : mem) (tr : list event) (m' : mem) : Prop :=
  crash m (took_effect ok 0 tr) m'.

(** No [msync] and no [fdatasync] fails. *)
Definition syncs_ok (ok : nat → bool) : Prop := ∀ i, ok i = true.
