(* ===== verification/PoolTrace.v ===== *)
(** * The persistent pool: traces, crashes and records

    A calculus for what a crash can leave of a sequence of stores and syncs:
    phases in which every byte is stored at most once leave each byte old or
    new, and a phase that ends in a sync of all it stored is settled.  Then
    the checksummed 24-byte records, and what a torn one looks like. *)

From S2P Require Import Prelude Memory Platform PersistentPool.

(** ** Runs and candidates *)

Definition run_event (m : mem) (e : event) : mem :=
  match e with EvStore a bs => store_bytes m a bs | _ => m end.

Definition run (m : mem) (tr : list event) : mem := foldl run_event m tr.

Lemma run_app m t1 t2 : run m (t1 ++ t2) = run (run m t1) t2.
Proof. apply foldl_app. Qed.

Lemma hit_None a bs x : ¬ range a (Z.of_nat (length bs)) x → hit a bs x = None.
Proof.
  unfold hit, range. intros H. destruct (Z.leb_spec a x); [|done]. rewrite lookup_ge_None_2; [done|lia].
Qed.

Lemma hit_Some a bs x : range a (Z.of_nat (length bs)) x → is_Some (hit a bs x).
Proof.
  unfold hit, range. intros H. rewrite (proj2 (Z.leb_le _ _)) by lia.
  destruct (lookup_lt_is_Some_2 bs (Z.to_nat (x - a))) as [v ->]; [lia|]. simpl. eauto.
Qed.

Lemma load8_store_bytes m a bs x : load8 (store_bytes m a bs) x = default (load8 m x) (hit a bs x).
Proof.
  unfold hit. destruct (Z.leb_spec a x) as [Hx|Hx].
  - destruct (bs !! Z.to_nat (x - a)) as [v|] eqn:E; simpl.
    + pose proof (load8_store_bytes_in m a bs _ v E) as H. by replace (a + Z.of_nat (Z.to_nat (x - a))) with x in H by lia.
    + apply load8_store_bytes_out. apply lookup_ge_None_1 in E. rlia.
  - apply load8_store_bytes_out. rlia.
Qed.

(** The values a trace stores in a byte. *)
Definition stored (tr : list event) (x : Z) : list Z :=
  omap (λ e, match e with EvStore a bs => hit a bs x | _ => None end) tr.

Lemma stored_app t1 t2 x : stored (t1 ++ t2) x = stored t1 x ++ stored t2 x.
Proof. apply omap_app. Qed.

Lemma run_stored m tr x : load8 (run m tr) x = default (load8 m x) (last (stored tr x)).
Proof.
  induction tr as [|e tr IH] using rev_ind; [done|]. rewrite run_app, stored_app. cbn [run foldl]. rewrite last_app.
  destruct e as [a bs| |]; simpl; [|done..]. rewrite load8_store_bytes. destruct (hit a bs x); simpl; done.
Qed.

Lemma run_untouched m tr x : stored tr x = [] → load8 (run m tr) x = load8 m x.
Proof. intros H. by rewrite run_stored, H. Qed.

Lemma cands_snoc m tr e x : cands m (tr ++ [e]) x = cand_step x (cands m tr x) e.
Proof. unfold cands. by rewrite foldl_app. Qed.

(** The newest candidate is what the mapping holds. *)
Lemma cands_head m tr x : ∃ cs, cands m tr x = load8 (run m tr) x :: cs.
Proof.
  induction tr as [|e tr IH] using rev_ind; [by exists []|]. destruct IH as (cs & IH). rewrite cands_snoc, IH, run_app.
  destruct e as [a bs|a len|]; cbn [run foldl run_event cand_step].
  - rewrite load8_store_bytes. destruct (hit a bs x); simpl; eauto.
  - destruct (_ && _); simpl; eauto.
  - simpl. eauto.
Qed.

Lemma cands_sub m tr x v : v ∈ cands m tr x → v = load8 m x ∨ v ∈ stored tr x.
Proof.
  induction tr as [|e tr IH] using rev_ind.
  { unfold cands. simpl. intros Hv. apply list_elem_of_singleton in Hv. by left. }
  rewrite cands_snoc, stored_app, elem_of_app. intros Hv.
  assert (v ∈ cands m tr x ∨ ∃ a bs, e = EvStore a bs ∧ hit a bs x = Some v) as [H|(a & bs & -> & H)].
  { destruct e as [a bs|a len|]; simpl in Hv.
    - destruct (hit a bs x) as [w|] eqn:E; [|by left]. apply elem_of_cons in Hv as [->|Hv]; [right; eauto|by left].
    - destruct (_ && _); [|by left]. left. revert Hv. destruct (cands m tr x); simpl; set_solver.
    - left. revert Hv. destruct (cands m tr x); simpl; set_solver. }
  - apply IH in H. tauto.
  - right. right. simpl. rewrite H. by left.
Qed.

Lemma cands_untouched m tr x : stored tr x = [] → cands m tr x = [load8 m x].
Proof.
  induction tr as [|e tr IH] using rev_ind; [done|]. rewrite stored_app, cands_snoc. intros [H1 H2]%app_nil.
  rewrite IH by done. destruct e as [a bs|a len|]; simpl in *; [|by destruct (_ && _)|done].
  by destruct (hit a bs x).
Qed.

Lemma took_effect_all ok i tr : syncs_ok ok → took_effect ok i tr = tr.
Proof. intros H. revert i. induction tr as [|[] tr IH]; intros i; cbn; rewrite ?H, ?IH; done. Qed.

Lemma crash_given_crash ok m tr m' : syncs_ok ok → crash_given ok m tr m' → crash m tr m'.
Proof. intros H. unfold crash_given. by rewrite took_effect_all. Qed.

Lemma crash_crash_given ok m tr m' : syncs_ok ok → crash m tr m' → crash_given ok m tr m'.
Proof. intros H. unfold crash_given. by rewrite took_effect_all. Qed.

(** ** Phases *)

(** Nothing is pending: a crash leaves what the mapping holds. *)
Definition settled (m : mem) (tr : list event) : Prop := ∀ x, cands m tr x = [load8 (run m tr) x].

Lemma settled_nil m : settled m [].
Proof. done. Qed.

Lemma settled_fsync m tr : settled m (tr ++ [EvFsync]).
Proof. intros x. rewrite cands_snoc, run_app. destruct (cands_head m tr x) as (cs & ->). done. Qed.

(** A sync of every byte that was stored. *)
Lemma settled_sync m tr a len : (∀ x, stored tr x ≠ [] → range a len x) → settled m (tr ++ [EvSync a len]).
Proof.
  intros H x. rewrite cands_snoc, run_app. cbn [run foldl run_event cand_step].
  destruct (decide (stored tr x = [])) as [E|E].
  - rewrite cands_untouched, run_untouched by done. by destruct (_ && _).
  - specialize (H x E). unfold range in H. destruct (cands_head m tr x) as (cs & ->).
    rewrite (proj2 (Z.leb_le _ _)), (proj2 (Z.ltb_lt _ _)) by lia. done.
Qed.

Lemma cands_app m t1 t2 x : settled m t1 → cands m (t1 ++ t2) x = cands (run m t1) t2 x.
Proof. intros H. unfold cands. rewrite foldl_app. f_equal. apply H. Qed.

Lemma settled_app m t1 t2 : settled m t1 → settled (run m t1) t2 → settled m (t1 ++ t2).
Proof. intros H1 H2 x. rewrite cands_app by done. rewrite run_app. apply H2. Qed.

Lemma crash_app m t1 t2 m' : settled m t1 → crash m (t1 ++ t2) m' → crash (run m t1) t2 m'.
Proof. intros Hs H x. rewrite <- cands_app by done. apply H. Qed.

Lemma crash_settled m tr m' : settled m tr → crash m tr m' → ∀ x, load8 m' x = load8 (run m tr) x.
Proof. intros Hs H x. specialize (H x). rewrite Hs in H. by apply list_elem_of_singleton in H. Qed.

(** A crash in a phase that stores every byte at most once: bytes are old or
    new. *)
Definition once (tr : list event) : Prop := ∀ x, (length (stored tr x) ≤ 1)%nat.

Lemma crash_phase m tr tr' m' x : once tr → tr' `prefix_of` tr → crash m tr' m' →
  (load8 m' x = load8 m x ∨ load8 m' x = load8 (run m tr) x) ∧ (stored tr x = [] → load8 m' x = load8 m x).
Proof.
  intros Ho [t2 ->] Hc. specialize (Hc x). specialize (Ho x). rewrite stored_app, length_app in Ho.
  apply cands_sub in Hc as [E|Hv]; [by split; [left|]|]. rewrite stored_app, run_stored, stored_app.
  destruct (stored tr' x) as [|w ws]; [by apply not_elem_of_nil in Hv|]. simpl in Ho.
  destruct ws; [|simpl in Ho; lia]. destruct (stored t2 x); [|simpl in Ho; lia].
  apply list_elem_of_singleton in Hv as ->. simpl. split; [by right|done].
Qed.

(** Prefixes of a sequence of phases. *)
Lemma prefix_app_cases (tr t1 t2 : list event) : tr `prefix_of` t1 ++ t2 →
  tr `prefix_of` t1 ∨ ∃ tr2, tr = t1 ++ tr2 ∧ tr2 `prefix_of` t2.
Proof.
  revert tr. induction t1 as [|e t1 IH]; intros tr H; [right; by exists tr|].
  destruct tr as [|e' tr]; [left; apply prefix_nil|]. cbn [app] in H.
  apply prefix_cons_inv_1 in H as E. apply prefix_cons_inv_2 in H. subst e'.
  destruct (IH tr H) as [H1|(tr2 & -> & H2)]; [left; by apply prefix_cons|right; by exists tr2].
Qed.

(** ** Records: 16 bytes and their checksum *)

Definition record_at (m : mem) (a : Z) : list Z := load_bytes m a 24.

Definition rec_valid (r : list Z) : bool := le_val (drop 16 r) =? fnv1a (take 16 r).
Definition rec_seq (r : list Z) : Z := le_val (take 8 r).
Definition rec_op (r : list Z) : Z := le_val (take 4 (drop 8 r)).
Definition rec_index (r : list Z) : Z := le_val (take 4 (drop 12 r)).

Definition sealed (c : list Z) : list Z := c ++ le_bytes 8 (fnv1a c).
Definition wal_record (seq op index : Z) : list Z := sealed (le_bytes 8 seq ++ le_bytes 4 op ++ le_bytes 4 index).
Definition meta_record (seq used : Z) : list Z := sealed (le_bytes 8 seq ++ le_bytes 8 used).

Lemma load_bytes_app m a n k : load_bytes m a (n + k) = load_bytes m a n ++ load_bytes m (a + Z.of_nat n) k.
Proof.
  revert a. induction n as [|n IH]; intros a; [by rewrite Z.add_0_r|]. simpl. rewrite IH. do 3 f_equal. lia.
Qed.

Lemma take_load_bytes m a n k : take n (load_bytes m a (n + k)) = load_bytes m a n.
Proof. rewrite load_bytes_app, take_app_length'; [done|]. by rewrite length_load_bytes. Qed.

Lemma drop_load_bytes m a n k : drop n (load_bytes m a (n + k)) = load_bytes m (a + Z.of_nat n) k.
Proof. rewrite load_bytes_app, drop_app_length'; [done|]. by rewrite length_load_bytes. Qed.

Lemma rec_seq_at m a : load64 m a = rec_seq (record_at m a).
Proof. exact (f_equal le_val (eq_sym (take_load_bytes m a 8 16))). Qed.

Lemma rec_op_at m a : e_op m a = rec_op (record_at m a).
Proof. unfold rec_op, record_at. change 24%nat with (8 + (4 + 12))%nat. by rewrite drop_load_bytes, take_load_bytes. Qed.

Lemma rec_index_at m a : e_index m a = rec_index (record_at m a).
Proof. unfold rec_index, record_at. change 24%nat with (12 + (4 + 8))%nat. by rewrite drop_load_bytes, take_load_bytes. Qed.

Lemma rec_valid_at m a : (load64 m (a + 16) =? fnv1a (load_bytes m a 16)) = rec_valid (record_at m a).
Proof. unfold rec_valid, record_at. change 24%nat with (16 + 8)%nat. by rewrite drop_load_bytes, take_load_bytes. Qed.

Lemma fnv1a_range bs : is_u64 (fnv1a bs).
Proof.
  unfold fnv1a. destruct bs as [|b bs _] using rev_ind; [unfold is_u64; simpl; lia|]. rewrite foldl_app. apply wrap64_range.
Qed.

Lemma sealed_valid c : length c = 16%nat → rec_valid (sealed c) = true.
Proof.
  intros H. unfold rec_valid, sealed. rewrite <- H at 1 2. rewrite drop_app_length, take_app_length, le_val_le_bytes.
  change (8 * Z.of_nat 8) with 64. fold (wrap64 (fnv1a c)). rewrite wrap64_small by apply fnv1a_range. apply Z.eqb_refl.
Qed.

Lemma wal_record_spec seq op index : is_u64 seq → 0 ≤ op < 2 ^ 32 → 0 ≤ index < 2 ^ 32 →
  let r := wal_record seq op index in
  length r = 24%nat ∧ rec_valid r = true ∧ rec_seq r = seq ∧ rec_op r = op ∧ rec_index r = index.
Proof.
  intros Hs Ho Hi r. unfold is_u64 in Hs.
  assert (rec_valid r = true) by (apply sealed_valid; by rewrite !length_app, !length_le_bytes).
  assert (rec_seq r = seq ∧ rec_op r = op ∧ rec_index r = index) as (? & ? & ?); [|done].
  unfold rec_seq, rec_op, rec_index, r, wal_record, sealed. rewrite <- !app_assoc.
  rewrite (take_app_length' _ _ 8), (drop_app_length' _ _ 8), (take_app_length' _ _ 4) by (by rewrite length_le_bytes).
  rewrite (app_assoc (le_bytes 8 seq)), (drop_app_length' (le_bytes 8 seq ++ le_bytes 4 op) _ 12)
    by (by rewrite length_app, !length_le_bytes).
  rewrite (take_app_length' _ _ 4) by (by rewrite length_le_bytes). rewrite !le_val_le_bytes.
  split_and!; apply Z.mod_small; simpl; lia.
Qed.

Lemma meta_record_spec seq used : is_u64 seq →
  let r := meta_record seq used in length r = 24%nat ∧ rec_valid r = true ∧ rec_seq r = seq.
Proof.
  intros Hs r. assert (rec_valid r = true) by (apply sealed_valid; by rewrite !length_app, !length_le_bytes).
  split_and!; try done. unfold rec_seq, r, meta_record, sealed. rewrite <- app_assoc.
  rewrite (take_app_length' _ _ 8) by (by rewrite length_le_bytes). rewrite le_val_le_bytes. apply Z.mod_small. simpl.
  unfold is_u64 in Hs. lia.
Qed.

(** ** Torn records *)

(** All records whose bytes are those of [old] or of [new]. *)
Fixpoint mixes (old new : list Z) : list (list Z) :=
  match old, new with
  | o :: old, n :: new =>
      let r := mixes old new in
      if o =? n then cons o <$> r else (cons o <$> r) ++ (cons n <$> r)
  | _, _ => [[]]
  end.

(** [r] is one of them. *)
Fixpoint is_mix (old new r : list Z) : bool :=
  match old, new, r with
  | o :: old, n :: new, v :: r => ((v =? o) || (v =? n)) && is_mix old new r
  | [], [], [] => true
  | _, _, _ => false
  end.

(** The checksum tells every torn record from the two whole ones: a mix of
    their contents whose checksum is a mix of their checksums is one of them. *)
Definition tear_detected (old new : list Z) : bool :=
  forallb (λ c, negb (is_mix (drop 16 old) (drop 16 new) (le_bytes 8 (fnv1a c))) ||
                bool_decide (sealed c = old) || bool_decide (sealed c = new))
    (mixes (take 16 old) (take 16 new)).

Lemma mixes_elem old new r : length old = length r → length new = length r →
  (∀ i v, r !! i = Some v → old !! i = Some v ∨ new !! i = Some v) → r ∈ mixes old new.
Proof.
  revert old new. induction r as [|v r IH]; intros [|o old] [|n new] Ho Hn H; try done; [by left|].
  simpl in Ho, Hn. simpl.
  assert (r ∈ mixes old new) as Hr by (apply IH; [lia|lia|]; intros i w Hi; apply (H (S i) w Hi)).
  destruct (H 0%nat v eq_refl) as [E|E]; simpl in E; simplify_eq.
  - destruct (v =? n); [|apply elem_of_app; left]; apply list_elem_of_fmap; eauto.
  - destruct (Z.eqb_spec o v) as [->|]; [|apply elem_of_app; right]; apply list_elem_of_fmap; eauto.
Qed.

Lemma lookup_load_bytes m a n i v : load_bytes m a n !! i = Some v ↔ (i < n)%nat ∧ v = load8 m (a + Z.of_nat i).
Proof.
  revert a i. induction n as [|n IH]; intros a i; simpl; [split; [done|lia]|]. destruct i as [|i]; simpl.
  - rewrite Z.add_0_r. split; [intros [= <-]; split; [lia|done]|by intros [_ ->]].
  - rewrite IH. replace (a + 1 + Z.of_nat i) with (a + Z.of_nat (S i)) by lia. split; intros [? ->]; (split; [lia|done]).
Qed.

Lemma is_mix_spec old new r : length old = length r → length new = length r →
  (∀ i v, r !! i = Some v → old !! i = Some v ∨ new !! i = Some v) → is_mix old new r = true.
Proof.
  revert old new. induction r as [|v r IH]; intros [|o old] [|n new] Ho Hn H; try done. simpl in *.
  apply andb_true_iff. split; [|apply IH; [lia|lia|]; intros i w Hi; apply (H (S i) w Hi)].
  apply orb_true_iff. rewrite !Z.eqb_eq. destruct (H 0%nat v eq_refl) as [E|E]; simpl in E; simplify_eq; auto.
Qed.

Lemma le_bytes_le_val bs : Forall (λ b, 0 ≤ b < 2 ^ 8) bs → le_bytes (length bs) (le_val bs) = bs.
Proof.
  induction 1 as [|b bs Hb _ IH]; [done|]. cbn [length le_bytes le_val]. f_equal.
  - rewrite Z.mul_comm, Z_mod_plus_full. by apply Z.mod_small.
  - rewrite (Z.mul_comm (2 ^ 8)), Z_div_plus_full by lia. rewrite Z.div_small by done. exact IH.
Qed.

(** A valid record is the seal of its content. *)
Lemma rec_valid_sealed r : length r = 24%nat → Forall (λ b, 0 ≤ b < 2 ^ 8) r → rec_valid r = true →
  r = sealed (take 16 r) ∧ drop 16 r = le_bytes 8 (fnv1a (take 16 r)).
Proof.
  intros Hl Hb Hv. unfold rec_valid in Hv. apply Z.eqb_eq in Hv.
  assert (drop 16 r = le_bytes 8 (fnv1a (take 16 r))) as E.
  { rewrite <- Hv. rewrite <- (le_bytes_le_val (drop 16 r)) at 1 by (by apply Forall_drop). by rewrite length_drop, Hl. }
  split; [|done]. unfold sealed. rewrite <- E. by rewrite take_drop.
Qed.

Lemma tear_detected_spec old new r : tear_detected old new = true →
  length old = 24%nat → length new = 24%nat → length r = 24%nat → Forall (λ b, 0 ≤ b < 2 ^ 8) r →
  (∀ i v, r !! i = Some v → old !! i = Some v ∨ new !! i = Some v) → rec_valid r = true → r = old ∨ r = new.
Proof.
  unfold tear_detected. rewrite forallb_forall. intros Ht Ho Hn Hr Hb Hmix Hv.
  destruct (rec_valid_sealed r Hr Hb Hv) as [Es Ed].
  assert (take 16 r ∈ mixes (take 16 old) (take 16 new)) as Hin.
  { apply mixes_elem; [rewrite !length_take; lia..|]. intros i v Hi. pose proof (lookup_lt_Some _ _ _ Hi) as Hlt.
    rewrite length_take in Hlt. rewrite !lookup_take_lt in * by lia. by apply Hmix. }
  specialize (Ht _ (proj1 (list_elem_of_In _ _) Hin)). rewrite <- Ed, <- Es in Ht.
  rewrite is_mix_spec in Ht; [|rewrite !length_drop; lia..|].
  - simpl in Ht. apply orb_true_iff in Ht as [H|H]; apply bool_decide_eq_true in H; auto.
  - intros i v. rewrite !lookup_drop. apply Hmix.
Qed.

Lemma record_torn m m1 m' a : tear_detected (record_at m a) (record_at m1 a) = true →
  (∀ x, range a 24 x → load8 m' x = load8 m x ∨ load8 m' x = load8 m1 x) → rec_valid (record_at m' a) = true →
  record_at m' a = record_at m a ∨ record_at m' a = record_at m1 a.
Proof.
  intros Ht Hx. unfold record_at in *. apply tear_detected_spec; [exact Ht|apply length_load_bytes..|apply load_bytes_byte|].
  intros i v [Hi ->]%lookup_load_bytes. rewrite !lookup_load_bytes.
  destruct (Hx (a + Z.of_nat i) ltac:(rlia)) as [E|E]; [left|right]; by rewrite E.
Qed.
