(* ===== verification/PoolProofs.v ===== *)
(** * The persistent pool: what a crash leaves and how recovery repairs it

    A file is [clean] when its bitmap is up to date with the watermark, and
    [pend] when one record of the log is still to be replayed.  A commit is
    three phases: the log record (clean to pending), the bitmap (pending to
    pending) and the meta slot (pending to clean); a crash in a phase leaves
    one of the two ends, and recovery takes either to a clean file. *)

From S2P Require Import Prelude Memory Platform PersistentPool PoolTrace.

(** ** Consecutive stores *)

Fixpoint chunks (a : Z) (cs : list (list Z)) : list event :=
  match cs with
  | [] => []
  | c :: cs => EvStore a c :: chunks (a + Z.of_nat (length c)) cs
  end.

Lemma hit_app a c r x : hit a (c ++ r) x =
  match hit a c x with Some v => Some v | None => hit (a + Z.of_nat (length c)) r x end.
Proof.
  destruct (decide (range a (Z.of_nat (length c)) x)) as [Hx|Hx].
  - destruct (hit_Some a c x Hx) as [v E]. rewrite E. unfold hit in *. destruct (a <=? x); [|done].
    rewrite lookup_app_l; [done|]. rlia.
  - rewrite (hit_None a c x Hx). unfold hit, range in *.
    destruct (Z.leb_spec a x); [|by rewrite (proj2 (Z.leb_gt _ _)) by lia].
    rewrite (proj2 (Z.leb_le _ _)) by lia. rewrite lookup_app_r by lia. do 2 f_equal. lia.
Qed.

Lemma stored_chunks cs : ∀ a x, stored (chunks a cs) x = match hit a (mjoin cs) x with Some v => [v] | None => [] end.
Proof.
  induction cs as [|c cs IH]; intros a x.
  { cbn. unfold hit. by destruct (a <=? x). }
  change (mjoin (c :: cs)) with (c ++ mjoin cs). rewrite hit_app. cbn [chunks].
  change (stored (EvStore a c :: ?t) x) with (match hit a c x with Some v => v :: stored t x | None => stored t x end).
  rewrite IH. destruct (hit a c x) as [v|] eqn:E; [|done].
  rewrite (hit_None (a + Z.of_nat (length c))); [done|].
  destruct (decide (range a (Z.of_nat (length c)) x)); [rlia|]. by rewrite hit_None in E.
Qed.

Lemma once_chunks a cs : once (chunks a cs).
Proof. intros x. rewrite stored_chunks. destruct (hit _ _ _); simpl; lia. Qed.

Lemma stored_chunks_out a cs x : ¬ range a (Z.of_nat (length (mjoin cs))) x → stored (chunks a cs) x = [].
Proof. intros H. by rewrite stored_chunks, hit_None. Qed.

Lemma load_bytes_run_chunks m a cs n : Forall (λ b, 0 ≤ b < 2 ^ 8) (mjoin cs) → n = length (mjoin cs) →
  load_bytes (run m (chunks a cs)) a n = mjoin cs.
Proof.
  intros Hb ->. rewrite <- (load_bytes_store_bytes m a (mjoin cs) Hb) at 2. apply load_bytes_agree. intros x Hx.
  rewrite load8_store_bytes, run_stored, stored_chunks. by destruct (hit _ _ _).
Qed.

(** ** Operations as traces *)

(** [w'] is [w] after the events [tr]. *)
Definition w_ext (w w' : world) (tr : list event) : Prop :=
  w_file w' = run (w_file w) tr ∧ w_trace w' = w_trace w ++ tr.

Lemma w_ext_refl w : w_ext w w [].
Proof. split; [done|by rewrite app_nil_r]. Qed.

Lemma w_ext_trans w1 w2 w3 t1 t2 : w_ext w1 w2 t1 → w_ext w2 w3 t2 → w_ext w1 w3 (t1 ++ t2).
Proof. intros [H1 H2] [H3 H4]. split; [by rewrite run_app, <- H1|by rewrite H4, H2, app_assoc]. Qed.

Lemma put_ext w a bs : w_ext w (put w a bs) [EvStore a bs].
Proof. done. Qed.

Definition sync_events (p : hf_persistent_pool) (start len : Z) : list event :=
  EvSync start len :: match p_dur p with HF_DURABILITY_FULL => [EvFsync] | HF_DURABILITY_FAST => [] end.

Lemma stored_sync p start len x : stored (sync_events p start len) x = [].
Proof. unfold sync_events. by destruct (p_dur p). Qed.

Lemma stored_with_sync tr p start len x : stored (tr ++ sync_events p start len) x = stored tr x.
Proof. by rewrite stored_app, stored_sync, app_nil_r. Qed.

Lemma run_with_sync m tr p start len : run m (tr ++ sync_events p start len) = run m tr.
Proof. rewrite run_app. unfold sync_events. by destruct (p_dur p). Qed.

Lemma run_sync m p start len : run m (sync_events p start len) = m.
Proof. exact (run_with_sync m [] p start len). Qed.

Lemma settled_sync_events m tr p start len :
  (∀ x, stored tr x ≠ [] → range start len x) → settled m (tr ++ sync_events p start len).
Proof.
  intros H. unfold sync_events. destruct (p_dur p).
  - by apply settled_sync.
  - change ([EvSync start len; EvFsync]) with ([EvSync start len] ++ [EvFsync]). rewrite app_assoc. apply settled_fsync.
Qed.

Lemma sync_range_ext ps p w a len : page_size_ok ps → 0 ≤ a → 0 ≤ len → a + len < 2 ^ 64 →
  ∃ start, 0 ≤ start ≤ a ∧ w_ext w (sync_range ps p w a len) (sync_events p start (a + len - start)).
Proof.
  intros (k & Hk & ->) Ha Hl Hal. pose proof (pow2_le_mono k 30 ltac:(lia)). pose proof (pow2_pos k ltac:(lia)).
  unfold sync_range. rewrite (wrap64_small (2 ^ k - 1)) by ulia.
  rewrite not64_spec by (unfold is_u64; lia). rewrite land_clear_low by (unfold is_u64; lia).
  rewrite (wrap64_small (a + len)) by ulia.
  pose proof (Z.mod_pos_bound a (2 ^ k) ltac:(lia)). pose proof (Z.div_mod a (2 ^ k) ltac:(lia)).
  pose proof (Z.div_pos a (2 ^ k) Ha ltac:(lia)).
  exists (a / 2 ^ k * 2 ^ k). split; [lia|]. rewrite wrap64_small by ulia. unfold w_ext, sync_events, emit.
  destruct (p_dur p); simpl; split; try done. by rewrite <- app_assoc.
Qed.

(** Where things are in the file. *)
Record geom (ps : Z) (p : hf_persistent_pool) : Prop := {
  g_page : page_size_ok ps;
  g_wal : sizeof_header ≤ p_wal p;
  g_bitmap : p_wal p + sizeof_wal * WAL_ENTRIES ≤ p_bitmap p;
  g_data : p_bitmap p + (p_block_count p + 7) / 8 ≤ p_data p;
  g_max : p_data p ≤ 2 ^ 62;
  g_count : 0 < p_block_count p ≤ 2 ^ 32
}.

Lemma wal_slot_range ps p t : geom ps p → p_wal p ≤ wal_slot p t ∧ wal_slot p t + 24 ≤ p_bitmap p.
Proof.
  intros G. pose proof (g_bitmap _ _ G). unfold wal_slot, sizeof_wal, WAL_ENTRIES in *.
  pose proof (Z.mod_pos_bound t 256 ltac:(lia)). lia.
Qed.

Lemma bit_byte_range ps p i : geom ps p → 0 ≤ i < p_block_count p →
  p_bitmap p ≤ bit_byte p i < p_bitmap p + (p_block_count p + 7) / 8.
Proof.
  intros G Hi. unfold bit_byte. pose proof (Z.div_pos i 8). pose proof (Z.div_mod i 8 ltac:(lia)).
  pose proof (Z.mod_pos_bound i 8 ltac:(lia)). pose proof (Z.div_mod (p_block_count p + 7) 8 ltac:(lia)).
  pose proof (Z.mod_pos_bound (p_block_count p + 7) 8 ltac:(lia)). lia.
Qed.

(** Writing a checksummed record: each byte once, then a sync of all of them. *)
Lemma seal_ext ps p w a cs n : page_size_ok ps → 0 ≤ a → a + 24 < 2 ^ 64 →
  Forall (λ b, 0 ≤ b < 2 ^ 8) (mjoin cs) → length (mjoin cs) = 16%nat → n = 24 →
  let tr := chunks a cs in
  let w1 := World (run (w_file w) tr) (w_trace w ++ tr) in
  let w2 := put w1 (a + 16) (le_bytes 8 (fnv1a (load_bytes (w_file w1) a 16))) in
  ∃ t, w_ext w (sync_range ps p w2 a n) t ∧ settled (w_file w) t ∧ once t ∧
    (∀ x, ¬ range a 24 x → stored t x = []) ∧
    record_at (run (w_file w) t) a = sealed (mjoin cs).
Proof.
  intros Hps Ha Ha2 Hb Hlen -> tr w1 w2.
  assert (load_bytes (w_file w1) a 16 = mjoin cs) as Ecrc by (by apply load_bytes_run_chunks).
  set (cs' := cs ++ [le_bytes 8 (fnv1a (mjoin cs))]).
  assert (mjoin cs' = sealed (mjoin cs)) as Ej by (unfold cs', sealed; rewrite join_app; done).
  assert (length (mjoin cs') = 24%nat) as Hlen' by (rewrite Ej; unfold sealed; rewrite length_app, length_le_bytes, Hlen; done).
  assert (chunks a cs' = tr ++ [EvStore (a + 16) (le_bytes 8 (fnv1a (mjoin cs)))]) as Et.
  { unfold cs', tr. rewrite <- (eq_refl : Z.of_nat 16 = 16), <- Hlen. clear. revert a.
    generalize (le_bytes 8 (fnv1a (mjoin cs))). intros b. induction cs as [|c cs IH]; intros a.
    - cbn. by rewrite Z.add_0_r.
    - change (mjoin (c :: cs)) with (c ++ mjoin cs). cbn [app chunks]. rewrite IH. do 4 f_equal. rewrite length_app. lia. }
  destruct (sync_range_ext ps p w2 a 24 Hps Ha ltac:(lia) Ha2) as (start & Hst & Hext).
  exists (chunks a cs' ++ sync_events p start (a + 24 - start)).
  assert (w_ext w w2 (chunks a cs')) as Hw2.
  { rewrite Et. unfold w2. rewrite Ecrc. split; [by rewrite run_app|]. simpl. by rewrite app_assoc. }
  split_and!.
  - by apply (w_ext_trans _ w2).
  - apply settled_sync_events. intros x Hx. destruct (decide (range a 24 x)) as [|Hn]; [rlia|].
    destruct Hx. apply stored_chunks_out. by rewrite Hlen'.
  - intros x. rewrite stored_with_sync. apply once_chunks.
  - intros x Hx. rewrite stored_with_sync. apply stored_chunks_out. by rewrite Hlen'.
  - rewrite run_with_sync, <- Ej. apply load_bytes_run_chunks; [|done]. rewrite Ej. unfold sealed.
    apply Forall_app. split; [done|apply le_bytes_byte].
Qed.

Lemma wal_append_ext ps p w seq op index : geom ps p →
  ∃ t, w_ext w (wal_append ps p w seq op index) t ∧ settled (w_file w) t ∧ once t ∧
    (∀ x, ¬ range (wal_slot p seq) 24 x → stored t x = []) ∧
    record_at (run (w_file w) t) (wal_slot p seq) = wal_record seq op index.
Proof.
  intros G. pose proof (wal_slot_range ps p seq G) as Hs. pose proof (g_wal _ _ G). unfold sizeof_header in *.
  pose proof (g_data _ _ G). pose proof (g_max _ _ G). pose proof (Z.div_pos (p_block_count p + 7) 8).
  pose proof (g_count _ _ G). set (a := wal_slot p seq) in *.
  pose proof (seal_ext ps p w a [le_bytes 8 seq; le_bytes 4 op; le_bytes 4 index] sizeof_wal (g_page _ _ G) ltac:(lia) ltac:(lia)) as S.
  change (mjoin [le_bytes 8 seq; le_bytes 4 op; le_bytes 4 index]) with (le_bytes 8 seq ++ le_bytes 4 op ++ le_bytes 4 index ++ []) in S.
  rewrite app_nil_r in S.
  assert (wal_append ps p w seq op index =
    let tr := chunks a [le_bytes 8 seq; le_bytes 4 op; le_bytes 4 index] in
    let w1 := World (run (w_file w) tr) (w_trace w ++ tr) in
    sync_range ps p (put w1 (a + 16) (le_bytes 8 (fnv1a (load_bytes (w_file w1) a 16)))) a sizeof_wal) as ->.
  { unfold wal_append. fold a. cbn [chunks]. rewrite !length_le_bytes.
    replace (a + Z.of_nat 8 + Z.of_nat 4) with (a + 12) by lia. change (Z.of_nat 8) with 8.
    unfold put at 2 3 4. cbn [w_file w_trace]. unfold put, wal_crc. cbn [w_file w_trace run foldl run_event].
    by rewrite <- !app_assoc. }
  apply S; [|by rewrite !length_app, !length_le_bytes|done].
  rewrite !Forall_app. split_and!; apply le_bytes_byte.
Qed.

Lemma meta_commit_ext ps p w seq : page_size_ok ps → p_active_meta p = 0 ∨ p_active_meta p = 1 →
  ∃ t, w_ext w (meta_commit ps p w seq).2 t ∧ settled (w_file w) t ∧ once t ∧
    (∀ x, ¬ range (meta (1 - p_active_meta p)) 24 x → stored t x = []) ∧
    record_at (run (w_file w) t) (meta (1 - p_active_meta p)) = meta_record seq (p_used_blocks p) ∧
    (meta_commit ps p w seq).1 = set_active_meta (1 - p_active_meta p) p.
Proof.
  intros Hps Ha.
  assert (Z.lxor (p_active_meta p) 1 = 1 - p_active_meta p) as El by (by destruct Ha as [-> | ->]).
  set (a := meta (1 - p_active_meta p)).
  assert (56 ≤ a ≤ 80) by (unfold a, meta, sizeof_meta; destruct Ha as [-> | ->]; lia).
  pose proof (seal_ext ps p w a [le_bytes 8 seq; le_bytes 8 (p_used_blocks p)] sizeof_meta Hps ltac:(lia) ltac:(lia)) as S.
  change (mjoin [le_bytes 8 seq; le_bytes 8 (p_used_blocks p)]) with (le_bytes 8 seq ++ le_bytes 8 (p_used_blocks p) ++ []) in S.
  rewrite app_nil_r in S.
  assert ((meta_commit ps p w seq).2 =
    let tr := chunks a [le_bytes 8 seq; le_bytes 8 (p_used_blocks p)] in
    let w1 := World (run (w_file w) tr) (w_trace w ++ tr) in
    sync_range ps p (put w1 (a + 16) (le_bytes 8 (fnv1a (load_bytes (w_file w1) a 16)))) a sizeof_meta) as ->.
  { unfold meta_commit. rewrite El. fold a. cbn [chunks snd]. rewrite !length_le_bytes. change (Z.of_nat 8) with 8.
    unfold put at 2 3. cbn [w_file w_trace]. unfold put, meta_crc. cbn [w_file w_trace run foldl run_event].
    by rewrite <- !app_assoc. }
  destruct S as (t & S1 & S2 & S3 & S4 & S5).
  - rewrite !Forall_app. split_and!; apply le_bytes_byte.
  - by rewrite !length_app, !length_le_bytes.
  - done.
  - exists t. split_and!; try done. unfold meta_commit. by rewrite El.
Qed.

(** ** The bitmap *)

Definition bits_of (p : hf_persistent_pool) (m : mem) : list bool := bit_test p m <$> seqZ 0 (p_block_count p).

(** What a log record asks for. *)
Definition apply_bits (op index : Z) (bits : list bool) : list bool := <[Z.to_nat index := (op =? WAL_OP_ALLOC)]> bits.

Lemma bits_lookup p m i : 0 ≤ i < p_block_count p → bits_of p m !! Z.to_nat i = Some (bit_test p m i).
Proof.
  intros Hi. unfold bits_of. rewrite list_lookup_fmap, lookup_seqZ_lt by lia. simpl. do 2 f_equal. lia.
Qed.

Lemma length_bits p m : Z.of_nat (length (bits_of p m)) = Z.max 0 (p_block_count p).
Proof. unfold bits_of. rewrite length_fmap, length_seqZ. lia. Qed.

Lemma bits_ext p m (bits : list bool) : 0 ≤ p_block_count p → Z.of_nat (length bits) = p_block_count p →
  (∀ i, 0 ≤ i < p_block_count p → bits !! Z.to_nat i = Some (bit_test p m i)) → bits_of p m = bits.
Proof.
  intros Hc Hl H. apply list_eq. intros i. destruct (decide (Z.of_nat i < p_block_count p)) as [Hi|Hi].
  - specialize (H (Z.of_nat i) ltac:(lia)). pose proof (bits_lookup p m (Z.of_nat i) ltac:(lia)) as H'.
    rewrite Nat2Z.id in H, H'. congruence.
  - rewrite !lookup_ge_None_2; [done|lia|]. pose proof (length_bits p m). lia.
Qed.

Lemma bit_test_agree p m m' i : load8 m' (bit_byte p i) = load8 m (bit_byte p i) → bit_test p m' i = bit_test p m i.
Proof. unfold bit_test. by intros ->. Qed.

Lemma bits_agree ps p m m' : geom ps p →
  agree_on (range (p_bitmap p) ((p_block_count p + 7) / 8)) m m' → bits_of p m' = bits_of p m.
Proof.
  intros G H. unfold bits_of. apply list_fmap_ext. intros k i Hi. apply lookup_seqZ in Hi as [-> Hi].
  apply bit_test_agree, H. pose proof (bit_byte_range ps p (0 + Z.of_nat k) G ltac:(lia)). rlia.
Qed.

Lemma bit_test_testbit p m i : bit_test p m i = Z.testbit (load8 m (bit_byte p i)) (i mod 8).
Proof.
  unfold bit_test. pose proof (Z.mod_pos_bound i 8 ltac:(lia)). change 1 with (Z.ones 1) at 1.
  rewrite Z.land_ones by lia. rewrite <- (Z.add_0_l (i mod 8)) at 2. rewrite <- Z.shiftr_spec by lia.
  change (2 ^ 1) with 2. rewrite Zmod_odd, Z.bit0_odd. by destruct (Z.odd _).
Qed.

Lemma wrap8_testbit v k : 0 ≤ k < 8 → Z.testbit (wrap8 v) k = Z.testbit v k.
Proof. intros Hk. unfold wrap8. by rewrite Z.mod_pow2_bits_low by lia. Qed.

Lemma set_bit_byte o i k : 0 ≤ k < 8 → 0 ≤ i < 8 →
  Z.testbit (wrap8 (Z.lor o (wrap8 (Z.shiftl 1 i)))) k = (k =? i) || Z.testbit o k.
Proof.
  intros Hk Hi. rewrite wrap8_testbit, Z.lor_spec, wrap8_testbit, Z.shiftl_1_l, Z.pow2_bits_eqb by lia.
  rewrite (Z.eqb_sym i k). apply orb_comm.
Qed.

Lemma clear_bit_byte o i k : 0 ≤ k < 8 → 0 ≤ i < 8 →
  Z.testbit (wrap8 (Z.land o (wrap8 (Z.lnot (Z.shiftl 1 i))))) k = negb (k =? i) && Z.testbit o k.
Proof.
  intros Hk Hi. rewrite wrap8_testbit, Z.land_spec, wrap8_testbit, Z.lnot_spec, Z.shiftl_1_l, Z.pow2_bits_eqb by lia.
  rewrite (Z.eqb_sym i k). apply andb_comm.
Qed.

(** A store to the byte of bit [i] that gives this bit the value [b] and keeps
    the other bits of the byte. *)
Lemma store_bit p m i v b : 0 ≤ i < p_block_count p →
  (∀ k, 0 ≤ k < 8 → Z.testbit (wrap8 v) k = if k =? i mod 8 then b else Z.testbit (load8 m (bit_byte p i)) k) →
  bits_of p (store_bytes m (bit_byte p i) [v]) = <[Z.to_nat i := b]> (bits_of p m).
Proof.
  intros Hi Hv. apply bits_ext; [lia|rewrite length_insert, length_bits; lia|]. intros j Hj.
  rewrite bit_test_testbit. cbn [store_bytes]. rewrite load8_store8.
  pose proof (Z.mod_pos_bound j 8 ltac:(lia)). pose proof (Z.mod_pos_bound i 8 ltac:(lia)).
  pose proof (Z.div_mod j 8 ltac:(lia)). pose proof (Z.div_mod i 8 ltac:(lia)).
  destruct (decide (j = i)) as [->|Hne].
  - rewrite list_lookup_insert_eq by (pose proof (length_bits p m); lia). rewrite decide_True by done.
    rewrite Hv by lia. by rewrite Z.eqb_refl.
  - rewrite list_lookup_insert_ne, bits_lookup, bit_test_testbit by lia.
    destruct (decide (bit_byte p j = bit_byte p i)) as [E|]; [|done]. rewrite Hv by lia.
    unfold bit_byte in E. rewrite (proj2 (Z.eqb_neq _ _)) by lia. unfold bit_byte.
    by replace (p_bitmap p + j / 8) with (p_bitmap p + i / 8).
Qed.

Definition used_of (bits : list bool) : Z := count_if id bits.

Lemma used_of_bounds p m : 0 ≤ p_block_count p → 0 ≤ used_of (bits_of p m) ≤ p_block_count p.
Proof. intros H. pose proof (count_if_bounds id (bits_of p m)). rewrite length_bits in *. unfold used_of. lia. Qed.

(** The step on the bitmap: at most one byte is stored. *)
Lemma apply_op_ext ps p w op index : geom ps p → 0 ≤ index < p_block_count p →
  p_used_blocks p = used_of (bits_of p (w_file w)) →
  ∃ t, w_ext w (apply_op p w op index).2 t ∧ once t ∧
    (∀ x, x ≠ bit_byte p index → stored t x = []) ∧
    bits_of p (run (w_file w) t) = apply_bits op index (bits_of p (w_file w)) ∧
    (apply_op p w op index).1 = set_used_blocks (used_of (apply_bits op index (bits_of p (w_file w)))) p.
Proof.
  intros G Hi Hu. set (m := w_file w) in *. pose proof (bits_lookup p m index Hi) as Hb.
  pose proof (Z.mod_pos_bound index 8 ltac:(lia)) as Hmod. pose proof (g_count _ _ G) as Hcount.
  pose proof (used_of_bounds p m ltac:(lia)) as Hub.
  assert (set_used_blocks (used_of (bits_of p m)) p = p) as Hpu by (rewrite <- Hu; by destruct p).
  pose proof (count_if_insert id _ _ _ (op =? WAL_OP_ALLOC) Hb) as Hcnt. change (id ?b) with b in Hcnt.
  fold (apply_bits op index (bits_of p m)) in Hcnt. fold (used_of (apply_bits op index (bits_of p m))) in Hcnt.
  fold (used_of (bits_of p m)) in Hcnt.
  assert (0 ≤ used_of (apply_bits op index (bits_of p m)) ≤ p_block_count p) as Hub'.
  { pose proof (count_if_bounds id (apply_bits op index (bits_of p m))). unfold apply_bits in *.
    rewrite length_insert, length_bits in *. unfold used_of, id in *. lia. }
  assert (bit_test p m index = (op =? WAL_OP_ALLOC) → apply_bits op index (bits_of p m) = bits_of p m) as Hsame.
  { intros E. unfold apply_bits. apply list_insert_id. by rewrite Hb, E. }
  assert (∀ v, once [EvStore (bit_byte p index) [v]] ∧
    (∀ x, x ≠ bit_byte p index → stored [EvStore (bit_byte p index) [v]] x = [])) as Hone.
  { intros v. split; [|intros x Hx].
    - intros x. simpl. destruct (hit _ _ _); simpl; lia.
    - simpl. rewrite hit_None; [done|]. simpl. rlia. }
  unfold apply_op. fold m. destruct (op =? WAL_OP_ALLOC) eqn:Eop; destruct (bit_test p m index) eqn:Et; cbn [negb fst snd].
  1, 4: rewrite Hsame by done; exists []; split_and!; try done; [apply w_ext_refl|intros x; simpl; lia].
  - destruct (Hone (Z.lor (load8 m (bit_byte p index)) (wrap8 (Z.shiftl 1 (index mod 8))))) as (H1 & H2).
    eexists. split; [apply put_ext|]. split; [exact H1|]. split; [exact H2|]. fold m. split.
    + cbn [run foldl run_event]. unfold apply_bits. rewrite Eop. apply store_bit; [done|]. intros k Hk.
      rewrite set_bit_byte by lia. by destruct (k =? index mod 8).
    + f_equal. rewrite wrap64_small by ulia. lia.
  - destruct (Hone (Z.land (load8 m (bit_byte p index)) (wrap8 (Z.lnot (Z.shiftl 1 (index mod 8)))))) as (H1 & H2).
    eexists. split; [apply put_ext|]. split; [exact H1|]. split; [exact H2|]. fold m. split.
    + cbn [run foldl run_event]. unfold apply_bits. rewrite Eop. apply store_bit; [done|]. intros k Hk.
      rewrite clear_bit_byte by lia. by destruct (k =? index mod 8).
    + f_equal. rewrite wrap64_small by ulia. lia.
Qed.

(** ** The states of a file *)

(** The header describes the pool. *)
Definition header_ok (p : hf_persistent_pool) (m : mem) : Prop :=
  load64 m off_magic = POOL_MAGIC ∧ load64 m off_block_size = p_block_size p ∧
  load64 m off_block_count = p_block_count p ∧ load64 m off_wal = p_wal p ∧
  load64 m off_bitmap = p_bitmap p ∧ load64 m off_data = p_data p ∧ load64 m off_total = p_map_size p.

(** Meta slot [a] holds the watermark [W]; the other one is older or torn. *)
Definition meta_ok (m : mem) (a W : Z) : Prop :=
  (a = 0 ∨ a = 1) ∧ 0 ≤ W ∧
  rec_valid (record_at m (meta a)) = true ∧ rec_seq (record_at m (meta a)) = W ∧
  (rec_valid (record_at m (meta (1 - a))) = true → rec_seq (record_at m (meta (1 - a))) < W).

(** The log holds a valid record with sequence number [t]. *)
Definition logged (p : hf_persistent_pool) (m : mem) (t : Z) : Prop :=
  rec_valid (record_at m (wal_slot p t)) = true ∧ rec_seq (record_at m (wal_slot p t)) = t.

Definition clean (p : hf_persistent_pool) (m : mem) (a W : Z) (bits : list bool) : Prop :=
  header_ok p m ∧ meta_ok m a W ∧ (∀ t, W < t ≤ W + WAL_ENTRIES → ¬ logged p m t) ∧ bits_of p m = bits.

Definition pend (p : hf_persistent_pool) (m : mem) (a W op index : Z) (bits : list bool) : Prop :=
  header_ok p m ∧ meta_ok m a W ∧ record_at m (wal_slot p (W + 1)) = wal_record (W + 1) op index ∧
  (∀ t, W + 1 < t ≤ W + WAL_ENTRIES → ¬ logged p m t) ∧ apply_bits op index (bits_of p m) = bits.

(** They depend on where things are, not on the rest of the handle. *)
Definition same_geom (p q : hf_persistent_pool) : Prop :=
  p_map_size q = p_map_size p ∧ p_wal q = p_wal p ∧ p_bitmap q = p_bitmap p ∧ p_data q = p_data p ∧
  p_block_size q = p_block_size p ∧ p_block_count q = p_block_count p.

Lemma geom_same ps p q : same_geom p q → geom ps p → geom ps q.
Proof. intros (_ & E1 & E2 & E3 & _ & E4) []. split; rewrite ?E1, ?E2, ?E3, ?E4; done. Qed.

Lemma header_same p q m : same_geom p q → header_ok p m → header_ok q m.
Proof. intros (E1 & E2 & E3 & E4 & E5 & E6). unfold header_ok. by rewrite E1, E2, E3, E4, E5, E6. Qed.

Lemma wal_slot_same p q t : same_geom p q → wal_slot q t = wal_slot p t.
Proof. intros (_ & E & _). unfold wal_slot. by rewrite E. Qed.

Lemma bit_byte_same p q i : same_geom p q → bit_byte q i = bit_byte p i.
Proof. intros (_ & _ & E & _). unfold bit_byte. by rewrite E. Qed.

Lemma bits_same p q m : same_geom p q → bits_of q m = bits_of p m.
Proof.
  intros H. unfold bits_of. destruct H as (E1 & E2 & E3 & E4 & E5 & ->). apply list_fmap_ext. intros k i _.
  unfold bit_test, bit_byte. by rewrite E3.
Qed.

Lemma clean_same p q m a W bits : same_geom p q → clean p m a W bits → clean q m a W bits.
Proof.
  intros H (H1 & H2 & H3 & H4). split_and!; [by apply (header_same p)|done| |by rewrite (bits_same p q)].
  intros t Ht. unfold logged. rewrite (wal_slot_same p q) by done. by apply H3.
Qed.

Lemma pend_same p q m a W op index bits : same_geom p q → pend p m a W op index bits → pend q m a W op index bits.
Proof.
  intros H (H1 & H2 & H3 & H4 & H5). unfold pend. rewrite (wal_slot_same p q), (bits_same p q) by done.
  split_and!; [by apply (header_same p)|done..| |done].
  intros t Ht. unfold logged. rewrite (wal_slot_same p q) by done. by apply H4.
Qed.

(** They depend on the bytes of their part of the file only. *)
Lemma record_agree m m' a : agree_on (range a 24) m m' → record_at m' a = record_at m a.
Proof. apply (load_bytes_agree m m' a 24). Qed.

Lemma header_agree p m m' : agree_on (range 0 56) m m' → header_ok p m → header_ok p m'.
Proof.
  intros H. unfold header_ok, off_magic, off_block_size, off_block_count, off_wal, off_bitmap, off_data, off_total.
  rewrite !(load64_agree m m') by (intros x Hx; apply H; rlia). done.
Qed.

Lemma meta_agree m m' a W : agree_on (range 56 48) m m' → meta_ok m a W → meta_ok m' a W.
Proof.
  intros H (Ha & HW & H1 & H2 & H3). unfold meta_ok.
  rewrite !(record_agree m m'); [done|..]; intros x Hx; apply H; unfold meta, sizeof_meta in *; destruct Ha as [-> | ->]; rlia.
Qed.

Lemma logged_agree p m m' t : agree_on (range (wal_slot p t) 24) m m' → logged p m t ↔ logged p m' t.
Proof. intros H. unfold logged. by rewrite (record_agree m m'). Qed.

(** Records of different numbers in the window have different slots. *)
Lemma wal_slot_apart ps p t t' x : geom ps p → t < t' < t + WAL_ENTRIES → range (wal_slot p t) 24 x → ¬ range (wal_slot p t') 24 x.
Proof.
  intros G Ht. unfold range, wal_slot, sizeof_wal, WAL_ENTRIES in *.
  assert (t mod 256 ≠ t' mod 256); [|lia]. intros E.
  assert ((t' - t) mod 256 = 0) as E0 by (rewrite Zminus_mod, E, Z.sub_diag; done).
  rewrite Z.mod_small in E0 by lia. lia.
Qed.

Lemma wal_slot_wrap p t : wal_slot p (t + WAL_ENTRIES) = wal_slot p t.
Proof. unfold wal_slot, WAL_ENTRIES. rewrite <- (Z.mul_1_l 256) at 1. by rewrite Z_mod_plus_full. Qed.

Lemma apply_bits_idemp op index bits : apply_bits op index (apply_bits op index bits) = apply_bits op index bits.
Proof. unfold apply_bits. apply list_insert_insert_eq. Qed.

(** ** The phases of a commit *)

Section phases.
Context (ps : Z) (p : hf_persistent_pool) (G : geom ps p).
Context (op index : Z) (Hop : 0 ≤ op < 2 ^ 32) (Hidx : 0 ≤ index < p_block_count p).

Lemma idx_32 : 0 ≤ index < 2 ^ 32.
Proof. pose proof (g_count _ _ G). lia. Qed.

(** Whatever is in the slot of the next record, the rest stays. *)
Lemma log_frame m m' a W bits : clean p m a W bits →
  (∀ x, ¬ range (wal_slot p (W + 1)) 24 x → load8 m' x = load8 m x) →
  header_ok p m' ∧ meta_ok m' a W ∧ (∀ t, W + 1 < t ≤ W + WAL_ENTRIES → ¬ logged p m' t) ∧ bits_of p m' = bits.
Proof.
  intros (Hh & Hm & Hl & Hb) Hag. pose proof (wal_slot_range ps p (W + 1) G). pose proof (g_wal _ _ G).
  unfold sizeof_header in *. split_and!.
  - apply (header_agree p m); [|done]. intros x Hx. apply Hag. rlia.
  - apply (meta_agree m); [|done]. intros x Hx. apply Hag. rlia.
  - intros t Ht. rewrite <- (logged_agree p m); [apply Hl; lia|]. intros x Hx. apply Hag. intros Hx'.
    apply (wal_slot_apart ps p (W + 1) t x G ltac:(lia) Hx' Hx).
  - rewrite (bits_agree ps p m m' G); [done|]. intros x Hx. apply Hag. rlia.
Qed.

Lemma log_phase w a W bits : clean p (w_file w) a W bits → W + 1 < 2 ^ 64 →
  ∃ t, w_ext w (wal_append ps p w (W + 1) op index) t ∧ settled (w_file w) t ∧
    (∀ x, ¬ range (wal_slot p (W + 1)) 24 x → stored t x = []) ∧
    pend p (run (w_file w) t) a W op index (apply_bits op index bits) ∧
    (∀ t' m', t' `prefix_of` t → crash (w_file w) t' m' →
       tear_detected (record_at (w_file w) (wal_slot p (W + 1))) (wal_record (W + 1) op index) = true →
       clean p m' a W bits ∨ pend p m' a W op index (apply_bits op index bits)).
Proof.
  intros Hc HW. pose proof Hc as (_ & (Ha & HW0 & _) & Hl & _). set (m := w_file w) in *.
  destruct (wal_append_ext ps p w (W + 1) op index G) as (t & Hext & Hset & Ho & Hst & Hrec). fold m in Hset, Hrec.
  exists t. split_and!; try done.
  - destruct (log_frame m (run m t) a W bits Hc) as (H1 & H2 & H3 & H4).
    { intros x Hx. by apply run_untouched, Hst. }
    unfold pend. split_and!; try done. by rewrite H4.
  - intros t' m' Hpre Hcr Htear.
    assert (∀ x, ¬ range (wal_slot p (W + 1)) 24 x → load8 m' x = load8 m x) as Hout.
    { intros x Hx. apply (crash_phase m t t' m' x Ho Hpre Hcr). by apply Hst. }
    destruct (log_frame m m' a W bits Hc Hout) as (H1 & H2 & H3 & H4).
    assert (logged p m' (W + 1) → record_at m' (wal_slot p (W + 1)) = wal_record (W + 1) op index) as Hnew.
    { intros [Hv Hs]. destruct (record_torn m (run m t) m' (wal_slot p (W + 1))) as [E|E].
      - by rewrite Hrec.
      - intros x _. apply (crash_phase m t t' m' x Ho Hpre Hcr).
      - done.
      - destruct (Hl (W + 1) ltac:(unfold WAL_ENTRIES; lia)). unfold logged. by rewrite <- E.
      - by rewrite E. }
    destruct (decide (rec_valid (record_at m' (wal_slot p (W + 1))) = true ∧ rec_seq (record_at m' (wal_slot p (W + 1))) = W + 1))
      as [Hlog|Hno].
    + right. unfold pend. split_and!; try done; [by apply Hnew|by rewrite H4].
    + left. split_and!; try done. intros u Hu. destruct (decide (u = W + 1)) as [->|]; [done|apply H3; lia].
Qed.

Lemma bitmap_phase w a W bits addr len : pend p (w_file w) a W op index bits →
  p_used_blocks p = used_of (bits_of p (w_file w)) →
  p_bitmap p ≤ addr → addr ≤ bit_byte p index < addr + len → addr + len ≤ p_data p →
  ∃ t, w_ext w (sync_range ps (apply_op p w op index).1 (apply_op p w op index).2 addr len) t ∧ settled (w_file w) t ∧
    (∀ x, x ≠ bit_byte p index → stored t x = []) ∧
    pend p (run (w_file w) t) a W op index bits ∧ bits_of p (run (w_file w) t) = bits ∧
    (apply_op p w op index).1 = set_used_blocks (used_of bits) p ∧
    (∀ t' m', t' `prefix_of` t → crash (w_file w) t' m' → pend p m' a W op index bits).
Proof.
  intros Hp Hu Hge Hin Hle. pose proof Hp as (Hh & Hm & Hr & Hl & Hb). set (m := w_file w) in *.
  pose proof (bit_byte_range ps p index G Hidx) as Hby. pose proof (g_max _ _ G). pose proof (g_wal _ _ G).
  pose proof (g_bitmap _ _ G). unfold sizeof_header, sizeof_wal, WAL_ENTRIES in *.
  destruct (apply_op_ext ps p w op index G Hidx Hu) as (t & Hext & Ho & Hst & Hbits & Hp1). fold m in Hbits, Hp1.
  rewrite Hb in Hbits, Hp1.
  destruct (sync_range_ext ps (apply_op p w op index).1 (apply_op p w op index).2 addr len (g_page _ _ G) ltac:(lia) ltac:(lia) ltac:(lia))
    as (start & Hsta & Hext2).
  set (ts := sync_events _ start _) in *.
  assert (∀ m', (∀ x, x ≠ bit_byte p index → load8 m' x = load8 m x) →
    (load8 m' (bit_byte p index) = load8 m (bit_byte p index) ∨ load8 m' (bit_byte p index) = load8 (run m t) (bit_byte p index)) →
    pend p m' a W op index bits) as Hpend.
  { intros m' Hout Hone. unfold pend. split_and!.
    - apply (header_agree p m); [|done]. intros x Hx. apply Hout. rlia.
    - apply (meta_agree m); [|done]. intros x Hx. apply Hout. rlia.
    - rewrite (record_agree m m'); [done|]. intros x Hx. apply Hout. pose proof (wal_slot_range ps p (W + 1) G). rlia.
    - intros u Hu'. rewrite <- (logged_agree p m); [by apply Hl|]. intros x Hx. apply Hout.
      pose proof (wal_slot_range ps p u G). rlia.
    - assert (bits_of p m' = bits_of p m ∨ bits_of p m' = bits_of p (run m t)) as [-> | ->].
      { destruct Hone as [E|E]; [left|right]; apply (bits_agree ps); try done; intros x Hx;
          (destruct (decide (x = bit_byte p index)) as [->|Hne]; [done|]); rewrite Hout by done; [done|].
        symmetry. by apply run_untouched, Hst. }
      + done.
      + by rewrite Hbits, <- Hb, apply_bits_idemp. }
  exists (t ++ ts). split_and!.
  - by apply (w_ext_trans _ (apply_op p w op index).2).
  - apply settled_sync_events. intros x Hx. destruct (decide (x = bit_byte p index)) as [->|Hne]; [rlia|by rewrite Hst in Hx].
  - intros x Hx. unfold ts. rewrite stored_with_sync. by apply Hst.
  - unfold ts. rewrite run_with_sync. apply Hpend; [|by right]. intros x Hx. by apply run_untouched, Hst.
  - unfold ts. by rewrite run_with_sync.
  - done.
  - intros t' m' Hpre Hcr.
    assert (once (t ++ ts)) as Ho' by (intros x; unfold ts; rewrite stored_with_sync; apply Ho).
    assert (∀ x, stored (t ++ ts) x = stored t x) as Hsto by (intros x; apply stored_with_sync).
    apply Hpend.
    + intros x Hx. apply (crash_phase m _ t' m' x Ho' Hpre Hcr). rewrite Hsto. by apply Hst.
    + destruct (crash_phase m _ t' m' (bit_byte p index) Ho' Hpre Hcr) as [Hc _]. unfold ts in Hc. by rewrite run_with_sync in Hc.
Qed.

(** Once the meta slot of record [W + 1] is written, the file is clean. *)
Lemma meta_frame m m' a W bits : pend p m a W op index bits → bits_of p m = bits → W + 1 < 2 ^ 64 →
  (∀ x, ¬ range (meta (1 - a)) 24 x → load8 m' x = load8 m x) →
  (rec_valid (record_at m' (meta (1 - a))) = true → rec_seq (record_at m' (meta (1 - a))) < W →
     pend p m' a W op index bits) ∧
  (rec_valid (record_at m' (meta (1 - a))) = false → pend p m' a W op index bits) ∧
  (rec_valid (record_at m' (meta (1 - a))) = true → rec_seq (record_at m' (meta (1 - a))) = W + 1 →
     clean p m' (1 - a) (W + 1) bits).
Proof.
  intros (Hh & (Ha & HW & Hv & Hs & Hold) & Hr & Hl & Hb) Hbits HW64 Hout.
  pose proof (g_wal _ _ G). pose proof (g_bitmap _ _ G). unfold sizeof_header, sizeof_wal, WAL_ENTRIES in *.
  assert (header_ok p m') as Hh'.
  { apply (header_agree p m); [|done]. intros x Hx. apply Hout. unfold meta, sizeof_meta. destruct Ha as [-> | ->]; rlia. }
  assert (∀ x, 104 ≤ x → load8 m' x = load8 m x) as Hhi.
  { intros x Hx. apply Hout. unfold meta, sizeof_meta. destruct Ha as [-> | ->]; rlia. }
  assert (record_at m' (meta a) = record_at m (meta a)) as Ea.
  { apply record_agree. intros x Hx. apply Hout. unfold meta, sizeof_meta in *. destruct Ha as [-> | ->]; rlia. }
  assert (∀ t, record_at m' (wal_slot p t) = record_at m (wal_slot p t)) as Ew.
  { intros t. apply record_agree. intros x Hx. apply Hhi. pose proof (wal_slot_range ps p t G). rlia. }
  assert (bits_of p m' = bits_of p m) as Eb by (apply (bits_agree ps); [done|]; intros x Hx; apply Hhi; rlia).
  assert (∀ t, W + 1 < t ≤ W + 256 → ¬ logged p m' t) as Hl' by (intros t Ht; unfold logged; rewrite Ew; by apply Hl).
  assert ((rec_valid (record_at m' (meta (1 - a))) = true → rec_seq (record_at m' (meta (1 - a))) < W) → pend p m' a W op index bits) as Hpend.
  { intros Hlt. unfold pend, meta_ok. rewrite Ea, Ew, Eb. done. }
  split_and!; [auto|intros E; apply Hpend; congruence|].
  intros Hv' Hs'. unfold clean. split_and!; try done; [| |by rewrite Eb].
  - unfold meta_ok. replace (1 - (1 - a)) with a by lia. rewrite Ea. split_and!; try done; destruct Ha as [-> | ->]; auto; lia.
  - unfold WAL_ENTRIES. intros t Ht. destruct (decide (t = W + 1 + 256)) as [->|]; [|apply Hl'; lia].
    intros [_ Hq]. change (W + 1 + 256) with (W + 1 + WAL_ENTRIES) in Hq at 1. rewrite wal_slot_wrap, Ew, Hr in Hq.
    destruct (wal_record_spec (W + 1) op index ltac:(unfold is_u64; lia) Hop idx_32) as (_ & _ & E & _). lia.
Qed.

Lemma meta_phase q w a W bits : pend p (w_file w) a W op index bits → bits_of p (w_file w) = bits → W + 1 < 2 ^ 64 →
  p_active_meta q = a → p_used_blocks q = used_of bits →
  ∃ t, w_ext w (meta_commit ps q w (W + 1)).2 t ∧ settled (w_file w) t ∧
    (∀ x, ¬ range 56 48 x → stored t x = []) ∧
    clean p (run (w_file w) t) (1 - a) (W + 1) bits ∧
    (meta_commit ps q w (W + 1)).1 = set_active_meta (1 - a) q ∧
    (∀ t' m', t' `prefix_of` t → crash (w_file w) t' m' →
       tear_detected (record_at (w_file w) (meta (1 - a))) (meta_record (W + 1) (used_of bits)) = true →
       pend p m' a W op index bits ∨ clean p m' (1 - a) (W + 1) bits).
Proof.
  intros Hp Hb HW Hqa Hqu. set (m := w_file w) in *. pose proof Hp as (_ & (Ha & HW0 & _ & _ & Hold) & _).
  destruct (meta_commit_ext ps q w (W + 1) (g_page _ _ G)) as (t & Hext & Hset & Ho & Hst & Hrec & Hq); [by rewrite Hqa|].
  rewrite Hqa in *. rewrite Hqu in Hrec. fold m in Hset, Hrec.
  destruct (meta_record_spec (W + 1) (used_of bits) ltac:(unfold is_u64; lia)) as (_ & Hmv & Hms).
  exists t. split_and!; try done.
  - intros x Hx. apply Hst. unfold meta, sizeof_meta in *. destruct Ha as [-> | ->]; rlia.
  - destruct (meta_frame m (run m t) a W bits Hp Hb HW) as (_ & _ & H); [intros x Hx; by apply run_untouched, Hst|].
    rewrite Hrec in H. auto.
  - intros t' m' Hpre Hcr Htear.
    destruct (meta_frame m m' a W bits Hp Hb HW) as (H1 & H2 & H3).
    { intros x Hx. apply (crash_phase m t t' m' x Ho Hpre Hcr). by apply Hst. }
    destruct (rec_valid (record_at m' (meta (1 - a)))) eqn:Ev; [|by left; auto].
    destruct (record_torn m (run m t) m' (meta (1 - a))) as [E|E].
    + by rewrite Hrec.
    + intros x _. apply (crash_phase m t t' m' x Ho Hpre Hcr).
    + done.
    + left. apply H1; [done|]. rewrite E in *. auto.
    + right. apply H3; [done|]. by rewrite E, Hrec.
Qed.
End phases.

(** ** Recovery *)

Lemma best_meta_ok m a W : meta_ok m a W → best_meta m = (a, W).
Proof.
  intros (Ha & HW & Hv & Hs & Ho). unfold best_meta. cbn [foldl].
  unfold m_crc, meta_crc, m_seq. rewrite !rec_valid_at, !rec_seq_at.
  destruct Ha as [-> | ->]; [change (1 - 0) with 1 in Ho|change (1 - 1) with 0 in Ho].
  - rewrite Hv, Hs. simpl. destruct (rec_valid (record_at m (meta 1))) eqn:E; simpl; [|done].
    specialize (Ho eq_refl). rewrite Z.geb_leb, (proj2 (Z.leb_gt _ _)) by lia. done.
  - rewrite Hv, Hs. destruct (rec_valid (record_at m (meta 0))) eqn:E; simpl; [|done].
    specialize (Ho eq_refl). rewrite Z.geb_leb, (proj2 (Z.leb_le _ _)) by lia. done.
Qed.

Lemma count_used_ok p m : 0 ≤ p_block_count p < 2 ^ 64 → count_used p m = used_of (bits_of p m).
Proof.
  intros Hc. unfold count_used, used_of, bits_of. rewrite count_if_fmap.
  assert (∀ l u, 0 ≤ u → u + Z.of_nat (length l) < 2 ^ 64 →
    foldl (λ u i, if bit_test p m i then u +% 1 else u) u l = u + count_if (λ i, bit_test p m i) l) as H.
  { induction l as [|i l IH]; intros u Hu Hl; cbn [foldl count_if length] in *; [lia|].
    destruct (bit_test p m i); rewrite IH by (try rewrite wrap64_small by ulia; lia); [|lia].
    rewrite wrap64_small by ulia. lia. }
  rewrite H; [done|lia|]. rewrite length_seqZ. lia.
Qed.

Lemma replay_skip p w s bound mx r n : ∀ fuel, (n < fuel)%nat → 0 ≤ s → s + Z.of_nat n = bound + 1 → bound + 1 < 2 ^ 64 →
  (∀ t, s ≤ t ≤ bound → ¬ logged p (w_file w) t) → replay fuel p w s bound mx r = Ok (p, w, mx, r).
Proof.
  revert s. induction n as [|n IH]; intros s [|fuel] Hf Hs Hn Hb Hl; try lia; cbn [replay].
  - rewrite (proj2 (Z.leb_gt _ _)) by lia. done.
  - rewrite (proj2 (Z.leb_le _ _)) by lia. cbn [negb]. specialize (Hl s ltac:(lia)) as Hls. unfold logged in Hls.
    unfold e_seq, e_crc, wal_crc. rewrite rec_valid_at, rec_seq_at.
    assert (negb (rec_seq (record_at (w_file w) (wal_slot p s)) =? s) || negb (rec_valid (record_at (w_file w) (wal_slot p s))) = true) as ->.
    { destruct (Z.eqb_spec (rec_seq (record_at (w_file w) (wal_slot p s))) s) as [E|]; [|done].
      destruct (rec_valid (record_at (w_file w) (wal_slot p s))); [|done]. by destruct Hls. }
    rewrite wrap64_small by ulia. apply IH; try lia. intros t Ht. apply Hl. lia.
Qed.

Lemma replay_hit fuel p w s bound mx r op index : s ≤ bound → mx < s → is_u64 s → 0 ≤ op < 2 ^ 32 → 0 ≤ index < 2 ^ 32 →
  record_at (w_file w) (wal_slot p s) = wal_record s op index →
  replay (S fuel) p w s bound mx r = replay fuel (apply_op p w op index).1 (apply_op p w op index).2 (s +% 1) bound s true.
Proof.
  intros Hs Hmx Hu Ho Hi Hr. destruct (wal_record_spec s op index Hu Ho Hi) as (_ & Rv & Rs & Ro & Ri).
  cbn [replay]. rewrite (proj2 (Z.leb_le _ _)) by lia. cbn [negb]. unfold e_seq, e_crc, wal_crc.
  rewrite rec_valid_at, rec_seq_at, rec_op_at, rec_index_at, Hr, Rv, Rs, Ro, Ri, Z.eqb_refl. cbn [negb orb].
  rewrite (surjective_pairing (apply_op p w op index)) at 1. by rewrite Z.gtb_ltb, (proj2 (Z.ltb_lt _ _)) by lia.
Qed.

(** The handle of a pool whose file has the watermark [W] in slot [a]. *)
Definition reopened (p : hf_persistent_pool) (a W : Z) (bits : list bool) : hf_persistent_pool :=
  set_next_seq (W + 1) (set_used_blocks (used_of bits) (set_active_meta a p)).

Lemma recover_clean ps p w a W bits : geom ps p → clean p (w_file w) a W bits → W < 2 ^ 63 →
  recover ps p w = Ok (reopened p a W bits, w).
Proof.
  intros G (Hh & Hm & Hl & Hb) HW. pose proof (g_count _ _ G). pose proof Hm as (Ha & HW0 & _).
  unfold recover. rewrite (best_meta_ok _ _ _ Hm).
  assert ((a <? 0) = false) as -> by (apply Z.ltb_ge; destruct Ha as [-> | ->]; lia).
  rewrite count_used_ok by (simpl; lia). unfold WAL_ENTRIES in *. rewrite !wrap64_small by ulia.
  rewrite (replay_skip _ _ _ _ _ _ 256); [|lia..|intros t Ht; by apply Hl; lia].
  cbn [mbind outcome_bind]. rewrite !wrap64_small by ulia.
  change (bits_of (set_active_meta a p) (w_file w)) with (bits_of p (w_file w)). by rewrite Hb.
Qed.

Lemma recover_pend ps p w a W op index bits : geom ps p → 0 ≤ op < 2 ^ 32 → 0 ≤ index < p_block_count p →
  pend p (w_file w) a W op index bits → W < 2 ^ 63 →
  ∃ w' t, recover ps p w = Ok (reopened p (1 - a) (W + 1) bits, w') ∧ w_ext w w' t ∧ settled (w_file w) t ∧
    (∀ x, p_data p ≤ x → stored t x = []) ∧ clean p (w_file w') (1 - a) (W + 1) bits ∧
    (∀ t' m', t' `prefix_of` t → crash (w_file w) t' m' →
       tear_detected (record_at (w_file w) (meta (1 - a))) (meta_record (W + 1) (used_of bits)) = true →
       pend p m' a W op index bits ∨ clean p m' (1 - a) (W + 1) bits).
Proof.
  intros G Hop Hidx Hp HW. pose proof Hp as (Hh & Hm & Hr & Hl & Hb). pose proof Hm as (Ha & HW0 & _).
  pose proof (g_count _ _ G) as Hcount. pose proof (g_data _ _ G). pose proof (g_wal _ _ G). pose proof (g_bitmap _ _ G).
  pose proof (g_max _ _ G). unfold sizeof_header, sizeof_wal, WAL_ENTRIES in *.
  pose proof (bit_byte_range ps p index G Hidx) as Hby. pose proof (Z.div_pos (p_block_count p + 7) 8 ltac:(lia) ltac:(lia)).
  set (p1 := set_used_blocks (used_of (bits_of p (w_file w))) (set_active_meta a p)).
  assert (geom ps p1) as G1 by (destruct G; by split).
  destruct (bitmap_phase ps p1 G1 op index Hidx w a W bits (p_bitmap p) ((p_block_count p + 7) / 8) Hp eq_refl
    (Z.le_refl _) Hby (g_data _ _ G)) as (t2 & Hext2 & Hset2 & Hst2 & Hp2 & Hb2 & Hp1 & Hcr2).
  destruct (apply_op p1 w op index) as [p2 w1] eqn:Eap. cbn [fst snd] in *.
  remember (sync_range ps p2 w1 (p_bitmap p) ((p_block_count p + 7) / 8)) as w2 eqn:Ew2.
  assert (w_file w1 = w_file w2) as Ew1.
  { destruct (sync_range_ext ps p2 w1 (p_bitmap p) ((p_block_count p + 7) / 8) (g_page _ _ G)
      ltac:(lia) ltac:(lia) ltac:(lia)) as (start & _ & [Hf _]). by rewrite <- Ew2, run_sync in Hf. }
  pose proof Hext2 as [Hf2 _]. rewrite <- Hf2 in Hp2, Hb2.
  destruct (meta_phase ps p1 G1 op index Hop Hidx (reopened p a (W + 1) bits) w2 a W bits Hp2 Hb2 ltac:(lia) eq_refl eq_refl)
    as (t3 & Hext3 & Hset3 & Hst3 & Hc3 & Hq3 & Hcr3).
  destruct (meta_commit ps (reopened p a (W + 1) bits) w2 (W + 1)) as [p3 w3] eqn:E3. cbn [fst snd] in *.
  exists w3, (t2 ++ t3). split_and!.
  - unfold recover. rewrite (best_meta_ok _ _ _ Hm).
    assert ((a <? 0) = false) as -> by (apply Z.ltb_ge; destruct Ha as [-> | ->]; lia).
    rewrite count_used_ok by (simpl; lia). unfold WAL_ENTRIES. rewrite !(wrap64_small (W + _)) by ulia.
    change (bits_of (set_active_meta a p) (w_file w)) with (bits_of p (w_file w)). fold p1.
    rewrite (replay_hit 256 p1 w (W + 1) (W + 256) W false op index); [|try done; unfold is_u64; lia..]. rewrite Eap. cbn [fst snd].
    rewrite (wrap64_small (W + 1 + 1)) by ulia.
    rewrite (replay_skip p2 w1 (W + 1 + 1) (W + 256) (W + 1) true 255); [|lia..|].
    2: { intros t Ht. rewrite Ew1, Hp1. destruct Hp2 as (_ & _ & _ & Hl2 & _). apply (Hl2 t). unfold WAL_ENTRIES. lia. }
    cbn [mbind outcome_bind]. rewrite (wrap64_small (W + 1 + 1)), (wrap64_small (p_block_count _ + 7)) by (rewrite ?Hp1; simpl; ulia).
    assert (sync_range ps (set_next_seq (W + 1 + 1) p2) w1 (p_bitmap (set_next_seq (W + 1 + 1) p2))
      ((p_block_count (set_next_seq (W + 1 + 1) p2) + 7) / 8) = w2) as -> by (rewrite Ew2, Hp1; reflexivity).
    replace (set_next_seq (W + 1 + 1) p2) with (reopened p a (W + 1) bits) by (by rewrite Hp1).
    rewrite E3, Hq3. reflexivity.
  - by apply (w_ext_trans _ w2).
  - apply settled_app; [done|]. by rewrite <- Hf2.
  - intros x Hx. rewrite stored_app, Hst2, Hst3; [done|rlia|]. change (bit_byte p1 index) with (bit_byte p index). rlia.
  - destruct Hext3 as [-> _]. done.
  - intros t' m' Hpre Hcr Htear. apply prefix_app_cases in Hpre as [Hpre|(t4 & -> & Hpre)].
    + left. by apply (Hcr2 t').
    + apply crash_app in Hcr; [|done]. rewrite <- Hf2 in Hcr. apply (Hcr3 t4); try done.
      rewrite (record_agree (w_file w)); [done|]. intros x Hx. rewrite Hf2. apply run_untouched, Hst2.
      unfold meta, sizeof_meta, bit_byte in *. destruct Ha as [-> | ->]; simpl in *; rlia.
Qed.

(** The replay loop has no end when its bound is the largest [uint64_t]: no
    amount of fuel is enough. *)
Lemma replay_never_ends fuel p w s max_seq replayed : is_u64 s → replay fuel p w s (2 ^ 64 - 1) max_seq replayed = OutOfFuel.
Proof.
  revert p w s max_seq replayed. induction fuel as [|fuel IH]; intros p w s max_seq replayed Hs; [done|]. cbn [replay].
  rewrite (proj2 (Z.leb_le s (2 ^ 64 - 1))) by ulia. cbn [negb]. destruct (_ || _); [apply IH, wrap64_range|].
  destruct (apply_op _ _ _ _) as [p' w']. apply IH, wrap64_range.
Qed.
