(* ===== verification/PoolSpec.v ===== *)
(** * The persistent pool: atomic commits, refinement, claims

    The pool as its clients see it: a list of bits.  Every operation refines
    the operation on the bits, and a crash at any point of a commit, or of
    the recovery after it, followed by [hf_pool_open], gives the bits from
    before or after that commit. *)

From S2P Require Import Prelude Memory Platform PersistentPool PoolTrace PoolProofs.

(** The pool's handle and its file agree, and the bits are [bits]. *)
Definition pool_inv (ps : Z) (p : hf_persistent_pool) (m : mem) (bits : list bool) : Prop :=
  geom ps p ∧ clean p m (p_active_meta p) (p_next_seq p - 1) bits ∧ p_used_blocks p = used_of bits.

(** The checksums detect torn writes of the two records of a commit. *)
Definition commit_tears (p : hf_persistent_pool) (m : mem) (op index : Z) : Prop :=
  tear_detected (record_at m (wal_slot p (p_next_seq p))) (wal_record (p_next_seq p) op index) = true ∧
  tear_detected (record_at m (meta (1 - p_active_meta p)))
    (meta_record (p_next_seq p) (used_of (apply_bits op index (bits_of p m)))) = true.

(** The handle [hf_pool_open] starts recovery with. *)
Definition handle (p : hf_persistent_pool) (map : Z) (dur : hf_durability) : hf_persistent_pool :=
  Pool map (p_map_size p) (p_wal p) (p_bitmap p) (p_data p) (p_block_size p) (p_block_count p) 0 1 0 dur.

(** An existing file is opened, and every system call succeeds. *)
Definition env_ok (env : open_env) : Prop :=
  open1 env = true ∧ sizeof_header ≤ file_len env ∧ is_Some (mmap_at env) ∧ calloc_ok env = true.

Lemma open_existing ps env p w bs bc dur : env_ok env → header_ok p (w_file w) →
  ∃ map, mmap_at env = Some map ∧
    hf_pool_open ps env w bs bc dur = ('(q, w) ← recover ps (handle p map dur) w; Ok (Some q, w)).
Proof.
  intros (H1 & H2 & [map H3] & H4) (E1 & E2 & E3 & E4 & E5 & E6 & E7). exists map. split; [done|].
  unfold hf_pool_open. rewrite H1, H3, H4. cbn [negb andb]. rewrite (proj2 (Z.ltb_ge _ _)) by lia.
  rewrite E1, Z.eqb_refl, E2, E3, E4, E5, E6, E7. done.
Qed.

(** What a commit leaves at each of its points. *)
Lemma commit_spec ps p w bits op index a W bits' : pool_inv ps p (w_file w) bits → W + 1 < 2 ^ 63 →
  0 ≤ op < 2 ^ 32 → 0 ≤ index < p_block_count p →
  p_active_meta p = a → p_next_seq p = W + 1 → apply_bits op index bits = bits' →
  ∃ p' w' t1 t2, commit ps p w op index = (p', w') ∧ w_ext w w' (t1 ++ t2) ∧ settled (w_file w) (t1 ++ t2) ∧
    p' = set_active_meta (1 - a) (set_used_blocks (used_of bits') (set_next_seq (W + 1 + 1) p)) ∧
    pool_inv ps p' (w_file w') bits' ∧ (∀ x, p_data p ≤ x → stored (t1 ++ t2) x = []) ∧
    (∀ t' m', t' `prefix_of` t1 ++ t2 → crash (w_file w) t' m' → 
       tear_detected (record_at (w_file w) (wal_slot p (W + 1))) (wal_record (W + 1) op index) = true →
       tear_detected (record_at (w_file w) (meta (1 - a))) (meta_record (W + 1) (used_of bits')) = true →
       (clean p m' a W bits ∧ (length t' < length t1)%nat) ∨ pend p m' a W op index bits' ∨ clean p m' (1 - a) (W + 1) bits').
Proof.
  intros (G & Hc & Hu) Hseq Hop Hidx Ea Es Eb. rewrite Ea, Es in Hc. replace (W + 1 - 1) with W in Hc by lia.
  pose proof Hc as (_ & (Ha & HW0 & _) & _ & Hbits).
  assert (∃ p1, p1 = set_next_seq (W + 1 + 1) p) as [p1 Ep1] by eauto.
  assert (same_geom p p1) as S1 by (by rewrite Ep1). assert (same_geom p1 p) as S2 by (by rewrite Ep1).
  pose proof (geom_same ps p p1 S1 G) as G1. pose proof (clean_same p p1 _ _ _ _ S1 Hc) as Hc1.
  pose proof (g_count _ _ G) as Hcount. pose proof (g_data _ _ G1). pose proof (g_wal _ _ G). pose proof (g_bitmap _ _ G).
  pose proof (wal_slot_range ps p (W + 1) G) as Hslot. destruct S1 as (Sm & Sw & Sb & Sd & Sz & Sc).
  rewrite <- Sc in Hidx. pose proof (bit_byte_range ps p1 index G1 Hidx) as Hby.
  assert (wal_slot p1 (W + 1) = wal_slot p (W + 1)) as Eslot by (unfold wal_slot; by rewrite Sw).
  unfold sizeof_header, sizeof_wal, WAL_ENTRIES in *.
  destruct (log_phase ps p1 G1 op index w a W bits Hc1 ltac:(lia)) as (t1 & Hext1 & Hset1 & Hst1 & Hp1 & Hcr1).
  rewrite Eslot in Hst1, Hcr1. rewrite Eb in Hp1, Hcr1. unfold commit. rewrite Es, wrap64_small, <- Ep1 by ulia.
  remember (wal_append ps p1 w (W + 1) op index) as w1 eqn:Ew1. pose proof Hext1 as [Hf1 _]. rewrite <- Hf1 in Hp1.
  assert (∀ x, ¬ range (wal_slot p (W + 1)) 24 x → load8 (w_file w1) x = load8 (w_file w) x) as Hag1.
  { intros x Hx. rewrite Hf1. by apply run_untouched, Hst1. }
  assert (bits_of p1 (w_file w1) = bits) as Hbits1.
  { destruct Hc1 as (_ & _ & _ & <-). apply (bits_agree ps); [done|]. intros x Hx. apply Hag1. rlia. }
  destruct (bitmap_phase ps p1 G1 op index Hidx w1 a W bits' (bit_byte p1 index) 1 Hp1)
    as (t2 & Hext2 & Hset2 & Hst2 & Hp2 & Hb2 & Hq2 & Hcr2); [rewrite Hbits1, Ep1; exact Hu|lia..|].
  destruct (apply_op p1 w1 op index) as [p2 w2] eqn:Eap. cbn [fst snd] in *.
  assert (p_bitmap p2 + index / 8 = bit_byte p1 index) as -> by (by rewrite Hq2).
  remember (sync_range ps p2 w2 (bit_byte p1 index) 1) as w3 eqn:Ew3. pose proof Hext2 as [Hf2 _]. rewrite <- Hf2 in Hp2, Hb2.
  destruct (meta_phase ps p1 G1 op index Hop Hidx p2 w3 a W bits' Hp2 Hb2 ltac:(lia))
    as (t3 & Hext3 & Hset3 & Hst3 & Hc3 & Hq3 & Hcr3); [by rewrite Hq2, Ep1|by rewrite Hq2|].
  destruct (meta_commit ps p2 w3 (W + 1)) as [p4 w4] eqn:E4. cbn [fst snd] in *.
  assert (p4 = set_active_meta (1 - a) (set_used_blocks (used_of bits') (set_next_seq (W + 1 + 1) p))) as Ep4.
  { by rewrite Hq3, Hq2, Ep1. }
  assert (same_geom p p4) as S4 by (by rewrite Ep4). assert (same_geom p1 p4) as S14 by (by rewrite Ep4, Ep1).
  exists p4, w4, t1, (t2 ++ t3). split_and!.
  - reflexivity.
  - by apply (w_ext_trans _ w1), (w_ext_trans _ w3).
  - apply settled_app; [done|]. rewrite <- Hf1. apply settled_app; [done|]. by rewrite <- Hf2.
  - by rewrite Ep4, Ep1.
  - split; [by apply (geom_same ps p)|]. destruct Hext3 as [-> _]. rewrite Ep4 at 2 3 4. cbn [p_active_meta p_next_seq p_used_blocks set_active_meta set_used_blocks set_next_seq].
    replace (W + 1 + 1 - 1) with (W + 1) by lia. split; [by apply (clean_same p1)|done].
  - intros x Hx. rewrite !stored_app, Hst1, Hst2, Hst3; [done|rlia|lia|rlia].
  - intros t' m' Hpre Hcr HT1 HT2.
    destruct (decide (length t1 ≤ length t')%nat) as [Hlen|Hlen].
    + right. apply prefix_app_cases in Hpre as [Hpre|(t4 & -> & Hpre)].
      { assert (t' = t1) as -> by (apply prefix_length_eq; done).
        left. apply (pend_same p1); [done|]. apply (Hcr2 []); [apply prefix_nil|]. intros x. unfold cands. cbn [foldl].
        rewrite (crash_settled _ _ _ Hset1 Hcr), Hf1. by left. }
      apply crash_app in Hcr; [|done]. rewrite <- Hf1 in Hcr.
      apply prefix_app_cases in Hpre as [Hpre|(t5 & -> & Hpre)]; [left; apply (pend_same p1); [done|]; by apply (Hcr2 t4)|].
      apply crash_app in Hcr; [|done]. rewrite <- Hf2 in Hcr.
      assert (record_at (w_file w3) (meta (1 - a)) = record_at (w_file w) (meta (1 - a))) as Em.
      { apply record_agree. intros x Hx.
        assert (56 ≤ x < 104) by (unfold meta, sizeof_meta in Hx; destruct Ha as [Hz|Hz]; rewrite Hz in Hx; rlia).
        rewrite Hf2, run_untouched by (apply Hst2; lia). apply Hag1. rlia. }
      destruct (Hcr3 t5 m' Hpre Hcr) as [Hx|Hx]; [by rewrite Em|left; by apply (pend_same p1)|right; by apply (clean_same p1)].
    + apply prefix_app_cases in Hpre as [Hpre|(t4 & -> & Hpre)]; [|rewrite length_app in Hlen; lia].
      destruct (Hcr1 t' m' Hpre Hcr HT1) as [Hx|Hx]; [left; split; [by apply (clean_same p1)|lia]|right; left; by apply (pend_same p1)].
Qed.

(** ** Reopening after a crash *)

(** A file from which recovery gets [bits]. *)
Definition crashed (p : hf_persistent_pool) (m : mem) (bits : list bool) : Prop :=
  ∃ a W, (W < 2 ^ 63 ∧ clean p m a W bits) ∨
    (W + 1 < 2 ^ 63 ∧ ∃ op index, 0 ≤ op < 2 ^ 32 ∧ 0 ≤ index < p_block_count p ∧ pend p m a W op index bits).

(** The checksum detects a torn write of the meta slot during recovery. *)
Definition recovery_tears (m : mem) (bits : list bool) : bool :=
  let '(a, W) := best_meta m in
  tear_detected (record_at m (meta (1 - a))) (meta_record (W + 1) (used_of bits)).

Lemma clean_ext p m m' a W bits : (∀ x, load8 m' x = load8 m x) → clean p m a W bits → clean p m' a W bits.
Proof.
  intros Hx (H1 & H2 & H3 & H4). split_and!.
  - apply (header_agree p m); [|done]. intros x _. apply Hx.
  - apply (meta_agree m); [|done]. intros x _. apply Hx.
  - intros t Ht. rewrite <- (logged_agree p m); [by apply H3|]. intros x _. apply Hx.
  - rewrite <- H4. apply list_fmap_ext. intros k i _. apply bit_test_agree, Hx.
Qed.

Lemma crash_nil m m' : crash m [] m' → ∀ x, load8 m' x = load8 m x.
Proof. intros H x. specialize (H x). by apply list_elem_of_singleton in H. Qed.

Lemma crash_run m tr : crash m tr (run m tr).
Proof. intros x. destruct (cands_head m tr x) as (cs & ->). by left. Qed.

Lemma handle_same p map dur : same_geom p (handle p map dur).
Proof. done. Qed.

Lemma reopened_inv ps p a W bits m : geom ps p → clean p m a W bits → pool_inv ps (reopened p a W bits) m bits.
Proof.
  intros G Hc. split; [by apply (geom_same ps p)|]. split; [|done]. cbn. replace (W + 1 - 1) with W by lia.
  by apply (clean_same p).
Qed.

Lemma reopen_spec ps env p m bits bs bc dur : geom ps p → env_ok env → crashed p m bits →
  ∃ q w, hf_pool_open ps env (World m []) bs bc dur = Ok (Some q, w) ∧ pool_inv ps q (w_file w) bits ∧ same_geom p q ∧
    (∀ x, p_data p ≤ x → load8 (w_file w) x = load8 m x) ∧
    (∀ t' m', t' `prefix_of` w_trace w → crash m t' m' → recovery_tears m bits = true → crashed p m' bits).
Proof.
  intros G Henv (a & W & Hst).
  assert (header_ok p m ∧ best_meta m = (a, W)) as [Hh Ebest].
  { destruct Hst as [(_ & H1 & H2 & _)|(_ & op & index & _ & _ & (H1 & H2 & _))]; (split; [done|by apply best_meta_ok]). }
  destruct (open_existing ps env p (World m []) bs bc dur Henv Hh) as (map & _ & ->).
  pose proof (handle_same p map dur) as Hs. assert (geom ps (handle p map dur)) as G' by (by apply (geom_same ps p)).
  destruct Hst as [[HW Hc]|(HW & op & index & Hop & Hidx & Hp)].
  - rewrite (recover_clean ps _ (World m []) a W bits G' (clean_same _ _ _ _ _ _ Hs Hc) HW). cbn [mbind outcome_bind].
    eexists _, _. split; [reflexivity|]. split_and!; try done.
    + by apply reopened_inv; [|apply (clean_same p)].
    + intros t' m' Hpre Hcr _. apply prefix_nil_inv in Hpre as ->. exists a, W. left. split; [done|].
      apply (clean_ext p m); [by apply crash_nil|done].
  - destruct (recover_pend ps _ (World m []) a W op index bits G' Hop Hidx (pend_same _ _ _ _ _ _ _ _ Hs Hp) ltac:(lia))
      as (w' & t & -> & [Hf Ht] & _ & Hdata & Hc & Hcr). cbn [mbind outcome_bind w_file w_trace] in *.
    eexists _, _. split; [reflexivity|]. split_and!; try done.
    + by apply reopened_inv.
    + intros x Hx. rewrite Hf. by apply run_untouched, Hdata.
    + intros t' m' Hpre Hcr' Htear. rewrite Ht in Hpre. unfold recovery_tears in Htear. rewrite Ebest in Htear.
      destruct (Hcr t' m' Hpre Hcr' Htear) as [H|H].
      * exists a, W. right. split; [done|]. exists op, index. split; [done|]. split; [done|]. by apply (pend_same (handle p map dur)).
      * exists (1 - a), (W + 1). left. split; [lia|]. by apply (clean_same (handle p map dur)).
Qed.

(** ** The operations on the bits *)

Inductive pool_op : Type := PAlloc | PFree (index : Z).

(** The lowest block that is not in use. *)
Definition first_free (bits : list bool) : option nat := fst <$> list_find (λ b, b = false) bits.

Definition abs_op (bits : list bool) (o : pool_op) : list bool :=
  match o with
  | PAlloc => match first_free bits with Some k => apply_bits WAL_OP_ALLOC (Z.of_nat k) bits | None => bits end
  | PFree i => if bool_decide (bits !! Z.to_nat i = Some true) then apply_bits WAL_OP_FREE i bits else bits
  end.

Definition run_op (ps : Z) (p : hf_persistent_pool) (w : world) (o : pool_op) : hf_persistent_pool * world :=
  match o with PAlloc => (hf_pool_allocate ps p w).1 | PFree i => hf_pool_free ps p w i end.

Definition pool_op_ok (o : pool_op) : Prop := match o with PAlloc => True | PFree i => 0 ≤ i end.

Lemma first_free_Some bits k : first_free bits = Some k →
  bits !! k = Some false ∧ ∀ j, (j < k)%nat → bits !! j = Some true.
Proof.
  unfold first_free. intros H. destruct (list_find _ _) as [[i b]|] eqn:E; simplify_eq/=.
  apply list_find_Some in E as (Hk & -> & Hlt). split; [done|]. intros j Hj.
  destruct (lookup_lt_is_Some_2 bits j) as [[] Hb]; [apply lookup_lt_Some in Hk; lia|done|]. by destruct (Hlt j false Hb Hj).
Qed.

Lemma first_free_None bits : first_free bits = None → Forall (λ b, b = true) bits.
Proof.
  unfold first_free. intros H. destruct (list_find _ _) as [[i b]|] eqn:E; simplify_eq/=.
  apply list_find_None in E. eapply Forall_impl; [exact E|]. by intros [].
Qed.

(** The loop of [hf_pool_allocate] commits the lowest free block. *)
Lemma alloc_loop_spec ps p w n : ∀ i, 0 ≤ i → i + Z.of_nat n = p_block_count p → p_block_count p < 2 ^ 32 →
  (∀ j, 0 ≤ j < i → bit_test p (w_file w) j = true) →
  pool_alloc_loop ps p w i n =
  match first_free (bits_of p (w_file w)) with
  | None => (p, w, None)
  | Some k => let '(p', w') := commit ps p w WAL_OP_ALLOC (Z.of_nat k) in
              (p', w', Some (p_map p' +% p_data p' +% Z.of_nat k *% p_block_size p', Z.of_nat k))
  end.
Proof.
  induction n as [|n IH]; intros i Hi Hn Hc Hlow; cbn [pool_alloc_loop].
  - destruct (first_free _) as [k|] eqn:E; [|done]. apply first_free_Some in E as [Hk _].
    pose proof (lookup_lt_Some _ _ _ Hk) as Hlt. pose proof (length_bits p (w_file w)).
    pose proof (bits_lookup p (w_file w) (Z.of_nat k) ltac:(lia)) as Hb. rewrite Nat2Z.id, Hk in Hb.
    rewrite Hlow in Hb by lia. done.
  - destruct (bit_test p (w_file w) i) eqn:Et; cbn [negb].
    + rewrite wrap64_small by ulia. apply IH; try lia. intros j Hj. destruct (decide (j = i)) as [->|]; [done|apply Hlow; lia].
    + assert (first_free (bits_of p (w_file w)) = Some (Z.to_nat i)) as ->.
      { unfold first_free. rewrite (proj2 (list_find_Some _ _ (Z.to_nat i) false)); [done|]. split_and!; [|done|].
        - rewrite bits_lookup by lia. by rewrite Et.
        - intros j b Hb Hj ->. pose proof (bits_lookup p (w_file w) (Z.of_nat j) ltac:(lia)) as Hb'.
          rewrite Nat2Z.id, Hb in Hb'. rewrite Hlow in Hb' by lia. done. }
      rewrite Z2Nat.id by lia. unfold wrap32. by rewrite Z.mod_small by lia.
Qed.

Lemma pool_allocate_eq ps p w bits : pool_inv ps p (w_file w) bits → p_block_count p < 2 ^ 32 →
  hf_pool_allocate ps p w =
  match first_free bits with
  | None => (p, w, None)
  | Some k => let '(p', w') := commit ps p w WAL_OP_ALLOC (Z.of_nat k) in
              (p', w', Some (p_map p' +% p_data p' +% Z.of_nat k *% p_block_size p', Z.of_nat k))
  end.
Proof.
  intros (G & (_ & _ & _ & Hb) & _) Hc. pose proof (g_count _ _ G). rewrite <- Hb.
  unfold hf_pool_allocate. rewrite (alloc_loop_spec ps p w (Z.to_nat (p_block_count p)) 0); [done|lia..].
Qed.

Lemma pool_free_eq ps p w bits i : pool_inv ps p (w_file w) bits → 0 ≤ i →
  hf_pool_free ps p w i = if bool_decide (bits !! Z.to_nat i = Some true) then commit ps p w WAL_OP_FREE i else (p, w).
Proof.
  intros (G & (_ & _ & _ & Hb) & _) Hi. pose proof (g_count _ _ G). unfold hf_pool_free. rewrite <- Hb.
  destruct (Z.ltb_spec i (p_block_count p)) as [Hlt|Hge]; simpl.
  - rewrite bits_lookup by lia. unfold wrap32. rewrite Z.mod_small by lia.
    destruct (bit_test p (w_file w) i); [by rewrite bool_decide_eq_true_2|by rewrite bool_decide_eq_false_2].
  - rewrite bool_decide_eq_false_2; [done|]. rewrite lookup_ge_None_2; [done|]. pose proof (length_bits p (w_file w)). lia.
Qed.

(** ** Creating a pool *)

Lemma load_bytes_store_out m a bs b n : b + Z.of_nat n ≤ a ∨ a + Z.of_nat (length bs) ≤ b →
  load_bytes (store_bytes m a bs) b n = load_bytes m b n.
Proof. intros H. apply load_bytes_agree. intros x Hx. apply load8_store_bytes_out. rlia. Qed.

Lemma load64_store_out m a bs b : b + 8 ≤ a ∨ a + Z.of_nat (length bs) ≤ b →
  load64 (store_bytes m a bs) b = load64 m b.
Proof. intros H. unfold load64. by rewrite load_bytes_store_out. Qed.

Lemma load64_store_le m a v : is_u64 v → load64 (store_bytes m a (le_bytes 8 v)) a = v.
Proof. intros H. change (store_bytes m a (le_bytes 8 v)) with (store64 m a v). rewrite load64_store64_eq. by apply wrap64_small. Qed.

Lemma load_bytes_zeros m a k b n : a ≤ b → b + Z.of_nat n ≤ a + Z.of_nat k →
  load_bytes (store_bytes m a (replicate k 0)) b n = replicate n 0.
Proof.
  intros H1 H2. apply list_eq. intros i. destruct (decide (i < n)%nat) as [Hi|Hi].
  - rewrite lookup_replicate_2 by done. apply lookup_load_bytes. split; [done|].
    change (store_bytes m a (replicate k 0)) with (memset m a 0 k). by rewrite load8_memset_in by rlia.
  - rewrite !lookup_ge_None_2; [done|rewrite length_replicate; lia|rewrite length_load_bytes; lia].
Qed.

(** Skips the stores that do not touch what is loaded. *)
Ltac peel := repeat (rewrite load64_store_out by (rewrite ?length_le_bytes, ?length_replicate; lia)).
Ltac peel_bytes := repeat (rewrite load_bytes_store_out by (rewrite ?length_le_bytes, ?length_replicate; lia)).

(** The sizes a pool can be created with. *)
Definition create_ok (bs bc : Z) : Prop := 0 < bs ≤ 2 ^ 28 ∧ 0 < bc < 2 ^ 32.

Lemma w_file_sync ps p w a len : w_file (sync_range ps p w a len) = w_file w.
Proof. unfold sync_range. by destruct (p_dur p). Qed.

Lemma zero_bits ps p m : geom ps p → (∀ x, range (p_bitmap p) ((p_block_count p + 7) / 8) x → load8 m x = 0) →
  bits_of p m = replicate (Z.to_nat (p_block_count p)) false.
Proof.
  intros G H. pose proof (g_count _ _ G). apply bits_ext; [lia|rewrite length_replicate; lia|]. intros i Hi.
  rewrite lookup_replicate_2 by lia. rewrite bit_test_testbit, H, Z.bits_0; [done|].
  pose proof (bit_byte_range ps p i G Hi). rlia.
Qed.

(** The header fields and the records of a new file. *)
Lemma init_header_fields ps p w : geom ps p → is_u64 (p_map_size p) → is_u64 (p_block_size p) →
  let m := w_file (init_header ps p w (p_map_size p)) in
  header_ok p m ∧ record_at m (meta 0) = meta_record 0 0 ∧ record_at m (meta 1) = replicate 24 0 ∧
  (∀ t, record_at m (wal_slot p t) = replicate 24 0) ∧
  (∀ x, range (p_bitmap p) ((p_block_count p + 7) / 8) x → load8 m x = 0).
Proof.
  intros G Htot Hbs. cbn zeta. pose proof (g_count _ _ G) as Hc. pose proof (g_data _ _ G). pose proof (g_wal _ _ G).
  pose proof (g_bitmap _ _ G). pose proof (g_max _ _ G). pose proof (Z.div_pos (p_block_count p + 7) 8 ltac:(lia) ltac:(lia)).
  unfold sizeof_header, sizeof_wal, WAL_ENTRIES in *. unfold init_header. rewrite w_file_sync.
  unfold put, off_magic, off_block_size, off_block_count, off_wal, off_bitmap, off_data, off_total, sizeof_header, sizeof_wal, WAL_ENTRIES.
  cbn [w_file w_trace]. rewrite (wrap64_small (p_block_count p + 7)) by ulia. change (meta 0 + 16) with 72.
  set (m0 := w_file w). set (m8 := store_bytes (store_bytes _ 40 _) 48 _).
  set (m10 := store_bytes (store_bytes m8 _ _) (p_bitmap p) _). set (crc := meta_crc m10 (meta 0)).
  set (m := store_bytes m10 72 (le_bytes 8 crc)).
  assert (∀ b n, 56 ≤ b → b + Z.of_nat n ≤ 104 → load_bytes m8 b n = replicate n 0) as Hz.
  { intros b n Hb1 Hb2. unfold m8. peel_bytes. apply load_bytes_zeros; lia. }
  assert (∀ b n, 56 ≤ b → b + Z.of_nat n ≤ 104 → load_bytes m10 b n = replicate n 0) as Hz10.
  { intros b n Hb1 Hb2. unfold m10. peel_bytes. by apply Hz. }
  assert (crc = fnv1a (replicate 16 0)) as Ecrc by (unfold crc, meta_crc; rewrite Hz10; [done|unfold meta; lia|unfold meta; simpl; lia]).
  assert (record_at m (meta 0) = meta_record 0 0) as Em0.
  { unfold record_at, meta. change (56 + 0 * sizeof_meta) with 56. change 24%nat with (16 + 8)%nat. rewrite load_bytes_app.
    change (56 + Z.of_nat 16) with 72. unfold m. rewrite load_bytes_store_out by (rewrite length_le_bytes; lia).
    rewrite Hz10 by (simpl; lia). rewrite <- (length_le_bytes 8 crc) at 2.
    rewrite load_bytes_store_bytes by apply le_bytes_byte. rewrite Ecrc. reflexivity. }
  assert (record_at m (meta 1) = replicate 24 0) as Em1.
  { unfold record_at, meta. change (56 + 1 * sizeof_meta) with 80. unfold m. rewrite load_bytes_store_out by (rewrite length_le_bytes; lia).
    apply Hz10; simpl; lia. }
  assert (∀ t, record_at m (wal_slot p t) = replicate 24 0) as Ewal.
  { intros t. pose proof (wal_slot_range ps p t G). unfold record_at, m, m10. peel_bytes. apply load_bytes_zeros; [lia|].
    unfold wal_slot, sizeof_wal, WAL_ENTRIES in *. pose proof (Z.mod_pos_bound t 256 ltac:(lia)). lia. }
  split; [|split; [exact Em0|split; [exact Em1|split; [exact Ewal|]]]].
  - assert (∀ b, b + 8 ≤ 56 → load64 m b = load64 m8 b) as Hhd by (intros b Hb; unfold m, m10; by peel).
    unfold header_ok, off_magic, off_block_size, off_block_count, off_wal, off_bitmap, off_data, off_total.
    rewrite !Hhd by lia. clearbody m10 m. unfold m8. clear Hz Hhd m8.
    repeat (split; [peel; rewrite load64_store_le by (unfold is_u64, POOL_MAGIC in *; lia); reflexivity|]).
    peel. by rewrite load64_store_le.
  - intros x Hx.
    assert (load_bytes m x 1 = replicate 1 0) as Hx1.
    { unfold m, m10. rewrite load_bytes_store_out by (rewrite length_le_bytes; rlia). apply load_bytes_zeros; rlia. }
    by injection Hx1.
Qed.

Lemma init_header_clean ps p w : geom ps p → is_u64 (p_map_size p) → is_u64 (p_block_size p) →
  clean p (w_file (init_header ps p w (p_map_size p))) 0 0 (replicate (Z.to_nat (p_block_count p)) false).
Proof.
  intros G Htot Hbs. destruct (init_header_fields ps p w G Htot Hbs) as (Hh & Em0 & Em1 & Ewal & Hbit).
  split; [done|]. split; [|split; [|by apply (zero_bits ps)]].
  - unfold meta_ok. change (1 - 0) with 1. rewrite Em0, Em1.
    destruct (meta_record_spec 0 0 ltac:(unfold is_u64; lia)) as (_ & Hv & Hs). rewrite Hv, Hs.
    assert (rec_valid (replicate 24 0) = false) as -> by (vm_compute; reflexivity).
    split; [by left|]. split; [lia|]. split; [reflexivity|]. split; [reflexivity|]. intros [=].
  - intros t Ht [_ Hs]. rewrite Ewal in Hs. change (rec_seq (replicate 24 0)) with 0 in Hs. lia.
Qed.

(** A new file is created, and every system call succeeds. *)
Definition create_env_ok (env : open_env) : Prop :=
  open1 env = false ∧ open2 env = true ∧ trunc_ok env = true ∧ is_Some (mmap_at env) ∧ calloc_ok env = true.

Lemma create_spec ps env w bs bc dur : page_size_ok ps → create_ok bs bc → create_env_ok env →
  ∃ p w', hf_pool_open ps env w bs bc dur = Ok (Some p, w') ∧
    pool_inv ps p (w_file w') (replicate (Z.to_nat bc) false) ∧
    p_block_count p = bc ∧ p_block_size p = round_up bs 16 ∧ p_next_seq p = 1 ∧
    p_data p + bc * p_block_size p ≤ p_map_size p.
Proof.
  intros Hps [Hbs Hbc] (E1 & E2 & E3 & [map E4] & E5). pose proof (page_size_bounds ps Hps) as (Hpb & _).
  unfold hf_pool_open. rewrite E1, E2, E3, E4, E5. cbn [negb andb].
  rewrite !(proj2 (Z.eqb_neq _ _)) by lia. cbn [orb]. unfold sizeof_wal, WAL_ENTRIES, HF_DEFAULT_ALIGN.
  rewrite hf_align_up_16 by lia. pose proof (round_up_ge bs 16 ltac:(lia)) as R1. pose proof (round_up_lt bs 16 ltac:(lia)) as R2.
  set (bs' := round_up bs 16) in *. assert (0 < bs' * bc ≤ 2 ^ 61) as Hprod by nia.
  rewrite (hf_align_up_page (24 * 256) ps) by (done || lia). rewrite (wrap64_small (bc + 7)) by ulia.
  pose proof (Z.div_pos (bc + 7) 8 ltac:(lia) ltac:(lia)). pose proof (Z.div_le_upper_bound (bc + 7) 8 (2 ^ 30) ltac:(lia) ltac:(lia)).
  rewrite (hf_align_up_page ((bc + 7) / 8) ps) by (done || lia). rewrite (wrap64_small (bs' * bc)) by ulia.
  rewrite (hf_align_up_page (bs' * bc) ps) by (done || lia).
  pose proof (round_up_ge (24 * 256) ps ltac:(lia)). pose proof (round_up_lt (24 * 256) ps ltac:(lia)).
  pose proof (round_up_ge ((bc + 7) / 8) ps ltac:(lia)). pose proof (round_up_lt ((bc + 7) / 8) ps ltac:(lia)).
  pose proof (round_up_ge (bs' * bc) ps ltac:(lia)). pose proof (round_up_lt (bs' * bc) ps ltac:(lia)).
  rewrite (wrap64_small (ps + round_up (24 * 256) ps)) by ulia.
  rewrite (wrap64_small (ps + round_up (24 * 256) ps + _)) by ulia.
  rewrite (wrap64_small (ps + round_up (24 * 256) ps + _ + _)) by ulia.
  set (p := Pool _ _ _ _ _ _ _ _ _ _ _). eexists p, _. split; [reflexivity|].
  assert (geom ps p) as G.
  { split; unfold p, sizeof_header, sizeof_wal, WAL_ENTRIES; cbn; try done; lia. }
  split_and!; try done; [|cbn; lia].
  split; [done|]. split; [|cbn; by rewrite (count_if_const id false); [|intros b Hb; apply elem_of_replicate in Hb as [-> _]]].
  apply (init_header_clean ps p w G); unfold is_u64, p; cbn; lia.
Qed.

(** ** Crashes in an operation *)

Definition op_tears (p : hf_persistent_pool) (m : mem) (o : pool_op) : Prop :=
  match o with
  | PAlloc => match first_free (bits_of p m) with
              | Some k => commit_tears p m WAL_OP_ALLOC (Z.of_nat k)
              | None => True
              end
  | PFree i => commit_tears p m WAL_OP_FREE i
  end.

Lemma pool_inv_crashed ps p m bits : pool_inv ps p m bits → p_next_seq p ≤ 2 ^ 62 → crashed p m bits.
Proof. intros (_ & Hc & _) Hs. exists (p_active_meta p), (p_next_seq p - 1). left. split; [lia|done]. Qed.

(** An operation is one commit or nothing, and if a commit its tears are those
    of the operation. *)
Lemma run_op_cases ps p w bits o : pool_inv ps p (w_file w) bits → p_block_count p < 2 ^ 32 → pool_op_ok o →
  (run_op ps p w o = (p, w) ∧ abs_op bits o = bits) ∨
  ∃ op index, 0 ≤ op < 2 ^ 32 ∧ 0 ≤ index < p_block_count p ∧
    run_op ps p w o = commit ps p w op index ∧ abs_op bits o = apply_bits op index bits ∧
    (op_tears p (w_file w) o ↔ commit_tears p (w_file w) op index).
Proof.
  intros Hinv Hc Ho. pose proof Hinv as (G & (_ & _ & _ & Hb) & _). pose proof (g_count _ _ G).
  assert (Z.of_nat (length bits) = p_block_count p) as Hlen by (rewrite <- Hb, length_bits; lia).
  destruct o as [|i]; cbn [run_op abs_op op_tears].
  - rewrite (pool_allocate_eq ps p w bits Hinv Hc), Hb. destruct (first_free bits) as [k|] eqn:E; [right|by left].
    apply first_free_Some in E as [Hk%lookup_lt_Some _]. exists WAL_OP_ALLOC, (Z.of_nat k).
    split; [unfold WAL_OP_ALLOC; lia|]. split; [lia|]. split; [|done]. by destruct (commit _ _ _ _ _).
  - rewrite (pool_free_eq ps p w bits i Hinv Ho). case_bool_decide as E; [right|by left].
    apply lookup_lt_Some in E. simpl in Ho. exists WAL_OP_FREE, i.
    split; [unfold WAL_OP_FREE; lia|]. split; [lia|]. done.
Qed.

Lemma run_op_spec ps p m bits o p' w' : pool_inv ps p m bits → p_block_count p < 2 ^ 32 → p_next_seq p < 2 ^ 62 → pool_op_ok o →
  run_op ps p (World m []) o = (p', w') →
  pool_inv ps p' (w_file w') (abs_op bits o) ∧ same_geom p p' ∧ p_next_seq p' ≤ p_next_seq p + 1 ∧
  (∀ x, p_data p ≤ x → load8 (w_file w') x = load8 m x) ∧
  (∀ t' m', t' `prefix_of` w_trace w' → crash m t' m' → op_tears p m o →
     (∀ x, p_data p ≤ x → load8 m' x = load8 m x) ∧
     (crashed p m' (abs_op bits o) ∨ crashed p m' bits ∧ t' ≠ w_trace w')).
Proof.
  intros Hinv Hc Hseq Ho Hrun. destruct (run_op_cases ps p (World m []) bits o Hinv Hc Ho) as [[E ->]|(op & index & Hop & Hidx & E & -> & Et)].
  - rewrite E in Hrun. injection Hrun as <- <-. cbn [w_file w_trace]. split_and!; try done; [lia|].
    intros t' m' Hpre Hcr _. apply prefix_nil_inv in Hpre as ->. pose proof (crash_nil _ _ Hcr) as Hx. split; [by intros|].
    left. destruct (pool_inv_crashed ps p m bits Hinv ltac:(lia)) as (a & W & [[HW Hcl]|(HW & op & index & ? & ? & Hp)]).
    + exists a, W. left. split; [done|]. by apply (clean_ext p m).
    + exists (p_active_meta p), (p_next_seq p - 1). left. split; [lia|]. apply (clean_ext p m); [done|]. by destruct Hinv as (_ & ? & _).
  - destruct (commit_spec ps p (World m []) bits op index (p_active_meta p) (p_next_seq p - 1) _ Hinv ltac:(lia) Hop Hidx eq_refl ltac:(lia) eq_refl)
      as (q & w2 & t1 & t2 & Ec & [Hf Htr] & Hset & Hq & Hinv' & Hdata & Hcr).
    rewrite E, Ec in Hrun. injection Hrun as <- <-. cbn [w_file w_trace app] in *.
    split; [done|]. split; [by rewrite Hq|]. split; [rewrite Hq; cbn; lia|].
    split; [intros x Hx; rewrite Hf; by apply run_untouched, Hdata|].
    intros t' m' Hpre Hcr' Htear. rewrite Htr in *. apply Et in Htear as [T1 T2]. pose proof Hinv as (_ & (_ & _ & _ & Hb) & _). rewrite Hb in T2.
    replace (p_next_seq p) with (p_next_seq p - 1 + 1) in T1, T2 by lia. split.
    + intros x Hx. specialize (Hcr' x). destruct Hpre as [t3 E3]. specialize (Hdata x Hx). rewrite E3, stored_app in Hdata.
      apply app_nil in Hdata as [Hd _]. rewrite cands_untouched in Hcr' by done. by apply list_elem_of_singleton in Hcr'.
    + destruct (Hcr t' m' Hpre Hcr' T1 T2) as [[Hcl Hlen]|[Hp|Hcl]].
      * right. split; [|intros ->; rewrite length_app in Hlen; lia]. exists (p_active_meta p), (p_next_seq p - 1). left. split; [lia|done].
      * left. exists (p_active_meta p), (p_next_seq p - 1). right. split; [lia|]. by exists op, index.
      * left. exists (1 - p_active_meta p), (p_next_seq p - 1 + 1). left. split; [lia|done].
Qed.
