(* ===== verification/PoolClaims.v ===== *)
(** * The persistent pool: claims

    Crash atomicity, refinement of the bits, allocation and free, closing and
    reopening, what the checksum detects, and the truncated index. *)

From S2P Require Import Prelude Memory Platform PersistentPool PoolTrace PoolProofs PoolSpec.

(** ** A pool of eight blocks *)

Definition ex_create_env : open_env := OpenEnv false true 0 true (Some (2 ^ 20)) true.
Definition ex_open_env : open_env := OpenEnv true true (2 ^ 20) true (Some (2 ^ 20)) true.

Definition ex_file_pool : hf_persistent_pool :=
  Pool (2 ^ 20) 20480 4096 12288 16384 32 8 0 1 0 HF_DURABILITY_FAST.

Definition ex_pool_file : mem := w_file (init_header 4096 ex_file_pool (World ∅ []) (p_map_size ex_file_pool)).

Lemma ex_file_pool_geom : geom 4096 ex_file_pool.
Proof. split; [apply page_4096_ok|by vm_compute..]. Qed.

Lemma ex_file_pool_inv : pool_inv 4096 ex_file_pool ex_pool_file (replicate 8 false).
Proof.
  split; [exact ex_file_pool_geom|]. split; [|reflexivity].
  change (p_active_meta ex_file_pool) with 0. change (p_next_seq ex_file_pool - 1) with 0.
  change 8%nat with (Z.to_nat (p_block_count ex_file_pool)). unfold ex_pool_file. apply (init_header_clean _ _ _ ex_file_pool_geom); by split.
Qed.

Lemma ex_env_ok : env_ok ex_open_env.
Proof. split; [done|]. split; [unfold sizeof_header; cbn; lia|]. split; [cbn; eauto|done]. Qed.

(** The two records of the first allocation: every torn mix is detected. *)
Lemma ex_tears : op_tears ex_file_pool ex_pool_file PAlloc.
Proof.
  pose proof ex_file_pool_inv as (_ & (_ & _ & _ & Hb) & _). unfold op_tears. rewrite Hb.
  change (first_free (replicate 8 false)) with (Some 0%nat). unfold commit_tears. rewrite Hb.
  destruct (init_header_fields 4096 ex_file_pool (World ∅ []) ex_file_pool_geom ltac:(by split) ltac:(by split)) as (_ & _ & Em1 & Ewal & _).
  change (1 - p_active_meta ex_file_pool) with 1. unfold ex_pool_file. rewrite Ewal, Em1. split; vm_compute; reflexivity.
Qed.

(** ** Claims *)

(** C1. Commits are atomic under crashes.  Let an allocation or free run on a
    consistent pool of fewer than 2^32 blocks whose sequence number is below
    2^62, let every [msync] and [fdatasync] take effect (the code discards
    their results; [pool_lost_msync] shows what a failed one costs), let the
    machine stop at any point of its sequence of stores and syncs, and let
    every byte of the file then hold any of the values it had since the last
    sync that covered it (so stores may be lost, reordered and torn), as long
    as the checksums tell the torn mixes of the two records being written from
    whole ones.  Then [hf_pool_open] succeeds on what is left and gives a
    consistent pool whose allocated blocks are those from before or from after
    the operation - from after, if it had returned - with the data untouched;
    and the same holds if the machine stops again during that recovery. *)
Theorem pool_crash_atomic ps p m bits o p1 w1 ok ok2 t' m' env bs bc dur :
  pool_inv ps p m bits → p_block_count p < 2 ^ 32 → p_next_seq p < 2 ^ 62 → pool_op_ok o →
  syncs_ok ok → syncs_ok ok2 → run_op ps p (World m []) o = (p1, w1) →
  t' `prefix_of` w_trace w1 → crash_given ok m t' m' → op_tears p m o → env_ok env →
  ∃ q w2 bits', hf_pool_open ps env (World m' []) bs bc dur = Ok (Some q, w2) ∧
    pool_inv ps q (w_file w2) bits' ∧ (bits' = abs_op bits o ∨ bits' = bits ∧ t' ≠ w_trace w1) ∧
    (∀ x, p_data p ≤ x → load8 (w_file w2) x = load8 m x) ∧
    (∀ t2 m2, t2 `prefix_of` w_trace w2 → crash_given ok2 m' t2 m2 → recovery_tears m' bits' = true →
       ∃ q2 w3, hf_pool_open ps env (World m2 []) bs bc dur = Ok (Some q2, w3) ∧ pool_inv ps q2 (w_file w3) bits').
Proof.
  intros Hinv Hc Hseq Ho Hok Hok2 Hrun Hpre Hcr%(crash_given_crash _ _ _ _ Hok) Htear Henv. pose proof Hinv as (G & _).
  destruct (run_op_spec ps p m bits o p1 w1 Hinv Hc Hseq Ho Hrun) as (_ & _ & _ & _ & Hcrash).
  destruct (Hcrash t' m' Hpre Hcr Htear) as [Hdata Hcase].
  assert (∃ bits', crashed p m' bits' ∧ (bits' = abs_op bits o ∨ bits' = bits ∧ t' ≠ w_trace w1)) as (bits' & Hcd & Hb).
  { destruct Hcase as [H|[H ?]]; eauto. }
  destruct (reopen_spec ps env p m' bits' bs bc dur G Henv Hcd) as (q & w2 & Eo & Hinv2 & _ & Hd2 & Hcr2).
  exists q, w2, bits'. split_and!; try done.
  - intros x Hx. by rewrite Hd2, Hdata.
  - intros t2 m2 Hp2 Hc2%(crash_given_crash _ _ _ _ Hok2) Ht2.
    destruct (reopen_spec ps env p m2 bits' bs bc dur G Henv (Hcr2 t2 m2 Hp2 Hc2 Ht2)) as (q2 & w3 & E3 & Hinv3 & _). eauto.
Qed.

(** Witness of C1: power fails in the first allocation, after the record was
    logged and before the bitmap is synced. *)
Lemma pool_crash_atomic_witness :
  let w1 := (run_op 4096 ex_file_pool (World ex_pool_file []) PAlloc).2 in
  let t' := take 6 (w_trace w1) in
  ∃ q w2 bits', hf_pool_open 4096 ex_open_env (World (run ex_pool_file t') []) 0 0 HF_DURABILITY_FAST = Ok (Some q, w2) ∧
    pool_inv 4096 q (w_file w2) bits' ∧ (bits' = abs_op (replicate 8 false) PAlloc ∨ bits' = replicate 8 false).
Proof.
  intros w1 t'.
  destruct (pool_crash_atomic 4096 ex_file_pool ex_pool_file (replicate 8 false) PAlloc
    (run_op 4096 ex_file_pool (World ex_pool_file []) PAlloc).1 w1 (λ _, true) (λ _, true) t' (run ex_pool_file t')
    ex_open_env 0 0 HF_DURABILITY_FAST)
    as (q & w2 & bits' & E & Hinv & Hb & _).
  - exact ex_file_pool_inv.
  - cbn. lia.
  - cbn. lia.
  - exact I.
  - intros i. reflexivity.
  - intros i. reflexivity.
  - unfold w1. destruct (run_op 4096 ex_file_pool (World ex_pool_file []) PAlloc). reflexivity.
  - apply prefix_take.
  - apply crash_crash_given; [intros i; reflexivity|apply crash_run].
  - exact ex_tears.
  - exact ex_env_ok.
  - exists q, w2, bits'. split; [exact E|]. split; [exact Hinv|]. destruct Hb as [Hb|[Hb _]]; [left|right]; exact Hb.
Defined.

(** ** Refinement *)

Definition abs_step (bits bits' : list bool) : Prop := ∃ o, bits' = abs_op bits o.

(** A session: operations, and crashes in the middle of an operation followed
    by opening the file again. *)
Inductive pool_step (ps : Z) : hf_persistent_pool * mem → hf_persistent_pool * mem → Prop :=
| step_op p m o p' w' : p_next_seq p < 2 ^ 62 → pool_op_ok o →
    run_op ps p (World m []) o = (p', w') → pool_step ps (p, m) (p', w_file w')
| step_crash p m o p' w' ok t' m' env bs bc dur q w2 : p_next_seq p < 2 ^ 62 → pool_op_ok o → syncs_ok ok →
    run_op ps p (World m []) o = (p', w') → t' `prefix_of` w_trace w' → crash_given ok m t' m' → op_tears p m o →
    env_ok env → hf_pool_open ps env (World m' []) bs bc dur = Ok (Some q, w2) → pool_step ps (p, m) (q, w_file w2).

Lemma pool_step_refines ps s s' bits : pool_step ps s s' → p_block_count s.1 < 2 ^ 32 → pool_inv ps s.1 s.2 bits →
  p_block_count s'.1 < 2 ^ 32 ∧ ∃ bits', rtc abs_step bits bits' ∧ pool_inv ps s'.1 s'.2 bits'.
Proof.
  intros [p m o p' w' Hseq Ho Hrun|p m o p' w' ok t' m' env bs bc dur q w2 Hseq Ho Hok Hrun Hpre Hcr Ht Henv Hopen] Hc Hinv; cbn [fst snd] in *;
    destruct (run_op_spec ps p m bits o p' w' Hinv Hc Hseq Ho Hrun) as (Hinv' & (_ & _ & _ & _ & _ & Ec) & _ & _ & Hcrash).
  - split; [by rewrite Ec|]. exists (abs_op bits o). split; [|done]. apply rtc_once. by exists o.
  - apply (crash_given_crash _ _ _ _ Hok) in Hcr. destruct (Hcrash t' m' Hpre Hcr Ht) as [_ Hcase]. pose proof Hinv as (G & _).
    assert (∃ bits', crashed p m' bits' ∧ rtc abs_step bits bits') as (bits' & Hcd & Hb).
    { destruct Hcase as [H|[H _]]; eexists; (split; [exact H|]); [apply rtc_once; by exists o|reflexivity]. }
    destruct (reopen_spec ps env p m' bits' bs bc dur G Henv Hcd) as (q2 & w3 & E & Hinv2 & (_ & _ & _ & _ & _ & Eq) & _).
    rewrite Hopen in E. injection E as <- <-. split; [by rewrite Eq|]. eauto.
Qed.



(** Creating, closing and opening again.  A created pool is consistent
    with no block in use and its blocks lie inside the file; and closing a
    consistent pool and opening its file gives back the same pool - geometry,
    allocated blocks, use count and sequence number - and writes nothing. *)
Theorem pool_reopen ps env env' w bs bc dur p m bits bs' bc' dur' :
  page_size_ok ps → create_ok bs bc → create_env_ok env →
  pool_inv ps p m bits → p_next_seq p ≤ 2 ^ 62 → env_ok env' →
  (∃ p0 w0, hf_pool_open ps env w bs bc dur = Ok (Some p0, w0) ∧
     pool_inv ps p0 (w_file w0) (replicate (Z.to_nat bc) false) ∧
     p_block_count p0 = bc ∧ bs ≤ p_block_size p0 ∧ p_data p0 + bc * p_block_size p0 ≤ p_map_size p0) ∧
  (∃ q w2 map, hf_pool_open ps env' (World (w_file (hf_pool_close (Some p) (World m []))) []) bs' bc' dur' = Ok (Some q, w2) ∧
     w2 = World m [] ∧ pool_inv ps q m bits ∧ same_geom p q ∧
     q = Pool map (p_map_size p) (p_wal p) (p_bitmap p) (p_data p) (p_block_size p) (p_block_count p)
           (p_used_blocks p) (p_next_seq p) (p_active_meta p) dur').
Proof.
  intros Hps Hcr Henv Hinv Hseq Henv'. split.
  - destruct (create_spec ps env w bs bc dur Hps Hcr Henv) as (p0 & w0 & E & Hi & H1 & H2 & _ & H3).
    exists p0, w0. split_and!; try done. rewrite H2. apply round_up_ge. lia.
  - assert (w_file (hf_pool_close (Some p) (World m [])) = m) as ->.
    { unfold hf_pool_close, hf_pool_flush_all. by destruct (p_dur p). }
    pose proof Hinv as (G & Hc & Hu). pose proof Hc as (Hh & _).
    destruct (open_existing ps env' p (World m []) bs' bc' dur' Henv' Hh) as (map & _ & ->).
    pose proof (handle_same p map dur') as Hs.
    rewrite (recover_clean ps _ (World m []) _ _ bits (geom_same _ _ _ Hs G) (clean_same _ _ _ _ _ _ Hs Hc)) by lia.
    cbn [mbind outcome_bind]. eexists _, _, map. split; [reflexivity|]. split; [done|].
    assert (reopened (handle p map dur') (p_active_meta p) (p_next_seq p - 1) bits =
      Pool map (p_map_size p) (p_wal p) (p_bitmap p) (p_data p) (p_block_size p) (p_block_count p)
           (p_used_blocks p) (p_next_seq p) (p_active_meta p) dur') as Eq.
    { unfold reopened, handle, set_next_seq, set_used_blocks, set_active_meta. cbn. rewrite Hu. f_equal. lia. }
    rewrite Eq. split; [|done]. rewrite <- Eq. apply reopened_inv; [by apply (geom_same ps p)|by apply (clean_same p)].
Qed.

(** The example pool, closed and opened again. *)
Lemma pool_reopen_witness : ∃ q w2,
  hf_pool_open 4096 ex_open_env (World (w_file (hf_pool_close (Some ex_file_pool) (World ex_pool_file []))) []) 0 0 HF_DURABILITY_FULL =
    Ok (Some q, w2) ∧ p_used_blocks q = 0 ∧ p_next_seq q = 1.
Proof.
  destruct (pool_reopen 4096 ex_create_env ex_open_env (World ∅ []) 20 8 HF_DURABILITY_FAST ex_file_pool ex_pool_file (replicate 8 false)
    0 0 HF_DURABILITY_FULL) as [_ (q & w2 & map & E & _ & _ & _ & Eq)].
  - apply page_4096_ok.
  - split; lia.
  - split; [reflexivity|]. split; [reflexivity|]. split; [reflexivity|]. split; [exists (2 ^ 20); reflexivity|reflexivity].
  - exact ex_file_pool_inv.
  - cbn. lia.
  - exact ex_env_ok.
  - exists q, w2. split; [exact E|]. rewrite Eq. split; reflexivity.
Defined.

Lemma used_apply (bits : list bool) op k (b : bool) : bits !! Z.to_nat k = Some b →
  used_of (apply_bits op k bits) = used_of bits - (if b then 1 else 0) + (if op =? WAL_OP_ALLOC then 1 else 0).
Proof. intros H. unfold used_of, apply_bits. rewrite (count_if_insert id _ _ _ _ H). by destruct b. Qed.

(** C26. Allocation and free of the persistent pool, every branch.  On a
    consistent pool of fewer than 2^32 blocks whose next sequence number is
    below 2^62, allocation fails exactly when every block is in use, and
    changes nothing then; otherwise it takes the free block with the lowest
    index, returns the address [hf_pool_at] gives for it, counts it and leaves
    the other blocks and all data alone.  Freeing a block in use gives it back,
    after which [hf_pool_at] answers null for it; freeing any other index
    changes nothing.  The pool is consistent again in every case. *)
Theorem pool_operations_correct ps p m bits i :
  pool_inv ps p m bits → p_block_count p < 2 ^ 32 → p_next_seq p < 2 ^ 62 → 0 ≤ i →
  match hf_pool_allocate ps p (World m []) with
  | (p', w', None) => p' = p ∧ w_file w' = m ∧ Forall (λ b, b = true) bits
  | (p', w', Some (ptr, k)) =>
      bits !! Z.to_nat k = Some false ∧ (∀ j, (j < Z.to_nat k)%nat → bits !! j = Some true) ∧
      pool_inv ps p' (w_file w') (<[Z.to_nat k := true]> bits) ∧
      hf_pool_used_blocks p' = hf_pool_used_blocks p + 1 ∧ hf_pool_at p' w' k = ptr ∧
      (∀ x, p_data p ≤ x → load8 (w_file w') x = load8 m x)
  end ∧
  let '(p', w') := hf_pool_free ps p (World m []) i in
  if bool_decide (bits !! Z.to_nat i = Some true)
  then pool_inv ps p' (w_file w') (<[Z.to_nat i := false]> bits) ∧
       hf_pool_used_blocks p' = hf_pool_used_blocks p - 1 ∧ hf_pool_at p' w' i = NULL ∧
       (∀ x, p_data p ≤ x → load8 (w_file w') x = load8 m x)
  else p' = p ∧ w_file w' = m.
Proof.
  intros Hinv Hc Hseq Hi. pose proof Hinv as (G & (_ & _ & _ & Hb) & Hu). pose proof (g_count _ _ G).
  assert (Z.of_nat (length bits) = p_block_count p) as Hlen by (rewrite <- Hb, length_bits; lia). split.
  - rewrite (pool_allocate_eq ps p (World m []) bits Hinv Hc). destruct (first_free bits) as [k|] eqn:Ek.
    2: { apply first_free_None in Ek. done. }
    pose proof Ek as (Hk & Hlow)%first_free_Some. pose proof (lookup_lt_Some _ _ _ Hk).
    destruct (run_op ps p (World m []) PAlloc) as [p' w'] eqn:Erun. pose proof Erun as Ec.
    cbn [run_op] in Ec. rewrite (pool_allocate_eq ps p (World m []) bits Hinv Hc), Ek in Ec.
    destruct (run_op_spec ps p m bits PAlloc p' w' Hinv Hc Hseq I Erun) as (Hinv' & (_ & _ & _ & _ & _ & Ecnt) & _ & Hdata & _).
    cbn [abs_op] in Hinv'. rewrite Ek in Hinv'. destruct (commit _ _ _ _ _) as [q w2]. cbn in Ec. injection Ec as -> ->.
    pose proof Hinv' as (_ & (_ & _ & _ & Hb') & Hu'). pose proof (used_apply bits WAL_OP_ALLOC (Z.of_nat k) false) as Hua.
    rewrite Nat2Z.id in *. unfold apply_bits in *. change (WAL_OP_ALLOC =? WAL_OP_ALLOC) with true in *. rewrite Nat2Z.id in *.
    split_and!; try done.
    + unfold hf_pool_used_blocks. rewrite Hu', Hu, Hua by done. lia.
    + unfold hf_pool_at. rewrite Z.geb_leb, (proj2 (Z.leb_gt _ _)) by lia.
      pose proof (bits_lookup p' (w_file w') (Z.of_nat k) ltac:(lia)) as Hbt. rewrite Hb', Nat2Z.id, list_lookup_insert_eq in Hbt by lia.
      injection Hbt as <-. done.
  - destruct (hf_pool_free ps p (World m []) i) as [p' w'] eqn:Ef.
    destruct (run_op_spec ps p m bits (PFree i) p' w' Hinv Hc Hseq Hi Ef) as (Hinv' & (_ & _ & _ & _ & _ & Ecnt) & _ & Hdata & _).
    rewrite (pool_free_eq ps p (World m []) bits i Hinv Hi) in Ef. cbn [abs_op] in Hinv'.
    case_bool_decide as Ebit; [|injection Ef as <- <-; done].
    pose proof (lookup_lt_Some _ _ _ Ebit). pose proof Hinv' as (_ & (_ & _ & _ & Hb') & Hu').
    pose proof (used_apply bits WAL_OP_FREE i true Ebit) as Hua.
    change (WAL_OP_FREE =? WAL_OP_ALLOC) with false in *. split_and!; try done.
    + unfold hf_pool_used_blocks. rewrite Hu', Hu, Hua. lia.
    + unfold hf_pool_at. pose proof (bits_lookup p' (w_file w') i ltac:(lia)) as Hbt.
      rewrite Hb' in Hbt. unfold apply_bits in Hbt. rewrite list_lookup_insert_eq in Hbt by lia.
      injection Hbt as Hbt. rewrite <- Hbt. by rewrite orb_true_r.
Qed.

(** Witness of C26: the first allocation of the example pool. *)
Lemma pool_operations_correct_witness : ∃ p' w',
  hf_pool_allocate 4096 ex_file_pool (World ex_pool_file []) = (p', w', Some (2 ^ 20 + 16384, 0)) ∧
  hf_pool_used_blocks p' = 1 ∧ hf_pool_at p' w' 0 = 2 ^ 20 + 16384.
Proof.
  destruct (pool_operations_correct 4096 ex_file_pool ex_pool_file (replicate 8 false) 0) as [H _].
  - exact ex_file_pool_inv.
  - cbn. lia.
  - cbn. lia.
  - lia.
  - assert ((hf_pool_allocate 4096 ex_file_pool (World ex_pool_file [])).2 = Some (2 ^ 20 + 16384, 0)) as E by (vm_compute; reflexivity).
    destruct (hf_pool_allocate 4096 ex_file_pool (World ex_pool_file [])) as [[p' w'] r]. cbn in E. subst r.
    destruct H as (_ & _ & _ & Hu & Hat & _). exists p', w'. split; [reflexivity|]. split; [exact Hu|exact Hat].
Defined.

(** ** The checksum *)

(** The FNV prime is odd, so multiplying by it can be undone modulo 2^64. *)
Lemma fnv_mul_inj x y : is_u64 x → is_u64 y → x *% 1099511628211 = y *% 1099511628211 → x = y.
Proof.
  intros Hx Hy E. assert (∀ z, is_u64 z → (z *% 1099511628211) *% 14886173955864302971 = z) as Hinv.
  { intros z Hz. unfold wrap64. rewrite Zmult_mod_idemp_l, <- Z.mul_assoc, <- Zmult_mod_idemp_r.
    change ((1099511628211 * 14886173955864302971) mod 2 ^ 64) with 1. rewrite Z.mul_1_r. by apply wrap64_small. }
  rewrite <- (Hinv x Hx), E. by apply Hinv.
Qed.

Lemma lxor_cancel x y b : Z.lxor x b = Z.lxor y b → x = y.
Proof.
  intros E. rewrite <- (Z.lxor_0_r x), <- (Z.lxor_0_r y), <- (Z.lxor_nilpotent b), <- !Z.lxor_assoc. by rewrite E.
Qed.

Lemma lxor_byte_u64 h b : is_u64 h → 0 ≤ b < 2 ^ 8 → is_u64 (Z.lxor h b).
Proof.
  intros Hh Hb. unfold is_u64 in *. assert (0 ≤ Z.lxor h b) by (apply Z.lxor_nonneg; lia). split; [done|].
  destruct (decide (Z.lxor h b = 0)) as [->|]; [lia|]. apply Z.log2_lt_pow2; [lia|].
  pose proof (Z.log2_lxor h b ltac:(lia) ltac:(lia)).
  assert (Z.log2 h < 64) by (destruct (decide (h = 0)) as [->|]; [cbn; lia|apply Z.log2_lt_pow2; lia]).
  assert (Z.log2 b < 64) by (destruct (decide (b = 0)) as [->|]; [cbn; lia|apply Z.log2_lt_pow2; lia]). lia.
Qed.

Lemma fnv_fold_inj bs : Forall (λ b, 0 ≤ b < 2 ^ 8) bs → ∀ h h', is_u64 h → is_u64 h' →
  foldl fnv_step h bs = foldl fnv_step h' bs → h = h'.
Proof.
  induction 1 as [|b bs Hb _ IH]; intros h h' Hh Hh' E; [done|]. cbn [foldl] in E.
  apply IH in E; [|apply wrap64_range..]. apply fnv_mul_inj in E; [|by apply lxor_byte_u64..]. by apply lxor_cancel in E.
Qed.

Lemma fnv_fold_u64 bs h : is_u64 h → is_u64 (foldl fnv_step h bs).
Proof. destruct bs as [|b bs _] using rev_ind; [done|]. intros _. rewrite foldl_app. apply wrap64_range. Qed.

(** Inputs that differ in one byte have different checksums. *)
Lemma fnv1a_one_byte bs i b v : Forall (λ b, 0 ≤ b < 2 ^ 8) bs → bs !! i = Some b → 0 ≤ v < 2 ^ 8 → v ≠ b →
  fnv1a (<[i := v]> bs) ≠ fnv1a bs.
Proof.
  intros Hbs Hi Hv Hne E. rewrite <- (take_drop_middle bs i b Hi) in E at 2.
  rewrite insert_take_drop in E by (by eapply lookup_lt_Some).
  unfold fnv1a in E. rewrite !foldl_app in E. cbn [foldl] in E.
  assert (is_u64 (foldl fnv_step 1469598103934665603 (take i bs))) as Hh by (apply fnv_fold_u64; unfold is_u64; lia).
  pose proof (Forall_lookup_1 _ _ _ _ Hbs Hi) as Hb. simpl in Hb.
  apply fnv_fold_inj in E; [|by apply Forall_drop|apply wrap64_range..].
  apply fnv_mul_inj in E; [|by apply lxor_byte_u64..]. rewrite !(Z.lxor_comm (foldl _ _ _)) in E. by apply lxor_cancel in E.
Qed.

(** Changing one byte of a valid record makes it invalid. *)
Lemma rec_one_byte r i b v :
  length r = 24%nat → Forall (λ b, 0 ≤ b < 2 ^ 8) r → rec_valid r = true → r !! i = Some b → 0 ≤ v < 2 ^ 8 → v ≠ b →
  rec_valid (<[i := v]> r) = false.
Proof.
  intros Hl Hb Hv Hi Hvr Hne. destruct (rec_valid (<[i := v]> r)) eqn:Hv'; [|done]. exfalso.
  assert (Forall (λ b, 0 ≤ b < 2 ^ 8) (<[i := v]> r)) as Hb' by (by apply Forall_insert).
  destruct (rec_valid_sealed r Hl Hb Hv) as [_ E]. destruct (rec_valid_sealed (<[i := v]> r)) as [_ E']; [by rewrite length_insert|done|done|].
  destruct (decide (i < 16)%nat) as [Hlt|Hge].
  - rewrite take_insert_lt in E' by done. rewrite drop_insert_lt, E in E' by done.
    apply (fnv1a_one_byte (take 16 r) i b v); [by apply Forall_take|by rewrite lookup_take_lt|done|done|].
    apply (f_equal le_val) in E'. rewrite !le_val_le_bytes in E'. change (8 * Z.of_nat 8) with 64 in E'.
    rewrite !Z.mod_small in E' by apply fnv1a_range. done.
  - rewrite take_insert_ge in E' by lia. rewrite <- E in E'. apply Hne.
    pose proof (lookup_lt_Some _ _ _ Hi) as Hlt. assert ((<[i := v]> r) !! i = Some v) as Hiv by (by rewrite list_lookup_insert_eq).
    apply (f_equal (λ l, l !! (i - 16)%nat)) in E'. rewrite !lookup_drop in E'.
    replace (16 + (i - 16))%nat with i in E' by lia. congruence.
Qed.

(** The same in the file: byte [x] of the record at [a] is overwritten. *)
Lemma record_damaged m a x v : rec_valid (record_at m a) = true → range a 24 x → 0 ≤ v < 2 ^ 8 → v ≠ load8 m x →
  rec_valid (record_at (store8 m x v) a) = false.
Proof.
  intros Hval Hx Hv Hne. unfold range in Hx.
  assert (record_at m a !! Z.to_nat (x - a) = Some (load8 m x)) as Hi.
  { apply lookup_load_bytes. split; [lia|]. f_equal. lia. }
  replace (record_at (store8 m x v) a) with (<[Z.to_nat (x - a) := v]> (record_at m a)).
  - by apply (rec_one_byte _ _ (load8 m x)); [apply length_load_bytes|apply load_bytes_byte|..].
  - apply list_eq. intros j. destruct (decide (j = Z.to_nat (x - a))) as [->|Hj].
    + rewrite list_lookup_insert_eq by (unfold record_at; rewrite length_load_bytes; lia). symmetry. apply lookup_load_bytes.
      split; [lia|]. replace (a + Z.of_nat (Z.to_nat (x - a))) with x by lia. rewrite load8_store8, decide_True by done. symmetry. by apply Z.mod_small.
    + rewrite list_lookup_insert_ne by done. apply option_eq. intros w. unfold record_at. rewrite !lookup_load_bytes.
      split; intros [Hl ->]; (split; [done|]); [|symmetry]; rewrite load8_store8, decide_False by lia; done.
Qed.

Lemma record_elsewhere m a x v : ¬ range a 24 x → record_at (store8 m x v) a = record_at m a.
Proof.
  intros Hx. apply load_bytes_agree. intros y Hy. rewrite load8_store8, decide_False; [done|]. intros ->. by apply Hx.
Qed.

Lemma e_crc_valid m a : (e_crc m a =? wal_crc m a) = rec_valid (record_at m a).
Proof. unfold e_crc, wal_crc. apply rec_valid_at. Qed.

Lemma m_crc_valid m a : (m_crc m a =? meta_crc m a) = rec_valid (record_at m a).
Proof. unfold m_crc, meta_crc. apply rec_valid_at. Qed.

Lemma best_meta_eq m : best_meta m =
  (let v0 := rec_valid (record_at m (meta 0)) in let v1 := rec_valid (record_at m (meta 1)) in
   let s0 := rec_seq (record_at m (meta 0)) in let s1 := rec_seq (record_at m (meta 1)) in
   if v1 && (negb v0 || (s1 >=? s0)) then (1, s1) else if v0 then (0, s0) else (-1, 0)).
Proof.
  unfold best_meta, m_seq. cbn [foldl]. rewrite !m_crc_valid, !rec_seq_at.
  destruct (rec_valid (record_at m (meta 0))), (rec_valid (record_at m (meta 1))); done.
Qed.

(** The replay loop passes over a record that fails the test. *)
Lemma replay_skips fuel p w s bound mx rp : s ≤ bound →
  rec_valid (record_at (w_file w) (wal_slot p s)) = false →
  replay (S fuel) p w s bound mx rp = replay fuel p w (wrap64 (s + 1)) bound mx rp.
Proof.
  intros Hs Hbad. cbn [replay]. rewrite e_crc_valid, Hbad.
  destruct (Z.leb_spec s bound) as [_|Hlt]; [|lia]. destruct (negb (_ =? s)); reflexivity.
Qed.

Lemma best_meta_damaged m m' i : i = 0 ∨ i = 1 → rec_valid (record_at m' (meta i)) = false →
  record_at m' (meta (1 - i)) = record_at m (meta (1 - i)) →
  best_meta m' = if rec_valid (record_at m (meta (1 - i))) then (1 - i, rec_seq (record_at m (meta (1 - i)))) else (-1, 0).
Proof.
  intros Hi Hbad Hother. rewrite best_meta_eq.
  destruct Hi as [-> | ->]; [change (1 - 0) with 1 in *|change (1 - 1) with 0 in *]; cbv zeta; rewrite Hother, Hbad.
  - by destruct (rec_valid (record_at m (meta 1))).
  - done.
Qed.

(** C34. Recovery sees through the corruption of a single byte, of the content
    or of the checksum.  A log record that was valid and has one of its 24
    bytes changed is passed over by the replay loop: nothing is applied for it
    and the loop goes on with the next sequence number.  A meta slot that was
    valid and has one of its 24 bytes changed is not chosen: [best_meta], from
    which recovery starts, answers the other slot with its sequence number
    when that one is valid, and that there is none otherwise. *)
Theorem recovery_detects_byte m x v :
  0 ≤ v < 2 ^ 8 → v ≠ load8 m x →
  (∀ fuel p tr s bound max_seq replayed, let e := wal_slot p s in
     range e 24 x → e_crc m e = wal_crc m e → s ≤ bound →
     replay (S fuel) p (World (store8 m x v) tr) s bound max_seq replayed =
       replay fuel p (World (store8 m x v) tr) (wrap64 (s + 1)) bound max_seq replayed) ∧
  (∀ i, i = 0 ∨ i = 1 → range (meta i) 24 x → m_crc m (meta i) = meta_crc m (meta i) →
     best_meta (store8 m x v) =
       if m_crc m (meta (1 - i)) =? meta_crc m (meta (1 - i)) then (1 - i, m_seq m (meta (1 - i))) else (-1, 0)).
Proof.
  intros Hv Hne. split.
  - intros fuel p tr s bound mx rp e Hx Hcrc Hs. apply replay_skips; [exact Hs|]. fold e. cbn [w_file].
    apply record_damaged; [|exact Hx|exact Hv|exact Hne]. rewrite <- e_crc_valid, Hcrc. apply Z.eqb_refl.
  - intros i Hi Hx Hcrc. rewrite (best_meta_damaged m _ i Hi).
    + rewrite m_crc_valid. unfold m_seq. rewrite rec_seq_at. reflexivity.
    + apply record_damaged; [|exact Hx|exact Hv|exact Hne]. rewrite <- m_crc_valid, Hcrc. apply Z.eqb_refl.
    + apply record_elsewhere. clear - Hi Hx. unfold meta, sizeof_meta, range in *. destruct Hi as [-> | ->]; lia.
Qed.

(** Witness of C34: the log record of the first allocation with its block
    index changed, and the meta slot of the new pool with its use count
    changed. *)
Lemma recovery_detects_byte_witness :
  let w1 := (run_op 4096 ex_file_pool (World ex_pool_file []) PAlloc).2 in
  replay 2 ex_file_pool (World (store8 (w_file w1) (4096 + 24 + 12) 5) []) 1 1 0 false =
    replay 1 ex_file_pool (World (store8 (w_file w1) (4096 + 24 + 12) 5) []) 2 1 0 false ∧
  best_meta (store8 ex_pool_file 64 9) = (-1, 0).
Proof.
  intros w1. split.
  - apply (recovery_detects_byte (w_file w1) (4096 + 24 + 12) 5).
    + lia.
    + assert ((5 =? load8 (w_file w1) (4096 + 24 + 12)) = false) as H by (vm_compute; reflexivity). by apply Z.eqb_neq.
    + change (wal_slot ex_file_pool 1) with 4120. unfold range. lia.
    + apply Z.eqb_eq. vm_compute. reflexivity.
    + lia.
  - destruct (recovery_detects_byte ex_pool_file 64 9) as [_ H].
    + lia.
    + assert ((9 =? load8 ex_pool_file 64) = false) as H by (vm_compute; reflexivity). by apply Z.eqb_neq.
    + rewrite (H 0); [|by left|unfold range, meta, sizeof_meta; lia|apply Z.eqb_eq; vm_compute; reflexivity].
      assert ((m_crc ex_pool_file (meta (1 - 0)) =? meta_crc ex_pool_file (meta (1 - 0))) = false) as -> by (vm_compute; reflexivity).
      reflexivity.
Defined.

(** ** Syncs that fail *)

(** The code takes no notice when a sync fails.  When the [msync] of the bitmap
    (the second of the three of a commit, event 6 of the run) fails and that
    byte is lost in a power failure after the allocation returned, the meta
    slot says that the record is applied, so recovery does not replay it: the
    allocation that was reported to its caller is gone. *)
Theorem pool_lost_msync :
  let w1 := (run_op 4096 ex_file_pool (World ex_pool_file []) PAlloc).2 in
  ∃ m', crash_given (λ i, negb (i =? 6)%nat) ex_pool_file (w_trace w1) m' ∧
    match hf_pool_open 4096 ex_open_env (World m' []) 0 0 HF_DURABILITY_FAST with
    | Ok (Some q, w2) => p_used_blocks q = 0 ∧ bit_test q (w_file w2) 0 = false
    | _ => False
    end ∧ bit_test ex_file_pool (w_file w1) 0 = true.
Proof.
  intros w1. set (t := took_effect (λ i, negb (i =? 6)%nat) 0 (w_trace w1)).
  exists (store8 (run ex_pool_file t) 12288 0). split; [|split].
  - intros x. fold t. rewrite load8_store8. case_decide as Hx.
    + subst x. change (wrap8 0) with 0.
      assert (existsb (Z.eqb 0) (cands ex_pool_file t 12288) = true) as H by (vm_compute; reflexivity).
      apply existsb_exists in H as (y & Hy & E). apply Z.eqb_eq in E. rewrite E. apply list_elem_of_In. exact Hy.
    + destruct (cands_head ex_pool_file t x) as (cs & E). rewrite E. left.
  - assert (match hf_pool_open 4096 ex_open_env (World (store8 (run ex_pool_file t) 12288 0) []) 0 0 HF_DURABILITY_FAST with
      | Ok (Some q, w2) => (p_used_blocks q =? 0) && negb (bit_test q (w_file w2) 0) | _ => false end = true) as H
      by (vm_compute; reflexivity).
    destruct (hf_pool_open _ _ _ _ _ _) as [[[q|] w2]| | |]; try discriminate H. apply andb_true_iff in H as [H1 H2].
    apply Z.eqb_eq in H1. apply negb_true_iff in H2. split; assumption.
  - vm_compute. reflexivity.
Qed.

(** ** Pools with more than 2^32 blocks *)

(** A file in which blocks 0 and 2^32 of a pool of 2^33 blocks are in use. *)
Definition ex_big_pool : hf_persistent_pool :=
  Pool (2 ^ 20) (2 ^ 50) 4096 12288 (2 ^ 31) 32 (2 ^ 33) 2 1 0 HF_DURABILITY_FAST.

Definition ex_big_file : mem := store_bytes (store_bytes ∅ 12288 [1]) (12288 + 2 ^ 29) [1].

(** Block indices are cut to 32 bits on their way into the log: in a pool
    with more than 2^32 blocks, freeing block 2^32 frees block 0 instead,
    which somebody else owns, and block 2^32 stays in use. *)
Theorem pool_index_truncated :
  let w' := (hf_pool_free 4096 ex_big_pool (World ex_big_file []) (2 ^ 32)).2 in
  (bit_test ex_big_pool ex_big_file 0, bit_test ex_big_pool ex_big_file (2 ^ 32)) = (true, true) ∧
  (bit_test ex_big_pool (w_file w') 0, bit_test ex_big_pool (w_file w') (2 ^ 32)) = (false, true).
Proof. split; vm_compute; reflexivity. Qed.
