(* ===== verification/GuardHeap.v ===== *)
(** * The guard heap ([c/src/hf_guard_heap.c]): the code

    Every block gets a mapping of its own, between two pages without access;
    a freed block keeps its mapping, without access, for ever.  A fixed table
    of 4096 regions, whose slots are taken with compare-and-swap, lets the
    signal handler find the block a faulting address belongs to.

    The state the kernel keeps is explicit: the mappings of the process and
    the protection of every page ([vm]), and the signal dispositions.  The
    POSIX branch is modelled; the backtrace of the handler is not. *)

From Stdlib Require Import Ascii String.
From S2P Require Import Prelude Text Memory Platform Allocator.

(** ** Pages *)

(** Mappings (address, size), and protections set so far, newest first. *)
Record vm : Type := Vm {
  vm_maps : list (Z * Z);
  vm_prot : list (Z * Z * hf_protection)
}.

Definition covers (a n x : Z) : bool := (a <=? x) && (x <? a + n).

(** The protection of the page of [x]. *)
Fixpoint prot_at (ps : list (Z * Z * hf_protection)) (x : Z) : option hf_protection :=
  match ps with
  | [] => None
  | (a, n, p) :: ps => if covers a n x then Some p else prot_at ps x
  end.

(** A load or store at [x] goes through. *)
Definition accessible (v : vm) (x : Z) : bool :=
  existsb (λ m, covers m.1 m.2 x) (vm_maps v) &&
  match prot_at (vm_prot v) x with Some HF_PROT_RW => true | _ => false end.

(** [mmap] of readable and writable pages at [p]. *)
Definition vm_map (v : vm) (p n : Z) : vm := Vm ((p, n) :: vm_maps v) ((p, n, HF_PROT_RW) :: vm_prot v).

Definition vm_unmap (v : vm) (p n : Z) : vm := Vm (filter (λ m, m ≠ (p, n)) (vm_maps v)) (vm_prot v).

(** [hf_vm_protect]; [mprotect_ok] is whether the system call succeeds. *)
Definition hf_vm_protect (ps : Z) (mprotect_ok : Z → Z → bool) (v : vm) (ptr size : Z) (prot : hf_protection) : vm * bool :=
  let size := hf_align_up size ps in
  if mprotect_ok ptr size then (Vm (vm_maps v) ((ptr, size, prot) :: vm_prot v), true) else (v, false).

(** ** Data *)

(** [hf_guard_policy], [hf_guard_kind]. *)
Inductive hf_guard_policy : Type := HF_GUARD_ABORT | HF_GUARD_CONTINUE.
Inductive hf_guard_kind : Type := HF_GUARD_OVERFLOW | HF_GUARD_UNDERFLOW | HF_GUARD_QUARANTINE.

Definition GH_MAX_REGIONS : Z := 4096.

(** [gh_region]; the state is 0 (empty), 1 (active) or 2 (quarantined). *)
Record gh_region : Type := Region {
  r_base : Z;
  r_total : Z;
  r_user : Z;
  r_user_size : Z;
  r_state : Z
}.

Definition region_zero : gh_region := Region 0 0 0 0 0.

Definition set_state (s : Z) (r : gh_region) : gh_region :=
  Region (r_base r) (r_total r) (r_user r) (r_user_size r) s.

(** [gh_heap]. *)
Record gh_heap : Type := GhHeap {
  gh_policy : hf_guard_policy;
  gh_table : list gh_region;
  gh_violations : Z;
  gh_used : Z;
  gh_peak : Z;
  gh_capacity_hint : Z
}.

Definition gh_set_table (h : gh_heap) (t : list gh_region) : gh_heap :=
  GhHeap (gh_policy h) t (gh_violations h) (gh_used h) (gh_peak h) (gh_capacity_hint h).
Definition gh_set_used (h : gh_heap) (u p : Z) : gh_heap :=
  GhHeap (gh_policy h) (gh_table h) (gh_violations h) u p (gh_capacity_hint h).
Definition gh_set_violations (h : gh_heap) (n : Z) : gh_heap :=
  GhHeap (gh_policy h) (gh_table h) n (gh_used h) (gh_peak h) (gh_capacity_hint h).

(** ** The fault handler *)

(** The digits [sa_write_hex] leaves in its buffer, most significant first;
    a 64-bit value has at most 16 of them. *)
Fixpoint hex_loop (fuel : nat) (v : Z) (acc : list Z) : list Z :=
  match fuel with
  | O => acc
  | S fuel =>
      let acc := Z.land v 0xF :: acc in
      let v := Z.shiftr v 4 in
      if v =? 0 then acc else hex_loop fuel v acc
  end.

Definition hex_digit (d : Z) : ascii := ascii_of_nat (Z.to_nat (if d <? 10 then 48 + d else 87 + d)).

(** [sa_write_hex]: what is written to the descriptor. *)
Definition sa_write_hex (v : Z) : list ascii := ["0"; "x"]%char ++ (hex_digit <$> hex_loop 16 v []).

(** The loop of [gh_locate] from index [i] on. *)
Fixpoint gh_locate_loop (t : list gh_region) (addr : Z) (i : nat) : option (nat * hf_guard_kind) :=
  match t with
  | [] => None
  | r :: t =>
      if r_state r =? 0 then gh_locate_loop t addr (S i) else
      if (addr >=? r_base r) && (addr <? r_base r +% r_total r) then
        if r_state r =? 2 then Some (i, HF_GUARD_QUARANTINE)
        else Some (i, if addr <? r_user r then HF_GUARD_UNDERFLOW else HF_GUARD_OVERFLOW)
      else gh_locate_loop t addr (S i)
  end.

Definition gh_locate (h : gh_heap) (addr : Z) : option (nat * hf_guard_kind) := gh_locate_loop (gh_table h) addr 0.

(** Signal dispositions: the handlers of other code are known by number. *)
Inductive sigdisp : Type :=
| SigDefault
| SigIgnore
| SigHandler (id : nat)
| SigAction (id : nat)
| GhHandler.

Inductive signum : Type := SIGSEGV | SIGBUS.

(** What a run of the handler ends with: it called the previous handler, it
    reset the disposition and raised the signal, or it returned and the
    instruction is retried - with the page opened, or with the default
    disposition restored. *)
Inductive handled : Type :=
| Chained (d : sigdisp)
| Reraised
| Retried
| Terminating.

(** The process: heaps by address, pages, and the static variables. *)
Record proc : Type := Proc {
  heaps : gmap nat gh_heap;
  pages : vm;
  g_active : option nat;
  g_installed : bool;
  g_prev_segv : sigdisp;
  g_prev_bus : sigdisp;
  disp_segv : sigdisp;
  disp_bus : sigdisp
}.

Definition set_disp (s : signum) (d : sigdisp) (p : proc) : proc :=
  match s with
  | SIGSEGV => Proc (heaps p) (pages p) (g_active p) (g_installed p) (g_prev_segv p) (g_prev_bus p) d (disp_bus p)
  | SIGBUS => Proc (heaps p) (pages p) (g_active p) (g_installed p) (g_prev_segv p) (g_prev_bus p) (disp_segv p) d
  end.

Definition set_heap (i : nat) (h : gh_heap) (p : proc) : proc :=
  Proc (<[i := h]> (heaps p)) (pages p) (g_active p) (g_installed p) (g_prev_segv p) (g_prev_bus p) (disp_segv p) (disp_bus p).
Definition set_pages (v : vm) (p : proc) : proc :=
  Proc (heaps p) v (g_active p) (g_installed p) (g_prev_segv p) (g_prev_bus p) (disp_segv p) (disp_bus p).
Definition set_active (a : option nat) (p : proc) : proc :=
  Proc (heaps p) (pages p) a (g_installed p) (g_prev_segv p) (g_prev_bus p) (disp_segv p) (disp_bus p).

(** The three writes of a report, and the message of the abort policy. *)
Definition gh_report (addr : Z) (kind : hf_guard_kind) : list string :=
  [newline +:+ "[bug] [越界即时捕获] GuardHeap fault addr=";
   string_of_list_ascii (sa_write_hex addr);
   match kind with
   | HF_GUARD_UNDERFLOW => " kind=underflow"
   | HF_GUARD_QUARANTINE => " kind=use-after-free"
   | HF_GUARD_OVERFLOW => " kind=overflow"
   end +:+ newline].

Definition gh_abort_message : string :=
  "[bug] [策略终止] GuardHeap policy=abort, terminating" +:+ newline.

Section ops.
(** The page size, and what the kernel answers. *)
Context (ps : Z) (mmap : list (Z * Z) → Z → option Z) (mprotect_ok munmap_ok : Z → Z → bool).

(** [gh_handler] for a fault at [addr]; also yields what it writes to
    descriptor 2. *)
Definition gh_handler (p : proc) (sig : signum) (addr : Z) : proc * handled * list string :=
  match (i ← g_active p; h ← heaps p !! i; '(idx, kind) ← gh_locate h addr; Some (i, h, kind)) with
  | None =>
      match (match sig with SIGBUS => g_prev_bus p | SIGSEGV => g_prev_segv p end) with
      | SigDefault | SigIgnore => (set_disp sig SigDefault p, Reraised, [])
      | d => (p, Chained d, [])
      end
  | Some (i, h, kind) =>
      let h := gh_set_violations h (gh_violations h +% 1) in
      let p := set_heap i h p in
      let report := gh_report addr kind in
      match gh_policy h with
      | HF_GUARD_CONTINUE =>
          let page := Z.land addr (not64 (ps -% 1)) in
          (set_pages (hf_vm_protect ps mprotect_ok (pages p) page ps HF_PROT_RW).1 p, Retried, report)
      | HF_GUARD_ABORT => (set_disp sig SigDefault p, Terminating, report ++ [gh_abort_message])
      end
  end.

Definition gh_install (p : proc) (i : nat) : proc :=
  if g_installed p then set_active (Some i) p else
  Proc (heaps p) (pages p) (Some i) true (disp_segv p) (disp_bus p) GhHandler GhHandler.

(** ** The allocator *)

(** The loop of [gh_reserve_slot]: the first slot whose state is 0. *)
Fixpoint gh_free_slot (t : list gh_region) (i : nat) : option nat :=
  match t with
  | [] => None
  | r :: t => if r_state r =? 0 then Some i else gh_free_slot t (S i)
  end.

(** The compare-and-swap that succeeds sets the state to 1. *)
Definition gh_reserve_slot (h : gh_heap) : option (gh_heap * nat) :=
  i ← gh_free_slot (gh_table h) 0; Some (gh_set_table h (alter (set_state 1) i (gh_table h)), i).

(** Where the user region starts, given the mapping. *)
Definition gh_place (base data_pages size alignment : Z) : Z :=
  let data_end := base +% ps +% data_pages in
  let user := Z.land (data_end -% size) (not64 (alignment -% 1)) in
  if user <? base +% ps then base +% ps else user.

(** The first half of [gh_allocate]: the mapping, its guard pages, and the
    entry the table will get. *)
Definition gh_map (v : vm) (size alignment : Z) : option (vm * gh_region) :=
  let alignment := if alignment <? HF_DEFAULT_ALIGN then HF_DEFAULT_ALIGN else alignment in
  let size := if size =? 0 then 1 else size in
  let data_pages := hf_align_up size ps in
  let total := ps +% data_pages +% ps in
  let base := hf_vm_reserve ps (mmap (vm_maps v)) total in
  if base =? NULL then None else
  let v := vm_map v base (hf_align_up total ps) in
  let v := (hf_vm_protect ps mprotect_ok v base ps HF_PROT_NONE).1 in
  let v := (hf_vm_protect ps mprotect_ok v (base +% ps +% data_pages) ps HF_PROT_NONE).1 in
  let user := gh_place base data_pages size alignment in
  Some (v, Region base total user size 1).

(** [hf_vm_release(base, total)] when the table is full. *)
Definition gh_unmap (v : vm) (r : gh_region) : vm :=
  if hf_vm_release ps munmap_ok (r_base r) (r_total r) then vm_unmap v (r_base r) (hf_align_up (r_total r) ps) else v.

Definition gh_allocate (h : gh_heap) (v : vm) (size alignment : Z) : gh_heap * vm * Z :=
  match gh_map v size alignment with
  | None => (h, v, NULL)
  | Some (v, r) =>
      match gh_reserve_slot h with
      | None => (h, gh_unmap v r, NULL)
      | Some (h, idx) =>
          let h := gh_set_table h (<[idx := r]> (gh_table h)) in
          let u := gh_used h +% r_user_size r in
          let pk := gh_peak h in
          (gh_set_used h u (if u >? pk then u else pk), v, r_user r)
      end
  end.

Fixpoint gh_find_by_user (t : list gh_region) (user : Z) (i : nat) : option (nat * gh_region) :=
  match t with
  | [] => None
  | r :: t => if (r_state r =? 1) && (r_user r =? user) then Some (i, r) else gh_find_by_user t user (S i)
  end.

Definition gh_deallocate (h : gh_heap) (v : vm) (ptr : Z) : gh_heap * vm :=
  if ptr =? NULL then (h, v) else
  match gh_find_by_user (gh_table h) ptr 0 with
  | None => (h, v)
  | Some (idx, r) =>
      let h := gh_set_used h (gh_used h -% r_user_size r) (gh_peak h) in
      let v := (hf_vm_protect ps mprotect_ok v (r_base r) (r_total r) HF_PROT_NONE).1 in
      (gh_set_table h (<[idx := set_state 2 r]> (gh_table h)), v)
  end.

Definition gh_name (h : gh_heap) : string := "GuardHeap".

Definition gh_get_stats (h : gh_heap) : hf_stats :=
  Stats (gh_capacity_hint h) (gh_used h) (gh_peak h) 0 0 0.

Definition gh_walk (h : gh_heap) : list hf_block_info :=
  omap (λ r, if r_state r =? 1 then Some (BlockInfo (r_user r) (r_user_size r) false) else None) (gh_table h).

(** The loop of [gh_destroy] over the table. *)
Definition gh_release_all (v : vm) (t : list gh_region) : vm :=
  foldl (λ v r, if r_state r =? 0 then v else gh_unmap v r) v t.

Definition gh_destroy (p : proc) (i : nat) : proc :=
  match heaps p !! i with
  | None => p
  | Some h =>
      let p := set_pages (gh_release_all (pages p) (gh_table h)) p in
      let p := if decide (g_active p = Some i) then set_active None p else p in
      Proc (delete i (heaps p)) (pages p) (g_active p) (g_installed p) (g_prev_segv p) (g_prev_bus p) (disp_segv p) (disp_bus p)
  end.

(** [i]: the address [calloc] gives the heap, [None] when it fails. *)
Definition hf_guard_heap_create (p : proc) (i : option nat) (policy : hf_guard_policy) : proc * option nat :=
  match i with
  | None => (p, None)
  | Some i =>
      let h := GhHeap policy (replicate (Z.to_nat GH_MAX_REGIONS) region_zero) 0 0 0 0 in
      (gh_install (set_heap i h p) i, Some i)
  end.

Definition hf_guard_heap_violations (h : gh_heap) : Z := gh_violations h.
End ops.

(** The vtable entries that work on the heap and the pages; the byte memory is
    not touched, and destruction acts on the whole process ([gh_destroy]). *)
#[global] Instance GH_VT (ps : Z) (mmap : list (Z * Z) → Z → option Z) (mprotect_ok munmap_ok : Z → Z → bool) :
    hf_allocator_vtable (gh_heap * vm) := {
  vt_allocate := λ s m size alignment,
    let '(h, v, p) := gh_allocate ps mmap mprotect_ok munmap_ok s.1 s.2 size alignment in Ok ((h, v), m, p);
  vt_deallocate := λ s m ptr, Ok (gh_deallocate ps mprotect_ok s.1 s.2 ptr, m);
  vt_name := λ s, gh_name s.1;
  vt_get_stats := λ s, gh_get_stats s.1;
  vt_walk := λ s m, Ok (gh_walk s.1);
  vt_destroyed := vm;
  vt_destroy := λ s m, Ok (gh_release_all ps munmap_ok s.2 (gh_table s.1))
}.
