(* ===== verification/GuardProofs.v ===== *)
(** * The guard heap: invariant

    Each region of the table that is in use is a mapping of its own.  The heap
    ignores the results of its calls of [mprotect], so the invariant says what
    is accessible by what the kernel answered: the front page, the back page
    and, once the region is quarantined, the whole mapping are closed exactly
    where the request to close them was granted.  Regions are disjoint, so the
    table locates every address in them whatever the kernel answered. *)

From S2P Require Import Prelude Memory Platform Allocator GuardHeap.

(** ** Pages *)

Lemma covers_true a n x : covers a n x = true ↔ range a n x.
Proof. unfold covers, range. rewrite andb_true_iff, Z.leb_le, Z.ltb_lt. done. Qed.

Lemma covers_false a n x : covers a n x = false ↔ ¬ range a n x.
Proof. rewrite <- covers_true. by destruct (covers a n x). Qed.

Lemma bool_iff (b c : bool) : (b = true ↔ c = true) → b = c.
Proof. destruct b, c; naive_solver. Qed.

Definition mapped (v : vm) (x : Z) : bool := existsb (λ m, covers m.1 m.2 x) (vm_maps v).

Lemma mapped_in v a n x : (a, n) ∈ vm_maps v → range a n x → mapped v x = true.
Proof.
  intros Hin Hx. apply existsb_exists. exists (a, n). split; [by apply list_elem_of_In|by apply covers_true].
Qed.

Lemma accessible_map_other v p n x : ¬ range p n x → accessible (vm_map v p n) x = accessible v x.
Proof. intros H%covers_false. unfold accessible, vm_map. cbn. by rewrite H. Qed.

Lemma accessible_map v p n x : range p n x → accessible (vm_map v p n) x = true.
Proof. intros H%covers_true. unfold accessible, vm_map. cbn. by rewrite H. Qed.

(** Changing the protection of some pages. *)
Lemma accessible_protect maps pr a n p x :
  accessible (Vm maps ((a, n, p) :: pr)) x =
  if covers a n x then mapped (Vm maps pr) x && bool_decide (p = HF_PROT_RW) else accessible (Vm maps pr) x.
Proof. unfold accessible, mapped. cbn. destruct (covers a n x); [|done]. by destruct p. Qed.

Lemma accessible_unmap v p n x : ¬ range p n x → accessible (vm_unmap v p n) x = accessible v x.
Proof.
  intros Hx. unfold accessible, vm_unmap. cbn. f_equal. apply bool_iff. rewrite !existsb_exists. split.
  - intros ([a k] & Hin & Hc). exists (a, k). split; [|done]. apply list_elem_of_In, list_elem_of_filter in Hin as [_ Hin]. by apply list_elem_of_In.
  - intros ([a k] & Hin & Hc). exists (a, k). split; [|done]. apply list_elem_of_In, list_elem_of_filter.
    split; [|by apply list_elem_of_In]. intros [= -> ->]. by apply Hx, covers_true.
Qed.

(** The pages after a request to change a protection, which the kernel
    grants or not. *)
Definition vm_try (mp : Z → Z → bool) (v : vm) (a n : Z) (p : hf_protection) : vm :=
  if mp a n then Vm (vm_maps v) ((a, n, p) :: vm_prot v) else v.

Lemma vm_try_maps mp v a n p : vm_maps (vm_try mp v a n p) = vm_maps v.
Proof. unfold vm_try. by destruct (mp a n). Qed.

Lemma accessible_try mp v a n p x :
  accessible (vm_try mp v a n p) x =
  if covers a n x && mp a n then mapped v x && bool_decide (p = HF_PROT_RW) else accessible v x.
Proof.
  unfold vm_try. destruct (mp a n); rewrite ?andb_true_r, ?andb_false_r; [|done]. rewrite accessible_protect. by destruct v.
Qed.

Lemma accessible_close mp v a n x :
  accessible (vm_try mp v a n HF_PROT_NONE) x = negb (covers a n x && mp a n) && accessible v x.
Proof. rewrite accessible_try. destruct (covers a n x && mp a n); [|done]. by rewrite andb_false_r. Qed.

Lemma vm_protect_eq ps mp v a n p : page_size_ok ps → 0 ≤ n ≤ 2 ^ 63 → (ps | n) →
  (hf_vm_protect ps mp v a n p).1 = vm_try mp v a n p.
Proof.
  intros Hps Hn Hd. unfold hf_vm_protect, vm_try. rewrite hf_align_up_page, round_up_id by (done || (pose proof (page_size_bounds ps Hps); lia)).
  by destruct (mp a n).
Qed.

(** ** Regions *)

(** The bytes of the mapping that a granted request has closed, and the bytes
    that can be accessed. *)
Definition closed (ps : Z) (mp : Z → Z → bool) (r : gh_region) (x : Z) : bool :=
  covers (r_base r) ps x && mp (r_base r) ps ||
  covers (r_base r + r_total r - ps) ps x && mp (r_base r + r_total r - ps) ps ||
  (r_state r =? 2) && mp (r_base r) (r_total r).

Definition guarded (cl : gh_region → Z → bool) (v : vm) (r : gh_region) : Prop :=
  ∀ x, range (r_base r) (r_total r) x → accessible v x = negb (cl r x).

(** A region in use; [cl] says which of its bytes are closed. *)
Record region_wf (ps : Z) (cl : gh_region → Z → bool) (v : vm) (r : gh_region) : Prop := {
  ro_state : r_state r = 1 ∨ r_state r = 2;
  ro_mapped : (r_base r, r_total r) ∈ vm_maps v;
  ro_base : 0 < r_base r ∧ (ps | r_base r) ∧ r_base r + r_total r ≤ 2 ^ 63;
  ro_total : (ps | r_total r) ∧ 0 < ps ∧ 2 * ps < r_total r;
  ro_user : r_base r + ps ≤ r_user r ∧ 0 < r_user_size r ∧ r_user r + r_user_size r ≤ r_base r + r_total r - ps;
  ro_guarded : guarded cl v r
}.

Abbreviation region_ok ps mp := (region_wf ps (closed ps mp)).

Lemma region_wf_ext ps cl cl' v r : region_wf ps cl v r → (∀ x, cl r x = cl' r x) → region_wf ps cl' v r.
Proof. intros [] E. constructor; try done. intros x Hx. rewrite <- E. auto. Qed.

Definition live_sizes (t : list gh_region) : Z := foldr (λ r acc, (if r_state r =? 1 then r_user_size r else 0) + acc) 0 t.

Record gh_wf (ps : Z) (mp : Z → Z → bool) (h : gh_heap) (v : vm) : Prop := {
  gw_len : Z.of_nat (length (gh_table h)) = GH_MAX_REGIONS;
  gw_zero i r : gh_table h !! i = Some r → r_state r = 0 → r = region_zero;
  gw_region i r : gh_table h !! i = Some r → r_state r ≠ 0 → region_ok ps mp v r;
  gw_apart i j r s x : gh_table h !! i = Some r → gh_table h !! j = Some s → i ≠ j → r_state r ≠ 0 → r_state s ≠ 0 →
    range (r_base r) (r_total r) x → ¬ range (r_base s) (r_total s) x;
  gw_used : gh_used h = wrap64 (live_sizes (gh_table h))
}.

Lemma live_sizes_insert t i r s : t !! i = Some r →
  live_sizes (<[i := s]> t) = live_sizes t - (if r_state r =? 1 then r_user_size r else 0) + (if r_state s =? 1 then r_user_size s else 0).
Proof. revert i. induction t as [|u t IH]; intros [|i] H; simplify_eq/=; [lia|]. rewrite (IH i H). lia. Qed.

(** [gh_locate] finds the region of an address. *)
Lemma gh_locate_spec ps mp h v i r x : gh_wf ps mp h v → gh_table h !! i = Some r → r_state r ≠ 0 → range (r_base r) (r_total r) x →
  gh_locate h x = Some (i, if r_state r =? 2 then HF_GUARD_QUARANTINE else
                           if x <? r_user r then HF_GUARD_UNDERFLOW else HF_GUARD_OVERFLOW).
Proof.
  intros Hwf Hi Hs Hx. unfold gh_locate.
  assert (∀ t k, (∀ j s, t !! j = Some s → gh_table h !! (k + j)%nat = Some s) → (k ≤ i)%nat → (i < k + length t)%nat →
    gh_locate_loop t x k = Some (i, if r_state r =? 2 then HF_GUARD_QUARANTINE else
                                    if x <? r_user r then HF_GUARD_UNDERFLOW else HF_GUARD_OVERFLOW)) as H.
  { induction t as [|s t IH]; intros k Ht Hk Hlen; simpl in Hlen; [lia|]. cbn [gh_locate_loop].
    pose proof (Ht 0%nat s eq_refl) as Hs0. rewrite Nat.add_0_r in Hs0.
    assert (k ≠ i → gh_locate_loop t x (S k) = Some (i, if r_state r =? 2 then HF_GUARD_QUARANTINE else
      if x <? r_user r then HF_GUARD_UNDERFLOW else HF_GUARD_OVERFLOW)) as Hnext.
    { intros Hne. apply IH; [|lia|lia]. intros j u Hj. replace (S k + j)%nat with (k + S j)%nat by lia. by apply Ht. }
    destruct (Z.eqb_spec (r_state s) 0) as [Ez|Enz].
    { apply Hnext. intros ->. congruence. }
    pose proof (gw_region _ _ _ _ Hwf _ _ Hs0 Enz) as [_ _ (Hb & _ & Hbt) (_ & Hps0 & Ht2) (Hu1 & Hu2 & Hu3) _].
    rewrite wrap64_small by ulia. destruct (decide (k = i)) as [->|Hne].
    - assert (s = r) as -> by congruence. unfold range in Hx.
      rewrite Z.geb_leb, (proj2 (Z.leb_le _ _)), (proj2 (Z.ltb_lt _ _)) by lia. cbn [andb]. by destruct (r_state r =? 2).
    - assert ((x >=? r_base s) && (x <? r_base s + r_total s) = false) as ->; [|auto].
      pose proof (gw_apart _ _ _ _ Hwf i k r s x Hi Hs0 ltac:(done) Hs Enz Hx) as Hn. unfold range in Hn.
      apply andb_false_iff. rewrite Z.geb_leb, Z.leb_gt, Z.ltb_ge. lia. }
  apply H; [done|lia|]. apply lookup_lt_Some in Hi. lia.
Qed.

(** Addresses outside every region are not located. *)
Lemma gh_locate_none ps mp h v x : gh_wf ps mp h v →
  (∀ i r, gh_table h !! i = Some r → r_state r ≠ 0 → ¬ range (r_base r) (r_total r) x) → gh_locate h x = None.
Proof.
  intros Hwf Hout. unfold gh_locate. assert (∀ i r, gh_table h !! i = Some r → r_state r ≠ 0 → r_base r + r_total r ≤ 2 ^ 63 ∧ 0 < r_base r) as Hb.
  { intros i r Hi Hs. destruct (gw_region _ _ _ _ Hwf _ _ Hi Hs) as [_ _ (? & _ & ?) _ _ _]. done. }
  assert (∀ i r, gh_table h !! i = Some r → r_state r ≠ 0 → 0 < r_total r) as Hpos.
  { intros i r Hi Hs. destruct (gw_region _ _ _ _ Hwf _ _ Hi Hs) as [_ _ _ (_ & ? & ?) (? & ? & ?) _]. lia. }
  generalize 0%nat as k. revert Hout Hb Hpos. clear. generalize (gh_table h). induction l as [|s t IH]; intros Hout Hb Hpos k; [done|].
  cbn [gh_locate_loop]. assert (gh_locate_loop t x (S k) = None) as Hn.
  { apply IH; intros i r Hi; [by apply (Hout (S i))|by apply (Hb (S i))|by apply (Hpos (S i))]. }
  destruct (Z.eqb_spec (r_state s) 0); [done|]. destruct (Hb 0%nat s eq_refl ltac:(done)). pose proof (Hpos 0%nat s eq_refl ltac:(done)).
  rewrite wrap64_small by ulia.
  specialize (Hout 0%nat s eq_refl ltac:(done)). unfold range in Hout.
  assert ((x >=? r_base s) && (x <? r_base s + r_total s) = false) as ->; [|done].
  apply andb_false_iff. rewrite Z.geb_leb, Z.leb_gt, Z.ltb_ge. lia.
Qed.

(** [gh_find_by_user] finds an active region by its pointer. *)
Lemma find_by_user_Some t u k i r : gh_find_by_user t u k = Some (i, r) →
  (k ≤ i)%nat ∧ t !! (i - k)%nat = Some r ∧ r_state r = 1 ∧ r_user r = u.
Proof.
  revert k. induction t as [|s t IH]; intros k H; [done|]. cbn [gh_find_by_user] in H.
  destruct (_ && _) eqn:E.
  - zb. simplify_eq. rewrite Nat.sub_diag. split_and!; done || lia.
  - apply IH in H as (? & H & ? & ?). split_and!; try done; [lia|]. by replace (i - k)%nat with (S (i - S k)) by lia.
Qed.

Lemma find_by_user_None t u k : gh_find_by_user t u k = None → ∀ j r, t !! j = Some r → r_state r = 1 → r_user r ≠ u.
Proof.
  revert k. induction t as [|s t IH]; intros k H j r Hj Hs; [done|]. cbn [gh_find_by_user] in H.
  destruct (_ && _) eqn:E; [done|]. destruct j as [|j]; simplify_eq/=; [|by apply (IH (S k) H j)].
  rewrite Hs in E. simpl in E. by zb.
Qed.

(** The first free slot. *)
Lemma reserve_slot_Some t k i : gh_free_slot t k = Some i → (k ≤ i)%nat ∧ ∃ r, t !! (i - k)%nat = Some r ∧ r_state r = 0.
Proof.
  revert k. induction t as [|s t IH]; intros k H; [done|]. cbn [gh_free_slot] in H. destruct (r_state s =? 0) eqn:E.
  - zb. simplify_eq. rewrite Nat.sub_diag. split; [lia|]. by exists s.
  - apply IH in H as (? & r & H & ?). split; [lia|]. exists r. split; [|done]. by replace (i - k)%nat with (S (i - S k)) by lia.
Qed.

Lemma reserve_slot_None t k : gh_free_slot t k = None ↔ ∀ j r, t !! j = Some r → r_state r ≠ 0.
Proof.
  revert k. induction t as [|s t IH]; intros k; cbn [gh_free_slot]; [split; [done|done]|]. destruct (Z.eqb_spec (r_state s) 0) as [E|E].
  - split; [done|]. intros H. by destruct (H 0%nat s eq_refl).
  - rewrite IH. split; [intros H [|j] r Hj; simplify_eq/=; [done|by apply (H j)]|intros H j r Hj; by apply (H (S j))].
Qed.

Lemma bump_peak (u pk : Z) : (if u >? pk then u else pk) = Z.max u pk.
Proof. rewrite Z.gtb_ltb. destruct (Z.ltb_spec pk u); lia. Qed.

(** A region survives changes to other pages. *)
Lemma region_ok_frame ps cl v v' r : region_wf ps cl v r → (r_base r, r_total r) ∈ vm_maps v' →
  (∀ x, range (r_base r) (r_total r) x → accessible v' x = accessible v x) → region_wf ps cl v' r.
Proof.
  intros [] Hin Hacc. constructor; try done. intros x Hx. rewrite Hacc by done. by apply ro_guarded0.
Qed.

(** The store of a whole region hides the reservation of its slot. *)
Lemma insert_over_alter (f : gh_region → gh_region) (i : nat) (r : gh_region) (t : list gh_region) : <[i := r]> (alter f i t) = <[i := r]> t.
Proof. revert i. induction t as [|s t IH]; intros [|i]; simpl; try done. by rewrite IH. Qed.

(** ** Operations *)

(** The pages after the mapping and the requests for its two guards. *)
Definition vm_guarded (ps : Z) (mp : Z → Z → bool) (v : vm) (base dp : Z) : vm :=
  vm_try mp (vm_try mp (vm_map v base (ps + dp + ps)) base ps HF_PROT_NONE) (base + ps + dp) ps HF_PROT_NONE.

Lemma vm_guarded_maps ps mp v base dp : vm_maps (vm_guarded ps mp v base dp) = (base, ps + dp + ps) :: vm_maps v.
Proof. unfold vm_guarded. by rewrite !vm_try_maps. Qed.

Lemma vm_guarded_in ps mp v base dp user n x : range base (ps + dp + ps) x →
  accessible (vm_guarded ps mp v base dp) x = negb (closed ps mp (Region base (ps + dp + ps) user n 1) x).
Proof.
  intros Hx. unfold vm_guarded, closed. cbn [r_base r_total r_state]. rewrite !accessible_close, accessible_map by done.
  replace (base + (ps + dp + ps) - ps) with (base + ps + dp) by lia. rewrite andb_true_r, !negb_orb, andb_true_r. apply andb_comm.
Qed.

Lemma vm_guarded_out ps mp v base dp x : 0 < ps → 0 < dp → ¬ range base (ps + dp + ps) x →
  accessible (vm_guarded ps mp v base dp) x = accessible v x.
Proof.
  intros Hps Hdp Hx. unfold vm_guarded. rewrite !accessible_close, accessible_map_other by done.
  by rewrite !(proj2 (covers_false _ _ x)) by (unfold range in *; lia).
Qed.

(** Page by page. *)
Lemma accessible_data ps mp v base dp x : range (base + ps) dp x → 0 < ps →
  accessible (vm_guarded ps mp v base dp) x = true.
Proof.
  intros Hx Hp. unfold range in Hx. rewrite (vm_guarded_in _ _ _ _ _ 0 0) by (unfold range; lia). unfold closed. cbn [r_base r_total r_state].
  by rewrite !(proj2 (covers_false _ _ x)) by (unfold range; lia).
Qed.

Lemma accessible_front ps mp v base dp x : range base ps x → 0 < dp →
  accessible (vm_guarded ps mp v base dp) x = negb (mp base ps).
Proof.
  intros Hx Hd. pose proof Hx as [? ?]. rewrite (vm_guarded_in _ _ _ _ _ 0 0) by (unfold range; lia). unfold closed. cbn [r_base r_total r_state].
  rewrite (proj2 (covers_true base ps x)), (proj2 (covers_false (base + _ - _) _ x)) by (unfold range; lia). cbn. by rewrite !orb_false_r.
Qed.

Lemma accessible_back ps mp v base dp x : range (base + ps + dp) ps x → 0 < dp →
  accessible (vm_guarded ps mp v base dp) x = negb (mp (base + ps + dp) ps).
Proof.
  intros Hx Hd. pose proof Hx as [? ?]. rewrite (vm_guarded_in _ _ _ _ _ 0 0) by (unfold range; lia). unfold closed. cbn [r_base r_total r_state].
  replace (base + (ps + dp + ps) - ps) with (base + ps + dp) by lia.
  rewrite (proj2 (covers_false base ps x)), (proj2 (covers_true (base + ps + dp) _ x)) by (unfold range; lia). cbn. by rewrite !orb_false_r.
Qed.

Section frame.
Context (ps : Z) (mp : Z → Z → bool).

(** The user sees the same pages as before. *)
Definition same_pages (v v' : vm) : Prop :=
  vm_maps v ⊆ vm_maps v' ∧ ∀ x, mapped v x = true → accessible v' x = accessible v x.

Lemma gh_wf_pages h v v' : gh_wf ps mp h v → same_pages v v' → gh_wf ps mp h v'.
Proof.
  intros [] [Hmaps Hacc]. constructor; try done. intros i r Hi Hs. destruct (gw_region0 i r Hi Hs) as [] eqn:E.
  eapply region_ok_frame; [by apply (gw_region0 i)|by apply Hmaps|]. intros x Hx. by apply Hacc, (mapped_in _ _ _ _ ro_mapped0).
Qed.

(** A fresh mapping meets no mapped byte. *)
Lemma fresh_unmapped (v : vm) p n x : (∀ q k, (q, k) ∈ vm_maps v → p + n ≤ q ∨ q + k ≤ p) → mapped v x = true → ¬ range p n x.
Proof.
  intros Hf Hm. unfold mapped in Hm. apply existsb_exists in Hm as ([q k] & Hin%list_elem_of_In & Hc%covers_true).
  cbn in Hc. specialize (Hf q k Hin). unfold range in *. lia.
Qed.

Definition fresh_base (v : vm) (base dp : Z) : Prop :=
  0 < base ∧ (ps | base) ∧ base + (ps + dp + ps) ≤ 2 ^ 63 ∧
  (∀ q k, (q, k) ∈ vm_maps v → base + (ps + dp + ps) ≤ q ∨ q + k ≤ base).

Lemma vm_guarded_same v base dp : 0 < ps → 0 < dp → fresh_base v base dp → same_pages v (vm_guarded ps mp v base dp).
Proof.
  intros Hp Hd (_ & _ & _ & Hf). split; [rewrite vm_guarded_maps; set_solver|]. intros x Hx. apply vm_guarded_out; [done|done|]. by eapply fresh_unmapped.
Qed.

Lemma vm_guarded_unmap_same v base dp : 0 < ps → 0 < dp → fresh_base v base dp →
  same_pages v (vm_unmap (vm_guarded ps mp v base dp) base (ps + dp + ps)).
Proof.
  intros Hp Hd Hfb. pose proof Hfb as (_ & _ & _ & Hf). split.
  - intros [q k] Hin. cbn [vm_unmap vm_maps]. apply list_elem_of_filter. split; [|rewrite vm_guarded_maps; set_solver].
    intros [= -> ->]. specialize (Hf _ _ Hin). lia.
  - intros x Hx. rewrite accessible_unmap by (by eapply fresh_unmapped). by apply (vm_guarded_same v base dp).
Qed.

(** Putting a region in a slot of the table keeps the invariant, when the
    region is sound, apart from the others, and their pages are unchanged. *)
Lemma gh_wf_insert h v v' i r s pk viol used : gh_wf ps mp h v → gh_table h !! i = Some r → region_ok ps mp v' s →
  (∀ j u, j ≠ i → gh_table h !! j = Some u → r_state u ≠ 0 → (r_base u, r_total u) ∈ vm_maps v' ∧
     ∀ x, range (r_base u) (r_total u) x → ¬ range (r_base s) (r_total s) x ∧ accessible v' x = accessible v x) →
  used = wrap64 (live_sizes (gh_table h) - (if r_state r =? 1 then r_user_size r else 0) + (if r_state s =? 1 then r_user_size s else 0)) →
  gh_wf ps mp (GhHeap (gh_policy h) (<[i := s]> (gh_table h)) viol used pk (gh_capacity_hint h)) v'.
Proof.
  intros [Hlen Hz Hreg Hap Hu] Hi Hs Hoth ->. assert (r_state s ≠ 0) as Hs0 by (destruct (ro_state _ _ _ _ Hs); lia).
  constructor; cbn [gh_table gh_used].
  - by rewrite length_insert.
  - intros j u Hj Hu0. apply list_lookup_insert_Some in Hj as [(-> & <- & _)|[_ Hj]]; [done|by apply (Hz j)].
  - intros j u Hj Hu0. apply list_lookup_insert_Some in Hj as [(-> & <- & _)|[Hne Hj]]; [done|].
    destruct (Hoth j u ltac:(done) Hj Hu0) as [Hm Ha]. eapply region_ok_frame; [by apply (Hreg j)|done|]. intros x Hx. by apply Ha.
  - intros j k u w x Hj Hk Hne Hu0 Hw0 Hx.
    apply list_lookup_insert_Some in Hj as [(-> & <- & _)|[Hnj Hj]]; apply list_lookup_insert_Some in Hk as [(-> & <- & _)|[Hnk Hk]]; try done.
    + intros Hx'. by destruct (Hoth k w ltac:(done) Hk Hw0) as [_ Ha]; destruct (Ha x Hx').
    + by destruct (Hoth j u ltac:(done) Hj Hu0) as [_ Ha]; destruct (Ha x Hx).
    + by apply (Hap j k u w x).
  - by rewrite (live_sizes_insert _ _ _ _ Hi).
Qed.

Lemma gh_alloc_region v base dp user n : 4096 ≤ ps ≤ 2 ^ 30 → (ps | dp) → fresh_base v base dp → 0 < n ≤ dp → base + ps ≤ user → user + n ≤ base + ps + dp →
  region_ok ps mp (vm_guarded ps mp v base dp) (Region base (ps + dp + ps) user n 1).
Proof.
  intros Hp Hd (Hb & Hbd & Hlim & Hf) Hn Hu1 Hu2. constructor; cbn.
  - by left.
  - rewrite vm_guarded_maps. apply elem_of_cons. by left.
  - split_and!; done || lia.
  - split; [repeat apply Z.divide_add_r; done || apply Z.divide_refl|lia].
  - lia.
  - intros x Hx. by apply vm_guarded_in.
Qed.

Lemma gh_alloc_wf h v base dp idx user n : gh_wf ps mp h v → 4096 ≤ ps ≤ 2 ^ 30 → (ps | dp) → fresh_base v base dp →
  gh_free_slot (gh_table h) 0 = Some idx → 0 < n ≤ dp → base + ps ≤ user → user + n ≤ base + ps + dp →
  gh_wf ps mp (GhHeap (gh_policy h) (<[idx := Region base (ps + dp + ps) user n 1]> (gh_table h)) (gh_violations h)
    (gh_used h +% n) (Z.max (gh_used h +% n) (gh_peak h)) (gh_capacity_hint h)) (vm_guarded ps mp v base dp).
Proof.
  intros Hwf Hp Hd Hfb Hr Hn Hu1 Hu2. apply reserve_slot_Some in Hr as (_ & r & Hr & Hr0). rewrite Nat.sub_0_r in Hr.
  destruct (vm_guarded_same v base dp ltac:(lia) ltac:(lia) Hfb) as [Hsub Hsame].
  eapply gh_wf_insert; [done|done|by apply gh_alloc_region| |].
  - intros j u Hne Hj Hu0. pose proof (gw_region _ _ _ _ Hwf j u Hj Hu0) as Hru. split; [by apply Hsub, Hru|].
    intros x Hx. assert (mapped v x = true) as Hm by (by apply (mapped_in _ _ _ _ (ro_mapped _ _ _ _ Hru))).
    split; [|by apply Hsame]. cbn. destruct Hfb as (_ & _ & _ & Hf). by apply (fresh_unmapped v).
  - rewrite (gw_used _ _ _ _ Hwf), Hr0. cbn. rewrite Z.sub_0_r. unfold wrap64. by rewrite Zplus_mod_idemp_l.
Qed.

(** Putting a region in quarantine. *)
Lemma gh_free_region v r : region_ok ps mp v r → r_state r = 1 →
  region_ok ps mp (vm_try mp v (r_base r) (r_total r) HF_PROT_NONE) (set_state 2 r).
Proof.
  intros [] Hs. constructor; try done; [by right|by rewrite vm_try_maps|]. intros x Hx. cbn in Hx.
  rewrite accessible_close, (proj2 (covers_true _ _ _) Hx), ro_guarded0 by done. unfold closed. cbn [r_base r_total r_state set_state].
  rewrite Hs. cbn. rewrite orb_false_r, <- negb_orb. f_equal. apply orb_comm.
Qed.

Lemma gh_free_wf h v idx r : gh_wf ps mp h v → gh_table h !! idx = Some r → r_state r = 1 →
  gh_wf ps mp (GhHeap (gh_policy h) (<[idx := set_state 2 r]> (gh_table h)) (gh_violations h) (gh_used h -% r_user_size r) (gh_peak h) (gh_capacity_hint h))
        (vm_try mp v (r_base r) (r_total r) HF_PROT_NONE).
Proof.
  intros Hwf Hi Hs. pose proof (gw_region _ _ _ _ Hwf idx r Hi ltac:(lia)) as Hr. eapply gh_wf_insert; [done|done| | |].
  - by apply gh_free_region.
  - intros j u Hne Hj Hu0. rewrite vm_try_maps. split; [by apply (gw_region _ _ _ _ Hwf j u)|]. intros x Hx. cbn.
    pose proof (gw_apart _ _ _ _ Hwf j idx u r x Hj Hi Hne Hu0 ltac:(lia) Hx) as Hn. split; [done|].
    by rewrite accessible_close, (proj2 (covers_false _ _ _) Hn).
  - rewrite (gw_used _ _ _ _ Hwf), Hs. cbn. rewrite Z.add_0_r. unfold wrap64. by rewrite Zminus_mod_idemp_l.
Qed.
End frame.

Section pages.
Context (ps : Z) (Hps : page_size_ok ps).

(** An alignment the heap can give: a power of two, at most a page. *)
Definition align_ok (a : Z) : Prop := ∃ k, 0 ≤ k ∧ a = 2 ^ k ∧ 2 ^ k ≤ ps.

Lemma align_default a : align_ok a → align_ok (Z.max HF_DEFAULT_ALIGN a).
Proof.
  intros H. destruct (Z.max_spec HF_DEFAULT_ALIGN a) as [[? ->]|[? ->]]; [done|].
  exists 4. destruct (page_size_bounds ps Hps). split; [lia|]. split; [done|]. lia.
Qed.

(** The user region ends less than an alignment before the back guard. *)
Lemma gh_place_spec base dp size a : 0 < base → (ps | base) → (ps | dp) → 0 < size ≤ dp → base + ps + dp < 2 ^ 63 → align_ok a →
  let user := gh_place ps base dp size a in
  base + ps ≤ user ∧ (a | user) ∧ user + size ≤ base + ps + dp < user + size + a.
Proof.
  intros Hb Hbd [q Hdp] Hs Hlim (k & Hk & -> & Hka). destruct (page_size_bounds ps Hps) as [? _].
  unfold gh_place. rewrite (wrap64_small (base + ps)), (wrap64_small (base + ps + dp)), (wrap64_small (base + ps + dp - size)) by ulia.
  assert (k < 63). { apply (Z.pow_lt_mono_r_iff 2); [lia|lia|]. lia. }
  pose proof (pow2_pos k Hk). rewrite (wrap64_small (2 ^ k - 1)) by ulia.
  assert (2 ^ k < 2 ^ 63) by (apply pow2_lt_mono; lia). rewrite not64_spec, land_clear_low by (ulia || lia). set (e := base + ps + dp - size).
  assert ((2 ^ k | base + ps)) as [z Hz].
  { destruct Hps as (j & Hj & ->). transitivity (2 ^ j); [|apply Z.divide_add_r; [done|apply Z.divide_refl]].
    apply pow2_divide. split; [done|]. apply (Z.pow_le_mono_r_iff 2); lia. }
  pose proof (Z.mod_pos_bound e (2 ^ k) ltac:(done)) as Hm. pose proof (Z.div_mod e (2 ^ k) ltac:(lia)) as He.
  assert (base + ps ≤ e / 2 ^ k * 2 ^ k) as Hge.
  { rewrite Hz. apply Z.mul_le_mono_nonneg_r; [lia|]. apply Z.div_le_lower_bound; lia. }
  rewrite (proj2 (Z.ltb_ge _ _)) by lia. unfold e in *. split; [lia|]. split; [|lia].
  by exists ((base + ps + dp - size) / 2 ^ k).
Qed.

(** The data pages and the mapping of a request. *)
Definition data_of (size : Z) : Z := round_up (Z.max 1 size) ps.

Lemma data_of_spec size : 0 ≤ size ≤ 2 ^ 62 →
  (ps | data_of size) ∧ Z.max 1 size ≤ data_of size < Z.max 1 size + ps ∧ 4096 ≤ ps ≤ 2 ^ 30.
Proof.
  intros Hs. destruct (page_size_bounds ps Hps) as [? _]. split; [apply round_up_divide|]. split; [|done].
  unfold data_of. split; [apply round_up_ge; lia|apply round_up_lt; lia].
Qed.

End pages.

Section ops.
Context (ps : Z) (mmap : list (Z * Z) → Z → option Z) (mprotect_ok munmap_ok : Z → Z → bool).
Context (Hps : page_size_ok ps) (Hmm : mmap_fresh ps mmap) (Hlow : mmap_low mmap).

(** What [gh_map] does. *)
Lemma gh_map_spec v size a : 0 ≤ size ≤ 2 ^ 62 → align_ok ps a →
  let dp := data_of ps size in
  gh_map ps mmap mprotect_ok v size a =
    match mmap (vm_maps v) (ps + dp + ps) with
    | None => None
    | Some base => Some (vm_guarded ps mprotect_ok v base dp,
        Region base (ps + dp + ps) (gh_place ps base dp (Z.max 1 size) (Z.max HF_DEFAULT_ALIGN a)) (Z.max 1 size) 1)
    end ∧ ∀ base, mmap (vm_maps v) (ps + dp + ps) = Some base → fresh_base ps v base dp.
Proof.
  intros Hs Ha dp. destruct (data_of_spec ps Hps size Hs) as (Hdd & Hdb & Hpb). fold dp in Hdd, Hdb.
  unfold gh_map. cbv zeta. replace (if a <? HF_DEFAULT_ALIGN then HF_DEFAULT_ALIGN else a) with (Z.max HF_DEFAULT_ALIGN a)
    by (destruct (Z.ltb_spec a HF_DEFAULT_ALIGN); lia).
  replace (if size =? 0 then 1 else size) with (Z.max 1 size) by (destruct (Z.eqb_spec size 0); lia).
  rewrite (hf_align_up_page (Z.max 1 size)) by (done || lia). change (round_up (Z.max 1 size) ps) with dp.
  rewrite (wrap64_small (ps + dp)), (wrap64_small (ps + dp + ps)) by ulia.
  assert ((ps | ps + dp + ps)) as Hdt by (repeat apply Z.divide_add_r; done || apply Z.divide_refl).
  unfold hf_vm_reserve. rewrite (hf_align_up_page (ps + dp + ps)), (round_up_id (ps + dp + ps)) by (done || lia).
  destruct (mmap (vm_maps v) (ps + dp + ps)) as [base|] eqn:Em; [|by rewrite Z.eqb_refl].
  pose proof (Hlow _ _ _ Em). pose proof (Hmm _ _ _ Em) as (Hb0 & Hbd & _ & Hf).
  split; [|by intros b [= <-]]. rewrite (proj2 (Z.eqb_neq base NULL)) by lia.
  rewrite (wrap64_small (base + ps)), (wrap64_small (base + ps + dp)) by ulia.
  by rewrite !vm_protect_eq by (done || lia || apply Z.divide_refl).
Qed.

(** Giving a fresh mapping back. *)
Lemma gh_unmap_same v base dp user n s : 0 < ps → 0 < dp → (ps | dp) → ps + dp + ps ≤ 2 ^ 63 → fresh_base ps v base dp →
  same_pages v (gh_unmap ps munmap_ok (vm_guarded ps mprotect_ok v base dp) (Region base (ps + dp + ps) user n s)).
Proof.
  intros Hp Hd Hdd Hlim Hfb. unfold gh_unmap. cbn [r_base r_total].
  rewrite (hf_align_up_page (ps + dp + ps)), (round_up_id (ps + dp + ps)) by (done || lia || (repeat apply Z.divide_add_r; done || apply Z.divide_refl)).
  destruct (hf_vm_release _ _ _ _); [by apply vm_guarded_unmap_same|by apply vm_guarded_same].
Qed.

(** What [gh_allocate] does, case by case. *)
Lemma gh_allocate_cases h v size a : gh_wf ps mprotect_ok h v → 0 ≤ size ≤ 2 ^ 62 → align_ok ps a →
  let dp := data_of ps size in
  (∃ v', gh_allocate ps mmap mprotect_ok munmap_ok h v size a = (h, v', NULL) ∧ same_pages v v' ∧
     (mmap (vm_maps v) (ps + dp + ps) = None ∨ gh_free_slot (gh_table h) 0 = None)) ∨
  (∃ base idx, mmap (vm_maps v) (ps + dp + ps) = Some base ∧ fresh_base ps v base dp ∧ gh_free_slot (gh_table h) 0 = Some idx ∧
     let user := gh_place ps base dp (Z.max 1 size) (Z.max HF_DEFAULT_ALIGN a) in
     let used := gh_used h +% Z.max 1 size in
     gh_allocate ps mmap mprotect_ok munmap_ok h v size a =
       (GhHeap (gh_policy h) (<[idx := Region base (ps + dp + ps) user (Z.max 1 size) 1]> (gh_table h)) (gh_violations h)
          used (Z.max used (gh_peak h)) (gh_capacity_hint h), vm_guarded ps mprotect_ok v base dp, user)).
Proof.
  intros Hwf Hs Ha dp. destruct (data_of_spec ps Hps size Hs) as (Hdd & Hdb & Hpb). fold dp in Hdd, Hdb.
  destruct (gh_map_spec v size a Hs Ha) as [Hmap Hfresh]. fold dp in Hmap, Hfresh. unfold gh_allocate. rewrite Hmap.
  destruct (mmap (vm_maps v) (ps + dp + ps)) as [base|] eqn:Em; [|left; exists v; split; [done|]; split; [by split|by left]].
  specialize (Hfresh base eq_refl). unfold gh_reserve_slot.
  destruct (gh_free_slot (gh_table h) 0) as [idx|] eqn:Er; cbn [mbind option_bind].
  - right. exists base, idx. do 3 (split; [done|]). cbn. by rewrite bump_peak, insert_over_alter.
  - left. eexists. split; [reflexivity|]. split; [|by right]. apply gh_unmap_same; done || lia.
Qed.

(** What [gh_deallocate] does, case by case. *)
Lemma gh_deallocate_cases h v ptr : gh_wf ps mprotect_ok h v →
  (gh_deallocate ps mprotect_ok h v ptr = (h, v) ∧ ∀ i r, gh_table h !! i = Some r → r_state r = 1 → r_user r ≠ ptr) ∨
  (∃ idx r, gh_table h !! idx = Some r ∧ r_state r = 1 ∧ r_user r = ptr ∧
     gh_deallocate ps mprotect_ok h v ptr =
       (GhHeap (gh_policy h) (<[idx := set_state 2 r]> (gh_table h)) (gh_violations h) (gh_used h -% r_user_size r) (gh_peak h) (gh_capacity_hint h),
        vm_try mprotect_ok v (r_base r) (r_total r) HF_PROT_NONE)).
Proof.
  intros Hwf. unfold gh_deallocate. destruct (Z.eqb_spec ptr NULL) as [->|Hn].
  { left. split; [done|]. intros i r Hi Hs. destruct (gw_region _ _ _ _ Hwf i r Hi ltac:(lia)) as [_ _ (? & _ & _) (_ & ? & _) (? & _ & _) _]. lia. }
  destruct (gh_find_by_user (gh_table h) ptr 0) as [[idx r]|] eqn:E.
  - right. apply find_by_user_Some in E as (_ & Hi & Hs & Hu). rewrite Nat.sub_0_r in Hi. exists idx, r. split_and!; try done.
    pose proof (gw_region _ _ _ _ Hwf idx r Hi ltac:(lia)) as [_ _ (? & ? & ?) (? & ? & ?) _ _].
    cbv zeta. by rewrite vm_protect_eq by (done || lia).
  - left. split; [done|]. intros i r Hi Hs. by apply (find_by_user_None _ _ _ E i).
Qed.

End ops.
