(* ===== verification/GuardSpec.v ===== *)
(** * The guard heap: what it promises

    Every block lies between pages the kernel is asked to close, a freed block
    is closed and stays quarantined, the fault handler tells the two apart, and
    the heap meets the contract of [Allocator.v] until its 4096 slots are used
    up.  No theorem assumes that [mprotect] succeeds: the code ignores its
    result, and what is accessible is stated by what the kernel answered. *)

From S2P Require Import Prelude Memory Platform Allocator GuardHeap GuardProofs.

Section spec.
Context (ps : Z) (mmap : list (Z * Z) → Z → option Z) (mprotect_ok munmap_ok : Z → Z → bool).

(** What the code relies on of the kernel: a page size, and fresh mappings in
    the lower half of the address space. *)
Definition kernel_ok : Prop := page_size_ok ps ∧ mmap_fresh ps mmap ∧ mmap_low mmap.

(** ** Programs *)

(** A program allocates with any size and alignment the heap serves, and frees
    any pointer; the results are what its allocations returned. *)
Inductive gop : Type :=
| GAlloc (size a : Z)
| GFree (ptr : Z).

Definition gop_ok (o : gop) : Prop :=
  match o with GAlloc size a => 0 ≤ size ≤ 2 ^ 62 ∧ align_ok ps a | GFree _ => True end.

Definition gh_step (h : gh_heap) (v : vm) (o : gop) : gh_heap * vm * list Z :=
  match o with
  | GAlloc size a => let '(h, v, p) := gh_allocate ps mmap mprotect_ok munmap_ok h v size a in (h, v, [p])
  | GFree ptr => let '(h, v) := gh_deallocate ps mprotect_ok h v ptr in (h, v, [])
  end.

Fixpoint gh_run (h : gh_heap) (v : vm) (os : list gop) : gh_heap * vm * list Z :=
  match os with
  | [] => (h, v, [])
  | o :: os =>
      let '(h, v, ps1) := gh_step h v o in
      let '(h, v, ps2) := gh_run h v os in (h, v, ps1 ++ ps2)
  end.

(** Slots of the table that are in use. *)
Definition in_use (r : gh_region) : bool := negb (r_state r =? 0).
Definition slots_used (h : gh_heap) : Z := count_if in_use (gh_table h).
Definition served (results : list Z) : Z := count_if (λ p, negb (p =? NULL)) results.

(** A slot that is quarantined, and one whose pages the program cannot be
    given again. *)
Definition quarantined (h : gh_heap) (i : nat) (r : gh_region) : Prop := gh_table h !! i = Some r ∧ r_state r = 2.

Lemma slots_full h : slots_used h = Z.of_nat (length (gh_table h)) ↔ gh_free_slot (gh_table h) 0 = None.
Proof.
  unfold slots_used. rewrite count_if_full, reserve_slot_None. split.
  - intros H j r Hj. specialize (H r (list_elem_of_lookup_2 _ _ _ Hj)). unfold in_use in H. intros E. by rewrite E in H.
  - intros H r Hr. apply list_elem_of_lookup_1 in Hr as [j Hj]. unfold in_use. specialize (H j r Hj).
    by rewrite (proj2 (Z.eqb_neq _ _)).
Qed.

(** One operation: the invariant, the slots spent, and the quarantined slots. *)
Lemma gh_step_spec h v o : kernel_ok → gh_wf ps mprotect_ok h v → gop_ok o →
  let '(h', v', results) := gh_step h v o in
  gh_wf ps mprotect_ok h' v' ∧ slots_used h' = slots_used h + served results ∧
  (∀ i r, quarantined h i r → quarantined h' i r) ∧
  (∀ p, p ∈ results → p ≠ NULL → mapped v p = false).
Proof.
  intros (Hps & Hmm & Hlow) Hwf Ho. destruct o as [size a|ptr]; cbn [gh_step].
  - destruct Ho as [Hs Ha]. destruct (data_of_spec ps Hps size Hs) as (Hdd & Hdb & Hpb). pose proof (align_default ps Hps a Ha) as Hal.
    destruct (gh_allocate_cases ps mmap mprotect_ok munmap_ok Hps Hmm Hlow h v size a Hwf Hs Ha)
      as [(v1 & -> & Hsame & _)|(base & idx & _ & Hfb & Hr & ->)]; cbv zeta.
    + split; [by eapply gh_wf_pages|]. split; [cbn; lia|]. split; [done|]. by intros p ->%list_elem_of_singleton.
    + pose proof Hfb as (Hb & Hbd & Hlim & Hf). set (dp := data_of ps size) in *.
      destruct (gh_place_spec ps Hps base dp (Z.max 1 size) _ Hb Hbd Hdd ltac:(lia) ltac:(lia) Hal) as (Hu1 & _ & Hu3).
      split; [by apply gh_alloc_wf; try lia|]. apply reserve_slot_Some in Hr as (_ & r & Hr & Hr0). rewrite Nat.sub_0_r in Hr. split_and!.
      * unfold slots_used. cbn [gh_table]. rewrite (count_if_insert _ _ _ _ _ Hr). unfold in_use. rewrite Hr0. cbn.
        rewrite (proj2 (Z.eqb_neq _ 0)) by lia. cbn. lia.
      * intros i s [Hi Hs2]. split; [|done]. cbn. rewrite list_lookup_insert_ne; [done|]. intros ->. simplify_eq. lia.
      * intros p ->%list_elem_of_singleton _. destruct (mapped v _) eqn:Em; [|done]. exfalso.
        eapply fresh_unmapped; [exact Hf|exact Em|]. unfold range. lia.
  - destruct (gh_deallocate_cases ps mprotect_ok Hps h v ptr Hwf) as [[-> _]|(idx & r & Hi & Hs & _ & ->)].
    + split; [done|]. split; [cbn; lia|]. split; [done|]. intros p Hp. by apply elem_of_nil in Hp.
    + split; [by apply gh_free_wf|]. split_and!.
      * unfold slots_used. cbn [gh_table]. rewrite (count_if_insert _ _ _ _ _ Hi). unfold in_use. rewrite Hs. cbn. lia.
      * intros j s [Hj Hs2]. split; [|done]. cbn. rewrite list_lookup_insert_ne; [done|]. intros ->. simplify_eq. lia.
      * intros p Hp. by apply elem_of_nil in Hp.
Qed.

Lemma gh_run_spec h v os : kernel_ok → gh_wf ps mprotect_ok h v → Forall gop_ok os →
  let '(h', v', results) := gh_run h v os in
  gh_wf ps mprotect_ok h' v' ∧ slots_used h' = slots_used h + served results ∧
  (∀ i r, quarantined h i r → quarantined h' i r ∧
     ∀ p, p ∈ results → p ≠ NULL → ¬ range (r_base r) (r_total r) p).
Proof.
  intros Hk Hwf Hos. revert h v Hwf. induction Hos as [|o os Ho Hos IH]; intros h v Hwf; cbn [gh_run].
  { split; [done|]. split; [cbn; lia|]. intros i r Hq. split; [done|]. intros p Hp. by apply elem_of_nil in Hp. }
  pose proof (gh_step_spec h v o Hk Hwf Ho) as Hstep. destruct (gh_step h v o) as [[h1 v1] ps1].
  destruct Hstep as (Hwf1 & Hs1 & Hq1 & Hp1). specialize (IH h1 v1 Hwf1). destruct (gh_run h1 v1 os) as [[h2 v2] ps2].
  destruct IH as (Hwf2 & Hs2 & Hq2). split; [done|]. split; [unfold served in *; rewrite count_if_app; lia|].
  intros i r Hq. destruct (Hq2 i r (Hq1 i r Hq)) as [Hq' Hp2]. split; [done|]. intros p Hp Hn Hr.
  apply elem_of_app in Hp as [Hp|Hp]; [|by apply (Hp2 p)]. destruct Hq as [Hi Hst].
  destruct (gw_region _ _ _ _ Hwf i r Hi ltac:(lia)) as [_ Hm _ _ _ _].
  pose proof (mapped_in v _ _ _ Hm Hr). pose proof (Hp1 p Hp Hn). congruence.
Qed.

(** C22. Guard pages. On a heap in its invariant (so the handler has not
    continued from a fault), for a request of at most 2^62 bytes and a
    power-of-two alignment of at most a page, [gh_allocate] either returns
    null, leaving the heap as it was, because the kernel refused the mapping
    or all slots are in use; or it returns an aligned pointer to fresh
    accessible bytes, with a front page before them and a back page that
    starts less than the alignment after the last byte. The fault handler
    classifies the front page as underflow and the back page as overflow. Each
    of the two pages is inaccessible exactly if the kernel granted the
    [mprotect] on it, whose result the code ignores. Pages that were mapped
    before keep their access. *)
Theorem gh_allocate_guarded h v size a h' v' p :
  kernel_ok → gh_wf ps mprotect_ok h v → 0 ≤ size ≤ 2 ^ 62 → align_ok ps a →
  gh_allocate ps mmap mprotect_ok munmap_ok h v size a = (h', v', p) →
  let n := Z.max 1 size in let al := Z.max HF_DEFAULT_ALIGN a in
  gh_wf ps mprotect_ok h' v' ∧ same_pages v v' ∧
  ((p = NULL ∧ h' = h ∧
    (mmap (vm_maps v) (ps + round_up n ps + ps) = None ∨ ∀ i r, gh_table h !! i = Some r → r_state r ≠ 0)) ∨
   (∃ i front back, 0 < p ∧ (al | p) ∧ front + ps ≤ p ∧ p + n ≤ back < p + n + al ∧
      (∀ x, range front (back + ps - front) x → mapped v x = false) ∧
      (∀ x, range p n x → accessible v' x = true) ∧
      (∀ x, range front ps x →
         (accessible v' x = false ↔ mprotect_ok front ps = true) ∧ gh_locate h' x = Some (i, HF_GUARD_UNDERFLOW)) ∧
      (∀ x, range back ps x →
         (accessible v' x = false ↔ mprotect_ok back ps = true) ∧ gh_locate h' x = Some (i, HF_GUARD_OVERFLOW)))).
Proof.
  intros (Hps & Hmm & Hlow) Hwf Hs Ha Hrun n al.
  destruct (data_of_spec ps Hps size Hs) as (Hdd & Hdb & Hpb). pose proof (align_default ps Hps a Ha) as Hal.
  destruct (gh_allocate_cases ps mmap mprotect_ok munmap_ok Hps Hmm Hlow h v size a Hwf Hs Ha)
    as [(v1 & E & Hsame & Hwhy)|(base & idx & _ & Hfb & Hr & E)]; cbv zeta in E; rewrite E in Hrun; injection Hrun as <- <- <-.
  - split; [by eapply gh_wf_pages|]. split; [done|]. left. split; [done|]. split; [done|].
    destruct Hwhy as [?|Hfull]; [by left|right]. by eapply reserve_slot_None.
  - fold n al. set (dp := data_of ps size) in *. pose proof Hfb as (Hb & Hbd & Hlim & Hf).
    pose proof (gh_place_spec ps Hps base dp n al Hb Hbd Hdd ltac:(lia) ltac:(lia) Hal) as (Hu1 & Hu2 & Hu3).
    set (user := gh_place ps base dp n al) in *.
    pose proof (gh_alloc_wf ps mprotect_ok h v base dp idx user n Hwf Hpb Hdd Hfb Hr ltac:(lia) Hu1 ltac:(lia)) as Hwf'.
    pose proof Hr as (_ & r0 & Hr' & _)%reserve_slot_Some. rewrite Nat.sub_0_r in Hr'. apply lookup_lt_Some in Hr'.
    pose proof (λ x, gh_locate_spec ps mprotect_ok _ _ idx (Region base (ps + dp + ps) user n 1) x Hwf' (list_lookup_insert_eq _ _ _ Hr') ltac:(done)) as Hloc.
    cbn [r_base r_total r_user r_state] in Hloc.
    split; [done|]. split; [apply vm_guarded_same; done || lia|]. right. exists idx, base, (base + ps + dp).
    split_and!; try done; try lia.
    + intros x Hx. destruct (mapped v x) eqn:Em; [|done]. exfalso. eapply fresh_unmapped; [exact Hf|exact Em|].
      unfold range in *. lia.
    + intros x Hx. unfold range in Hx. by rewrite (accessible_data ps mprotect_ok v base dp) by (unfold range; lia).
    + intros x Hx. unfold range in Hx. split.
      * rewrite (accessible_front ps mprotect_ok v base dp) by (unfold range; lia). by destruct (mprotect_ok base ps).
      * rewrite Hloc by (unfold range; lia). by rewrite (proj2 (Z.ltb_lt _ _)) by lia.
    + intros x Hx. unfold range in Hx. split.
      * rewrite (accessible_back ps mprotect_ok v base dp) by (unfold range; lia). by destruct (mprotect_ok (base + ps + dp) ps).
      * rewrite Hloc by (unfold range; lia). by rewrite (proj2 (Z.ltb_ge _ _)) by lia.
Qed.

(** The heap [hf_guard_heap_create] makes. *)
Definition gh_fresh (policy : hf_guard_policy) : gh_heap :=
  GhHeap policy (replicate (Z.to_nat GH_MAX_REGIONS) region_zero) 0 0 0 0.

Lemma gh_fresh_lookup policy i r : gh_table (gh_fresh policy) !! i = Some r → r = region_zero.
Proof. cbn [gh_fresh gh_table]. rewrite lookup_replicate. by intros [-> _]. Qed.

Lemma live_sizes_zero n : live_sizes (replicate n region_zero) = 0.
Proof. by induction n. Qed.

Lemma gh_fresh_wf policy v : gh_wf ps mprotect_ok (gh_fresh policy) v.
Proof.
  constructor.
  - cbn [gh_fresh gh_table]. rewrite length_replicate. done.
  - intros i r Hi _. by eapply gh_fresh_lookup.
  - intros i r Hi%gh_fresh_lookup. by subst r.
  - intros i j r s x Hi%gh_fresh_lookup. by subst r.
  - cbn [gh_fresh gh_table gh_used]. by rewrite live_sizes_zero.
Qed.

Lemma gh_fresh_slots policy : slots_used (gh_fresh policy) = 0.
Proof.
  unfold slots_used. rewrite (count_if_const _ false); [done|]. intros r Hr.
  apply list_elem_of_lookup_1 in Hr as [i Hi%gh_fresh_lookup]. by subst r.
Qed.

(** C25. Quarantine. Once a block of a heap in its invariant is freed,
    whatever the program allocates (sizes up to 2^62, power-of-two alignments
    up to a page) and frees afterwards, the fault handler classifies every
    address of the block's mapping as quarantined memory of that slot, no
    pointer handed out later points into the mapping, and, if the kernel
    granted the [mprotect] of the free, whose result the code ignores, no byte
    of it can be accessed. The runs are of allocations and frees only: a fault
    that the handler continues from opens its page again ([gh_fault_verdict]).
    *)
Theorem gh_quarantine_forever h v ptr i r h1 v1 os h2 v2 results :
  kernel_ok → gh_wf ps mprotect_ok h v → gh_table h !! i = Some r → r_state r = 1 → r_user r = ptr →
  gh_deallocate ps mprotect_ok h v ptr = (h1, v1) → Forall gop_ok os → gh_run h1 v1 os = (h2, v2, results) →
  ∀ x, range (r_base r) (r_total r) x →
    (mprotect_ok (r_base r) (r_total r) = true → accessible v2 x = false) ∧
    gh_locate h2 x = Some (i, HF_GUARD_QUARANTINE) ∧ (x ∈ results → x = NULL).
Proof.
  intros Hk Hwf Hi Hs Hu Hfree Hos Hrun x Hx. pose proof Hk as (Hps & _ & _).
  destruct (gh_deallocate_cases ps mprotect_ok Hps h v ptr Hwf) as [[_ Hn]|(j & s & Hj & Hs' & Hu' & E)]; [by destruct (Hn i r)|].
  assert (j = i) as ->.
  { destruct (decide (j = i)) as [|Hne]; [done|exfalso].
    pose proof (gw_region _ _ _ _ Hwf i r Hi ltac:(lia)) as [_ _ _ (_ & ? & ?) (? & ? & ?) _].
    pose proof (gw_region _ _ _ _ Hwf j s Hj ltac:(lia)) as [_ _ _ (_ & ? & ?) (? & ? & ?) _].
    apply (gw_apart _ _ _ _ Hwf i j r s ptr Hi Hj); [done|lia|lia|unfold range; lia|unfold range; lia]. }
  assert (s = r) as -> by congruence. rewrite E in Hfree. injection Hfree as <- <-.
  pose proof (gh_run_spec _ _ os Hk (gh_free_wf ps mprotect_ok h v i r Hwf Hi Hs) Hos) as Hspec. rewrite Hrun in Hspec.
  destruct Hspec as (Hwf2 & _ & Hq). destruct (Hq i (set_state 2 r)) as [[Hi2 Hs2] Hp].
  { split; [|done]. cbn. by eapply list_lookup_insert_eq, lookup_lt_Some. }
  split_and!.
  - intros Hg. rewrite (ro_guarded _ _ _ _ (gw_region _ _ _ _ Hwf2 i _ Hi2 ltac:(lia)) x Hx). unfold closed. cbn.
    by rewrite Hg, orb_true_r.
  - rewrite (gh_locate_spec ps mprotect_ok h2 v2 i _ x Hwf2 Hi2 ltac:(lia) Hx). done.
  - intros Hin. destruct (decide (x = NULL)) as [|Hne]; [done|]. by destruct (Hp x Hin Hne).
Qed.

(** The heap serves 4096 blocks in its lifetime.  Freed slots are never
    reused: in any program on a new heap, an allocation returns null exactly
    when the kernel refuses the mapping or 4096 allocations have succeeded
    before it, however many of those blocks have been freed. *)
Theorem gh_slots_never_reclaimed policy v os h' v' results size a :
  kernel_ok → Forall gop_ok os → gh_run (gh_fresh policy) v os = (h', v', results) → 0 ≤ size ≤ 2 ^ 62 → align_ok ps a →
  served results ≤ GH_MAX_REGIONS ∧
  ((gh_allocate ps mmap mprotect_ok munmap_ok h' v' size a).2 = NULL ↔
   served results = GH_MAX_REGIONS ∨ mmap (vm_maps v') (ps + round_up (Z.max 1 size) ps + ps) = None).
Proof.
  intros Hk Hos Hrun Hs Ha. pose proof (gh_run_spec _ v os Hk (gh_fresh_wf policy v) Hos) as Hspec. rewrite Hrun in Hspec.
  destruct Hspec as (Hwf & Hsl & _). rewrite gh_fresh_slots in Hsl. pose proof (count_if_bounds in_use (gh_table h')) as Hb.
  pose proof (gw_len _ _ _ _ Hwf) as Hlen. fold (slots_used h') in Hb. split; [lia|].
  pose proof (slots_full h') as Hfull. replace (slots_used h') with (served results) in * by lia. rewrite Hlen in Hfull.
  rewrite Hfull. clear Hfull. destruct Hk as (Hps & Hmm & Hlow). destruct (data_of_spec ps Hps size Hs) as (Hdd & Hdb & Hpb).
  pose proof (gh_allocate_cases ps mmap mprotect_ok munmap_ok Hps Hmm Hlow h' v' size a Hwf Hs Ha) as Hcases.
  destruct Hcases as [(v1 & -> & _ & Hwhy)|(base & idx & Em & (Hb0 & Hbd & Hlim & Hf) & Hr & E)].
  - split; [|done]. intros _. destruct Hwhy; [by right|by left].
  - destruct (gh_place_spec ps Hps base _ (Z.max 1 size) _ Hb0 Hbd Hdd ltac:(lia) ltac:(lia) (align_default ps Hps a Ha)) as (Hu1 & _ & _).
    split; [cbv zeta in E; rewrite E; cbn [snd]; lia|]. intros [H|Hnone]; [congruence|].
    unfold data_of in Em. congruence.
Qed.

(** ** Faults *)

(** The handler when the address is in a region of the active heap. *)
Lemma gh_handler_hit p sig x i h idx kind : g_active p = Some i → heaps p !! i = Some h → gh_locate h x = Some (idx, kind) →
  gh_handler ps mprotect_ok p sig x =
    let p1 := set_heap i (gh_set_violations h (gh_violations h +% 1)) p in
    match gh_policy h with
    | HF_GUARD_CONTINUE => (set_pages (hf_vm_protect ps mprotect_ok (pages p) (Z.land x (not64 (ps -% 1))) ps HF_PROT_RW).1 p1, Retried, gh_report x kind)
    | HF_GUARD_ABORT => (set_disp sig SigDefault p1, Terminating, gh_report x kind ++ [gh_abort_message])
    end.
Proof. intros Ha Hh Hl. unfold gh_handler. by rewrite Ha; cbn [mbind option_bind]; rewrite Hh; cbn [mbind option_bind]; rewrite Hl. Qed.

Lemma page_of x : page_size_ok ps → is_u64 x → Z.land x (not64 (ps -% 1)) = x / ps * ps.
Proof.
  intros (k & Hk & ->) Hx. pose proof (pow2_lt_mono k 64 ltac:(lia)). pose proof (pow2_pos k ltac:(lia)).
  rewrite wrap64_small by ulia. rewrite not64_spec by ulia. by apply land_clear_low; [|lia].
Qed.

Lemma triple_inj {A B C} (a a' : A) (b b' : B) (c c' : C) : (a, b, c) = (a', b', c') → a = a' ∧ b = b' ∧ c = c'.
Proof. by intros [= -> -> ->]. Qed.

(** The kind a fault in a region is reported with. *)
Definition kind_of (r : gh_region) (x : Z) : hf_guard_kind :=
  if r_state r =? 2 then HF_GUARD_QUARANTINE else if x <? r_user r then HF_GUARD_UNDERFLOW else HF_GUARD_OVERFLOW.

(** The verdict of the fault handler.  A fault in a region of the active
    heap is written to descriptor 2 with its address and the kind of the
    region, and counted; under the continue policy the page of the address
    becomes accessible if the kernel grants the [mprotect], so the retried
    instruction goes through, and no other page changes; under the abort policy no page changes and the default
    disposition is restored.  A fault elsewhere is passed on: nothing is
    written, no heap and no page changes. *)
Theorem gh_fault_verdict p sig x i h :
  kernel_ok → g_active p = Some i → heaps p !! i = Some h → gh_wf ps mprotect_ok h (pages p) →
  let '(p', out, written) := gh_handler ps mprotect_ok p sig x in
  (∀ idx r, gh_table h !! idx = Some r → r_state r ≠ 0 → range (r_base r) (r_total r) x →
     heaps p' = <[i := gh_set_violations h (gh_violations h +% 1)]> (heaps p) ∧
     match gh_policy h with
     | HF_GUARD_CONTINUE => out = Retried ∧ written = gh_report x (kind_of r x) ∧
         accessible (pages p') x = mprotect_ok (x / ps * ps) ps || accessible (pages p) x ∧ (∀ y, y / ps ≠ x / ps → accessible (pages p') y = accessible (pages p) y) ∧
         disp_segv p' = disp_segv p ∧ disp_bus p' = disp_bus p
     | HF_GUARD_ABORT => out = Terminating ∧ written = gh_report x (kind_of r x) ++ [gh_abort_message] ∧ pages p' = pages p ∧
         match sig with SIGSEGV => disp_segv p' | SIGBUS => disp_bus p' end = SigDefault
     end) ∧
  ((∀ idx r, gh_table h !! idx = Some r → r_state r ≠ 0 → ¬ range (r_base r) (r_total r) x) →
     heaps p' = heaps p ∧ pages p' = pages p ∧ written = [] ∧
     (out = Reraised ∨ out = Chained (match sig with SIGBUS => g_prev_bus p | SIGSEGV => g_prev_segv p end))).
Proof.
  intros (Hps & _ & _) Ha Hh Hwf. destruct (gh_handler ps mprotect_ok p sig x) as [[p' out] written] eqn:E. split.
  - intros idx r Hi Hs Hx. pose proof (gh_locate_spec ps mprotect_ok h _ idx r x Hwf Hi Hs Hx) as Hl.
    rewrite (gh_handler_hit p sig x i h idx _ Ha Hh Hl) in E. cbv zeta in E.
    pose proof (gw_region _ _ _ _ Hwf idx r Hi Hs) as [_ Hm (Hb & _ & Hlim) _ _ _]. destruct (page_size_bounds ps Hps) as [Hpb _].
    destruct (gh_policy h); apply triple_inj in E as (<- & <- & <-); (split; [try destruct sig; reflexivity|]).
    + split; [reflexivity|]. split; [reflexivity|]. by destruct sig.
    + rewrite page_of, vm_protect_eq by (done || lia || apply Z.divide_refl || (unfold range in Hx; ulia)).
      pose proof (Z.mod_pos_bound x ps ltac:(lia)). pose proof (Z.div_mod x ps ltac:(lia)).
      split; [reflexivity|]. split; [reflexivity|]. cbn [pages set_pages]. split; [|split; [|split; reflexivity]].
      * rewrite accessible_try, (proj2 (covers_true _ _ _)) by (unfold range; lia). cbn [andb].
        destruct (mprotect_ok _ _); [|done]. by rewrite bool_decide_eq_true_2, andb_true_r, (mapped_in _ _ _ _ Hm).
      * intros y Hy. rewrite accessible_try, (proj2 (covers_false _ _ _)); [done|]. intros Hr. apply Hy.
        unfold range in Hr. symmetry. apply (Z.div_unique y ps _ (y - x / ps * ps)); lia.
  - intros Hout. pose proof (gh_locate_none ps mprotect_ok h _ x Hwf Hout) as Hl. unfold gh_handler in E. rewrite Ha in E. cbn [mbind option_bind] in E.
    rewrite Hh in E. cbn [mbind option_bind] in E. rewrite Hl in E. cbn [mbind option_bind] in E.
    destruct sig; [destruct (g_prev_segv p)|destruct (g_prev_bus p)]; apply triple_inj in E as (<- & <- & <-); cbn; auto.
Qed.

Lemma gh_install_spec q j : g_active (gh_install q j) = Some j ∧ heaps (gh_install q j) = heaps q.
Proof. unfold gh_install. by destruct (g_installed q). Qed.

(** One heap per process.  Creating another guard heap makes it the only
    one the handler consults: whatever blocks an older heap has, no fault in
    its guard pages is reported any more, and destroying the new heap leaves
    no heap to consult. *)
Theorem gh_second_heap_blind p i h j pol sig x :
  heaps p !! i = Some h → i ≠ j →
  let p2 := (hf_guard_heap_create p (Some j) pol).1 in
  heaps p2 !! i = Some h ∧ (gh_handler ps mprotect_ok p2 sig x).2 = [] ∧
  (gh_handler ps mprotect_ok (gh_destroy ps munmap_ok p2 j) sig x).2 = [].
Proof.
  intros Hi Hne. cbn [hf_guard_heap_create fst]. fold (gh_fresh pol).
  assert (∀ q, (g_active q = None ∨ ∃ h', g_active q = Some j ∧ heaps q !! j = Some h' ∧ gh_locate h' x = None) →
    (gh_handler ps mprotect_ok q sig x).2 = []) as Hmiss.
  { intros q Hq. unfold gh_handler. assert ((i ← g_active q; h ← heaps q !! i; '(_, kind) ← gh_locate h x; Some (i, h, kind)) = None) as ->.
    { destruct Hq as [->|(h' & -> & Hh & Hl)]; [done|]. cbn [mbind option_bind]. rewrite Hh. cbn [mbind option_bind]. by rewrite Hl. }
    destruct sig; [destruct (g_prev_segv q)|destruct (g_prev_bus q)]; done. }
  assert (gh_locate (gh_fresh pol) x = None) as Hl.
  { apply (gh_locate_none ps mprotect_ok _ (pages p)); [apply gh_fresh_wf|]. intros k r Hk%gh_fresh_lookup. by subst r. }
  destruct (gh_install_spec (set_heap j (gh_fresh pol) p) j) as [Hact Hheaps]. cbn [heaps set_heap] in Hheaps. split_and!.
  - by rewrite Hheaps, lookup_insert_ne.
  - apply Hmiss. right. exists (gh_fresh pol). rewrite Hact, Hheaps, lookup_insert_eq. split; [reflexivity|]. split; [reflexivity|exact Hl].
  - apply Hmiss. left. unfold gh_destroy. rewrite Hheaps, lookup_insert_eq. cbn [g_active set_pages]. by rewrite Hact, decide_True.
Qed.

(** ** Clients *)

(** The active regions are the live blocks. *)
Definition gh_live (h : gh_heap) (L : live_map) : Prop :=
  (∀ p n, L !! p = Some n → (HF_DEFAULT_ALIGN | p) ∧ 0 ≤ n ∧
     ∃ i r, gh_table h !! i = Some r ∧ r_state r = 1 ∧ r_user r = p ∧ r_user_size r = Z.max 1 n) ∧
  (∀ i r, gh_table h !! i = Some r → r_state r = 1 → is_Some (L !! r_user r)).

Definition gh_inv (s : gh_heap * vm) (m : mem) (L : live_map) : Prop := gh_wf ps mprotect_ok s.1 s.2 ∧ gh_live s.1 L.

(** Active regions are told apart by their pointers. *)
Lemma active_inj h v i j r s : gh_wf ps mprotect_ok h v → gh_table h !! i = Some r → gh_table h !! j = Some s →
  r_state r = 1 → r_state s = 1 → r_user r = r_user s → i = j.
Proof.
  intros Hwf Hi Hj Hr Hs E. destruct (decide (i = j)) as [|Hne]; [done|exfalso].
  pose proof (gw_region _ _ _ _ Hwf i r Hi ltac:(lia)) as [_ _ _ (_ & ? & ?) (? & ? & ?) _].
  pose proof (gw_region _ _ _ _ Hwf j s Hj ltac:(lia)) as [_ _ _ (_ & ? & ?) (? & ? & ?) _].
  apply (gw_apart _ _ _ _ Hwf i j r s (r_user r) Hi Hj); [done|lia|lia|unfold range; lia|unfold range; lia].
Qed.

(** A live block lies in the data pages of its region. *)
Lemma gh_live_block h v L p n : gh_wf ps mprotect_ok h v → gh_live h L → L !! p = Some n →
  ∃ i r, gh_table h !! i = Some r ∧ r_state r = 1 ∧ r_user r = p ∧ 0 < r_base r ∧ r_base r + r_total r ≤ 2 ^ 63 ∧
    0 < ps ∧ r_base r + ps ≤ p ∧ p + Z.max 1 n ≤ r_base r + r_total r - ps ∧
    (∀ x, range p n x → mapped v x = true ∧ accessible v x = true).
Proof.
  intros Hwf [Hl _] Hp. destruct (Hl p n Hp) as (_ & Hn & i & r & Hi & Hs & <- & Hsz). exists i, r.
  pose proof (gw_region _ _ _ _ Hwf i r Hi ltac:(lia)) as [_ Hm (Hb & _ & Hlim) (_ & Hp0 & Ht) (Hu1 & Hu2 & Hu3) Hg]. rewrite Hsz in *.
  split_and!; try done. intros x Hx. unfold range in Hx. split; [apply (mapped_in _ _ _ _ Hm); unfold range; lia|].
  rewrite Hg by (unfold range; lia). unfold closed. rewrite Hs, !(proj2 (covers_false _ _ _)) by (unfold range; lia). done.
Qed.

Lemma gh_live_alloc h v L idx base total user size u pk : gh_wf ps mprotect_ok h v → gh_live h L → gh_free_slot (gh_table h) 0 = Some idx → 0 ≤ size →
  (HF_DEFAULT_ALIGN | user) → L !! user = None →
  gh_live (GhHeap (gh_policy h) (<[idx := Region base total user (Z.max 1 size) 1]> (gh_table h)) (gh_violations h) u pk (gh_capacity_hint h))
    (<[user := size]> L).
Proof.
  intros Hwf [Hl1 Hl2] (_ & r0 & Hr & Hr0)%reserve_slot_Some Hs Hal HN. rewrite Nat.sub_0_r in Hr. split; cbn [gh_table].
  - intros p n Hp. apply lookup_insert_Some in Hp as [[<- <-]|[Hne Hp]].
    + split; [done|]. split; [done|]. exists idx, (Region base total user (Z.max 1 size) 1).
      split; [by eapply list_lookup_insert_eq, lookup_lt_Some|done].
    + destruct (Hl1 p n Hp) as (? & ? & i & r & Hi & Hst & ?). split; [done|]. split; [done|]. exists i, r. split; [|done].
      rewrite list_lookup_insert_ne; [done|]. intros ->. simplify_eq. lia.
  - intros i r Hi Hst. apply list_lookup_insert_Some in Hi as [(-> & <- & _)|[Hne Hi]].
    + cbn. by rewrite lookup_insert_eq.
    + apply lookup_insert_is_Some'. right. by apply (Hl2 i).
Qed.

Lemma gh_live_free h v L idx r u : gh_wf ps mprotect_ok h v → gh_live h L → gh_table h !! idx = Some r → r_state r = 1 →
  gh_live (GhHeap (gh_policy h) (<[idx := set_state 2 r]> (gh_table h)) (gh_violations h) u (gh_peak h) (gh_capacity_hint h)) (delete (r_user r) L).
Proof.
  intros Hwf [Hl1 Hl2] Hi Hs. split; cbn [gh_table].
  - intros p n Hp. apply lookup_delete_Some in Hp as [Hne Hp]. destruct (Hl1 p n Hp) as (? & ? & j & s & Hj & Hst & Hu & ?).
    split; [done|]. split; [done|]. exists j, s. split; [|done]. rewrite list_lookup_insert_ne; [done|]. intros ->. congruence.
  - intros j s Hj Hst. apply list_lookup_insert_Some in Hj as [(-> & <- & _)|[Hne Hj]]; [done|].
    rewrite lookup_delete_ne; [by apply (Hl2 j)|]. intros E. apply Hne. by apply (active_inj h v idx j r s).
Qed.

Definition gh_spec (Hk : kernel_ok) :
  AllocatorSpec HF_DEFAULT_ALIGN (2 ^ 62) (gh_heap * vm) (hf_allocator_vtable0 := GH_VT ps mmap mprotect_ok munmap_ok).
Proof.
  refine {| alloc_inv := gh_inv |}.
  - intros [h v] m L p n [Hwf Hl] Hp. destruct (gh_live_block h v L p n Hwf Hl Hp) as (i & r & Hi & _ & _ & ? & ? & ? & ? & ? & _).
    destruct (proj1 Hl p n Hp) as (? & ? & _). split_and!; done || lia.
  - intros [h v] m L p n q k [Hwf Hl] Hp Hq Hne x Hx Hx'.
    destruct (gh_live_block h v L p n Hwf Hl Hp) as (i & r & Hi & Hsr & Hur & ? & ? & ? & ? & ? & _).
    destruct (gh_live_block h v L q k Hwf Hl Hq) as (j & s & Hj & Hss & Hus & ? & ? & ? & ? & ? & _). unfold range in *.
    apply (gw_apart _ _ _ _ Hwf i j r s x Hi Hj); [congruence|lia|lia|unfold range; lia|unfold range; lia].
  - intros [h v] m L size [Hwf Hl] Hs. unfold hf_allocate, vt_allocate, GH_VT. cbn [fst snd].
    destruct Hk as (Hps & Hmm & Hlow). destruct (data_of_spec ps Hps size Hs) as (Hdd & Hdb & Hpb).
    assert (align_ok ps HF_DEFAULT_ALIGN) as Ha by (exists 4; split; [lia|split; [done|lia]]).
    destruct (gh_allocate_cases ps mmap mprotect_ok munmap_ok Hps Hmm Hlow h v size _ Hwf Hs Ha)
      as [(v1 & -> & Hsame & _)|(base & idx & _ & Hfb & Hr & ->)]; cbv zeta.
    + eexists _, _, _. split; [done|]. split; [done|]. left. split; [done|]. split; [by eapply gh_wf_pages|done].
    + pose proof Hfb as (Hb & Hbd & Hlim & Hf). set (dp := data_of ps size) in *. rewrite Z.max_id.
      destruct (gh_place_spec ps Hps base dp (Z.max 1 size) _ Hb Hbd Hdd ltac:(lia) ltac:(lia) Ha) as (Hu1 & Hu2 & Hu3).
      set (user := gh_place _ _ _ _ _) in *.
      assert (∀ x, range base (ps + dp + ps) x → mapped v x = false) as Hun.
      { intros x Hx. destruct (mapped v x) eqn:E; [|done]. by destruct (fresh_unmapped v base _ x Hf E). }
      assert (L !! user = None) as HN.
      { destruct (L !! user) as [k|] eqn:E; [|done]. destruct (gh_live_block h v L user k Hwf Hl E) as (i & r & Hi & Hsr & _ & ? & ? & ? & ? & ? & _).
        destruct (gw_region _ _ _ _ Hwf i r Hi ltac:(lia)) as [_ Hm _ _ _ _]. specialize (Hun user ltac:(unfold range; lia)).
        rewrite (mapped_in v _ _ user Hm) in Hun by (unfold range; lia). done. }
      eexists _, _, user. split; [done|]. split; [done|]. right. split; [lia|]. split; [done|]. split.
      * intros x Hx (q & k & Hq & Hxq). destruct (gh_live_block h v L q k Hwf Hl Hq) as (_ & _ & _ & _ & _ & _ & _ & _ & _ & _ & Hacc).
        destruct (Hacc x Hxq) as [Hm _]. rewrite Hun in Hm; [done|unfold range in *; lia].
      * split; [by apply gh_alloc_wf; try lia|]. eapply gh_live_alloc; done || lia.
  - intros [h v] m L p n [Hwf Hl] Hp. unfold hf_deallocate, vt_deallocate, GH_VT. cbn [fst snd].
    destruct Hk as (Hps & _ & _). destruct (proj1 Hl p n Hp) as (_ & _ & i & r & Hi & Hst & Hu & _).
    destruct (gh_deallocate_cases ps mprotect_ok Hps h v p Hwf) as [[_ Hn]|(j & s & Hj & Hs & <- & ->)]; [by destruct (Hn i r)|].
    eexists _, _. split; [done|]. split; [done|]. split; [by apply gh_free_wf|by eapply gh_live_free].
  - by intros s m m' L [Hwf Hl] _.
Defined.

(** C20. Client safety of the guard heap. On a new heap, every program of
    allocations of at most 2^62 bytes at the default alignment, frees of owned
    blocks and writes to owned bytes runs to its end, whatever the kernel
    answers to [mprotect]; live blocks are 16-aligned and never overlap, every
    owned byte holds what the client last wrote there and is accessible, so
    that no such write faults, and [gh_walk] reports exactly the live blocks.
    (Sizes near 2^64 wrap in the page arithmetic.) *)
Theorem gh_client_safe policy v m os :
  kernel_ok → Forall (op_ok (2 ^ 62)) os →
  ∃ c, client_run (hf_allocator_vtable0 := GH_VT ps mmap mprotect_ok munmap_ok) (Client (gh_fresh policy, v) m ∅ ∅) os = Ok c ∧
    client_ok HF_DEFAULT_ALIGN c ∧
    (∀ p n x, cl_live c !! p = Some n → range p n x → accessible (cl_alloc c).2 x = true) ∧
    (∀ p k, BlockInfo p k false ∈ gh_walk (cl_alloc c).1 ↔ ∃ n, cl_live c !! p = Some n ∧ k = Z.max 1 n).
Proof.
  intros Hk Hos. destruct (client_run_ok (AllocatorSpec0 := gh_spec Hk) (gh_fresh policy, v) m ∅ os) as (c & Hrun & Hok & Hwf & Hl); [|done|].
  - split; [apply gh_fresh_wf|]. split; [intros p n; by rewrite lookup_empty|]. intros i r Hi%gh_fresh_lookup. by subst r.
  - exists c. split; [done|]. split; [done|]. split.
    + intros p n x Hp Hx. destruct (gh_live_block _ _ _ p n Hwf Hl Hp) as (_ & _ & _ & _ & _ & _ & _ & _ & _ & _ & Hacc). by apply Hacc.
    + intros p k. unfold gh_walk. rewrite list_elem_of_omap. split.
      * intros (r & [i Hi]%list_elem_of_lookup_1 & E). destruct (Z.eqb_spec (r_state r) 1) as [Hs|]; [|done]. injection E as <- <-.
        destruct (proj2 Hl i r Hi Hs) as [n Hn]. exists n. split; [done|]. destruct (proj1 Hl _ n Hn) as (_ & _ & j & s & Hj & Hs' & Hu & <-).
        assert (j = i) as -> by (by apply (active_inj _ _ j i s r Hwf)). congruence.
      * intros (n & Hn & ->). destruct (proj1 Hl p n Hn) as (_ & _ & i & r & Hi & Hs & <- & <-). exists r.
        split; [by eapply list_elem_of_lookup_2|]. by rewrite Hs.
Qed.
End spec.

(** ** Instances *)

Definition ex_yes (a n : Z) : bool := true.
Definition ex_vm : vm := Vm [] [].

Lemma ex_kernel : kernel_ok 4096 ex_mmaps.
Proof. split; [apply page_4096_ok|]. split; [apply ex_mmaps_fresh|apply ex_mmaps_low]. Qed.

Lemma ex_align : align_ok 4096 64.
Proof. exists 6. split; [lia|]. split; [done|lia]. Qed.

Lemma ex_gop n : 0 ≤ n ≤ 2 ^ 62 → gop_ok 4096 (GAlloc n 64).
Proof. intros Hn. split; [done|apply ex_align]. Qed.

(** A heap after one allocation of 100 bytes. *)
Definition ex_guarded (pol : hf_guard_policy) : gh_heap * vm :=
  (gh_allocate 4096 ex_mmaps ex_yes ex_yes (gh_fresh pol) ex_vm 100 64).1.

Definition ex_block : gh_region := Region (2 ^ 20) (3 * 4096) (2 ^ 20 + 8192 - 128) 100 1.

Lemma ex_guarded_wf pol : gh_wf 4096 ex_yes (ex_guarded pol).1 (ex_guarded pol).2.
Proof.
  pose proof (gh_step_spec 4096 ex_mmaps ex_yes ex_yes (gh_fresh pol) ex_vm (GAlloc 100 64) ex_kernel (gh_fresh_wf 4096 ex_yes pol ex_vm)
    (ex_gop 100 ltac:(lia))) as H. cbn [gh_step] in H. unfold ex_guarded.
  destruct (gh_allocate _ _ _ _ _ _ _ _) as [[h v] p]. apply H.
Qed.

Lemma ex_guarded_block pol : gh_table (ex_guarded pol).1 !! 0%nat = Some ex_block.
Proof. by vm_compute. Qed.

(** Witness of C22: 100 bytes aligned to 64 on a new heap. *)
Lemma gh_allocate_guarded_witness :
  ∃ h' v' p, gh_allocate 4096 ex_mmaps ex_yes ex_yes (gh_fresh HF_GUARD_ABORT) ex_vm 100 64 = (h', v', p) ∧ p = 2 ^ 20 + 8192 - 128 ∧
    gh_wf 4096 ex_yes h' v' ∧ accessible v' p = true.
Proof.
  destruct (gh_allocate 4096 ex_mmaps ex_yes ex_yes (gh_fresh HF_GUARD_ABORT) ex_vm 100 64) as [[h' v'] p] eqn:E.
  assert (p = 2 ^ 20 + 8192 - 128) as Hp.
  { change p with ((h', v', p).2). rewrite <- E. by vm_compute. }
  exists h', v', p. split; [done|]. split; [done|].
  destruct (gh_allocate_guarded 4096 ex_mmaps ex_yes ex_yes _ _ 100 64 h' v' p ex_kernel (gh_fresh_wf 4096 ex_yes HF_GUARD_ABORT ex_vm) ltac:(lia) ex_align E)
    as (Hwf & _ & [(Hn & _)|(i & f & b & _ & _ & _ & _ & _ & Hacc & _)]); [lia|].
  split; [done|]. apply Hacc. unfold range. lia.
Defined.

(** A kernel that refuses every [mprotect]. *)
Definition ex_no (a n : Z) : bool := false.

(** The heap does not notice that its guards are missing: with a kernel that
    refuses every [mprotect], an allocation of 100 bytes succeeds and both
    pages next to its data page are accessible, and after the free so is the
    block itself. *)
Theorem gh_guards_refused :
  let '(h, v, p) := gh_allocate 4096 ex_mmaps ex_no ex_yes (gh_fresh HF_GUARD_ABORT) ex_vm 100 64 in
  p = 2 ^ 20 + 8192 - 128 ∧ accessible v (2 ^ 20) = true ∧ accessible v (2 ^ 20 + 8192) = true ∧
  accessible (gh_deallocate 4096 ex_no h v p).2 p = true.
Proof. by vm_compute. Qed.

(** Witness of C25: the block is freed, and two more operations follow. *)
Lemma gh_quarantine_forever_witness :
  ∃ h1 v1 h2 v2 results, gh_deallocate 4096 ex_yes (ex_guarded HF_GUARD_ABORT).1 (ex_guarded HF_GUARD_ABORT).2 (r_user ex_block) = (h1, v1) ∧
    gh_run 4096 ex_mmaps ex_yes ex_yes h1 v1 [GAlloc 10 64; GFree 7] = (h2, v2, results) ∧
    accessible v2 (r_user ex_block) = false ∧ gh_locate h2 (r_user ex_block) = Some (0%nat, HF_GUARD_QUARANTINE).
Proof.
  destruct (gh_deallocate 4096 ex_yes (ex_guarded HF_GUARD_ABORT).1 (ex_guarded HF_GUARD_ABORT).2 (r_user ex_block)) as [h1 v1] eqn:E1.
  destruct (gh_run 4096 ex_mmaps ex_yes ex_yes h1 v1 [GAlloc 10 64; GFree 7]) as [[h2 v2] results] eqn:E2.
  exists h1, v1, h2, v2, results. split; [done|]. split; [done|].
  assert (range (r_base ex_block) (r_total ex_block) (r_user ex_block)) as Hr by (cbn; unfold range; lia).
  assert (Forall (gop_ok 4096) [GAlloc 10 64; GFree 7]) as Hops by (constructor; [apply ex_gop; lia|repeat constructor]).
  destruct (gh_quarantine_forever 4096 ex_mmaps ex_yes ex_yes _ _ _ 0%nat ex_block h1 v1 _ h2 v2 results ex_kernel
    (ex_guarded_wf HF_GUARD_ABORT) (ex_guarded_block _) eq_refl eq_refl E1
    Hops E2 _ Hr) as (Ha & Hl & _).
  split; [by apply Ha|done].
Defined.

(** One allocation, and its free. *)
Lemma gh_slots_never_reclaimed_witness :
  ∃ h' v' results, gh_run 4096 ex_mmaps ex_yes ex_yes (gh_fresh HF_GUARD_ABORT) ex_vm [GAlloc 100 64; GFree (r_user ex_block)] = (h', v', results) ∧
    served results = 1 ∧ served results ≤ GH_MAX_REGIONS ∧
    ((gh_allocate 4096 ex_mmaps ex_yes ex_yes h' v' 100 64).2 = NULL ↔
     served results = GH_MAX_REGIONS ∨ ex_mmaps (vm_maps v') (4096 + round_up 100 4096 + 4096) = None).
Proof.
  destruct (gh_run 4096 ex_mmaps ex_yes ex_yes (gh_fresh HF_GUARD_ABORT) ex_vm [GAlloc 100 64; GFree (r_user ex_block)]) as [[h' v'] results] eqn:E.
  exists h', v', results. split; [done|]. split.
  { change results with ((h', v', results).2). rewrite <- E. by vm_compute. }
  apply (gh_slots_never_reclaimed 4096 ex_mmaps ex_yes ex_yes HF_GUARD_ABORT ex_vm [GAlloc 100 64; GFree (r_user ex_block)] h' v' results 100 64 ex_kernel);
    [|done|lia|apply ex_align].
  constructor; [apply ex_gop; lia|constructor; [done|constructor]].
Defined.

(** A process with that heap, under the continue policy. *)
Definition ex_proc : proc :=
  Proc {[ 0%nat := (ex_guarded HF_GUARD_CONTINUE).1 ]} (ex_guarded HF_GUARD_CONTINUE).2 (Some 0%nat) true SigDefault SigIgnore GhHandler GhHandler.

(** A write one byte behind the data pages is reported and its
    page opened. *)
Lemma gh_fault_verdict_witness :
  let '(p', out, written) := gh_handler 4096 ex_yes ex_proc SIGSEGV (2 ^ 20 + 8192) in
  out = Retried ∧ written = gh_report (2 ^ 20 + 8192) HF_GUARD_OVERFLOW ∧ accessible (pages p') (2 ^ 20 + 8192) = true.
Proof.
  pose proof (gh_fault_verdict 4096 ex_mmaps ex_yes ex_proc SIGSEGV (2 ^ 20 + 8192) 0 (ex_guarded HF_GUARD_CONTINUE).1 ex_kernel eq_refl
    (lookup_singleton_eq _ _) (ex_guarded_wf HF_GUARD_CONTINUE)) as H.
  destruct (gh_handler _ _ _ _ _) as [[p' out] written]. destruct H as [H _].
  destruct (H 0%nat ex_block (ex_guarded_block _) ltac:(done) ltac:(unfold range; cbn; lia)) as [_ Hc].
  assert (gh_policy (ex_guarded HF_GUARD_CONTINUE).1 = HF_GUARD_CONTINUE) as E by (by vm_compute). rewrite E in Hc.
  destruct Hc as (-> & -> & Hacc & _). split; [done|]. split; [reflexivity|]. by rewrite Hacc.
Defined.

(** A second heap in that process. *)
Lemma gh_second_heap_blind_witness :
  (gh_handler 4096 ex_yes (hf_guard_heap_create ex_proc (Some 1%nat) HF_GUARD_ABORT).1 SIGSEGV (2 ^ 20 + 8192)).2 = [].
Proof.
  apply (gh_second_heap_blind 4096 ex_yes ex_yes ex_proc 0 (ex_guarded HF_GUARD_CONTINUE).1 1 HF_GUARD_ABORT SIGSEGV (2 ^ 20 + 8192));
    [apply lookup_singleton_eq|done].
Defined.

(** Witness of C20: an allocation, a write into it and its free. *)
Lemma gh_client_safe_witness :
  ∃ c, client_run (hf_allocator_vtable0 := GH_VT 4096 ex_mmaps ex_yes ex_yes) (Client (gh_fresh HF_GUARD_ABORT, ex_vm) ∅ ∅ ∅)
         [CAlloc 100; CWrite (2 ^ 20 + 8192 - 112) 7; CFree (2 ^ 20 + 8192 - 112)] = Ok c ∧ client_ok HF_DEFAULT_ALIGN c.
Proof.
  destruct (gh_client_safe 4096 ex_mmaps ex_yes ex_yes HF_GUARD_ABORT ex_vm ∅
    [CAlloc 100; CWrite (2 ^ 20 + 8192 - 112) 7; CFree (2 ^ 20 + 8192 - 112)] ex_kernel) as (c & Hrun & Hok & _).
  - repeat constructor; simpl; lia.
  - exists c. split; [exact Hrun|exact Hok].
Defined.
