(* ===== verification/GuardThreads.v ===== *)
(** * The guard heap under threads

    The table of regions is shared without a lock: slots are taken with
    compare-and-swap, the fields of a slot are stored one by one, the counters
    are atomic.  Here every atomic operation, every store to a field and every
    load of [gh_find_by_user] is a step of its own, and the steps of any
    number of threads interleave in any order (the C11 atomics of the code are
    sequentially consistent).  The fields [total], [user] and [user_size] are
    not atomic in the source: taking their accesses as indivisible steps is an
    assumption about the compiler and the machine, and [gh_threads_race] shows
    two such accesses that C11 leaves undefined.  The invariant follows each
    mapping from the thread that made it, through its slot of the table, into
    quarantine. *)

From S2P Require Import Prelude Text Memory Platform Allocator GuardHeap GuardProofs GuardSpec.

(** ** Threads *)

(** Where a thread is; [r] is the entry of the block it works on. *)
Inductive gpc : Type :=
| Idle
| Scan (i : nat) (r : gh_region)                  (** [gh_reserve_slot], at slot [i] *)
| Fill (k i : nat) (r : gh_region)                (** [k] of the stores to slot [i] are done *)
| Count (i : nat) (r : gh_region)                 (** before the addition to [used_bytes] *)
| Peak (i : nat) (r : gh_region) (u : Z) (pk : option Z)  (** the loop on [peak_bytes] *)
| Find (j i : nat) (r : gh_region)                (** [gh_find_by_user], before the state of slot [j] *)
| FindUser (j i : nat) (r : gh_region)            (** ... before the pointer of slot [j] *)
| Sub (j i : nat) (r : gh_region)                 (** found in slot [j]; before the subtraction *)
| Quarantine (j : nat) (base total : Z) (i : nat) (r : gh_region)  (** before the protection *)
| Retire (j i : nat) (r : gh_region).             (** before the store of state 2 *)

(** A thread, and the blocks (slot and entry) it was given and has not freed. *)
Record thread : Type := Thread { t_pc : gpc; t_owned : list (nat * gh_region) }.

(** What the threads share. *)
Record shared : Type := Shared { sh_table : list gh_region; sh_used : Z; sh_peak : Z; sh_vm : vm }.

Definition sh_set_table (sh : shared) (t : list gh_region) : shared := Shared t (sh_used sh) (sh_peak sh) (sh_vm sh).
Definition sh_set_used (sh : shared) (u : Z) : shared := Shared (sh_table sh) u (sh_peak sh) (sh_vm sh).
Definition sh_set_peak (sh : shared) (p : Z) : shared := Shared (sh_table sh) (sh_used sh) p (sh_vm sh).
Definition sh_set_vm (sh : shared) (v : vm) : shared := Shared (sh_table sh) (sh_used sh) (sh_peak sh) v.

(** The stores of [gh_allocate] into its slot, in their order. *)
Definition fill_field (k : nat) (r s : gh_region) : gh_region :=
  match k with
  | 0%nat => Region (r_base s) (r_total r) (r_user s) (r_user_size s) (r_state s)
  | 1%nat => Region (r_base s) (r_total s) (r_user r) (r_user_size s) (r_state s)
  | 2%nat => Region (r_base s) (r_total s) (r_user s) (r_user_size r) (r_state s)
  | 3%nat => Region (r_base r) (r_total s) (r_user s) (r_user_size s) (r_state s)
  | _ => set_state 1 s
  end.

Section threads.
Context (ps : Z) (mmap : list (Z * Z) → Z → option Z) (mprotect_ok munmap_ok : Z → Z → bool).

(** One step of one thread. *)
Inductive tstep : shared → thread → shared → thread → Prop :=
| T_map sh own size a v r :
    0 ≤ size ≤ 2 ^ 62 → align_ok ps a → gh_map ps mmap mprotect_ok (sh_vm sh) size a = Some (v, r) →
    tstep sh (Thread Idle own) (sh_set_vm sh v) (Thread (Scan 0 r) own)
| T_cas_won sh own i r s :
    sh_table sh !! i = Some s → r_state s = 0 →
    tstep sh (Thread (Scan i r) own) (sh_set_table sh (<[i := set_state 1 s]> (sh_table sh))) (Thread (Fill 0 i r) own)
| T_cas_lost sh own i r s :
    sh_table sh !! i = Some s → r_state s ≠ 0 →
    tstep sh (Thread (Scan i r) own) sh (Thread (Scan (S i) r) own)
| T_full sh own i r :
    sh_table sh !! i = None →
    tstep sh (Thread (Scan i r) own) (sh_set_vm sh (gh_unmap ps munmap_ok (sh_vm sh) r)) (Thread Idle own)
| T_fill sh own k i r s :
    sh_table sh !! i = Some s → (k < 5)%nat →
    tstep sh (Thread (Fill k i r) own) (sh_set_table sh (<[i := fill_field k r s]> (sh_table sh))) (Thread (Fill (S k) i r) own)
| T_filled sh own i r :
    tstep sh (Thread (Fill 5 i r) own) sh (Thread (Count i r) own)
| T_count sh own i r :
    let u := sh_used sh +% r_user_size r in
    tstep sh (Thread (Count i r) own) (sh_set_used sh u) (Thread (Peak i r u None) own)
| T_peak_load sh own i r u :
    tstep sh (Thread (Peak i r u None) own) sh (Thread (Peak i r u (Some (sh_peak sh))) own)
| T_peak_low sh own i r u pk :
    u ≤ pk → tstep sh (Thread (Peak i r u (Some pk)) own) sh (Thread Idle ((i, r) :: own))
| T_peak_won sh own i r u pk :
    pk < u → sh_peak sh = pk → tstep sh (Thread (Peak i r u (Some pk)) own) (sh_set_peak sh u) (Thread Idle ((i, r) :: own))
| T_peak_lost sh own i r u pk :
    pk < u → tstep sh (Thread (Peak i r u (Some pk)) own) sh (Thread (Peak i r u (Some (sh_peak sh))) own)
| T_free sh own1 own2 i r :
    tstep sh (Thread Idle (own1 ++ (i, r) :: own2)) sh (Thread (Find 0 i r) (own1 ++ own2))
| T_find_other sh own j i r s :
    sh_table sh !! j = Some s → r_state s ≠ 1 → tstep sh (Thread (Find j i r) own) sh (Thread (Find (S j) i r) own)
| T_find_active sh own j i r s :
    sh_table sh !! j = Some s → r_state s = 1 → tstep sh (Thread (Find j i r) own) sh (Thread (FindUser j i r) own)
| T_find_none sh own j i r :
    sh_table sh !! j = None → tstep sh (Thread (Find j i r) own) sh (Thread Idle own)
| T_user_other sh own j i r s :
    sh_table sh !! j = Some s → r_user s ≠ r_user r → tstep sh (Thread (FindUser j i r) own) sh (Thread (Find (S j) i r) own)
| T_user_found sh own j i r s :
    sh_table sh !! j = Some s → r_user s = r_user r → tstep sh (Thread (FindUser j i r) own) sh (Thread (Sub j i r) own)
| T_sub sh own j i r s :
    sh_table sh !! j = Some s →
    tstep sh (Thread (Sub j i r) own) (sh_set_used sh (sh_used sh -% r_user_size s)) (Thread (Quarantine j (r_base s) (r_total s) i r) own)
| T_protect sh own j base total i r :
    tstep sh (Thread (Quarantine j base total i r) own)
      (sh_set_vm sh (hf_vm_protect ps mprotect_ok (sh_vm sh) base total HF_PROT_NONE).1) (Thread (Retire j i r) own)
| T_retire sh own j i r s :
    sh_table sh !! j = Some s →
    tstep sh (Thread (Retire j i r) own) (sh_set_table sh (<[j := set_state 2 s]> (sh_table sh))) (Thread Idle own).

(** A configuration, and a step of one of its threads. *)
Inductive gstep : shared * list thread → shared * list thread → Prop :=
| G_step sh sh' ts1 th th' ts2 : tstep sh th sh' th' → gstep (sh, ts1 ++ th :: ts2) (sh', ts1 ++ th' :: ts2).

(** ** Holdings *)

(** A mapping a thread is responsible for: the slot it has in the table with
    the number of stores done, its entry, whether its pages are already
    protected, and whether [used_bytes] counts it. *)
Record holding : Type := Holding { h_slot : option (nat * nat); h_reg : gh_region; h_prot : bool; h_counted : bool }.

Definition pc_holdings (pc : gpc) : list holding :=
  match pc with
  | Idle => []
  | Scan _ r => [Holding None r false false]
  | Fill k i r => [Holding (Some (i, k)) r false false]
  | Count i r => [Holding (Some (i, 5%nat)) r false false]
  | Peak i r _ _ | Find _ i r | FindUser _ i r | Sub _ i r => [Holding (Some (i, 5%nat)) r false true]
  | Quarantine _ _ _ i r => [Holding (Some (i, 5%nat)) r false false]
  | Retire _ i r => [Holding (Some (i, 5%nat)) r true false]
  end.

Definition owned_holding (o : nat * gh_region) : holding := Holding (Some (o.1, 5%nat)) o.2 false true.
Definition holdings (th : thread) : list holding := pc_holdings (t_pc th) ++ (owned_holding <$> t_owned th).
Definition all_holdings (ts : list thread) : list holding := ts ≫= holdings.

(** The scan of a free has not passed its block, and what it found is it. *)
Definition pc_ok (pc : gpc) : Prop :=
  match pc with
  | Find j i r | FindUser j i r => (j ≤ i)%nat
  | Sub j i r | Retire j i r => j = i
  | Quarantine j base total i r => j = i ∧ base = r_base r ∧ total = r_total r
  | Fill k _ _ => (k ≤ 5)%nat
  | _ => True
  end.

(** The contents of a slot after [k] stores. *)
Definition filled (k : nat) (r : gh_region) : gh_region :=
  Region (if (3 <? k)%nat then r_base r else 0) (if (0 <? k)%nat then r_total r else 0) (if (1 <? k)%nat then r_user r else 0)
         (if (2 <? k)%nat then r_user_size r else 0) 1.

Definition shown (e : holding) : gh_region := if h_prot e then set_state 2 (h_reg e) else h_reg e.
Definition h_idx (e : holding) : option nat := fst <$> h_slot e.
Definition h_base (e : holding) : Z := r_base (h_reg e).

Definition regions_apart (r s : gh_region) : Prop := r_base r + r_total r ≤ r_base s ∨ r_base s + r_total s ≤ r_base r.

Definition counted (E : list holding) : Z := foldr (λ e acc, (if h_counted e then r_user_size (h_reg e) else 0) + acc) 0 E.

Record ginv (sh : shared) (E : list holding) : Prop := {
  gi_slots : NoDup (omap h_idx E);
  gi_bases : NoDup (h_base <$> E);
  gi_reg e : e ∈ E → r_state (h_reg e) = 1 ∧ region_ok ps mprotect_ok (sh_vm sh) (shown e);
  gi_apart e e' : e ∈ E → e' ∈ E → h_base e ≠ h_base e' → regions_apart (h_reg e) (h_reg e');
  gi_table e i k : e ∈ E → h_slot e = Some (i, k) → sh_table sh !! i = Some (filled k (h_reg e));
  gi_rest j s : sh_table sh !! j = Some s → j ∉ omap h_idx E →
    s = region_zero ∨ (r_state s = 2 ∧ region_ok ps mprotect_ok (sh_vm sh) s ∧ ∀ e, e ∈ E → regions_apart (h_reg e) s);
  gi_used : sh_used sh = wrap64 (counted E)
}.

(** ** The invariant *)

Lemma counted_perm E E' : E ≡ₚ E' → counted E = counted E'.
Proof. unfold counted. induction 1; simpl; lia. Qed.

Lemma ginv_perm sh E E' : E ≡ₚ E' → ginv sh E → ginv sh E'.
Proof.
  intros HP []. assert (omap h_idx E ≡ₚ omap h_idx E') as HO by (by rewrite HP). constructor.
  - by rewrite <- HO.
  - by rewrite <- HP.
  - intros e. rewrite <- HP. auto.
  - intros e e'. rewrite <- HP. auto.
  - intros e i k. rewrite <- HP. eauto.
  - intros j s Hj. rewrite <- HO. intros Hn. destruct (gi_rest0 j s Hj Hn) as [|(? & ? & Ha)]; [by left|right].
    split; [done|]. split; [done|]. intros e. rewrite <- HP. auto.
  - by rewrite <- (counted_perm _ _ HP).
Qed.

Lemma region_ok_facts v r : region_ok ps mprotect_ok v r →
  0 < r_base r ∧ 0 < ps ∧ r_base r + ps ≤ r_user r ∧ r_user r < r_base r + r_total r ∧ 0 < r_total r.
Proof. intros [_ _ (? & _ & _) (_ & ? & ?) (? & ? & ?) _]. lia. Qed.

Lemma shown_facts v e : region_ok ps mprotect_ok v (shown e) →
  0 < r_base (h_reg e) ∧ 0 < ps ∧ r_base (h_reg e) + ps ≤ r_user (h_reg e) ∧ r_user (h_reg e) < r_base (h_reg e) + r_total (h_reg e) ∧ 0 < r_total (h_reg e).
Proof. intros H%region_ok_facts. unfold shown in H. by destruct (h_prot e). Qed.

Lemma filled_all r : r_state r = 1 → filled 5 r = r.
Proof. intros H. destruct r. simpl in *. by subst. Qed.

Lemma fill_field_filled k r : (k < 5)%nat → fill_field k r (filled k r) = filled (S k) r.
Proof. intros H. do 5 (destruct k as [|k]; [done|]). lia. Qed.

Lemma filled_user k r : r_user (filled k r) = 0 ∨ r_user (filled k r) = r_user r.
Proof. unfold filled. cbn [r_user]. destruct (1 <? k)%nat; auto. Qed.

Lemma omap_some e E i k : h_slot e = Some (i, k) → omap h_idx (e :: E) = i :: omap h_idx E.
Proof. intros H. cbn. unfold h_idx. by rewrite H. Qed.

Lemma omap_none e E : h_slot e = None → omap h_idx (e :: E) = omap h_idx E.
Proof. intros H. cbn. unfold h_idx. by rewrite H. Qed.

(** The other holdings have other slots and other mappings. *)
Lemma ginv_other sh e E o : ginv sh (e :: E) → o ∈ E →
  regions_apart (h_reg e) (h_reg o) ∧ (∀ i k i' k', h_slot e = Some (i, k) → h_slot o = Some (i', k') → i ≠ i').
Proof.
  intros Hi Ho. pose proof (gi_bases _ _ Hi) as Hb. rewrite fmap_cons in Hb. apply NoDup_cons in Hb as [Hb _]. split.
  - apply (gi_apart _ _ Hi); [by left|by right|]. intros E1. apply Hb. rewrite E1. by apply list_elem_of_fmap_2.
  - intros i k i' k' H1 H2 <-. pose proof (gi_slots _ _ Hi) as Hs. rewrite (omap_some _ _ _ _ H1) in Hs.
    apply NoDup_cons in Hs as [Hs _]. apply Hs, list_elem_of_omap. exists o. split; [done|]. unfold h_idx. by rewrite H2.
Qed.

(** Replacing one holding by another state of the same mapping. *)
Lemma ginv_update sh sh' e e' E : ginv sh (e :: E) → h_reg e' = h_reg e → NoDup (omap h_idx (e' :: E)) →
  region_ok ps mprotect_ok (sh_vm sh') (shown e') → (∀ o, o ∈ E → region_ok ps mprotect_ok (sh_vm sh') (shown o)) →
  (∀ i k, h_slot e' = Some (i, k) → sh_table sh' !! i = Some (filled k (h_reg e))) →
  (∀ o i k, o ∈ E → h_slot o = Some (i, k) → sh_table sh' !! i = sh_table sh !! i) →
  (∀ j s, sh_table sh' !! j = Some s → j ∉ omap h_idx (e' :: E) →
     s = region_zero ∨ (r_state s = 2 ∧ region_ok ps mprotect_ok (sh_vm sh') s ∧ ∀ o, o ∈ e :: E → regions_apart (h_reg o) s)) →
  sh_used sh' = wrap64 (counted (e' :: E)) → ginv sh' (e' :: E).
Proof.
  intros Hi Hreg Hnd Hok Hoks Htab Htabs Hrest Hu. assert (h_base e' = h_base e) as Hb by (unfold h_base; by rewrite Hreg). constructor; try done.
  - pose proof (gi_bases _ _ Hi) as H. rewrite fmap_cons in *. by rewrite Hb.
  - intros o [->|Ho]%elem_of_cons; [rewrite Hreg; split; [|done]; by apply (gi_reg _ _ Hi); left|].
    split; [by apply (gi_reg _ _ Hi); right|auto].
  - intros o o' [->|Ho]%elem_of_cons [->|Ho']%elem_of_cons; rewrite ?Hb, ?Hreg; try done; intros Hne; apply (gi_apart _ _ Hi); try done;
      (by left) || (by right).
  - intros o i k [->|Ho]%elem_of_cons Hs; [rewrite Hreg; auto|]. rewrite (Htabs o i k Ho Hs). apply (gi_table _ _ Hi); [by right|done].
  - intros j s Hj Hn. destruct (Hrest j s Hj Hn) as [|(? & ? & Ha)]; [by left|right]. split; [done|]. split; [done|].
    intros o [->|Ho]%elem_of_cons; [rewrite Hreg; apply Ha; by left|apply Ha; by right].
Qed.

(** A store into the slot one holds. *)
Lemma ginv_store sh e E i k k' : ginv sh (e :: E) → h_slot e = Some (i, k) →
  ginv (sh_set_table sh (<[i := filled k' (h_reg e)]> (sh_table sh))) (Holding (Some (i, k')) (h_reg e) (h_prot e) (h_counted e) :: E).
Proof.
  intros Hi Hs. pose proof (gi_table _ _ Hi e i k ltac:(by left) Hs) as Ht.
  assert (omap h_idx (Holding (Some (i, k')) (h_reg e) (h_prot e) (h_counted e) :: E) = omap h_idx (e :: E)) as Ho.
  { by rewrite (omap_some _ _ i k Hs), (omap_some _ _ i k'). }
  eapply ginv_update; [done|done| | | | | | |].
  - rewrite Ho. apply Hi.
  - apply (gi_reg _ _ Hi e). by left.
  - intros o Hin. apply (gi_reg _ _ Hi o). by right.
  - intros i' k1 [= <- <-]. cbn. by eapply list_lookup_insert_eq, lookup_lt_Some.
  - intros o i' k1 Hin Hso. cbn. apply list_lookup_insert_ne. by apply (proj2 (ginv_other _ _ _ _ Hi Hin) i k i' k1).
  - intros j s Hj. rewrite Ho. intros Hn. cbn in Hj. apply (gi_rest _ _ Hi j s); [|done]. rewrite list_lookup_insert_ne in Hj; [done|].
    intros <-. apply Hn. rewrite (omap_some _ _ i k Hs). by left.
  - cbn. rewrite (gi_used _ _ Hi). done.
Qed.

(** Winning the compare-and-swap. *)
Lemma ginv_acquire sh r E i s : ginv sh (Holding None r false false :: E) → sh_table sh !! i = Some s → r_state s = 0 →
  ginv (sh_set_table sh (<[i := set_state 1 s]> (sh_table sh))) (Holding (Some (i, 0%nat)) r false false :: E).
Proof.
  intros Hi Ht Hs. assert (i ∉ omap h_idx E) as Hn.
  { intros (o & Hin & Ho)%list_elem_of_omap. unfold h_idx in Ho. destruct (h_slot o) as [[i' k]|] eqn:Eo; [|done]. cbn in Ho. injection Ho as ->.
    pose proof (gi_table _ _ Hi o i k ltac:(by right) Eo) as H. rewrite Ht in H. injection H as ->. done. }
  assert (s = region_zero) as ->.
  { destruct (gi_rest _ _ Hi i s Ht Hn) as [|(? & _)]; [done|lia]. }
  eapply ginv_update; [done|done| | | | | | |].
  - rewrite (omap_some _ _ i 0%nat) by done. apply NoDup_cons. split; [done|]. pose proof (gi_slots _ _ Hi) as H. by rewrite omap_none in H.
  - apply (gi_reg _ _ Hi (Holding None r false false)). by left.
  - intros o Hin. apply (gi_reg _ _ Hi o). by right.
  - intros i' k [= <- <-]. cbn. by eapply list_lookup_insert_eq, lookup_lt_Some.
  - intros o i' k Hin Hso. cbn. apply list_lookup_insert_ne. intros <-. apply Hn, list_elem_of_omap. exists o. split; [done|].
    unfold h_idx. by rewrite Hso.
  - intros j s Hj Hnj. rewrite (omap_some _ _ i 0%nat) in Hnj by done. cbn in Hj. apply not_elem_of_cons in Hnj as [Hne Hnj].
    apply (gi_rest _ _ Hi j s); [|by rewrite omap_none]. by rewrite list_lookup_insert_ne in Hj.
  - cbn. by rewrite (gi_used _ _ Hi).
Qed.

(** Counting in and out. *)
Lemma ginv_count sh e E c used : ginv sh (e :: E) →
  used = wrap64 (sh_used sh - (if h_counted e then r_user_size (h_reg e) else 0) + (if c : bool then r_user_size (h_reg e) else 0)) →
  ginv (sh_set_used sh used) (Holding (h_slot e) (h_reg e) (h_prot e) c :: E).
Proof.
  intros Hi ->. eapply ginv_update; [done|done| | | | | | |].
  - apply (gi_slots _ _ Hi).
  - apply (gi_reg _ _ Hi e). by left.
  - intros o Hin. apply (gi_reg _ _ Hi o). by right.
  - intros i k Hs. apply (gi_table _ _ Hi e); [by left|done].
  - done.
  - intros j s Hj Hn. by apply (gi_rest _ _ Hi j s).
  - cbn [sh_used sh_set_used]. rewrite (gi_used _ _ Hi). cbn [counted foldr h_counted h_reg]. fold (counted E).
    unfold wrap64. rewrite <- Zplus_mod_idemp_l, Zminus_mod_idemp_l, Zplus_mod_idemp_l. f_equal. lia.
Qed.

(** Dropping a holding that no slot of the table mentions, or whose slot is
    quarantined. *)
Lemma ginv_drop sh sh' e E : ginv sh (e :: E) → h_counted e = false →
  (∀ o, o ∈ E → region_ok ps mprotect_ok (sh_vm sh') (shown o)) →
  (∀ o i k, o ∈ E → h_slot o = Some (i, k) → sh_table sh' !! i = sh_table sh !! i) →
  (∀ j s, sh_table sh' !! j = Some s → j ∉ omap h_idx E →
     s = region_zero ∨ (r_state s = 2 ∧ region_ok ps mprotect_ok (sh_vm sh') s ∧ ∀ o, o ∈ E → regions_apart (h_reg o) s)) →
  sh_used sh' = sh_used sh → ginv sh' E.
Proof.
  intros Hi Hc Hoks Htabs Hrest Hu. constructor; try done.
  - pose proof (gi_slots _ _ Hi) as H. destruct (h_slot e) as [[i k]|] eqn:Es.
    + rewrite (omap_some _ _ _ _ Es) in H. by apply NoDup_cons in H as [_ H].
    + by rewrite (omap_none _ _ Es) in H.
  - pose proof (gi_bases _ _ Hi) as H. rewrite fmap_cons in H. by apply NoDup_cons in H as [_ H].
  - intros o Ho. split; [by apply (gi_reg _ _ Hi); right|auto].
  - intros o o' Ho Ho'. apply (gi_apart _ _ Hi); by right.
  - intros o i k Ho Hs. rewrite (Htabs o i k Ho Hs). apply (gi_table _ _ Hi); [by right|done].
  - rewrite Hu, (gi_used _ _ Hi). cbn [counted foldr]. rewrite Hc. done.
Qed.

(** The pages of the others, when only pages of one mapping change. *)
Lemma region_ok_apart v v' r s : region_ok ps mprotect_ok v s → regions_apart r s → 0 < r_total r →
  (∀ m, m ∈ vm_maps v → m.1 ≠ r_base r → m ∈ vm_maps v') →
  (∀ x, ¬ range (r_base r) (r_total r) x → accessible v' x = accessible v x) → region_ok ps mprotect_ok v' s.
Proof.
  intros Hs Ha Hr Hmaps Hacc. pose proof (region_ok_facts _ _ Hs) as (? & ? & ? & ? & ?). eapply region_ok_frame; [exact Hs| |].
  - apply Hmaps; [apply Hs|]. cbn. destruct Ha; lia.
  - intros x Hx. apply Hacc. unfold range in *. destruct Ha; lia.
Qed.

Lemma regions_apart_sym r s : regions_apart r s → regions_apart s r.
Proof. unfold regions_apart. tauto. Qed.

Lemma shown_apart r o : regions_apart r (h_reg o) → regions_apart r (shown o).
Proof. unfold shown. by destruct (h_prot o). Qed.

(** Protecting the whole mapping of a block that is being freed. *)
Lemma ginv_protect sh sl r E : ginv sh (Holding sl r false false :: E) →
  ginv (sh_set_vm sh (vm_try mprotect_ok (sh_vm sh) (r_base r) (r_total r) HF_PROT_NONE)) (Holding sl r true false :: E).
Proof.
  intros Hi. set (e := Holding sl r false false). pose proof (gi_reg _ _ Hi e ltac:(by left)) as [Hs Hok].
  pose proof (shown_facts _ _ Hok) as (? & ? & ? & ? & Ht). cbn [h_reg e] in *.
  assert (∀ x, ¬ range (r_base r) (r_total r) x →
    accessible (vm_try mprotect_ok (sh_vm sh) (r_base r) (r_total r) HF_PROT_NONE) x = accessible (sh_vm sh) x) as Hacc.
  { intros x Hx. by rewrite accessible_close, (proj2 (covers_false _ _ _) Hx). }
  eapply ginv_update; [done|done|apply (gi_slots _ _ Hi)| | | | | |]; cbn [sh_vm sh_set_vm sh_table sh_used].
  - by apply gh_free_region.
  - intros o Ho. apply (region_ok_apart (sh_vm sh) _ r); [by apply (gi_reg _ _ Hi); right|apply shown_apart, (ginv_other _ _ _ _ Hi Ho)|done|by rewrite vm_try_maps|done].
  - intros i k Hsl. apply (gi_table _ _ Hi e); [by left|done].
  - done.
  - intros j s Hj Hn. destruct (gi_rest _ _ Hi j s Hj Hn) as [|(? & ? & Ha)]; [by left|right]. split; [done|]. split; [|done].
    apply (region_ok_apart (sh_vm sh) _ r); [done|by apply (Ha e); left|done|by rewrite vm_try_maps|done].
  - apply (gi_used _ _ Hi).
Qed.

(** Storing the quarantined state ends the responsibility for the mapping. *)
Lemma ginv_retire sh r E i : ginv sh (Holding (Some (i, 5%nat)) r true false :: E) →
  ginv (sh_set_table sh (<[i := set_state 2 r]> (sh_table sh))) E.
Proof.
  intros Hi. set (e := Holding (Some (i, 5%nat)) r true false). pose proof (gi_reg _ _ Hi e ltac:(by left)) as [Hs Hok].
  eapply ginv_drop; [exact Hi|done| | | |done]; cbn [sh_vm sh_set_table sh_table].
  - intros o Ho. by apply (gi_reg _ _ Hi); right.
  - intros o i' k Ho Hso. apply list_lookup_insert_ne. by apply (proj2 (ginv_other _ _ _ _ Hi Ho) i 5%nat i' k).
  - intros j s Hj Hn. apply list_lookup_insert_Some in Hj as [(-> & <- & _)|[Hne Hj]].
    + right. split; [done|]. split; [exact Hok|]. intros o Ho. apply regions_apart_sym. apply (ginv_other _ _ _ _ Hi Ho).
    + destruct (gi_rest _ _ Hi j s Hj) as [|(? & ? & Ha)]; [|by left|right].
      * rewrite (omap_some _ _ i 5%nat) by done. by apply not_elem_of_cons.
      * split; [done|]. split; [done|]. intros o Ho. apply Ha. by right.
Qed.

(** Giving the mapping back when there is no slot. *)
Lemma ginv_full sh r E : page_size_ok ps → ginv sh (Holding None r false false :: E) →
  ginv (sh_set_vm sh (gh_unmap ps munmap_ok (sh_vm sh) r)) E.
Proof.
  intros Hps Hi. set (e := Holding None r false false). pose proof (gi_reg _ _ Hi e ltac:(by left)) as [Hs Hok].
  pose proof (shown_facts _ _ Hok) as (? & ? & ? & ? & Ht). cbn [h_reg e] in *.
  destruct Hok as [_ _ (_ & _ & Hlim) (Hd & _ & _) _ _]. cbn in Hlim, Hd.
  assert (∀ s, region_ok ps mprotect_ok (sh_vm sh) s → regions_apart r s → region_ok ps mprotect_ok (gh_unmap ps munmap_ok (sh_vm sh) r) s) as Hfr.
  { intros s Hok Ha. unfold gh_unmap. destruct (hf_vm_release _ _ _ _); [|done].
    rewrite hf_align_up_page, round_up_id by (done || lia). apply (region_ok_apart (sh_vm sh) _ r); try done.
    - intros [q n] Hm Hq. cbn. apply list_elem_of_filter. split; [|done]. intros [= -> _]. done.
    - intros x Hx. by apply accessible_unmap. }
  eapply ginv_drop; [exact Hi|done| |done| |done]; cbn [sh_vm sh_set_vm sh_table].
  - intros o Ho. apply Hfr; [by apply (gi_reg _ _ Hi); right|apply shown_apart, (ginv_other _ _ _ _ Hi Ho)].
  - intros j s Hj Hn. destruct (gi_rest _ _ Hi j s Hj) as [|(? & ? & Ha)]; [by rewrite omap_none|by left|right].
    split; [done|]. split; [apply Hfr; [done|by apply (Ha e); left]|]. intros o Ho. apply Ha. by right.
Qed.

(** A new mapping. *)
Lemma ginv_map sh E size a v r : kernel_ok ps mmap → ginv sh E → 0 ≤ size ≤ 2 ^ 62 → align_ok ps a →
  gh_map ps mmap mprotect_ok (sh_vm sh) size a = Some (v, r) → ginv (sh_set_vm sh v) (Holding None r false false :: E).
Proof.
  intros (Hps & Hmm & Hlow) Hi Hs Ha Hmap. destruct (data_of_spec ps Hps size Hs) as (Hdd & Hdb & Hpb).
  destruct (gh_map_spec ps mmap mprotect_ok Hps Hmm Hlow (sh_vm sh) size a Hs Ha) as [Hm Hfresh]. rewrite Hm in Hmap. clear Hm.
  set (dp := data_of ps size) in *. destruct (mmap _ _) as [base|] eqn:Em; [|done]. injection Hmap as <- <-.
  specialize (Hfresh base eq_refl). pose proof Hfresh as (Hb & Hbd & Hlim & Hf).
  destruct (gh_place_spec ps Hps base dp (Z.max 1 size) _ Hb Hbd Hdd ltac:(lia) ltac:(lia) (align_default ps Hps a Ha)) as (Hu1 & _ & Hu3).
  set (user := gh_place _ _ _ _ _) in *. set (r := Region base (ps + dp + ps) user (Z.max 1 size) 1).
  pose proof (gh_alloc_region ps mprotect_ok (sh_vm sh) base dp user (Z.max 1 size) Hpb Hdd Hfresh ltac:(lia) Hu1 ltac:(lia)) as Hr. fold r in Hr.
  destruct (vm_guarded_same ps mprotect_ok (sh_vm sh) base dp ltac:(lia) ltac:(lia) Hfresh) as [Hsub Hsame].
  assert (∀ s, region_ok ps mprotect_ok (sh_vm sh) s → regions_apart r s) as Hap.
  { intros s Hok. apply (Hf (r_base s) (r_total s)). apply Hok. }
  assert (∀ s, region_ok ps mprotect_ok (sh_vm sh) s → region_ok ps mprotect_ok (vm_guarded ps mprotect_ok (sh_vm sh) base dp) s) as Hfr.
  { intros s Hok. eapply region_ok_frame; [exact Hok|apply Hsub, Hok|]. intros x Hx. apply Hsame, (mapped_in _ _ _ _ (ro_mapped _ _ _ _ Hok) Hx). }
  assert (∀ o, o ∈ E → regions_apart r (h_reg o)) as Hapo.
  { intros o Ho. pose proof (gi_reg _ _ Hi o Ho) as [_ Hok]. apply Hap in Hok. unfold shown in Hok. by destruct (h_prot o). }
  constructor; cbn [sh_vm sh_set_vm sh_table sh_used].
  - rewrite omap_none by done. apply Hi.
  - rewrite fmap_cons. apply NoDup_cons. split; [|apply Hi]. intros (o & Eo & Ho)%list_elem_of_fmap.
    pose proof (gi_reg _ _ Hi o Ho) as [_ Hok]. apply shown_facts in Hok as (? & ? & ? & ? & ?). specialize (Hapo o Ho).
    unfold h_base in Eo. cbn in Eo. destruct Hapo; cbn in *; lia.
  - intros o [->|Ho]%elem_of_cons; [done|]. pose proof (gi_reg _ _ Hi o Ho) as [? ?]. split; [done|auto].
  - intros o o' [->|Ho]%elem_of_cons [->|Ho']%elem_of_cons Hne; [done|by apply Hapo|by apply regions_apart_sym, Hapo|by apply (gi_apart _ _ Hi)].
  - intros o i k [->|Ho]%elem_of_cons Hsl; [done|]. by apply (gi_table _ _ Hi).
  - intros j s Hj Hn. rewrite omap_none in Hn by done. destruct (gi_rest _ _ Hi j s Hj Hn) as [|(? & ? & Ha')]; [by left|right].
    split; [done|]. split; [auto|]. intros o [->|Ho]%elem_of_cons; [by apply Hap|auto].
  - apply (gi_used _ _ Hi).
Qed.

(** The slot of a published block holds its entry. *)
Lemma ginv_own sh i r c p E : ginv sh (Holding (Some (i, 5%nat)) r p c :: E) → sh_table sh !! i = Some r ∧ r_state r = 1.
Proof.
  intros Hi. set (e := Holding (Some (i, 5%nat)) r p c). pose proof (gi_reg _ _ Hi e ltac:(by left)) as [Hs _].
  pose proof (gi_table _ _ Hi e i 5%nat ltac:(by left) eq_refl) as Ht. cbn [h_reg e] in *. by rewrite filled_all in Ht.
Qed.

(** A pointer is found in the slot of its own block only, even while other
    slots are half filled. *)
Lemma ginv_find sh i r c p E j s : ginv sh (Holding (Some (i, 5%nat)) r p c :: E) → sh_table sh !! j = Some s → r_user s = r_user r → j = i.
Proof.
  intros Hi Hj Hu. set (e := Holding (Some (i, 5%nat)) r p c). pose proof (gi_reg _ _ Hi e ltac:(by left)) as [Hs Hok].
  apply shown_facts in Hok as (? & ? & ? & ? & ?). cbn [h_reg e] in *. destruct (decide (j = i)) as [|Hne]; [done|exfalso].
  destruct (decide (j ∈ omap h_idx E)) as [(o & Ho & Eo)%list_elem_of_omap|Hn].
  - unfold h_idx in Eo. destruct (h_slot o) as [[j' k]|] eqn:Es; [|done]. cbn in Eo. injection Eo as ->.
    pose proof (gi_table _ _ Hi o j k ltac:(by right) Es) as Ht. rewrite Hj in Ht. injection Ht as ->.
    destruct (ginv_other _ _ _ _ Hi Ho) as [Ha _]. pose proof (gi_reg _ _ Hi o ltac:(by right)) as [_ Hok].
    apply shown_facts in Hok as (? & ? & ? & ? & ?). cbn [h_reg] in Ha. destruct (filled_user k (h_reg o)) as [E0|E0]; rewrite E0 in Hu; [lia|].
    destruct Ha; lia.
  - destruct (gi_rest _ _ Hi j s Hj) as [->|(_ & Hok & Ha)].
    + rewrite (omap_some _ _ i 5%nat) by done. by apply not_elem_of_cons.
    + cbn in Hu. lia.
    + specialize (Ha e ltac:(by left)). apply region_ok_facts in Hok as (? & ? & ? & ? & ?). cbn [h_reg e] in Ha. destruct Ha; lia.
Qed.

(** A step of one thread keeps the invariant, whatever the others hold. *)
Lemma tstep_inv sh th sh' th' E : kernel_ok ps mmap → tstep sh th sh' th' → pc_ok (t_pc th) → ginv sh (holdings th ++ E) →
  ginv sh' (holdings th' ++ E) ∧ pc_ok (t_pc th').
Proof.
  intros Hk Hst Hpc. pose proof Hk as (Hps & _ & _). destruct Hst; unfold holdings; cbn [t_pc t_owned pc_holdings app pc_ok] in *; intros Hi.
  - split; [|done]. by eapply ginv_map.
  - split; [|lia]. by eapply ginv_acquire.
  - done.
  - split; [|done]. by apply ginv_full.
  - split; [|lia]. pose proof (gi_table _ _ Hi _ i k ltac:(by left) eq_refl) as Ht. rewrite H in Ht. injection Ht as ->.
    cbn [h_reg]. rewrite fill_field_filled by done. by apply (ginv_store sh (Holding (Some (i, k)) r false false) _ i k (S k)).
  - done.
  - split; [|done]. apply (ginv_count sh (Holding (Some (i, 5%nat)) r false false) _ true u Hi). cbn. subst u. by rewrite Z.sub_0_r.
  - done.
  - done.
  - split; [|done]. by destruct Hi; constructor.
  - done.
  - split; [|lia]. eapply ginv_perm; [|exact Hi]. rewrite !fmap_app, fmap_cons, <- !app_assoc. cbn [app]. symmetry. apply Permutation_middle.
  - split; [done|]. destruct (ginv_own _ _ _ _ _ _ Hi) as [Ht Hs]. destruct (decide (j = i)) as [->|]; [congruence|lia].
  - done.
  - exfalso. destruct (ginv_own _ _ _ _ _ _ Hi) as [Ht Hs]. apply lookup_lt_Some in Ht. apply lookup_ge_None in H. lia.
  - split; [done|]. destruct (ginv_own _ _ _ _ _ _ Hi) as [Ht Hs]. destruct (decide (j = i)) as [->|]; [congruence|lia].
  - split; [done|]. by eapply ginv_find.
  - subst j. destruct (ginv_own _ _ _ _ _ _ Hi) as [Ht Hs]. assert (s = r) as -> by congruence. split; [|done].
    apply (ginv_count sh (Holding (Some (i, 5%nat)) r false true) _ false _ Hi). cbn. by rewrite Z.add_0_r.
  - destruct Hpc as (-> & -> & ->). split; [|done]. pose proof (gi_reg _ _ Hi _ ltac:(by left)) as [_ [_ _ (? & _ & ?) (? & ? & ?) _ _]].
    cbn in *. rewrite vm_protect_eq by (done || lia). by apply ginv_protect.
  - subst j. destruct (ginv_own _ _ _ _ _ _ Hi) as [Ht Hs]. assert (s = r) as -> by congruence. split; [|done]. by apply ginv_retire.
Qed.

(** The invariant of a configuration. *)
Definition conf_inv (c : shared * list thread) : Prop :=
  ginv c.1 (all_holdings c.2) ∧ Forall (λ th, pc_ok (t_pc th)) c.2.

Lemma gstep_inv c c' : kernel_ok ps mmap → gstep c c' → conf_inv c → conf_inv c'.
Proof.
  intros Hk [sh sh' ts1 th th' ts2 Hst] [Hi Hp]. cbn in *. apply Forall_app in Hp as [Hp1 Hp2]. apply Forall_cons in Hp2 as [Hp Hp2].
  assert (∀ t, all_holdings (ts1 ++ t :: ts2) ≡ₚ holdings t ++ all_holdings (ts1 ++ ts2)) as HP.
  { intros t. unfold all_holdings. rewrite !bind_app. cbn [mbind list_bind]. change (list_bind _ _ holdings ts2) with (ts2 ≫= holdings).
    rewrite Permutation_app_swap_app. done. }
  destruct (tstep_inv sh th sh' th' (all_holdings (ts1 ++ ts2)) Hk Hst Hp) as [Hi' Hp']; [eapply ginv_perm; [apply HP|done]|].
  split; cbn; [eapply ginv_perm; [symmetry; apply HP|done]|]. apply Forall_app. split; [done|]. by constructor.
Qed.

(** A new heap with idle threads. *)
Definition conf_start (v : vm) (n : nat) : shared * list thread :=
  (Shared (replicate (Z.to_nat GH_MAX_REGIONS) region_zero) 0 0 v, replicate n (Thread Idle [])).

Lemma conf_start_inv v n : conf_inv (conf_start v n).
Proof.
  assert (all_holdings (replicate n (Thread Idle [])) = []) as E by (induction n as [|n IH]; [done|exact IH]).
  split; unfold conf_start; cbn [fst snd].
  - rewrite E. constructor; try (by constructor); try done.
    + intros e He. by apply elem_of_nil in He.
    + intros e e' He. by apply elem_of_nil in He.
    + intros e i k He. by apply elem_of_nil in He.
    + intros j s Hj _. cbn in Hj. apply lookup_replicate in Hj as [-> _]. by left.
  - apply Forall_replicate. done.
Qed.

Lemma reachable_inv v n c : kernel_ok ps mmap → rtc gstep (conf_start v n) c → conf_inv c.
Proof.
  intros Hk Hr. pose proof (conf_start_inv v n) as H. induction Hr as [|c1 c2 c3 Hst _ IH]; [done|]. apply IH. by eapply gstep_inv.
Qed.

(** ** What the threads see *)

Lemma NoDup_fmap_elem {A B} (f : A → B) l x y : NoDup (f <$> l) → x ∈ l → y ∈ l → f x = f y → x = y.
Proof.
  intros Hnd Hx Hy E. induction l as [|z l IH]; [by apply elem_of_nil in Hx|]. rewrite fmap_cons in Hnd. apply NoDup_cons in Hnd as [Hz Hnd].
  apply elem_of_cons in Hx as [->|Hx]; apply elem_of_cons in Hy as [->|Hy]; [done| | |auto].
  - destruct Hz. rewrite E. by apply list_elem_of_fmap_2.
  - destruct Hz. rewrite <- E. by apply list_elem_of_fmap_2.
Qed.

(** Holdings with different slots are different mappings. *)
Lemma ginv_slots_apart sh E e e' i k i' k' : ginv sh E → e ∈ E → e' ∈ E → h_slot e = Some (i, k) → h_slot e' = Some (i', k') → i ≠ i' →
  regions_apart (h_reg e) (h_reg e').
Proof.
  intros Hi He He' Hs Hs' Hne. apply (gi_apart _ _ Hi); [done|done|]. intros Eb.
  pose proof (NoDup_fmap_elem h_base E e e' (gi_bases _ _ Hi) He He' Eb) as <-. congruence.
Qed.

Lemma owned_elem ts t th i r : ts !! t = Some th → (i, r) ∈ t_owned th → owned_holding (i, r) ∈ all_holdings ts.
Proof.
  intros Ht Ho. apply list_elem_of_bind. exists th. split; [|by eapply list_elem_of_lookup_2]. unfold holdings.
  apply elem_of_app. right. by apply list_elem_of_fmap_2.
Qed.

Lemma owned_idx own : omap h_idx (owned_holding <$> own) = own.*1.
Proof. induction own as [|[i r] own IH]; [done|]. rewrite !fmap_cons, (omap_some _ _ i 5%nat) by done. by rewrite IH. Qed.

(** The blocks of one thread are in different slots, and so are the blocks of
    two threads. *)
Lemma owned_slots sh ts t th : ginv sh (all_holdings ts) → ts !! t = Some th →
  NoDup (t_owned th).*1 ∧ ∀ t' th' i r j s, t' ≠ t → ts !! t' = Some th' → (i, r) ∈ t_owned th → (j, s) ∈ t_owned th' → i ≠ j.
Proof.
  intros Hi Ht. pose proof (gi_slots _ _ Hi) as Hnd. rewrite <- (take_drop_middle ts t th Ht) in Hnd. unfold all_holdings in Hnd.
  rewrite bind_app in Hnd. cbn [mbind list_bind] in Hnd. change (list_bind _ _ holdings (drop (S t) ts)) with (drop (S t) ts ≫= holdings) in Hnd.
  rewrite Permutation_app_swap_app, omap_app in Hnd. apply NoDup_app in Hnd as (Hnd & Hdis & _).
  unfold holdings at 1 in Hnd. rewrite omap_app, owned_idx in Hnd. apply NoDup_app in Hnd as (_ & _ & Hnd). split; [done|].
  intros t' th' i r j s Hne Ht' Hir Hjs <-. apply (Hdis i).
  - unfold holdings. rewrite omap_app, owned_idx. apply elem_of_app. right. apply list_elem_of_fmap. by exists (i, r).
  - apply list_elem_of_omap. exists (owned_holding (i, s)). split; [|done]. rewrite <- bind_app. apply list_elem_of_bind. exists th'.
    split; [unfold holdings; apply elem_of_app; right; by apply list_elem_of_fmap_2|].
    apply elem_of_app. destruct (decide (t' < t)%nat).
    + left. apply (list_elem_of_lookup_2 _ t'). by rewrite lookup_take_lt.
    + right. apply (list_elem_of_lookup_2 _ (t' - S t)). rewrite lookup_drop. by replace (S t + (t' - S t))%nat with t' by lia.
Qed.

(** The guard heap under threads, with every load and store of a word taken as
    indivisible ([gh_threads_race] is where C11 does not grant that).  From a
    new heap, in every interleaving of the steps of any number of threads that
    allocate (sizes up to 2^62, power-of-two alignments up to a page) and free
    their own blocks: each block a thread owns has its complete entry in its
    slot and its bytes are accessible; its guard pages are closed where the
    kernel granted it; two blocks, of the same or of different threads, have
    different slots and disjoint mappings; a free that is under way finds its
    block; quarantined mappings are inaccessible where the kernel granted it;
    and [used_bytes] is the sum of the blocks counted in. *)
Theorem gh_threads_safe v n sh ts :
  kernel_ok ps mmap → rtc gstep (conf_start v n) (sh, ts) →
  (∀ t th i r, ts !! t = Some th → (i, r) ∈ t_owned th →
     sh_table sh !! i = Some r ∧ r_state r = 1 ∧
     (∀ x, range (r_user r) (r_user_size r) x → accessible (sh_vm sh) x = true) ∧
     (∀ x b, b = r_base r ∨ b = r_base r + r_total r - ps → mprotect_ok b ps = true → range b ps x → accessible (sh_vm sh) x = false)) ∧
  (∀ t th, ts !! t = Some th → NoDup (t_owned th).*1) ∧
  (∀ t th t' th' i r j s, ts !! t = Some th → ts !! t' = Some th' → (i, r) ∈ t_owned th → (j, s) ∈ t_owned th' →
     (t ≠ t' → i ≠ j) ∧ (i ≠ j → regions_apart r s)) ∧
  (∀ t own j i r, ts !! t = Some (Thread (Find j i r) own) → (j ≤ i)%nat ∧ sh_table sh !! i = Some r) ∧
  (∀ j s x, sh_table sh !! j = Some s → r_state s = 2 → mprotect_ok (r_base s) (r_total s) = true →
     range (r_base s) (r_total s) x → accessible (sh_vm sh) x = false) ∧
  sh_used sh = wrap64 (counted (all_holdings ts)).
Proof.
  intros Hk Hr. destruct (reachable_inv v n (sh, ts) Hk Hr) as [Hi Hp]. cbn [fst snd] in *. split_and!.
  - intros t th i r Ht Ho. pose proof (owned_elem ts t th i r Ht Ho) as He. pose proof (gi_reg _ _ Hi _ He) as [Hs Hok].
    pose proof (gi_table _ _ Hi _ i 5%nat He eq_refl) as Htab. cbn in Hs, Hok. cbn [owned_holding h_reg snd] in Htab. rewrite filled_all in Htab by done.
    destruct Hok as [_ _ _ (_ & Hp0 & Htot) (Hu1 & Hu2 & Hu3) Hg]. split_and!; try done.
    + intros x Hx. unfold range in Hx. rewrite Hg by (unfold range; lia). unfold closed.
      by rewrite Hs, !(proj2 (covers_false _ _ _)) by (unfold range; lia).
    + intros x b [-> | ->] Hgr Hx; pose proof Hx as [? ?]; rewrite Hg by (unfold range; lia); unfold closed;
        by rewrite Hgr, (proj2 (covers_true _ _ _) Hx), ?orb_true_r.
  - intros t th Ht. by apply (owned_slots sh ts t th Hi Ht).
  - intros t th t' th' i r j s Ht Ht' Ho Ho'. split.
    + intros Hne. by apply (proj2 (owned_slots sh ts t th Hi Ht) t' th' i r j s).
    + intros Hne. by apply (ginv_slots_apart sh _ (owned_holding (i, r)) (owned_holding (j, s)) i 5%nat j 5%nat Hi
        (owned_elem ts t th i r Ht Ho) (owned_elem ts t' th' j s Ht' Ho')).
  - intros t own j i r Ht. pose proof (proj1 (Forall_lookup _ _) Hp t _ Ht) as Hpc. cbn in Hpc. split; [done|].
    assert (Holding (Some (i, 5%nat)) r false true ∈ all_holdings ts) as He.
    { apply list_elem_of_bind. eexists. split; [|by eapply list_elem_of_lookup_2]. unfold holdings. cbn. by left. }
    pose proof (gi_reg _ _ Hi _ He) as [Hs _]. pose proof (gi_table _ _ Hi _ i 5%nat He eq_refl) as Htab. cbn [h_reg] in *. by rewrite filled_all in Htab.
  - intros j s x Hj Hs Hgr Hx. assert (j ∉ omap h_idx (all_holdings ts)) as Hn.
    { intros (o & Ho & Eo)%list_elem_of_omap. unfold h_idx in Eo. destruct (h_slot o) as [[j' k]|] eqn:Es; [|done]. injection Eo as ->.
      pose proof (gi_table _ _ Hi o j k Ho Es) as Htab. rewrite Hj in Htab. injection Htab as ->. done. }
    destruct (gi_rest _ _ Hi j s Hj Hn) as [->|(_ & Hok & _)]; [done|]. rewrite (ro_guarded _ _ _ _ Hok x Hx). unfold closed. by rewrite Hs, Hgr, orb_true_r.
  - apply (gi_used _ _ Hi).
Qed.

(** ** A thread alone

    Run without interruption, the steps of a thread are the sequential
    functions of [GuardHeap]. *)

Definition solo (a b : shared * thread) : Prop := tstep a.1 a.2 b.1 b.2.

Lemma solo_l sh th sh' th' c : tstep sh th sh' th' → rtc solo (sh', th') c → rtc solo (sh, th) c.
Proof. intros H. by apply rtc_l. Qed.

Definition shared_of (h : gh_heap) (v : vm) : shared := Shared (gh_table h) (gh_used h) (gh_peak h) v.

Lemma free_slot_first t k i : gh_free_slot t k = Some i → ∀ j s, t !! j = Some s → (k + j < i)%nat → r_state s ≠ 0.
Proof.
  revert k. induction t as [|r t IH]; intros k H j s Hj Hlt; [done|]. cbn [gh_free_slot] in H. destruct (Z.eqb_spec (r_state r) 0).
  - injection H as <-. lia.
  - destruct j as [|j]; simplify_eq/=; [done|]. apply (IH (S k) H j s Hj). lia.
Qed.

Lemma solo_scan sh own r k i : gh_free_slot (sh_table sh) 0 = Some i → (k ≤ i)%nat →
  rtc solo (sh, Thread (Scan k r) own) (sh, Thread (Scan i r) own).
Proof.
  intros Hf Hk. remember (i - k)%nat as d eqn:Hd. revert k Hk Hd. induction d as [|d IH]; intros k Hk Hd; [by replace k with i by lia|].
  pose proof (reserve_slot_Some _ _ _ Hf) as (_ & s0 & Hi & _). rewrite Nat.sub_0_r in Hi. apply lookup_lt_Some in Hi.
  destruct (lookup_lt_is_Some_2 (sh_table sh) k ltac:(lia)) as [s Hs].
  eapply solo_l; [|apply (IH (S k)); lia]. eapply T_cas_lost; [exact Hs|]. apply (free_slot_first _ _ _ Hf k s Hs). lia.
Qed.

Lemma solo_fill sh own i r k : (k ≤ 5)%nat → sh_table sh !! i = Some (filled k r) →
  rtc solo (sh, Thread (Fill k i r) own) (sh_set_table sh (<[i := filled 5 r]> (sh_table sh)), Thread (Fill 5 i r) own).
Proof.
  remember (5 - k)%nat as d eqn:Hd. revert k sh Hd. induction d as [|d IH]; intros k sh Hd Hk Ht.
  - replace k with 5%nat in * by lia. rewrite list_insert_id by done. by destruct sh.
  - eapply solo_l; [eapply T_fill; [exact Ht|lia]|]. rewrite fill_field_filled by lia. cbn [snd].
    specialize (IH (S k) (sh_set_table sh (<[i := filled (S k) r]> (sh_table sh))) ltac:(lia) ltac:(lia)).
    cbn [sh_table sh_set_table] in IH. rewrite list_insert_insert_eq in IH. apply IH. by eapply list_lookup_insert_eq, lookup_lt_Some.
Qed.

(** An allocation that succeeds, step by step, ends as [gh_allocate] does. *)
Lemma solo_allocate h v size a h' v' p own :
  kernel_ok ps mmap → gh_wf ps mprotect_ok h v → 0 ≤ size ≤ 2 ^ 62 → align_ok ps a →
  gh_allocate ps mmap mprotect_ok munmap_ok h v size a = (h', v', p) → p ≠ NULL →
  ∃ i r, r_user r = p ∧ rtc solo (shared_of h v, Thread Idle own) (shared_of h' v', Thread Idle ((i, r) :: own)).
Proof.
  intros (Hps & Hmm & Hlow) Hwf Hs Ha E Hp. unfold gh_allocate in E.
  destruct (gh_map ps mmap mprotect_ok v size a) as [[v1 r]|] eqn:Em; [|congruence].
  unfold gh_reserve_slot in E. destruct (gh_free_slot (gh_table h) 0) as [i|] eqn:Ef; cbn [mbind option_bind] in E; [|congruence].
  cbn in E. rewrite insert_over_alter in E. injection E as <- <- <-. exists i, r. split; [done|].
  assert (r_state r = 1) as Hst.
  { destruct (gh_map_spec ps mmap mprotect_ok Hps Hmm Hlow v size a Hs Ha) as [Hm _]. rewrite Hm in Em.
    destruct (mmap _ _); [|done]. by injection Em as _ <-. }
  pose proof (reserve_slot_Some _ _ _ Ef) as (_ & s & Hi & Hs0). rewrite Nat.sub_0_r in Hi. pose proof (gw_zero _ _ _ _ Hwf i s Hi Hs0) as ->.
  eapply solo_l; [by eapply (T_map (shared_of h v))|]. etransitivity; [apply (solo_scan _ own r 0 i); [exact Ef|lia]|].
  eapply solo_l; [eapply T_cas_won; [exact Hi|done]|]. etransitivity; [apply (solo_fill _ own i r 0); [lia|]|].
  { cbn. by eapply list_lookup_insert_eq, lookup_lt_Some. }
  cbn [sh_table sh_set_table sh_set_vm shared_of snd]. rewrite list_insert_insert_eq, filled_all by done.
  eapply solo_l; [apply T_filled|]. eapply solo_l; [apply T_count|]. eapply solo_l; [apply T_peak_load|].
  apply rtc_once. unfold solo. cbn. rewrite Z.gtb_ltb. destruct (Z.ltb_spec (gh_peak h) (gh_used h +% r_user_size r)) as [Hlt|Hge].
  - by apply (T_peak_won (Shared (<[i:=r]> (gh_table h)) (gh_used h +% r_user_size r) (gh_peak h) v1)).
  - by apply (T_peak_low (Shared (<[i:=r]> (gh_table h)) (gh_used h +% r_user_size r) (gh_peak h) v1)).
Qed.

Lemma solo_find sh own i r k : sh_table sh !! i = Some r → r_state r = 1 → (k ≤ i)%nat →
  (∀ j s, sh_table sh !! j = Some s → r_state s = 1 → r_user s = r_user r → j = i) →
  rtc solo (sh, Thread (Find k i r) own) (sh, Thread (Find i i r) own).
Proof.
  intros Hi Hs Hk Huniq. remember (i - k)%nat as d eqn:Hd. revert k Hk Hd. induction d as [|d IH]; intros k Hk Hd; [by replace k with i by lia|].
  pose proof (lookup_lt_Some _ _ _ Hi) as Hlt. destruct (lookup_lt_is_Some_2 (sh_table sh) k ltac:(lia)) as [s Hsk].
  destruct (decide (r_state s = 1)) as [E1|E1].
  - eapply solo_l; [by eapply T_find_active|]. eapply solo_l; [|apply (IH (S k)); lia]. eapply T_user_other; [exact Hsk|].
    intros Eu. specialize (Huniq k s Hsk E1 Eu). lia.
  - eapply solo_l; [by eapply T_find_other|]. apply (IH (S k)); lia.
Qed.

(** A free, step by step, ends as [gh_deallocate] does. *)
Lemma solo_deallocate h v i r own1 own2 h' v' :
  kernel_ok ps mmap → gh_wf ps mprotect_ok h v → gh_table h !! i = Some r → r_state r = 1 →
  gh_deallocate ps mprotect_ok h v (r_user r) = (h', v') →
  rtc solo (shared_of h v, Thread Idle (own1 ++ (i, r) :: own2)) (shared_of h' v', Thread Idle (own1 ++ own2)).
Proof.
  intros (Hps & _ & _) Hwf Hi Hs E.
  assert (∀ j s, gh_table h !! j = Some s → r_state s = 1 → r_user s = r_user r → j = i) as Huniq.
  { intros j s Hj Hsj Eu. by apply (active_inj ps mprotect_ok h v j i s r Hwf). }
  destruct (gh_deallocate_cases ps mprotect_ok Hps h v (r_user r) Hwf) as [[_ Hn]|(j & s & Hj & Hsj & Eu & E')]; [by destruct (Hn i r)|].
  pose proof (Huniq j s Hj Hsj Eu) as ->. assert (s = r) as -> by congruence. rewrite E' in E. injection E as <- <-.
  pose proof (gw_region _ _ _ _ Hwf i r Hi ltac:(lia)) as [_ _ (? & _ & ?) (? & ? & ?) _ _].
  eapply solo_l; [apply T_free|]. etransitivity; [apply (solo_find (shared_of h v) _ i r 0 Hi Hs); [lia|done]|].
  eapply solo_l; [by eapply T_find_active|]. eapply solo_l; [by eapply T_user_found|]. eapply solo_l; [by eapply T_sub|].
  eapply solo_l; [apply T_protect|]. cbn [sh_vm sh_set_used shared_of]. rewrite vm_protect_eq by (done || lia).
  apply rtc_once. by eapply (T_retire (Shared (gh_table h) (gh_used h -% r_user_size r) (gh_peak h) _)).
Qed.

(** Steps of one thread are steps of the configuration. *)
Lemma solo_gstep ts1 ts2 a b : rtc solo a b → rtc gstep (a.1, ts1 ++ a.2 :: ts2) (b.1, ts1 ++ b.2 :: ts2).
Proof. induction 1 as [|a b c Hab _ IH]; [done|]. eapply rtc_l; [|exact IH]. by constructor. Qed.
End threads.

(** The first of two threads has allocated 100 bytes. *)
Lemma gh_threads_safe_witness :
  ∃ sh ts i r, rtc (gstep 4096 ex_mmaps ex_yes ex_yes) (conf_start ex_vm 2) (sh, ts) ∧ ts !! 0%nat = Some (Thread Idle [(i, r)]) ∧
    r_user r = 2 ^ 20 + 8192 - 128 ∧ accessible (sh_vm sh) (r_user r) = true.
Proof.
  destruct (gh_allocate 4096 ex_mmaps ex_yes ex_yes (gh_fresh HF_GUARD_ABORT) ex_vm 100 64) as [[h' v'] p] eqn:E.
  assert (p = 2 ^ 20 + 8192 - 128) as Hp.
  { change p with ((h', v', p).2). rewrite <- E. by vm_compute. }
  destruct (solo_allocate 4096 ex_mmaps ex_yes ex_yes _ _ 100 64 h' v' p [] ex_kernel (gh_fresh_wf 4096 ex_yes HF_GUARD_ABORT ex_vm) ltac:(lia) ex_align E
    ltac:(lia)) as (i & r & Hr & Hrun).
  pose proof (solo_gstep 4096 ex_mmaps ex_yes ex_yes [] [Thread Idle []] _ _ Hrun) as Hg. cbn [fst snd app] in Hg.
  exists (shared_of h' v'), [Thread Idle [(i, r)]; Thread Idle []], i, r. split; [exact Hg|]. split; [done|]. split; [congruence|].
  destruct (gh_threads_safe 4096 ex_mmaps ex_yes ex_yes ex_vm 2 _ _ ex_kernel Hg) as [Hown _].
  destruct (Hown 0%nat _ i r eq_refl ltac:(by left)) as (_ & _ & Hacc & _). apply Hacc. unfold range.
  assert (0 < r_user_size r); [|lia].
  destruct (reachable_inv 4096 ex_mmaps ex_yes ex_yes ex_vm 2 _ ex_kernel Hg) as [Hi _].
  destruct (gi_reg _ _ _ _ Hi (owned_holding (i, r)) ltac:(by left)) as [_ [_ _ _ _ (_ & ? & _) _]]. done.
Defined.

(** ** The race on the plain fields *)

(** One thread is about to store the [user] field of a slot which another
    thread is about to load.  The field is not atomic, and no lock and no
    atomic operation of one thread orders these two accesses. *)
Definition user_race (c : shared * list thread) : Prop :=
  ∃ t t' j i r r' own own', t ≠ t' ∧
    c.2 !! t = Some (Thread (Fill 1 j r) own) ∧ c.2 !! t' = Some (Thread (FindUser j i r') own').

Lemma gstep_at ps mmap mp mu sh sh' ts t th th' : ts !! t = Some th → tstep ps mmap mp mu sh th sh' th' →
  gstep ps mmap mp mu (sh, ts) (sh', <[t := th']> ts).
Proof.
  intros Ht Hst. rewrite <- (take_drop_middle ts t th Ht) at 1. rewrite (insert_take_drop ts t th') by (by eapply lookup_lt_Some).
  by constructor.
Qed.

(** A step of thread [t]. *)
Ltac race_step t := eapply (gstep_at _ _ _ _ _ _ _ t); [reflexivity|].

(** The race is reached: the first thread has taken slot 0 and stored
    [total]; the second, which owns slot 1, frees its block, and finds slot 0
    active on its way. *)
Theorem gh_threads_race :
  ∃ c, rtc (gstep 4096 ex_mmaps ex_yes ex_yes) (conf_start ex_vm 2) c ∧ user_race c.
Proof.
  destruct (gh_map 4096 ex_mmaps ex_yes ex_vm 100 64) as [[v1 r1]|] eqn:E1; [|by vm_compute in E1].
  destruct (gh_map 4096 ex_mmaps ex_yes v1 100 64) as [[v2 r2]|] eqn:E2; [|vm_compute in E1; simplify_eq; by vm_compute in E2].
  eexists. split.
  { unfold conf_start. eapply rtc_l; [race_step 0%nat; eapply (T_map _ _ _ _ _ _ 100 64); [lia|apply ex_align|exact E1]|].
    eapply rtc_l; [race_step 0%nat; by eapply T_cas_won|].
    eapply rtc_l; [race_step 1%nat; eapply (T_map _ _ _ _ _ _ 100 64); [lia|apply ex_align|exact E2]|].
    eapply rtc_l; [race_step 1%nat; by eapply T_cas_lost|].
    eapply rtc_l; [race_step 1%nat; by eapply T_cas_won|].
    do 5 (eapply rtc_l; [race_step 1%nat; eapply T_fill; [reflexivity|lia]|]).
    eapply rtc_l; [race_step 1%nat; apply T_filled|].
    eapply rtc_l; [race_step 1%nat; apply T_count|].
    eapply rtc_l; [race_step 1%nat; apply T_peak_load|].
    eapply rtc_l; [race_step 1%nat; apply T_peak_won; [|reflexivity]; vm_compute in E1; simplify_eq;
      vm_compute in E2; simplify_eq; by vm_compute|].
    eapply rtc_l; [race_step 1%nat; apply (T_free _ _ _ _ _ [] [])|].
    eapply rtc_l; [race_step 1%nat; by eapply T_find_active|].
    apply rtc_once. race_step 0%nat. eapply T_fill; [reflexivity|lia]. }
  exists 0%nat, 1%nat, 0%nat, 1%nat, r1, r2, [], []. by split_and!.
Qed.
