(* ===== verification/Analyzer.v ===== *)
(** * The analyzer ([c/src/hf_analyzer.c]): the code

    A snapshot of any allocator through [hf_name], [hf_get_stats] and
    [hf_walk], and its export as JSON, CSV and HTML through a growable string
    buffer.  [realloc] and [malloc] may fail: whether a request of a given
    size succeeds is a parameter. *)

From Stdlib Require Import String SpecFloat.
From S2P Require Import Prelude Text Memory Allocator.

(** [hf_snapshot]. *)
Record hf_snapshot : Type := Snapshot {
  sn_name : string;
  sn_capacity : Z;
  sn_used : Z;
  free_bytes : Z;
  block_count : Z;
  free_block_count : Z;
  largest_free : Z;
  external_fragmentation : double;
  blocks : list hf_block_info;
  blocks_len : Z
}.

(** [blk_vec]. *)
Record blk_vec : Type := BlkVec {
  bv_v : list hf_block_info;
  bv_len : Z;
  bv_cap : Z
}.

(** [strbuf]; the terminating zero is not part of [sb_s]. *)
Record strbuf : Type := Strbuf {
  sb_s : string;
  sb_len : Z;
  sb_cap : Z
}.

(** [strbuf b = {0}]. *)
Definition sb_zero : strbuf := Strbuf EmptyString 0 0.

Definition SIZEOF_BLOCK_INFO : Z := 24.

Section ops.
Context (realloc malloc : Z → bool).

(** ** Collection *)

(** The store at [v[len]] faults outside the array. *)
Definition vec_push (bv : blk_vec) (b : hf_block_info) : outcome blk_vec :=
  let store (bv : blk_vec) : outcome blk_vec :=
    if bv_len bv <? bv_cap bv then Ok (BlkVec (bv_v bv ++ [b]) (bv_len bv +% 1) (bv_cap bv)) else Fault in
  if bv_len bv =? bv_cap bv then
    let nc := if bv_cap bv =? 0 then 32 else bv_cap bv *% 2 in
    if realloc (nc *% SIZEOF_BLOCK_INFO) then store (BlkVec (bv_v bv) (bv_len bv) nc) else Ok bv
  else store bv.

Definition collect_cb (b : hf_block_info) (bv : blk_vec) : outcome blk_vec := vec_push bv b.

(** [hf_walk(a, collect_cb, &bv)]: the callback in the order of the walk. *)
Fixpoint collect (bs : list hf_block_info) (bv : blk_vec) : outcome blk_vec :=
  match bs with
  | [] => Ok bv
  | b :: bs => bv ← collect_cb b bv; collect bs bv
  end.

(** The loop of [hf_snapshot_take] over the blocks. *)
Record totals : Type := Totals { t_blocks : Z; t_free_blocks : Z; t_free : Z; t_largest : Z }.

Fixpoint totals_loop (bs : list hf_block_info) (t : totals) : totals :=
  match bs with
  | [] => t
  | b :: bs =>
      totals_loop bs
        (if is_free b
         then Totals (t_blocks t +% 1) (t_free_blocks t +% 1) (t_free t +% size b)
                (if size b >? t_largest t then size b else t_largest t)
         else Totals (t_blocks t +% 1) (t_free_blocks t) (t_free t) (t_largest t))
  end.

Definition hf_snapshot_take {S : Type} `{!hf_allocator_vtable S} (a : S) (m : mem) : outcome hf_snapshot :=
  let name := truncate 32 (hf_name a) in
  let st := hf_get_stats a in
  bs ← hf_walk a m;
  bv ← collect bs (BlkVec [] 0 0);
  let t := totals_loop (take (Z.to_nat (bv_len bv)) (bv_v bv)) (Totals 0 0 0 0) in
  Ok (Snapshot name (capacity st) (used st) (t_free t) (t_blocks t) (t_free_blocks t) (t_largest t)
        (if t_free t >? 0 then double_sub (double_of 1) (double_div (double_of (t_largest t)) (double_of (t_free t)))
         else S754_zero false)
        (bv_v bv) (bv_len bv)).

Definition hf_snapshot_free (s : hf_snapshot) : hf_snapshot :=
  Snapshot (sn_name s) (sn_capacity s) (sn_used s) (free_bytes s) (block_count s) (free_block_count s) (largest_free s)
    (external_fragmentation s) [] 0.

(** ** The growable string *)

(** [while (nc < need) nc *= 2]; 64 doublings exhaust a [size_t]. *)
Fixpoint grow_loop (fuel : nat) (nc need : Z) : outcome Z :=
  match fuel with
  | O => OutOfFuel
  | S fuel => if nc <? need then grow_loop fuel (nc *% 2) need else Ok nc
  end.

(** The result of [realloc] is not checked: a buffer that could not grow is
    null, and the next store through it faults. *)
Definition sb_ensure (b : strbuf) (extra : Z) : outcome strbuf :=
  let need := sb_len b +% extra +% 1 in
  if need >? sb_cap b then
    let nc := if sb_cap b =? 0 then 1024 else sb_cap b *% 2 in
    nc ← grow_loop 64 nc need;
    if realloc nc then Ok (Strbuf (sb_s b) (sb_len b) nc) else Fault
  else Ok b.

(** The copy and the terminating zero fault outside the buffer. *)
Definition sb_puts (b : strbuf) (s : string) : outcome strbuf :=
  let n := Z.of_nat (String.length s) in
  b ← sb_ensure b n;
  if sb_len b + n <? sb_cap b then Ok (Strbuf (sb_s b +:+ s) (sb_len b +% n) (sb_cap b)) else Fault.

(** [sb_printf]; [text] is what the format expands to.  A text that does not
    fit in 256 bytes is expanded again into a buffer of its size, whose
    [malloc] is not checked either. *)
Definition sb_printf (b : strbuf) (text : string) : outcome strbuf :=
  let n := Z.of_nat (String.length text) in
  if n <? 256 then sb_puts b (truncate 256 text) else
  if malloc (n +% 1) then sb_puts b (truncate (n +% 1) text) else Fault.

(** A loop of [sb_printf] over the blocks, [i] the index. *)
Fixpoint sb_blocks (f : Z → hf_block_info → string) (i : Z) (bs : list hf_block_info) (b : strbuf) : outcome strbuf :=
  match bs with
  | [] => Ok b
  | x :: bs => b ← sb_printf b (f i x); sb_blocks f (i + 1) bs b
  end.

(** ** Exports *)

(** The line of a block; a comma follows all but the last. *)
Definition json_block (len i : Z) (x : hf_block_info) : string :=
  "    {" +:+ quoted "offset" +:+ ": " +:+ dec (offset x) +:+ ", " +:+ quoted "size" +:+ ": " +:+ dec (size x) +:+ ", " +:+
  quoted "free" +:+ ": " +:+ (if is_free x then "true" else "false") +:+ "}" +:+ (if i +% 1 <? len then "," else EmptyString) +:+ newline.

(** The lines in front of the blocks. *)
Definition json_field (name value : string) : string := "  " +:+ quoted name +:+ ": " +:+ value +:+ "," +:+ newline.

Definition json_name (s : hf_snapshot) : string := "{" +:+ newline +:+ json_field "allocator" (quoted (sn_name s)).
Definition json_usage (s : hf_snapshot) : string := json_field "capacity" (dec (sn_capacity s)) +:+ json_field "used" (dec (sn_used s)).
Definition json_free (s : hf_snapshot) : string := json_field "free_bytes" (dec (free_bytes s)) +:+ json_field "block_count" (dec (block_count s)).
Definition json_counts (s : hf_snapshot) : string :=
  json_field "free_block_count" (dec (free_block_count s)) +:+ json_field "largest_free" (dec (largest_free s)).
Definition json_frag (s : hf_snapshot) : string := json_field "external_fragmentation" (fixed 4 (external_fragmentation s)).
Definition json_open : string := "  " +:+ quoted "blocks" +:+ ": [" +:+ newline.
Definition json_close : string := "  ]" +:+ newline +:+ "}" +:+ newline.

Definition hf_snapshot_to_json (s : hf_snapshot) : outcome strbuf :=
  b ← sb_printf sb_zero (json_name s);
  b ← sb_printf b (json_usage s);
  b ← sb_printf b (json_free s);
  b ← sb_printf b (json_counts s);
  b ← sb_printf b (json_frag s);
  b ← sb_puts b json_open;
  b ← sb_blocks (json_block (blocks_len s)) 0 (take (Z.to_nat (blocks_len s)) (blocks s)) b;
  sb_puts b json_close.

(** The line of a block. *)
Definition csv_block (i : Z) (x : hf_block_info) : string :=
  dec (offset x) +:+ "," +:+ dec (size x) +:+ "," +:+ (if is_free x then "free" else "used") +:+ newline.

Definition csv_header : string := "offset,size,state" +:+ newline.

Definition hf_snapshot_to_csv (s : hf_snapshot) : outcome strbuf :=
  b ← sb_puts sb_zero csv_header;
  sb_blocks csv_block 0 (take (Z.to_nat (blocks_len s)) (blocks s)) b.

Definition html_head : string := "<!doctype html><html><head><meta charset=" +:+ quoted "utf-8" +:+ ">".
Definition html_title (s : hf_snapshot) : string := "<title>HeapForge " +:+ sn_name s +:+ "</title>".

Definition html_style : string :=
  "<style>body{font-family:monospace;background:#111;color:#eee;padding:16px}" +:+
  ".bar{display:flex;height:40px;border:1px solid #444;margin:8px 0}" +:+
  ".seg{height:100%}" +:+
  ".u{background:#e5534b}.f{background:#2ea043}" +:+
  "table{border-collapse:collapse}td,th{border:1px solid #444;padding:4px 8px}" +:+
  "</style></head><body>".

Definition html_caption (s : hf_snapshot) : string := "<h2>HeapForge &mdash; " +:+ sn_name s +:+ "</h2>".

Definition html_table (s : hf_snapshot) : string :=
  "<table><tr><th>capacity</th><td>" +:+ dec (sn_capacity s) +:+ "</td></tr>" +:+
  "<tr><th>used</th><td>" +:+ dec (sn_used s) +:+ "</td></tr>" +:+
  "<tr><th>free</th><td>" +:+ dec (free_bytes s) +:+ "</td></tr>" +:+
  "<tr><th>largest free</th><td>" +:+ dec (largest_free s) +:+ "</td></tr>" +:+
  "<tr><th>ext. fragmentation</th><td>" +:+ fixed 2 (double_mul (external_fragmentation s) (double_of 100)) +:+ "%</td></tr></table>".

(** One segment of the bar; [span] is the capacity, or 1. *)
Definition html_block (span : double) (i : Z) (x : hf_block_info) : string :=
  let pct := double_div (double_mul (double_of 100) (double_of (size x))) span in
  "<div class=" +:+ quoted ("seg " +:+ (if is_free x then "f" else "u")) +:+ " style=" +:+ quoted ("width:" +:+ fixed 4 pct +:+ "%") +:+
  " title=" +:+ quoted ("off " +:+ dec (offset x) +:+ " size " +:+ dec (size x)) +:+ "></div>".

Definition html_open : string := "<div class=" +:+ quoted "bar" +:+ ">".
Definition html_close : string := "</div><p>red = used, green = free</p></body></html>" +:+ newline.

(** [s->capacity ? (double)s->capacity : 1.0]. *)
Definition html_span (s : hf_snapshot) : double := if sn_capacity s =? 0 then double_of 1 else double_of (sn_capacity s).

Definition hf_snapshot_to_html (s : hf_snapshot) : outcome strbuf :=
  b ← sb_puts sb_zero html_head;
  b ← sb_printf b (html_title s);
  b ← sb_puts b html_style;
  b ← sb_printf b (html_caption s);
  b ← sb_printf b (html_table s);
  b ← sb_puts b html_open;
  b ← sb_blocks (html_block (html_span s)) 0 (take (Z.to_nat (blocks_len s)) (blocks s)) b;
  sb_puts b html_close.
End ops.

(** [hf_save_text]: the file's new content, if it was opened, and the result;
    [fwrite] says how many of the bytes it takes. *)
Definition hf_save_text (fopen_ok : bool) (fwrite : Z → Z) (text : string) : option string * bool :=
  if fopen_ok then
    let n := Z.of_nat (String.length text) in
    let w := fwrite n in
    (Some (truncate (w + 1) text), w =? n)
  else (None, false).
