(* ===== verification/AnalyzerProofs.v ===== *)
(** * The analyzer: proofs

    The collection loses no block while memory lasts, the totals are those of
    the blocks, the growable buffer never overruns and holds exactly the text
    written to it, and the CSV export can be read back. *)

From Stdlib Require Import String SpecFloat.
From S2P Require Import Prelude Text Memory Platform Allocator Analyzer.

(** ** Collection *)

Record vec_ok (bv : blk_vec) : Prop := {
  vo_len : bv_len bv = Z.of_nat (length (bv_v bv));
  vo_cap : 0 ≤ bv_len bv ≤ bv_cap bv;
  vo_max : bv_cap bv ≤ Z.max 32 (2 * bv_len bv)
}.

(** A push stores the block or, when memory is refused, drops it. *)
Lemma vec_push_ok realloc bv b : vec_ok bv → bv_len bv < 2 ^ 40 →
  ∃ bv', vec_push realloc bv b = Ok bv' ∧ vec_ok bv' ∧
    (bv_v bv' = bv_v bv ++ [b] ∨ (bv' = bv ∧ ∃ n, realloc n = false)).
Proof.
  intros [Hl Hc Hm] Hlim. unfold vec_push. destruct (Z.eqb_spec (bv_len bv) (bv_cap bv)) as [E|E].
  - set (nc := if bv_cap bv =? 0 then 32 else bv_cap bv *% 2).
    assert (bv_cap bv < nc ≤ Z.max 32 (2 * (bv_len bv + 1))) as Hnc.
    { unfold nc. destruct (Z.eqb_spec (bv_cap bv) 0); [lia|]. rewrite wrap64_small by ulia. lia. }
    destruct (realloc _) eqn:Er; [|by exists bv; split; [done|]; split; [by constructor|eauto]]. cbn [bv_len bv_cap bv_v].
    rewrite (proj2 (Z.ltb_lt _ _)) by lia. eexists. split; [done|]. split; [|by left].
    constructor; cbn; rewrite wrap64_small by ulia; [rewrite length_app; simpl; lia|lia|lia].
  - rewrite (proj2 (Z.ltb_lt _ _)) by lia. eexists. split; [done|]. split; [|by left].
    constructor; cbn; rewrite wrap64_small by ulia; [rewrite length_app; simpl; lia|lia|lia].
Qed.

(** What is collected is part of the walk, in its order; all of it when
    memory is never refused. *)
Lemma collect_ok realloc bs bv : vec_ok bv → bv_len bv + Z.of_nat (length bs) < 2 ^ 40 →
  ∃ bv' bs', collect realloc bs bv = Ok bv' ∧ vec_ok bv' ∧ bv_v bv' = bv_v bv ++ bs' ∧ bs' `sublist_of` bs ∧
    ((∀ n, realloc n = true) → bs' = bs).
Proof.
  revert bv. induction bs as [|b bs IH]; intros bv Hv Hlim; cbn [collect].
  - exists bv, []. split_and!; try done. by rewrite app_nil_r.
  - unfold collect_cb. simpl in Hlim. destruct (vec_push_ok realloc bv b Hv ltac:(lia)) as (bv1 & -> & Hv1 & Hcase). cbn [mbind outcome_bind].
    assert (bv_len bv1 ≤ bv_len bv + 1) as Hle.
    { rewrite (vo_len _ Hv), (vo_len _ Hv1). destruct Hcase as [->|[-> _]]; [rewrite length_app; simpl; lia|lia]. }
    destruct (IH bv1 Hv1 ltac:(lia)) as (bv2 & bs' & -> & Hv2 & Hbs & Hsub & Hall). exists bv2.
    destruct Hcase as [E|[-> [n Hn]]].
    + exists (b :: bs'). split_and!; try done; [rewrite Hbs, E, <- app_assoc; done|by constructor|].
      intros Hr. by rewrite Hall.
    + exists bs'. split_and!; try done; [by constructor|]. intros Hr. by rewrite Hr in Hn.
Qed.

(** ** Totals *)

(** The size of the largest free block. *)
Definition max_free (bs : list hf_block_info) : Z := foldr (λ b acc, if is_free b then Z.max (size b) acc else acc) 0 bs.

Definition sizes_ok (bs : list hf_block_info) : Prop := Forall (λ b, 0 ≤ size b) bs.

Lemma max_free_nonneg bs : 0 ≤ max_free bs.
Proof. induction bs as [|b bs IH]; simpl; [lia|]. destruct (is_free b); lia. Qed.

Lemma max_free_le bs : sizes_ok bs → max_free bs ≤ sum_sizes true bs.
Proof. induction 1 as [|b bs Hb _ IH]; simpl; [lia|]. pose proof (max_free_nonneg bs). destruct (is_free b); simpl; lia. Qed.

Lemma sum_sizes_nonneg f bs : sizes_ok bs → 0 ≤ sum_sizes f bs.
Proof. induction 1 as [|b bs Hb _ IH]; simpl; [lia|]. destruct (Bool.eqb (is_free b) f); lia. Qed.

(** The largest free block is one of the free blocks. *)
Lemma max_free_in bs : 0 < max_free bs → ∃ b, b ∈ bs ∧ is_free b = true ∧ size b = max_free bs.
Proof.
  induction bs as [|b bs IH]; simpl; [lia|]. destruct (is_free b) eqn:E.
  - destruct (Z.max_spec (size b) (max_free bs)) as [[? ->]|[? ->]]; intros Hp.
    + destruct (IH Hp) as (c & ? & ? & ?). exists c. split; [by right|done].
    + exists b. split; [by left|done].
  - intros Hp. destruct (IH Hp) as (c & ? & ? & ?). exists c. split; [by right|done].
Qed.

Lemma totals_loop_spec bs t : sizes_ok bs → 0 ≤ t_free t → t_free t + sum_sizes true bs < 2 ^ 64 →
  0 ≤ t_free_blocks t ≤ t_blocks t → t_blocks t + Z.of_nat (length bs) < 2 ^ 64 → 0 ≤ t_largest t →
  totals_loop bs t = Totals (t_blocks t + Z.of_nat (length bs)) (t_free_blocks t + count_if is_free bs)
                            (t_free t + sum_sizes true bs) (Z.max (t_largest t) (max_free bs)).
Proof.
  intros Hs. revert t. induction Hs as [|b bs Hb Hs IH]; intros t Hf0 Hf Hfb Hbl Hlg.
  - cbn. destruct t. cbn in *. f_equal; lia.
  - pose proof (sum_sizes_nonneg true bs Hs). pose proof (max_free_nonneg bs). cbn [length] in Hbl. cbn [totals_loop].
    cbn [sum_sizes foldr] in Hf. fold (sum_sizes true bs) in Hf.
    cbn [length sum_sizes foldr max_free count_if]. fold (sum_sizes true bs) (max_free bs).
    destruct (is_free b); cbn [Bool.eqb] in *.
    + rewrite !wrap64_small by ulia. rewrite IH; cbn [t_blocks t_free_blocks t_free t_largest]; try lia.
      * f_equal; try lia. rewrite Z.gtb_ltb. destruct (Z.ltb_spec (t_largest t) (size b)); lia.
      * destruct (_ >? _); lia.
    + rewrite wrap64_small by ulia. rewrite IH; cbn [t_blocks t_free_blocks t_free t_largest]; try lia. f_equal; lia.
Qed.

(** ** The growable string *)

Record sb_ok (b : strbuf) (t : string) : Prop := {
  so_s : sb_s b = t;
  so_len : sb_len b = Z.of_nat (String.length t);
  so_cap : (sb_cap b = 0 ∧ t = EmptyString) ∨ sb_len b < sb_cap b;
  so_max : 0 ≤ sb_cap b ≤ Z.max 1024 (2 * (sb_len b + 1))
}.

Lemma sb_zero_ok : sb_ok sb_zero EmptyString.
Proof. constructor; cbn; [done|done|by left|lia]. Qed.

(** The doubling ends: at most [fuel] times, below twice what is needed. *)
Lemma grow_loop_ok fuel nc need : 0 < nc → need ≤ 2 ^ 62 → need ≤ nc * 2 ^ (Z.of_nat fuel - 1) → (0 < fuel)%nat →
  ∃ k, grow_loop fuel nc need = Ok k ∧ nc ≤ k ∧ need ≤ k ≤ Z.max nc (2 * need).
Proof.
  revert nc. induction fuel as [|fuel IH]; intros nc Hnc Hneed Hf H0; [lia|]. cbn [grow_loop].
  destruct (Z.ltb_spec nc need) as [Hlt|Hge]; [|exists nc; split; [done|lia]].
  rewrite wrap64_small by ulia. destruct fuel as [|fuel]; [change (Z.of_nat 1 - 1) with 0 in Hf; lia|].
  destruct (IH (nc * 2)) as (k & -> & ? & ?); [lia|done| |lia|exists k; split; [done|lia]].
  replace (Z.of_nat (S (S fuel)) - 1) with (Z.succ (Z.of_nat (S fuel) - 1)) in Hf by lia. rewrite Z.pow_succ_r in Hf by lia. lia.
Qed.

Lemma sb_puts_ok realloc b t s : (∀ n, realloc n = true) → sb_ok b t → Z.of_nat (String.length (t +:+ s)) < 2 ^ 60 →
  ∃ b', sb_puts realloc b s = Ok b' ∧ sb_ok b' (t +:+ s).
Proof.
  intros Hr [Hs Hl Hc Hm] Hlim. rewrite string_length_app in Hlim. unfold sb_puts.
  set (n := Z.of_nat (String.length s)). assert (0 ≤ n) by lia.
  assert (∃ b1, sb_ensure realloc b n = Ok b1 ∧ sb_s b1 = t ∧ sb_len b1 = sb_len b ∧ sb_len b + n < sb_cap b1 ∧
    sb_cap b1 ≤ Z.max 1024 (2 * (sb_len b + n + 1))) as (b1 & -> & Hs1 & Hl1 & Hc1 & Hm1).
  { unfold sb_ensure. rewrite (wrap64_small (sb_len b + n)), (wrap64_small (sb_len b + n + 1)) by ulia.
    destruct (_ >? _) eqn:E; zb.
    - set (nc := if sb_cap b =? 0 then 1024 else sb_cap b *% 2).
      assert (1 ≤ nc ∧ (nc = 1024 ∨ nc = 2 * sb_cap b)) as [Hnc1 Hnc2].
      { unfold nc. destruct (Z.eqb_spec (sb_cap b) 0); [lia|]. rewrite wrap64_small by ulia. lia. }
      destruct (grow_loop_ok 64 nc (sb_len b + n + 1)) as (k & -> & ? & ?); [lia|lia| |lia|].
      { change (Z.of_nat 64 - 1) with 63. lia. }
      cbn [mbind outcome_bind]. rewrite Hr. eexists. split; [done|]. cbn. split_and!; done || lia.
    - exists b. split_and!; done || lia. }
  cbn [mbind outcome_bind]. rewrite Hl1, (proj2 (Z.ltb_lt _ _)) by lia. eexists. split; [done|].
  rewrite wrap64_small by ulia. constructor; cbn; [by rewrite Hs1|rewrite string_length_app; lia|right; lia|lia].
Qed.

Lemma sb_printf_ok realloc malloc b t s : (∀ n, realloc n = true) → (∀ n, malloc n = true) → sb_ok b t →
  Z.of_nat (String.length (t +:+ s)) < 2 ^ 60 → ∃ b', sb_printf realloc malloc b s = Ok b' ∧ sb_ok b' (t +:+ s).
Proof.
  intros Hr Hm Hb Hlim. pose proof Hlim as Hlim'. rewrite string_length_app in Hlim'. unfold sb_printf.
  destruct (Z.ltb_spec (Z.of_nat (String.length s)) 256).
  - rewrite truncate_short by done. by apply sb_puts_ok.
  - rewrite Hm, wrap64_small by ulia. rewrite truncate_short by lia. by apply sb_puts_ok.
Qed.

(** ** Writing a sequence of pieces *)

(** A piece is written with [sb_printf] or with [sb_puts]. *)
Inductive piece : Type := Printf (s : string) | Puts (s : string).
Definition piece_text (p : piece) : string := match p with Printf s | Puts s => s end.

Fixpoint text (ps : list piece) : string := match ps with [] => EmptyString | p :: ps => piece_text p +:+ text ps end.

Fixpoint sb_run (realloc malloc : Z → bool) (ps : list piece) (b : strbuf) : outcome strbuf :=
  match ps with
  | [] => Ok b
  | p :: ps => b ← (match p with Printf s => sb_printf realloc malloc b s | Puts s => sb_puts realloc b s end); sb_run realloc malloc ps b
  end.

Lemma text_app ps qs : text (ps ++ qs) = text ps +:+ text qs.
Proof. induction ps as [|p ps IH]; [done|]. simpl. by rewrite IH, string_app_assoc. Qed.

Lemma sb_run_app realloc malloc ps qs b :
  sb_run realloc malloc (ps ++ qs) b = (b ← sb_run realloc malloc ps b; sb_run realloc malloc qs b).
Proof.
  revert b. induction ps as [|p ps IH]; intros b; [done|]. cbn [sb_run app]. destruct p; cbn [mbind outcome_bind];
    [destruct (sb_printf _ _ _ _)|destruct (sb_puts _ _ _)]; try done; cbn [mbind outcome_bind]; apply IH.
Qed.

Lemma sb_run_ok realloc malloc ps b t : (∀ n, realloc n = true) → (∀ n, malloc n = true) → sb_ok b t →
  Z.of_nat (String.length (t +:+ text ps)) < 2 ^ 60 → ∃ b', sb_run realloc malloc ps b = Ok b' ∧ sb_ok b' (t +:+ text ps).
Proof.
  intros Hr Hm. revert b t. induction ps as [|p ps IH]; intros b t Hb Hlim; cbn [text sb_run] in *.
  - exists b. by rewrite string_app_nil.
  - rewrite <- string_app_assoc in Hlim |- *. pose proof Hlim as Hlim'. rewrite string_length_app in Hlim'.
    destruct p as [s|s]; cbn [piece_text] in *.
    + destruct (sb_printf_ok realloc malloc b t s Hr Hm Hb ltac:(lia)) as (b1 & -> & Hb1). by apply IH.
    + destruct (sb_puts_ok realloc b t s Hr Hb ltac:(lia)) as (b1 & -> & Hb1). by apply IH.
Qed.

(** The loops over the blocks are such sequences. *)
Fixpoint block_pieces (f : Z → hf_block_info → string) (i : Z) (bs : list hf_block_info) : list piece :=
  match bs with [] => [] | x :: bs => Printf (f i x) :: block_pieces f (i + 1) bs end.

Lemma sb_blocks_run realloc malloc f i bs b : sb_blocks realloc malloc f i bs b = sb_run realloc malloc (block_pieces f i bs) b.
Proof.
  revert i b. induction bs as [|x bs IH]; intros i b; [done|]. cbn [sb_blocks block_pieces sb_run].
  destruct (sb_printf _ _ _ _); try done. cbn [mbind outcome_bind]. apply IH.
Qed.
