(* ===== verification/AnalyzerSpec.v ===== *)
(** * The analyzer: what it promises

    A snapshot describes the blocks of the walk; on a free list its largest
    free block decides which allocations succeed; the exports are the texts
    they are meant to be, and CSV is read back to the same blocks. *)

From Stdlib Require Import String SpecFloat.
From S2P Require Import Prelude Text Memory Platform Allocator FreeList FreeListRing FreeListPhys FreeListProofs FreeListSpec.
From S2P Require Import Analyzer AnalyzerProofs.

(** ** Snapshots *)

(** The figures of a snapshot are those of its blocks. *)
Record snapshot_of (s : hf_snapshot) (bs : list hf_block_info) : Prop := {
  sp_blocks : blocks s = bs;
  sp_len : blocks_len s = Z.of_nat (length bs);
  sp_count : block_count s = Z.of_nat (length bs);
  sp_free_count : free_block_count s = count_if is_free bs;
  sp_free : free_bytes s = sum_sizes true bs;
  sp_largest : largest_free s = max_free bs;
  sp_frag : external_fragmentation s =
    if free_bytes s >? 0
    then double_sub (double_of 1) (double_div (double_of (largest_free s)) (double_of (free_bytes s)))
    else S754_zero false
}.

Lemma sizes_ok_sublist bs bs' : bs' `sublist_of` bs → sizes_ok bs → sizes_ok bs' ∧ sum_sizes true bs' ≤ sum_sizes true bs.
Proof.
  induction 1 as [|b bs' bs Hsub IH|b bs' bs Hsub IH]; intros Hs; [done| |].
  - apply Forall_cons in Hs as [Hb Hs]. destruct (IH Hs) as [IH1 IH2]. split; [by constructor|]. simpl. lia.
  - apply Forall_cons in Hs as [Hb Hs]. destruct (IH Hs) as [IH1 IH2]. split; [done|]. simpl. destruct (Bool.eqb _ _); lia.
Qed.

Lemma snapshot_take_ok {S} `{!hf_allocator_vtable S} realloc (a : S) m bs :
  hf_walk a m = Ok bs → sizes_ok bs → sum_sizes true bs < 2 ^ 64 → Z.of_nat (length bs) < 2 ^ 40 →
  ∃ s bs', hf_snapshot_take realloc a m = Ok s ∧ snapshot_of s bs' ∧ bs' `sublist_of` bs ∧ ((∀ n, realloc n = true) → bs' = bs) ∧
    sn_name s = truncate 32 (hf_name a) ∧ sn_capacity s = capacity (hf_get_stats a) ∧ sn_used s = used (hf_get_stats a).
Proof.
  intros Hw Hs Hsum Hlen. unfold hf_snapshot_take. rewrite Hw. cbn [mbind outcome_bind].
  destruct (collect_ok realloc bs (BlkVec [] 0 0)) as (bv & bs' & -> & [Hl Hc Hm] & Hv & Hsub & Hall).
  { constructor; cbn; lia. }
  { cbn. lia. }
  cbn [app bv_v] in Hv. cbn [mbind outcome_bind]. rewrite Hv in *. eexists _, bs'. split; [done|]. split; [|done].
  destruct (sizes_ok_sublist bs bs' Hsub Hs) as [Hs' Hle]. apply sublist_length in Hsub.
  rewrite Hl, Nat2Z.id, firstn_all.
  pose proof (totals_loop_spec bs' (Totals 0 0 0 0) Hs') as Ht. cbn [t_blocks t_free_blocks t_free t_largest] in Ht.
  rewrite Ht by lia. clear Ht. rewrite !Z.add_0_l, (Z.max_r 0) by apply max_free_nonneg.
  constructor; cbn; done.
Qed.

(** A snapshot of any allocator whose walk ends.  The snapshot's blocks are
    part of the walk, in its order, and all of it when no memory is refused
    (a refused [realloc] drops blocks without a sign); the counters, the free
    bytes and the largest free block are exactly those of the blocks kept, the
    largest is one of them and at most the total; the name is cut to 31
    characters. *)
Theorem snapshot_correct {S} `{!hf_allocator_vtable S} realloc (a : S) m bs :
  hf_walk a m = Ok bs → sizes_ok bs → sum_sizes true bs < 2 ^ 64 → Z.of_nat (length bs) < 2 ^ 40 →
  ∃ s bs', hf_snapshot_take realloc a m = Ok s ∧ snapshot_of s bs' ∧ bs' `sublist_of` bs ∧ ((∀ n, realloc n = true) → bs' = bs) ∧
    0 ≤ largest_free s ≤ free_bytes s ∧
    (0 < largest_free s → ∃ b, b ∈ bs ∧ is_free b = true ∧ size b = largest_free s) ∧
    (∃ rest, hf_name a = sn_name s +:+ rest) ∧ (String.length (sn_name s) ≤ 31)%nat ∧ sn_used s = used (hf_get_stats a).
Proof.
  intros Hw Hs Hsum Hlen. destruct (snapshot_take_ok realloc a m bs Hw Hs Hsum Hlen) as (s & bs' & E & Hsp & Hsub & Hall & Hn & _ & Hu).
  destruct (sizes_ok_sublist bs bs' Hsub Hs) as [Hs' _]. exists s, bs'. do 4 (split; [done|]).
  rewrite (sp_largest _ _ Hsp), (sp_free _ _ Hsp). split; [split; [apply max_free_nonneg|by apply max_free_le]|]. split.
  - intros Hp. destruct (max_free_in bs' Hp) as (b & Hb & ? & ?). exists b. split; [|done]. by eapply elem_of_sublist.
  - rewrite Hn. split; [apply truncate_prefix|]. split; [|done]. pose proof (truncate_length 32 (hf_name a) ltac:(lia)). lia.
Qed.

(** ** The free list *)

Lemma layout_sizes off bs : blocks_ok bs → sizes_ok (layout off bs) ∧ length (layout off bs) = length bs.
Proof.
  revert off. induction bs as [|[sz u] bs IH]; intros off H; [by split; [constructor|]|]. apply blocks_ok_cons in H as [[Hsz _] Hok].
  destruct (IH (off + sz) Hok) as [IH1 IH2]. split; [constructor; [simpl in *; lia|done]|simpl; by rewrite IH2].
Qed.

Lemma layout_max off bs n : 0 < n → n ≤ max_free (layout off bs) ↔ ∃ sz, (sz, false) ∈ bs ∧ n ≤ sz.
Proof.
  intros Hn. revert off. induction bs as [|[sz u] bs IH]; intros off; cbn [layout max_free foldr].
  - split; [lia|]. intros (sz & Hin & _). by apply elem_of_nil in Hin.
  - fold (max_free (layout (off + sz) bs)). specialize (IH (off + sz)). destruct u; cbn [negb is_free base.size] in *.
    + rewrite IH. split; intros (k & Hin & Hk); exists k; (split; [|done]); [by right|]. by apply elem_of_cons in Hin as [|].
    + cbn [size]. split.
      * intros Hmax. destruct (decide (n ≤ sz)); [exists sz; split; [by left|done]|]. destruct IH as [IH _].
        destruct (IH ltac:(lia)) as (k & ? & ?). exists k. split; [by right|done].
      * intros (k & Hin & Hk). apply elem_of_cons in Hin as [[= ->]|Hin]; [lia|]. destruct IH as [_ IH].
        specialize (IH (ex_intro _ k (conj Hin Hk))). lia.
Qed.

(** Snapshots of the free list tell what can be allocated.  For a heap in
    its invariant (after any program of allocations and frees) of less than a
    terabyte, the snapshot's free bytes and the bytes in use add up to the
    arena, and an allocation succeeds exactly when the block it needs is no
    larger than the snapshot's largest free block. *)
Theorem fl_snapshot_predicts nd realloc a m L :
  fl_inv a m L → fl_capacity a < 2 ^ 40 → (∀ n, realloc n = true) →
  ∃ s, hf_snapshot_take (hf_allocator_vtable0 := FL_VT nd) realloc a m = Ok s ∧ sn_used s + free_bytes s = fl_capacity a ∧
    ∀ size al, request_ok size → align_ok al →
      (result_ptr (fl_allocate a m size al) ≠ NULL ↔ fl_need size al ≤ largest_free s).
Proof.
  intros (bs & l & Hwf & _) Hcap Hr. pose proof (fw_core _ _ _ _ Hwf) as [Hg _ _]. pose proof (fg_blocks _ _ Hg) as Hok.
  pose proof (layout_tiles 0 bs Hok) as Ht. pose proof (fg_end _ _ Hg) as He. rewrite (end_addr_shift (fl_mem a)) in He.
  replace (end_addr 0 bs) with (fl_capacity a) in Ht by lia. destruct (layout_sizes 0 bs Hok) as [Hs Hlen].
  pose proof (tiles_sum _ _ _ Ht) as Hsum. pose proof (sum_sizes_nonneg false _ Hs).
  assert (Z.of_nat (length bs) < 2 ^ 40) as Hl40.
  { pose proof (end_addr_ge (fl_mem a) bs Hok) as He2. rewrite (fg_end _ _ Hg) in He2. lia. }
  destruct (snapshot_take_ok (hf_allocator_vtable0 := FL_VT nd) realloc a m (layout 0 bs) (fl_walk_layout a m bs l Hwf) Hs) as
    (s & bs' & E & Hsp & _ & Hall & _ & _ & Hu); [lia|by rewrite Hlen|].
  rewrite (Hall Hr) in Hsp. exists s. split; [done|]. rewrite (sp_free _ _ Hsp), (sp_largest _ _ Hsp), Hu. split.
  - change (used (hf_get_stats a)) with (used (fl_get_stats a)). unfold fl_get_stats. rewrite (fw_used _ _ _ _ Hwf), <- (layout_used 0). lia.
  - intros size al Hsz Hal. assert (0 < fl_need size al) as Hpos.
    { assert (0 ≤ al ≤ 2 ^ 62) as Hal'.
      { destruct Hal as [?|(k & ? & ->)]; [lia|]. pose proof (pow2_pos k). pose proof (pow2_le_mono k 62). lia. }
      pose proof (fl_need_spec size al Hsz Hal') as (? & _). lia. }
    rewrite (layout_max 0 bs (fl_need size al) Hpos).
    destruct (fl_allocate_core a m bs l size al Hwf Hsz Hal) as (a' & m' & p & -> & _ & Hcase). cbn [result_ptr].
    destruct Hcase as [(-> & _ & Hno & _)|(bs1 & sz & bs2 & bs2' & sz' & l' & [-> Hfit] & Ep & Hwf' & _ & Hlo & _)].
    + split; [done|]. intros (sz & Hin & Hle). specialize (Hno sz Hin). lia.
    + pose proof (geo_facts _ _ _ _ _ Hg) as (B1 & B2 & B3 & _ & _ & B4 & _). split; [intros _|intros _; lia]. exists sz.
      split; [apply elem_of_app; right; by left|done].
Qed.

(** ** Exports *)

(** The texts the exports are meant to be. *)
Definition json_pieces (s : hf_snapshot) : list piece :=
  [Printf (json_name s); Printf (json_usage s); Printf (json_free s); Printf (json_counts s); Printf (json_frag s); Puts json_open] ++
  block_pieces (json_block (Z.of_nat (length (blocks s)))) 0 (blocks s) ++ [Puts json_close].

Definition csv_pieces (s : hf_snapshot) : list piece := Puts csv_header :: block_pieces csv_block 0 (blocks s).

Definition html_pieces (s : hf_snapshot) : list piece :=
  [Puts html_head; Printf (html_title s); Puts html_style; Printf (html_caption s); Printf (html_table s); Puts html_open] ++
  block_pieces (html_block (html_span s)) 0 (blocks s) ++ [Puts html_close].

Section exports.
Context (realloc malloc : Z → bool) (Hr : ∀ n, realloc n = true) (Hm : ∀ n, malloc n = true).

Lemma sb_run_single s b : sb_run realloc malloc [Puts s] b = sb_puts realloc b s.
Proof. cbn [sb_run]. by destruct (sb_puts _ _ _). Qed.

Lemma to_json_run s : blocks_len s = Z.of_nat (length (blocks s)) →
  hf_snapshot_to_json realloc malloc s = sb_run realloc malloc (json_pieces s) sb_zero.
Proof.
  intros Hl. unfold hf_snapshot_to_json, json_pieces. rewrite Hl, Nat2Z.id, firstn_all. cbn [app sb_run].
  repeat lazymatch goal with
  | |- (?o ≫= _) = (?o ≫= _) => destruct o; [cbn [mbind outcome_bind]|done..]
  end.
  rewrite sb_blocks_run, sb_run_app. destruct (sb_run _ _ _ _); [|done..]. cbn [mbind outcome_bind]. by rewrite sb_run_single.
Qed.

Lemma to_csv_run s : blocks_len s = Z.of_nat (length (blocks s)) →
  hf_snapshot_to_csv realloc malloc s = sb_run realloc malloc (csv_pieces s) sb_zero.
Proof.
  intros Hl. unfold hf_snapshot_to_csv, csv_pieces. rewrite Hl, Nat2Z.id, firstn_all. cbn [sb_run].
  destruct (sb_puts _ _ _); [|done..]. cbn [mbind outcome_bind]. apply sb_blocks_run.
Qed.

Lemma to_html_run s : blocks_len s = Z.of_nat (length (blocks s)) →
  hf_snapshot_to_html realloc malloc s = sb_run realloc malloc (html_pieces s) sb_zero.
Proof.
  intros Hl. unfold hf_snapshot_to_html, html_pieces. rewrite Hl, Nat2Z.id, firstn_all. cbn [app sb_run].
  repeat lazymatch goal with
  | |- (?o ≫= _) = (?o ≫= _) => destruct o; [cbn [mbind outcome_bind]|done..]
  end.
  rewrite sb_blocks_run, sb_run_app. destruct (sb_run _ _ _ _); [|done..]. cbn [mbind outcome_bind]. by rewrite sb_run_single.
Qed.

Lemma pieces_ok ps : Z.of_nat (String.length (text ps)) < 2 ^ 60 →
  ∃ b, sb_run realloc malloc ps sb_zero = Ok b ∧ sb_ok b (text ps).
Proof. intros Hl. by apply (sb_run_ok realloc malloc ps sb_zero EmptyString Hr Hm sb_zero_ok). Qed.
End exports.

(** The exports write what they are meant to.  While memory lasts and the
    text is shorter than 2^60 bytes, each export returns; its growable buffer
    is never written outside its bounds, whatever the lengths of the pieces,
    and holds exactly the concatenation of the header, one line per block and
    the footer, with its length. *)
Theorem exports_exact realloc malloc s :
  (∀ n, realloc n = true) → (∀ n, malloc n = true) → blocks_len s = Z.of_nat (length (blocks s)) →
  Z.of_nat (String.length (text (json_pieces s))) < 2 ^ 60 → Z.of_nat (String.length (text (html_pieces s))) < 2 ^ 60 →
  (∃ b, hf_snapshot_to_json realloc malloc s = Ok b ∧ sb_ok b (text (json_pieces s))) ∧
  (∃ b, hf_snapshot_to_html realloc malloc s = Ok b ∧ sb_ok b (text (html_pieces s))).
Proof.
  intros Hr Hm Hl H1 H2. rewrite to_json_run, to_html_run by done. split; by apply pieces_ok.
Qed.

(** ** CSV, read back *)

Fixpoint strip (p s : string) : option string :=
  match p, s with
  | EmptyString, _ => Some s
  | String a p, String b s => if Ascii.eqb a b then strip p s else None
  | _, _ => None
  end.

Definition read_line (s : string) : option (hf_block_info * string) :=
  let '(o, s) := read_dec 0 s in
  s ← strip "," s;
  let '(n, s) := read_dec 0 s in
  s ← strip "," s;
  match strip ("free" +:+ newline) s with
  | Some s => Some (BlockInfo o n true, s)
  | None => s ← strip ("used" +:+ newline) s; Some (BlockInfo o n false, s)
  end.

Fixpoint read_lines (fuel : nat) (s : string) : option (list hf_block_info) :=
  match fuel with
  | O => None
  | S fuel =>
      match s with
      | EmptyString => Some []
      | _ => '(b, s) ← read_line s; bs ← read_lines fuel s; Some (b :: bs)
      end
  end.

Definition read_csv (s : string) : option (list hf_block_info) :=
  s ← strip csv_header s; read_lines (S (String.length s)) s.

Lemma strip_app p s : strip p (p +:+ s) = Some s.
Proof. induction p as [|c p IH]; [done|]. rewrite string_cons_app. cbn [strip]. by rewrite Ascii.eqb_refl. Qed.

Lemma read_line_csv i b rest : 0 ≤ offset b → 0 ≤ size b → read_line (csv_block i b +:+ rest) = Some (b, rest).
Proof.
  intros Ho Hs. unfold read_line, csv_block. rewrite !string_app_assoc.
  rewrite read_dec_dec by (done || by intros c s [= <- _]). rewrite strip_app. cbn [mbind option_bind].
  rewrite read_dec_dec by (done || by intros c s [= <- _]). rewrite strip_app. cbn [mbind option_bind].
  destruct b as [o n []]; cbn [offset size is_free].
  - by rewrite <- string_app_assoc, strip_app.
  - rewrite <- string_app_assoc. change (strip ("free" +:+ newline) (("used" +:+ newline) +:+ rest)) with (@None string).
    by rewrite strip_app.
Qed.

Definition blocks_ok64 (bs : list hf_block_info) : Prop := Forall (λ b, 0 ≤ offset b < 2 ^ 64 ∧ 0 ≤ size b < 2 ^ 64) bs.

Lemma read_lines_csv i bs fuel : blocks_ok64 bs → (String.length (text (block_pieces csv_block i bs)) < fuel)%nat →
  read_lines fuel (text (block_pieces csv_block i bs)) = Some bs.
Proof.
  intros Hbs. revert i fuel. induction Hbs as [|b bs [Ho Hs] Hbs IH]; intros i [|fuel] Hf; cbn [block_pieces text piece_text] in *;
    [simpl in Hf; lia|done|lia|]. rewrite string_length_app in Hf.
  assert (0 < String.length (csv_block i b))%nat as Hpos.
  { unfold csv_block. rewrite !string_length_app. simpl. lia. }
  cbn [read_lines]. destruct (csv_block i b +:+ text (block_pieces csv_block (i + 1) bs)) eqn:E.
  { apply (f_equal String.length) in E. rewrite string_length_app in E. simpl in E. lia. }
  rewrite <- E, read_line_csv by lia. cbn [mbind option_bind]. rewrite IH by lia. done.
Qed.

Lemma dec_loop_length fuel n acc : (String.length (dec_loop fuel n acc) ≤ fuel + String.length acc)%nat.
Proof.
  revert n acc. induction fuel as [|fuel IH]; intros n acc; [done|]. cbn [dec_loop]. destruct (n <? 10); [simpl; lia|].
  specialize (IH (n / 10) (String (digit (n mod 10)) acc)). simpl in IH. lia.
Qed.

Lemma dec_length n : 0 ≤ n < 2 ^ 64 → (String.length (dec n) ≤ 64)%nat.
Proof.
  intros Hn. unfold dec. etransitivity; [apply dec_loop_length|]. cbn [String.length].
  destruct (decide (n = 0)) as [->|]; [simpl; lia|]. assert (Z.log2 n < 64) by (apply Z.log2_lt_pow2; lia).
  pose proof (Z.log2_nonneg n). lia.
Qed.

Lemma csv_length i bs : blocks_ok64 bs → (String.length (text (block_pieces csv_block i bs)) ≤ 256 * length bs)%nat.
Proof.
  intros Hbs. revert i. induction Hbs as [|b bs [Ho Hs] Hbs IH]; intros i; cbn [block_pieces text piece_text length]; [simpl; lia|].
  rewrite string_length_app. specialize (IH (i + 1)). unfold csv_block at 1. rewrite !string_length_app.
  pose proof (dec_length _ Ho). pose proof (dec_length _ Hs). destruct (is_free b); simpl; lia.
Qed.

(** C37. The CSV export round-trips.  For fewer than 2^40 blocks with 64-bit
    offsets and sizes, and if every [realloc] and [malloc] of the export
    succeeds (the code does not check them, a failed one makes it write through
    a null pointer), [hf_snapshot_to_csv] returns a text from which a reader of
    the format recovers exactly the snapshot's blocks. *)
Theorem csv_roundtrip realloc malloc s :
  (∀ n, realloc n = true) → (∀ n, malloc n = true) → blocks_len s = Z.of_nat (length (blocks s)) →
  blocks_ok64 (blocks s) → blocks_len s < 2 ^ 40 →
  ∃ b, hf_snapshot_to_csv realloc malloc s = Ok b ∧ read_csv (sb_s b) = Some (blocks s).
Proof.
  intros Hr Hm Hl Hbs Hlim. rewrite to_csv_run by done. pose proof (csv_length 0 (blocks s) Hbs) as Hlen.
  destruct (pieces_ok realloc malloc Hr Hm (csv_pieces s)) as (b & E & Hok).
  { unfold csv_pieces. cbn [text piece_text]. rewrite string_length_app.
    assert (String.length csv_header ≤ 256)%nat by (simpl; lia). lia. }
  exists b. split; [done|]. rewrite (so_s _ _ Hok). unfold read_csv, csv_pieces. cbn [text piece_text].
  rewrite strip_app. cbn [mbind option_bind]. apply read_lines_csv; [done|lia].
Qed.

(** ** Instances *)

Definition ex_alloc_ok (n : Z) : bool := true.

(** A snapshot of two blocks. *)
Definition ex_snapshot : hf_snapshot :=
  Snapshot "FreeList" 4096 96 4000 2 1 4000 (S754_zero false) [BlockInfo 0 96 false; BlockInfo 96 4000 true] 2.

(** The walk of a free list of one block. *)
Lemma snapshot_correct_witness :
  ∃ s bs', hf_snapshot_take (hf_allocator_vtable0 := FL_VT false) ex_alloc_ok (ex_heap HF_FIT_FIRST).1 (ex_heap HF_FIT_FIRST).2 = Ok s ∧
    snapshot_of s bs' ∧ bs' `sublist_of` [BlockInfo 0 4096 true].
Proof.
  destruct (snapshot_correct (hf_allocator_vtable0 := FL_VT false) ex_alloc_ok (ex_heap HF_FIT_FIRST).1 (ex_heap HF_FIT_FIRST).2
    [BlockInfo 0 4096 true]) as (s & bs' & E & Hsp & Hsub & _).
  - by vm_compute.
  - repeat constructor. simpl. lia.
  - simpl. lia.
  - simpl. lia.
  - exists s, bs'. split; [exact E|]. by split.
Defined.

(** A new heap of one page. *)
Lemma fl_snapshot_predicts_witness :
  ∃ s, hf_snapshot_take (hf_allocator_vtable0 := FL_VT false) ex_alloc_ok (ex_heap HF_FIT_BEST).1 (ex_heap HF_FIT_BEST).2 = Ok s ∧
    sn_used s + free_bytes s = 4096.
Proof.
  destruct (fl_snapshot_predicts false ex_alloc_ok _ _ ∅ (ex_heap_inv HF_FIT_BEST)) as (s & E & Hsum & _).
  - by vm_compute.
  - done.
  - exists s. split; [exact E|exact Hsum].
Defined.

(** The exports of two blocks. *)
Lemma exports_exact_witness :
  (∃ b, hf_snapshot_to_json ex_alloc_ok ex_alloc_ok ex_snapshot = Ok b ∧ sb_ok b (text (json_pieces ex_snapshot))) ∧
  (∃ b, hf_snapshot_to_html ex_alloc_ok ex_alloc_ok ex_snapshot = Ok b ∧ sb_ok b (text (html_pieces ex_snapshot))).
Proof. apply (exports_exact ex_alloc_ok ex_alloc_ok ex_snapshot); by vm_compute. Defined.

(** Witness of C37: the CSV of two blocks. *)
Lemma csv_roundtrip_witness :
  ∃ b, hf_snapshot_to_csv ex_alloc_ok ex_alloc_ok ex_snapshot = Ok b ∧ read_csv (sb_s b) = Some (blocks ex_snapshot).
Proof.
  apply (csv_roundtrip ex_alloc_ok ex_alloc_ok ex_snapshot); [done|done|done| |done].
  repeat constructor; simpl; lia.
Defined.
