(* ===== verification/Logger.v ===== *)
(** * The logger ([c/src/hf_logger.c])

    The static variables of the file are the record [logger]; the files and
    the standard error stream the code writes to are part of it.  Each entry
    point runs its output under one mutex, so its writes are one step here.
    The clock's answer and the success of [fopen] are arguments; the text a
    format expands to is given. *)

From Stdlib Require Import String.
From S2P Require Import Prelude Text.

(** ** The code *)

(** [hf_log_level]. *)
Inductive hf_log_level : Type := HF_LOG_DEBUG | HF_LOG_INFO | HF_LOG_WARN | HF_LOG_ERROR | HF_LOG_OFF.

(** The cast to [int]. *)
Definition level_int (l : hf_log_level) : Z :=
  match l with HF_LOG_DEBUG => 0 | HF_LOG_INFO => 1 | HF_LOG_WARN => 2 | HF_LOG_ERROR => 3 | HF_LOG_OFF => 4 end.

(** The static variables; [g_file] is the path the stream was opened with. *)
Record logger : Type := Logger {
  g_file : option string;
  g_level : hf_log_level;
  g_mirror : bool;
  g_mu_ready : bool;
  files : gmap string string;
  stderr : string
}.

Definition set_file (f : option string) (fs : gmap string string) (l : logger) : logger :=
  Logger f (g_level l) (g_mirror l) (g_mu_ready l) fs (stderr l).

Definition ensure_mutex (l : logger) : logger :=
  if g_mu_ready l then l else Logger (g_file l) (g_level l) (g_mirror l) true (files l) (stderr l).

(** What [clock_gettime] and [localtime_r] answer. *)
Record now : Type := Now {
  tm_year : Z;
  tm_mon : Z;
  tm_mday : Z;
  tm_hour : Z;
  tm_min : Z;
  tm_sec : Z;
  tv_nsec : Z
}.

(** [timestamp] into a buffer of [n] bytes; the fields are not negative. *)
Definition timestamp (t : now) (n : Z) : string :=
  truncate n
    (dec_padded 4 (tm_year t + 1900) +:+ "-" +:+ dec_padded 2 (tm_mon t + 1) +:+ "-" +:+ dec_padded 2 (tm_mday t) +:+ " " +:+
     dec_padded 2 (tm_hour t) +:+ ":" +:+ dec_padded 2 (tm_min t) +:+ ":" +:+ dec_padded 2 (tm_sec t) +:+ "." +:+
     dec_padded 3 (tv_nsec t / 1000000)).

(** The line both calls of [fprintf] write. *)
Definition log_line (t : now) (channel reason msg : string) : string :=
  "[" +:+ timestamp t 40 +:+ "] [" +:+ channel +:+ "] [" +:+ reason +:+ "] " +:+ msg +:+ newline.

Definition emit (t : now) (channel reason msg : string) (l : logger) : logger :=
  let l := ensure_mutex l in
  let line := log_line t channel reason msg in
  let fs := match g_file l with
            | Some p => <[p := default EmptyString (files l !! p) +:+ line]> (files l)
            | None => files l
            end in
  let err := if g_mirror l || match g_file l with None => true | Some _ => false end then stderr l +:+ line else stderr l in
  Logger (g_file l) (g_level l) (g_mirror l) (g_mu_ready l) fs err.

(** [fopen(path, mode a)] creates a missing file. *)
Definition hf_log_set_file (path : string) (fopen_ok : bool) (l : logger) : logger * bool :=
  let l := ensure_mutex l in
  let l := set_file None (files l) l in
  if fopen_ok then (set_file (Some path) (<[path := default EmptyString (files l !! path)]> (files l)) l, true) else (l, false).

Definition hf_log_set_level (level : hf_log_level) (l : logger) : logger :=
  Logger (g_file l) level (g_mirror l) (g_mu_ready l) (files l) (stderr l).

Definition hf_log_set_mirror_stderr (on : bool) (l : logger) : logger :=
  Logger (g_file l) (g_level l) on (g_mu_ready l) (files l) (stderr l).

Definition hf_log_close (l : logger) : logger :=
  let l := ensure_mutex l in
  match g_file l with Some _ => set_file None (files l) l | None => l end.

Definition level_name (l : hf_log_level) : string :=
  match l with
  | HF_LOG_DEBUG => "DEBUG"
  | HF_LOG_INFO => "INFO "
  | HF_LOG_WARN => "WARN "
  | _ => "ERROR"
  end.

(** [text] is what the format expands to; the buffer has 1024 bytes. *)
Definition hf_log_write (t : now) (level : hf_log_level) (tag text : string) (l : logger) : logger :=
  if level_int level <? level_int (g_level l) then l else emit t (level_name level) tag (truncate 1024 text) l.

Definition hf_log_bug (t : now) (reason text : string) (l : logger) : logger :=
  if level_int HF_LOG_ERROR <? level_int (g_level l) then l else emit t "bug" reason (truncate 1024 text) l.

Definition hf_log_dbg (t : now) (reason text : string) (l : logger) : logger :=
  if level_int HF_LOG_DEBUG <? level_int (g_level l) then l else emit t "debug" reason (truncate 1024 text) l.

(** The state at program start, with files left from earlier runs. *)
Definition logger_init (fs : gmap string string) : logger := Logger None HF_LOG_DEBUG true false fs EmptyString.

(** ** Histories *)

(** A call of the interface. *)
Inductive log_op : Type :=
| LWrite (t : now) (level : hf_log_level) (tag text : string)
| LBug (t : now) (reason text : string)
| LDbg (t : now) (reason text : string)
| LSetFile (path : string) (fopen_ok : bool)
| LSetLevel (level : hf_log_level)
| LMirror (on : bool)
| LClose.

Definition log_step (l : logger) (o : log_op) : logger :=
  match o with
  | LWrite t level tag text => hf_log_write t level tag text l
  | LBug t reason text => hf_log_bug t reason text l
  | LDbg t reason text => hf_log_dbg t reason text l
  | LSetFile path ok => (hf_log_set_file path ok l).1
  | LSetLevel level => hf_log_set_level level l
  | LMirror on => hf_log_set_mirror_stderr on l
  | LClose => hf_log_close l
  end.

Definition log_run (l : logger) (os : list log_op) : logger := foldl log_step l os.

(** ** The abstract logger: where each message goes *)

(** The threshold, the destination and the mirror are all that decides. *)
Record config : Type := Config { c_dest : option string; c_level : Z; c_mirror : bool }.

Inductive sink : Type := ToFile (path : string) | ToStderr.
#[global] Instance sink_eq_dec : EqDecision sink.
Proof. solve_decision. Defined.

(** The message of a call: its level, and the line it would write. *)
Definition message (o : log_op) : option (Z * string) :=
  match o with
  | LWrite t level tag text => Some (level_int level, log_line t (level_name level) tag (truncate 1024 text))
  | LBug t reason text => Some (3, log_line t "bug" reason (truncate 1024 text))
  | LDbg t reason text => Some (0, log_line t "debug" reason (truncate 1024 text))
  | _ => None
  end.

Definition configure (c : config) (o : log_op) : config :=
  match o with
  | LSetFile path ok => Config (if ok then Some path else None) (c_level c) (c_mirror c)
  | LSetLevel level => Config (c_dest c) (level_int level) (c_mirror c)
  | LMirror on => Config (c_dest c) (c_level c) on
  | LClose => Config None (c_level c) (c_mirror c)
  | _ => c
  end.

(** A message at or above the threshold goes to the file, if one is open, and
    to standard error, if there is none or it is mirrored. *)
Definition sinks (c : config) : list sink :=
  match c_dest c with
  | Some p => ToFile p :: (if c_mirror c then [ToStderr] else [])
  | None => [ToStderr]
  end.

Definition events (c : config) (o : log_op) : list (sink * string) :=
  match message o with
  | Some (level, line) => if c_level c <=? level then (λ s, (s, line)) <$> sinks c else []
  | None => []
  end.

Fixpoint history (c : config) (os : list log_op) : list (sink * string) :=
  match os with
  | [] => []
  | o :: os => events c o ++ history (configure c o) os
  end.

(** The text a history puts into one sink. *)
Fixpoint written (s : sink) (es : list (sink * string)) : string :=
  match es with
  | [] => EmptyString
  | (s', line) :: es => if decide (s' = s) then line +:+ written s es else written s es
  end.

(** What the sink of a concrete logger holds. *)
Definition content (s : sink) (l : logger) : string :=
  match s with ToFile p => default EmptyString (files l !! p) | ToStderr => stderr l end.

Definition config_of (l : logger) : config := Config (g_file l) (level_int (g_level l)) (g_mirror l).

Lemma written_app s es es' : written s (es ++ es') = written s es +:+ written s es'.
Proof. induction es as [|[s' line] es IH]; [done|]. simpl. destruct (decide (s' = s)); [by rewrite IH, string_app_assoc|done]. Qed.

Lemma ensure_mutex_same l : config_of (ensure_mutex l) = config_of l ∧ files (ensure_mutex l) = files l ∧ stderr (ensure_mutex l) = stderr l.
Proof. unfold ensure_mutex. by destruct (g_mu_ready l). Qed.

Lemma emit_spec t channel reason msg l :
  config_of (emit t channel reason msg l) = config_of l ∧
  ∀ s, content s (emit t channel reason msg l) = content s l +:+ written s ((λ s, (s, log_line t channel reason msg)) <$> sinks (config_of l)).
Proof.
  destruct (ensure_mutex_same l) as (Hc & Hf & He). unfold config_of in Hc. injection Hc as Hg Hl Hm.
  unfold emit. split; [unfold config_of; cbn [g_file g_level g_mirror]; by rewrite Hg, Hl, Hm|].
  intros s. unfold sinks, config_of. cbn [c_dest c_mirror]. rewrite Hg, Hm, Hf, He.
  set (line := log_line t channel reason msg). destruct (g_file l) as [p|].
  - destruct (g_mirror l); destruct s as [q|]; cbn [orb content fmap list_fmap written files stderr];
      repeat (rewrite decide_True by done || rewrite decide_False by done);
      try (destruct (decide (ToFile p = ToFile q)) as [[= ->]|Hne]; [rewrite lookup_insert_eq|rewrite lookup_insert_ne by congruence]);
      cbn [default]; by rewrite ?string_app_nil.
  - rewrite orb_true_r. destruct s as [q|]; cbn [content fmap list_fmap written files stderr];
      repeat (rewrite decide_True by done || rewrite decide_False by done); by rewrite ?string_app_nil.
Qed.

Lemma content_ensure_mutex s l : content s (ensure_mutex l) = content s l.
Proof. destruct (ensure_mutex_same l) as (_ & Hf & He). destruct s; cbn; by rewrite ?Hf, ?He. Qed.

(** One call changes the configuration and the sinks as the abstract logger
    says. *)
Lemma log_step_spec l o :
  config_of (log_step l o) = configure (config_of l) o ∧
  ∀ s, content s (log_step l o) = content s l +:+ written s (events (config_of l) o).
Proof.
  assert (∀ (k level : Z) (line : string) (l' : logger),
    (k = level → config_of l' = config_of l ∧ ∀ s, content s l' = content s l +:+ written s ((λ s, (s, line)) <$> sinks (config_of l))) →
    let l2 := if k <? level_int (g_level l) then l else l' in
    k = level → config_of l2 = config_of l ∧
    ∀ s, content s l2 = content s l +:+ written s (if c_level (config_of l) <=? level then (λ s, (s, line)) <$> sinks (config_of l) else [])) as Hmsg.
  { intros k level line l' H l2 ->. unfold l2. cbn [config_of c_level]. rewrite Z.leb_antisym.
    destruct (level <? level_int (g_level l)); cbn [negb]; [|by apply H]. split; [done|]. intros s. by rewrite string_app_nil. }
  destruct o as [t level tag text|t reason text|t reason text|path ok|level|on|]; unfold events; cbn [message configure log_step].
  - apply Hmsg; [|done]. intros _. apply emit_spec.
  - apply (Hmsg 3 3); [|done]. intros _. apply emit_spec.
  - apply (Hmsg 0 0); [|done]. intros _. apply emit_spec.
  - destruct (ensure_mutex_same l) as (Hc & Hf & He). unfold config_of in Hc. injection Hc as Hg Hl Hm.
    unfold hf_log_set_file, set_file, config_of. destruct ok; cbn [fst g_file g_level g_mirror files c_dest c_level c_mirror]; rewrite Hl, Hm;
      (split; [done|]); intros s; cbn [written]; rewrite string_app_nil; destruct s as [q|]; cbn [content files stderr]; rewrite ?Hf, ?He; try done.
    destruct (decide (q = path)) as [->|Hne]; [rewrite lookup_insert_eq|rewrite lookup_insert_ne by done]; [|done].
    by destruct (files l !! path).
  - split; [done|]. intros s. cbn [written]. rewrite string_app_nil. by destruct s.
  - split; [done|]. intros s. cbn [written]. rewrite string_app_nil. by destruct s.
  - destruct (ensure_mutex_same l) as (Hc & Hf & He). unfold config_of in Hc. injection Hc as Hg Hl Hm.
    unfold hf_log_close. destruct (g_file (ensure_mutex l)) eqn:E; unfold config_of, set_file; cbn [g_file g_level g_mirror c_level c_mirror];
      (split; [congruence|]); intros sk; cbn [written]; rewrite string_app_nil; destruct sk as [q|]; cbn [content files stderr]; by rewrite ?Hf, ?He.
Qed.

Lemma log_run_spec os l :
  config_of (log_run l os) = foldl configure (config_of l) os ∧
  ∀ s, content s (log_run l os) = content s l +:+ written s (history (config_of l) os).
Proof.
  revert l. induction os as [|o os IH]; intros l; cbn [log_run foldl history].
  - split; [done|]. intros s. by rewrite string_app_nil.
  - destruct (log_step_spec l o) as [Hc Hs]. destruct (IH (log_step l o)) as [IH1 IH2]. rewrite Hc in *. split; [done|].
    intros s. unfold log_run in IH2. by rewrite IH2, Hs, written_app, string_app_assoc.
Qed.

Lemma written_elem s line es : (s, line) ∈ es → ∃ pre post, written s es = pre +:+ line +:+ post.
Proof.
  induction es as [|[s' line'] es IH]; intros Hin; [by apply elem_of_nil in Hin|]. cbn [written].
  apply elem_of_cons in Hin as [[= -> ->]|Hin].
  - rewrite decide_True by done. by exists EmptyString, (written s' es).
  - destruct (IH Hin) as (pre & post & ->). destruct (decide (s' = s)); [|by exists pre, post].
    exists (line' +:+ pre), post. by rewrite string_app_assoc.
Qed.

(** The logger refines its abstract description.  After any sequence of
    calls, every file and standard error hold what they held before followed
    by exactly the lines the abstract logger routes there, in order: the
    threshold, the open file and the mirror flag at the time of the call alone
    decide.  So files are only appended to, and a message at or above the
    threshold is never lost: its line is in the open file, or on standard
    error when there is none (or when it is mirrored). *)
Theorem log_refines fs os1 o os2 :
  let l1 := log_run (logger_init fs) os1 in
  let l := log_run (logger_init fs) (os1 ++ o :: os2) in
  (∀ s, content s l = content s (logger_init fs) +:+ written s (history (Config None 0 true) (os1 ++ o :: os2))) ∧
  (∀ s, ∃ more, content s l = content s l1 +:+ more) ∧
  (∀ level line, message o = Some (level, line) → level_int (g_level l1) ≤ level →
     ∃ pre post, content (match g_file l1 with Some p => ToFile p | None => ToStderr end) l = pre +:+ line +:+ post).
Proof.
  intros l1 l. destruct (log_run_spec (os1 ++ o :: os2) (logger_init fs)) as [_ Hall]. split; [exact Hall|].
  assert (l = log_run l1 (o :: os2)) as Hl by (unfold l, l1, log_run; by rewrite foldl_app).
  destruct (log_run_spec (o :: os2) l1) as [_ Hrest]. rewrite <- Hl in Hrest. split; [intros s; by eexists|].
  intros level line Hm Hlv. rewrite Hrest. cbn [history]. rewrite written_app.
  assert ((match g_file l1 with Some p => ToFile p | None => ToStderr end, line) ∈ events (config_of l1) o) as Hin.
  { unfold events. rewrite Hm. cbn [c_level config_of]. rewrite (proj2 (Z.leb_le _ _)) by done.
    apply list_elem_of_fmap. eexists. split; [done|]. unfold sinks. cbn [c_dest config_of]. destruct (g_file l1); by left. }
  destruct (written_elem _ _ _ Hin) as (pre & post & ->). set (c := content _ l1). set (w := written _ _).
  exists (c +:+ pre), (post +:+ w). by rewrite !string_app_assoc.
Qed.

(** The reported text is the message, or its first 1023 bytes. *)
Lemma log_text_cut text : (∃ rest, text = truncate 1024 text +:+ rest) ∧ (String.length (truncate 1024 text) ≤ 1023)%nat ∧
  ((String.length text ≤ 1023)%nat → truncate 1024 text = text).
Proof.
  split; [apply truncate_prefix|]. split; [pose proof (truncate_length 1024 text ltac:(lia)); lia|]. intros H. apply truncate_short. lia.
Qed.

(** A failed [hf_log_set_file] has closed the file that was open: messages go
    to standard error only. *)
Lemma set_file_failure_closes path l : g_file (hf_log_set_file path false l).1 = None ∧ (hf_log_set_file path false l).2 = false.
Proof. done. Qed.

(** A message written at the level [HF_LOG_OFF] passes every threshold, and is
    labelled an error. *)
Lemma level_off_passes t tag text l :
  hf_log_write t HF_LOG_OFF tag text l = emit t "ERROR" tag (truncate 1024 text) l.
Proof. unfold hf_log_write. by destruct (g_level l). Qed.
