(* ===== verification/Locks.v ===== *)
(** * Mutexes and interleavings ([c/include/heapforge/hf_platform.h])

    Every public method of the allocators takes its mutex on entry and gives
    it back on each way out.  This file says what that buys, for code that is
    executed one access at a time by any number of threads.

    A method is a [prog]: a tree of single accesses to the state the mutex
    protects, with the calls of [hf_mutex_lock] and [hf_mutex_unlock] written
    where the code has them.  Nothing in the step relation stops a thread from
    reading or writing between two accesses of another one: that the lock is
    held is a property of the method ([locked]), to be proved of its code.
    Threads are adaptive ([tprog]): what a thread does next depends on the
    answers it got.  Besides calling methods a thread makes accesses of its
    own to data no method touches ([Access], for the bytes of its blocks).

    The mutex is the platform's: [hf_mutex_ops] are the four calls, and
    [MutexSpec] what POSIX and Win32 promise of them; [pthread_mutex] and
    [CRITICAL_SECTION] are instances, so the results hold on both branches of
    the header. *)

From S2P Require Import Prelude.

(** ** The mutex *)

(** [hf_mutex_init], [hf_mutex_lock] by thread [t] ([None]: it waits) and
    [hf_mutex_unlock] ([None]: undefined, of a mutex the thread does not hold)
    and [hf_mutex_destroy] ([None]: undefined, of a mutex that is held). *)
Class hf_mutex_ops (M : Type) : Type := {
  hf_mutex_init : M;
  hf_mutex_lock : nat → M → option M;
  hf_mutex_unlock : nat → M → option M;
  hf_mutex_destroy : M → option unit
}.

(** What the platform promises.  [mutex_held t] says that [t] has locked the
    mutex once; nothing is promised of a thread that locks twice. *)
Class MutexSpec (M : Type) `{!hf_mutex_ops M} : Type := {
  mutex_free : M → Prop;
  mutex_held : nat → M → Prop;
  mutex_init_free : mutex_free hf_mutex_init;
  mutex_lock_free t m : mutex_free m → ∃ m', hf_mutex_lock t m = Some m' ∧ mutex_held t m';
  mutex_lock_waits t u m : mutex_held u m → t ≠ u → hf_mutex_lock t m = None;
  mutex_unlock_held t m : mutex_held t m → ∃ m', hf_mutex_unlock t m = Some m' ∧ mutex_free m';
  mutex_destroy_free m : mutex_free m → hf_mutex_destroy m = Some ();
  mutex_held_once t u m : mutex_held t m → mutex_held u m → t = u;
  mutex_free_not_held t m : mutex_free m → ¬ mutex_held t m
}.

(** A default POSIX mutex: the thread that holds it. *)
Record pthread_mutex : Type := Pthread { pt_owner : option nat }.

#[global] Instance pthread_ops : hf_mutex_ops pthread_mutex := {
  hf_mutex_init := Pthread None;
  hf_mutex_lock t m := match pt_owner m with None => Some (Pthread (Some t)) | Some _ => None end;
  hf_mutex_unlock t m := if decide (pt_owner m = Some t) then Some (Pthread None) else None;
  hf_mutex_destroy m := match pt_owner m with None => Some () | Some _ => None end
}.

(** A Win32 critical section: the thread that holds it and how often. *)
Record CRITICAL_SECTION : Type := CriticalSection { cs_owner : option nat; cs_count : nat }.

#[global] Instance critical_section_ops : hf_mutex_ops CRITICAL_SECTION := {
  hf_mutex_init := CriticalSection None 0;
  hf_mutex_lock t m :=
    match cs_owner m with
    | None => Some (CriticalSection (Some t) 1)
    | Some u => if decide (u = t) then Some (CriticalSection (Some t) (S (cs_count m))) else None
    end;
  hf_mutex_unlock t m :=
    if decide (cs_owner m = Some t)
    then Some (if cs_count m is S (S n) then CriticalSection (Some t) (S n) else CriticalSection None 0)
    else None;
  hf_mutex_destroy m := match cs_owner m with None => Some () | Some _ => None end
}.

#[global] Instance pthread_spec : MutexSpec pthread_mutex.
Proof.
  refine {| mutex_free m := pt_owner m = None; mutex_held t m := pt_owner m = Some t |}; cbn.
  - done.
  - intros t m ->. by eexists.
  - by intros t u m -> _.
  - intros t m ->. rewrite decide_True by done. by eexists.
  - by intros m ->.
  - intros t u m -> [= ->]. done.
  - by intros t m ->.
Defined.

#[global] Instance critical_section_spec : MutexSpec CRITICAL_SECTION.
Proof.
  refine {| mutex_free m := cs_owner m = None; mutex_held t m := m = CriticalSection (Some t) 1 |}; cbn.
  - done.
  - intros t m ->. by eexists.
  - intros t u m -> Hne. cbn. by rewrite decide_False by done.
  - intros t m ->. cbn. rewrite decide_True by done. by eexists.
  - by intros m ->.
  - intros t u m -> [= ->]. done.
  - intros t m Hm ->. done.
Defined.

(** ** Methods *)

(** The code of a method over the protected state [X] with result [A]. *)
Inductive prog (X A : Type) : Type :=
| Ret (a : A)
| Stop (e : outcome Empty_set)
| Act (f : X → X) (k : X → prog X A)
| Lock (p : prog X A)
| Unlock (p : prog X A).
Arguments Ret {X A} _.
Arguments Stop {X A} _.
Arguments Act {X A} _ _.
Arguments Lock {X A} _.
Arguments Unlock {X A} _.

Section prog.
Context {X A : Type}.
Implicit Types p : prog X A.

(** Reading and writing the protected state. *)
Definition get {B : Type} (g : X → B) (k : B → prog X A) : prog X A := Act (λ x, x) (λ x, k (g x)).
Definition put (f : X → X) (p : prog X A) : prog X A := Act f (λ _, p).

(** A step that can go wrong: an assert, or an index into an array. *)
Definition check {B : Type} (o : outcome B) (k : B → prog X A) : prog X A :=
  match o with
  | Ok b => k b
  | Abort => Stop Abort
  | Fault => Stop Fault
  | OutOfFuel => Stop OutOfFuel
  end.

(** The program executed without interruption. *)
Fixpoint run p (x : X) : outcome (X * A) :=
  match p with
  | Ret a => Ok (x, a)
  | Stop e => e ≫= λ v : Empty_set, match v with end
  | Act f k => run (k x) (f x)
  | Lock p => run p x
  | Unlock p => run p x
  end.

(** Between lock and unlock: accesses, and on each path one unlock followed by
    the return. *)
Inductive section_body : prog X A → Prop :=
| body_act f k : (∀ x, section_body (k x)) → section_body (Act f k)
| body_stop e : section_body (Stop e)
| body_unlock a : section_body (Unlock (Ret a)).

(** The discipline: a method returns at once, or it is one critical section. *)
Inductive locked : prog X A → Prop :=
| locked_ret a : locked (Ret a)
| locked_section p : section_body p → locked (Lock p).

Lemma body_get {B : Type} (g : X → B) k : (∀ b, section_body (k b)) → section_body (get g k).
Proof. intros H. constructor. intros x. apply H. Qed.

Lemma body_put f p : section_body p → section_body (put f p).
Proof. intros H. by constructor. Qed.

Lemma body_check {B : Type} (o : outcome B) k : (∀ b, section_body (k b)) → section_body (check o k).
Proof. intros H. destruct o; [apply H|constructor..]. Qed.

Lemma run_get {B : Type} (g : X → B) k x : run (get g k) x = run (k (g x)) x.
Proof. done. Qed.

Lemma run_put f p x : run (put f p) x = run p (f x).
Proof. done. Qed.

Lemma run_check {B : Type} (o : outcome B) k x : run (check o k) x = (b ← o; run (k b) x).
Proof. by destruct o. Qed.
End prog.

Create HintDb locks.
#[export] Hint Constructors section_body locked : locks.
#[export] Hint Resolve body_get body_put body_check : locks.

(** ** Threads *)

(** What a thread still has to do: call a method, make an access of its own,
    and go on with the answer. *)
Inductive tprog (O P A : Type) : Type :=
| Done
| Call (o : O) (k : A → tprog O P A)
| Access (p : P) (k : A → tprog O P A).
Arguments Done {O P A}.
Arguments Call {O P A} _ _.
Arguments Access {O P A} _ _.

(** A thread outside the methods, or inside one with [p] left of its code. *)
Inductive tstate (X O P A : Type) : Type :=
| Idle (c : tprog O P A)
| Running (p : prog X A) (k : A → tprog O P A).
Arguments Idle {X O P A} _.
Arguments Running {X O P A} _ _.

Record config (M X D O P A : Type) : Type := Config {
  c_mutex : M;
  c_state : X;
  c_data : D;
  c_threads : list (tstate X O P A)
}.
Arguments Config {M X D O P A} _ _ _ _.
Arguments c_mutex {M X D O P A} _.
Arguments c_state {M X D O P A} _.
Arguments c_data {M X D O P A} _.
Arguments c_threads {M X D O P A} _.

Section machine.
Context {M X D O P A : Type} `{!hf_mutex_ops M}.
Context (method : O → prog X A) (access : P → D → D * A) (sem : O → X → outcome (X * A)).

(** One thread makes one step: it enters a method, makes one access (whether
    or not it holds the mutex), takes or gives back the mutex, returns. *)
Inductive step : config M X D O P A → config M X D O P A → Prop :=
| step_call t o k m x d ts :
    ts !! t = Some (Idle (Call o k)) →
    step (Config m x d ts) (Config m x d (<[t := Running (method o) k]> ts))
| step_access t p k m x d ts :
    ts !! t = Some (Idle (Access p k)) →
    step (Config m x d ts) (Config m x (access p d).1 (<[t := Idle (k (access p d).2)]> ts))
| step_act t f j k m x d ts :
    ts !! t = Some (Running (Act f j) k) →
    step (Config m x d ts) (Config m (f x) d (<[t := Running (j x) k]> ts))
| step_lock t p k m m' x d ts :
    ts !! t = Some (Running (Lock p) k) → hf_mutex_lock t m = Some m' →
    step (Config m x d ts) (Config m' x d (<[t := Running p k]> ts))
| step_unlock t p k m m' x d ts :
    ts !! t = Some (Running (Unlock p) k) → hf_mutex_unlock t m = Some m' →
    step (Config m x d ts) (Config m' x d (<[t := Running p k]> ts))
| step_ret t a k m x d ts :
    ts !! t = Some (Running (Ret a) k) →
    step (Config m x d ts) (Config m x d (<[t := Idle (k a)]> ts)).

(** The step as a function: thread [t] moves, if it can. *)
Definition exec_step (c : config M X D O P A) (t : nat) : option (config M X D O P A) :=
  let '(Config m x d ts) := c in
  match ts !! t with
  | Some (Idle (Call o k)) => Some (Config m x d (<[t := Running (method o) k]> ts))
  | Some (Idle (Access p k)) => Some (Config m x (access p d).1 (<[t := Idle (k (access p d).2)]> ts))
  | Some (Running (Act f j) k) => Some (Config m (f x) d (<[t := Running (j x) k]> ts))
  | Some (Running (Lock p) k) => m' ← hf_mutex_lock t m; Some (Config m' x d (<[t := Running p k]> ts))
  | Some (Running (Unlock p) k) => m' ← hf_mutex_unlock t m; Some (Config m' x d (<[t := Running p k]> ts))
  | Some (Running (Ret a) k) => Some (Config m x d (<[t := Idle (k a)]> ts))
  | _ => None
  end.

(** A schedule names the thread of each step. *)
Fixpoint exec (c : config M X D O P A) (sched : list nat) : option (config M X D O P A) :=
  match sched with
  | [] => Some c
  | t :: sched => c ← exec_step c t; exec c sched
  end.

(** The reference: whole methods, one after the other. *)
Inductive seq_step : X * D * list (tprog O P A) → X * D * list (tprog O P A) → Prop :=
| seq_call t o k x x' a d cs :
    cs !! t = Some (Call o k) → sem o x = Ok (x', a) →
    seq_step (x, d, cs) (x', d, <[t := k a]> cs)
| seq_access t p k x d cs :
    cs !! t = Some (Access p k) →
    seq_step (x, d, cs) (x, (access p d).1, <[t := k (access p d).2]> cs).

(** The threads at rest, the mutex just initialised. *)
Definition start (x : X) (d : D) (cs : list (tprog O P A)) : config M X D O P A :=
  Config hf_mutex_init x d (Idle <$> cs).

(** Every thread has come to its end. *)
Definition finished (c : config M X D O P A) : Prop :=
  Forall (λ ts, ts = Idle Done) (c_threads c).

(** A thread stands at a failed assert or a faulting access. *)
Definition crashed (c : config M X D O P A) : Prop :=
  ∃ t e k, c_threads c !! t = Some (Running (Stop e) k).

Lemma exec_step_sound c t c' : exec_step c t = Some c' → step c c'.
Proof.
  destruct c as [m x d ts]. unfold exec_step. destruct (ts !! t) as [[[|o k|p k]|[a|e|f j|p|p] k]|] eqn:Et; intros Hs; try done.
  - injection Hs as <-. by apply step_call.
  - injection Hs as <-. by apply step_access.
  - injection Hs as <-. by apply step_ret.
  - injection Hs as <-. by apply step_act.
  - apply bind_Some in Hs as (m' & Hm & [= <-]). by eapply step_lock.
  - apply bind_Some in Hs as (m' & Hm & [= <-]). by eapply step_unlock.
Qed.

Lemma exec_sound c sched c' : exec c sched = Some c' → rtc step c c'.
Proof.
  revert c. induction sched as [|t sched IH]; intros c Hs; cbn in Hs; [by injection Hs as ->|].
  apply bind_Some in Hs as (c1 & H1 & H2). eapply rtc_l; [by eapply exec_step_sound|]. by apply IH.
Qed.
End machine.

(** ** Atomicity *)

Section atomicity.
Context {M X D O P A : Type} `{MutexSpec M}.
Context (method : O → prog X A) (access : P → D → D * A) (sem : O → X → outcome (X * A)).
Context (Hlocked : ∀ o, locked (method o)) (Hrun : ∀ o x, run (method o) x = sem o x).

Local Abbreviation cstep := (@step M X D O P A _ method access).
Local Abbreviation sstep := (@seq_step X D O P A access sem).

(** Where a thread is, and what the reference has left of it: a method takes
    effect when its mutex is given back.  [x'] is the state of the reference,
    that is, the state when the mutex was last free. *)
Inductive at_thread (m : M) (x x' : X) (t : nat) : tstate X O P A → tprog O P A → Prop :=
| at_idle c : at_thread m x x' t (Idle c) c
| at_entry o k : at_thread m x x' t (Running (method o) k) (Call o k)
| at_body o p k :
    mutex_held t m → section_body p → run p x = sem o x' →
    at_thread m x x' t (Running p k) (Call o k)
| at_return a k : at_thread m x x' t (Running (Ret a) k) (k a).

Definition threads_sim (m : M) (x x' : X) (ts : list (tstate X O P A)) (cs : list (tprog O P A)) : Prop :=
  length ts = length cs ∧
  ∀ t s c, ts !! t = Some s → cs !! t = Some c → at_thread m x x' t s c.

(** The mutex is free and the states agree, or one thread is in its critical
    section. *)
Definition owner_sim (m : M) (x x' : X) (ts : list (tstate X O P A)) : Prop :=
  (mutex_free m ∧ x = x') ∨
  ∃ t p k, mutex_held t m ∧ ts !! t = Some (Running p k) ∧ section_body p.

Definition sim (c : config M X D O P A) (q : X * D * list (tprog O P A)) : Prop :=
  c_data c = q.1.2 ∧ threads_sim (c_mutex c) (c_state c) q.1.1 (c_threads c) q.2 ∧
  owner_sim (c_mutex c) (c_state c) q.1.1 (c_threads c).

Lemma threads_sim_reference m x x' ts cs t s :
  threads_sim m x x' ts cs → ts !! t = Some s → ∃ c, cs !! t = Some c ∧ at_thread m x x' t s c.
Proof.
  intros [Hl Hts] Ht. destruct (lookup_lt_is_Some_2 cs t) as [c Hc]; [rewrite <- Hl; by eapply lookup_lt_Some|].
  exists c. split; [done|]. by eapply Hts.
Qed.

(** A thread that does not hold the mutex does not see the protected state. *)
Lemma at_thread_other m x x' m2 y y' t s c :
  at_thread m x x' t s c → ¬ mutex_held t m → at_thread m2 y y' t s c.
Proof. intros [] Hn; [constructor..| |constructor]. done. Qed.

(** One thread moves, the others stay where they were. *)
Lemma threads_sim_update m x x' m2 y y' ts cs t s c :
  threads_sim m x x' ts cs → at_thread m2 y y' t s c →
  (∀ u s c, u ≠ t → at_thread m x x' u s c → at_thread m2 y y' u s c) →
  threads_sim m2 y y' (<[t := s]> ts) (<[t := c]> cs).
Proof.
  intros [Hl Hts] Ht Hother. split; [by rewrite !length_insert|]. intros u s' c' Hs Hc.
  apply list_lookup_insert_Some in Hs as [(-> & <- & Hlt)|[Hne Hs]].
  - rewrite list_lookup_insert_eq in Hc by (by rewrite <- Hl). by injection Hc as <-.
  - rewrite list_lookup_insert_ne in Hc by done. apply Hother; [done|]. by apply Hts.
Qed.

Lemma owner_sim_insert m x x' ts t s :
  owner_sim m x x' ts → (∀ p k, ts !! t = Some (Running p k) → section_body p → ¬ mutex_held t m) →
  owner_sim m x x' (<[t := s]> ts).
Proof.
  intros [?|(u & p & k & Hu & Hl & Hb)] Hn; [by left|]. right. exists u, p, k. split; [done|]. split; [|done].
  destruct (decide (u = t)) as [->|]; [by edestruct Hn|]. by rewrite list_lookup_insert_ne.
Qed.

(** The one who can change the protected state is the owner of the mutex. *)
Lemma sim_act_owner m x x' t f j k c :
  at_thread m x x' t (Running (Act f j) k) c →
  ∃ o, c = Call o k ∧ mutex_held t m ∧ section_body (Act f j) ∧ run (Act f j) x = sem o x'.
Proof.
  intros Ha. inversion Ha as [|o k' E|o p k' Hh Hb Hr|]; subst; [|by exists o].
  pose proof (Hlocked o) as Hl. rewrite E in Hl. inversion Hl.
Qed.

Lemma sim_lock_entry m x x' t p k c :
  at_thread m x x' t (Running (Lock p) k) c →
  ∃ o, c = Call o k ∧ section_body p ∧ ∀ y, run p y = sem o y.
Proof.
  intros Ha. inversion Ha as [|o k' E|o p' k' Hh Hb Hr|]; subst; [|by inversion Hb].
  exists o. split; [done|]. pose proof (Hlocked o) as Hl. rewrite E in Hl. inversion Hl; subst. split; [done|].
  intros y. by rewrite <- Hrun, E.
Qed.

Lemma sim_unlock_owner m x x' t p k c :
  at_thread m x x' t (Running (Unlock p) k) c →
  ∃ o a, c = Call o k ∧ p = Ret a ∧ mutex_held t m ∧ sem o x' = Ok (x, a).
Proof.
  intros Ha. inversion Ha as [|o k' E|o p' k' Hh Hb Hr|]; subst.
  - pose proof (Hlocked o) as Hl. rewrite E in Hl. inversion Hl.
  - inversion Hb; subst. by exists o, a.
Qed.

Lemma sim_ret_cases m x x' t a k c :
  at_thread m x x' t (Running (Ret a) k) c →
  c = k a ∨ ∃ o, c = Call o k ∧ ∀ y, sem o y = Ok (y, a).
Proof.
  intros Ha. inversion Ha as [|o k' E|o p' k' Hh Hb Hr|]; subst; [|by inversion Hb|by left].
  right. exists o. split; [done|]. intros y. by rewrite <- Hrun, E.
Qed.

(** Every step is a step of the reference, or none. *)
Lemma sim_step c q c' : sim c q → cstep c c' → ∃ q', rtc sstep q q' ∧ sim c' q'.
Proof.
  destruct q as [[x' d'] cs]. intros (Hd & Hts & Ho) Hstep. unfold sim in *. cbn [fst snd] in *.
  destruct Hstep as [t o k m x d ts Ht|t p k m x d ts Ht|t f j k m x d ts Ht|t p k m m' x d ts Ht Hm|t p k m m' x d ts Ht Hm|t a k m x d ts Ht];
    cbn [c_mutex c_state c_data c_threads] in *; subst d';
    destruct (threads_sim_reference _ _ _ _ _ _ _ Hts Ht) as (c & Hc & Ha).
  - inversion Ha; subst. exists (x', d, cs). split; [done|]. cbn. split; [done|]. split.
    + rewrite <- (list_insert_id cs t (Call o k)) by done. eapply threads_sim_update; [done|constructor|done].
    + apply owner_sim_insert; [done|]. by rewrite Ht.
  - inversion Ha; subst. exists (x', (access p d).1, <[t := k (access p d).2]> cs). split; [by apply rtc_once, seq_access|].
    cbn. split; [done|]. split; [eapply threads_sim_update; [done|constructor|done]|]. apply owner_sim_insert; [done|]. by rewrite Ht.
  - destruct (sim_act_owner _ _ _ _ _ _ _ _ Ha) as (o & -> & Hh & Hb & Hr). inversion Hb; subst.
    exists (x', d, cs). split; [done|]. cbn. split; [done|]. split.
    + rewrite <- (list_insert_id cs t (Call o k)) by done. eapply threads_sim_update; [done|by constructor|].
      intros u s c Hne Hu. eapply at_thread_other; [done|]. intros Hh'. apply Hne. by eapply mutex_held_once.
    + right. exists t, (j x), k. rewrite list_lookup_insert_eq by (by eapply lookup_lt_Some). done.
  - destruct (sim_lock_entry _ _ _ _ _ _ _ Ha) as (o & -> & Hb & Hr).
    destruct Ho as [[Hf ->]|(u & p' & k' & Hu & Hlu & Hbu)].
    2:{ destruct (decide (t = u)) as [->|Hne]; [|by rewrite (mutex_lock_waits t u) in Hm].
        rewrite Ht in Hlu. injection Hlu as <- _. inversion Hbu. }
    destruct (mutex_lock_free t m Hf) as (m2 & Hm2 & Hh). rewrite Hm in Hm2. injection Hm2 as <-.
    exists (x', d, cs). split; [done|]. cbn. split; [done|]. split.
    + rewrite <- (list_insert_id cs t (Call o k)) by done. eapply threads_sim_update; [done|by constructor|].
      intros u s c Hne Hu. eapply at_thread_other; [done|]. by apply mutex_free_not_held.
    + right. exists t, p, k. rewrite list_lookup_insert_eq by (by eapply lookup_lt_Some). done.
  - destruct (sim_unlock_owner _ _ _ _ _ _ _ Ha) as (o & a & -> & -> & Hh & Hr).
    destruct (mutex_unlock_held t m Hh) as (m2 & Hm2 & Hf). rewrite Hm in Hm2. injection Hm2 as <-.
    exists (x, d, <[t := k a]> cs). split; [by apply rtc_once; eapply seq_call|]. cbn. split; [done|]. split; [|by left].
    eapply threads_sim_update; [done|constructor|].
    intros u s c Hne Hu. eapply at_thread_other; [done|]. intros Hh'. apply Hne. by eapply mutex_held_once.
  - assert (owner_sim m x x' (<[t := Idle (k a)]> ts)) as Ho'.
    { apply owner_sim_insert; [done|]. rewrite Ht. intros p' k' [= <- <-] Hb. inversion Hb. }
    destruct (sim_ret_cases _ _ _ _ _ _ _ Ha) as [->|(o & -> & Hr)].
    + exists (x', d, cs). split; [done|]. cbn. split; [done|]. split; [|done].
      rewrite <- (list_insert_id cs t (k a)) by done. eapply threads_sim_update; [done|constructor|done].
    + exists (x', d, <[t := k a]> cs). split; [by apply rtc_once; eapply seq_call|]. cbn. split; [done|]. split; [|done].
      eapply threads_sim_update; [done|constructor|done].
Qed.

Lemma sim_start x d cs : sim (start x d cs) (x, d, cs).
Proof.
  split; [done|]. split; [|left; split; [apply mutex_init_free|done]].
  split; [apply length_fmap|]. intros t s c Hs Hc. cbn in *. rewrite list_lookup_fmap, Hc in Hs. injection Hs as <-. constructor.
Qed.

Lemma sim_reachable x d cs c : rtc cstep (start x d cs) c → ∃ q, rtc sstep (x, d, cs) q ∧ sim c q.
Proof.
  intros Hr. remember (start x d cs) as c0 eqn:E.
  assert (∀ q0, sim c0 q0 → ∃ q, rtc sstep q0 q ∧ sim c q) as Hg.
  { clear E. induction Hr as [|c0 c1 c Hs Hr IH]; intros q0 H0; [by exists q0|].
    destruct (sim_step _ _ _ H0 Hs) as (q1 & Hq1 & H1). destruct (IH q1 H1) as (q & Hq & Hsim).
    exists q. split; [by etrans|done]. }
  apply Hg. rewrite E. apply sim_start.
Qed.

(** ** Progress *)

(** A thread that has stopped was to do a call that fails in the reference. *)
Lemma sim_crashed c q : sim c q → crashed c →
  ∃ t o k, q.2 !! t = Some (Call o k) ∧ ∀ v, sem o q.1.1 ≠ Ok v.
Proof.
  intros (_ & Hts & _) (t & e & k & Ht).
  destruct (threads_sim_reference _ _ _ _ _ _ _ Hts Ht) as (cp & Hc & Ha).
  inversion Ha as [|o k' E|o p' k' Hh Hb Hr|]; subst.
  - pose proof (Hlocked o) as Hl. rewrite E in Hl. inversion Hl.
  - exists t, o, k. split; [done|]. intros v. rewrite <- Hr. by destruct e.
Qed.

Lemma threads_finished_or (ts : list (tstate X O P A)) :
  Forall (λ s, s = Idle Done) ts ∨ ∃ t s, ts !! t = Some s ∧ s ≠ Idle Done.
Proof.
  induction ts as [|s ts [IH|(t & s' & Ht & Hs)]]; [by left| |right; by exists (S t), s'].
  assert (s = Idle Done ∨ s ≠ Idle Done) as [->|Hs] by (destruct s as [[]|]; [by left|by right..]).
  - left. by constructor.
  - right. by exists 0%nat, s.
Qed.

(** No deadlock: as long as a thread has something left to do, and none has
    stopped at a failure, some thread can move. *)
Lemma sim_progress c q : sim c q → ¬ crashed c → finished c ∨ ∃ c', cstep c c'.
Proof.
  intros (_ & Hts & Ho) Hnc. destruct c as [m x d ts]. cbn in *.
  destruct Ho as [[Hf _]|(t & p & k & Hh & Ht & Hb)].
  - destruct (threads_finished_or ts) as [Hfin|(t & s & Ht & Hs)]; [by left|right].
    destruct (threads_sim_reference _ _ _ _ _ _ _ Hts Ht) as (cp & Hc & Ha).
    destruct Ha as [cp|o k|o p k Hh Hb Hr|a k]; [destruct cp as [|o k|p k]|..].
    + done.
    + eexists. by eapply step_call.
    + eexists. by eapply step_access.
    + destruct (Hlocked o) as [a|p Hb]; [eexists; by eapply step_ret|].
      destruct (mutex_lock_free t m Hf) as (m' & Hm & _). eexists. by eapply step_lock.
    + by destruct (mutex_free_not_held t m Hf).
    + eexists. by eapply step_ret.
  - right. inversion Hb; subst.
    + eexists. by eapply step_act.
    + destruct Hnc. by exists t, e, k.
    + destruct (mutex_unlock_held t m Hh) as (m' & Hm & _). eexists. by eapply step_unlock.
Qed.

(** ** Termination *)

(** A thread that moves has less left of its code. *)
Inductive thread_next : tstate X O P A → tstate X O P A → Prop :=
| next_call o k : thread_next (Idle (Call o k)) (Running (method o) k)
| next_access p k a : thread_next (Idle (Access p k)) (Idle (k a))
| next_act f j k x : thread_next (Running (Act f j) k) (Running (j x) k)
| next_lock p k : thread_next (Running (Lock p) k) (Running p k)
| next_unlock p k : thread_next (Running (Unlock p) k) (Running p k)
| next_ret a k : thread_next (Running (Ret a) k) (Idle (k a)).

Lemma running_sn p k : (∀ a, sn thread_next (Idle (k a))) → sn thread_next (Running p k).
Proof.
  intros Hk. induction p as [a|e|f j IH|p IH|p IH]; constructor; intros s Hs; inversion Hs; subst; auto.
Qed.

Lemma idle_sn c : sn thread_next (Idle c).
Proof.
  induction c as [|o k IH|p k IH]; constructor; intros s Hs; inversion Hs; subst; [|done]. by apply running_sn.
Qed.

Lemma thread_sn s : sn thread_next s.
Proof. destruct s as [c|p k]; [apply idle_sn|]. apply running_sn. intros. apply idle_sn. Qed.

(** One of the threads moves. *)
Inductive some_next : list (tstate X O P A) → list (tstate X O P A) → Prop :=
| some_here s s' ts : thread_next s s' → some_next (s :: ts) (s' :: ts)
| some_later s ts ts' : some_next ts ts' → some_next (s :: ts) (s :: ts').

Lemma some_next_insert ts t s s' : ts !! t = Some s → thread_next s s' → some_next ts (<[t := s']> ts).
Proof.
  revert t. induction ts as [|s0 ts IH]; intros t Ht Hn; [done|]. destruct t as [|t]; cbn in *.
  - injection Ht as ->. by constructor.
  - constructor. by apply IH.
Qed.

Lemma some_next_sn ts : sn some_next ts.
Proof.
  induction ts as [|s ts IH]; [constructor; intros ts' Hn; inversion Hn|].
  revert s. induction IH as [ts _ IHts]. intros s. induction (thread_sn s) as [s _ IHs].
  constructor. intros ts' Hn. inversion Hn; subst; [by apply IHs|by apply IHts].
Qed.

Lemma step_next c c' : cstep c c' → some_next (c_threads c) (c_threads c').
Proof. destruct 1; cbn; eapply some_next_insert; try done; constructor. Qed.

(** No run is infinite. *)
Lemma step_sn c : sn cstep c.
Proof.
  remember (c_threads c) as ts eqn:E. revert c E. induction (some_next_sn ts) as [ts _ IH]. intros c ->.
  constructor. intros c' Hs. eapply IH; [by apply step_next|done].
Qed.

(** With a reference that never fails, every run can be continued until all
    threads have come to their end, and no run goes on for ever. *)
Lemma machine_live x d cs :
  (∀ q, rtc sstep (x, d, cs) q → ∀ t o k, q.2 !! t = Some (Call o k) → ∃ v, sem o q.1.1 = Ok v) →
  sn cstep (start x d cs) ∧
  ∀ c, rtc cstep (start x d cs) c → ¬ crashed c ∧ (finished c ∨ ∃ c', cstep c c').
Proof.
  intros Hsafe. split; [apply step_sn|]. intros c Hr. destruct (sim_reachable _ _ _ _ Hr) as (q & Hq & Hsim).
  assert (¬ crashed c) as Hnc.
  { intros Hc. destruct (sim_crashed _ _ Hsim Hc) as (t & o & k & Ht & Hno).
    destruct (Hsafe q Hq t o k Ht) as [v Hv]. by eapply Hno. }
  split; [done|]. by eapply sim_progress.
Qed.
End atomicity.
