(* ===== verification/BlockPoolThreads.v ===== *)
(** * The block pool under threads ([c/src/hf_block_pool.c])

    The methods of the pool once more, this time one access to the struct or
    to the bitmap per step, with the calls of [hf_mutex_lock] and
    [hf_mutex_unlock] where the code has them: a read-modify-write such as
    [a->stats.used += n] is a read and a write, and other threads may run in
    between.  Executed without interruption a method is the definition of
    [BlockPool] ([bp_run]); that the mutex makes every interleaving look like
    that is [Locks] applied to these programs.  The blocks themselves are
    plain memory the threads read and write without the mutex. *)

From S2P Require Import Prelude Memory Platform Allocator BlockPool Locks.

(** The methods of [BP_VT] that take the mutex, and what they answer. *)
Inductive bp_op : Type :=
| BAlloc (size alignment : Z)
| BFree (ptr : Z)
| BStats
| BWalk.

Inductive bp_val : Type :=
| VUnit
| VPtr (p : Z)
| VByte (v : Z)
| VStats (st : hf_stats)
| VBlocks (bs : list hf_block_info).

(** A thread's own accesses to the bytes of the arena. *)
Inductive byte_access : Type :=
| BRead (x : Z)
| BWrite (x v : Z).

Definition bp_access (o : byte_access) (m : mem) : mem * bp_val :=
  match o with
  | BRead x => (m, VByte (load8 m x))
  | BWrite x v => (store8 m x v, VUnit)
  end.

(** ** Single assignments *)

Definition bp_store (a : bp_alloc) (wi v : Z) : bp_alloc := bp_set_word a wi v (bp_hint a) (bp_stats a).
Definition bp_store_hint (hint : Z) (a : bp_alloc) : bp_alloc :=
  BpAlloc (bp_mem a) (bp_capacity a) (bp_block_size a) (bp_block_count a) hint (bp_bitmap a) (bp_words a) (bp_stats a).

(** One field of the counters. *)
Definition store_used (v : Z) (a : bp_alloc) : bp_alloc := bp_set_stats a (set_used v (bp_stats a)).
Definition store_peak (v : Z) (a : bp_alloc) : bp_alloc :=
  let s := bp_stats a in bp_set_stats a (Stats (capacity s) (used s) v (alloc_calls s) (free_calls s) (failed_allocs s)).
Definition store_alloc_calls (v : Z) (a : bp_alloc) : bp_alloc :=
  let s := bp_stats a in bp_set_stats a (Stats (capacity s) (used s) (peak_used s) v (free_calls s) (failed_allocs s)).
Definition store_free_calls (v : Z) (a : bp_alloc) : bp_alloc :=
  let s := bp_stats a in bp_set_stats a (Stats (capacity s) (used s) (peak_used s) (alloc_calls s) v (failed_allocs s)).
Definition store_failed (v : Z) (a : bp_alloc) : bp_alloc :=
  let s := bp_stats a in bp_set_stats a (Stats (capacity s) (used s) (peak_used s) (alloc_calls s) (free_calls s) v).

Abbreviation code := (prog bp_alloc bp_val).

(** ** The methods *)

(** [a->stats.failed_allocs++; hf_mutex_unlock(&a->mu); return NULL;] *)
Definition bp_fail_code : code :=
  get (λ a, failed_allocs (bp_stats a)) $ λ n,
  put (store_failed (n +% 1)) $
  Unlock (Ret (VPtr NULL)).

(** The block found: bit, hint, counters, unlock. *)
Definition bp_take_code (wi bit idx : Z) : code :=
  get (λ a, bp_word a wi) $ λ o, check o $ λ bits,
  put (λ a, bp_store a wi (Z.lor bits (Z.shiftl 1 bit))) $
  put (bp_store_hint wi) $
  get (λ a, used (bp_stats a)) $ λ u,
  get bp_block_size $ λ bs,
  put (store_used (u +% bs)) $
  get (λ a, used (bp_stats a)) $ λ u,
  get (λ a, peak_used (bp_stats a)) $ λ peak,
  let leave : code :=
    get bp_mem $ λ base,
    get bp_block_size $ λ bs,
    Unlock (Ret (VPtr (base + idx * bs))) in
  if u >? peak then get (λ a, used (bp_stats a)) $ λ u, put (store_peak u) leave else leave.

(** The scan; one round of fuel per word and one for the exit. *)
Fixpoint bp_scan_code (fuel : nat) (w : Z) : code :=
  match fuel with
  | O => Stop OutOfFuel
  | S fuel =>
      get bp_words $ λ words,
      if negb (w <? words) then bp_fail_code else
      get bp_hint $ λ hint,
      get bp_words $ λ words,
      let wi := (hint +% w) mod words in
      get (λ a, bp_word a wi) $ λ o, check o $ λ bits,
      if bits =? 2 ^ 64 - 1 then bp_scan_code fuel (w + 1) else
      let bit := lowest_zero bits in
      let idx := wi *% 64 +% bit in
      get bp_block_count $ λ count,
      if idx >=? count then bp_scan_code fuel (w + 1) else
      bp_take_code wi bit idx
  end.

Definition bp_allocate_code (size alignment : Z) : code :=
  Lock $
  get (λ a, alloc_calls (bp_stats a)) $ λ n,
  put (store_alloc_calls (n +% 1)) $
  get bp_block_size $ λ bs,
  if size >? bs then bp_fail_code else
  get bp_words $ λ words,
  bp_scan_code (S (Z.to_nat words)) 0.

Definition bp_deallocate_code (ndebug : bool) (ptr : Z) : code :=
  if ptr =? NULL then Ret VUnit else
  Lock $
  get (λ a, free_calls (bp_stats a)) $ λ n,
  put (store_free_calls (n +% 1)) $
  get bp_mem $ λ base,
  let off := wrap64 (ptr - base) in
  get bp_block_size $ λ bs,
  check (c_assert ndebug (off mod bs =? 0)) $ λ _,
  get bp_block_size $ λ bs,
  let idx := off / bs in
  get bp_block_count $ λ count,
  check (c_assert ndebug (idx <? count)) $ λ _,
  let mask := Z.shiftl 1 (idx mod 64) in
  let clear : code :=
    get (λ a, bp_word a (idx / 64)) $ λ o, check o $ λ bits,
    put (λ a, bp_store a (idx / 64) (Z.land bits (not64 mask))) $
    put (bp_store_hint (idx / 64)) $
    get (λ a, used (bp_stats a)) $ λ u,
    get bp_block_size $ λ bs,
    put (store_used (u -% bs)) $
    Unlock (Ret VUnit) in
  if ndebug then clear else
  get (λ a, bp_word a (idx / 64)) $ λ o, check o $ λ bits,
  check (c_assert false (negb (Z.land bits mask =? 0))) $ λ _, clear.

(** [*out = a->stats;] *)
Definition bp_get_stats_code : code :=
  Lock $
  get (λ a, capacity (bp_stats a)) $ λ c,
  get (λ a, used (bp_stats a)) $ λ u,
  get (λ a, peak_used (bp_stats a)) $ λ pk,
  get (λ a, alloc_calls (bp_stats a)) $ λ ac,
  get (λ a, free_calls (bp_stats a)) $ λ fc,
  get (λ a, failed_allocs (bp_stats a)) $ λ fa,
  Unlock (Ret (VStats (Stats c u pk ac fc fa))).

Definition bp_test_code (idx : Z) (k : bool → code) : code :=
  get (λ a, bp_word a (idx / 64)) $ λ o, check o $ λ bits,
  k (negb (Z.land bits (Z.shiftl 1 (idx mod 64)) =? 0)).

(** The loop of [bp_walk]; [acc] are the blocks its callback has been given,
    the last one first. *)
Fixpoint bp_walk_loop_code (fuel : nat) (i run_start : Z) (run_used : bool) (acc : list hf_block_info) : code :=
  match fuel with
  | O => Stop OutOfFuel
  | S fuel =>
      get bp_block_count $ λ count,
      if negb (i <=? count) then Unlock (Ret (VBlocks (reverse acc))) else
      let next (used : bool) : code :=
        if Bool.eqb used run_used then bp_walk_loop_code fuel (i + 1) run_start run_used acc else
        get bp_block_size $ λ bs,
        bp_walk_loop_code fuel (i + 1) i used
          (BlockInfo (run_start *% bs) ((i - run_start) *% bs) (negb run_used) :: acc) in
      get bp_block_count $ λ count,
      if i <? count then bp_test_code i next else next (negb run_used)
  end.

Definition bp_walk_code : code :=
  Lock $
  bp_test_code 0 $ λ run_used,
  get bp_block_count $ λ count,
  bp_walk_loop_code (S (Z.to_nat count)) 1 0 run_used [].

Definition bp_code (ndebug : bool) (o : bp_op) : code :=
  match o with
  | BAlloc size alignment => bp_allocate_code size alignment
  | BFree ptr => bp_deallocate_code ndebug ptr
  | BStats => bp_get_stats_code
  | BWalk => bp_walk_code
  end.

(** The same methods of [BlockPool]; they pass the arena through. *)
Definition bp_sem (ndebug : bool) (o : bp_op) (a : bp_alloc) : outcome (bp_alloc * bp_val) :=
  match o with
  | BAlloc size alignment => '(a, _, p) ← bp_allocate a ∅ size alignment; Ok (a, VPtr p)
  | BFree ptr => '(a, _) ← bp_deallocate ndebug a ∅ ptr; Ok (a, VUnit)
  | BStats => Ok (a, VStats (bp_get_stats a))
  | BWalk => bs ← bp_walk a ∅; Ok (a, VBlocks bs)
  end.

(** ** The code executed alone *)

Lemma run_fail a : run bp_fail_code a = Ok (bp_set_stats a (bump_failed (bp_stats a)), VPtr NULL).
Proof. done. Qed.

Lemma run_take wi bit idx a :
  run (bp_take_code wi bit idx) a =
    (bits ← bp_word a wi;
     Ok (bp_set_word a wi (Z.lor bits (Z.shiftl 1 bit)) wi (raise_peak (set_used (used (bp_stats a) +% bp_block_size a) (bp_stats a))),
         VPtr (bp_mem a + idx * bp_block_size a))).
Proof.
  unfold bp_take_code. rewrite run_get, run_check. destruct (bp_word a wi) as [bits| | |]; [|done..].
  cbn [mbind outcome_bind]. rewrite !run_put, !run_get, run_put, !run_get. cbn.
  unfold raise_peak. cbn. by destruct (_ >? _).
Qed.

Lemma run_scan a w n : Z.to_nat (bp_words a - w) = n →
  run (bp_scan_code (S n) w) a =
    (r ← bp_find a w n;
     match r with
     | Some (wi, bit) => run (bp_take_code wi bit (wi *% 64 +% bit)) a
     | None => run bp_fail_code a
     end).
Proof.
  revert w. induction n as [|n IH]; intros w Hn.
  - cbn [bp_scan_code bp_find mbind outcome_bind]. rewrite run_get. destruct (w <? _) eqn:E; zb; [lia|done].
  - remember (S n) as n' eqn:En. cbn [bp_scan_code]. subst n'. rewrite run_get. destruct (w <? _) eqn:E; zb; [|lia].
    cbn [negb bp_find]. rewrite !run_get, run_check.
    destruct (bp_word a _) as [bits| | |]; cbn [mbind outcome_bind]; [|done..].
    destruct (bits =? _); [apply IH; lia|]. rewrite run_get. destruct (_ >=? _); [apply IH; lia|done].
Qed.

Lemma run_allocate size al a : run (bp_allocate_code size al) a = ('(a, _, p) ← bp_allocate a ∅ size al; Ok (a, VPtr p)).
Proof.
  unfold bp_allocate_code, bp_allocate. cbn [run]. rewrite run_get, run_put, run_get.
  destruct (size >? bp_block_size a) eqn:E; cbn [bp_block_size store_alloc_calls bp_set_stats] in *; rewrite E; [done|].
  rewrite run_get, run_scan by (f_equal; lia). set (a1 := store_alloc_calls _ a).
  change (bp_words a1) with (bp_words a).
  assert (∀ w n, bp_find a1 w n = bp_find a w n) as Hf.
  { intros w n. revert w. induction n as [|n IH]; intros w; [done|]. cbn [bp_find].
    change (bp_word a1) with (bp_word a). destruct (bp_word a _); cbn [mbind outcome_bind]; [|done..].
    change (bp_block_count a1) with (bp_block_count a). by rewrite !IH. }
  rewrite Hf. destruct (bp_find a 0 _) as [[[wi bit]|]| | |]; cbn [mbind outcome_bind]; [|done..].
  rewrite run_take. change (bp_word a1) with (bp_word a). by destruct (bp_word a wi).
Qed.

Lemma run_deallocate nd ptr a : run (bp_deallocate_code nd ptr) a = ('(a, _) ← bp_deallocate nd a ∅ ptr; Ok (a, VUnit)).
Proof.
  unfold bp_deallocate_code, bp_deallocate. destruct (ptr =? NULL); [done|]. cbn [run].
  rewrite run_get, run_put, !run_get, run_check. cbn [store_free_calls bp_set_stats bp_mem bp_block_size].
  destruct (c_assert nd (_ mod _ =? 0)); cbn [mbind outcome_bind]; [|done..].
  rewrite !run_get, run_check. cbn [store_free_calls bp_set_stats bp_block_count bp_block_size].
  destruct (c_assert nd (_ <? _)); cbn [mbind outcome_bind]; [|done..].
  destruct nd.
  - rewrite run_get, run_check. unfold bp_word. cbn [bp_bitmap store_free_calls bp_set_stats].
    destruct (bp_bitmap a !! _); [|done]. done.
  - rewrite run_get, run_check. unfold bp_word. cbn [bp_bitmap store_free_calls bp_set_stats].
    destruct (bp_bitmap a !! _) as [bits|] eqn:Eb; [|done]. cbn [mbind outcome_bind]. rewrite run_check.
    destruct (c_assert false _); cbn [mbind outcome_bind]; [|done..]. rewrite run_get, run_check.
    cbn [bp_bitmap store_free_calls bp_set_stats]. rewrite Eb. done.
Qed.

Lemma run_test idx k a : run (bp_test_code idx k) a = (b ← bp_test a idx; run (k b) a).
Proof. unfold bp_test_code, bp_test. rewrite run_get, run_check. by destruct (bp_word a _). Qed.

Lemma run_walk_loop a n i start u acc : Z.to_nat (bp_block_count a - i + 1) = n →
  run (bp_walk_loop_code (S n) i start u acc) a =
    (bs ← bp_walk_loop a i start u n; Ok (a, VBlocks (reverse acc ++ bs))).
Proof.
  revert i start u acc. induction n as [|n IH]; intros i start u acc Hn.
  - cbn [bp_walk_loop_code bp_walk_loop mbind outcome_bind]. rewrite run_get. destruct (i <=? _) eqn:E; zb; [lia|].
    by rewrite app_nil_r.
  - remember (S n) as n' eqn:En. cbn [bp_walk_loop_code]. subst n'. rewrite run_get.
    destruct (i <=? _) eqn:E; zb; [|lia]. cbn [negb bp_walk_loop]. rewrite run_get.
    assert (∀ used : bool,
      run (if Bool.eqb used u then bp_walk_loop_code (S n) (i + 1) start u acc
           else get bp_block_size $ λ bs, bp_walk_loop_code (S n) (i + 1) i used
                  (BlockInfo (start *% bs) ((i - start) *% bs) (negb u) :: acc)) a =
      (bs ← (if Bool.eqb used u then bp_walk_loop a (i + 1) start u n
             else bs ← bp_walk_loop a (i + 1) i used n;
                  Ok (BlockInfo (start *% bp_block_size a) ((i - start) *% bp_block_size a) (negb u) :: bs));
       Ok (a, VBlocks (reverse acc ++ bs)))) as Hnext.
    { intros used. destruct (Bool.eqb used u); [apply IH; lia|]. rewrite run_get, IH by lia.
      destruct (bp_walk_loop a _ _ _ n) as [bs| | |]; cbn [mbind outcome_bind]; [|done..].
      by rewrite reverse_cons, <- (assoc_L (++)). }
    destruct (i <? _); [|apply Hnext]. rewrite run_test. destruct (bp_test a i) as [b| | |]; cbn [mbind outcome_bind]; [|done..].
    apply Hnext.
Qed.

(** Executed without interruption the code of a method is the method. *)
Lemma bp_run nd o a : run (bp_code nd o) a = bp_sem nd o a.
Proof.
  destruct o as [size al|ptr| |]; cbn [bp_code bp_sem].
  - apply run_allocate.
  - apply run_deallocate.
  - unfold bp_get_stats, bp_get_stats_code. cbn. by destruct (bp_stats a).
  - unfold bp_walk_code, bp_walk. cbn [run]. rewrite run_test.
    destruct (bp_test a 0) as [u| | |]; cbn [mbind outcome_bind]; [|done..].
    rewrite run_get, run_walk_loop by (f_equal; lia). done.
Qed.

(** ** The lock discipline *)

Lemma scan_body n w : section_body (bp_scan_code n w).
Proof.
  revert w. induction n as [|n IH]; intros w; cbn [bp_scan_code]; [auto with locks|].
  apply body_get. intros words. destruct (negb _); [eauto 10 with locks|].
  do 2 (apply body_get; intros ?). apply body_get; intros o. apply body_check. intros bits.
  destruct (_ =? _); [done|]. apply body_get. intros count. destruct (_ >=? _); [done|].
  unfold bp_take_code. apply body_get; intros o'. apply body_check; intros ?. do 2 apply body_put.
  do 2 (apply body_get; intros ?). apply body_put. do 2 (apply body_get; intros ?).
  destruct (_ >? _); eauto 10 with locks.
Qed.

Lemma walk_loop_body n i start u acc : section_body (bp_walk_loop_code n i start u acc).
Proof.
  revert i start u acc. induction n as [|n IH]; intros i start u acc; cbn [bp_walk_loop_code]; [auto with locks|].
  apply body_get. intros count. destruct (negb _); [auto with locks|]. apply body_get. intros count'.
  unfold bp_test_code. destruct (i <? _); [apply body_get; intros o; apply body_check; intros bits|];
    (destruct (Bool.eqb _ _); [done|]); auto with locks.
Qed.

(** Every method takes the mutex first and gives it back on each way out. *)
Lemma bp_locked nd o : locked (bp_code nd o).
Proof.
  destruct o as [size al|ptr| |]; cbn [bp_code].
  - constructor. apply body_get; intros n. apply body_put, body_get. intros bs.
    destruct (_ >? _); [eauto 10 with locks|]. apply body_get. intros words. apply scan_body.
  - unfold bp_deallocate_code. destruct (ptr =? NULL); constructor. apply body_get; intros n. apply body_put.
    do 2 (apply body_get; intros ?). apply body_check; intros _. do 2 (apply body_get; intros ?). apply body_check; intros _.
    destruct nd; eauto 20 with locks.
  - constructor. eauto 10 with locks.
  - constructor. apply body_get; intros o. apply body_check; intros bits. apply body_get; intros count. apply walk_loop_body.
Qed.

(** ** Threads that keep to the contract *)

Abbreviation bp_thread := (tprog bp_op byte_access bp_val).

(** What a thread knows: the blocks it owns with the sizes it asked for, and
    the bytes it has written to them. *)
Record view : Type := View { v_own : live_map; v_known : gmap Z Z }.

(** The view after the free of [p]. *)
Definition forget (w : view) (p n : Z) : view :=
  View (delete p (v_own w)) (filter (λ xv, ¬ (p ≤ xv.1 < p + n)) (v_known w)).

(** The contract, whatever the answers are: only owned blocks are freed, only
    bytes of owned blocks are read or written.  A thread may rely on a new
    block being none of its own and 16-aligned, and on reading what it wrote. *)
Fixpoint obeys (w : view) (c : bp_thread) : Prop :=
  match c with
  | Done => True
  | Call (BAlloc size al) k =>
      0 ≤ size ≤ 2 ^ 62 ∧ obeys w (k (VPtr NULL)) ∧
      ∀ p, 0 < p → (HF_DEFAULT_ALIGN | p) → v_own w !! p = None →
        obeys (View (<[p := size]> (v_own w)) (v_known w)) (k (VPtr p))
  | Call (BFree p) k =>
      match v_own w !! p with
      | Some n => obeys (forget w p n) (k VUnit)
      | None => p = NULL ∧ obeys w (k VUnit)
      end
  | Call BStats k => ∀ st, obeys w (k (VStats st))
  | Call BWalk k => ∀ bs, obeys w (k (VBlocks bs))
  | Access (BRead x) k =>
      in_live (v_own w) x ∧ ∀ v, (∀ v', v_known w !! x = Some v' → v = v') → obeys w (k (VByte v))
  | Access (BWrite x v) k =>
      in_live (v_own w) x ∧ obeys (View (v_own w) (<[x := wrap8 v]> (v_known w))) (k VUnit)
  end.

(** Different threads own different blocks. *)
Definition views_apart (ws : list view) : Prop :=
  ∀ t u w w', ws !! t = Some w → ws !! u = Some w' → t ≠ u → v_own w ##ₘ v_own w'.

(** What a view says of the memory. *)
Definition view_ok (m : mem) (w : view) : Prop :=
  ∀ x v, v_known w !! x = Some v → in_live (v_own w) x ∧ load8 m x = v.

(** The live blocks of the pool are the blocks the threads own. *)
Definition views_live (ws : list view) (L : live_map) : Prop :=
  ∀ p n, L !! p = Some n ↔ ∃ t w, ws !! t = Some w ∧ v_own w !! p = Some n.

Definition threads_inv (q : bp_alloc * mem * list bp_thread) (ws : list view) : Prop :=
  Forall2 obeys ws q.2 ∧ views_apart ws ∧ Forall (view_ok q.1.2) ws ∧
  ∃ L, bp_inv q.1.1 q.1.2 L ∧ views_live ws L.

(** ** Changing one view *)

Lemma views_live_lookup ws L t w p n : views_live ws L → ws !! t = Some w → v_own w !! p = Some n → L !! p = Some n.
Proof. intros HL Ht Hp. apply HL. by exists t, w. Qed.

Lemma views_live_insert ws L t w p n :
  views_live ws L → ws !! t = Some w → L !! p = None →
  views_live (<[t := View (<[p := n]> (v_own w)) (v_known w)]> ws) (<[p := n]> L).
Proof.
  intros HL Ht HN q k. assert (t < length ws)%nat as Hlt by (by eapply lookup_lt_Some).
  destruct (decide (q = p)) as [->|Hne].
  - rewrite lookup_insert_eq. split.
    + intros [= <-]. exists t, (View (<[p := n]> (v_own w)) (v_known w)). rewrite list_lookup_insert_eq by done. cbn. by rewrite lookup_insert_eq.
    + intros (u & w' & Hu & Hp). destruct (decide (u = t)) as [->|].
      * rewrite list_lookup_insert_eq in Hu by done. injection Hu as <-. cbn in Hp. by rewrite lookup_insert_eq in Hp.
      * rewrite list_lookup_insert_ne in Hu by done. by rewrite (views_live_lookup _ _ _ _ _ _ HL Hu Hp) in HN.
  - rewrite lookup_insert_ne, (HL q k) by done. split; intros (u & w' & Hu & Hp); (destruct (decide (u = t)) as [->|]; [|exists u, w'; by rewrite list_lookup_insert_ne in *]).
    + rewrite Ht in Hu. injection Hu as <-. exists t. eexists. rewrite list_lookup_insert_eq by done. split; [done|]. cbn. by rewrite lookup_insert_ne.
    + rewrite list_lookup_insert_eq in Hu by done. injection Hu as <-. cbn in Hp. rewrite lookup_insert_ne in Hp by done. by exists t, w.
Qed.

Lemma views_live_delete ws L t w p n :
  views_live ws L → views_apart ws → ws !! t = Some w → v_own w !! p = Some n →
  views_live (<[t := forget w p n]> ws) (delete p L).
Proof.
  intros HL Hap Ht Hp q k. assert (t < length ws)%nat as Hlt by (by eapply lookup_lt_Some).
  rewrite lookup_delete_Some, (HL q k). split.
  - intros (Hne & u & w' & Hu & Hq). destruct (decide (u = t)) as [->|]; [|exists u, w'; by rewrite list_lookup_insert_ne].
    rewrite Ht in Hu. injection Hu as <-. exists t. eexists. rewrite list_lookup_insert_eq by done. split; [done|]. cbn.
    by rewrite lookup_delete_ne.
  - intros (u & w' & Hu & Hq). destruct (decide (u = t)) as [->|Hut].
    + rewrite list_lookup_insert_eq in Hu by done. injection Hu as <-. cbn in Hq. apply lookup_delete_Some in Hq as [Hne Hq].
      split; [done|]. by exists t, w.
    + rewrite list_lookup_insert_ne in Hu by done. split; [|by exists u, w'].
      intros <-. pose proof (Hap t u w w' Ht Hu (not_eq_sym Hut)) as Hd. exact (proj1 (map_disjoint_spec _ _) Hd p n k Hp Hq).
Qed.

Lemma views_live_known ws L t w kn :
  views_live ws L → ws !! t = Some w → views_live (<[t := View (v_own w) kn]> ws) L.
Proof.
  intros HL Ht q k. assert (t < length ws)%nat as Hlt by (by eapply lookup_lt_Some).
  rewrite (HL q k). split; intros (u & w' & Hu & Hp); (destruct (decide (u = t)) as [->|]; [|exists u, w'; by rewrite list_lookup_insert_ne in *]).
  - rewrite Ht in Hu. injection Hu as <-. exists t. eexists. by rewrite list_lookup_insert_eq.
  - rewrite list_lookup_insert_eq in Hu by done. injection Hu as <-. by exists t, w.
Qed.

Lemma views_apart_update ws t w :
  views_apart ws → (∀ u w', u ≠ t → ws !! u = Some w' → v_own w ##ₘ v_own w') →
  views_apart (<[t := w]> ws).
Proof.
  intros Hap Hw u1 u2 w1 w2 H1 H2 Hne.
  apply list_lookup_insert_Some in H1 as [(-> & <- & _)|[? H1]], H2 as [(-> & <- & _)|[? H2]]; [done|..].
  - by apply (Hw u2).
  - apply map_disjoint_sym. by apply (Hw u1).
  - by apply (Hap u1 u2).
Qed.

(** A byte of another thread's block is in no block of this one. *)
Lemma views_bytes_apart a m ws L t u w w' x :
  bp_inv a m L → views_live ws L → views_apart ws → ws !! t = Some w → ws !! u = Some w' → t ≠ u →
  in_live (v_own w) x → ¬ in_live (v_own w') x.
Proof.
  intros Hinv HL Hap Ht Hu Hne (p & n & Hp & Hx) (q & k & Hq & Hx').
  pose proof (views_live_lookup _ _ _ _ _ _ HL Ht Hp) as HLp. pose proof (views_live_lookup _ _ _ _ _ _ HL Hu Hq) as HLq.
  destruct (decide (p = q)) as [->|Hpq].
  - pose proof (Hap t u w w' Ht Hu Hne) as Hd. exact (proj1 (map_disjoint_spec _ _) Hd q n k Hp Hq).
  - by eapply (bp_inv_apart a m L p n q k).
Qed.

(** ** The reference keeps the contract *)

Lemma bp_sem_alloc nd a m L size al :
  bp_inv a m L → 0 ≤ size ≤ 2 ^ 62 →
  ∃ a' p, bp_sem nd (BAlloc size al) a = Ok (a', VPtr p) ∧
    ((p = NULL ∧ bp_inv a' m L) ∨ (0 < p ∧ (HF_DEFAULT_ALIGN | p) ∧ L !! p = None ∧ bp_inv a' m (<[p := size]> L))).
Proof.
  intros Hinv Hs. assert (bp_inv a ∅ L) as Hinv0 by done. cbn [bp_sem].
  destruct (spec_allocate (AllocatorSpec := bp_spec nd) a ∅ L size Hinv0 Hs) as (a' & m' & p & Hr & _ & Hc).
  unfold hf_allocate, vt_allocate, BP_VT in Hr. change (bp_allocate a ∅ size al) with (bp_allocate a ∅ size HF_DEFAULT_ALIGN).
  rewrite Hr. cbn [mbind outcome_bind]. exists a', p. split; [done|].
  destruct Hc as [[-> Hi]|(Hp & HN & _ & Hi)]; [by left|right].
  pose proof (spec_live_range (AllocatorSpec := bp_spec nd) a' m' (<[p := size]> L) p size Hi (lookup_insert_eq _ _ _)) as (? & _ & _ & ?).
  done.
Qed.

Lemma bp_sem_free nd a m L p n :
  bp_inv a m L → L !! p = Some n → ∃ a', bp_sem nd (BFree p) a = Ok (a', VUnit) ∧ bp_inv a' m (delete p L).
Proof.
  intros Hinv Hp. assert (bp_inv a ∅ L) as Hinv0 by done. cbn [bp_sem].
  destruct (spec_deallocate (AllocatorSpec := bp_spec nd) a ∅ L p n Hinv0 Hp) as (a' & m' & Hr & _ & Hi).
  unfold hf_deallocate, vt_deallocate, BP_VT in Hr. rewrite Hr. by exists a'.
Qed.

Lemma bp_sem_walk nd a m L : bp_inv a m L → ∃ bs, bp_sem nd BWalk a = Ok (a, VBlocks bs).
Proof.
  intros [Hwf _]. cbn [bp_sem]. pose proof (bp_wf_count _ Hwf). unfold bp_walk. rewrite bp_test_ok by (done || lia).
  cbn [mbind outcome_bind]. replace (Z.to_nat (bp_block_count a)) with (S (Z.to_nat (bp_block_count a - 1))) by lia.
  destruct (bp_walk_loop_spec a 1 0 (bp_bit a 0) (Z.to_nat (bp_block_count a - 1)) Hwf) as (bs & -> & _); [lia|lia| |by exists bs].
  intros j Hj. by replace j with 0 by lia.
Qed.

(** A call a thread may make succeeds. *)
Lemma call_ok nd q ws t o k : threads_inv q ws → q.2 !! t = Some (Call o k) → ∃ v, bp_sem nd o q.1.1 = Ok v.
Proof.
  destruct q as [[a m] cs]. cbn [fst snd]. intros (Hob & Hap & Hok & L & Hinv & HL) Ht. cbn [fst snd] in *.
  destruct (Forall2_lookup_r _ _ _ _ _ Hob Ht) as (w & Hw & Ho). destruct o as [size al|p| |]; cbn [obeys] in Ho.
  - destruct (bp_sem_alloc nd a m L size al Hinv) as (a' & p & Hr & _); [tauto|]. by eexists.
  - destruct (v_own w !! p) as [n|] eqn:Ep; [|destruct Ho as [-> _]; by eexists].
    destruct (bp_sem_free nd a m L p n Hinv) as (a' & Hr & _); [by eapply views_live_lookup|]. by eexists.
  - by eexists.
  - destruct (bp_sem_walk nd a m L Hinv) as (bs & Hr). by eexists.
Qed.

(** The views of the other threads survive a change of memory inside the
    blocks of one. *)
Lemma views_ok_write a m ws L t w x v :
  bp_inv a m L → views_live ws L → views_apart ws → Forall (view_ok m) ws → ws !! t = Some w →
  in_live (v_own w) x →
  Forall (view_ok (store8 m x v)) (<[t := View (v_own w) (<[x := wrap8 v]> (v_known w))]> ws).
Proof.
  intros Hinv HL Hap Hok Ht Hx. apply Forall_lookup_2. intros u w' Hu y b Hy. rewrite load8_store8.
  apply list_lookup_insert_Some in Hu as [(-> & <- & _)|[Hne Hu]]; cbn [v_own v_known] in *.
  - destruct (decide (y = x)) as [->|]; [rewrite lookup_insert_eq in Hy; by simplify_eq|].
    rewrite lookup_insert_ne in Hy by done. eapply Forall_lookup_1 in Hok; [|done]. by apply Hok.
  - eapply Forall_lookup_1 in Hok; [|done]. destruct (Hok y b Hy) as [Hl Hb]. split; [done|].
    rewrite decide_False; [done|]. intros ->. by eapply (views_bytes_apart a m ws L t u w w' x).
Qed.

Lemma view_ok_forget m w p n : view_ok m w → v_own w !! p = Some n → view_ok m (forget w p n).
Proof.
  intros Hok Hp x v Hx. cbn in *. apply map_lookup_filter_Some in Hx as [Hx Hout]. cbn in Hout.
  destruct (Hok x v Hx) as [(q & k & Hq & Hr) Hv]. split; [|done]. exists q, k. split; [|done].
  apply lookup_delete_Some. split; [|done]. intros <-. simplify_eq. rlia.
Qed.

(** ** The invariant after a step of thread [t] *)

Section step.
Context (a' : bp_alloc) (m : mem) (cs : list bp_thread) (ws : list view) (L : live_map) (t : nat) (w : view) (c : bp_thread).
Context (Hob : Forall2 obeys ws cs) (Hap : views_apart ws) (Hok : Forall (view_ok m) ws) (HL : views_live ws L) (Hw : ws !! t = Some w).

Lemma view_ok_at : view_ok m w.
Proof. by eapply Forall_lookup_1 in Hok. Qed.

Lemma other_apart u w' : u ≠ t → ws !! u = Some w' → v_own w ##ₘ v_own w'.
Proof. intros Hne Hu. apply (Hap t u); auto. Qed.

(** nothing changes hands *)
Lemma threads_inv_keep : bp_inv a' m L → obeys w c → threads_inv (a', m, <[t := c]> cs) ws.
Proof.
  intros Hi Hc. split_and!; [|done|done|by exists L]. cbn. rewrite <- (list_insert_id ws t w) by done. by apply Forall2_insert.
Qed.

(** a new block *)
Lemma threads_inv_new p n : L !! p = None → bp_inv a' m (<[p := n]> L) →
  obeys (View (<[p := n]> (v_own w)) (v_known w)) c →
  threads_inv (a', m, <[t := c]> cs) (<[t := View (<[p := n]> (v_own w)) (v_known w)]> ws).
Proof.
  intros HN Hi Hc.
  assert (∀ u w', ws !! u = Some w' → v_own w' !! p = None) as HNv.
  { intros u w' Hu. destruct (v_own w' !! p) eqn:E; [|done]. by rewrite (views_live_lookup _ _ _ _ _ _ HL Hu E) in HN. }
  split_and!; cbn [fst snd].
  - by apply Forall2_insert.
  - apply views_apart_update; [done|]. intros u w' Hu Hlu. cbn. apply map_disjoint_insert_l. split; [by eapply HNv|by eapply other_apart].
  - apply Forall_insert; [done|]. intros x v Hx. cbn in *. destruct (view_ok_at x v Hx) as [Hl Hv].
    split; [|done]. apply in_live_insert; [by eapply HNv|]. by right.
  - exists (<[p := n]> L). split; [done|]. by apply views_live_insert.
Qed.

(** a block given back *)
Lemma threads_inv_freed p n : v_own w !! p = Some n → bp_inv a' m (delete p L) → obeys (forget w p n) c →
  threads_inv (a', m, <[t := c]> cs) (<[t := forget w p n]> ws).
Proof.
  intros Hp Hi Hc. split_and!; cbn [fst snd].
  - by apply Forall2_insert.
  - apply views_apart_update; [done|]. intros u w' Hu Hlu. cbn. apply map_disjoint_delete_l. by eapply other_apart.
  - apply Forall_insert; [done|]. apply view_ok_forget; [apply view_ok_at|done].
  - exists (delete p L). split; [done|]. by eapply views_live_delete.
Qed.

(** a byte written *)
Lemma threads_inv_written x v : bp_inv a' m L → in_live (v_own w) x →
  obeys (View (v_own w) (<[x := wrap8 v]> (v_known w))) c →
  threads_inv (a', store8 m x v, <[t := c]> cs) (<[t := View (v_own w) (<[x := wrap8 v]> (v_known w))]> ws).
Proof.
  intros Hi Hx Hc. split_and!; cbn [fst snd].
  - by apply Forall2_insert.
  - apply views_apart_update; [done|]. intros u w' Hu Hlu. cbn. by eapply other_apart.
  - by eapply views_ok_write.
  - exists L. split; [done|]. by apply views_live_known.
Qed.
End step.

(** A step of the reference keeps the threads' views true. *)
Lemma threads_inv_step nd q ws q' :
  threads_inv q ws → seq_step bp_access (bp_sem nd) q q' → ∃ ws', threads_inv q' ws'.
Proof.
  intros (Hob & Hap & Hok & L & Hinv & HL) Hs.
  destruct Hs as [t o k a a' r m cs Ht Hr|t o k a m cs Ht]; cbn [fst snd] in *;
    destruct (Forall2_lookup_r _ _ _ _ _ Hob Ht) as (w & Hw & Ho).
  - destruct o as [size al|p| |]; cbn [obeys] in Ho.
    + destruct Ho as (Hs & Hnull & Hnew).
      destruct (bp_sem_alloc nd a m L size al Hinv Hs) as (a2 & p & Hr2 & Hc). rewrite Hr in Hr2. injection Hr2 as -> ->.
      destruct Hc as [[-> Hi]|(Hp & Hal & HN & Hi)]; [exists ws; by eapply threads_inv_keep|].
      eexists. eapply (threads_inv_new _ _ _ _ L); try done. apply Hnew; [done..|].
      destruct (v_own w !! p) eqn:E; [|done]. by rewrite (views_live_lookup _ _ _ _ _ _ HL Hw E) in HN.
    + destruct (v_own w !! p) as [n|] eqn:Ep.
      * destruct (bp_sem_free nd a m L p n Hinv) as (a2 & Hr2 & Hi); [by eapply views_live_lookup|].
        rewrite Hr in Hr2. injection Hr2 as -> ->. eexists. by eapply (threads_inv_freed _ _ _ _ L).
      * destruct Ho as [-> Ho]. cbn in Hr. injection Hr as <- <-. exists ws. by eapply threads_inv_keep.
    + injection Hr as <- <-. exists ws. by eapply threads_inv_keep.
    + destruct (bp_sem_walk nd a m L Hinv) as (bs & Hr2). rewrite Hr in Hr2. injection Hr2 as -> ->.
      exists ws. by eapply threads_inv_keep.
  - destruct o as [x|x v]; cbn [obeys bp_access fst snd] in *; destruct Ho as [Hx Ho].
    + exists ws. eapply threads_inv_keep; try done. apply Ho. intros v' Hk. eapply Forall_lookup_1 in Hok; [|done]. by apply (Hok x v').
    + eexists. by eapply (threads_inv_written _ _ _ _ L).
Qed.

Lemma threads_inv_reachable nd q ws q' :
  threads_inv q ws → rtc (seq_step bp_access (bp_sem nd)) q q' → ∃ ws', threads_inv q' ws'.
Proof.
  intros Hi Hr. revert ws Hi. induction Hr as [q|q1 q2 q3 Hs _ IH]; intros ws Hi; [by exists ws|].
  destruct (threads_inv_step nd _ _ _ Hi Hs) as (ws2 & H2). by eapply IH.
Qed.

Lemma blank_lookup (cs : list bp_thread) t w : ((λ _, View ∅ ∅) <$> cs) !! t = Some w → w = View ∅ ∅.
Proof. rewrite list_lookup_fmap. by destruct (cs !! t); intros [= <-]. Qed.

(** Before any call no thread owns anything. *)
Lemma threads_inv_start a m cs :
  bp_inv a m ∅ → Forall (obeys (View ∅ ∅)) cs → threads_inv (a, m, cs) ((λ _, View ∅ ∅) <$> cs).
Proof.
  intros Hi Hc. split_and!; cbn [fst snd].
  - induction Hc; constructor; done.
  - intros t u w w' Ht Hu _. apply blank_lookup in Ht as ->. cbn. apply map_disjoint_empty_l.
  - apply Forall_lookup_2. intros t w Ht. apply blank_lookup in Ht as ->. intros x v. cbn. by rewrite lookup_empty.
  - exists ∅. split; [done|]. intros p n. rewrite lookup_empty. split; [done|]. intros (t & w & Ht & Hp).
    apply blank_lookup in Ht as ->. cbn in Hp. by rewrite lookup_empty in Hp.
Qed.

(** ** Examples *)

(** Allocates 60 bytes, writes 7 to the first, reads it back and frees the
    block only if it reads 7; otherwise it frees an address it does not own. *)
Definition ex_thread : bp_thread :=
  Call (BAlloc 60 16) $ λ r,
  match r with
  | VPtr p =>
      if p =? NULL then Done else
      Access (BWrite p 7) $ λ _,
      Access (BRead p) $ λ v,
      match v with VByte 7 => Call (BFree p) (λ _, Done) | _ => Call (BFree 3) (λ _, Done) end
  | _ => Done
  end.

Lemma ex_thread_obeys : obeys (View ∅ ∅) ex_thread.
Proof.
  cbn. split; [lia|]. split; [done|]. intros p Hp _ _. destruct (Z.eqb_spec p 0); [lia|]. cbn.
  assert (in_live (<[p := 60]> ∅) p) as Hl by (exists p, 60; rewrite lookup_insert_eq; split; [done|rlia]).
  split; [done|]. split; [done|]. intros v Hv. rewrite (Hv 7) by (by rewrite lookup_insert_eq). cbn. by rewrite lookup_insert_eq.
Qed.

(** The two threads start together; the first to take the mutex finishes its
    allocation, then the other one does. *)
Definition ex_schedule : list nat := [0; 1]%nat ++ replicate 24 0%nat ++ replicate 24 1%nat.

Definition ex_start (M : Type) `{!hf_mutex_ops M} : config M bp_alloc mem bp_op byte_access bp_val :=
  start ex_pool ∅ [ex_thread; ex_thread].

(** The two allocations were answered with different blocks. *)
Example ex_schedule_blocks :
  (λ c, (bp_bitmap (c_state c), (λ s, match s with Idle (Access (BWrite p _) _) => p | _ => NULL end) <$> c_threads c))
    <$> exec (bp_code false) bp_access (ex_start pthread_mutex) ex_schedule
  = Some ([3; 0], [2 ^ 20; 2 ^ 20 + 64]).
Proof. vm_compute. reflexivity. Qed.

Lemma ex_schedule_mutex :
  (λ c, pt_owner (c_mutex c)) <$> exec (bp_code false) bp_access (ex_start pthread_mutex) ex_schedule = Some None.
Proof. vm_compute. reflexivity. Qed.

(** The same code without its calls of the mutex. *)
Fixpoint no_mutex (p : code) : code :=
  match p with
  | Act f k => Act f (λ x, no_mutex (k x))
  | Lock p | Unlock p => no_mutex p
  | p => p
  end.

(** Without the mutex the alternating schedule hands one block to both. *)
Example no_mutex_race :
  (λ c, (bp_bitmap (c_state c), (λ s, match s with Idle (Access (BWrite p _) _) => p | _ => NULL end) <$> c_threads c))
    <$> exec (λ o, no_mutex (bp_code false o)) bp_access (ex_start pthread_mutex) (mjoin (replicate 23 [0; 1]%nat))
  = Some ([1; 0], [2 ^ 20; 2 ^ 20]).
Proof. vm_compute. reflexivity. Qed.

(** ** Claims *)

Section claims.
Context {M : Type} `{!hf_mutex_ops M} `{!MutexSpec M}.

(** A thread outside its critical section, and what the reference has left of
    it: the same, or a call not begun, or a call that only has to return. *)
Definition outside (nd : bool) (s : tstate bp_alloc bp_op byte_access bp_val) (c : bp_thread) : Prop :=
  match s with
  | Idle c' => c = c'
  | Running p k => (∃ o, p = bp_code nd o ∧ c = Call o k) ∨ (∃ r, p = Ret r ∧ c = k r)
  end.

(** C17. The mutex makes the methods of the block pool atomic.  Let any number
    of threads run [bp_allocate], [bp_deallocate], [bp_get_stats] and
    [bp_walk] in any interleaving of their single reads and writes, on either
    platform's mutex, and read and write bytes of the arena in between.  A
    thread inside a critical section holds the mutex, so at most one is there;
    and whenever the mutex is free, the pool, the memory and what every thread
    still has to do are as after some sequence of whole calls of the
    definitions of [BlockPool]. *)
Theorem bp_threads_atomic nd a m cs (c : config M bp_alloc mem bp_op byte_access bp_val) :
  rtc (step (bp_code nd) bp_access) (start a m cs) c →
  (∀ t p k, c_threads c !! t = Some (Running p k) → section_body p → mutex_held t (c_mutex c)) ∧
  (mutex_free (c_mutex c) →
   ∃ cs', rtc (seq_step bp_access (bp_sem nd)) (a, m, cs) (c_state c, c_data c, cs') ∧
          Forall2 (outside nd) (c_threads c) cs').
Proof.
  intros Hr. destruct (sim_reachable _ _ _ (bp_locked nd) (bp_run nd) _ _ _ _ Hr) as ([[x' d'] cs'] & Hq & Hd & Hts & Ho).
  cbn [fst snd] in *. subst d'. split.
  - intros t p k Ht Hb. destruct (threads_sim_reference _ _ _ _ _ _ _ _ _ Hts Ht) as (c' & Hc & Ha).
    inversion Ha as [|o k' E|o p' k' Hh|r k']; subst; [|done|by inversion Hb].
    pose proof (bp_locked nd o) as Hl. destruct Hl; by inversion Hb.
  - intros Hf. destruct Ho as [[_ <-]|(t & p & k & Hh & _)]; [|by destruct (mutex_free_not_held t _ Hf)].
    exists cs'. split; [done|]. apply Forall2_same_length_lookup_2; [apply Hts|]. intros t s c' Hs Hc.
    pose proof (proj2 Hts t s c' Hs Hc) as Ha. destruct Ha as [c'|o k|o p k Hh|r k]; cbn; eauto.
    by destruct (mutex_free_not_held t _ Hf).
Qed.

(** C18. No deadlock and no infinite run.  Threads that keep to the contract
    of the interface (requests of at most 2^62 bytes, accesses and frees of
    their own blocks only), on a pool created with [n] blocks of [bs] bytes,
    both positive with (bs + 15) * n at most 2^62: as long as a thread has something left to do some thread can move, none is ever at a failed
    assert or a faulting access, and every run is finite; so all the threads
    come to their end, whatever the schedule. *)
Theorem bp_threads_live nd ps mmap c1 c2 bs n a m cs :
  page_size_ok ps → mmap_ok ps mmap → bp_geometry bs n →
  hf_block_pool_create ps mmap c1 c2 bs n = Some a → Forall (obeys (View ∅ ∅)) cs →
  sn (step (M := M) (bp_code nd) bp_access) (start a m cs) ∧
  ∀ c : config M bp_alloc mem bp_op byte_access bp_val,
    rtc (step (bp_code nd) bp_access) (start a m cs) c →
    ¬ crashed c ∧ (finished c ∨ ∃ c', step (bp_code nd) bp_access c c').
Proof.
  intros Hps Hm Hg Hc Hcs. destruct (bp_create_inv ps mmap c1 c2 bs n a m Hps Hm Hg Hc) as [Hi _].
  apply (machine_live _ _ _ (bp_locked nd) (bp_run nd)). intros q Hq t o k Ht.
  destruct (threads_inv_reachable nd _ _ _ (threads_inv_start a m cs Hi Hcs) Hq) as (ws & Hws). by eapply call_ok.
Qed.

(** C16. Memory safety of the block pool under threads, for a pool of [n]
    blocks of [bs] bytes, both positive with (bs + 15) * n at most 2^62.  At
    every moment of every interleaving of threads that keep to the contract
    (requests of at most 2^62 bytes, accesses and frees of their own blocks
    only) there is, for each
    thread, a set of blocks it owns and of bytes it knows, such that the
    thread (when it is between calls) acts within them; blocks are 16-aligned,
    blocks of different threads share no byte, and every byte a thread has
    written to a block it owns still has that value, although nothing but the
    allocator's own state is under the mutex. *)
Theorem bp_threads_safe nd ps mmap c1 c2 bs n a m cs (c : config M bp_alloc mem bp_op byte_access bp_val) :
  page_size_ok ps → mmap_ok ps mmap → bp_geometry bs n →
  hf_block_pool_create ps mmap c1 c2 bs n = Some a → Forall (obeys (View ∅ ∅)) cs →
  rtc (step (bp_code nd) bp_access) (start a m cs) c →
  ∃ ws : list view, length ws = length (c_threads c) ∧
    (∀ t c' w, c_threads c !! t = Some (Idle c') → ws !! t = Some w → obeys w c') ∧
    (∀ t w p k, ws !! t = Some w → v_own w !! p = Some k → 0 < p ∧ p + k ≤ 2 ^ 64 ∧ (HF_DEFAULT_ALIGN | p)) ∧
    (∀ t u w w' x, ws !! t = Some w → ws !! u = Some w' → t ≠ u →
       in_live (v_own w) x → ¬ in_live (v_own w') x) ∧
    (∀ t w x v, ws !! t = Some w → v_known w !! x = Some v → in_live (v_own w) x ∧ load8 (c_data c) x = v).
Proof.
  intros Hps Hm Hg Hc Hcs Hr. destruct (bp_create_inv ps mmap c1 c2 bs n a m Hps Hm Hg Hc) as [Hi _].
  destruct (sim_reachable _ _ _ (bp_locked nd) (bp_run nd) _ _ _ _ Hr) as ([[x' d'] cs'] & Hq & Hd & Hts & _).
  destruct (threads_inv_reachable nd _ _ _ (threads_inv_start a m cs Hi Hcs) Hq) as (ws & Hob & Hap & Hok & L & Hinv & HL).
  cbn [fst snd] in *. subst d'. exists ws. split_and!.
  - rewrite (Forall2_length _ _ _ Hob). symmetry. apply Hts.
  - intros t c' w Ht Hw. destruct (threads_sim_reference _ _ _ _ _ _ _ _ _ Hts Ht) as (c2' & Hc2 & Ha). inversion Ha; subst.
    by eapply Forall2_lookup_lr.
  - intros t w p k Hw Hp. pose proof (views_live_lookup _ _ _ _ _ _ HL Hw Hp) as HLp.
    pose proof (spec_live_range (AllocatorSpec := bp_spec nd) _ _ _ p k Hinv HLp). tauto.
  - intros t u w w' x Ht Hu Hne. by eapply views_bytes_apart.
  - intros t w x v Hw Hx. eapply Forall_lookup_1 in Hok; [|done]. by apply Hok.
Qed.
End claims.

(** Witness of C17: two threads, one allocation each, on a POSIX mutex. *)
Lemma bp_threads_atomic_witness :
  ∃ c, exec (bp_code false) bp_access (ex_start pthread_mutex) ex_schedule = Some c ∧
  ∃ cs', rtc (seq_step bp_access (bp_sem false)) (ex_pool, ∅, [ex_thread; ex_thread]) (c_state c, c_data c, cs') ∧
         Forall2 (outside false) (c_threads c) cs'.
Proof.
  destruct (exec (bp_code false) bp_access (ex_start pthread_mutex) ex_schedule) as [c|] eqn:E; [|by pose proof ex_schedule_mutex as Hm; rewrite E in Hm].
  exists c. split; [done|].
  destruct (bp_threads_atomic false ex_pool ∅ [ex_thread; ex_thread] c (exec_sound _ _ _ _ _ E)) as [_ Hf].
  apply Hf. pose proof ex_schedule_mutex as Hm. rewrite E in Hm. by injection Hm.
Defined.

(** Witness of C18: the same two threads on a critical section. *)
Lemma bp_threads_live_witness :
  Forall (obeys (View ∅ ∅)) [ex_thread; ex_thread] ∧
  sn (step (M := CRITICAL_SECTION) (bp_code true) bp_access) (ex_start CRITICAL_SECTION).
Proof.
  assert (Forall (obeys (View ∅ ∅)) [ex_thread; ex_thread]) as Hob by (repeat constructor; apply ex_thread_obeys).
  split; [done|].
  apply (bp_threads_live (M := CRITICAL_SECTION) true 4096 ex_mmap true true 60 128 ex_pool ∅ [ex_thread; ex_thread]
    page_4096_ok ex_mmap_ok ex_pool_geometry ex_pool_created Hob).
Defined.

(** Witness of C16: after both have allocated. *)
Lemma bp_threads_safe_witness :
  ∃ c, exec (bp_code false) bp_access (ex_start pthread_mutex) ex_schedule = Some c ∧
  ∃ ws : list view, length ws = length (c_threads c) ∧
    (∀ t u w w' x, ws !! t = Some w → ws !! u = Some w' → t ≠ u → in_live (v_own w) x → ¬ in_live (v_own w') x).
Proof.
  destruct (exec (bp_code false) bp_access (ex_start pthread_mutex) ex_schedule) as [c|] eqn:E; [|by pose proof ex_schedule_mutex as Hm; rewrite E in Hm].
  exists c. split; [done|].
  destruct (bp_threads_safe false 4096 ex_mmap true true 60 128 ex_pool ∅ [ex_thread; ex_thread] c
    page_4096_ok ex_mmap_ok ex_pool_geometry ex_pool_created) as (ws & Hl & _ & _ & Hap & _).
  - repeat constructor; apply ex_thread_obeys.
  - by apply (exec_sound _ _ _ ex_schedule).
  - by exists ws.
Defined.
