(* ===== verification/Cpp.v ===== *)
(** * The C++ classes: methods, the allocator interface, the platform layer
    ([include/heapforge/allocator.h], [include/heapforge/platform.h])

    The repository holds two implementations of the allocators: the C++
    classes of [include/heapforge] and the C library.  A C++ method reads and
    writes the members of its object and the memory the object manages, so it
    is a computation in the monad [meth]; the statements of a method appear
    below in the order of the source.  [IAllocator] is the abstract base class;
    [IAllocator_vtable] lets everything said about C allocators speak about
    C++ ones.

    [Port] relates a class to the C allocator with the same algorithm: every
    method commutes with the map between their states.  From it follow that no
    sequence of calls, wild pointers and failed requests included, tells the
    two apart ([port_observe]), and that what the C allocator promises its
    clients the class promises too ([port_spec]). *)

From S2P Require Import Prelude Memory Platform Allocator.

(** ** Methods *)

(** A method of a class whose members are [S]. *)
Definition meth (S A : Type) : Type := S → mem → outcome (A * S * mem).

#[global] Instance meth_ret S : MRet (meth S) := λ A x s m, Ok (x, s, m).
#[global] Instance meth_bind S : MBind (meth S) := λ A B f c s m,
  match c s m with
  | Ok (x, s, m) => f x s m
  | Abort => Abort
  | Fault => Fault
  | OutOfFuel => OutOfFuel
  end.

(** Reading a member, assigning members, reading and writing a word or a byte
    of memory, [assert], and an access that can fault. *)
Definition gets {S A : Type} (f : S → A) : meth S A := λ s m, Ok (f s, s, m).
Definition modify {S : Type} (f : S → S) : meth S unit := λ s m, Ok ((), f s, m).
Definition load {S : Type} (a : Z) : meth S Z := λ s m, Ok (load64 m a, s, m).
Definition store {S : Type} (a v : Z) : meth S unit := λ s m, Ok ((), s, store64 m a v).
Definition lift {S A : Type} (o : outcome A) : meth S A :=
  λ s m, match o with Ok x => Ok (x, s, m) | Abort => Abort | Fault => Fault | OutOfFuel => OutOfFuel end.
Definition cassert {S : Type} (ndebug b : bool) : meth S unit := lift (c_assert ndebug b).

(** [if (b) c;] *)
Definition when {S : Type} (b : bool) (c : meth S unit) : meth S unit :=
  if b then c else mret ().

(** [if (p) c;] on a pointer. *)
Definition non_null {S : Type} (p : Z) (c : meth S unit) : meth S unit :=
  if p =? NULL then mret () else c.

(** A line of the log: [HF_BUG] or [HF_DBG] with its reason. *)
Inductive note : Type :=
| Bug (reason : string)
| Dbg (reason : string).

(** Runs the statements of a method up to the next branch. *)
Ltac run_meth :=
  cbv beta iota zeta delta [mbind meth_bind mret meth_ret gets modify load store lift cassert when
    non_null outcome_bind outcome_ret].

(** ** [allocator.h] *)

(** [alignof(std::max_align_t)] of the System V ABI. *)
Definition kDefaultAlignment : Z := 16.

Definition is_pow2 (n : Z) : bool := negb (n =? 0) && (Z.land n (n -% 1) =? 0).

Definition next_pow2 (n : Z) : Z :=
  if n <=? 1 then 1 else
  let smear (n k : Z) := Z.lor n (Z.shiftr n k) in
  foldl smear (n -% 1) [1; 2; 4; 8; 16; 32] +% 1.

(** [while (n >>= 1) ++r;]; the loop ends because [n] loses a bit a round. *)
Fixpoint log2_floor_from (rounds : nat) (n r : Z) : outcome Z :=
  match rounds with
  | O => OutOfFuel
  | S rounds =>
      let n := Z.shiftr n 1 in
      if negb (n =? 0) then log2_floor_from rounds n (r + 1) else Ok r
  end.

Definition log2_floor (n : Z) : outcome Z := log2_floor_from 65 n 0.

(** [AllocStats] and [BlockInfo] have the members of the C structs, in the
    same order. *)
Abbreviation AllocStats := hf_stats.
Abbreviation cpp_BlockInfo := hf_block_info.

(** The virtual methods of [IAllocator]; [dtor] is what the destructor
    releases, and [walk] yields the blocks in the order of its callbacks. *)
Class IAllocator (S : Type) : Type := {
  ia_allocate : Z → Z → meth S Z;
  ia_deallocate : Z → meth S unit;
  ia_name : S → string;
  ia_stats : S → AllocStats;
  ia_walk : S → mem → outcome (list cpp_BlockInfo);
  ia_released : Type;
  ia_dtor : S → ia_released
}.

(** A C++ allocator behind the interface of the C code. *)
#[global] Instance IAllocator_vtable {S : Type} `{!IAllocator S} : hf_allocator_vtable S := {
  vt_allocate := λ s m size al, '(p, s, m) ← ia_allocate size al s m; Ok (s, m, p);
  vt_deallocate := λ s m p, '(_, s, m) ← ia_deallocate p s m; Ok (s, m);
  vt_name := ia_name;
  vt_get_stats := ia_stats;
  vt_walk := ia_walk;
  vt_destroyed := ia_released;
  vt_destroy := λ s m, Ok (ia_dtor s)
}.

(** ** [platform.h] *)

Definition align_up (n align : Z) : Z := Z.land (n +% align -% 1) (not64 (align -% 1)).

(** [page_size]: the function-local static is initialised on the first call. *)
Definition page_size (sysconf : Z) (ps : option Z) : Z * option Z :=
  let v := match ps with Some v => v | None => wrap64 sysconf end in (v, Some v).

(** [Protection]. *)
Inductive Protection : Type :=
| PNone
| PReadOnly
| PReadWrite.

#[global] Instance Protection_eq_dec : EqDecision Protection.
Proof. solve_decision. Defined.

(** [VM], over the system calls: [None] is [MAP_FAILED], and a call that
    returns 0 is [true].  [PROT_READ] is 1, [PROT_WRITE] 2. *)
Definition vm_reserve (ps : Z) (mmap : Z → option Z) (size : Z) : Z :=
  match mmap (align_up size ps) with Some p => p | None => NULL end.

Definition vm_release (ps : Z) (munmap : Z → Z → bool) (ptr size : Z) : bool :=
  if ptr =? NULL then true else munmap ptr (align_up size ps).

Definition vm_flags (prot : Protection) : Z :=
  match prot with PNone => 0 | PReadOnly => 1 | PReadWrite => Z.lor 1 2 end.

Definition vm_protect (ps : Z) (mprotect : Z → Z → Z → bool) (ptr size : Z) (prot : Protection) : bool :=
  mprotect ptr (align_up size ps) (vm_flags prot).

(** [for (off = 0; off < size; off += ps) p[off] = p[off];]: a round per page
    and one for the exit; touching a page that is not mapped faults. *)
Fixpoint vm_touch (rounds : nat) (mapped : Z → bool) (ps : Z) (m : mem) (p off size : Z) : outcome mem :=
  match rounds with
  | O => OutOfFuel
  | S rounds =>
      if off <? size then
        if mapped (p +% off)
        then vm_touch rounds mapped ps (store8 m (p +% off) (load8 m (p +% off))) p (off +% ps) size
        else Fault
      else Ok m
  end.

Definition vm_prefault (mapped : Z → bool) (ps : Z) (m : mem) (ptr size : Z) : outcome mem :=
  vm_touch (S (S (Z.to_nat (size / ps)))) mapped ps m ptr 0 size.

Definition vm_lock (ps : Z) (mlock : Z → Z → bool) (ptr size : Z) : bool :=
  mlock ptr (align_up size ps).

Definition vm_unlock (ps : Z) (munlock : Z → Z → bool) (ptr size : Z) : bool :=
  munlock ptr (align_up size ps).

(** ** The arithmetic is that of the C library *)

Lemma align_up_eq : align_up = hf_align_up.
Proof. reflexivity. Qed.

Lemma vm_reserve_eq : vm_reserve = hf_vm_reserve.
Proof. reflexivity. Qed.

Lemma next_pow2_eq : next_pow2 = hf_next_pow2.
Proof. reflexivity. Qed.

(** The loop returns, with the position of the highest bit. *)
Lemma log2_floor_from_c rounds n r : 0 ≤ n < 2 ^ Z.of_nat rounds →
  log2_floor_from (S rounds) n r = Ok (hf_log2_floor_loop rounds n r).
Proof.
  revert n r. induction rounds as [|rounds IH]; intros n r Hn.
  { assert (n = 0) as -> by (simpl in Hn; lia). done. }
  rewrite Nat2Z.inj_succ, Z.pow_succ_r in Hn by lia.
  assert (0 ≤ Z.shiftr n 1 < 2 ^ Z.of_nat rounds) as Hs.
  { rewrite Z.shiftr_div_pow2, Z.pow_1_r by lia. split; [apply Z.div_pos; lia|].
    apply Z.div_lt_upper_bound; lia. }
  cbn [hf_log2_floor_loop]. set (k := S rounds). cbn [log2_floor_from].
  destruct (Z.shiftr n 1 =? 0); cbn [negb]; [done|]. by apply IH.
Qed.

Lemma log2_floor_c n : is_u64 n → log2_floor n = Ok (hf_log2_floor n).
Proof. intros. by apply (log2_floor_from_c 64). Qed.

(** ** Classes that port a C allocator *)

(** What a caller can do to an allocator, pokes into memory included, and what
    it gets back. *)
Inductive call : Type :=
| Allocate (size alignment : Z)
| Deallocate (ptr : Z)
| Name
| GetStats
| Walk
| Poke (x v : Z).

Inductive answer : Type :=
| APtr (p : Z)
| ADone
| AName (s : string)
| AStats (st : hf_stats)
| ALayout (bs : list hf_block_info).

Definition do_call {S : Type} `{!hf_allocator_vtable S} (s : S) (m : mem) (c : call) : outcome (answer * S * mem) :=
  match c with
  | Allocate size al => '(s, m, p) ← hf_allocate_aligned s m size al; Ok (APtr p, s, m)
  | Deallocate p => '(s, m) ← hf_deallocate s m p; Ok (ADone, s, m)
  | Name => Ok (AName (hf_name s), s, m)
  | GetStats => Ok (AStats (hf_get_stats s), s, m)
  | Walk => bs ← hf_walk s m; Ok (ALayout bs, s, m)
  | Poke x v => Ok (ADone, s, store8 m x v)
  end.

(** The answers to a sequence of calls, each made by a thread, and how it
    ends: what the callers have seen when the process dies, and the memory it
    is left with otherwise.  A call runs under the allocator's lock; [V t] is
    the allocator as thread [t] sees it. *)
Fixpoint observe {S : Type} (V : nat → hf_allocator_vtable S) (s : S) (m : mem) (cs : list (nat * call)) : list answer * outcome mem :=
  match cs with
  | [] => ([], Ok m)
  | (t, c) :: cs =>
      match @do_call S (V t) s m c with
      | Ok (a, s, m) => let '(l, e) := observe V s m cs in (a :: l, e)
      | Abort => ([], Abort)
      | Fault => ([], Fault)
      | OutOfFuel => ([], OutOfFuel)
      end
  end.

(** Two outcomes of the same kind, related where they are values. *)
Definition same_outcome {A B : Type} (R : A → B → Prop) (o : outcome A) (o' : outcome B) : Prop :=
  match o, o' with
  | Ok a, Ok b => R a b
  | Abort, Abort | Fault, Fault | OutOfFuel, OutOfFuel => True
  | _, _ => False
  end.

Lemma same_outcome_bind {A B A' B'} (R : A → B → Prop) (R' : A' → B' → Prop) o o' f f' :
  same_outcome R o o' → (∀ a b, R a b → same_outcome R' (f a) (f' b)) →
  same_outcome R' (o ≫= f) (o' ≫= f').
Proof. destruct o, o'; simpl; try done. intros H Hf. by apply Hf. Qed.

(** Results related by [R] on the states: same value, same memory. *)
Definition same_result {S C A : Type} (R : S → C → Prop) (r : A * S * mem) (r' : C * mem * A) : Prop :=
  r.1.1 = r'.2 ∧ R r.1.2 r'.1.1 ∧ r.2 = r'.1.2.

Definition same_state {S C : Type} (R : S → C → Prop) (r : unit * S * mem) (r' : C * mem) : Prop :=
  R r.1.2 r'.1 ∧ r.2 = r'.2.

(** [S] does what [C] does, operation by operation, on states related by [R]. *)
Class Port (C S : Type) `{!hf_allocator_vtable C} `{!IAllocator S} (R : S → C → Prop) : Prop := {
  port_allocate s c m size al : R s c →
    same_outcome (same_result R) (ia_allocate size al s m) (vt_allocate c m size al);
  port_deallocate s c m p : R s c →
    same_outcome (same_state R) (ia_deallocate p s m) (vt_deallocate c m p);
  port_name s c : R s c → ia_name s = vt_name c;
  port_stats s c : R s c → ia_stats s = vt_get_stats c;
  port_walk s c m : R s c → ia_walk s m = vt_walk c m
}.

(** The case of a function from the states of the class to those of C. *)
Lemma port_fun {C S : Type} `{!hf_allocator_vtable C} `{!IAllocator S} (to_c : S → C) :
  (∀ s m size al, ('(x, s, m) ← ia_allocate size al s m; Ok (to_c s, m, x)) = vt_allocate (to_c s) m size al) →
  (∀ s m p, ('(_, s, m) ← ia_deallocate p s m; Ok (to_c s, m)) = vt_deallocate (to_c s) m p) →
  (∀ s, ia_name s = vt_name (to_c s)) → (∀ s, ia_stats s = vt_get_stats (to_c s)) →
  (∀ s m, ia_walk s m = vt_walk (to_c s) m) →
  Port C S (λ s c, to_c s = c).
Proof.
  intros Ha Hd Hn Hs Hw. split.
  - intros s ? m size al <-. rewrite <- Ha. by destruct (ia_allocate size al s m) as [[[? ?] ?]| | |].
  - intros s ? m p <-. rewrite <- Hd. by destruct (ia_deallocate p s m) as [[[? ?] ?]| | |].
  - by intros s ? <-.
  - by intros s ? <-.
  - by intros s ? m <-.
Qed.

(** The case of a function the other way, onto the objects. *)
Lemma port_onto {C S : Type} `{!hf_allocator_vtable C} `{!IAllocator S} (of_c : C → S) (to_c : S → C) :
  (∀ c, to_c (of_c c) = c) → (∀ s, of_c (to_c s) = s) →
  (∀ c m size al, ia_allocate size al (of_c c) m = '(c, m, x) ← vt_allocate c m size al; Ok (x, of_c c, m)) →
  (∀ c m p, ia_deallocate p (of_c c) m = '(c, m) ← vt_deallocate c m p; Ok ((), of_c c, m)) →
  (∀ c, ia_name (of_c c) = vt_name c) → (∀ c, ia_stats (of_c c) = vt_get_stats c) →
  (∀ c m, ia_walk (of_c c) m = vt_walk c m) →
  Port C S (λ s c, to_c s = c).
Proof.
  intros Hto Hof Ha Hd Hn Hs Hw. apply port_fun.
  - intros s m size al. rewrite <- (Hof s) at 1. rewrite Ha.
    destruct (vt_allocate _ _ _ _) as [[[c m'] x]| | |]; [|done..]. cbn [mbind outcome_bind]. by rewrite Hto.
  - intros s m p. rewrite <- (Hof s) at 1. rewrite Hd.
    destruct (vt_deallocate _ _ _) as [[c m']| | |]; [|done..]. cbn [mbind outcome_bind]. by rewrite Hto.
  - intros s. rewrite <- (Hof s) at 1. apply Hn.
  - intros s. rewrite <- (Hof s) at 1. apply Hs.
  - intros s m. rewrite <- (Hof s) at 1. apply Hw.
Qed.

Section port.
Context {C S : Type} `{!hf_allocator_vtable C} `{!IAllocator S} (R : S → C → Prop) `{!Port C S R}.

Lemma port_vt_allocate s c m size al : R s c →
  same_outcome (λ r r', R r.1.1 r'.1.1 ∧ r.1.2 = r'.1.2 ∧ r.2 = r'.2)
    (vt_allocate s m size al) (vt_allocate c m size al).
Proof.
  intros HR. pose proof (port_allocate s c m size al HR) as H. simpl.
  destruct (ia_allocate size al s m) as [[[x s'] m']| | |], (vt_allocate c m size al) as [[[c' m''] x']| | |];
    try done. by destruct H as (? & ? & ?).
Qed.

Lemma port_vt_deallocate s c m p : R s c →
  same_outcome (λ r r', R r.1 r'.1 ∧ r.2 = r'.2) (vt_deallocate s m p) (vt_deallocate c m p).
Proof.
  intros HR. pose proof (port_deallocate s c m p HR) as H. simpl.
  by destruct (ia_deallocate p s m) as [[[x s'] m']| | |], (vt_deallocate c m p) as [[c' m'']| | |].
Qed.

Lemma port_do_call s c m k : R s c →
  same_outcome (λ r r', r.1.1 = r'.1.1 ∧ R r.1.2 r'.1.2 ∧ r.2 = r'.2) (do_call s m k) (do_call c m k).
Proof.
  intros HR. destruct k; unfold do_call, hf_allocate_aligned, hf_deallocate, hf_name, hf_get_stats, hf_walk.
  - eapply same_outcome_bind; [by apply port_vt_allocate|].
    intros [[? ?] ?] [[? ?] ?] (? & ? & ?). simpl in *. by subst.
  - eapply same_outcome_bind; [by apply port_vt_deallocate|].
    intros [? ?] [? ?] (? & ?). simpl in *. by subst.
  - simpl. by rewrite (port_name s c).
  - simpl. by rewrite (port_stats s c).
  - simpl. rewrite (port_walk s c) by done. by destruct (vt_walk c m).
  - done.
Qed.

(** ** The contract carries over *)

#[export] Program Instance port_spec {al lim : Z} `{!AllocatorSpec al lim C} : AllocatorSpec al lim S := {
  alloc_inv := λ s m L, ∃ c, R s c ∧ alloc_inv c m L
}.
Next Obligation. intros al lim Hs s m L p n (c & _ & Hc) Hp. exact (spec_live_range _ _ _ p n Hc Hp). Qed.
Next Obligation. intros al lim Hs s m L p n q k (c & _ & Hc) Hp Hq. by apply (spec_live_apart _ _ _ p n q k Hc). Qed.
Next Obligation.
  intros al lim Hs s m L n (c & HR & Hc) Hn.
  destruct (spec_allocate _ _ _ n Hc Hn) as (c' & m' & p & E & Hag & Hcase).
  pose proof (port_vt_allocate s c m n HF_DEFAULT_ALIGN HR) as HH. unfold hf_allocate in *. rewrite E in HH.
  destruct (vt_allocate s m n _) as [[[s' m1] p']| | |]; try done.
  destruct HH as (HR' & Em & Ep). simpl in Em, Ep. subst. exists s', m', p. split_and!; [done..|].
  destruct Hcase as [(? & ?)|(? & ? & ? & ?)]; [left|right]; split_and!; try done; by exists c'.
Qed.
Next Obligation.
  intros al lim Hs s m L p n (c & HR & Hc) Hp.
  destruct (spec_deallocate _ _ _ p n Hc Hp) as (c' & m' & E & Hag & Hinv).
  pose proof (port_vt_deallocate s c m p HR) as HH. unfold hf_deallocate in *. rewrite E in HH.
  destruct (vt_deallocate s m p) as [[s' m1]| | |]; try done.
  destruct HH as (HR' & Em). simpl in Em. subst. exists s', m'. split_and!; [done..|]. by exists c'.
Qed.
Next Obligation.
  intros al lim Hs s m m' L (c & HR & Hc) Hag. exists c. split; [done|].
  exact (spec_client_write _ m m' L Hc Hag).
Qed.
End port.

(** No sequence of calls tells the class and the C allocator apart. *)
Lemma port_observe {C S : Type} (V : nat → hf_allocator_vtable C) (W : nat → IAllocator S) (R : S → C → Prop)
    (s : S) (c : C) m ks :
  (∀ t, @Port C S (V t) (W t) R) → R s c →
  observe (λ t, @IAllocator_vtable S (W t)) s m ks = observe V c m ks.
Proof.
  intros HP. revert s c m. induction ks as [|[t k] ks IH]; intros s c m HR; [done|]. simpl.
  pose proof (@port_do_call _ _ _ _ R (HP t) s c m k HR) as H.
  destruct (do_call s m k) as [[[a s'] m']| | |], (do_call c m k) as [[[a' c'] m'']| | |]; try done.
  destruct H as (? & ? & ?). simpl in *. subst. by rewrite (IH s' c').
Qed.

(** ** Termination of the platform loops *)

Lemma touch_same m a x : load8 (store8 m a (load8 m a)) x = load8 m x.
Proof.
  rewrite load8_store8. case_decide as E; [|done]. subst. unfold wrap8. apply Z.mod_small, load8_range.
Qed.

(** The pages touched from [off] on are mapped, or one is not. *)
Definition pages_mapped (mapped : Z → bool) (ps p off size : Z) : Prop :=
  ∀ j, 0 ≤ j → off + j * ps < size → mapped (p + (off + j * ps)) = true.

Lemma pages_mapped_next mapped ps p off size : 0 < ps → mapped (p + off) = true →
  pages_mapped mapped ps p off size ↔ pages_mapped mapped ps p (off + ps) size.
Proof.
  intros Hps H0. split; intros H j Hj Hlt.
  - replace (off + ps + j * ps) with (off + (j + 1) * ps) in * by lia. apply H; lia.
  - destruct (decide (j = 0)) as [->|]; [by rewrite Z.add_0_r|].
    replace (off + j * ps) with (off + ps + (j - 1) * ps) in * by lia. apply H; lia.
Qed.

(** Enough rounds for the pages that are left: all of them are touched and
    nothing changes, or one is not mapped and the loop faults there. *)
Lemma vm_touch_outcome mapped ps p size rounds : ∀ m off, 0 < ps → 0 ≤ p → 0 ≤ off → size + ps ≤ 2 ^ 64 → p + size ≤ 2 ^ 64 →
  size ≤ off + Z.of_nat rounds * ps →
  (pages_mapped mapped ps p off size → ∃ m', vm_touch (S rounds) mapped ps m p off size = Ok m' ∧ ∀ x, load8 m' x = load8 m x) ∧
  (¬ pages_mapped mapped ps p off size → vm_touch (S rounds) mapped ps m p off size = Fault).
Proof.
  induction rounds as [|rounds IH]; intros m off Hps Hp Hoff Hsize Hfit Hr; cbn [vm_touch];
    (destruct (Z.ltb_spec off size) as [Hlt|Hge]; [|split; [by exists m|intros []; intros j Hj ?; exfalso; nia]]); try lia.
  rewrite (wrap64_small (off + ps)) by ulia. rewrite (wrap64_small (p + off)) by ulia.
  destruct (mapped (p + off)) eqn:E0.
  - rewrite (pages_mapped_next mapped ps p off size Hps E0).
    destruct (IH (store8 m (p + off) (load8 m (p + off))) (off + ps)) as [IH1 IH2]; [lia..|]. split; [|exact IH2].
    intros Hall. destruct (IH1 Hall) as (m' & E & Hm). exists m'. split; [exact E|]. intros x. by rewrite Hm, touch_same.
  - split; [|done]. intros Hall. specialize (Hall 0 ltac:(lia) ltac:(lia)). rewrite Z.mul_0_l, Z.add_0_r in Hall. congruence.
Qed.


