(* ===== verification/Windows.v ===== *)
(** * The Windows branches

    The [#else] branches of [hf_platform.h] and [platform.h] over the Win32
    calls they make, which are parameters, and the stubs the persistent pool
    and the guard heap are replaced by where there is no POSIX.  A reservation
    by [VirtualAlloc] is a reservation by an [mmap] with the same answers
    ([win_reserve_posix]), and [VirtualAlloc] promises what the results on the
    allocators ask of [mmap] ([win_mmap_ok]); so they hold on Windows too, as
    [win_free_list_safe] spells out for one allocator.  The mutex of this
    platform is in [Locks]. *)

From S2P Require Import Prelude Memory Platform Allocator FreeList FreeListProofs FreeListSpec PersistentPool GuardHeap Cpp.

(** [PAGE_NOACCESS], [PAGE_READONLY], [PAGE_READWRITE]. *)
Definition PAGE_NOACCESS : Z := 0x01.
Definition PAGE_READONLY : Z := 0x02.
Definition PAGE_READWRITE : Z := 0x04.

Module Win32.
Section calls.
(** [VirtualAlloc(NULL, n, MEM_RESERVE | MEM_COMMIT, PAGE_READWRITE)],
    [VirtualFree(p, 0, MEM_RELEASE)], [VirtualProtect] and the calls that pin
    pages; 0 is failure. *)
Context (VirtualAlloc : Z → Z) (VirtualFree : Z → Z) (VirtualProtect : Z → Z → Z → Z).
Context (VirtualLock VirtualUnlock : Z → Z → Z).

(** [hf_platform.h] *)

(** [si.dwPageSize] is a 32-bit field. *)
Definition hf_page_size (dwPageSize ps : Z) : Z * Z :=
  let ps := if ps =? 0 then wrap32 dwPageSize else ps in (ps, ps).

Definition hf_vm_reserve (ps size : Z) : Z :=
  let size := hf_align_up size ps in VirtualAlloc size.

Definition hf_vm_release (ps ptr size : Z) : bool :=
  if ptr =? NULL then true else negb (VirtualFree ptr =? 0).

Definition hf_vm_protect (ps ptr size : Z) (prot : hf_protection) : bool :=
  let size := hf_align_up size ps in
  let flags := PAGE_NOACCESS in
  let flags := if decide (prot = HF_PROT_RO) then PAGE_READONLY else flags in
  let flags := if decide (prot = HF_PROT_RW) then PAGE_READWRITE else flags in
  negb (VirtualProtect ptr size flags =? 0).

(** [platform.h] *)

Definition page_size (dwPageSize : Z) (ps : option Z) : Z * option Z :=
  let v := match ps with Some v => v | None => wrap32 dwPageSize end in (v, Some v).

Definition vm_reserve (ps size : Z) : Z := VirtualAlloc (align_up size ps).

Definition vm_release (ps ptr size : Z) : bool :=
  if ptr =? NULL then true else negb (VirtualFree ptr =? 0).

Definition vm_protect (ps ptr size : Z) (prot : Protection) : bool :=
  let flags := match prot with PNone => PAGE_NOACCESS | PReadOnly => PAGE_READONLY | PReadWrite => PAGE_READWRITE end in
  negb (VirtualProtect ptr (align_up size ps) flags =? 0).

(** Unlike the POSIX branches these do not round the size. *)
Definition vm_lock (ptr size : Z) : bool := negb (VirtualLock ptr size =? 0).
Definition vm_unlock (ptr size : Z) : bool := negb (VirtualUnlock ptr size =? 0).
End calls.
End Win32.

(** The persistent pool without POSIX: [hf_pool_open] never opens one, so the
    others are only ever called with the null pointer. *)
Module PoolStub.
Definition hf_pool_open (path : string) (block_size block_count : Z) (d : hf_durability) : option unit := None.
Definition hf_pool_close (p : option unit) : unit := ().
Definition hf_pool_allocate (p : option unit) : Z := NULL.
Definition hf_pool_free (p : option unit) (i : Z) : unit := ().
Definition hf_pool_at (p : option unit) (i : Z) : Z := NULL.
Definition hf_pool_flush (p : option unit) (i : Z) : unit := ().
Definition hf_pool_flush_all (p : option unit) : unit := ().
Definition hf_pool_block_size (p : option unit) : Z := 0.
Definition hf_pool_block_count (p : option unit) : Z := 0.
Definition hf_pool_used_blocks (p : option unit) : Z := 0.
Definition hf_pool_debug_wal_only (p : option unit) (i : Z) (allocate : bool) : unit := ().
Definition hf_pool_debug_crash (p : option unit) : unit := ().
End PoolStub.

Module GuardStub.
Definition hf_guard_heap_create (policy : hf_guard_policy) : option unit := None.
Definition hf_guard_heap_violations (self : option unit) : Z := 0.
End GuardStub.

(** ** The results carry over *)

(** The [mmap] with the answers of [VirtualAlloc]. *)
Definition mmap_of (VirtualAlloc : Z → Z) (size : Z) : option Z :=
  let p := VirtualAlloc size in if p =? NULL then None else Some p.

(** What Win32 promises of [VirtualAlloc(NULL, n, ...)]: it fails with the null
    pointer, or the reservation starts at a multiple of the allocation
    granularity, which is a multiple of the page size, and does not wrap. *)
Definition virtual_alloc_ok (ps granularity : Z) (VirtualAlloc : Z → Z) : Prop :=
  (ps | granularity) ∧
  ∀ size, VirtualAlloc size ≠ NULL →
    0 < VirtualAlloc size ∧ (granularity | VirtualAlloc size) ∧ VirtualAlloc size + size ≤ 2 ^ 64.

Lemma win_reserve_posix VA ps size :
  Win32.hf_vm_reserve VA ps size = Platform.hf_vm_reserve ps (mmap_of VA) size ∧
  Win32.vm_reserve VA ps size = vm_reserve ps (mmap_of VA) size.
Proof.
  unfold Win32.hf_vm_reserve, Win32.vm_reserve, hf_vm_reserve, vm_reserve, mmap_of. rewrite align_up_eq.
  destruct (VA _ =? NULL) eqn:E; zb; done.
Qed.

Lemma win_mmap_ok ps g VA : virtual_alloc_ok ps g VA → mmap_ok ps (mmap_of VA).
Proof.
  intros [Hg Hva] size p. unfold mmap_of. destruct (VA size =? NULL) eqn:E; zb; [done|]. intros [= <-].
  destruct (Hva size E) as (? & ? & ?). split; [done|]. split; [by apply (Z.divide_trans _ g)|done].
Qed.

(** The two languages ask for the same protection. *)
Lemma win_protect_same VP ps ptr size (prot : hf_protection) :
  Win32.hf_vm_protect VP ps ptr size prot =
  Win32.vm_protect VP ps ptr size match prot with HF_PROT_NONE => PNone | HF_PROT_RO => PReadOnly | HF_PROT_RW => PReadWrite end.
Proof. unfold Win32.hf_vm_protect, Win32.vm_protect. rewrite align_up_eq. by destruct prot. Qed.

(** The free list on a reservation of [VirtualAlloc]: every program within the
    contract runs safely. *)
Theorem win_free_list_safe nd ps g VA ok m0 cap pol a m os :
  page_size_ok ps → virtual_alloc_ok ps g VA → 0 ≤ cap ≤ 2 ^ 62 →
  hf_free_list_create ps (mmap_of VA) ok m0 cap pol = Some (a, m) → Forall (op_ok (2 ^ 62)) os →
  fl_mem a = Win32.hf_vm_reserve VA ps (fl_capacity a) ∧
  ∃ c, client_run (hf_allocator_vtable0 := FL_VT nd) (Client a m ∅ ∅) os = Ok c ∧ client_ok HF_DEFAULT_ALIGN c.
Proof.
  intros Hps Hva Hcap Hc Hos. pose proof (win_mmap_ok _ _ _ Hva) as Hm. split.
  - rewrite (proj1 (win_reserve_posix _ _ _)). unfold hf_free_list_create in Hc. destruct (negb ok); [done|].
    destruct (_ =? NULL); [done|]. by injection Hc as <- _.
  - pose proof (fl_create_inv _ _ _ _ _ _ _ _ Hps Hm Hcap Hc) as Hinv.
    destruct (client_run_ok (AllocatorSpec0 := fl_spec nd) a m ∅ os Hinv Hos) as (c & Hrun & Hok & _). by exists c.
Qed.

(** A reservation at 2^20, with the granularity of 64 KiB. *)
Definition ex_virtual_alloc (size : Z) : Z := if size <=? 2 ^ 62 then 2 ^ 20 else 0.

Lemma ex_virtual_alloc_ok : virtual_alloc_ok 4096 65536 ex_virtual_alloc.
Proof.
  split; [by exists 16|]. intros size. unfold ex_virtual_alloc. destruct (size <=? _) eqn:E; zb; [|done]. intros _.
  split; [lia|]. split; [by exists 16|lia].
Qed.
