(* ===== verification/CppStack.v ===== *)
(** * The C++ stack allocator ([include/heapforge/stack_allocator.h])

    [StackAllocator] with its members and methods, and its relation to
    [hf_stack.c]: the same bump pointer and headers.  The constructors differ:
    the class asserts that the mapping succeeded, the C function returns
    [NULL]; and a capacity of 0 becomes one page only in C. *)

From S2P Require Import Prelude Memory Platform Allocator Stack Cpp.

Module StackAllocator.

(** The members; [Header] is [prev_top] at 0 and [prev_payload] at 8. *)
Record t : Type := Make {
  base_ : Z;
  capacity_ : Z;
  top_ : Z;
  last_payload_ : Z;
  stats_ : AllocStats
}.

Definition sizeof_Header : Z := 16.
Definition alignof_Header : Z := 8.
Definition SIZE_MAX : Z := 2 ^ 64 - 1.

Definition set_top (v : Z) : meth t unit :=
  modify (λ s, Make (base_ s) (capacity_ s) v (last_payload_ s) (stats_ s)).
Definition set_last_payload (v : Z) : meth t unit :=
  modify (λ s, Make (base_ s) (capacity_ s) (top_ s) v (stats_ s)).
Definition upd_stats (f : AllocStats → AllocStats) : meth t unit :=
  modify (λ s, Make (base_ s) (capacity_ s) (top_ s) (last_payload_ s) (f (stats_ s))).

(** The constructor; a failed [reserve] is caught by the assert only. *)
Definition ctor (ndebug : bool) (ps : Z) (mmap : Z → option Z) (capacity : Z) : outcome t :=
  let capacity := align_up capacity ps in
  let base := vm_reserve ps mmap capacity in
  _ ← c_assert ndebug (negb (base =? NULL));
  Ok (Make base capacity 0 SIZE_MAX (stats_zero capacity)).

(** The region the destructor releases. *)
Definition dtor (s : t) : Z * Z := (base_ s, capacity_ s).

Definition allocate (size alignment : Z) : meth t Z :=
  upd_stats bump_alloc;;
  top ← gets top_;
  base ← gets base_;
  cap ← gets capacity_;
  let hdr_at := align_up top alignof_Header in
  let payload := align_up (hdr_at +% sizeof_Header) alignment in
  let new_top := payload +% size in
  if new_top >? cap then upd_stats bump_failed;; mret NULL else
  let h := base + payload - sizeof_Header in
  store h top;;
  last ← gets last_payload_;
  store (h + 8) last;;
  set_top new_top;;
  set_last_payload payload;;
  upd_stats (set_used new_top);;
  upd_stats raise_peak;;
  mret (base + payload).

Definition deallocate (ndebug : bool) (ptr : Z) : meth t unit :=
  if ptr =? NULL then mret () else
  upd_stats bump_free;;
  base ← gets base_;
  last ← gets last_payload_;
  let payload := wrap64 (ptr - base) in
  cassert ndebug (payload =? last);;
  if negb (payload =? last) then mret () else
  let h := base + payload - sizeof_Header in
  prev_top ← load h;
  set_top prev_top;;
  upd_stats (set_used prev_top);;
  prev_payload ← load (h + 8);
  set_last_payload prev_payload.

Definition mark (s : t) : Z := top_ s.

Definition rewind (ndebug : bool) (mk : Z) : meth t unit :=
  top ← gets top_;
  cassert ndebug (mk <=? top);;
  set_top mk;;
  upd_stats (set_used mk);;
  set_last_payload SIZE_MAX.

Definition reset (ndebug : bool) : meth t unit := rewind ndebug 0.

Definition name (s : t) : string := "Stack".
Definition stats (s : t) : AllocStats := stats_ s.

Definition walk (s : t) (m : mem) : outcome (list cpp_BlockInfo) :=
  Ok ((if top_ s =? 0 then [] else [BlockInfo 0 (top_ s) false]) ++
      (if top_ s <? capacity_ s then [BlockInfo (top_ s) (capacity_ s -% top_ s) true] else [])).

#[export] Instance I (ndebug : bool) : IAllocator t := {
  ia_allocate := allocate;
  ia_deallocate := deallocate ndebug;
  ia_name := name;
  ia_stats := stats;
  ia_walk := walk;
  ia_released := Z * Z;
  ia_dtor := dtor
}.

(** The C struct with the same members. *)
Definition to_c (s : t) : st_alloc :=
  StAlloc (base_ s) (capacity_ s) (top_ s) (last_payload_ s) (stats_ s).

(** Runs a method on an object with known members. *)
Ltac members :=
  unfold set_top, set_last_payload, upd_stats; run_meth;
  cbn [to_c base_ capacity_ top_ last_payload_ stats_
       st_mem st_capacity st_top st_last_payload st_stats].

Lemma sta_allocate_c s m size al : ('(x, s, m) ← allocate size al s m; Ok (to_c s, m, x)) = st_allocate (to_c s) m size al.
Proof.
  unfold allocate, st_allocate, sizeof_Header, alignof_Header, st_header_size.
  rewrite align_up_eq. members. by destruct (_ >? _).
Qed.

Lemma sta_deallocate_c nd s m p :
  ('(_, s, m) ← deallocate nd p s m; Ok (to_c s, m)) = st_deallocate nd (to_c s) m p.
Proof.
  unfold deallocate, st_deallocate. destruct (p =? NULL); [by destruct s|]. members.
  unfold c_assert. by destruct (wrap64 _ =? _), nd.
Qed.

#[export] Instance sta_port (nd : bool) : @Port st_alloc t (ST_VT nd) (I nd) (λ s c, to_c s = c).
Proof. apply port_fun; intros; [apply sta_allocate_c|apply sta_deallocate_c|done..]. Qed.

Lemma rewind_c nd s m mk :
  ('(_, s, m) ← rewind nd mk s m; Ok (to_c s, m)) = a ← hf_stack_rewind nd (to_c s) mk; Ok (a, m).
Proof.
  unfold rewind, hf_stack_rewind. members. unfold c_assert. by destruct (mk <=? _), nd.
Qed.

(** The constructors make the same object of the same mapping. *)
Lemma sta_ctor_c nd ps mmap cap a : cap ≠ 0 →
  hf_stack_create ps mmap true cap = Some a →
    ∃ s, ctor nd ps mmap cap = Ok s ∧ to_c s = a.
Proof.
  intros Hc. unfold hf_stack_create, ctor. rewrite vm_reserve_eq.
  destruct (Z.eqb_spec cap 0); [done|]. cbn [negb]. rewrite align_up_eq.
  destruct (hf_vm_reserve ps mmap (hf_align_up cap ps) =? NULL) eqn:E; [done|]. intros [= <-].
  unfold c_assert. cbn [negb]. rewrite orb_true_r. eexists. by split.
Qed.
End StackAllocator.
