(* ===== verification/CppBlockPool.v ===== *)
(** * The C++ block pool ([include/heapforge/block_pool.h])

    [BlockPool] with its members and methods, and its relation to
    [hf_block_pool.c].  The bitmap is a [std::vector]: [operator[]] outside it
    is a fault, and its size is what the C struct keeps in [words]. *)

From S2P Require Import Prelude Memory Platform Allocator BlockPool Cpp.

(** The class [BlockPool]. *)
Module BlockPoolCpp.

Record t : Type := Make {
  base_ : Z;
  capacity_ : Z;
  block_size_ : Z;
  block_count_ : Z;
  hint_ : Z;
  bitmap_ : list Z;
  stats_ : AllocStats
}.

Definition upd_stats (f : AllocStats → AllocStats) : meth t unit :=
  modify (λ s, Make (base_ s) (capacity_ s) (block_size_ s) (block_count_ s) (hint_ s) (bitmap_ s) (f (stats_ s))).
Definition set_hint (v : Z) : meth t unit :=
  modify (λ s, Make (base_ s) (capacity_ s) (block_size_ s) (block_count_ s) v (bitmap_ s) (stats_ s)).

(** [bitmap_[i]] as a value and as the target of an assignment. *)
Definition word (s : t) (i : Z) : outcome Z :=
  match bitmap_ s !! Z.to_nat i with Some w => Ok w | None => Fault end.
Definition set_word (i v : Z) : meth t unit :=
  modify (λ s, Make (base_ s) (capacity_ s) (block_size_ s) (block_count_ s) (hint_ s)
                 (<[Z.to_nat i := v]> (bitmap_ s)) (stats_ s)).

Definition ctor (ndebug : bool) (ps : Z) (mmap : Z → option Z) (block_size block_count : Z) : outcome t :=
  let block_size := align_up block_size kDefaultAlignment in
  let bytes := align_up (block_size *% block_count) ps in
  let base := vm_reserve ps mmap bytes in
  _ ← c_assert ndebug (negb (base =? NULL));
  Ok (Make base bytes block_size block_count 0
        (replicate (Z.to_nat ((block_count +% 63) / 64)) 0) (stats_zero bytes)).

Definition dtor (s : t) : Z * Z := (base_ s, capacity_ s).

(** The six conditional shifts, each with its mask. *)
Definition lowest_zero (bits : Z) : Z :=
  let halve (s : Z * Z) (w : Z) :=
    if Z.land s.2 (Z.ones w) =? 0 then (s.1 + w, Z.shiftr s.2 w) else s in
  (foldl halve (0, not64 bits) [32; 16; 8; 4; 2; 1]).1.

(** The [for] loop of [allocate] from round [w], with [n] rounds left:
    [return] inside it leaves with [Some]. *)
Fixpoint scan (n : nat) (w : Z) : meth t (option Z) :=
  match n with
  | O => mret None
  | S n =>
      words ← gets (λ s, Z.of_nat (length (bitmap_ s)));
      hint ← gets hint_;
      let wi := (hint +% w) mod words in
      s ← gets (λ s, s);
      bits ← lift (word s wi);
      if bits =? 2 ^ 64 - 1 then scan n (w + 1) else
      let bit := lowest_zero bits in
      let idx := wi *% 64 +% bit in
      if idx >=? block_count_ s then scan n (w + 1) else
      set_word wi (Z.lor bits (Z.shiftl 1 bit));;
      set_hint wi;;
      upd_stats (λ st, set_used (used st +% block_size_ s) st);;
      upd_stats raise_peak;;
      mret (Some (base_ s + idx * block_size_ s))
  end.

Definition allocate (size alignment : Z) : meth t Z :=
  upd_stats bump_alloc;;
  bs ← gets block_size_;
  if size >? bs then upd_stats bump_failed;; mret NULL else
  words ← gets (λ s, length (bitmap_ s));
  r ← scan words 0;
  match r with
  | Some p => mret p
  | None => upd_stats bump_failed;; mret NULL
  end.

Definition deallocate (ndebug : bool) (ptr : Z) : meth t unit :=
  if ptr =? NULL then mret () else
  upd_stats bump_free;;
  s ← gets (λ s, s);
  let off := wrap64 (ptr - base_ s) in
  cassert ndebug (off mod block_size_ s =? 0);;
  let idx := off / block_size_ s in
  cassert ndebug (idx <? block_count_ s);;
  let mask := Z.shiftl 1 (idx mod 64) in
  bits ← lift (word s (idx / 64));
  cassert ndebug (negb (Z.land bits mask =? 0));;
  set_word (idx / 64) (Z.land bits (not64 mask));;
  set_hint (idx / 64);;
  upd_stats (λ st, set_used (used st -% block_size_ s) st).

Definition name (s : t) : string := "BlockPool".
Definition stats (s : t) : AllocStats := stats_ s.
Definition block_size (s : t) : Z := block_size_ s.

Definition test (s : t) (idx : Z) : outcome bool :=
  bits ← word s (idx / 64);
  Ok (negb (Z.land bits (Z.shiftl 1 (idx mod 64)) =? 0)).

(** The [for] loop of [walk] at [i], with [n] rounds left. *)
Fixpoint walk_from (s : t) (n : nat) (i run_start : Z) (run_used : bool) : outcome (list cpp_BlockInfo) :=
  match n with
  | O => Ok []
  | S n =>
      used ← (if i <? block_count_ s then test s i else Ok (negb run_used));
      if negb (Bool.eqb used run_used) then
        bs ← walk_from s n (i + 1) i used;
        Ok (BlockInfo (run_start *% block_size_ s) ((i - run_start) *% block_size_ s) (negb run_used) :: bs)
      else walk_from s n (i + 1) run_start run_used
  end.

Definition walk (s : t) (m : mem) : outcome (list cpp_BlockInfo) :=
  run_used ← test s 0;
  walk_from s (Z.to_nat (block_count_ s)) 1 0 run_used.

#[export] Instance I (ndebug : bool) : IAllocator t := {
  ia_allocate := allocate;
  ia_deallocate := deallocate ndebug;
  ia_name := name;
  ia_stats := stats;
  ia_walk := walk;
  ia_released := Z * Z;
  ia_dtor := dtor
}.

(** ** Relation to the C pool *)

(** The C struct with the same members; [words] is the size of the vector. *)
Definition to_c (s : t) : bp_alloc :=
  BpAlloc (base_ s) (capacity_ s) (block_size_ s) (block_count_ s) (hint_ s) (bitmap_ s)
          (Z.of_nat (length (bitmap_ s))) (stats_ s).

Ltac members :=
  unfold upd_stats, set_hint, set_word; run_meth;
  cbn [to_c base_ capacity_ block_size_ block_count_ hint_ bitmap_ stats_
       bp_mem bp_capacity bp_block_size bp_block_count bp_hint bp_bitmap bp_words bp_stats].

Lemma lowest_zero_c bits : lowest_zero bits = BlockPool.lowest_zero bits.
Proof.
  unfold lowest_zero, BlockPool.lowest_zero. cbn [foldl].
  set (s := (0, not64 bits)).
  assert (∀ w (s : Z * Z), 0 ≤ w →
    (if Z.land s.2 (Z.ones w) =? 0 then (s.1 + w, Z.shiftr s.2 w) else s) = lowest_zero_step w s) as E.
  { intros w [n inv] Hw. unfold lowest_zero_step. rewrite Z.ones_equiv. simpl.
    by replace (Z.pred (2 ^ w)) with (2 ^ w - 1) by lia. }
  rewrite !E by lia. destruct (lowest_zero_step 2 _) as [n inv].
  unfold lowest_zero_step. change (2 ^ 1 - 1) with 1. by destruct (_ =? 0).
Qed.

Lemma word_c s i : word s i = bp_word (to_c s) i.
Proof. done. Qed.

(** The scan finds the word and the bit the C loop finds and takes it. *)
Lemma scan_c n w s m :
  scan n w s m =
    r ← bp_find (to_c s) w n;
    match r with
    | None => Ok (None, s, m)
    | Some (wi, bit) =>
        bits ← bp_word (to_c s) wi;
        let st := raise_peak (set_used (used (stats_ s) +% block_size_ s) (stats_ s)) in
        Ok (Some (base_ s + (wi *% 64 +% bit) * block_size_ s),
            Make (base_ s) (capacity_ s) (block_size_ s) (block_count_ s) wi
              (<[Z.to_nat wi := Z.lor bits (Z.shiftl 1 bit)]> (bitmap_ s)) st, m)
    end.
Proof.
  revert w. induction n as [|n IH]; intros w; [done|]. cbn [scan bp_find].
  run_meth. rewrite <- word_c. cbn [to_c bp_hint bp_words bp_block_count].
  destruct (word s _) as [bits| | |] eqn:Ew; [|done..].
  destruct (bits =? _); [by rewrite IH|]. rewrite lowest_zero_c.
  destruct (_ >=? _); [by rewrite IH|]. rewrite <- word_c, Ew. by members.
Qed.

(** The counters play no part in the scan. *)
Lemma bp_find_stats a st w n : bp_find (bp_set_stats a st) w n = bp_find a w n.
Proof.
  revert w. induction n as [|n IH]; intros w; [done|]. cbn [bp_find].
  change (bp_word (bp_set_stats a st)) with (bp_word a). cbn [bp_set_stats bp_hint bp_words bp_block_count].
  destruct (bp_word a _) as [bits| | |]; [|done..]. cbn [mbind outcome_bind].
  destruct (bits =? _); [apply IH|]. by destruct (_ >=? _); [apply IH|].
Qed.

Lemma bpc_allocate_c s m size al : ('(x, s, m) ← allocate size al s m; Ok (to_c s, m, x)) = bp_allocate (to_c s) m size al.
Proof.
  unfold allocate, bp_allocate. members. destruct (size >? _); [done|].
  rewrite scan_c. members. rewrite Nat2Z.id.
  change (to_c (Make _ _ _ _ _ _ _)) with (bp_set_stats (to_c s) (bump_alloc (stats_ s))) at 1.
  rewrite bp_find_stats. fold (to_c s).
  destruct (bp_find _ _ _) as [[[wi bit]|]| | |]; [|done..].
  unfold bp_word. cbn [to_c bp_bitmap bitmap_]. destruct (bitmap_ s !! _); [|done].
  unfold bp_set_word, to_c. members. by rewrite length_insert.
Qed.

Lemma bpc_deallocate_c nd s m p :
  ('(_, s, m) ← deallocate nd p s m; Ok (to_c s, m)) = bp_deallocate nd (to_c s) m p.
Proof.
  unfold deallocate, bp_deallocate. destruct (p =? NULL); [by destruct s|]. members.
  unfold bp_word, word, c_assert. members. destruct (nd || _); [|done]. destruct (nd || _); [|done].
  destruct (bitmap_ s !! _); [|done]. destruct (nd || _); [|done].
  unfold bp_set_word, to_c. members. by rewrite length_insert.
Qed.

Lemma bpc_walk_from_c s n i run_start run_used :
  walk_from s n i run_start run_used = bp_walk_loop (to_c s) i run_start run_used n.
Proof.
  revert i run_start run_used. induction n as [|n IH]; intros i rs ru; [done|].
  cbn [walk_from bp_walk_loop]. change (test s) with (bp_test (to_c s)).
  cbn [to_c bp_block_count bp_block_size].
  destruct (if i <? _ then _ else _) as [u| | |]; [|done..]. cbn [mbind outcome_bind].
  destruct (Bool.eqb u ru); cbn [negb]; by rewrite IH.
Qed.

#[export] Instance bpc_port (nd : bool) : @Port bp_alloc t (BP_VT nd) (I nd) (λ s c, to_c s = c).
Proof.
  apply port_fun; intros; [apply bpc_allocate_c|apply bpc_deallocate_c|done..|].
  unfold ia_walk, vt_walk, I, BP_VT, walk, bp_walk. change (test s 0) with (bp_test (to_c s) 0).
  destruct (bp_test _ _); [|done..]. cbn [mbind outcome_bind]. apply bpc_walk_from_c.
Qed.

(** The constructors make the same object of the same mapping. *)
Lemma bpc_ctor_c nd ps mmap size count a :
  hf_block_pool_create ps mmap true true size count = Some a →
  ∃ s, ctor nd ps mmap size count = Ok s ∧ to_c s = a.
Proof.
  unfold hf_block_pool_create, ctor. rewrite vm_reserve_eq.
  rewrite align_up_eq. change kDefaultAlignment with HF_DEFAULT_ALIGN. cbn [negb].
  destruct (_ =? NULL); [done|]. intros [= <-]. unfold c_assert. cbn [negb]. rewrite orb_true_r.
  eexists. split; [reflexivity|]. unfold to_c. members. rewrite length_replicate, Z2Nat.id; [reflexivity|].
  apply Z.div_pos; [apply wrap64_range|lia].
Qed.
End BlockPoolCpp.
