(* ===== verification/CppFreeList.v ===== *)
(** * The C++ free-list allocator ([include/heapforge/free_list_allocator.h])

    [FreeListAllocator] with its members and methods, and its relation to
    [hf_free_list.c].  A [Header] is [size_flags] at 0 and [prev_phys] at 8, a
    [FreeNode] is [next] at 0 and [prev] at 8; both live in the arena. *)

From S2P Require Import Prelude Memory Platform Allocator Links FreeList Cpp.

Module FreeListAllocator.

(** [FitPolicy]. *)
Inductive FitPolicy : Type :=
| FirstFit
| BestFit
| NextFit.

Record t : Type := Make {
  base_ : Z;
  capacity_ : Z;
  policy_ : FitPolicy;
  free_head_ : Z;
  cursor_ : Z;
  stats_ : AllocStats
}.

Definition set_free_head (v : Z) : meth t unit :=
  modify (λ s, Make (base_ s) (capacity_ s) (policy_ s) v (cursor_ s) (stats_ s)).
Definition set_cursor (v : Z) : meth t unit :=
  modify (λ s, Make (base_ s) (capacity_ s) (policy_ s) (free_head_ s) v (stats_ s)).
Definition upd_stats (f : AllocStats → AllocStats) : meth t unit :=
  modify (λ s, Make (base_ s) (capacity_ s) (policy_ s) (free_head_ s) (cursor_ s) (f (stats_ s))).

Definition kHeaderSize : Z := 16.
Definition kMinBlock : Z := kHeaderSize + 16.

(** ** [Header] and [FreeNode] *)

Definition Header_size (h : Z) : meth t Z :=
  f ← load h; mret (Z.land f (not64 1)).
Definition Header_used (h : Z) : meth t bool :=
  f ← load h; mret (negb (Z.land f 1 =? 0)).
Definition Header_set (h sz : Z) (u : bool) : meth t unit :=
  store h (Z.lor sz (if u then 1 else 0)).

Definition prev_phys_at (h : Z) : Z := h + 8.
Definition next_at (n : Z) : Z := n.
Definition prev_at (n : Z) : Z := n + 8.

Definition payload_node (h : Z) : Z := h + kHeaderSize.
Definition header_of (n : Z) : Z := n - kHeaderSize.

Definition next_phys (h : Z) : meth t Z :=
  sz ← Header_size h;
  s ← gets (λ s, s);
  let n := h + sz in
  mret (if n <? base_ s + capacity_ s then n else NULL).

Definition plausible_header (h : Z) : meth t bool :=
  s ← gets (λ s, s);
  if (h <? base_ s) || (h >=? base_ s + capacity_ s) then mret false else
  sz ← Header_size h;
  u ← Header_used h;
  mret (u && (sz >=? kMinBlock) && (sz mod kDefaultAlignment =? 0) &&
        (h + sz <=? base_ s + capacity_ s)).

(** ** The ring of free nodes *)

(** [n->next = n->prev = n] assigns [prev] first. *)
Definition insert (n : Z) : meth t unit :=
  head ← gets free_head_;
  (if head =? NULL then
     set_free_head n;;
     store (prev_at n) n;;
     store (next_at n) n
   else
     hn ← load (next_at head);
     store (next_at n) hn;;
     store (prev_at n) head;;
     hn ← load (next_at head);
     store (prev_at hn) n;;
     store (next_at head) n);;
  cur ← gets cursor_;
  when (cur =? NULL) (set_cursor n).

Definition unlink (n : Z) : meth t unit :=
  next ← load (next_at n);
  if next =? n then set_free_head NULL;; set_cursor NULL else
  prev ← load (prev_at n);
  store (next_at prev) next;;
  next ← load (next_at n);
  prev ← load (prev_at n);
  store (prev_at next) prev;;
  head ← gets free_head_;
  next ← load (next_at n);
  when (head =? n) (set_free_head next);;
  cur ← gets cursor_;
  when (cur =? n) (set_cursor next).

(** The [do]-[while] loops of [find_fit]; [rounds] bounds the nodes visited. *)
Fixpoint first_fit (rounds : nat) (need head n : Z) : meth t Z :=
  match rounds with
  | O => lift OutOfFuel
  | S rounds =>
      sz ← Header_size (header_of n);
      if sz >=? need then mret n else
      n ← load (next_at n);
      if negb (n =? head) then first_fit rounds need head n else mret NULL
  end.

Fixpoint best_fit (rounds : nat) (need head best best_sz n : Z) : meth t Z :=
  match rounds with
  | O => lift OutOfFuel
  | S rounds =>
      sz ← Header_size (header_of n);
      let better := (sz >=? need) && (sz <? best_sz) in
      let best := if better then n else best in
      let best_sz := if better then sz else best_sz in
      n ← load (next_at n);
      if negb (n =? head) then best_fit rounds need head best best_sz n else mret best
  end.

Fixpoint next_fit (rounds : nat) (need start n : Z) : meth t Z :=
  match rounds with
  | O => lift OutOfFuel
  | S rounds =>
      sz ← Header_size (header_of n);
      if sz >=? need then next ← load (next_at n); set_cursor next;; mret n else
      n ← load (next_at n);
      if negb (n =? start) then next_fit rounds need start n else mret NULL
  end.

(** One round per minimal block of the arena. *)
Definition rounds_of (s : t) : nat := S (Z.to_nat (capacity_ s / kMinBlock)).

Definition find_fit (need : Z) : meth t Z :=
  head ← gets free_head_;
  if head =? NULL then mret NULL else
  rounds ← gets rounds_of;
  policy ← gets policy_;
  match policy with
  | FirstFit => first_fit rounds need head head
  | BestFit => best_fit rounds need head NULL (2 ^ 64 - 1) head
  | NextFit =>
      cur ← gets cursor_;
      let start := if negb (cur =? NULL) then cur else head in
      next_fit rounds need start start
  end.

(** ** The public methods *)

(** The constructor, which writes the first header: without the assert a
    failed [reserve] is a null dereference.  [policy] defaults to [FirstFit]. *)
Definition ctor (ndebug : bool) (ps : Z) (mmap : Z → option Z) (m : mem) (capacity : Z) (policy : FitPolicy) : outcome (t * mem) :=
  let capacity := align_up (if capacity <? kMinBlock * 2 then kMinBlock * 2 else capacity) ps in
  let base := vm_reserve ps mmap capacity in
  _ ← c_assert ndebug (negb (base =? NULL));
  if base =? NULL then Fault else
  let body : meth t unit :=
    Header_set base capacity false;;
    store (prev_phys_at base) NULL;;
    set_free_head (payload_node base);;
    head ← gets free_head_;
    store (prev_at head) head;;
    store (next_at head) head;;
    set_cursor head in
  '(_, s, m) ← body (Make base capacity policy NULL NULL (stats_zero capacity)) m;
  Ok (s, m).

Definition dtor (s : t) : Z * Z := (base_ s, capacity_ s).

(** The statements of [allocate] that turn the free block of [node] into the
    used block. *)
Definition take_block (node need : Z) : meth t unit :=
  let h := header_of node in
  unlink node;;
  sz ← Header_size h;
  let remain := sz -% need in
  if remain >=? kMinBlock then
    let split := h + need in
    Header_set split remain false;;
    store (prev_phys_at split) h;;
    after ← next_phys split;
    non_null after (store (prev_phys_at after) split);;
    Header_set h need true;;
    insert (payload_node split)
  else
    sz ← Header_size h;
    Header_set h sz true.

Definition allocate (size alignment : Z) : meth t Z :=
  let size := if size =? 0 then 1 else size in
  let size := if alignment >? kDefaultAlignment then size +% alignment else size in
  let need := align_up (kHeaderSize +% size) kDefaultAlignment in
  let need := if need <? kMinBlock then kMinBlock else need in
  upd_stats bump_alloc;;
  node ← find_fit need;
  if node =? NULL then upd_stats bump_failed;; mret NULL else
  let h := header_of node in
  take_block node need;;
  sz ← Header_size h;
  upd_stats (λ st, set_used (used st +% sz) st);;
  upd_stats raise_peak;;
  let p := h + kHeaderSize in
  if alignment >? kDefaultAlignment then
    let aligned := align_up (p +% 8) alignment in
    store (aligned - 8) (aligned -% p);;
    mret aligned
  else mret p.

(** The coalescing steps of [deallocate]: with the block after [h], and with
    the block before it (which yields the header to insert). *)
Definition merge_next (h : Z) : meth t unit :=
  nb ← next_phys h;
  if nb =? NULL then mret () else
  u ← Header_used nb;
  if u : bool then mret () else
  unlink (payload_node nb);;
  cur ← gets cursor_;
  when (cur =? payload_node nb) (set_cursor NULL);;
  sz ← Header_size h;
  nsz ← Header_size nb;
  Header_set h (sz +% nsz) false;;
  nn ← next_phys h;
  non_null nn (store (prev_phys_at nn) h).

Definition merge_prev (h : Z) : meth t Z :=
  pb ← load (prev_phys_at h);
  if pb =? NULL then mret h else
  u ← Header_used pb;
  if u : bool then mret h else
  unlink (payload_node pb);;
  cur ← gets cursor_;
  when (cur =? payload_node pb) (set_cursor NULL);;
  psz ← Header_size pb;
  sz ← Header_size h;
  Header_set pb (psz +% sz) false;;
  nn ← next_phys pb;
  non_null nn (store (prev_phys_at nn) pb);;
  mret pb.

(** The header [deallocate] takes [ptr] to belong to. *)
Definition block_of (ptr : Z) : meth t Z :=
  ok ← plausible_header (ptr - kHeaderSize);
  if ok : bool then mret (ptr - kHeaderSize)
  else back ← load (ptr - 8); mret (ptr - back - kHeaderSize).

Definition deallocate (ndebug : bool) (ptr : Z) : meth t unit :=
  if ptr =? NULL then mret () else
  upd_stats bump_free;;
  h ← block_of ptr;
  u ← Header_used h;
  cassert ndebug u;;
  sz ← Header_size h;
  upd_stats (λ st, set_used (used st -% sz) st);;
  Header_set h sz false;;
  merge_next h;;
  h ← merge_prev h;
  insert (payload_node h).

Definition name (s : t) : string :=
  match policy_ s with
  | FirstFit => "FreeList/FirstFit"
  | BestFit => "FreeList/BestFit"
  | NextFit => "FreeList/NextFit"
  end.

Definition stats (s : t) : AllocStats := stats_ s.

(** The [for] loop of [walk] at address [c]. *)
Fixpoint walk_from (rounds : nat) (s : t) (m : mem) (c : Z) : outcome (list cpp_BlockInfo) :=
  match rounds with
  | O => OutOfFuel
  | S rounds =>
      if c <? base_ s + capacity_ s then
        let f := load64 m c in
        let sz := Z.land f (not64 1) in
        bs ← walk_from rounds s m (c + sz);
        Ok (BlockInfo (wrap64 (c - base_ s)) sz (negb (negb (Z.land f 1 =? 0))) :: bs)
      else Ok []
  end.

Definition walk (s : t) (m : mem) : outcome (list cpp_BlockInfo) :=
  walk_from (rounds_of s) s m (base_ s).

#[export] Instance I (ndebug : bool) : IAllocator t := {
  ia_allocate := allocate;
  ia_deallocate := deallocate ndebug;
  ia_name := name;
  ia_stats := stats;
  ia_walk := walk;
  ia_released := Z * Z;
  ia_dtor := dtor
}.

(** ** Relation to the C free list *)

Definition policy_c (p : FitPolicy) : hf_fit_policy :=
  match p with FirstFit => HF_FIT_FIRST | BestFit => HF_FIT_BEST | NextFit => HF_FIT_NEXT end.

Definition to_c (s : t) : fl_alloc :=
  FlAlloc (base_ s) (capacity_ s) (policy_c (policy_ s)) (free_head_ s) (cursor_ s) (stats_ s).

Definition of_policy (p : hf_fit_policy) : FitPolicy :=
  match p with HF_FIT_FIRST => FirstFit | HF_FIT_BEST => BestFit | HF_FIT_NEXT => NextFit end.

Definition of_c (a : fl_alloc) : t :=
  Make (fl_mem a) (fl_capacity a) (of_policy (fl_policy a)) (fl_free_head a) (fl_cursor a) (fl_stats a).

Lemma fla_to_of a : to_c (of_c a) = a.
Proof. by destruct a as [? ? [] ? ? ?]. Qed.
Lemma fla_of_to s : of_c (to_c s) = s.
Proof. by destruct s as [? ? [] ? ? ?]. Qed.

(** Runs a method on [of_c a]: members and addresses become those of the C
    code, with no branch taken. *)
Ltac members :=
  unfold set_free_head, set_cursor, upd_stats, Header_size, Header_used, Header_set,
    prev_phys_at, next_at, prev_at; run_meth;
  cbn [of_c base_ capacity_ policy_ free_head_ cursor_ stats_
       fl_set_head fl_set_cursor fl_set_stats fl_mem fl_capacity fl_policy fl_free_head fl_cursor fl_stats].

Lemma insert_c a m n :
  insert n (of_c a) m = (let '(a, m) := fl_insert a m n in Ok ((), of_c a, m)).
Proof.
  unfold insert, fl_insert, set_next, set_prev, node_next. members.
  destruct (fl_free_head a =? NULL); members; by destruct (fl_cursor a =? NULL).
Qed.

Lemma fla_unlink_c a m n :
  unlink n (of_c a) m = (let '(a, m) := fl_unlink a m n in Ok ((), of_c a, m)).
Proof.
  unfold unlink, fl_unlink, set_next, set_prev, node_next, node_prev. members.
  destruct (load64 m n =? n); members; [done|].
  destruct (fl_free_head a =? n); members; by destruct (fl_cursor a =? n).
Qed.

Lemma next_phys_c a m h : next_phys h (of_c a) m = Ok (FreeList.next_phys a m h, of_c a, m).
Proof. done. Qed.

Lemma plausible_header_c a m h :
  plausible_header h (of_c a) m = Ok (FreeList.plausible_header a m h, of_c a, m).
Proof.
  unfold plausible_header, FreeList.plausible_header. members. by destruct (_ || _).
Qed.

Lemma block_of_c a m p : block_of p (of_c a) m = Ok (fl_block_of a m p, of_c a, m).
Proof.
  unfold block_of, fl_block_of. run_meth. rewrite plausible_header_c.
  change kHeaderSize with FL_HDR. by destruct (FreeList.plausible_header _ _ _).
Qed.

Lemma first_fit_c rounds a m need n :
  first_fit rounds need (fl_free_head a) n (of_c a) m =
    n ← first_fit_loop rounds a m need n; Ok (n, of_c a, m).
Proof.
  revert n. induction rounds as [|rounds IH]; intros n; [done|]. cbn [first_fit first_fit_loop]. members.
  unfold hdr_size at 1. change (FreeList.header_of n) with (header_of n).
  destruct (_ >=? need); [done|]. unfold node_next. destruct (load64 m n =? _); [done|]. apply IH.
Qed.

Lemma best_fit_c rounds a m need n best best_sz :
  best_fit rounds need (fl_free_head a) best best_sz n (of_c a) m =
    n ← best_fit_loop rounds a m need n best best_sz; Ok (n, of_c a, m).
Proof.
  revert n best best_sz. induction rounds as [|rounds IH]; intros n best best_sz; [done|].
  cbn [best_fit best_fit_loop]. members. unfold hdr_size.
  change (FreeList.header_of n) with (header_of n). unfold node_next.
  destruct (_ && _); (destruct (load64 m n =? _); [done|]; apply IH).
Qed.

Lemma next_fit_c rounds a m need start n :
  next_fit rounds need start n (of_c a) m =
    '(n, cur) ← next_fit_loop rounds a m need start n; Ok (n, of_c (fl_set_cursor a cur), m).
Proof.
  revert n. induction rounds as [|rounds IH]; intros n; [done|]. cbn [next_fit next_fit_loop]. members.
  unfold hdr_size at 1. change (FreeList.header_of n) with (header_of n).
  destruct (_ >=? need); [done|]. unfold node_next. destruct (load64 m n =? _); [done|]. apply IH.
Qed.

Lemma find_fit_c a m need :
  find_fit need (of_c a) m = '(a, n) ← FreeList.find_fit a m need; Ok (n, of_c a, m).
Proof.
  unfold find_fit, FreeList.find_fit. members. fold (of_c a). destruct (fl_free_head a =? NULL); [done|].
  change (rounds_of (of_c a)) with (fl_fuel a).
  change (policy_ (of_c a)) with (of_policy (fl_policy a)). destruct (fl_policy a); cbn [of_policy].
  - rewrite first_fit_c. by destruct (first_fit_loop _ _ _ _ _).
  - rewrite best_fit_c. by destruct (best_fit_loop _ _ _ _ _ _ _).
  - change (cursor_ (of_c a)) with (fl_cursor a). rewrite next_fit_c. destruct (fl_cursor a =? NULL); cbn [negb];
      by destruct (next_fit_loop _ _ _ _ _ _) as [[? ?]| | |].
Qed.

Lemma take_block_c a m node need :
  take_block node need (of_c a) m = (let '(a, m) := fl_carve a m node need in Ok ((), of_c a, m)).
Proof.
  unfold take_block, fl_carve. run_meth. rewrite fla_unlink_c.
  destruct (fl_unlink a m node) as [a' m']. members. unfold hdr_size at 1 2.
  change (FreeList.header_of node) with (header_of node).
  change kMinBlock with FL_MIN. destruct (_ >=? FL_MIN); [|done].
  unfold fl_split. members. rewrite next_phys_c. members.
  unfold hdr_set, set_prev_phys. destruct (_ =? NULL); members; apply insert_c.
Qed.

(** The end of a merge: the cursor leaves the merged node, the header grows
    and the block after it learns its new neighbour. *)
Ltac merge_tail a1 :=
  members; destruct (fl_cursor a1 =? _); members;
    [change (Make _ _ _ _ _ _) with (of_c (fl_set_cursor a1 NULL))|fold (of_c a1)];
    rewrite next_phys_c; unfold hdr_set, set_prev_phys, hdr_size; by destruct (_ =? NULL).

Lemma merge_next_c a m h :
  merge_next h (of_c a) m = (let '(a, m) := fl_merge_next a m h in Ok ((), of_c a, m)).
Proof.
  unfold merge_next, fl_merge_next. run_meth. rewrite next_phys_c. members. fold (of_c a).
  destruct (FreeList.next_phys a m h =? NULL); cbn [negb andb]; [done|].
  unfold hdr_used. destruct (Z.land _ 1 =? 0); cbn [negb]; [|done].
  rewrite fla_unlink_c. change (FreeList.payload_node _) with (payload_node (FreeList.next_phys a m h)).
  destruct (fl_unlink _ _ _) as [a1 m1]. merge_tail a1.
Qed.

Lemma merge_prev_c a m h :
  merge_prev h (of_c a) m = (let '(a, m, h) := fl_merge_prev a m h in Ok (h, of_c a, m)).
Proof.
  unfold merge_prev, fl_merge_prev, prev_phys. members. fold (of_c a).
  destruct (load64 m (h + 8) =? NULL); cbn [negb andb]; [done|].
  unfold hdr_used. destruct (Z.land _ 1 =? 0); cbn [negb]; [|done].
  rewrite fla_unlink_c. change (FreeList.payload_node _) with (payload_node (load64 m (h + 8))).
  destruct (fl_unlink _ _ _) as [a1 m1]. merge_tail a1.
Qed.

Lemma fla_upd_stats_c f a m : upd_stats f (of_c a) m = Ok ((), of_c (fl_set_stats a (f (fl_stats a))), m).
Proof. done. Qed.

Lemma fla_allocate_c a m size al :
  allocate size al (of_c a) m = '(a, m, p) ← fl_allocate a m size al; Ok (p, of_c a, m).
Proof.
  unfold allocate, fl_allocate, fl_need. rewrite align_up_eq.
  change kDefaultAlignment with HF_DEFAULT_ALIGN. change kMinBlock with FL_MIN.
  change kHeaderSize with FL_HDR. change header_of with FreeList.header_of.
  set (need := if _ <? FL_MIN then FL_MIN else _). clearbody need.
  run_meth. rewrite fla_upd_stats_c, find_fit_c. run_meth.
  destruct (FreeList.find_fit _ _ _) as [[a1 node]| | |]; [|done..].
  destruct (node =? NULL); [done|]. rewrite take_block_c.
  destruct (fl_carve _ _ _ _) as [a2 m2]. by destruct (al >? _).
Qed.

Lemma fla_deallocate_c nd a m p :
  deallocate nd p (of_c a) m = '(a, m) ← fl_deallocate nd a m p; Ok ((), of_c a, m).
Proof.
  unfold deallocate, fl_deallocate. destruct (p =? NULL); [done|].
  run_meth. rewrite fla_upd_stats_c, block_of_c. unfold hdr_used.
  unfold Header_used, Header_size, Header_set. run_meth. unfold c_assert. destruct (nd || _); [|done].
  rewrite fla_upd_stats_c, merge_next_c. unfold hdr_set, hdr_size.
  destruct (fl_merge_next _ _ _) as [a2 m2].
  rewrite merge_prev_c. destruct (fl_merge_prev _ _ _) as [[a3 m3] h3].
  rewrite insert_c. change (FreeList.payload_node h3) with (payload_node h3).
  by destruct (fl_insert _ _ _).
Qed.

Lemma fla_walk_from_c rounds a m c : walk_from rounds (of_c a) m c = fl_walk_loop rounds a m c.
Proof.
  revert c. induction rounds as [|rounds IH]; intros c; [done|]. cbn [walk_from fl_walk_loop].
  cbn [of_c base_ capacity_]. destruct (c <? _); [|done]. unfold hdr_size, hdr_used. rewrite IH.
  by destruct (fl_walk_loop _ _ _ _).
Qed.

#[export] Instance fla_port (nd : bool) : @Port fl_alloc t (FL_VT nd) (I nd) (λ s c, to_c s = c).
Proof.
  apply (port_onto of_c); [apply fla_to_of|apply fla_of_to|apply fla_allocate_c|apply fla_deallocate_c|by intros [? ? [] ? ? ?]|done|].
  intros a m. apply fla_walk_from_c.
Qed.

(** The constructors make the same object of the same mapping. *)
Lemma fla_ctor_c nd ps mmap m cap policy a m' :
  hf_free_list_create ps mmap true m cap (policy_c policy) = Some (a, m') →
  ∃ s, ctor nd ps mmap m cap policy = Ok (s, m') ∧ to_c s = a.
Proof.
  unfold hf_free_list_create, ctor. rewrite vm_reserve_eq, align_up_eq. cbn [negb].
  change kMinBlock with FL_MIN. destruct (_ =? NULL); [done|]. intros [= <- <-].
  unfold c_assert. cbn [negb]. rewrite orb_true_r. members. eexists. split; reflexivity.
Qed.
End FreeListAllocator.
