(* ===== verification/CppBuddy.v ===== *)
(** * The C++ buddy allocator ([include/heapforge/buddy_allocator.h])

    [BuddyAllocator] with its members and methods, and its relation to
    [hf_buddy.c].  [free_lists_] and [order_map_] are vectors: [operator[]]
    outside them is a fault. *)

From S2P Require Import Prelude Memory Platform Allocator Links Buddy Cpp.

Module BuddyAllocator.

Record t : Type := Make {
  base_ : Z;
  capacity_ : Z;
  min_order_ : Z;
  max_order_ : Z;
  free_lists_ : list Z;
  order_map_ : list Z;
  stats_ : AllocStats
}.

Definition kHeaderBytes : Z := 16.
Definition sizeof_FreeNode : Z := 16.

Definition upd_stats (f : AllocStats → AllocStats) : meth t unit :=
  modify (λ s, Make (base_ s) (capacity_ s) (min_order_ s) (max_order_ s) (free_lists_ s) (order_map_ s) (f (stats_ s))).

(** [free_lists_[o]] and [order_map_[i]] as values and as assignment targets. *)
Definition free_list (o : Z) : meth t Z := λ s, lift (arr_get (free_lists_ s) o) s.
Definition set_free_list (o v : Z) : meth t unit :=
  fls ← gets free_lists_;
  fls ← lift (arr_set fls o v);
  modify (λ s, Make (base_ s) (capacity_ s) (min_order_ s) (max_order_ s) fls (order_map_ s) (stats_ s)).
Definition order_at (i : Z) : meth t Z := λ s, lift (arr_get (order_map_ s) i) s.
Definition set_order_at (i v : Z) : meth t unit :=
  om ← gets order_map_;
  om ← lift (arr_set om i v);
  modify (λ s, Make (base_ s) (capacity_ s) (min_order_ s) (max_order_ s) (free_lists_ s) om (stats_ s)).

(** A [FreeNode] is [next] at 0 and [prev] at 8. *)
Definition prev_at (n : Z) : Z := n + 8.

Definition slot_of (p : Z) : meth t Z :=
  gets (λ s, Z.shiftr (wrap64 (p - base_ s)) (min_order_ s)).

Definition order_for (bytes : Z) : meth t Z :=
  o ← lift (log2_floor (next_pow2 bytes));
  mn ← gets min_order_;
  mret (if o <? mn then mn else o).

Definition push (n order : Z) : meth t unit :=
  store (prev_at n) NULL;;
  head ← free_list order;
  store n head;;
  next ← load n;
  non_null next (store (prev_at next) n);;
  set_free_list order n;;
  slot ← slot_of n;
  set_order_at slot (wrap8 (Z.lor order 0x40)).

Definition pop (order : Z) : meth t Z :=
  n ← free_list order;
  next ← load n;
  set_free_list order next;;
  next ← load n;
  non_null next (store (prev_at next) NULL);;
  mret n.

Definition unlink (n order : Z) : meth t unit :=
  prev ← load (prev_at n);
  next ← load n;
  (if negb (prev =? NULL) then store prev next else set_free_list order next);;
  next ← load n;
  prev ← load (prev_at n);
  non_null next (store (prev_at next) prev).

Definition mark_used (p order : Z) : meth t unit :=
  slot ← slot_of p;
  set_order_at slot (wrap8 (Z.lor (Z.lor order 0x80) 0x40)).

Definition is_free_at (buddy order : Z) : meth t bool :=
  slot ← slot_of buddy;
  enc ← order_at slot;
  mret (negb (Z.land enc 0x40 =? 0) && negb (negb (Z.land enc 0x80 =? 0)) && (Z.land enc 0x3F =? order)).

(** The constructor, which writes the first node: without the assert a
    failed [reserve] is a null dereference.  [min_block] defaults to 64. *)
Definition ctor (ndebug : bool) (ps : Z) (mmap : Z → option Z) (m : mem) (capacity min_block : Z) : outcome (t * mem) :=
  let floor := sizeof_FreeNode + kHeaderBytes in
  let min_block := next_pow2 (if min_block <? floor then floor else min_block) in
  let capacity := next_pow2 (if capacity <? min_block then min_block else capacity) in
  mn ← log2_floor min_block;
  mx ← log2_floor capacity;
  let base := vm_reserve ps mmap capacity in
  _ ← c_assert ndebug (negb (base =? NULL));
  if base =? NULL then Fault else
  '(_, s, m) ← push base mx
    (Make base capacity mn mx (replicate (Z.to_nat (mx + 1)) NULL)
       (replicate (Z.to_nat (Z.shiftr capacity mn)) 0) (stats_zero capacity)) m;
  Ok (s, m).

Definition dtor (s : t) : Z * Z := (base_ s, capacity_ s).

(** [while (o <= max_order_ && !free_lists_[o]) ++o;], with [n] rounds left. *)
Fixpoint search (n : nat) (o : Z) : meth t Z :=
  match n with
  | O => mret o
  | S n =>
      mx ← gets max_order_;
      if negb (o <=? mx) then mret o else
      head ← free_list o;
      if head =? NULL then search n (o + 1) else mret o
  end.

(** [while (o > order) { ... }]: [n = o - order] rounds. *)
Fixpoint split_down (n : nat) (blk o : Z) : meth t unit :=
  match n with
  | O => mret ()
  | S n => push (blk + Z.shiftl 1 (o - 1)) (o - 1);; split_down n blk (o - 1)
  end.

Definition allocate (size alignment : Z) : meth t Z :=
  let need := size +% kHeaderBytes in
  let need := if alignment >? need then alignment +% kHeaderBytes else need in
  order ← order_for need;
  upd_stats bump_alloc;;
  mx ← gets max_order_;
  if order >? mx then upd_stats bump_failed;; mret NULL else
  o ← search (Z.to_nat (mx + 1 - order)) order;
  if o >? mx then upd_stats bump_failed;; mret NULL else
  blk ← pop o;
  split_down (Z.to_nat (o - order)) blk o;;
  mark_used blk order;;
  upd_stats (λ st, set_used (used st +% Z.shiftl 1 order) st);;
  upd_stats raise_peak;;
  store blk order;;
  mret (blk + kHeaderBytes).

(** [while (order < max_order_) { ... }] with [n] rounds left; yields the
    final [off] and [order]. *)
Fixpoint merge_up (n : nat) (off order : Z) : meth t (Z * Z) :=
  match n with
  | O => mret (off, order)
  | S n =>
      s ← gets (λ s, s);
      if negb (order <? max_order_ s) then mret (off, order) else
      let buddy := base_ s + Z.lxor off (Z.shiftl 1 order) in
      free ← is_free_at buddy order;
      if negb free then mret (off, order) else
      unlink buddy order;;
      merge_up n (Z.land off (not64 (Z.shiftl 1 order))) (order + 1)
  end.

(** A shift by 64 or more is undefined. *)
Definition deallocate (ndebug : bool) (ptr : Z) : meth t unit :=
  if ptr =? NULL then mret () else
  upd_stats bump_free;;
  let blk := ptr - kHeaderBytes in
  tag ← load blk;
  let order := wrap32 tag in
  s ← gets (λ s, s);
  cassert ndebug ((order >=? min_order_ s) && (order <=? max_order_ s));;
  if order >=? 64 then lift Fault else
  upd_stats (λ st, set_used (used st -% Z.shiftl 1 order) st);;
  let off := wrap64 (blk - base_ s) in
  r ← merge_up (Z.to_nat (max_order_ s - order)) off order;
  base ← gets base_;
  push (base + r.1) r.2.

Definition name (s : t) : string := "Buddy".
Definition stats (s : t) : AllocStats := stats_ s.

(** The [while] loop of [walk] at [slot]: a round advances by a slot at least. *)
Fixpoint walk_from (rounds : nat) (s : t) (slot total : Z) : outcome (list cpp_BlockInfo) :=
  match rounds with
  | O => OutOfFuel
  | S rounds =>
      if negb (slot <? total) then Ok [] else
      enc ← arr_get (order_map_ s) slot;
      let order := Z.land enc 0x3F in
      let used := negb (Z.land enc 0x80 =? 0) in
      if (order =? 0) && negb (negb (Z.land enc 0x40 =? 0)) then walk_from rounds s (slot + 1) total else
      let sz := Z.shiftl 1 order in
      bs ← walk_from rounds s (slot +% Z.shiftr sz (min_order_ s)) total;
      Ok (BlockInfo (wrap64 (Z.shiftl slot (min_order_ s))) sz (negb used) :: bs)
  end.

Definition walk (s : t) (m : mem) : outcome (list cpp_BlockInfo) :=
  let total := Z.shiftr (capacity_ s) (min_order_ s) in
  walk_from (S (Z.to_nat total)) s 0 total.

#[export] Instance I (ndebug : bool) : IAllocator t := {
  ia_allocate := allocate;
  ia_deallocate := deallocate ndebug;
  ia_name := name;
  ia_stats := stats;
  ia_walk := walk;
  ia_released := Z * Z;
  ia_dtor := dtor
}.

(** ** Relation to the C buddy allocator *)

Definition to_c (s : t) : bd_alloc :=
  BdAlloc (base_ s) (capacity_ s) (min_order_ s) (max_order_ s) (free_lists_ s) (order_map_ s) (stats_ s).

Definition of_c (a : bd_alloc) : t :=
  Make (bd_mem a) (bd_capacity a) (min_order a) (max_order a) (free_lists a) (order_map a) (bd_stats a).

Lemma bda_to_of a : to_c (of_c a) = a.
Proof. by destruct a. Qed.
Lemma bda_of_to s : of_c (to_c s) = s.
Proof. by destruct s. Qed.

Ltac members :=
  unfold upd_stats, free_list, set_free_list, order_at, set_order_at, slot_of, prev_at; run_meth;
  cbn [of_c base_ capacity_ min_order_ max_order_ free_lists_ order_map_ stats_
       bd_set_lists bd_set_map bd_set_stats
       bd_mem bd_capacity min_order max_order free_lists order_map bd_stats].

Lemma push_c a m n o :
  push n o (of_c a) m = '(a, m) ← bd_push a m n o; Ok ((), of_c a, m).
Proof.
  unfold push, bd_push, Buddy.slot_of, set_next, set_prev, node_next. members.
  destruct (arr_get _ _); [|done..]. members.
  destruct (_ =? NULL); members; (destruct (arr_set _ o n); [|done..]); members;
    by destruct (arr_set _ _ _).
Qed.

Lemma pop_c a m o :
  pop o (of_c a) m = '(a, m, n) ← bd_pop a m o; Ok (n, of_c a, m).
Proof.
  unfold pop, bd_pop, set_prev, node_next. members.
  destruct (arr_get _ _); [|done..]. members. destruct (arr_set _ _ _); [|done..]. members.
  by destruct (_ =? NULL).
Qed.

Lemma bda_unlink_c a m n o :
  unlink n o (of_c a) m = '(a, m) ← bd_unlink a m n o; Ok ((), of_c a, m).
Proof.
  unfold unlink, bd_unlink, set_prev, set_next, node_next, node_prev. members.
  destruct (load64 m (n + 8) =? NULL); cbn [negb]; members.
  - destruct (arr_set _ _ _); [|done..]. members. by destruct (_ =? NULL).
  - by destruct (_ =? NULL).
Qed.

Lemma mark_used_c a m p o :
  mark_used p o (of_c a) m = a ← bd_mark_used a p o; Ok ((), of_c a, m).
Proof.
  unfold mark_used, bd_mark_used, Buddy.slot_of. members. by destruct (arr_set _ _ _).
Qed.

Lemma is_free_at_c a m b o :
  is_free_at b o (of_c a) m = free ← bd_is_free_at a b o; Ok (free, of_c a, m).
Proof.
  unfold is_free_at, bd_is_free_at, Buddy.slot_of. members. destruct (arr_get _ _); [|done..].
  by rewrite negb_involutive.
Qed.

Lemma order_for_c a m bytes :
  order_for bytes (of_c a) m = Ok (Buddy.order_for a bytes, of_c a, m).
Proof.
  unfold order_for, Buddy.order_for. rewrite next_pow2_eq, log2_floor_c; [done|].
  unfold hf_next_pow2. destruct (_ <=? 1); [done|]. apply wrap64_range.
Qed.

Lemma search_c a m n o :
  search n o (of_c a) m = o ← bd_search a o n; Ok (o, of_c a, m).
Proof.
  revert o. induction n as [|n IH]; intros o; [done|]. cbn [search bd_search]. members. fold (of_c a).
  destruct (o <=? _); cbn [negb]; [|done]. destruct (arr_get _ _) as [h| | |]; [|done..].
  destruct (h =? NULL); [apply IH|done].
Qed.

Lemma split_down_c a m n blk o :
  split_down n blk o (of_c a) m = '(a, m) ← bd_split_loop a m blk o n; Ok ((), of_c a, m).
Proof.
  revert a m o. induction n as [|n IH]; intros a m o; [done|]. cbn [split_down bd_split_loop]. run_meth.
  rewrite push_c. run_meth. destruct (bd_push _ _ _ _) as [[a' m']| | |]; [|done..]. apply IH.
Qed.

Lemma merge_up_c a m n off o :
  merge_up n off o (of_c a) m =
    '(a, m, off, o) ← bd_merge_loop a m off o n; Ok ((off, o), of_c a, m).
Proof.
  revert a m off o. induction n as [|n IH]; intros a m off o; [done|].
  cbn [merge_up bd_merge_loop]. members. fold (of_c a).
  destruct (o <? _); cbn [negb]; [|done]. rewrite is_free_at_c. run_meth.
  destruct (bd_is_free_at _ _ _) as [[]| | |]; [|done..]. cbn [negb].
  rewrite bda_unlink_c. run_meth. destruct (bd_unlink _ _ _ _) as [[a' m']| | |]; [|done..]. apply IH.
Qed.

Lemma bda_upd_stats_c f a m : upd_stats f (of_c a) m = Ok ((), of_c (bd_set_stats a (f (bd_stats a))), m).
Proof. done. Qed.

Lemma bda_allocate_c a m size al :
  allocate size al (of_c a) m = '(a, m, p) ← bd_allocate a m size al; Ok (p, of_c a, m).
Proof.
  unfold allocate, bd_allocate, bd_need. change kHeaderBytes with BD_HDR.
  set (need := if _ >? _ then _ else _). clearbody need.
  run_meth. rewrite order_for_c, bda_upd_stats_c. set (a1 := bd_set_stats a _).
  change (max_order_ (of_c a1)) with (max_order a). change (max_order a1) with (max_order a).
  destruct (_ >? max_order a); [done|]. rewrite search_c. run_meth.
  destruct (bd_search _ _ _) as [o| | |]; [|done..].
  change (max_order_ (of_c a1)) with (max_order a). change (max_order a1) with (max_order a).
  destruct (o >? max_order a); [done|]. rewrite pop_c. run_meth.
  destruct (bd_pop _ _ _) as [[[a2 m2] blk]| | |]; [|done..]. rewrite split_down_c. run_meth.
  destruct (bd_split_loop _ _ _ _ _) as [[a3 m3]| | |]; [|done..]. rewrite mark_used_c. run_meth.
  by destruct (bd_mark_used _ _ _).
Qed.

Lemma bda_deallocate_c nd a m p :
  deallocate nd p (of_c a) m = '(a, m) ← bd_deallocate nd a m p; Ok ((), of_c a, m).
Proof.
  unfold deallocate, bd_deallocate. destruct (p =? NULL); [done|].
  change kHeaderBytes with BD_HDR. run_meth. rewrite bda_upd_stats_c. set (a1 := bd_set_stats a _).
  set (order := wrap32 _).
  change (min_order_ (of_c a1)) with (min_order a1). change (max_order_ (of_c a1)) with (max_order a1).
  change (base_ (of_c a1)) with (bd_mem a1).
  unfold c_assert. destruct (nd || _); [|done]. destruct (order >=? 64); [done|].
  rewrite bda_upd_stats_c, merge_up_c. run_meth. cbn [bd_set_stats max_order bd_mem bd_stats].
  destruct (bd_merge_loop _ _ _ _ _) as [[[[a2 m2] off] o]| | |]; [|done..].
  cbn [fst snd]. change (base_ (of_c a2)) with (bd_mem a2). rewrite push_c. run_meth.
  by destruct (bd_push _ _ _ _) as [[? ?]| | |].
Qed.

Lemma bda_walk_from_c rounds a slot total : walk_from rounds (of_c a) slot total = bd_walk_loop rounds a slot total.
Proof.
  revert slot. induction rounds as [|rounds IH]; intros slot; [done|]. cbn [walk_from bd_walk_loop].
  cbn [of_c order_map_ min_order_]. destruct (slot <? total); cbn [negb]; [|done].
  destruct (arr_get _ _) as [enc| | |]; [|done..]. cbn [mbind outcome_bind]. rewrite negb_involutive.
  destruct (_ && _); [apply IH|]. by rewrite IH.
Qed.

#[export] Instance bda_port (nd : bool) : @Port bd_alloc t (BD_VT nd) (I nd) (λ s c, to_c s = c).
Proof.
  apply (port_onto of_c); [apply bda_to_of|apply bda_of_to|apply bda_allocate_c|apply bda_deallocate_c|done|done|].
  intros a m. apply bda_walk_from_c.
Qed.

(** The constructors make the same object of the same mapping. *)
Lemma bda_ctor_c nd ps mmap m cap min_block a m' :
  hf_buddy_create ps mmap true true true m cap min_block = Ok (Some (a, m')) →
  ∃ s, ctor nd ps mmap m cap min_block = Ok (s, m') ∧ to_c s = a.
Proof.
  unfold hf_buddy_create, ctor. rewrite vm_reserve_eq, next_pow2_eq. cbn [negb orb].
  change (sizeof_FreeNode + kHeaderBytes) with (16 + BD_HDR).
  set (mb := if min_block <? _ then _ else _). set (cp := if cap <? _ then _ else _).
  assert (∀ n, is_u64 (hf_next_pow2 n)) as Hu.
  { intros n. unfold hf_next_pow2. destruct (_ <=? 1); [done|]. apply wrap64_range. }
  rewrite !log2_floor_c by apply Hu. cbn [mbind outcome_bind].
  destruct (_ =? NULL); [done|]. set (a0 := BdAlloc _ _ _ _ _ _ _). intros H.
  unfold c_assert. cbn [negb]. rewrite orb_true_r.
  change (Make _ _ _ _ _ _ _) with (of_c a0). rewrite push_c.
  destruct (bd_push _ _ _ _) as [[a1 m1]| | |]; try done. injection H as -> ->.
  exists (of_c a). split; [done|apply bda_to_of].
Qed.
End BuddyAllocator.
