(* ===== verification/CppSlab.v ===== *)
(** * The C++ slab allocator ([include/heapforge/slab_allocator.h])

    [SlabAllocator] with its members and methods.  [magazine] returns a
    reference to a function-local [thread_local]: one variable per thread,
    whichever object it is called on, so the world of a method is the object,
    the magazines and the mappings of the process.  A [std::vector] keeps the
    slabs; where the C code can fail to grow its array after linking the new
    slots, [push_back] cannot return, so the class corresponds to the C
    allocator whose [realloc] succeeds. *)

From S2P Require Import Prelude Memory Platform Allocator Slab SlabProofs Cpp.

Module SlabAllocator.

Record t : Type := Make {
  obj_size_ : Z;
  slab_bytes_ : Z;
  slots_per_slab_ : Z;
  slabs_ : list Z;
  central_free_ : Z;
  stats_ : AllocStats
}.

(** The object, the magazine of each thread, the mappings of the process. *)
Record world : Type := World {
  self : t;
  tl_mag : gmap nat Z;
  maps : list (Z * Z)
}.

Definition upd (f : t → t) : meth world unit := modify (λ w, World (f (self w)) (tl_mag w) (maps w)).
Definition upd_stats (f : AllocStats → AllocStats) : meth world unit :=
  upd (λ s, Make (obj_size_ s) (slab_bytes_ s) (slots_per_slab_ s) (slabs_ s) (central_free_ s) (f (stats_ s))).
Definition set_central_free (v : Z) : meth world unit :=
  upd (λ s, Make (obj_size_ s) (slab_bytes_ s) (slots_per_slab_ s) (slabs_ s) v (stats_ s)).
Definition push_slab (mem : Z) : meth world unit :=
  upd (λ s, Make (obj_size_ s) (slab_bytes_ s) (slots_per_slab_ s) (slabs_ s ++ [mem]) (central_free_ s) (stats_ s)).

(** [magazine()] of thread [th] as a value and as an assignment target. *)
Definition magazine (th : nat) : meth world Z := gets (λ w, default NULL (tl_mag w !! th)).
Definition set_magazine (th : nat) (v : Z) : meth world unit :=
  modify (λ w, World (self w) (<[th := v]> (tl_mag w)) (maps w)).

(** [sizeof(Slot)]; [next] is its only member. *)
Definition sizeof_Slot : Z := 8.
Definition kBatch : Z := 32.

(** A size that rounds to 0 makes the division trap. *)
Definition ctor (ndebug : bool) (ps object_size slab_bytes : Z) : outcome t :=
  let obj := align_up (if object_size <? sizeof_Slot then sizeof_Slot else object_size) kDefaultAlignment in
  let bytes := align_up slab_bytes ps in
  if obj =? 0 then Fault else
  let slots := bytes / obj in
  _ ← c_assert ndebug (slots >? 0);
  Ok (Make obj bytes slots [] NULL (stats_zero 0)).

(** The regions the destructor releases. *)
Definition dtor (w : world) : list (Z * Z) :=
  (λ s, (s, slab_bytes_ (self w))) <$> slabs_ (self w).

(** [for (i = slots_per_slab_; i-- > 0;)]. *)
Fixpoint link_slots (i : nat) (base obj : Z) : meth world unit :=
  match i with
  | O => mret ()
  | S i =>
      let s := base + Z.of_nat i * obj in
      head ← gets (λ w, central_free_ (self w));
      store s head;;
      set_central_free s;;
      link_slots i base obj
  end.

Section os.
(** The page size and what [mmap] answers given the current mappings. *)
Context (ps : Z) (mmap : list (Z * Z) → Z → option Z).

Definition grow : meth world unit :=
  w ← gets (λ w, w);
  let base := vm_reserve ps (mmap (maps w)) (slab_bytes_ (self w)) in
  if base =? NULL then mret () else
  modify (λ w, World (self w) (tl_mag w) ((base, align_up (slab_bytes_ (self w)) ps) :: maps w));;
  link_slots (Z.to_nat (slots_per_slab_ (self w))) base (obj_size_ (self w));;
  push_slab base;;
  upd_stats (grow_capacity (slab_bytes_ (self w))).

(** [while (tail->next && n < kBatch)], from [n = kBatch - k]. *)
Fixpoint batch_tail (k : nat) (tail : Z) : meth world Z :=
  match k with
  | O => mret tail
  | S k =>
      next ← load tail;
      if negb (next =? NULL) then batch_tail k next else mret tail
  end.

Definition refill_magazine (th : nat) : meth world unit :=
  c ← gets (λ w, central_free_ (self w));
  when (c =? NULL) grow;;
  head ← gets (λ w, central_free_ (self w));
  if head =? NULL then mret () else
  tail ← batch_tail (Z.to_nat (kBatch - 1)) head;
  next ← load tail;
  set_central_free next;;
  store tail NULL;;
  set_magazine th head.

(** The end of [allocate], once the magazine has been refilled. *)
Definition take (th : nat) : meth world Z :=
  s ← magazine th;
  if s =? NULL then upd_stats bump_failed;; mret NULL else
  next ← load s;
  set_magazine th next;;
  obj ← gets (λ w, obj_size_ (self w));
  upd_stats (λ st, set_used (used st +% obj) st);;
  upd_stats raise_peak;;
  mret s.

Definition allocate (th : nat) (size alignment : Z) : meth world Z :=
  upd_stats bump_alloc;;
  obj ← gets (λ w, obj_size_ (self w));
  if size >? obj then upd_stats bump_failed;; mret NULL else
  mag ← magazine th;
  when (mag =? NULL) (refill_magazine th);;
  take th.

Definition deallocate (th : nat) (ptr : Z) : meth world unit :=
  if ptr =? NULL then mret () else
  upd_stats bump_free;;
  obj ← gets (λ w, obj_size_ (self w));
  upd_stats (λ st, set_used (used st -% obj) st);;
  mag ← magazine th;
  store ptr mag;;
  set_magazine th ptr.

Definition name (w : world) : string := "Slab".
Definition stats (w : world) : AllocStats := stats_ (self w).
Definition object_size (w : world) : Z := obj_size_ (self w).

(** The [for] loop of [walk] over [n] more slabs. *)
Fixpoint walk_from (n : nat) (bytes off remaining_used : Z) : list cpp_BlockInfo :=
  match n with
  | O => []
  | S n =>
      let used_bytes := if remaining_used <? bytes then remaining_used else bytes in
      (if used_bytes =? 0 then [] else [BlockInfo off used_bytes false]) ++
      (if used_bytes <? bytes then [BlockInfo (off +% used_bytes) (bytes -% used_bytes) true] else []) ++
      walk_from n bytes (off +% bytes) (remaining_used -% used_bytes)
  end.

Definition walk (w : world) (m : mem) : outcome (list cpp_BlockInfo) :=
  Ok (walk_from (length (slabs_ (self w))) (slab_bytes_ (self w)) 0 (used (stats_ (self w)))).

#[export] Instance I (th : nat) : IAllocator world := {
  ia_allocate := allocate th;
  ia_deallocate := deallocate th;
  ia_name := name;
  ia_stats := stats;
  ia_walk := walk;
  ia_released := list (Z * Z);
  ia_dtor := dtor
}.
End os.

(** ** Relation to the C slab allocator *)

(** The C struct with the members of the object and [cap] elements allocated
    for its array of slabs. *)
Definition to_c (cap : Z) (w : world) : sl_world :=
  SlWorld (SlAlloc (obj_size_ (self w)) (slab_bytes_ (self w)) (slots_per_slab_ (self w)) (slabs_ (self w))
             cap (central_free_ (self w)) (stats_ (self w)))
    (tl_mag w) (maps w).

(** The same world but for the size of the array. *)
Definition same (w : world) (w' : sl_world) : Prop := ∃ cap, w' = to_c cap w.

Ltac members :=
  unfold upd_stats, set_central_free, push_slab, upd, magazine, set_magazine; run_meth;
  cbn [self tl_mag maps obj_size_ slab_bytes_ slots_per_slab_ slabs_ central_free_ stats_].

(** The loop of [grow] writes what the loop of [sl_grow] writes. *)
Lemma link_slots_c i base obj w m :
  link_slots i base obj w m =
    (let '(m', head) := sl_link m base obj i (central_free_ (self w)) in
     Ok ((), World (Make (obj_size_ (self w)) (slab_bytes_ (self w)) (slots_per_slab_ (self w))
                      (slabs_ (self w)) head (stats_ (self w))) (tl_mag w) (maps w), m')).
Proof.
  revert w m. induction i as [|i IH]; intros w m; [by destruct w as [[] ? ?]|].
  cbn [link_slots sl_link]. members. by rewrite IH.
Qed.

Lemma batch_tail_c k tail w m : batch_tail k tail w m = Ok (sl_batch m tail k, w, m).
Proof.
  revert tail. induction k as [|k IH]; intros tail; [done|]. cbn [batch_tail sl_batch]. members.
  unfold slot_next. by destruct (load64 m tail =? NULL); cbn [negb]; [|rewrite IH].
Qed.

Section relation.
Context (ps : Z) (mmap : list (Z * Z) → Z → option Z).

Abbreviation c_grow := (sl_grow ps mmap (λ _, true)).
Abbreviation c_refill := (sl_refill ps mmap (λ _, true)).

Lemma grow_c cap w m : ∃ cap' w' m',
  grow ps mmap w m = Ok ((), w', m') ∧ c_grow (to_c cap w) m = (to_c cap' w', m').
Proof.
  unfold grow, sl_grow. members. rewrite vm_reserve_eq, align_up_eq. cbn [to_c w_alloc w_maps slab_bytes].
  destruct (_ =? NULL); [by exists cap, w, m|]. rewrite link_slots_c.
  cbn [self tl_mag maps obj_size_ slab_bytes_ slots_per_slab_ slabs_ central_free_ stats_
       obj_size slots_per_slab central_free].
  destruct (sl_link _ _ _ _ _) as [m' head]. rewrite andb_false_r. by eexists _, _, _.
Qed.

Lemma refill_c cap th w m : ∃ cap' w' m',
  refill_magazine ps mmap th w m = Ok ((), w', m') ∧ c_refill (to_c cap w) m th = (to_c cap' w', m').
Proof.
  unfold refill_magazine, sl_refill. members. cbn [to_c w_alloc central_free].
  assert (∃ cap' w' m', (if central_free_ (self w) =? NULL then grow ps mmap else λ w m, Ok ((), w, m)) w m
      = Ok ((), w', m') ∧
    (if central_free_ (self w) =? NULL then c_grow (to_c cap w) m else (to_c cap w, m)) = (to_c cap' w', m'))
    as (cap' & w' & m' & -> & ->).
  { destruct (_ =? NULL); [apply grow_c|by exists cap, w, m]. }
  cbn [to_c w_alloc central_free]. destruct (central_free_ (self w') =? NULL); [by exists cap', w', m'|].
  rewrite batch_tail_c. by eexists cap', _, _.
Qed.

Lemma take_c th cap w m :
  same_outcome (same_result same)
    (take th w m)
    (let bump f w := w_set_alloc w (sl_set_stats (w_alloc w) (f (sl_stats (w_alloc w)))) in
     let w := to_c cap w in
     if Slab.magazine w th =? NULL then Ok (bump bump_failed w, m, NULL) else
     let s := Slab.magazine w th in
     let w := w_set_mag w th (slot_next m s) in
     let w := bump (λ st, raise_peak (set_used (used st +% obj_size (w_alloc w)) st)) w in
     Ok (w, m, s)).
Proof.
  unfold take. members. unfold Slab.magazine. cbn [to_c tl_magazine].
  destruct (default NULL (tl_mag w !! th) =? NULL); (split_and!; [done|by exists cap|done]).
Qed.

Lemma sla_allocate_c th cap w m size al :
  same_outcome (same_result same) (allocate ps mmap th size al w m)
    (sl_allocate ps mmap (λ _, true) th (to_c cap w) m size al).
Proof.
  unfold allocate, sl_allocate. members.
  cbn [to_c w_set_alloc w_alloc obj_size sl_set_stats]. destruct (size >? _).
  { split_and!; [done|by exists cap|done]. }
  set (w1 := World _ _ _).
  change (w_set_alloc (to_c cap w) _) with (to_c cap w1).
  change (Slab.magazine (to_c cap w1) th) with (default NULL (tl_mag w1 !! th)) at 1.
  destruct (default NULL (tl_mag w1 !! th) =? NULL).
  - destruct (refill_c cap th w1 m) as (cap' & w' & m' & -> & ->). apply take_c.
  - apply (take_c th cap w1 m).
Qed.

Lemma sla_deallocate_c th cap w m p :
  same_outcome (same_state same) (deallocate th p w m) (sl_deallocate th (to_c cap w) m p).
Proof.
  unfold deallocate, sl_deallocate. destruct (p =? NULL); [split; [by exists cap|done]|].
  members. split; [by exists cap|done].
Qed.

Lemma sla_walk_from_c n bytes off rem : walk_from n bytes off rem = sl_walk_loop bytes off rem n.
Proof.
  revert off rem. induction n as [|n IH]; intros off rem; [done|]. cbn [walk_from sl_walk_loop].
  by rewrite IH.
Qed.

#[export] Instance sla_port (th : nat) :
  @Port sl_world world (SL_VT ps mmap (λ _, true) th) (I ps mmap th) same.
Proof.
  split.
  - intros w ? m size al [cap ->]. apply sla_allocate_c.
  - intros w ? m p [cap ->]. apply sla_deallocate_c.
  - by intros w ? [cap ->].
  - by intros w ? [cap ->].
  - intros w ? m [cap ->]. unfold ia_walk, I, walk. by rewrite sla_walk_from_c.
Qed.

(** The constructors make the same object; the C one returns [NULL] where
    the class asserts, and takes a slab size of 0 for 64 KiB. *)
Lemma sla_ctor_c nd sb osz a tl mp : sb ≠ 0 → hf_slab_create ps true osz sb = Ok (Some a) →
  ∃ s, ctor nd ps osz sb = Ok s ∧ same (World s tl mp) (SlWorld a tl mp).
Proof.
  intros Hsb. unfold hf_slab_create, ctor. rewrite align_up_eq.
  change kDefaultAlignment with HF_DEFAULT_ALIGN. change sizeof_Slot with 8. apply Z.eqb_neq in Hsb.
  rewrite Hsb. set (obj := hf_align_up _ HF_DEFAULT_ALIGN). set (bytes := hf_align_up sb ps).
  destruct (Z.eqb_spec obj 0) as [|Ho]; [done|]. destruct (Z.eqb_spec (bytes / obj) 0) as [|Hn]; [done|].
  cbn [negb]. intros [= <-]. assert (0 ≤ bytes / obj).
  { apply Z.div_pos; [apply Z.land_nonneg; left; apply wrap64_range|].
    assert (0 ≤ obj) by (apply Z.land_nonneg; left; apply wrap64_range). lia. }
  unfold c_assert. assert ((bytes / obj >? 0) = true) as -> by (apply Z.gtb_lt; lia).
  rewrite orb_true_r. eexists. split; [reflexivity|]. by exists 0.
Qed.
End relation.
End SlabAllocator.
