(* ===== verification/CppPorts.v ===== *)
(** * What the C++ allocators share with the C ones

    The claims about the five C++ allocators that run the algorithm of a C
    allocator: an object constructed from the same mapping answers every
    sequence of calls as the C allocator does, and keeps the promises proved
    of the C allocator to its clients. *)

From S2P Require Import Prelude Memory Platform Allocator Stack BlockPool FreeList FreeListSpec.
From S2P Require Import Buddy BuddySpec Slab SlabProofs.
From S2P Require Import Cpp CppStack CppBlockPool CppFreeList CppBuddy CppSlab.

(** C28. The C++ free list.  From the same mapping, [FreeListAllocator] and the
    C free list answer every sequence of calls alike - arbitrary sizes,
    alignments, pointers and writes to memory, in both builds - and die alike;
    and every program that stays within the contract runs safely on it: no
    fault, no failed assert, live blocks aligned, apart, and keeping what was
    written. *)
Theorem cpp_free_list_same nd ps mmap m0 cap policy a m :
  hf_free_list_create ps mmap true m0 cap (FreeListAllocator.policy_c policy) = Some (a, m) →
  ∃ s, FreeListAllocator.ctor nd ps mmap m0 cap policy = Ok (s, m) ∧
    (∀ ks, observe (λ _, IAllocator_vtable (IAllocator0 := FreeListAllocator.I nd)) s m ks =
           observe (λ _, FL_VT nd) a m ks) ∧
    (page_size_ok ps → mmap_ok ps mmap → 0 ≤ cap ≤ 2 ^ 62 → ∀ os, Forall (op_ok (2 ^ 62)) os →
     ∃ c, client_run (hf_allocator_vtable0 := IAllocator_vtable (IAllocator0 := FreeListAllocator.I nd))
            (Client s m ∅ ∅) os = Ok c ∧ client_ok kDefaultAlignment c).
Proof.
  intros Hc. destruct (FreeListAllocator.fla_ctor_c nd _ _ _ _ _ _ _ Hc) as (s & Hs & Hto).
  exists s. split; [done|]. split.
  - intros ks. apply (port_observe _ _ (λ s c, FreeListAllocator.to_c s = c)); [|done].
    intros _. apply FreeListAllocator.fla_port.
  - intros Hps Hm Hcap os Hos. pose proof (fl_create_inv _ _ _ _ _ _ _ _ Hps Hm Hcap Hc) as Hinv.
    destruct (client_run_ok (AllocatorSpec0 := port_spec (Port0 := FreeListAllocator.fla_port nd) _
      (AllocatorSpec0 := fl_spec nd)) s m ∅ os) as (c & Hrun & Hok & _); [by exists a|done|]. by exists c.
Qed.

(** Witness of C28: a one-page best-fit heap. *)
Lemma cpp_free_list_same_witness :
  ∃ s, FreeListAllocator.ctor false 4096 ex_mmap ∅ 4096 FreeListAllocator.BestFit = Ok (s, (ex_heap HF_FIT_BEST).2) ∧
    observe (λ _, IAllocator_vtable (IAllocator0 := FreeListAllocator.I false)) s (ex_heap HF_FIT_BEST).2
        [(0%nat, Allocate 100 64); (1%nat, Deallocate (2 ^ 20 + 64)); (0%nat, Walk); (0%nat, Deallocate 5)] =
      ([APtr (2 ^ 20 + 64); ADone; ALayout [BlockInfo 0 4096 true]], Abort) ∧
    ∃ c, client_run (hf_allocator_vtable0 := IAllocator_vtable (IAllocator0 := FreeListAllocator.I false))
           (Client s (ex_heap HF_FIT_BEST).2 ∅ ∅) [CAlloc 100; CWrite (2 ^ 20 + 20) 7; CFree (2 ^ 20 + 16)] = Ok c ∧
         client_ok kDefaultAlignment c.
Proof.
  destruct (cpp_free_list_same false 4096 ex_mmap ∅ 4096 FreeListAllocator.BestFit (ex_heap HF_FIT_BEST).1
    (ex_heap HF_FIT_BEST).2 (ex_heap_created HF_FIT_BEST)) as (s & Hs & Ho & Hc).
  exists s. split; [exact Hs|]. split.
  - rewrite Ho. vm_compute. reflexivity.
  - apply Hc; [apply page_4096_ok|apply ex_mmap_ok|lia|]. repeat constructor; simpl; lia.
Defined.

(** C29. The C++ buddy allocator.  From the same mapping, [BuddyAllocator] and
    the C buddy allocator answer every sequence of calls alike, and die alike;
    and every program within the contract runs safely on it. *)
Theorem cpp_buddy_same nd ps mmap m0 cap mb a m :
  hf_buddy_create ps mmap true true true m0 cap mb = Ok (Some (a, m)) →
  ∃ s, BuddyAllocator.ctor nd ps mmap m0 cap mb = Ok (s, m) ∧
    (∀ ks, observe (λ _, IAllocator_vtable (IAllocator0 := BuddyAllocator.I nd)) s m ks =
           observe (λ _, BD_VT nd) a m ks) ∧
    (page_size_ok ps → mmap_ok ps mmap → 0 ≤ cap ≤ 2 ^ 62 → 0 ≤ mb ≤ 2 ^ 62 →
     ∀ os, Forall (op_ok (2 ^ 62)) os →
     ∃ c, client_run (hf_allocator_vtable0 := IAllocator_vtable (IAllocator0 := BuddyAllocator.I nd))
            (Client s m ∅ ∅) os = Ok c ∧ client_ok kDefaultAlignment c).
Proof.
  intros Hc. destruct (BuddyAllocator.bda_ctor_c nd _ _ _ _ _ _ _ Hc) as (s & Hs & Hto).
  exists s. split; [done|]. split.
  - intros ks. apply (port_observe _ _ (λ s c, BuddyAllocator.to_c s = c)); [|done].
    intros _. apply BuddyAllocator.bda_port.
  - intros Hps Hm Hcap Hmb os Hos.
    pose proof (bd_create_inv _ _ _ _ _ _ _ _ _ _ Hps Hm Hcap Hmb Hc) as Hinv.
    destruct (client_run_ok (AllocatorSpec0 := port_spec (Port0 := BuddyAllocator.bda_port nd) _
      (AllocatorSpec0 := bd_spec nd)) s m ∅ os) as (c & Hrun & Hok & _); [by exists a|done|]. by exists c.
Qed.

(** Witness of C29: a one-page arena, an allocation and a free. *)
Lemma cpp_buddy_same_witness :
  ∃ s, BuddyAllocator.ctor false 4096 ex_mmap ∅ 4096 64 = Ok (s, ex_buddy.2) ∧
    observe (λ _, IAllocator_vtable (IAllocator0 := BuddyAllocator.I false)) s ex_buddy.2
        [(0%nat, Allocate 100 16); (0%nat, Name); (1%nat, Deallocate (2 ^ 20 + 16)); (0%nat, Walk)] =
      ([APtr (2 ^ 20 + 16); AName "Buddy"; ADone; ALayout [BlockInfo 0 4096 true]],
       (observe (λ _, BD_VT false) ex_buddy.1 ex_buddy.2 [(0%nat, Allocate 100 16); (1%nat, Deallocate (2 ^ 20 + 16))]).2) ∧
    ∃ c, client_run (hf_allocator_vtable0 := IAllocator_vtable (IAllocator0 := BuddyAllocator.I false))
           (Client s ex_buddy.2 ∅ ∅) [CAlloc 100; CWrite (2 ^ 20 + 20) 7; CFree (2 ^ 20 + 16)] = Ok c ∧
         client_ok kDefaultAlignment c.
Proof.
  destruct (cpp_buddy_same false 4096 ex_mmap ∅ 4096 64 ex_buddy.1 ex_buddy.2) as (s & Hs & Ho & Hc);
    [vm_compute; reflexivity|].
  exists s. split; [exact Hs|]. split.
  - rewrite Ho. vm_compute. reflexivity.
  - apply Hc; [apply page_4096_ok|apply ex_mmap_ok|lia|lia|]. repeat constructor; simpl; lia.
Defined.

(** The C++ block pool and stack.  From the same mapping, the classes
    [BlockPool] and [StackAllocator] answer every sequence of calls as the C
    allocators do and die alike, and so do the stack's marks and rewinds. *)
Theorem cpp_fixed_same nd ps mmap :
  (∀ size count a, hf_block_pool_create ps mmap true true size count = Some a →
    ∃ s, BlockPoolCpp.ctor nd ps mmap size count = Ok s ∧
      ∀ m ks, observe (λ _, IAllocator_vtable (IAllocator0 := BlockPoolCpp.I nd)) s m ks =
              observe (λ _, BP_VT nd) a m ks) ∧
  (∀ cap a, cap ≠ 0 → hf_stack_create ps mmap true cap = Some a →
    ∃ s, StackAllocator.ctor nd ps mmap cap = Ok s ∧
      ∀ m ks, observe (λ _, IAllocator_vtable (IAllocator0 := StackAllocator.I nd)) s m ks =
              observe (λ _, ST_VT nd) a m ks) ∧
  (∀ s m mk, StackAllocator.mark s = hf_stack_mark (StackAllocator.to_c s) ∧
    ('(_, s, m) ← StackAllocator.rewind nd mk s m; Ok (StackAllocator.to_c s, m)) =
      (a ← hf_stack_rewind nd (StackAllocator.to_c s) mk; Ok (a, m))).
Proof.
  split_and!.
  - intros size count a Hc. destruct (BlockPoolCpp.bpc_ctor_c nd _ _ _ _ _ Hc) as (s & Hs & Hto).
    exists s. split; [done|]. intros m ks. apply (port_observe _ _ (λ s c, BlockPoolCpp.to_c s = c)); [|done].
    intros _. apply BlockPoolCpp.bpc_port.
  - intros cap a Hz Hc. destruct (StackAllocator.sta_ctor_c nd _ _ _ _ Hz Hc) as (s & Hs & Hto).
    exists s. split; [done|]. intros m ks. apply (port_observe _ _ (λ s c, StackAllocator.to_c s = c)); [|done].
    intros _. apply StackAllocator.sta_port.
  - intros s m mk. split; [done|]. apply StackAllocator.rewind_c.
Qed.

(** Threads taking turns on one [SlabAllocator]. *)
Fixpoint slab_threads (ps : Z) (mmap : list (Z * Z) → Z → option Z) (c : client SlabAllocator.world)
    (os : list (nat * client_op)) : outcome (client SlabAllocator.world) :=
  match os with
  | [] => Ok c
  | (t, o) :: os =>
      c ← client_step (hf_allocator_vtable0 := IAllocator_vtable (IAllocator0 := SlabAllocator.I ps mmap t)) c o;
      slab_threads ps mmap c os
  end.

Lemma slab_threads_safe ps mmap w m os :
  page_size_ok ps → mmap_fresh ps mmap → (∃ a, SlabAllocator.same w a ∧ sl_inv a m ∅) →
  Forall (λ to, op_ok (2 ^ 62) to.2) os →
  ∃ c, slab_threads ps mmap (Client w m ∅ ∅) os = Ok c ∧ client_ok kDefaultAlignment c.
Proof.
  intros Hps Hmm Hinv Hos.
  set (spec t := port_spec (Port0 := SlabAllocator.sla_port ps mmap t) _
    (AllocatorSpec0 := sl_spec ps mmap (λ _, true) Hps Hmm (λ _, eq_refl) t)).
  set (c0 := Client w m ∅ ∅). assert (client_inv (AllocatorSpec0 := spec 0%nat) c0) as H0.
  { split; [done|]. intros x v. simpl. by rewrite lookup_empty. }
  clearbody c0. revert c0 H0. induction Hos as [|[t o] os Ho _ IH]; intros c0 H0.
  - exists c0. split; [done|]. by apply (client_inv_ok (AllocatorSpec0 := spec 0%nat)).
  - destruct (client_step_safe (AllocatorSpec0 := spec t) c0 o H0 Ho) as (c1 & E & H1).
    simpl. rewrite E. cbn [mbind outcome_bind]. apply IH. exact H1.
Qed.

(** The C++ slab allocator under threads.  With the magazines of the
    process, any interleaving of calls by any threads on a [SlabAllocator]
    gives the answers and the memory of the C slab allocator whose [realloc]
    never fails; and every program of the threads within the contract runs
    safely, as long as this is the only slab allocator of the process. *)
Theorem cpp_slab_same nd ps mmap osz sb a maps m :
  sb ≠ 0 → hf_slab_create ps true osz sb = Ok (Some a) →
  ∃ s, SlabAllocator.ctor nd ps osz sb = Ok s ∧
    (∀ tl ks, observe (λ t, IAllocator_vtable (IAllocator0 := SlabAllocator.I ps mmap t)) (SlabAllocator.World s tl maps) m ks =
              observe (SL_VT ps mmap (λ _, true)) (SlWorld a tl maps) m ks) ∧
    (page_size_ok ps → mmap_fresh ps mmap → 0 ≤ osz ≤ 2 ^ 30 → 0 ≤ sb ≤ 2 ^ 40 →
     ∀ os, Forall (λ to, op_ok (2 ^ 62) to.2) os →
     ∃ c, slab_threads ps mmap (Client (SlabAllocator.World s ∅ maps) m ∅ ∅) os = Ok c ∧
          client_ok kDefaultAlignment c).
Proof.
  intros Hsb Hc. destruct (SlabAllocator.sla_ctor_c ps nd sb osz a ∅ maps Hsb Hc) as (s & Hs & Hsame).
  exists s. split; [done|]. split.
  - intros tl ks. apply (port_observe _ _ SlabAllocator.same).
    + intros t. apply SlabAllocator.sla_port.
    + destruct Hsame as [cap E]. exists cap. injection E as ->. done.
  - intros Hps Hm Ho Hb os Hos. apply slab_threads_safe; [done|done| |done].
    eexists. split; [exact Hsame|]. by apply (sl_create_inv ps true osz sb a maps m).
Qed.

(** Two threads on 48-byte objects. *)
Lemma cpp_slab_same_witness :
  ∃ s, SlabAllocator.ctor false 4096 40 4096 = Ok s ∧
    (observe (λ t, IAllocator_vtable (IAllocator0 := SlabAllocator.I 4096 ex_mmaps t)) (SlabAllocator.World s ∅ []) ∅
        [(0%nat, Allocate 40 16); (1%nat, Allocate 40 16); (1%nat, Deallocate (2 ^ 20)); (1%nat, Allocate 1 1)]).1 =
      [APtr (2 ^ 20); APtr (2 ^ 20 + 32 * 48); ADone; APtr (2 ^ 20)] ∧
    ∃ c, slab_threads 4096 ex_mmaps (Client (SlabAllocator.World s ∅ []) ∅ ∅ ∅)
           [(0%nat, CAlloc 40); (1%nat, CFree (2 ^ 20)); (1%nat, CAlloc 10)] = Ok c ∧ client_ok kDefaultAlignment c.
Proof.
  destruct (cpp_slab_same false 4096 ex_mmaps 40 4096 ex_slab [] ∅) as (s & Hs & Ho & Hc); [lia|reflexivity|].
  exists s. split; [exact Hs|]. split.
  - rewrite Ho. vm_compute. reflexivity.
  - apply Hc; [apply page_4096_ok|apply ex_mmaps_fresh|lia|lia|]. repeat constructor; simpl; lia.
Defined.

(** A failed mapping goes unnoticed in a release build: the pool "serves" its
    first request with a null pointer, its second with address 64. *)
Lemma cpp_ctor_unchecked :
  BlockPoolCpp.ctor false 4096 (λ _, None) 64 2 = Abort ∧
  hf_block_pool_create 4096 (λ _, None) true true 64 2 = None ∧
  ∃ s, BlockPoolCpp.ctor true 4096 (λ _, None) 64 2 = Ok s ∧
    (observe (λ _, IAllocator_vtable (IAllocator0 := BlockPoolCpp.I true)) s ∅
      [(0%nat, Allocate 8 16); (0%nat, Allocate 8 16)]).1 = [APtr NULL; APtr 64].
Proof. split; [reflexivity|]. split; [reflexivity|]. eexists. split; reflexivity. Qed.

(** A pool of 64-byte blocks and a one-page stack. *)
Lemma cpp_fixed_same_witness :
  (∃ s, BlockPoolCpp.ctor false 4096 ex_mmap 60 128 = Ok s ∧
     (observe (λ _, IAllocator_vtable (IAllocator0 := BlockPoolCpp.I false)) s ∅
       [(0%nat, Allocate 60 16); (1%nat, Allocate 10 16); (0%nat, Deallocate (2 ^ 20 + 1))]) =
       ([APtr (2 ^ 20); APtr (2 ^ 20 + 64)], Abort)) ∧
  (∃ s, StackAllocator.ctor false 4096 ex_mmap 4096 = Ok s ∧
     (observe (λ _, IAllocator_vtable (IAllocator0 := StackAllocator.I false)) s ∅
       [(0%nat, Allocate 100 64); (0%nat, Walk); (0%nat, Deallocate (2 ^ 20))]) =
       ([APtr (2 ^ 20 + 64); ALayout [BlockInfo 0 164 false; BlockInfo 164 3932 true]], Abort)).
Proof.
  destruct (cpp_fixed_same false 4096 ex_mmap) as (Hp & Hs & _). split.
  - destruct (Hp 60 128 ex_pool) as (s & Es & Ho); [reflexivity|]. exists s. split; [exact Es|].
    rewrite Ho. vm_compute. reflexivity.
  - destruct (Hs 4096 (StAlloc (2 ^ 20) 4096 0 ST_NONE (stats_zero 4096))) as (s & Es & Ho); [lia|reflexivity|].
    exists s. split; [exact Es|]. rewrite Ho. vm_compute. reflexivity.
Defined.
