(* ===== verification/CppAnalyzer.v ===== *)
(** * The C++ analyzer ([include/heapforge/analyzer.h])

    [HeapAnalyzer] takes a snapshot of any allocator through the base class,
    with a histogram of its free blocks, and prints it as JSON, CSV and an HTML
    heat map.  Streams are strings that grow at the end; doubles are IEEE
    binary64 values, printed as [operator<<] does by default: six significant
    digits, trailing zeros dropped.  The vectors and streams of the standard
    library are taken to get their memory. *)

From Stdlib Require Import Ascii String SpecFloat.
From S2P Require Import Prelude Text Memory Allocator Platform FreeList Analyzer AnalyzerProofs AnalyzerSpec Cpp CppFreeList.

(** ** Doubles *)

Definition double_add : double → double → double := SFadd 53 1024.

(** [std::size_t(x)] and [int(x)] for a value in range: truncation towards 0. *)
Definition double_trunc (x : double) : Z :=
  match x with
  | S754_finite s m e =>
      let v := if 0 <=? e then Z.pos m * 2 ^ e else Z.pos m / 2 ^ (- e) in if s then - v else v
  | _ => 0
  end.

(** A number with the trailing zeros of its fraction (and the dot) removed. *)
Fixpoint strip_zeros (digits : list ascii) : list ascii :=
  match digits with
  | "0"%char :: digits => strip_zeros digits
  | "."%char :: digits => digits
  | _ => digits
  end.

Definition drop_zeros (s : string) : string :=
  string_of_list_ascii (rev (strip_zeros (rev (list_ascii_of_string s)))).

(** The decimal exponent of [num / den]: the greatest [x] with [10^x] at most
    the quotient, searched upwards from [x]. *)
Fixpoint exponent10 (fuel : nat) (num den x : Z) : Z :=
  match fuel with
  | O => x
  | S fuel =>
      if num * 10 ^ Z.max 0 (- (x + 1)) <? den * 10 ^ Z.max 0 (x + 1) then x
      else exponent10 fuel num den (x + 1)
  end.

(** [operator<<] on a double: six significant digits, in scientific notation
    when the exponent is below -4 or above 5.  The search for the exponent
    starts from the binary one ([30103 / 100000] is just above [log10 2]), one
    to three below it. *)
Definition show_double (x : double) : string :=
  match x with
  | S754_finite s m e =>
      let num := if 0 <=? e then Z.pos m * 2 ^ e else Z.pos m in
      let den := if 0 <=? e then 1 else 2 ^ (- e) in
      let scaled (k : Z) := round_even (num * 10 ^ Z.max 0 (5 - k)) (den * 10 ^ Z.max 0 (k - 5)) in
      let low := (Z.log2 num - Z.log2 den - 1) * 30103 / 100000 - 1 in
      let k := exponent10 4 num den low in
      let k := if scaled k =? 10 ^ 6 then k + 1 else k in
      if (-4 <=? k) && (k <? 6) then drop_zeros (fixed (Z.to_nat (5 - k)) x) else
      (if s then "-" else EmptyString) +:+
      drop_zeros (dec (scaled k / 10 ^ 5) +:+ "." +:+ dec_padded 5 (scaled k mod 10 ^ 5)) +:+
      "e" +:+ (if k <? 0 then "-" else "+") +:+ dec_padded 2 (Z.abs k)
  | S754_zero _ => drop_zeros (fixed 0 x)
  | _ => fixed 0 x
  end.

Example show_doubles :
  (show_double (double_div (double_of 1) (double_of 3)), show_double (double_of 250000),
   show_double (double_of 1250000), show_double (double_div (double_of 9999995) (double_of 10000000)),
   show_double (double_div (double_of 999) (double_of 10)), show_double (double_of 0),
   show_double (double_sub (double_of 1) (double_div (double_of (2 ^ 40 - 16)) (double_of (2 ^ 40))))) =
  ("0.333333", "250000", "1.25e+06", "1", "99.9", "0", "1.45519e-11").
Proof. vm_compute. reflexivity. Qed.

(** ** [HeapSnapshot] and [HeapAnalyzer] *)

Module HeapAnalyzer.

Record HeapSnapshot : Type := Snap {
  hs_name : string;
  hs_capacity : Z;
  hs_used_bytes : Z;
  hs_free_bytes : Z;
  hs_free_block_count : Z;
  hs_largest_free : Z;
  hs_fragmentation : double;
  hs_blocks : list cpp_BlockInfo;
  hs_histogram : list Z
}.

(** [HeapSnapshot s;]. *)
Definition empty_snapshot : HeapSnapshot :=
  Snap EmptyString 0 0 0 0 0 (S754_zero false) [] (replicate 7 0).

Definition bucket_label (i : nat) : option string :=
  ["<64B"; "64B-256B"; "256B-1K"; "1K-4K"; "4K-16K"; "16K-64K"; ">=64K"] !! i.

Definition bucket_of (size : Z) : nat :=
  if size <? 64 then 0%nat else
  if size <? 256 then 1%nat else
  if size <? 1024 then 2%nat else
  if size <? 4096 then 3%nat else
  if size <? 16384 then 4%nat else
  if size <? 65536 then 5%nat else 6%nat.

(** The callback [snapshot] hands to [walk]. *)
Definition on_block (s : HeapSnapshot) (b : cpp_BlockInfo) : HeapSnapshot :=
  let blocks := hs_blocks s ++ [b] in
  if is_free b then
    Snap (hs_name s) (hs_capacity s) (hs_used_bytes s) (hs_free_bytes s +% size b)
      (hs_free_block_count s +% 1)
      (if size b >? hs_largest_free s then size b else hs_largest_free s)
      (hs_fragmentation s) blocks (alter (λ n, n +% 1) (bucket_of (size b)) (hs_histogram s))
  else
    Snap (hs_name s) (hs_capacity s) (hs_used_bytes s +% size b) (hs_free_bytes s)
      (hs_free_block_count s) (hs_largest_free s) (hs_fragmentation s) blocks (hs_histogram s).

Definition set_fragmentation (s : HeapSnapshot) (f : double) : HeapSnapshot :=
  Snap (hs_name s) (hs_capacity s) (hs_used_bytes s) (hs_free_bytes s) (hs_free_block_count s)
    (hs_largest_free s) f (hs_blocks s) (hs_histogram s).

Definition snapshot {S : Type} `{!IAllocator S} (a : S) (m : mem) : outcome HeapSnapshot :=
  let s := Snap (ia_name a) (capacity (ia_stats a)) 0 0 0 0 (S754_zero false) [] (replicate 7 0) in
  bs ← ia_walk a m;
  let s := foldl on_block s bs in
  Ok (if hs_free_bytes s >? 0
      then set_fragmentation s
             (double_sub (double_of 1) (double_div (double_of (hs_largest_free s)) (double_of (hs_free_bytes s))))
      else s).

(** ** Text *)

(** [o << a << b << ...;] *)
Definition concat (l : list string) : string := foldr String.append EmptyString l.

Definition json_line (name value : string) : string := "  " +:+ quoted name +:+ ": " +:+ value +:+ "," +:+ newline.

(** The loop over the histogram from bucket [i]. *)
Fixpoint json_histogram (i : nat) (h : list Z) : string :=
  match h with
  | [] => EmptyString
  | n :: h =>
      (if (i =? 0)%nat then EmptyString else ", ") +:+
      quoted (default EmptyString (bucket_label i)) +:+ ": " +:+ dec n +:+ json_histogram (i + 1) h
  end.

(** The loop over the blocks from index [i]. *)
Fixpoint json_blocks (i : nat) (bs : list cpp_BlockInfo) : string :=
  match bs with
  | [] => EmptyString
  | b :: bs =>
      (if (i =? 0)%nat then EmptyString else ",") +:+ newline +:+ "    {" +:+ quoted "offset" +:+ ": " +:+ dec (offset b) +:+
      ", " +:+ quoted "size" +:+ ": " +:+ dec (size b) +:+
      ", " +:+ quoted "free" +:+ ": " +:+ (if is_free b then "true" else "false") +:+ "}" +:+ json_blocks (i + 1) bs
  end.

Definition to_json (s : HeapSnapshot) : string :=
  concat
    ["{" +:+ newline;
     json_line "allocator" (quoted (hs_name s));
     json_line "capacity" (dec (hs_capacity s));
     json_line "used_bytes" (dec (hs_used_bytes s));
     json_line "free_bytes" (dec (hs_free_bytes s));
     json_line "free_block_count" (dec (hs_free_block_count s));
     json_line "largest_free_block" (dec (hs_largest_free s));
     json_line "external_fragmentation" (show_double (hs_fragmentation s));
     "  " +:+ quoted "free_histogram" +:+ ": {";
     json_histogram 0 (hs_histogram s);
     "}," +:+ newline +:+ "  " +:+ quoted "blocks" +:+ ": [";
     json_blocks 0 (hs_blocks s);
     newline +:+ "  ]" +:+ newline +:+ "}" +:+ newline].

Definition csv_row (b : cpp_BlockInfo) : string :=
  concat [dec (offset b); ","; dec (size b); ","; (if is_free b then "free" else "used"); newline].

Definition to_csv (s : HeapSnapshot) : string :=
  concat (("offset,size,state" +:+ newline) :: (csv_row <$> hs_blocks s)).

(** ** The heat map *)

(** [std::max] and [std::min] of doubles. *)
Definition double_max (a b : double) : double := if SFltb a b then b else a.
Definition double_min (a b : double) : double := if SFltb b a then b else a.

(** The cells from [c] on that a used block covers, at most [n] of them. *)
Fixpoint paint (n : nat) (beg fin : double) (c : nat) (usage : list double) : list double :=
  match n with
  | O => usage
  | S n =>
      if SFltb (double_of (Z.of_nat c)) fin then
        let lo := double_max beg (double_of (Z.of_nat c)) in
        let hi := double_min fin (double_of (Z.of_nat (c + 1))) in
        let usage := if SFltb lo hi then alter (λ u, double_add u (double_sub hi lo)) c usage else usage in
        paint n beg fin (c + 1) usage
      else usage
  end.

Definition paint_block (total : double) (cells : nat) (usage : list double) (b : cpp_BlockInfo) : list double :=
  if is_free b then usage else
  let at_cell (n : Z) := double_mul (double_div (double_of n) total) (double_of (Z.of_nat cells)) in
  let beg := at_cell (offset b) in
  let fin := at_cell (offset b +% size b) in
  let c := Z.to_nat (double_trunc beg) in
  paint (cells - c) beg fin c usage.

Definition heat (s : HeapSnapshot) (cells : nat) : list double :=
  let total := double_of (if hs_capacity s =? 0 then 1 else hs_capacity s) in
  foldl (paint_block total cells) (replicate cells (S754_zero false)) (hs_blocks s).

(** [int(a + u * (b - a))]. *)
Definition lerp (a b : Z) (u : double) : Z :=
  double_trunc (double_add (double_of a) (double_mul u (double_of (b - a)))).

(** [%d]. *)
Definition show_int (n : Z) : string := if n <? 0 then "-" +:+ dec (- n) else dec n.

Definition cell (u : double) : string :=
  truncate 64 ("<div class='cell' style='background:rgb(" +:+ show_int (lerp 0x2e 0xe7 u) +:+ "," +:+
    show_int (lerp 0xcc 0x4c u) +:+ "," +:+ show_int (lerp 0x71 0x3c u) +:+ ")'></div>").

Definition to_html (s : HeapSnapshot) (cells : nat) : string :=
  let row (label value : string) := "<tr><td>" +:+ label +:+ "</td><td>" +:+ value in
  concat
    (["<!DOCTYPE html><html><head><meta charset='utf-8'>";
      "<title>HeapForge - "; hs_name s; "</title><style>";
      "body{font-family:ui-monospace,monospace;background:#111;color:#eee;padding:24px}";
      ".grid{display:grid;grid-template-columns:repeat(32,1fr);gap:2px;max-width:900px}";
      ".cell{aspect-ratio:1;border-radius:2px}";
      "table{border-collapse:collapse;margin-top:16px}";
      "td,th{border:1px solid #444;padding:4px 10px;text-align:right}";
      "</style></head><body>";
      "<h2>HeapForge 热力图 &mdash; "; hs_name s; "</h2><div class='grid'>"] ++
     (cell <$> heat s cells) ++
     ["</div><table><tr><th>指标</th><th>值</th></tr>";
      row "容量" (dec (hs_capacity s)); " B</td></tr>";
      row "已用" (dec (hs_used_bytes s)); " B</td></tr>";
      row "空闲" (dec (hs_free_bytes s)); " B</td></tr>";
      row "空闲块数" (dec (hs_free_block_count s)); "</td></tr>";
      row "最大连续空闲" (dec (hs_largest_free s)); " B</td></tr>";
      row "外部碎片率" (show_double (double_div (double_of (double_trunc (double_mul (hs_fragmentation s) (double_of 1000)))) (double_of 10)));
      "%</td></tr></table></body></html>"]).

(** [save]: the new content of the file, if it could be opened, and the state
    of the stream; [sink] is what [operator<<] and the destructor bring into
    the file and whether the stream is good after [operator<<]. *)
Definition save (open_ok : bool) (sink : string → string * bool) (content : string) : option string * bool :=
  if negb open_ok then (None, false) else
  let '(written, good) := sink content in (Some written, good).

(** ** Snapshots *)

Definition in_bucket (i : nat) (b : cpp_BlockInfo) : bool := is_free b && (bucket_of (size b) =? i)%nat.

Lemma bucket_of_lt n : (bucket_of n < 7)%nat.
Proof. unfold bucket_of. repeat case_if; lia. Qed.

(** The histogram of the free blocks of [bs]. *)
Definition histogram (bs : list cpp_BlockInfo) : list Z := (λ i, count_if (in_bucket i) bs) <$> seq 0 7.

(** What the callback has computed after the blocks [bs]. *)
Record summary (s : HeapSnapshot) (bs : list cpp_BlockInfo) : Prop := {
  su_blocks : hs_blocks s = bs;
  su_used : hs_used_bytes s = sum_sizes false bs;
  su_free : hs_free_bytes s = sum_sizes true bs;
  su_count : hs_free_block_count s = count_if is_free bs;
  su_largest : hs_largest_free s = max_free bs;
  su_hist : hs_histogram s = histogram bs
}.

Lemma max_free_app bs cs : max_free (bs ++ cs) = Z.max (max_free bs) (max_free cs).
Proof.
  induction bs as [|b bs IH]; simpl; [pose proof (max_free_nonneg cs); lia|].
  unfold max_free in *. destruct (is_free b); lia.
Qed.

Lemma histogram_lookup bs i :
  histogram bs !! i = if decide (i < 7)%nat then Some (count_if (in_bucket i) bs) else None.
Proof.
  unfold histogram. rewrite list_lookup_fmap. case_decide; [by rewrite lookup_seq_lt|by rewrite lookup_seq_ge by lia].
Qed.

Lemma histogram_snoc bs b : Z.of_nat (length bs) < 2 ^ 40 →
  histogram (bs ++ [b]) =
    if is_free b then alter (λ n, n +% 1) (bucket_of (size b)) (histogram bs) else histogram bs.
Proof.
  intros Hl. apply list_eq. intros i. rewrite histogram_lookup, count_if_app. cbn [count_if].
  unfold in_bucket at 2. destruct (is_free b) eqn:E; cbn [andb].
  - destruct (decide (i = bucket_of (size b))) as [->|Hne].
    + rewrite list_lookup_alter_eq, histogram_lookup, !decide_True, Nat.eqb_refl by apply bucket_of_lt.
      pose proof (count_if_bounds (in_bucket (bucket_of (size b))) bs). cbn [fmap option_fmap option_map].
      rewrite wrap64_small by ulia. f_equal; lia.
    + rewrite list_lookup_alter_ne, histogram_lookup by done. rewrite (proj2 (Nat.eqb_neq _ _)) by congruence.
      case_decide; [|done]. f_equal; lia.
  - rewrite histogram_lookup. case_decide; [|done]. f_equal; lia.
Qed.

(** Every free block is in exactly one bucket. *)
Lemma histogram_total bs : foldr Z.add 0 (histogram bs) = count_if is_free bs.
Proof.
  induction bs as [|b bs IH]; [done|]. cbn [count_if]. rewrite <- IH. unfold histogram.
  cbn [seq fmap list_fmap foldr count_if]. unfold in_bucket at 1 3 5 7 9 11 13.
  pose proof (bucket_of_lt (size b)) as Hb. destruct (is_free b); cbn [andb]; [|lia].
  destruct (bucket_of (size b)) as [|[|[|[|[|[|[|k]]]]]]]; cbn [Nat.eqb]; lia.
Qed.

(** The callback adds one block to the summary. *)
Lemma on_block_summary s bs b : summary s bs → 0 ≤ size b →
  sizes_ok bs → sum_sizes true (bs ++ [b]) < 2 ^ 64 → sum_sizes false (bs ++ [b]) < 2 ^ 64 →
  Z.of_nat (length bs) < 2 ^ 40 → summary (on_block s b) (bs ++ [b]).
Proof.
  intros [H1 H2 H3 H4 H5 H6] Hb Hs Ht Hf Hl. rewrite sum_sizes_app in Ht, Hf. cbn [sum_sizes foldr] in Ht, Hf.
  pose proof (sum_sizes_nonneg true bs Hs). pose proof (sum_sizes_nonneg false bs Hs).
  pose proof (count_if_bounds is_free bs). pose proof (max_free_nonneg bs).
  pose proof (histogram_snoc bs b Hl) as Hh. unfold on_block.
  destruct b as [o n []]; cbn [is_free size Bool.eqb] in *; constructor; cbn [hs_blocks hs_used_bytes
    hs_free_bytes hs_free_block_count hs_largest_free hs_histogram];
    try (by rewrite H1); try (by rewrite H6, Hh);
    rewrite ?sum_sizes_app, ?count_if_app, ?max_free_app; cbn [sum_sizes foldr is_free size Bool.eqb count_if max_free];
    rewrite ?H2, ?H3, ?H4, ?H5; try (rewrite wrap64_small by ulia); try case_if; try lia.
Qed.

Lemma fold_summary s bs cs : summary s bs → sizes_ok (bs ++ cs) →
  sum_sizes true (bs ++ cs) < 2 ^ 64 → sum_sizes false (bs ++ cs) < 2 ^ 64 →
  Z.of_nat (length (bs ++ cs)) < 2 ^ 40 →
  summary (foldl on_block s cs) (bs ++ cs) ∧ hs_name (foldl on_block s cs) = hs_name s ∧
  hs_capacity (foldl on_block s cs) = hs_capacity s ∧ hs_fragmentation (foldl on_block s cs) = hs_fragmentation s.
Proof.
  revert s bs. induction cs as [|b cs IH]; intros s bs Hsu Hs Ht Hf Hl; [by rewrite app_nil_r|].
  cbn [foldl]. pose proof Hs as Hs'. apply Forall_app in Hs' as [Hs1 Hs2]. apply Forall_cons in Hs2 as [Hb Hs2].
  assert (bs ++ b :: cs = (bs ++ [b]) ++ cs) as E by by rewrite <- app_assoc. rewrite E in *.
  rewrite sum_sizes_app in Ht, Hf. rewrite length_app in Hl.
  pose proof (sum_sizes_nonneg true cs Hs2). pose proof (sum_sizes_nonneg false cs Hs2).
  assert (summary (on_block s b) (bs ++ [b])) as Hsu'.
  { apply on_block_summary; try done; try lia. rewrite length_app in Hl. simpl in Hl. lia. }
  destruct (IH _ _ Hsu' Hs) as (R1 & R2 & R3 & R4); [by rewrite sum_sizes_app|by rewrite sum_sizes_app|by rewrite length_app|].
  split; [done|]. rewrite R2, R3, R4. unfold on_block. by destruct (is_free b).
Qed.

Lemma snapshot_ok {S} `{!IAllocator S} (a : S) m bs :
  ia_walk a m = Ok bs → sizes_ok bs → sum_sizes true bs < 2 ^ 64 → sum_sizes false bs < 2 ^ 64 →
  Z.of_nat (length bs) < 2 ^ 40 →
  ∃ s, snapshot a m = Ok s ∧ summary s bs ∧ hs_name s = ia_name a ∧ hs_capacity s = capacity (ia_stats a) ∧
    hs_fragmentation s =
      if sum_sizes true bs >? 0
      then double_sub (double_of 1) (double_div (double_of (max_free bs)) (double_of (sum_sizes true bs)))
      else S754_zero false.
Proof.
  intros Hw Hs Ht Hf Hl. unfold snapshot. rewrite Hw. cbn [mbind outcome_bind].
  set (s0 := Snap _ _ _ _ _ _ _ _ _). assert (summary s0 []) as H0 by by constructor.
  destruct (fold_summary s0 [] bs H0 Hs Ht Hf Hl) as (Hsu & Hn & Hc & Hfr). cbn [app] in Hsu.
  eexists. split; [reflexivity|]. rewrite (su_free _ _ Hsu).
  destruct (sum_sizes true bs >? 0).
  - rewrite (su_largest _ _ Hsu). split; [|by cbn]. destruct Hsu. by constructor.
  - by rewrite Hn, Hc, Hfr.
Qed.

(** ** CSV *)

Lemma to_csv_text i bs : concat (csv_row <$> bs) = text (block_pieces csv_block i bs).
Proof.
  revert i. induction bs as [|b bs IH]; intros i; [done|]. cbn [fmap list_fmap concat foldr block_pieces text piece_text].
  fold (concat (csv_row <$> bs)). by rewrite (IH (i + 1)).
Qed.

Lemma to_csv_read s : blocks_ok64 (hs_blocks s) → read_csv (to_csv s) = Some (hs_blocks s).
Proof.
  intros Hbs. unfold to_csv, read_csv, concat. cbn [foldr]. fold (concat (csv_row <$> hs_blocks s)).
  change ("offset,size,state" +:+ newline) with csv_header. rewrite strip_app. cbn [mbind option_bind].
  rewrite (to_csv_text 0). apply read_lines_csv; [done|lia].
Qed.

(** ** The heat map *)

Lemma length_paint n beg fin c usage : length (paint n beg fin c usage) = length usage.
Proof.
  revert c usage. induction n as [|n IH]; intros c usage; [done|]. cbn [paint].
  destruct (SFltb _ fin); [|done]. rewrite IH. destruct (SFltb _ _); [by rewrite length_alter|done].
Qed.

(** Every store of the loop is inside the vector, which keeps its length. *)
Lemma length_heat s cells : length (heat s cells) = cells.
Proof.
  unfold heat. set (total := double_of _). generalize (hs_blocks s).
  assert (length (replicate cells (S754_zero false)) = cells) as H by by rewrite length_replicate.
  revert H. generalize (replicate cells (S754_zero false)).
  intros usage H bs. revert usage H. induction bs as [|b bs IH]; intros usage H; [done|]. cbn [foldl]. apply IH.
  unfold paint_block. destruct (is_free b); [done|]. by rewrite length_paint.
Qed.
End HeapAnalyzer.
Import HeapAnalyzer.

(** ** Claims *)

(** A first-fit heap of one page. *)
Definition ex_cpp_heap : FreeListAllocator.t * mem :=
  match FreeListAllocator.ctor false 4096 (λ _, Some (2 ^ 20)) ∅ 4096 FreeListAllocator.FirstFit with
  | Ok r => r
  | _ => (FreeListAllocator.Make 0 0 FreeListAllocator.FirstFit 0 0 (stats_zero 0), ∅)
  end.

(** The sizes the seven buckets stand for, from the first up to but without the
    second. *)
Definition bucket_ranges : list (Z * Z) :=
  [(0, 64); (64, 256); (256, 1024); (1024, 4096); (4096, 16384); (16384, 65536); (65536, 2 ^ 64)].

(** The free blocks of [bs] with a size in [r]. *)
Definition free_in (bs : list hf_block_info) (r : Z * Z) : Z :=
  count_if (λ b, is_free b && ((r.1 <=? size b) && (size b <? r.2))) bs.

Lemma bucket_of_range i r sz : bucket_ranges !! i = Some r → 0 ≤ sz < 2 ^ 64 →
  (bucket_of sz =? i)%nat = (r.1 <=? sz) && (sz <? r.2).
Proof.
  intros Hi Hsz. unfold bucket_of.
  do 7 (destruct i as [|i]; [injection Hi as <-; cbn [fst snd];
    repeat match goal with |- context [sz <? ?k] => destruct (Z.ltb_spec sz k) end; cbn;
    repeat match goal with |- context [?k <=? sz] => destruct (Z.leb_spec k sz) end; cbn; first [reflexivity|lia]|]).
  done.
Qed.

Lemma size_le_sum bs b : sizes_ok bs → b ∈ bs → is_free b = true → 0 ≤ size b ≤ sum_sizes true bs.
Proof.
  induction 1 as [|c bs Hc Hs IH]; intros Hb Hf; [by apply elem_of_nil in Hb|].
  change (sum_sizes true (c :: bs)) with ((if Bool.eqb (is_free c) true then size c else 0) + sum_sizes true bs).
  pose proof (sum_sizes_nonneg true bs Hs). apply elem_of_cons in Hb as [<-|Hb]; [rewrite Hf; cbn; lia|].
  specialize (IH Hb Hf). destruct (Bool.eqb _ _); lia.
Qed.

Lemma histogram_ranges bs : sizes_ok bs → sum_sizes true bs < 2 ^ 64 → histogram bs = free_in bs <$> bucket_ranges.
Proof.
  intros Hs Ht. apply list_eq. intros i. rewrite histogram_lookup, list_lookup_fmap. case_decide as Hi.
  - destruct (lookup_lt_is_Some_2 bucket_ranges i) as [r Hr]; [simpl; lia|]. rewrite Hr. cbn. f_equal.
    apply count_if_ext. intros b Hb. unfold in_bucket. destruct (is_free b) eqn:Hf; [|done]. cbn [andb].
    apply (bucket_of_range i r); [done|]. pose proof (size_le_sum bs b Hs Hb Hf). lia.
  - rewrite lookup_ge_None_2; [done|]. simpl. lia.
Qed.

(** C38. Snapshots of a C++ allocator.  Whatever the allocator, if its walk ends
    with blocks [bs] (below 2^40 of them, with sizes and totals below 2^64) the
    snapshot holds exactly them; used and free bytes, the number of free blocks
    and the largest one are those of [bs]; the seven buckets of the histogram
    count the free blocks of less than 64 bytes, of 64 to 255, of 256 to 1023,
    of 1024 to 4095, of 4096 to 16383, of 16384 to 65535 and of at least 65536
    bytes, and add up to the number of free blocks.  The C snapshot of the same
    allocator has, if every [realloc] of its vector succeeds, the same blocks,
    free bytes, largest block and fragmentation. *)
Theorem cpp_snapshot_correct {S} `{!IAllocator S} (a : S) m bs :
  ia_walk a m = Ok bs → sizes_ok bs → sum_sizes true bs < 2 ^ 64 → sum_sizes false bs < 2 ^ 64 →
  Z.of_nat (length bs) < 2 ^ 40 →
  ∃ s, snapshot a m = Ok s ∧ hs_blocks s = bs ∧
    hs_used_bytes s = sum_sizes false bs ∧ hs_free_bytes s = sum_sizes true bs ∧
    hs_free_block_count s = count_if is_free bs ∧ hs_largest_free s = max_free bs ∧
    hs_histogram s = free_in bs <$> bucket_ranges ∧
    foldr Z.add 0 (hs_histogram s) = hs_free_block_count s ∧
    ∀ realloc, (∀ n, realloc n = true) →
    ∃ c, hf_snapshot_take realloc a m = Ok c ∧ blocks c = hs_blocks s ∧ free_bytes c = hs_free_bytes s ∧
      largest_free c = hs_largest_free s ∧ external_fragmentation c = hs_fragmentation s.
Proof.
  intros Hw Hs Ht Hf Hl. destruct (snapshot_ok a m bs Hw Hs Ht Hf Hl) as (s & E & [H1 H2 H3 H4 H5 H6] & _ & _ & Hfr).
  exists s. split; [done|]. split_and!; try done.
  - by rewrite H6, histogram_ranges.
  - by rewrite H6, histogram_total, H4.
  - intros realloc Hre. assert (hf_walk a m = Ok bs) as Hw' by exact Hw.
    destruct (snapshot_take_ok realloc a m bs Hw' Hs Ht Hl) as (c & bs' & Ec & Hsp & _ & Hall & _).
    rewrite (Hall Hre) in Hsp. exists c. split; [done|].
    rewrite (sp_blocks _ _ Hsp), (sp_free _ _ Hsp), (sp_largest _ _ Hsp), H1, H3, H5. split_and!; try done.
    by rewrite (sp_frag _ _ Hsp), (sp_free _ _ Hsp), (sp_largest _ _ Hsp), Hfr.
Qed.

(** Witness of C38: a new C++ free list of one page. *)
Lemma cpp_snapshot_correct_witness :
  ∃ s, snapshot (IAllocator0 := FreeListAllocator.I false) ex_cpp_heap.1 ex_cpp_heap.2 = Ok s ∧
    hs_histogram s = [0; 0; 0; 0; 1; 0; 0] ∧ hs_used_bytes s = 0.
Proof.
  destruct (cpp_snapshot_correct (IAllocator0 := FreeListAllocator.I false) ex_cpp_heap.1 ex_cpp_heap.2
    [BlockInfo 0 4096 true]) as (s & E & _ & Hu & _).
  - vm_compute. reflexivity.
  - repeat constructor. simpl. lia.
  - simpl. lia.
  - simpl. lia.
  - simpl. lia.
  - exists s. split; [exact E|]. split; [|exact Hu]. vm_compute in E. injection E as <-. reflexivity.
Defined.

(** Both CSV exports write the same text, and it can be read back.  For a
    C++ snapshot and a C snapshot of the same blocks (64-bit offsets and sizes,
    below 2^40 blocks) [to_csv] is byte for byte what [hf_snapshot_to_csv]
    leaves in its buffer, and a reader of the format recovers the blocks. *)
Theorem cpp_csv_same s c realloc malloc :
  (∀ n, realloc n = true) → (∀ n, malloc n = true) → blocks c = hs_blocks s →
  blocks_len c = Z.of_nat (length (blocks c)) → blocks_len c < 2 ^ 40 → blocks_ok64 (hs_blocks s) →
  (∃ b, hf_snapshot_to_csv realloc malloc c = Ok b ∧ sb_s b = to_csv s) ∧
  read_csv (to_csv s) = Some (hs_blocks s).
Proof.
  intros Hr Hm Hb Hl Hlim Hok. split; [|by apply to_csv_read]. rewrite to_csv_run by done.
  rewrite <- Hb in Hok. pose proof (csv_length 0 (blocks c) Hok) as Hlen.
  destruct (pieces_ok realloc malloc Hr Hm (csv_pieces c)) as (b & E & Hsb).
  { unfold csv_pieces. cbn [text piece_text]. rewrite string_length_app.
    assert (String.length csv_header ≤ 256)%nat by (simpl; lia). lia. }
  exists b. split; [done|]. rewrite (so_s _ _ Hsb). unfold to_csv, csv_pieces, concat. cbn [foldr text piece_text].
  fold (concat (csv_row <$> hs_blocks s)). by rewrite (to_csv_text 0), Hb.
Qed.

(** Two blocks. *)
Lemma cpp_csv_same_witness :
  let s := Snap "FreeList" 4096 96 4000 1 4000 (S754_zero false) (blocks ex_snapshot) (replicate 7 0) in
  (∃ b, hf_snapshot_to_csv ex_alloc_ok ex_alloc_ok ex_snapshot = Ok b ∧ sb_s b = to_csv s) ∧
  read_csv (to_csv s) = Some (blocks ex_snapshot).
Proof.
  apply (cpp_csv_same (Snap "FreeList" 4096 96 4000 1 4000 (S754_zero false) (blocks ex_snapshot) (replicate 7 0))
    ex_snapshot ex_alloc_ok ex_alloc_ok); [done|done|done|done|done|]. repeat constructor; simpl; lia.
Defined.
