(* ===== verification/CppLogger.v ===== *)
(** * The C++ logger ([include/heapforge/logger.h])

    The singleton [Log] with the files and the standard error stream it writes
    to.  [output] runs under the object's mutex, so its writes are one step;
    the clock's answer and the success of [fopen] are arguments, the text a
    format expands to is given.  The class writes what the C logger writes,
    except for a message at level [Off], where it reads past its table of level
    names. *)

From Stdlib Require Import String.
From S2P Require Import Prelude Text Logger.

Module Log.

(** [LogLevel] and its underlying integers. *)
Inductive LogLevel : Type := Debug | Info | Warn | Error | Off.

Definition to_int (lv : LogLevel) : Z :=
  match lv with Debug => 0 | Info => 1 | Warn => 2 | Error => 3 | Off => 4 end.

(** The members; [file_] is the path the stream was opened with. *)
Record t : Type := Make {
  file_ : option string;
  level_ : LogLevel;
  mirror_ : bool;
  disk : gmap string string;
  err : string
}.

(** The object [instance()] constructs on its first use. *)
Definition init (fs : gmap string string) : t := Make None Debug true fs EmptyString.

(** The system clock: its broken-down local time and its milliseconds since
    the epoch. *)
Record clock : Type := Clock {
  year : Z;
  mon : Z;
  mday : Z;
  hour : Z;
  minute : Z;
  sec : Z;
  epoch_ms : Z
}.

Definition timestamp (c : clock) (n : Z) : string :=
  let ms := epoch_ms c mod 1000 in
  truncate n
    (dec_padded 4 (year c + 1900) +:+ "-" +:+ dec_padded 2 (mon c + 1) +:+ "-" +:+ dec_padded 2 (mday c) +:+ " " +:+
     dec_padded 2 (hour c) +:+ ":" +:+ dec_padded 2 (minute c) +:+ ":" +:+ dec_padded 2 (sec c) +:+ "." +:+
     dec_padded 3 ms).

(** The file is appended to and flushed; the line goes to standard error too
    when it is mirrored or there is no file. *)
Definition output (c : clock) (channel reason msg : string) (l : t) : t :=
  let line := "[" +:+ timestamp c 40 +:+ "] [" +:+ channel +:+ "] [" +:+ reason +:+ "] " +:+ msg +:+ newline in
  let l := match file_ l with
           | Some p => Make (file_ l) (level_ l) (mirror_ l) (<[p := default EmptyString (disk l !! p) +:+ line]> (disk l)) (err l)
           | None => l
           end in
  if mirror_ l || negb (bool_decide (is_Some (file_ l)))
  then Make (file_ l) (level_ l) (mirror_ l) (disk l) (err l +:+ line) else l.

(** The open file is closed first; mode [a] creates a missing file. *)
Definition set_file (path : string) (fopen_ok : bool) (l : t) : t * bool :=
  if fopen_ok
  then (Make (Some path) (level_ l) (mirror_ l) (<[path := default EmptyString (disk l !! path)]> (disk l)) (err l), true)
  else (Make None (level_ l) (mirror_ l) (disk l) (err l), false).

Definition set_level (lv : LogLevel) (l : t) : t := Make (file_ l) lv (mirror_ l) (disk l) (err l).
Definition set_mirror_stderr (on : bool) (l : t) : t := Make (file_ l) (level_ l) on (disk l) (err l).

(** [names], an array of four. *)
Definition names : list string := ["DEBUG"; "INFO "; "WARN "; "ERROR"].

Definition write (c : clock) (lv : LogLevel) (tag text : string) (l : t) : outcome t :=
  if to_int lv <? to_int (level_ l) then Ok l else
  let msg := truncate 1024 text in
  match names !! Z.to_nat (to_int lv) with
  | Some name => Ok (output c name tag msg l)
  | None => Fault
  end.

Definition event (c : clock) (lv : LogLevel) (channel reason text : string) (l : t) : t :=
  if to_int lv <? to_int (level_ l) then l else output c channel reason (truncate 1024 text) l.

(** [HF_BUG] and [HF_DBG]. *)
Definition HF_BUG (c : clock) (reason text : string) (l : t) : t := event c Error "bug" reason text l.
Definition HF_DBG (c : clock) (reason text : string) (l : t) : t := event c Debug "debug" reason text l.

(** The destructor closes the file. *)
Definition dtor (l : t) : t := Make None (level_ l) (mirror_ l) (disk l) (err l).

(** ** Calls *)

Inductive op : Type :=
| Write (c : clock) (lv : LogLevel) (tag text : string)
| Bug (c : clock) (reason text : string)
| Dbg (c : clock) (reason text : string)
| SetFile (path : string) (fopen_ok : bool)
| SetLevel (lv : LogLevel)
| Mirror (on : bool).

Definition step (l : t) (o : op) : outcome t :=
  match o with
  | Write c lv tag text => write c lv tag text l
  | Bug c reason text => Ok (HF_BUG c reason text l)
  | Dbg c reason text => Ok (HF_DBG c reason text l)
  | SetFile path ok => Ok (set_file path ok l).1
  | SetLevel lv => Ok (set_level lv l)
  | Mirror on => Ok (set_mirror_stderr on l)
  end.

Fixpoint run (l : t) (os : list op) : outcome t :=
  match os with
  | [] => Ok l
  | o :: os => l ← step l o; run l os
  end.

(** ** The C logger given the same calls *)

Definition level_c (lv : LogLevel) : hf_log_level :=
  match lv with Debug => HF_LOG_DEBUG | Info => HF_LOG_INFO | Warn => HF_LOG_WARN | Error => HF_LOG_ERROR | Off => HF_LOG_OFF end.

(** The same instant: whole seconds, and the milliseconds of the second. *)
Definition clock_c (c : clock) : now :=
  Now (year c) (mon c) (mday c) (hour c) (minute c) (sec c) (epoch_ms c mod 1000 * 1000000).

Definition op_c (o : op) : log_op :=
  match o with
  | Write c lv tag text => LWrite (clock_c c) (level_c lv) tag text
  | Bug c reason text => LBug (clock_c c) reason text
  | Dbg c reason text => LDbg (clock_c c) reason text
  | SetFile path ok => LSetFile path ok
  | SetLevel lv => LSetLevel (level_c lv)
  | Mirror on => LMirror on
  end.

(** The same files, standard error and settings (the C logger also keeps
    whether its mutex has been initialised). *)
Definition same (l : t) (k : logger) : Prop :=
  g_file k = file_ l ∧ g_level k = level_c (level_ l) ∧ g_mirror k = mirror_ l ∧ files k = disk l ∧ stderr k = err l.

Lemma level_int_c lv : level_int (level_c lv) = to_int lv.
Proof. by destruct lv. Qed.

Lemma timestamp_c c n : Logger.timestamp (clock_c c) n = timestamp c n.
Proof. unfold Logger.timestamp, timestamp, clock_c. cbn. by rewrite Z.div_mul. Qed.

Lemma output_c c channel reason msg l k : same l k → same (output c channel reason msg l) (emit (clock_c c) channel reason msg k).
Proof.
  intros (Hf & Hl & Hm & Hd & He). unfold output, emit, log_line. rewrite timestamp_c.
  destruct (ensure_mutex_same k) as (Hc & Hfs & Hes). unfold config_of in Hc. injection Hc as E1 E2 E3.
  assert (g_level (ensure_mutex k) = g_level k) as E4 by (unfold ensure_mutex; by destruct (g_mu_ready k)).
  rewrite E1, E3, E4, Hfs, Hes, Hf, Hl, Hm, Hd, He. destruct (file_ l) as [p|] eqn:Ef; cbn [mirror_ file_ level_ disk err].
  - rewrite bool_decide_true by (by eexists). cbn [negb]. by destruct (mirror_ l).
  - rewrite bool_decide_false by (rewrite Ef; by intros [? [=]]). cbn [negb]. rewrite orb_true_r. by split_and!.
Qed.

Lemma event_c c lv channel reason text l k : same l k →
  same (event c lv channel reason text l)
    (if level_int (level_c lv) <? level_int (g_level k) then k else emit (clock_c c) channel reason (truncate 1024 text) k).
Proof.
  intros H. pose proof H as (_ & Hl & _). unfold event. rewrite Hl, !level_int_c.
  destruct (_ <? _); [done|by apply output_c].
Qed.

(** Only a message at level [Off] can go wrong. *)
Definition no_off (o : op) : Prop := match o with Write _ Off _ _ => False | _ => True end.

Lemma step_c l k o : same l k → no_off o → ∃ l', step l o = Ok l' ∧ same l' (log_step k (op_c o)).
Proof.
  intros H Ho. pose proof H as (Hf & Hl & Hm & Hd & He).
  destruct o as [c lv tag text|c reason text|c reason text|path ok|lv|on]; cbn [step op_c log_step].
  - unfold write, hf_log_write. rewrite Hl, !level_int_c. destruct (_ <? _); [by exists l|].
    destruct lv; try done; (eexists; split; [reflexivity|]; by apply output_c).
  - eexists. split; [done|]. apply (event_c c Error). done.
  - eexists. split; [done|]. apply (event_c c Debug). done.
  - eexists. split; [done|]. unfold set_file, hf_log_set_file, Logger.set_file.
    destruct (ensure_mutex_same k) as (Hc & Hfs & Hes). unfold config_of in Hc. injection Hc as E1 E2 E3.
    assert (g_level (ensure_mutex k) = g_level k) as E4 by (unfold ensure_mutex; by destruct (g_mu_ready k)).
    destruct ok; split_and!; cbn; congruence.
  - eexists. split; [done|]. by split_and!.
  - eexists. split; [done|]. by split_and!.
Qed.

Lemma run_c os l k : same l k → Forall no_off os → ∃ l', run l os = Ok l' ∧ same l' (log_run k (op_c <$> os)).
Proof.
  intros H Hos. revert l k H. induction Hos as [|o os Ho _ IH]; intros l k H; [by exists l|].
  destruct (step_c l k o H Ho) as (l1 & E & H1). destruct (IH _ _ H1) as (l2 & E2 & H2).
  exists l2. cbn [run]. rewrite E. by split.
Qed.
End Log.

(** The C++ logger writes what the C logger writes.  Given the same calls
    at the same instants from program start - messages, bug and debug events,
    changes of file, level and mirror, in any order, no message at level [Off] -
    both run to the end with the same content in every file and on standard
    error, the same open file, level and mirror.  A message at level [Off]
    instead reads past the table of names. *)
Theorem cpp_log_same fs os :
  Forall Log.no_off os →
  (∃ l, Log.run (Log.init fs) os = Ok l ∧
     let k := log_run (logger_init fs) (Log.op_c <$> os) in
     Log.disk l = files k ∧ Log.err l = stderr k ∧ Log.file_ l = g_file k ∧
     ∀ c tag text, Log.write c Log.Off tag text l = Fault).
Proof.
  intros Hos. destruct (Log.run_c os (Log.init fs) (logger_init fs)) as (l & E & Hs); [by split_and!|done|].
  exists l. split; [done|]. destruct Hs as (Hf & Hl & Hm & Hd & He). split_and!; try done.
  intros c tag text. unfold Log.write. by destruct (Log.level_ l).
Qed.

(** A file, a level and three messages. *)
Lemma cpp_log_same_witness :
  ∃ l, Log.run (Log.init ∅)
         [Log.SetFile "heap.log" true; Log.Mirror false;
          Log.Write (Log.Clock 125 0 2 3 4 5 1234567) Log.Info "pool" "open";
          Log.SetLevel Log.Error; Log.Dbg (Log.Clock 125 0 2 3 4 5 7) "x" "dropped";
          Log.Bug (Log.Clock 125 0 2 3 4 6 8) "leak" "24 bytes"] = Ok l ∧
    Log.disk l !! "heap.log" =
      Some ("[2025-01-02 03:04:05.567] [INFO ] [pool] open" +:+ newline +:+ "[2025-01-02 03:04:06.008] [bug] [leak] 24 bytes" +:+ newline).
Proof.
  destruct (cpp_log_same ∅
    [Log.SetFile "heap.log" true; Log.Mirror false;
     Log.Write (Log.Clock 125 0 2 3 4 5 1234567) Log.Info "pool" "open";
     Log.SetLevel Log.Error; Log.Dbg (Log.Clock 125 0 2 3 4 5 7) "x" "dropped";
     Log.Bug (Log.Clock 125 0 2 3 4 6 8) "leak" "24 bytes"]) as (l & E & Hd & _).
  - repeat constructor.
  - exists l. split; [exact E|]. rewrite Hd. vm_compute. reflexivity.
Defined.
