(* ===== verification/CppDebugHeap.v ===== *)
(** * The C++ debug heap ([include/heapforge/debug_heap.h]): the code

    [DebugHeap] decorates any [IAllocator]: sixteen bytes of canaries on each
    side of a block, poison on free, a table of the live blocks and one of the
    freed addresses.  The standard library's hash maps are finite maps; the
    order in which they are iterated is left open.  What the class logs is kept
    as a list of channel and reason; a call stack is known by its depth, which
    [backtrace] answers, and [syms_ok] says whether [backtrace_symbols]
    succeeds. *)

From Stdlib Require Import String.
From S2P Require Import Prelude Text Memory Platform Allocator Cpp.

Module DebugHeapCpp.

Definition kCanary : Z := 0xDEADBEEF.
Definition kCanaryWords : nat := 4.
Definition kGuardBytes : Z := Z.of_nat kCanaryWords * 4.
Definition kPoison : Z := 0xCD.
Definition kMaxFrames : Z := 16.

(** [AllocMeta]. *)
Record AllocMeta : Type := Meta {
  user_size : Z;
  frame_count : Z
}.

(** [Report]. *)
Record Report : Type := Rep {
  live_allocations : Z;
  leaked_bytes : Z;
  canary_violations : Z;
  double_frees : Z;
  invalid_frees : Z
}.

Definition zero_report : Report := Rep 0 0 0 0 0.

Definition count_violation (r : Report) : Report :=
  Rep (live_allocations r) (leaked_bytes r) (canary_violations r +% 1) (double_frees r) (invalid_frees r).
Definition count_double (r : Report) : Report :=
  Rep (live_allocations r) (leaked_bytes r) (canary_violations r) (double_frees r +% 1) (invalid_frees r).
Definition count_invalid (r : Report) : Report :=
  Rep (live_allocations r) (leaked_bytes r) (canary_violations r) (double_frees r) (invalid_frees r +% 1).

(** The members, over an inner allocator with members [S], and the log. *)
Record t (S : Type) : Type := Make {
  inner_ : S;
  live_ : gmap Z AllocMeta;
  freed_ : gset Z;
  report_ : Report;
  log : list note
}.
Arguments Make {S} _ _ _ _ _.
Arguments inner_ {S} _.
Arguments live_ {S} _.
Arguments freed_ {S} _.
Arguments report_ {S} _.
Arguments log {S} _.

(** ** Canaries *)

(** The loops over the words of a guard, [n] of them left at [a]. *)
Fixpoint put_words (n : nat) (a : Z) (m : mem) : mem :=
  match n with
  | O => m
  | S n => put_words n (a + 4) (store32 m a kCanary)
  end.

Fixpoint words_intact (n : nat) (a : Z) (m : mem) : bool :=
  match n with
  | O => true
  | S n => if negb (load32 m a =? kCanary) then false else words_intact n (a + 4) m
  end.

Definition write_canary (a : Z) (m : mem) : mem := put_words kCanaryWords a m.
Definition check_canary (a : Z) (m : mem) : bool := words_intact kCanaryWords a m.

(** Both guards of the block of [n] bytes at [user]. *)
Definition intact (m : mem) (user n : Z) : bool := check_canary (user - kGuardBytes) m && check_canary (user + n) m.

(** ** The class *)

Section methods.
Context {S : Type} `{!IAllocator S}.
(** What [backtrace] answers, whether stacks are captured, whether symbols are
    found. *)
Context (capture_stacks : bool) (backtrace : Z) (syms_ok : bool).

Definition ctor (inner : S) : t S := Make inner ∅ ∅ zero_report [].

(** A method of the inner allocator. *)
Definition call_inner {A : Type} (c : meth S A) : meth (t S) A := λ s m,
  match c (inner_ s) m with
  | Ok (x, i, m) => Ok (x, Make i (live_ s) (freed_ s) (report_ s) (log s), m)
  | Abort => Abort
  | Fault => Fault
  | OutOfFuel => OutOfFuel
  end.

Definition say (ns : list note) : meth (t S) unit :=
  modify (λ s, Make (inner_ s) (live_ s) (freed_ s) (report_ s) (log s ++ ns)).
Definition count (f : Report → Report) : meth (t S) unit :=
  modify (λ s, Make (inner_ s) (live_ s) (freed_ s) (f (report_ s)) (log s)).
Definition on_mem (f : mem → mem) : meth (t S) unit := λ s m, Ok ((), s, f m).
Definition from_mem {A : Type} (f : mem → A) : meth (t S) A := λ s m, Ok (f m, s, m).

(** One line per frame but the two of the heap itself. *)
Definition stack_lines (meta : AllocMeta) : list note :=
  if (frame_count meta <=? 0) || negb syms_ok then [] else
  replicate (Z.to_nat (frame_count meta - 2)) (Dbg "调用栈").
Definition log_stack (meta : AllocMeta) : meth (t S) unit := say (stack_lines meta).

Definition allocate (size alignment : Z) : meth (t S) Z :=
  let total := kGuardBytes +% size +% kGuardBytes in
  raw ← call_inner (ia_allocate total kDefaultAlignment);
  if raw =? NULL then mret NULL else
  on_mem (write_canary raw);;
  on_mem (write_canary (raw + kGuardBytes + size));;
  let user := raw + kGuardBytes in
  let meta := Meta size (if capture_stacks then backtrace else 0) in
  modify (λ s, Make (inner_ s) (<[user := meta]> (live_ s)) (freed_ s ∖ {[user]}) (report_ s) (log s));;
  mret user.

Definition deallocate (ptr : Z) : meth (t S) unit :=
  if ptr =? NULL then mret () else
  live ← gets live_;
  match live !! ptr with
  | None =>
      freed ← gets freed_;
      if bool_decide (ptr ∈ freed) then
        count count_double;; say [Bug "double-free"; Dbg "修复完毕"]
      else
        count count_invalid;; say [Bug "非法释放"; Dbg "修复完毕"]
  | Some meta =>
      modify (λ s, Make (inner_ s) (delete ptr (live_ s)) ({[ptr]} ∪ freed_ s) (report_ s) (log s));;
      let raw := ptr - kGuardBytes in
      front ← from_mem (check_canary raw);
      back ← from_mem (check_canary (ptr + user_size meta));
      let smashed := negb front || negb back in
      when smashed (count count_violation;; say [Bug "堆越界"];; log_stack meta);;
      on_mem (λ m, memset m raw kPoison (Z.to_nat (kGuardBytes +% user_size meta +% kGuardBytes)));;
      call_inner (ia_deallocate raw);;
      when smashed (say [Dbg "修复完毕"])
  end.

Definition verify (ptr : Z) : meth (t S) bool :=
  live ← gets live_;
  match live !! ptr with
  | None => mret false
  | Some meta =>
      ok ← from_mem (λ m, check_canary (ptr - kGuardBytes) m && check_canary (ptr + user_size meta) m);
      when (negb ok) (say [Bug "堆越界"]);;
      mret ok
  end.

(** The sum is taken over the live blocks in some order; it wraps. *)
Definition report (s : t S) : Report :=
  let r := report_ s in
  Rep (wrap64 (Z.of_nat (base.size (live_ s))))
      (foldl (λ acc pm, acc +% user_size pm.2) (leaked_bytes r) (map_to_list (live_ s)))
      (canary_violations r) (double_frees r) (invalid_frees r).

(** The lines [dump_leaks] prints, the blocks in the order [order]; a stack
    line is given by its number. *)
Inductive leak_line : Type :=
| NoLeaks
| LeakHeader (n : Z)
| LeakBlock (p size : Z)
| LeakFrame (i : Z).

Definition print_stack (meta : AllocMeta) : list leak_line :=
  if (frame_count meta <=? 0) || negb syms_ok then [] else
  (λ i, LeakFrame (Z.of_nat i)) <$> seq 0 (Z.to_nat (frame_count meta - 2)).

Definition dump_leaks (order : list (Z * AllocMeta)) (s : t S) : list leak_line :=
  if bool_decide (live_ s = ∅) then [NoLeaks] else
  LeakHeader (Z.of_nat (base.size (live_ s))) ::
  (order ≫= λ pm, LeakBlock pm.1 (user_size pm.2) :: print_stack pm.2).

(** One leaked block of the destructor's loop. *)
Definition reclaim (pm : Z * AllocMeta) : meth (t S) unit :=
  say [Bug "内存泄漏"];;
  log_stack pm.2;;
  let raw := pm.1 - kGuardBytes in
  on_mem (λ m, memset m raw kPoison (Z.to_nat (kGuardBytes +% user_size pm.2 +% kGuardBytes)));;
  call_inner (ia_deallocate raw);;
  say [Dbg "修复完毕"].

Fixpoint reclaim_all (order : list (Z * AllocMeta)) : meth (t S) unit :=
  match order with
  | [] => mret ()
  | pm :: order => reclaim pm;; reclaim_all order
  end.

(** The destructor, visiting the blocks in the order [order]. *)
Definition dtor (order : list (Z * AllocMeta)) : meth (t S) unit :=
  live ← gets live_;
  if bool_decide (live = ∅) then say [Dbg "健康检查"] else
  say [Bug "内存泄漏"];;
  reclaim_all order;;
  modify (λ s, Make (inner_ s) ∅ (freed_ s) (report_ s) (log s)).

Definition name (s : t S) : string := "DebugHeap".
Definition stats (s : t S) : AllocStats := ia_stats (inner_ s).
Definition walk (s : t S) (m : mem) : outcome (list cpp_BlockInfo) := ia_walk (inner_ s) m.

#[export] Instance dhc_methods : IAllocator (t S) := {
  ia_allocate := allocate;
  ia_deallocate := deallocate;
  ia_name := name;
  ia_stats := stats;
  ia_walk := walk;
  ia_released := t S;
  ia_dtor := λ s, s
}.
End methods.
End DebugHeapCpp.
