(* ===== verification/CppDebugProofs.v ===== *)
(** * The C++ debug heap: correctness

    Over any inner allocator that meets the interface of [Allocator] the class
    meets it too, with the alignment of the inner allocator and 32 bytes less
    per request; it raises no false alarm, detects overwritten guards, double
    and foreign frees and leaks, and never forgets a freed address before it is
    handed out again. *)

From S2P Require Import Prelude Memory Platform Allocator Cpp CppDebugHeap.
From S2P Require Import FreeList FreeListSpec CppFreeList.
Import DebugHeapCpp.

(** ** Canaries *)

Lemma words_intact_agree n a m m' : agree_on (range a (4 * Z.of_nat n)) m m' →
  words_intact n a m' = words_intact n a m.
Proof.
  revert a. induction n as [|n IH]; intros a H; [done|]. cbn [words_intact].
  rewrite (load32_agree m m') by (eapply agree_on_sub; [exact H|]; intros x Hx; rlia).
  destruct (_ =? _); cbn [negb]; [|done]. apply IH. eapply agree_on_sub; [exact H|]. intros x Hx. rlia.
Qed.

Lemma put_words_out n a m : agree_on (λ x, ¬ range a (4 * Z.of_nat n) x) m (put_words n a m).
Proof.
  revert a m. induction n as [|n IH]; intros a m; [done|]. cbn [put_words]. intros x Hx.
  rewrite IH by rlia. apply load8_store32_out. rlia.
Qed.

Lemma put_words_intact n a m : words_intact n a (put_words n a m) = true.
Proof.
  revert a m. induction n as [|n IH]; intros a m; [done|]. cbn [put_words words_intact].
  rewrite (load32_agree (store32 m a kCanary)).
  - rewrite load32_store32_eq. apply IH.
  - intros x Hx. apply put_words_out. rlia.
Qed.

Lemma check_canary_agree a m m' : agree_on (range a 16) m m' → check_canary a m' = check_canary a m.
Proof. intros H. apply words_intact_agree. exact H. Qed.

Lemma intact_agree m m' p n : agree_on (range (p - 16) 16) m m' → agree_on (range (p + n) 16) m m' →
  intact m' p n = intact m p n.
Proof.
  intros H1 H2. unfold intact. change kGuardBytes with 16. by rewrite (check_canary_agree _ m m'), (check_canary_agree _ m m').
Qed.

(** *** The guards byte by byte *)

(** Byte [k] of a guard: those of 0xDEADBEEF, lowest first, over and over. *)
Definition guard_byte (k : Z) : Z := nth (Z.to_nat (k mod 4)) [0xEF; 0xBE; 0xAD; 0xDE] 0.

(** All 16 bytes in front of the block of [n] bytes at [p] and all 16 behind
    it are what the allocation wrote there. *)
Definition guards_kept (m : mem) (p n : Z) : Prop :=
  ∀ k, 0 ≤ k < 16 → load8 m (p - 16 + k) = guard_byte k ∧ load8 m (p + n + k) = guard_byte k.

Lemma canary_word m a : load32 m a = 0xDEADBEEF ↔ ∀ k, 0 ≤ k < 4 → load8 m (a + k) = guard_byte k.
Proof.
  unfold load32. cbn [load_bytes le_val].
  pose proof (load8_range m a). pose proof (load8_range m (a + 1)). pose proof (load8_range m (a + 1 + 1)).
  pose proof (load8_range m (a + 1 + 1 + 1)). split.
  - intros E k Hk. change (2 ^ 8) with 256 in *.
    assert (k = 0 ∨ k = 1 ∨ k = 2 ∨ k = 3) as [-> | [-> | [-> | ->]]] by lia;
      [change (guard_byte 0) with 0xEF; replace (a + 0) with a by lia|change (guard_byte 1) with 0xBE
      |change (guard_byte 2) with 0xAD; replace (a + 2) with (a + 1 + 1) by lia
      |change (guard_byte 3) with 0xDE; replace (a + 3) with (a + 1 + 1 + 1) by lia]; lia.
  - intros Hb. pose proof (Hb 0 ltac:(lia)) as B0. pose proof (Hb 1 ltac:(lia)) as B1. pose proof (Hb 2 ltac:(lia)) as B2.
    pose proof (Hb 3 ltac:(lia)) as B3. unfold guard_byte in *. cbn in B0, B1, B2, B3.
    replace (a + 0) with a in B0 by lia. replace (a + 2) with (a + 1 + 1) in B2 by lia.
    replace (a + 3) with (a + 1 + 1 + 1) in B3 by lia. rewrite B0, B1, B2, B3. reflexivity.
Qed.

Lemma guard_byte_shift k : guard_byte (k + 4) = guard_byte k.
Proof. unfold guard_byte. by replace (k + 4) with (k + 1 * 4) by lia; rewrite Z_mod_plus_full. Qed.

Lemma words_intact_bytes n a m :
  words_intact n a m = true ↔ ∀ k, 0 ≤ k < 4 * Z.of_nat n → load8 m (a + k) = guard_byte k.
Proof.
  revert a. induction n as [|n IH]; intros a; cbn [words_intact]; [split; [lia|done]|].
  change kCanary with 0xDEADBEEF. destruct (Z.eqb_spec (load32 m a) 0xDEADBEEF) as [E|E]; cbn [negb].
  - rewrite IH. rewrite canary_word in E. split; intros H k Hk.
    + destruct (decide (k < 4)); [apply E; lia|]. specialize (H (k - 4) ltac:(lia)).
      replace (a + 4 + (k - 4)) with (a + k) in H by lia. rewrite H, <- guard_byte_shift. f_equal. lia.
    + specialize (H (k + 4) ltac:(lia)). rewrite guard_byte_shift in H. rewrite <- H. f_equal. lia.
  - split; [done|]. intros H. destruct E. apply canary_word. intros k Hk. apply H. lia.
Qed.

Lemma intact_bytes m p n : intact m p n = true ↔ guards_kept m p n.
Proof.
  unfold intact, check_canary, guards_kept. rewrite andb_true_iff, !words_intact_bytes. change kGuardBytes with 16.
  change (4 * Z.of_nat kCanaryWords) with 16. split; [intros [H1 H2] k Hk; split; auto|].
  intros H. split; intros k Hk; by apply H.
Qed.

(** ** The invariant *)

Section spec.
Context {S : Type} `{!IAllocator S} {lim : Z} `{!AllocatorSpec HF_DEFAULT_ALIGN lim S}.
Context (capture_stacks : bool) (backtrace : Z) (syms_ok : bool) (Hlim : lim ≤ 2 ^ 62).

(** The inner allocator's live blocks are those of the clients with their
    guards. *)
Definition inner_rel (LB L : live_map) : Prop :=
  (∀ p n, L !! p = Some n → 0 ≤ n ∧ LB !! (p - 16) = Some (n + 32)) ∧
  (∀ r k, LB !! r = Some k → is_Some (L !! (r + 16))).

(** Inner allocator, table and live blocks belong together, whatever is in the
    guards. *)
Record cdh_wf (s : t S) (m : mem) (L LB : live_map) : Prop := {
  cw_inner : alloc_inv (inner_ s) m LB;
  cw_live : user_size <$> live_ s = L;
  cw_freed : ∀ p, p ∈ freed_ s → L !! p = None;
  cw_rel : inner_rel LB L
}.

Definition no_alarm (r : Report) : Prop :=
  canary_violations r = 0 ∧ double_frees r = 0 ∧ invalid_frees r = 0 ∧ leaked_bytes r = 0.

Definition cdh_inv (s : t S) (m : mem) (L : live_map) : Prop :=
  ∃ LB, cdh_wf s m L LB ∧ (∀ p n, L !! p = Some n → intact m p n = true) ∧ no_alarm (report_ s).

Lemma inner_block s m L LB p n : cdh_wf s m L LB → L !! p = Some n →
  16 < p ∧ p + n + 16 ≤ 2 ^ 64 ∧ 0 ≤ n ∧ (16 | p).
Proof.
  intros [Hinv _ _ [HB _]] Hp. destruct (HB p n Hp) as [Hn Hb].
  destruct (spec_live_range _ _ _ _ _ Hinv Hb) as (? & ? & ? & [i Hi]). change HF_DEFAULT_ALIGN with 16 in Hi.
  split_and!; try lia. exists (i + 1). lia.
Qed.

Lemma inner_apart s m L LB p n q k : cdh_wf s m L LB → L !! p = Some n → L !! q = Some k → p ≠ q →
  ∀ x, range (p - 16) (n + 32) x → ¬ range (q - 16) (k + 32) x.
Proof.
  intros [Hinv _ _ [HB _]] Hp Hq Hne. destruct (HB p n Hp) as [_ H1]. destruct (HB q k Hq) as [_ H2].
  apply (spec_live_apart _ _ _ _ _ _ _ Hinv H1 H2). lia.
Qed.

Lemma inner_in_live LB L x : inner_rel LB L → in_live L x → in_live LB x.
Proof.
  intros [HB _] (p & n & Hp & Hr). destruct (HB p n Hp) as [? H]. exists (p - 16), (n + 32). split; [done|rlia].
Qed.

Lemma live_lookup s m L LB p : cdh_wf s m L LB →
  match L !! p with
  | Some n => ∃ meta, live_ s !! p = Some meta ∧ user_size meta = n
  | None => live_ s !! p = None
  end.
Proof.
  intros [_ <- _ _]. rewrite lookup_fmap. destruct (live_ s !! p) as [meta|]; [by exists meta|done].
Qed.

(** The memory of a new block: two intact guards, nothing else touched. *)
Lemma new_guards m raw size : 0 ≤ size →
  let m' := write_canary (raw + kGuardBytes + size) (write_canary raw m) in
  intact m' (raw + 16) size = true ∧ agree_on (λ x, ¬ range raw (size + 32) x) m m' ∧
  agree_on (range (raw + 16) size) m m'.
Proof.
  intros Hs m'. change kGuardBytes with 16 in *.
  assert (agree_on (λ x, ¬ range raw 16 x) m (write_canary raw m)) as A1 by exact (put_words_out 4 raw m).
  assert (agree_on (λ x, ¬ range (raw + 16 + size) 16 x) (write_canary raw m) m') as A2 by exact (put_words_out 4 (raw + 16 + size) _).
  split_and!.
  - unfold intact. apply andb_true_iff. change kGuardBytes with 16. split.
    + replace (raw + 16 - 16) with raw by lia. rewrite (check_canary_agree _ (write_canary raw m)); [apply put_words_intact|].
      intros x Hx. apply A2. rlia.
    + apply put_words_intact.
  - intros x Hx. rewrite A2, A1 by rlia. done.
  - intros x Hx. rewrite A2, A1 by rlia. done.
Qed.

Lemma inner_rel_insert LB L raw n : inner_rel LB L → 0 ≤ n → inner_rel (<[raw := n + 32]> LB) (<[raw + 16 := n]> L).
Proof.
  intros [H1 H2] Hn. split.
  - intros p k Hp. apply lookup_insert_Some in Hp as [[<- <-]|[Hne Hp]].
    + split; [done|]. replace (raw + 16 - 16) with raw by lia. by rewrite lookup_insert_eq.
    + rewrite lookup_insert_ne by lia. by apply H1.
  - intros r k Hr. apply lookup_insert_is_Some'. apply lookup_insert_Some in Hr as [[<- _]|[Hne Hr]]; [by left|right]. by apply (H2 r k).
Qed.

Lemma inner_rel_delete LB L p : inner_rel LB L → inner_rel (delete (p - 16) LB) (delete p L).
Proof.
  intros [H1 H2]. split.
  - intros q k Hq. apply lookup_delete_Some in Hq as [Hne Hq]. rewrite lookup_delete_ne by lia. by apply H1.
  - intros r k Hr. apply lookup_delete_Some in Hr as [Hne Hr]. rewrite lookup_delete_ne by lia. by apply (H2 r k).
Qed.

(** Guards of live blocks survive changes outside the inner allocator's live
    blocks. *)
Lemma guards_survive L LB m m' : inner_rel LB L → agree_on (in_live LB) m m' →
  (∀ p n, L !! p = Some n → intact m p n = true) → ∀ p n, L !! p = Some n → intact m' p n = true.
Proof.
  intros [HB _] Hag H p n Hp. destruct (HB p n Hp) as [Hn Hb].
  rewrite (intact_agree m m'); [by apply H|..]; intros x Hx; apply Hag; exists (p - 16), (n + 32); (split; [done|rlia]).
Qed.

Lemma cdh_inv_allocate s m L size : cdh_inv s m L → 0 ≤ size ≤ lim - 32 →
  ∃ s' m' p, allocate capture_stacks backtrace size HF_DEFAULT_ALIGN s m = Ok (p, s', m') ∧
    agree_on (in_live L) m m' ∧
    ((p = NULL ∧ cdh_inv s' m' L ∧ freed_ s' = freed_ s) ∨
     (p ≠ NULL ∧ L !! p = None ∧ apart L p size ∧ cdh_inv s' m' (<[p := size]> L) ∧ freed_ s' = freed_ s ∖ {[p]})).
Proof.
  intros (LB & Hwf & Hgu & Hal) Hs. pose proof Hwf as [Hinv Hlive Hfr Hrel]. unfold allocate. run_meth. unfold call_inner.
  change kGuardBytes with 16. rewrite (wrap64_small (16 + size)), wrap64_small by ulia.
  destruct (spec_allocate _ _ _ (16 + size + 16) Hinv ltac:(lia)) as (i & m1 & raw & E & Hag & Hcase).
  unfold hf_allocate in E. simpl in E. change HF_DEFAULT_ALIGN with kDefaultAlignment in E.
  destruct (ia_allocate (16 + size + 16) kDefaultAlignment (inner_ s) m) as [[[x i'] m1']| | |]; try done. injection E as -> -> ->.
  assert (agree_on (in_live L) m m1) as HagL by (eapply agree_on_sub; [exact Hag|]; intros y; by apply inner_in_live).
  pose proof (guards_survive L LB m m1 Hrel Hag Hgu) as Hgu1.
  destruct Hcase as [[-> Hinv1]|(Hr & HN & Hap & Hinv1)].
  { rewrite Z.eqb_refl. eexists _, _, _. split; [reflexivity|]. split; [done|]. left. split; [done|]. split; [|done].
    exists LB. split; [|done]. by constructor. }
  rewrite (proj2 (Z.eqb_neq _ _) Hr). unfold on_mem.
  destruct (new_guards m1 raw size ltac:(lia)) as (Hg & Hag2 & _). change kGuardBytes with 16 in *.
  set (m2 := write_canary (raw + 16 + size) (write_canary raw m1)) in *. clearbody m2.
  replace (16 + size + 16) with (size + 32) in * by lia.
  assert (<[raw := size + 32]> LB !! raw = Some (size + 32)) as Hlook by apply lookup_insert_eq.
  destruct (spec_live_range _ _ _ _ _ Hinv1 Hlook) as (R1 & R2 & R3 & _).
  assert (L !! (raw + 16) = None) as HLN.
  { destruct (L !! (raw + 16)) as [n|] eqn:E; [|done]. destruct (proj1 Hrel _ _ E) as [_ Hx].
    replace (raw + 16 - 16) with raw in Hx by lia. congruence. }
  assert (∀ x, in_live L x → ¬ range raw (size + 32) x) as Hout.
  { intros y Hy Hrx. apply (Hap y Hrx). by apply (inner_in_live LB L). }
  eexists _, _, _. split; [reflexivity|].
  split; [eapply agree_on_trans; [exact HagL|]; eapply agree_on_sub; [exact Hag2|]; exact Hout|]. right. split_and!.
  - lia.
  - done.
  - intros y Hy Hl. apply (Hout y Hl). rlia.
  - exists (<[raw := size + 32]> LB). split; [|split; [|done]].
    + constructor; cbn [inner_ live_ freed_].
      * apply (spec_client_write _ m1); [done|]. eapply agree_on_sub; [exact Hag2|]. intros y Hy Hrx. apply Hy.
        exists raw, (size + 32). by split.
      * by rewrite fmap_insert, Hlive.
      * intros p Hp. apply elem_of_difference in Hp as [Hp Hne]. rewrite lookup_insert_ne by set_solver. by apply Hfr.
      * by apply inner_rel_insert; [|lia].
    + intros p n Hp. apply lookup_insert_Some in Hp as [[<- <-]|[Hne Hp]]; [done|].
      destruct (proj1 Hrel p n Hp) as [Hn Hb]. rewrite (intact_agree m1 m2); [by apply Hgu1|..];
        intros y Hy; apply Hag2; intros Hrx; apply (Hap y Hrx); exists (p - 16), (n + 32); (split; [done|rlia]).
  - done.
Qed.

(** What freeing a live block of [n] bytes logs. *)
Definition free_notes (ok : bool) (meta : AllocMeta) : list note :=
  if ok then [] else [Bug "堆越界"] ++ stack_lines syms_ok meta ++ [Dbg "修复完毕"].

(** Freeing a live block: the guards decide whether a violation is counted and
    logged; either way the block is poisoned whole, given back and remembered
    as freed. *)
Lemma cdh_deallocate_live s m L LB p n : cdh_wf s m L LB → L !! p = Some n →
  ∃ s' m' meta, deallocate syms_ok p s m = Ok ((), s', m') ∧ live_ s !! p = Some meta ∧
    cdh_wf s' m' (delete p L) (delete (p - 16) LB) ∧ agree_on (in_live (delete (p - 16) LB)) m m' ∧
    freed_ s' = {[p]} ∪ freed_ s ∧
    report_ s' = (if intact m p n then report_ s else count_violation (report_ s)) ∧
    log s' = log s ++ free_notes (intact m p n) meta ∧
    ∃ mp, (∀ x, range (p - 16) (n + 32) x → load8 mp x = kPoison) ∧
      agree_on (λ x, ¬ range (p - 16) (n + 32) x) m mp ∧
      hf_deallocate (inner_ s) mp (p - 16) = Ok (inner_ s', m').
Proof.
  intros Hwf Hp. pose proof Hwf as [Hinv Hlive Hfr Hrel]. pose proof (inner_block _ _ _ _ _ _ Hwf Hp) as (B1 & B2 & B3 & _).
  pose proof (live_lookup s m L LB p Hwf) as Hl. rewrite Hp in Hl. destruct Hl as (meta & Hmeta & Hsz).
  unfold deallocate. run_meth. rewrite (proj2 (Z.eqb_neq p 0)) by lia. rewrite Hmeta. unfold from_mem, on_mem.
  change kGuardBytes with 16. rewrite Hsz, (wrap64_small (16 + n)), wrap64_small by ulia.
  assert (intact m p n = check_canary (p - 16) m && check_canary (p + n) m) as Hin by done.
  assert (negb (check_canary (p - 16) m) || negb (check_canary (p + n) m) = negb (intact m p n)) as ->
    by (rewrite Hin; by rewrite negb_andb).
  clear Hin. set (ok := intact m p n).
  set (mp := memset m (p - 16) kPoison (Z.to_nat (16 + n + 16))).
  assert (∀ x, range (p - 16) (n + 32) x → load8 mp x = kPoison) as Hpoison.
  { intros x Hx. unfold mp. rewrite load8_memset_in by (rewrite Z2Nat.id by lia; rlia). done. }
  assert (agree_on (λ x, ¬ range (p - 16) (n + 32) x) m mp) as Hag1.
  { intros x Hx. apply load8_memset_out. rewrite Z2Nat.id by lia. rlia. }
  destruct (proj1 Hrel p n Hp) as [_ HLB].
  assert (alloc_inv (inner_ s) mp LB) as Hinv1.
  { apply (spec_client_write _ m); [done|]. eapply agree_on_sub; [exact Hag1|]. intros x Hx Hr. apply Hx.
    exists (p - 16), (n + 32). by split. }
  destruct (spec_deallocate _ _ _ _ _ Hinv1 HLB) as (i & m2 & E & Hag2 & Hinv2). pose proof E as E0.
  unfold hf_deallocate in E. simpl in E.
  assert (ia_deallocate (p - 16) (inner_ s) mp = Ok ((), i, m2)) as Ei.
  { destruct (ia_deallocate (p - 16) (inner_ s) mp) as [[[[] i'] m2']| | |]; try done. by injection E as -> ->. }
  assert (agree_on (in_live (delete (p - 16) LB)) m m2) as Hag.
  { eapply agree_on_trans; [|exact Hag2]. eapply agree_on_sub; [exact Hag1|]. intros x (r & k & Hr & Hx) Hpx.
    apply lookup_delete_Some in Hr as [Hne Hr]. by apply (spec_live_apart _ _ _ _ _ _ _ Hinv Hr HLB ltac:(done) x Hx). }
  assert (∀ rep lg, cdh_wf (Make i (delete p (live_ s)) ({[p]} ∪ freed_ s) rep lg) m2 (delete p L) (delete (p - 16) LB)) as Hwf2.
  { intros rep lg. constructor; cbn [inner_ live_ freed_].
    - done.
    - by rewrite fmap_delete, Hlive.
    - intros q Hq. destruct (decide (q = p)) as [->|Hne]; [apply lookup_delete_eq|]. rewrite lookup_delete_ne by done.
      apply Hfr. set_solver.
    - by apply inner_rel_delete. }
  unfold call_inner, count, say, log_stack, say. run_meth. cbn [inner_ live_ freed_ report_ log].
  destruct ok; cbn [negb]; run_meth; cbn [inner_ live_ freed_ report_ log]; fold mp; rewrite Ei; cbn [inner_ live_ freed_ report_ log];
    (eexists _, m2, meta; split; [reflexivity|]; split; [done|]; split; [apply Hwf2|]; split; [done|]; split; [done|];
     split; [done|]; split; [|by exists mp]).
  - unfold free_notes. by rewrite app_nil_r.
  - unfold free_notes. cbn [log]. by rewrite <- !app_assoc.
Qed.

Lemma cdh_inv_deallocate s m L p n : cdh_inv s m L → L !! p = Some n →
  ∃ s' m', deallocate syms_ok p s m = Ok ((), s', m') ∧
    agree_on (in_live (delete p L)) m m' ∧ cdh_inv s' m' (delete p L).
Proof.
  intros (LB & Hwf & Hgu & Hal) Hp.
  destruct (cdh_deallocate_live s m L LB p n Hwf Hp) as (s' & m' & meta & E & _ & Hwf' & Hag & _ & Hrep & _).
  exists s', m'. split; [done|]. split.
  { eapply agree_on_sub; [exact Hag|]. intros x. apply inner_in_live. by apply (cw_rel _ _ _ _ Hwf'). }
  exists (delete (p - 16) LB). split; [done|]. split.
  - apply (guards_survive _ _ m m' (cw_rel _ _ _ _ Hwf') Hag). intros q k Hq.
    apply lookup_delete_Some in Hq as [_ Hq]. by apply Hgu.
  - rewrite Hrep, (Hgu p n Hp). done.
Qed.

(** A pointer that is not live: one counter and two lines of the log. *)
Lemma cdh_deallocate_other s m L LB p : cdh_wf s m L LB → p ≠ NULL → L !! p = None →
  deallocate syms_ok p s m =
    Ok ((), Make (inner_ s) (live_ s) (freed_ s)
              (if bool_decide (p ∈ freed_ s) then count_double (report_ s) else count_invalid (report_ s))
              (log s ++ (if bool_decide (p ∈ freed_ s) then [Bug "double-free"; Dbg "修复完毕"]
                         else [Bug "非法释放"; Dbg "修复完毕"])), m).
Proof.
  intros Hwf Hz Hp. pose proof (live_lookup s m L LB p Hwf) as Hl. rewrite Hp in Hl.
  unfold deallocate, count, say. run_meth. rewrite (proj2 (Z.eqb_neq _ _) Hz), Hl. by destruct (bool_decide _).
Qed.

#[export] Instance dhc_spec :
  AllocatorSpec HF_DEFAULT_ALIGN (lim - 32) (t S)
    (hf_allocator_vtable0 := IAllocator_vtable (IAllocator0 := dhc_methods capture_stacks backtrace syms_ok)).
Proof.
  refine {| alloc_inv := cdh_inv |}.
  - intros s m L p n (LB & Hwf & _) Hp. pose proof (inner_block _ _ _ _ _ _ Hwf Hp) as (? & ? & ? & ?). split_and!; try done; lia.
  - intros s m L p n q k (LB & Hwf & _) Hp Hq Hne x Hx Hx'.
    pose proof (inner_block _ _ _ _ _ _ Hwf Hp). pose proof (inner_block _ _ _ _ _ _ Hwf Hq).
    apply (inner_apart _ _ _ _ _ _ _ _ Hwf Hp Hq Hne x); rlia.
  - intros s m L size Hinv Hs. destruct (cdh_inv_allocate s m L size Hinv Hs) as (s' & m' & p & E & Hag & Hcase).
    exists s', m', p. unfold hf_allocate. simpl. rewrite E. split; [done|]. split; [done|].
    destruct Hcase as [(? & ? & _)|(? & ? & ? & ? & _)]; auto.
  - intros s m L p n Hinv Hp. destruct (cdh_inv_deallocate s m L p n Hinv Hp) as (s' & m' & E & Hag & Hinv').
    exists s', m'. unfold hf_deallocate. simpl. rewrite E. done.
  - intros s m m' L (LB & Hwf & Hgu & Hal) Hag. pose proof Hwf as [Hinv Hlive Hfr Hrel].
    exists LB. split; [|split; [|done]].
    + constructor; try done. apply (spec_client_write _ m); [done|]. eapply agree_on_sub; [exact Hag|].
      intros x Hx Hl. by apply Hx, (inner_in_live LB L).
    + intros p n Hp. pose proof (inner_block _ _ _ _ _ _ Hwf Hp) as (_ & _ & Hn & _).
      rewrite (intact_agree m m'); [by apply Hgu|..]; intros x Hx; apply Hag; intros (q & k & Hq & Hr);
        (destruct (decide (q = p)) as [->|Hne]; [simplify_eq; rlia|]);
        apply (inner_apart _ _ _ _ _ _ _ _ Hwf Hq Hp Hne x); rlia.
Defined.

Lemma cdh_ctor_inv (b : S) m : alloc_inv b m ∅ → cdh_inv (ctor b) m ∅.
Proof.
  intros Hinv. exists ∅. split; [|done]. by constructor.
Qed.

(** ** Addresses are never forgotten *)

(** The addresses the heap has an opinion on. *)
Definition known (s : t S) : gset Z := dom (live_ s) ∪ freed_ s.

Lemma known_allocate size al s m p s' m' :
  allocate capture_stacks backtrace size al s m = Ok (p, s', m') → known s ⊆ known s'.
Proof.
  unfold allocate, call_inner, on_mem. run_meth. destruct (ia_allocate _ _ _ _) as [[[raw i] m1]| | |]; try done.
  destruct (raw =? NULL); intros [= <- <- <-]; [done|]. unfold known. cbn [live_ freed_]. rewrite dom_insert_L.
  intros x Hx. destruct (decide (x = raw + kGuardBytes)); set_solver.
Qed.

Lemma known_deallocate s m p s' m' : deallocate syms_ok p s m = Ok ((), s', m') → known s ⊆ known s'.
Proof.
  unfold deallocate, call_inner, on_mem, from_mem, count, say, log_stack, say. run_meth.
  destruct (p =? NULL); [by intros [= <- <-]|]. destruct (live_ s !! p) as [meta|] eqn:E.
  - cbn [live_ freed_ inner_ report_ log].
    assert (known s ⊆ dom (delete p (live_ s)) ∪ ({[p]} ∪ freed_ s)) as H.
    { unfold known. rewrite dom_delete_L. intros x Hx. destruct (decide (x = p)); set_solver. }
    destruct (negb _ || negb _); run_meth; cbn [live_ freed_ inner_ report_ log];
      (destruct (ia_deallocate _ _ _) as [[[? i] m1]| | |]; try done); intros [= <- <-]; exact H.
  - destruct (bool_decide _); intros [= <- <-]; done.
Qed.

(** ** Reports, sweeps and the end *)

(** The bytes of the live blocks. *)
Definition total_bytes (L : live_map) : Z := foldr (λ pn acc, pn.2 + acc) 0 (map_to_list L).

Lemma report_exact s m L LB : cdh_wf s m L LB → leaked_bytes (report_ s) = 0 →
  report s = Rep (wrap64 (Z.of_nat (base.size L))) (wrap64 (total_bytes L))
               (canary_violations (report_ s)) (double_frees (report_ s)) (invalid_frees (report_ s)).
Proof.
  intros [_ <- _ _] Hz. unfold report. rewrite Hz. f_equal.
  - by rewrite map_size_fmap.
  - unfold total_bytes. rewrite map_to_list_fmap.
    assert (∀ l a, foldl (λ acc pm, acc +% user_size pm.2) (wrap64 a) l =
      wrap64 (a + foldr (λ (pn : Z * Z) acc, pn.2 + acc) 0 (prod_map id user_size <$> l))) as H.
    { induction l as [|[p meta] l IH]; intros a; cbn [foldl fmap list_fmap foldr]; [by rewrite Z.add_0_r|].
      replace (wrap64 a +% user_size (p, meta).2) with (wrap64 (a + user_size meta)) by (unfold wrap64; by rewrite Zplus_mod_idemp_l).
      rewrite IH. cbn. f_equal. change (list_fmap _ _ (prod_map id user_size) l) with (prod_map id user_size <$> l). lia. }
    specialize (H (map_to_list (live_ s)) 0). rewrite Z.add_0_l in H. exact H.
Qed.

Lemma verify_exact s m L LB p : cdh_wf s m L LB →
  ∃ s', verify p s m = Ok (match L !! p with Some n => intact m p n | None => false end, s', m) ∧
    live_ s' = live_ s ∧ freed_ s' = freed_ s ∧ inner_ s' = inner_ s ∧ report_ s' = report_ s.
Proof.
  intros Hwf. pose proof (live_lookup s m L LB p Hwf) as Hl. unfold verify, from_mem, say. run_meth.
  destruct (L !! p) as [n|].
  - destruct Hl as (meta & -> & ->). fold (intact m p n). change (check_canary (p - kGuardBytes) m && check_canary (p + n) m) with (intact m p n).
    destruct (intact m p n); cbn [negb]; by eexists.
  - rewrite Hl. by exists s.
Qed.

(** The loop of the destructor gives every block it visits back. *)
Lemma reclaim_all_spec order : ∀ s m LB, alloc_inv (inner_ s) m LB → NoDup order.*1 →
  (∀ p meta, (p, meta) ∈ order → 0 ≤ user_size meta ∧ LB !! (p - 16) = Some (user_size meta + 32)) →
  (∀ r k, LB !! r = Some k → r + 16 ∈ order.*1) →
  ∃ s' m', reclaim_all syms_ok order s m = Ok ((), s', m') ∧ alloc_inv (inner_ s') m' ∅.
Proof.
  induction order as [|[p meta] order IH]; intros s m LB Hinv Hnd Hin Hall.
  { exists s, m. split; [done|]. replace (∅ : live_map) with LB; [done|]. apply map_empty. intros r.
    destruct (LB !! r) as [k|] eqn:E; [|done]. apply Hall in E. by apply elem_of_nil in E. }
  rewrite fmap_cons in Hnd. cbn [fst] in Hnd. apply NoDup_cons in Hnd as [Hni Hnd].
  destruct (Hin p meta ltac:(left)) as [Hn HLB]. destruct (spec_live_range _ _ _ _ _ Hinv HLB) as (R1 & R2 & R3 & _).
  cbn [reclaim_all]. unfold reclaim, call_inner, on_mem, say, log_stack, say. run_meth. cbn [inner_ live_ freed_ report_ log fst snd].
  change kGuardBytes with 16. rewrite (wrap64_small (16 + user_size meta)), wrap64_small by ulia.
  set (mp := memset m (p - 16) kPoison _).
  assert (alloc_inv (inner_ s) mp LB) as Hinv1.
  { apply (spec_client_write _ m); [done|]. intros x Hx. apply load8_memset_out. rewrite Z2Nat.id by lia. intros Hr. apply Hx.
    exists (p - 16), (user_size meta + 32). split; [done|rlia]. }
  destruct (spec_deallocate _ _ _ _ _ Hinv1 HLB) as (i & m2 & E & _ & Hinv2). unfold hf_deallocate in E. simpl in E.
  destruct (ia_deallocate (p - 16) (inner_ s) mp) as [[[[] i'] m2']| | |]; try done. injection E as -> ->.
  apply (IH _ _ (delete (p - 16) LB)); [done|done|..].
  - intros q mt Hq. destruct (Hin q mt ltac:(by right)) as [? Hb]. split; [done|]. rewrite lookup_delete_ne; [done|].
    intros Heq. apply Hni. apply list_elem_of_fmap. exists (q, mt). split; [simpl; lia|done].
  - intros r k Hr. apply lookup_delete_Some in Hr as [Hne Hr]. apply Hall in Hr. rewrite fmap_cons in Hr. cbn [fst] in Hr.
    apply elem_of_cons in Hr as [Hr|Hr]; [lia|done].
Qed.

Lemma dtor_spec s m L LB order : cdh_wf s m L LB → order ≡ₚ map_to_list (live_ s) →
  ∃ s' m', dtor syms_ok order s m = Ok ((), s', m') ∧ alloc_inv (inner_ s') m' ∅ ∧ live_ s' = ∅.
Proof.
  intros Hwf Hperm. pose proof Hwf as [Hinv Hlive Hfr [HB1 HB2]].
  assert (∀ p n, L !! p = Some n ↔ ∃ meta, (p, meta) ∈ order ∧ user_size meta = n) as HL.
  { intros p n. rewrite <- Hlive, lookup_fmap_Some. setoid_rewrite Hperm. setoid_rewrite elem_of_map_to_list.
    split; intros (meta & ? & ?); exists meta; done. }
  unfold dtor, say. run_meth. destruct (bool_decide (live_ s = ∅)) eqn:Ee.
  { apply bool_decide_eq_true_1 in Ee. eexists _, m. split; [reflexivity|]. cbn [inner_ live_]. split; [|done].
    replace (∅ : live_map) with LB; [done|]. apply map_empty. intros r. destruct (LB !! r) as [k|] eqn:E; [|done].
    destruct (HB2 r k E) as [n Hn]. rewrite <- Hlive, Ee, fmap_empty in Hn. by rewrite lookup_empty in Hn. }
  set (s1 := Make _ _ _ _ _). destruct (reclaim_all_spec order s1 m LB) as (s' & m' & -> & Hinv'); [done|..].
  - rewrite Hperm. apply NoDup_fst_map_to_list.
  - intros p meta Hin. apply HB1. apply HL. by exists meta.
  - intros r k Hr. destruct (HB2 r k Hr) as [n Hn]. apply HL in Hn as (meta & Hin & _).
    apply list_elem_of_fmap. by exists (r + 16, meta).
  - eexists _, m'. split; [reflexivity|]. by split.
Qed.
End spec.

(** ** Claims *)

Section claims.
Context {S : Type} `{!IAllocator S} {lim : Z} `{!AllocatorSpec HF_DEFAULT_ALIGN lim S}.
Context (capture : bool) (frames : Z) (syms : bool).

Abbreviation VT := (IAllocator_vtable (IAllocator0 := dhc_methods capture frames syms)).

(** Along any program the heap keeps its opinion on every address. *)
Lemma known_run (c c' : client (t S)) os : client_run (hf_allocator_vtable0 := VT) c os = Ok c' →
  known (cl_alloc c) ⊆ known (cl_alloc c').
Proof.
  revert c. induction os as [|o os IH]; intros c; cbn [client_run]; [by intros [= ->]|].
  destruct (client_step (hf_allocator_vtable0 := VT) c o) as [c1| | |] eqn:E; try done. cbn [mbind outcome_bind]. intros Hrun.
  transitivity (known (cl_alloc c1)); [|by apply IH]. destruct o as [n|p|x v]; cbn [client_step] in E.
  - unfold hf_allocate in E. simpl in E. destruct (allocate _ _ _ _ _ _) as [[[p s'] m']| | |] eqn:Ea; try done.
    injection E as <-. by eapply known_allocate.
  - destruct (cl_live c !! p); [|by injection E as <-]. unfold hf_deallocate in E. simpl in E.
    destruct (deallocate _ _ _ _) as [[[[] s'] m']| | |] eqn:Ed; try done. injection E as <-. by eapply known_deallocate.
  - destruct (in_live_b _ x); by injection E as <-.
Qed.
End claims.

(** C13. The C++ debug heap is transparent to correct clients, whatever
    allocator it decorates.  Over any allocator that meets the interface for
    requests up to some [lim] of at most 2^62, any program of allocations of at
    most [lim - 32] bytes each (the size with the two guards wraps near 2^64),
    frees of owned blocks and writes to owned bytes runs without abort or
    fault; its blocks are 16-aligned (in C they are only 4-aligned), apart, and
    keep what was written; no violation, double or invalid free is reported,
    [verify] accepts exactly the live pointers, the leaks reported are the live
    blocks and their bytes (modulo 2^64), and the destructor, in whatever order
    it visits the table, leaves the inner allocator with no live block. *)
Theorem cpp_debug_client_safe {S : Type} `{!IAllocator S} {lim : Z} `{!AllocatorSpec HF_DEFAULT_ALIGN lim S}
    capture frames syms (b : S) m os :
  lim ≤ 2 ^ 62 → alloc_inv b m ∅ → Forall (op_ok (lim - 32)) os →
  ∃ c, client_run (hf_allocator_vtable0 := IAllocator_vtable (IAllocator0 := dhc_methods capture frames syms))
         (Client (ctor b) m ∅ ∅) os = Ok c ∧ client_ok kDefaultAlignment c ∧
    report (cl_alloc c) = Rep (wrap64 (Z.of_nat (base.size (cl_live c)))) (wrap64 (total_bytes (cl_live c))) 0 0 0 ∧
    (∀ p, ∃ s', verify p (cl_alloc c) (cl_mem c) = Ok (bool_decide (is_Some (cl_live c !! p)), s', cl_mem c)) ∧
    ∀ order, order ≡ₚ map_to_list (live_ (cl_alloc c)) →
      ∃ s' m', dtor syms order (cl_alloc c) (cl_mem c) = Ok ((), s', m') ∧ alloc_inv (inner_ s') m' ∅.
Proof.
  intros Hlim Hinv Hos. pose proof (cdh_ctor_inv b m Hinv) as H0.
  destruct (client_run_ok (AllocatorSpec0 := dhc_spec capture frames syms Hlim) (ctor b) m ∅ os H0 Hos)
    as (c & Hrun & Hok & (LB & Hwf & Hgu & (Hv & Hd & Hi & Hl))).
  exists c. split; [done|]. split; [done|]. split; [|split].
  - by rewrite (report_exact _ _ _ _ Hwf Hl), Hv, Hd, Hi.
  - intros p. destruct (verify_exact _ _ _ _ p Hwf) as (s' & E & _). exists s'. rewrite E. do 3 f_equal.
    destruct (cl_live c !! p) as [n|] eqn:Ep; [by rewrite (Hgu p n Ep), bool_decide_true by (by eexists)|].
    by rewrite bool_decide_false by (by intros [? [=]]).
  - intros order Hperm. destruct (dtor_spec syms _ _ _ _ order Hwf Hperm) as (s' & m' & E & ? & _). by exists s', m'.
Qed.


(** The C++ debug heap never forgets a block.  Once a block has been handed
    out, whatever program follows, freeing its address again while it is not
    live is counted as a double free, leaves memory and the inner allocator
    alone, and is logged.  (The C heap forgets freed blocks when its table
    grows.) *)
Theorem cpp_debug_remembers {S : Type} `{!IAllocator S} {lim : Z} `{!AllocatorSpec HF_DEFAULT_ALIGN lim S}
    capture frames syms (b : S) m os1 os2 c1 c2 p n :
  let V := IAllocator_vtable (IAllocator0 := dhc_methods capture frames syms) in
  lim ≤ 2 ^ 62 → alloc_inv b m ∅ → Forall (op_ok (lim - 32)) (os1 ++ os2) →
  client_run (hf_allocator_vtable0 := V) (Client (ctor b) m ∅ ∅) os1 = Ok c1 → cl_live c1 !! p = Some n →
  client_run (hf_allocator_vtable0 := V) c1 os2 = Ok c2 → cl_live c2 !! p = None →
  ∃ s', deallocate syms p (cl_alloc c2) (cl_mem c2) = Ok ((), s', cl_mem c2) ∧ inner_ s' = inner_ (cl_alloc c2) ∧
    double_frees (report_ s') = 1 ∧ log s' = log (cl_alloc c2) ++ [Bug "double-free"; Dbg "修复完毕"].
Proof.
  intros V Hlim Hinv Hos Hrun1 Hp1 Hrun2 Hp2. apply Forall_app in Hos as [Hos1 Hos2].
  pose proof (cdh_ctor_inv b m Hinv) as H0.
  destruct (client_run_safe (AllocatorSpec0 := dhc_spec capture frames syms Hlim) (Client (ctor b) m ∅ ∅) os1) as (c1' & E1 & Hc1);
    [split; [done|]; intros x v; simpl; by rewrite lookup_empty|done|]. unfold V in Hrun1. rewrite E1 in Hrun1. injection Hrun1 as ->.
  destruct (client_run_safe (AllocatorSpec0 := dhc_spec capture frames syms Hlim) c1 os2 Hc1 Hos2) as (c2' & E2 & Hc2).
  unfold V in Hrun2. rewrite E2 in Hrun2. injection Hrun2 as ->.
  destruct Hc1 as [(LB1 & Hwf1 & _) _]. destruct Hc2 as [(LB2 & Hwf2 & _ & (_ & Hd & _)) _].
  pose proof (inner_block _ _ _ _ _ _ Hwf1 Hp1) as (Hpos & _).
  pose proof (live_lookup _ _ _ _ p Hwf1) as Hl1. rewrite Hp1 in Hl1. destruct Hl1 as (meta & Hl1 & _).
  pose proof (live_lookup _ _ _ _ p Hwf2) as Hl2. rewrite Hp2 in Hl2.
  assert (p ∈ freed_ (cl_alloc c2)) as Hfr.
  { assert (p ∈ known (cl_alloc c2)) as Hk.
    { apply (known_run capture frames syms c1 c2 os2 E2). unfold known. apply elem_of_union_l. apply elem_of_dom. by eexists. }
    unfold known in Hk. apply elem_of_union in Hk as [Hk|Hk]; [|done]. apply elem_of_dom in Hk as [? Hk]. congruence. }
  rewrite (cdh_deallocate_other syms _ _ _ _ p Hwf2 ltac:(lia) Hp2). rewrite bool_decide_true by done.
  eexists. split; [reflexivity|]. split; [done|]. split; [|done]. cbn [report_ count_double double_frees]. by rewrite Hd.
Qed.

(** The C++ debug heap over a C++ free list of one page. *)
Definition ex_inner : FreeListAllocator.t := FreeListAllocator.of_c (ex_heap HF_FIT_FIRST).1.
Abbreviation FLI := (FreeListAllocator.I false).
Abbreviation FLS := (port_spec (Port0 := FreeListAllocator.fla_port false) _ (AllocatorSpec0 := fl_spec false)).

Lemma ex_inner_inv : alloc_inv (AllocatorSpec := FLS) ex_inner (ex_heap HF_FIT_FIRST).2 ∅.
Proof. exists (ex_heap HF_FIT_FIRST).1. split; [apply FreeListAllocator.fla_to_of|apply ex_heap_inv]. Qed.

(** Witness of C13: two blocks, one of them written and freed. *)
Lemma cpp_debug_client_safe_witness :
  ∃ c, client_run (hf_allocator_vtable0 := IAllocator_vtable (IAllocator0 := dhc_methods (IAllocator0 := FLI) true 5 true))
         (Client (ctor ex_inner) (ex_heap HF_FIT_FIRST).2 ∅ ∅)
         [CAlloc 100; CAlloc 24; CWrite (2 ^ 20 + 40) 7; CFree (2 ^ 20 + 32)] = Ok c ∧ client_ok 16 c.
Proof.
  destruct (cpp_debug_client_safe (IAllocator0 := FLI) (AllocatorSpec0 := FLS) true 5 true ex_inner (ex_heap HF_FIT_FIRST).2
    [CAlloc 100; CAlloc 24; CWrite (2 ^ 20 + 40) 7; CFree (2 ^ 20 + 32)]) as (c & Hrun & Hok & _).
  - lia.
  - apply ex_inner_inv.
  - repeat constructor; simpl; lia.
  - exists c. split; [exact Hrun|exact Hok].
Defined.


(** A block freed, another one allocated elsewhere, and the
    first one freed again. *)
Lemma cpp_debug_remembers_witness : ∃ c2 s',
  client_run (hf_allocator_vtable0 := IAllocator_vtable (IAllocator0 := dhc_methods (IAllocator0 := FLI) false 0 true))
    (Client (ctor ex_inner) (ex_heap HF_FIT_FIRST).2 ∅ ∅) ([CAlloc 24] ++ [CFree (2 ^ 20 + 32)]) = Ok c2 ∧
  deallocate (IAllocator0 := FLI) true (2 ^ 20 + 32) (cl_alloc c2) (cl_mem c2) = Ok ((), s', cl_mem c2) ∧
  double_frees (report_ s') = 1.
Proof.
  set (V := IAllocator_vtable (IAllocator0 := dhc_methods (IAllocator0 := FLI) false 0 true)).
  set (c0 := Client (ctor ex_inner) (ex_heap HF_FIT_FIRST).2 ∅ ∅).
  set (c1 := match client_run (hf_allocator_vtable0 := V) c0 [CAlloc 24] with Ok c => c | _ => c0 end).
  set (c2 := match client_run (hf_allocator_vtable0 := V) c1 [CFree (2 ^ 20 + 32)] with Ok c => c | _ => c0 end).
  assert (client_run (hf_allocator_vtable0 := V) c0 [CAlloc 24] = Ok c1) as E1 by (vm_compute; reflexivity).
  assert (client_run (hf_allocator_vtable0 := V) c1 [CFree (2 ^ 20 + 32)] = Ok c2) as E2 by (vm_compute; reflexivity).
  destruct (cpp_debug_remembers (IAllocator0 := FLI) (AllocatorSpec0 := FLS) false 0 true ex_inner (ex_heap HF_FIT_FIRST).2
    [CAlloc 24] [CFree (2 ^ 20 + 32)] c1 c2 (2 ^ 20 + 32) 24) as (s' & E & _ & Hd & _).
  - lia.
  - apply ex_inner_inv.
  - repeat constructor; simpl; lia.
  - exact E1.
  - vm_compute. reflexivity.
  - exact E2.
  - vm_compute. reflexivity.
  - exists c2, s'. split; [vm_compute; reflexivity|]. split; [exact E|exact Hd].
Defined.
