(* ===== verification/CppGuardHeap.v ===== *)
(** * The C++ guard heap ([include/heapforge/guard_heap.h]): the code

    Like the C guard heap, [GuardHeap] gives every block a mapping of its own
    between two inaccessible pages.  Unlike it, the table of regions is shared
    by all guard heaps of the process, a block can be placed against the front
    guard ([underflow_mode]), the slack of the data pages is filled with a
    canary that is checked on free, and the quarantine is bounded: the oldest
    freed block goes back to the kernel when it overflows.

    The state is the members of one heap together with the statics of the
    class and what the kernel keeps (pages as in [GuardHeap], signal
    dispositions).  The two static arrays, [regions()] and [owner_of_], are one
    list of slots.  A heap is known by a number, its address.  The mutex is
    explicit: locking it when it is held does not return.  A call stack is known
    by its depth; of the Windows branch only the handler is modelled. *)

From Stdlib Require Import Ascii String.
From S2P Require Import Prelude Text Memory Platform Allocator GuardHeap Cpp.

Module GuardHeapCpp.

(** ** Data *)

Inductive ViolationPolicy : Type := PAbort | PContinue.

#[export] Instance ViolationPolicy_eq_dec : EqDecision ViolationPolicy.
Proof. solve_decision. Defined.

(** [Region]; the state is 0 (free), 1 (live) or 2 (quarantined). *)
Record Region : Type := Reg {
  state : Z;
  base : Z;
  total : Z;
  user : Z;
  user_size : Z;
  policy : ViolationPolicy;
  underflow_mode : bool;
  alloc_frame_count : Z
}.

Definition region_init : Region := Reg 0 NULL 0 NULL 0 PAbort false 0.

(** Slot [i] of [regions()] and [owner_of_]. *)
Record slot : Type := Slot {
  region : Region;
  owner : option nat
}.

Definition kMaxRegions : nat := 4096.
Definition kSlackFill : Z := 0xFD.
Definition kPoison : Z := 0xCD.

(** Signals and what the process does on them: the default, a handler of other
    code, or [on_fault]. *)
Inductive disp : Type :=
| DDefault
| DOther (id : nat)
| DOnFault.

(** The statics: the slots, [violation_count], whether the once flag of
    [install_handler] has fired, and [prev_handler]; then the kernel's state,
    and the log. *)
Record statics : Type := Statics {
  slots : list slot;
  violation_count : Z;
  once : bool;
  prev_segv : disp;
  prev_bus : disp;
  disp_segv : disp;
  disp_bus : disp;
  pages : vm;
  log : list note
}.

(** The members, and whether [mu_] is held. *)
Record t : Type := Make {
  this : nat;
  policy_ : ViolationPolicy;
  underflow_ : bool;
  quarantine_cap_ : Z;
  quarantine_ : list nat;
  stats_ : AllocStats;
  mu_ : bool
}.

(** A heap and the process around it. *)
Record world : Type := World {
  self : t;
  env : statics
}.

Definition set_slots (l : list slot) (s : statics) : statics :=
  Statics l (violation_count s) (once s) (prev_segv s) (prev_bus s) (disp_segv s) (disp_bus s) (pages s) (log s).
Definition set_pages (v : vm) (s : statics) : statics :=
  Statics (slots s) (violation_count s) (once s) (prev_segv s) (prev_bus s) (disp_segv s) (disp_bus s) v (log s).
Definition set_log (l : list note) (s : statics) : statics :=
  Statics (slots s) (violation_count s) (once s) (prev_segv s) (prev_bus s) (disp_segv s) (disp_bus s) (pages s) l.

Definition set_stats (st : AllocStats) (h : t) : t :=
  Make (this h) (policy_ h) (underflow_ h) (quarantine_cap_ h) (quarantine_ h) st (mu_ h).
Definition set_quarantine (q : list nat) (h : t) : t :=
  Make (this h) (policy_ h) (underflow_ h) (quarantine_cap_ h) q (stats_ h) (mu_ h).
Definition set_mu (b : bool) (h : t) : t :=
  Make (this h) (policy_ h) (underflow_ h) (quarantine_cap_ h) (quarantine_ h) (stats_ h) b.

(** ** Statements *)

Abbreviation act := (meth world).

Definition stats_do (f : AllocStats → AllocStats) : act unit :=
  modify (λ w, World (set_stats (f (stats_ (self w))) (self w)) (env w)).
Definition quarantine_do (f : list nat → list nat) : act unit :=
  modify (λ w, World (set_quarantine (f (quarantine_ (self w))) (self w)) (env w)).
Definition pages_do (f : vm → vm) : act unit :=
  modify (λ w, World (self w) (set_pages (f (pages (env w))) (env w))).
Definition slot_do (i : nat) (f : slot → slot) : act unit :=
  modify (λ w, World (self w) (set_slots (alter f i (slots (env w))) (env w))).
Definition say (ns : list note) : act unit :=
  modify (λ w, World (self w) (set_log (log (env w) ++ ns) (env w))).

(** [std::lock_guard lk(mu_)] around [c]. *)
Definition locked {A : Type} (c : act A) : act A := λ w m,
  if mu_ (self w) then OutOfFuel else
  match c (World (set_mu true (self w)) (env w)) m with
  | Ok (x, w, m) => Ok (x, World (set_mu false (self w)) (env w), m)
  | Abort => Abort
  | Fault => Fault
  | OutOfFuel => OutOfFuel
  end.

(** Slot [i] of the static arrays. *)
Definition slot_at (i : nat) : act slot := λ w m,
  match slots (env w) !! i with Some s => Ok (s, w, m) | None => Fault end.

(** Every byte of a range can be read and written. *)
Definition all_accessible (v : vm) (a n : Z) : bool :=
  forallb (λ i, accessible v (a + Z.of_nat i)) (seq 0 (Z.to_nat n)).

(** [memset] into the pages of the process. *)
Definition fill (a c n : Z) : act unit := λ w m,
  if all_accessible (pages (env w)) a n then Ok ((), w, memset m a c (Z.to_nat n)) else Fault.

(** The assignments to the members of a region, in order. *)
Definition set_state (x : Z) (s : slot) : slot :=
  let r := region s in
  Slot (Reg x (base r) (total r) (user r) (user_size r) (policy r) (underflow_mode r) (alloc_frame_count r)) (owner s).
Definition set_base (x : Z) (s : slot) : slot :=
  let r := region s in
  Slot (Reg (state r) x (total r) (user r) (user_size r) (policy r) (underflow_mode r) (alloc_frame_count r)) (owner s).
Definition set_total (x : Z) (s : slot) : slot :=
  let r := region s in
  Slot (Reg (state r) (base r) x (user r) (user_size r) (policy r) (underflow_mode r) (alloc_frame_count r)) (owner s).
Definition set_user (x : Z) (s : slot) : slot :=
  let r := region s in
  Slot (Reg (state r) (base r) (total r) x (user_size r) (policy r) (underflow_mode r) (alloc_frame_count r)) (owner s).
Definition set_user_size (x : Z) (s : slot) : slot :=
  let r := region s in
  Slot (Reg (state r) (base r) (total r) (user r) x (policy r) (underflow_mode r) (alloc_frame_count r)) (owner s).
Definition set_policy (x : ViolationPolicy) (s : slot) : slot :=
  let r := region s in
  Slot (Reg (state r) (base r) (total r) (user r) (user_size r) x (underflow_mode r) (alloc_frame_count r)) (owner s).
Definition set_underflow (x : bool) (s : slot) : slot :=
  let r := region s in
  Slot (Reg (state r) (base r) (total r) (user r) (user_size r) (policy r) x (alloc_frame_count r)) (owner s).
Definition set_frames (x : Z) (s : slot) : slot :=
  let r := region s in
  Slot (Reg (state r) (base r) (total r) (user r) (user_size r) (policy r) (underflow_mode r) x) (owner s).
Definition set_owner (x : option nat) (s : slot) : slot := Slot (region s) x.

Section methods.
(** The page size, what the kernel answers, and the depth [backtrace]
    reports. *)
Context (ps : Z) (mmap : list (Z * Z) → Z → option Z) (mprotect : Z → Z → Z → bool) (munmap : Z → Z → bool) (backtrace : Z).

Definition prot_c (p : Protection) : hf_protection :=
  match p with PNone => HF_PROT_NONE | PReadOnly => HF_PROT_RO | PReadWrite => HF_PROT_RW end.

(** [VM::reserve], [VM::release] and [VM::protect] on the pages. *)
Definition reserve (size : Z) : act Z := λ w m,
  let v := pages (env w) in
  let p := vm_reserve ps (mmap (vm_maps v)) size in
  if p =? NULL then Ok (NULL, w, m)
  else Ok (p, World (self w) (set_pages (vm_map v p (align_up size ps)) (env w)), m).

Definition released (ptr size : Z) (v : vm) : vm :=
  if negb (ptr =? NULL) && vm_release ps munmap ptr size then vm_unmap v ptr (align_up size ps) else v.
Definition release (ptr size : Z) : act unit := pages_do (released ptr size).

Definition protected (ptr size : Z) (prot : Protection) (v : vm) : vm :=
  if vm_protect ps mprotect ptr size prot
  then Vm (vm_maps v) ((ptr, align_up size ps, prot_c prot) :: vm_prot v) else v.
Definition protect (ptr size : Z) (prot : Protection) : act unit := pages_do (protected ptr size prot).

(** ** The allocator *)

Definition bump_fail : act unit := locked (stats_do (λ st, bump_failed (bump_alloc st))).

(** The first slot that is free and has no owner, from [i] on. *)
Fixpoint free_slot_from (i : nat) (l : list slot) : option nat :=
  match l with
  | [] => None
  | s :: l => if (state (region s) =? 0) && bool_decide (owner s = None) then Some i else free_slot_from (S i) l
  end.

Definition find_free_slot : act (option nat) := gets (λ w : world, free_slot_from 0 (slots (env w))).

(** The stores that fill a slot; the state comes last, for the handler. *)
Definition publish (h : t) (b tot u n : Z) : list (slot → slot) :=
  [set_base b; set_total tot; set_user u; set_user_size n; set_policy (policy_ h); set_underflow (underflow_ h);
   set_frames backtrace; set_owner (Some (this h)); set_state 1].

Fixpoint store_all (i : nat) (fs : list (slot → slot)) : act unit :=
  match fs with
  | [] => mret ()
  | f :: fs => slot_do i f;; store_all i fs
  end.

(** [stats_.capacity += data_bytes; stats_.used += size; ...] *)
Definition count_alloc (data_bytes n : Z) (st : AllocStats) : AllocStats :=
  let st := bump_alloc st in
  raise_peak (set_used (used st +% n)
    (Stats (capacity st +% data_bytes) (used st) (peak_used st) (alloc_calls st) (free_calls st) (failed_allocs st))).

(** The canaries in the data pages around the block. *)
Definition fill_slack (data data_bytes u n : Z) : act unit :=
  when (u >? data) (fill data kSlackFill (u - data));;
  when (u + n <? data + data_bytes) (fill (u + n) kSlackFill (data + data_bytes - (u + n))).

(** The part of [allocate] under the lock. *)
Definition enter (b tot data_bytes u n : Z) : act Z :=
  slot ← find_free_slot;
  match slot with
  | None => release b tot;; bump_fail;; mret NULL
  | Some i =>
      h ← gets self;
      store_all i (publish h b tot u n);;
      stats_do (count_alloc data_bytes n);;
      mret u
  end.

Definition allocate (size alignment : Z) : act Z :=
  let size := if size =? 0 then 1 else size in
  let alignment := if alignment <? 16 then 16 else alignment in
  if (alignment >? ps) || negb (is_pow2 alignment) then mret NULL else
  let aligned := align_up size alignment in
  let data_bytes := align_up aligned ps in
  let total := ps +% data_bytes +% ps in
  base ← reserve total;
  if base =? NULL then bump_fail;; mret NULL else
  protect base ps PNone;;
  protect (base + ps + data_bytes) ps PNone;;
  let data := base + ps in
  h ← gets self;
  let user := if underflow_ h then data else data + data_bytes - aligned in
  fill_slack data data_bytes user size;;
  locked (enter base total data_bytes user size).

(** The first live slot of heap [h] that holds [ptr], from [i] on. *)
Fixpoint owned_from (h : nat) (ptr : Z) (i : nat) (l : list slot) : option nat :=
  match l with
  | [] => None
  | s :: l =>
      if bool_decide (owner s = Some h) && (user (region s) =? ptr) && (state (region s) =? 1)
      then Some i else owned_from h ptr (S i) l
  end.

(** The loop over a slack range, [n] bytes left at [c]. *)
Fixpoint slack_intact (n : nat) (c : Z) (v : vm) (m : mem) : outcome bool :=
  match n with
  | O => Ok true
  | S n =>
      if negb (accessible v c) then Fault else
      if negb (load8 m c =? kSlackFill) then Ok false else slack_intact n (c + 1) v m
  end.

Definition check_slack (a n : Z) : act bool := λ w m,
  match slack_intact (Z.to_nat n) a (pages (env w)) m with
  | Ok b => Ok (b, w, m)
  | Abort => Abort
  | Fault => Fault
  | OutOfFuel => OutOfFuel
  end.

(** The eviction loop; a round per quarantined slot is enough. *)
Fixpoint evict (rounds : nat) : act unit :=
  match rounds with
  | O => lift (A := unit) OutOfFuel
  | S rounds =>
      q ← gets (λ w : world, quarantine_ (self w));
      cap ← gets (λ w : world, quarantine_cap_ (self w));
      if Z.of_nat (length q) >? cap then
        match q with
        | [] => lift (A := unit) Fault
        | old :: q =>
            quarantine_do (λ _, q);;
            s ← slot_at old;
            slot_do old (set_state 0);;
            release (base (region s)) (total (region s));;
            slot_do old (set_owner None);;
            evict rounds
        end
      else mret ()
  end.

(** What [deallocate] does with the slot it found. *)
Definition retire (i : nat) : act unit :=
  s ← slot_at i;
  let r := region s in
  let data := base r + ps in
  let data_end := base r + total r - ps in
  front ← check_slack data (user r - data);
  slack_ok ← (if (front : bool) then check_slack (user r + user_size r) (data_end - (user r + user_size r)) else mret false);
  when (negb slack_ok) (say [Bug "堆越界"; Dbg "修复完毕"]);;
  stats_do (λ st, set_used (used st -% user_size r) st);;
  fill data kPoison (data_end - data);;
  protect data (data_end - data) PNone;;
  slot_do i (set_state 2);;
  quarantine_do (λ q, q ++ [i]);;
  q ← gets (λ w : world, quarantine_ (self w));
  evict (S (length q)).

Definition deallocate (ptr : Z) : act unit :=
  if ptr =? NULL then mret () else
  locked (
    stats_do bump_free;;
    h ← gets (λ w : world, this (self w));
    l ← gets (λ w : world, slots (env w));
    match owned_from h ptr 0 l with
    | None => say [Bug "非法释放"; Dbg "修复完毕"]
    | Some i => retire i
    end).

Definition name (w : world) : string := "GuardHeap".
Definition stats (w : world) : AllocStats := stats_ (self w).

(** The blocks of heap [h], their offsets running from [off]. *)
Fixpoint walk_from (h : nat) (off : Z) (l : list slot) : list cpp_BlockInfo :=
  match l with
  | [] => []
  | s :: l =>
      if bool_decide (owner s = Some h) && (state (region s) =? 1)
      then BlockInfo off (user_size (region s)) false :: walk_from h (off +% user_size (region s)) l
      else walk_from h off l
  end.

Definition walk (w : world) (m : mem) : outcome (list cpp_BlockInfo) :=
  Ok (walk_from (this (self w)) 0 (slots (env w))).

Definition total_violations (s : statics) : Z := violation_count s.

(** The destructor's loop, from slot [i] on, [n] slots left. *)
Fixpoint dtor_from (h : nat) (n i : nat) (s : statics) : statics :=
  match n with
  | O => s
  | S n =>
      match slots s !! i with
      | Some sl =>
          if negb (state (region sl) =? 0) && bool_decide (owner sl = Some h) then
            let s := set_slots (alter (set_state 0) i (slots s)) s in
            let s := set_pages (released (base (region sl)) (total (region sl)) (pages s)) s in
            let s := set_slots (alter (set_owner None) i (slots s)) s in
            dtor_from h n (S i) s
          else dtor_from h n (S i) s
      | None => s
      end
  end.

Definition dtor (w : world) : statics := dtor_from (this (self w)) kMaxRegions 0 (env w).

(** ** The fault handler *)

Inductive signal : Type := SIGSEGV | SIGBUS.

(** What the handler writes to descriptor 2: a text, or a call stack. *)
Inductive output : Type :=
| Text (s : string)
| Stack (depth : Z).

(** Sixteen digits, the most significant first. *)
Definition ss_hex (v : Z) : output :=
  Text (string_of_list_ascii (["0"; "x"]%char ++
    ((λ i, hex_digit (Z.land (Z.shiftr v ((15 - Z.of_nat i) * 4)) 0xF)) <$> seq 0 16))).

Definition set_disp (sig : signal) (d : disp) (s : statics) : statics :=
  match sig with
  | SIGSEGV => Statics (slots s) (violation_count s) (once s) (prev_segv s) (prev_bus s) d (disp_bus s) (pages s) (log s)
  | SIGBUS => Statics (slots s) (violation_count s) (once s) (prev_segv s) (prev_bus s) (disp_segv s) d (pages s) (log s)
  end.
Definition count_fault (s : statics) : statics :=
  Statics (slots s) (violation_count s +% 1) (once s) (prev_segv s) (prev_bus s) (disp_segv s) (disp_bus s) (pages s) (log s).

Definition prev_handler (sig : signal) (s : statics) : disp :=
  match sig with SIGBUS => prev_bus s | SIGSEGV => prev_segv s end.

(** The first region in use that contains the address. *)
Fixpoint hit_from (addr : Z) (l : list slot) : option Region :=
  match l with
  | [] => None
  | s :: l =>
      let r := region s in
      if state r =? 0 then hit_from addr l else
      if (addr <? base r) || (addr >=? base r + total r) then hit_from addr l else Some r
  end.

Definition kind (r : Region) (addr : Z) : string :=
  let data := base r + ps in
  let data_end := base r + total r - ps in
  if state r =? 2 then "use-after-free（已释放块被访问）"
  else if addr <? data then "堆下溢（写到前 guard 页）"
  else if addr >=? data_end then "堆上溢（写过块尾进入后 guard 页）"
  else "隔离区访问".

(** The report; [frames] is the depth of the faulting stack. *)
Definition fault_report (r : Region) (addr frames : Z) : list output :=
  [Text (newline +:+ "[HeapForge][GuardHeap] 越界即时捕获: "); Text (kind r addr);
   Text (newline +:+ "  访问地址 = "); ss_hex addr; Text (newline +:+ "  所属块   = "); ss_hex (user r);
   Text (newline +:+ "  当前调用栈:" +:+ newline); Stack frames] ++
  (if alloc_frame_count r >? 0 then [Text ("  分配点调用栈:" +:+ newline); Stack (alloc_frame_count r)] else []).

Definition on_fault (sig : signal) (addr frames : Z) (s : statics) : statics * list output :=
  match hit_from addr (slots s) with
  | Some r =>
      let report := fault_report r addr frames in
      let s := count_fault s in
      if bool_decide (policy r = PContinue) then
        let page := Z.land addr (not64 (ps -% 1)) in
        let v := pages s in
        let v := if mprotect page ps (vm_flags PReadWrite)
                 then Vm (vm_maps v) ((page, ps, HF_PROT_RW) :: vm_prot v) else v in
        (set_pages v s, report ++ [Text ("  [Continue 策略] 已解除该页保护并放行" +:+ newline)])
      else (set_disp sig DDefault s, report)
  | None => (set_disp sig (prev_handler sig s) s, [])
  end.

Definition install_handler (s : statics) : statics :=
  if once s then s else
  Statics (slots s) (violation_count s) true (disp_segv s) (disp_bus s) DOnFault DOnFault (pages s) (log s).

(** The handler on Windows, where [VirtualProtect] sets protections;
    [access_violation] is whether that is the exception's code. *)
Inductive veh_result : Type := EXCEPTION_CONTINUE_SEARCH | EXCEPTION_CONTINUE_EXECUTION.

Definition on_veh (access_violation : bool) (addr : Z) (s : statics) : statics * veh_result :=
  if negb access_violation then (s, EXCEPTION_CONTINUE_SEARCH) else
  match hit_from addr (slots s) with
  | Some r =>
      let s := count_fault s in
      if bool_decide (policy r = PContinue) then
        let page := Z.land addr (not64 (ps -% 1)) in
        let v := pages s in
        let v := if mprotect page ps (vm_flags PReadWrite)
                 then Vm (vm_maps v) ((page, ps, HF_PROT_RW) :: vm_prot v) else v in
        (set_pages v s, EXCEPTION_CONTINUE_EXECUTION)
      else (s, EXCEPTION_CONTINUE_SEARCH)
  | None => (s, EXCEPTION_CONTINUE_SEARCH)
  end.

Definition ctor (addr : nat) (policy : ViolationPolicy) (underflow_mode : bool) (quarantine : Z) (s : statics) : world :=
  World (Make addr policy underflow_mode quarantine [] (stats_zero 0) false) (install_handler s).

#[export] Instance ghc_methods : IAllocator world := {
  ia_allocate := allocate;
  ia_deallocate := deallocate;
  ia_name := name;
  ia_stats := stats;
  ia_walk := walk;
  ia_released := statics;
  ia_dtor := dtor
}.
End methods.

(** The statics when the process starts: other code has set the
    dispositions. *)
Definition statics_init (v : vm) (segv bus : disp) : statics :=
  Statics (replicate kMaxRegions (Slot region_init None)) 0 false DDefault DDefault segv bus v [].

End GuardHeapCpp.
