(* ===== verification/CppGuardProofs.v ===== *)
(** * The C++ guard heap: invariant

    The slots in use are mappings of their own, whichever heap of the process
    owns them; as in [GuardProofs] their guard pages, and in quarantine their
    data pages, are closed where the kernel granted it (the heap ignores the
    results of [VM::protect]).  A heap's queue holds its quarantined slots and
    no others, at most as many as it may keep. *)

From S2P Require Import Prelude Memory Platform Allocator GuardHeap GuardProofs Cpp CppGuardHeap.
Import GuardHeapCpp.

(** A region as the C heap records it. *)
Definition view (r : Region) : gh_region := GuardHeap.Region (base r) (total r) (user r) (user_size r) (state r).

Definition busy (s : slot) : bool := negb (state (region s) =? 0).
Definition mine (h : nat) (k : Z) (s : slot) : bool := bool_decide (owner s = Some h) && (state (region s) =? k).
(** The bytes of the mapping. *)
Definition extent (s : slot) (x : Z) : Prop := range (base (region s)) (total (region s)) x.

Lemma busy_true s : busy s = true ↔ state (region s) ≠ 0.
Proof. unfold busy. rewrite negb_true_iff, Z.eqb_neq. done. Qed.

Lemma mine_true h k s : mine h k s = true ↔ owner s = Some h ∧ state (region s) = k.
Proof. unfold mine. by rewrite andb_true_iff, bool_decide_eq_true, Z.eqb_eq. Qed.

(** ** The slots *)

Section slots.
(** The page size, and the requests to close pages that the kernel grants. *)
Context (ps : Z) (mp : Z → Z → bool).

(** The bytes of a mapping that a granted request has closed: the two guard
    pages, and the data pages once the block is in quarantine. *)
Definition shut (r : gh_region) (x : Z) : bool :=
  covers (r_base r) ps x && mp (r_base r) ps ||
  covers (r_base r + r_total r - ps) ps x && mp (r_base r + r_total r - ps) ps ||
  (r_state r =? 2) && (covers (r_base r + ps) (r_total r - 2 * ps) x && mp (r_base r + ps) (r_total r - 2 * ps)).

(** While the block is live the two heaps close the same pages. *)
Lemma shut_live r x : r_state r = 1 → shut r x = closed ps mp r x.
Proof. intros E. unfold shut, closed. by rewrite E. Qed.

Lemma shut_data r x : r_state r = 1 → 0 < ps → range (r_base r + ps) (r_total r - 2 * ps) x → shut r x = false.
Proof. intros E Hp Hx. unfold shut. rewrite E, !(proj2 (covers_false _ _ x)) by (unfold range in *; lia). done. Qed.

Record slots_ok (l : list slot) (v : vm) : Prop := {
  so_len : length l = kMaxRegions;
  so_free i s : l !! i = Some s → state (region s) = 0 ↔ owner s = None;
  so_region i s : l !! i = Some s → busy s = true → region_wf ps shut v (view (region s));
  so_apart i j s u x : l !! i = Some s → l !! j = Some u → i ≠ j → busy s = true → busy u = true →
    extent s x → ¬ extent u x
}.

(** The busy slots but [i] keep their pages. *)
Definition others_keep (l : list slot) (i : nat) (v v' : vm) : Prop :=
  ∀ j u, j ≠ i → l !! j = Some u → busy u = true →
    (base (region u), total (region u)) ∈ vm_maps v' ∧ ∀ x, extent u x → accessible v' x = accessible v x.

Lemma slots_ok_insert l v v' i s s' : slots_ok l v → l !! i = Some s → (state (region s') = 0 ↔ owner s' = None) →
  (busy s' = true → region_wf ps shut v' (view (region s')) ∧
     ∀ j u x, j ≠ i → l !! j = Some u → busy u = true → extent u x → ¬ extent s' x) →
  others_keep l i v v' → slots_ok (<[i := s']> l) v'.
Proof.
  intros [Hlen Hfree Hreg Hap] Hi Hs' Hb Hoth. constructor.
  - by rewrite length_insert.
  - intros j u Hj. apply list_lookup_insert_Some in Hj as [(-> & <- & _)|[_ Hj]]; [done|by apply (Hfree j)].
  - intros j u Hj Hu. apply list_lookup_insert_Some in Hj as [(-> & <- & _)|[Hne Hj]]; [by apply Hb|].
    destruct (Hoth j u ltac:(done) Hj Hu) as [Hm Ha]. eapply region_ok_frame; [by apply (Hreg j)|done|done].
  - intros j k u z x Hj Hk Hne Hu Hz Hx.
    apply list_lookup_insert_Some in Hj as [(-> & <- & _)|[Hnj Hj]]; apply list_lookup_insert_Some in Hk as [(-> & <- & _)|[Hnk Hk]]; try done.
    + intros Hx'. by apply (proj2 (Hb Hu) k z x).
    + by apply (proj2 (Hb Hz) j u x).
    + by apply (Hap j k u z x).
Qed.

(** Two live slots with the same pointer are one. *)
Lemma slots_user_inj l v i j s u : slots_ok l v → l !! i = Some s → l !! j = Some u → busy s = true → busy u = true →
  user (region s) = user (region u) → i = j.
Proof.
  intros Hl Hi Hj Hs Hu E. destruct (decide (i = j)) as [|Hne]; [done|]. exfalso.
  pose proof (so_region _ _ Hl i s Hi Hs) as [_ _ _ (_ & ? & ?) (? & ? & ?) _].
  pose proof (so_region _ _ Hl j u Hj Hu) as [_ _ _ (_ & ? & ?) (? & ? & ?) _]. cbn in *.
  apply (so_apart _ _ Hl i j s u (user (region s)) Hi Hj Hne Hs Hu); unfold extent, range; lia.
Qed.

Lemma slot_mapped l v i s x : slots_ok l v → l !! i = Some s → busy s = true → extent s x → mapped v x = true.
Proof. intros Hl Hi Hs Hx. apply (mapped_in v (base (region s)) (total (region s))); [|done]. apply (so_region _ _ Hl i s Hi Hs). Qed.

(** A block entered in a free slot. *)
Lemma slots_ok_enter l v i s b dp u n s' : slots_ok l v → l !! i = Some s → 4096 ≤ ps ≤ 2 ^ 30 → (ps | dp) → fresh_base ps v b dp →
  0 < n ≤ dp → b + ps ≤ u → u + n ≤ b + ps + dp →
  view (region s') = GuardHeap.Region b (ps + dp + ps) u n 1 → owner s' ≠ None →
  slots_ok (<[i := s']> l) (vm_guarded ps mp v b dp).
Proof.
  intros Hl Hi Hp Hd Hfb Hn Hu1 Hu2 Hv Ho. injection Hv as Eb Et Eu En Est.
  destruct (vm_guarded_same ps mp v b dp ltac:(lia) ltac:(lia) Hfb) as [Hsub Hsame].
  eapply slots_ok_insert; [done|done|split; [rewrite Est; lia|done]| |].
  - intros _. split.
    + unfold view. rewrite Eb, Et, Eu, En, Est. eapply region_wf_ext; [by apply (gh_alloc_region ps mp)|]. intros x. symmetry. by apply shut_live.
    + intros j z x Hne Hj Hz Hx. unfold extent at 1. rewrite Eb, Et. destruct Hfb as (_ & _ & _ & Hf).
      eapply fresh_unmapped; [exact Hf|]. by eapply slot_mapped.
  - intros j z Hne Hj Hz. split; [apply Hsub; by apply (so_region _ _ Hl j z)|]. intros x Hx. apply Hsame. by eapply slot_mapped.
Qed.

(** A live slot retired: its data pages lose their access too. *)
Lemma slots_ok_retire l v i s : slots_ok l v → l !! i = Some s → state (region s) = 1 →
  let r := region s in
  slots_ok (<[i := set_state 2 s]> l) (vm_try mp v (base r + ps) (total r - 2 * ps) HF_PROT_NONE).
Proof.
  intros Hl Hi Hs r. assert (busy s = true) as Hb by (apply busy_true; lia).
  pose proof (so_region _ _ Hl i s Hi Hb) as Hr. pose proof Hr as [_ _ _ (_ & Hp & Ht) _ Hg]. cbn in Hp, Ht.
  assert (owner s ≠ None) as Ho by (intros E; apply (so_free _ _ Hl i s Hi) in E; lia).
  eapply slots_ok_insert; [done|done|by cbn|intros _; split|].
  - destruct Hr. constructor; try done; [by right|by rewrite vm_try_maps|]. intros x Hx. rewrite accessible_close, (Hg x Hx).
    unfold shut, r. cbn. rewrite Hs. cbn. rewrite orb_false_r, <- negb_orb. f_equal. apply orb_comm.
  - intros j u x Hne Hj Hu Hx. by apply (so_apart _ _ Hl j i u s x).
  - intros j u Hne Hj Hu. rewrite vm_try_maps. split; [by apply (so_region _ _ Hl j u)|]. intros x Hx.
    assert (¬ range (base r) (total r) x) as Hn by (by apply (so_apart _ _ Hl j i u s x)).
    by rewrite accessible_close, (proj2 (covers_false _ _ x)) by (unfold range in *; lia).
Qed.

(** The access to a block before and after its free. *)
Lemma shut_freed v v' s x : region_wf ps shut v (view (region s)) → region_wf ps shut v' (view (region (set_state 2 s))) → state (region s) = 1 → extent s x →
  if decide (range (base (region s) + ps) (total (region s) - 2 * ps) x)
  then accessible v' x = false ↔ mp (base (region s) + ps) (total (region s) - 2 * ps) = true
  else accessible v' x = accessible v x.
Proof.
  intros Hr Hr' Hs Hx. rewrite (ro_guarded _ _ _ _ Hr' x Hx), (ro_guarded _ _ _ _ Hr x Hx). destruct (decide _) as [Hd|Hd].
  - rewrite negb_false_iff. unfold shut. cbn. rewrite (proj2 (covers_true (base (region s) + ps) _ x) Hd). pose proof (ro_total _ _ _ _ Hr) as (_ & ? & ?).
    rewrite !(proj2 (covers_false _ _ x)) by (unfold range in *; lia). done.
  - f_equal. unfold shut. cbn. rewrite Hs, (proj2 (covers_false (base (region s) + ps) _ x) Hd). cbn. by rewrite !orb_false_r.
Qed.

(** A busy slot given up, its mapping released or not. *)
Lemma slots_ok_drop l v v' i s s' : slots_ok l v → l !! i = Some s → busy s = true → state (region s') = 0 → owner s' = None →
  v' = v ∨ v' = vm_unmap v (base (region s)) (total (region s)) → slots_ok (<[i := s']> l) v'.
Proof.
  intros Hl Hi Hb Hs' Ho Hv. eapply slots_ok_insert; [done|done|by rewrite Hs', Ho| |].
  - intros Hb'. apply busy_true in Hb'. done.
  - intros j u Hne Hj Hu. pose proof (so_region _ _ Hl j u Hj Hu) as Hr. destruct Hv as [->| ->]; [split; [apply Hr|done]|].
    assert (∀ x, extent u x → ¬ extent s x) as Hap by (intros x; by apply (so_apart _ _ Hl j i u s x)).
    split; [|intros x Hx; apply accessible_unmap; by apply Hap].
    cbn [vm_unmap vm_maps]. apply list_elem_of_filter. split; [|apply Hr]. intros [= Eb Et].
    destruct Hr as [_ _ _ (_ & ? & ?) _ _]. cbn in *. apply (Hap (base (region u))); unfold extent, range; lia.
Qed.
End slots.

(** ** The search loops *)

Lemma free_slot_Some k l i : free_slot_from k l = Some i →
  (k ≤ i)%nat ∧ ∃ s, l !! (i - k)%nat = Some s ∧ state (region s) = 0 ∧ owner s = None.
Proof.
  revert k. induction l as [|s l IH]; intros k H; [done|]. cbn [free_slot_from] in H. destruct (_ && _) eqn:E.
  - apply andb_true_iff in E as [E1%Z.eqb_eq E2%bool_decide_eq_true]. injection H as <-. rewrite Nat.sub_diag. split; [lia|]. by exists s.
  - apply IH in H as (? & u & H & ?). split; [lia|]. exists u. by replace (i - k)%nat with (S (i - S k)) by lia.
Qed.

Lemma free_slot_None k l j s : free_slot_from k l = None → l !! j = Some s → ¬ (state (region s) = 0 ∧ owner s = None).
Proof.
  revert k j. induction l as [|u l IH]; intros k j H Hj; [done|]. cbn [free_slot_from] in H. destruct (_ && _) eqn:E; [done|].
  destruct j as [|j]; [|by apply (IH (S k) j)]. injection Hj as ->. intros [E1 E2]. by rewrite E1, E2 in E.
Qed.

Lemma owned_Some h p k l i : owned_from h p k l = Some i →
  (k ≤ i)%nat ∧ ∃ s, l !! (i - k)%nat = Some s ∧ owner s = Some h ∧ user (region s) = p ∧ state (region s) = 1.
Proof.
  revert k. induction l as [|s l IH]; intros k H; [done|]. cbn [owned_from] in H. destruct (_ && _ && _) eqn:E.
  - apply andb_true_iff in E as [[E1%bool_decide_eq_true E2%Z.eqb_eq]%andb_true_iff E3%Z.eqb_eq]. injection H as <-.
    rewrite Nat.sub_diag. split; [lia|]. by exists s.
  - apply IH in H as (? & u & H & ?). split; [lia|]. exists u. by replace (i - k)%nat with (S (i - S k)) by lia.
Qed.

Lemma owned_None h p k l j s : owned_from h p k l = None → l !! j = Some s →
  ¬ (owner s = Some h ∧ user (region s) = p ∧ state (region s) = 1).
Proof.
  revert k j. induction l as [|u l IH]; intros k j H Hj; [done|]. cbn [owned_from] in H. destruct (_ && _ && _) eqn:E; [done|].
  destruct j as [|j]; [|by apply (IH (S k) j)]. injection Hj as ->. intros (E1 & E2 & E3).
  rewrite E1, E2, E3, bool_decide_true, Z.eqb_refl in E by done. done.
Qed.

(** ** Statements *)

Lemma alter_at {A} (f : A → A) (l : list A) i x : l !! i = Some x → alter f i l = <[i := f x]> l.
Proof. revert i. induction l as [|y l IH]; intros [|i] H; simplify_eq/=; [done|]. by rewrite (IH i). Qed.

Lemma all_accessible_ok v a n : (∀ x, range a n x → accessible v x = true) → all_accessible v a n = true.
Proof.
  intros H. apply forallb_forall. intros i Hi. apply in_seq in Hi. apply H. unfold range. lia.
Qed.

Lemma fill_ok a c n w m : (∀ x, range a n x → accessible (pages (env w)) x = true) →
  fill a c n w m = Ok ((), w, memset m a c (Z.to_nat n)).
Proof. intros H. unfold fill. by rewrite all_accessible_ok. Qed.

Lemma load8_fill m a c n x : 0 ≤ c < 256 → load8 (memset m a c (Z.to_nat n)) x = if decide (range a n x) then c else load8 m x.
Proof.
  intros Hc. destruct (decide _) as [Hx|Hx].
  - rewrite load8_memset_in by (unfold range in *; lia). unfold wrap8. by rewrite Z.mod_small.
  - apply load8_memset_out. unfold range in *. lia.
Qed.

Lemma slack_intact_ok n c v m : (∀ x, range c (Z.of_nat n) x → accessible v x = true) →
  ∃ b, slack_intact n c v m = Ok b ∧ (b = true ↔ ∀ x, range c (Z.of_nat n) x → load8 m x = kSlackFill).
Proof.
  revert c. induction n as [|n IH]; intros c Hacc; cbn [slack_intact].
  { exists true. split; [done|]. split; [|done]. intros _ x. unfold range. lia. }
  rewrite (Hacc c) by (unfold range; lia). cbn [negb]. destruct (Z.eqb_spec (load8 m c) kSlackFill) as [E|E]; cbn [negb].
  - destruct (IH (c + 1)) as (b & -> & Hb); [intros x Hx; apply Hacc; unfold range in *; lia|]. exists b. split; [done|].
    rewrite Hb. split; intros H x Hx; [|apply H; unfold range in *; lia].
    destruct (decide (x = c)) as [->|]; [done|]. apply H. unfold range in *. lia.
  - exists false. split; [done|]. split; [done|]. intros H. by rewrite H in E by (unfold range; lia).
Qed.

Lemma check_slack_ok a n w m : (∀ x, range a n x → accessible (pages (env w)) x = true) →
  ∃ b, check_slack a n w m = Ok (b, w, m) ∧ (b = true ↔ ∀ x, range a n x → load8 m x = kSlackFill).
Proof.
  intros Hacc. unfold check_slack. destruct (slack_intact_ok (Z.to_nat n) a (pages (env w)) m) as (b & -> & Hb).
  { intros x Hx. apply Hacc. unfold range in *. lia. }
  exists b. split; [done|]. rewrite Hb. split; intros H x Hx; apply H; unfold range in *; lia.
Qed.

Lemma store_all_ok i fs w m s : slots (env w) !! i = Some s →
  store_all i fs w m = Ok ((), World (self w) (set_slots (<[i := foldl (λ s f, f s) s fs]> (slots (env w))) (env w)), m).
Proof.
  revert w s. induction fs as [|f fs IH]; intros w s Hi; cbn [store_all foldl].
  - rewrite list_insert_id by done. by destruct w as [? []].
  - unfold slot_do. run_meth. rewrite (alter_at _ _ _ _ Hi). rewrite (IH _ (f s)).
    + cbn. do 3 f_equal. unfold set_slots. cbn. by rewrite list_insert_insert_eq.
    + cbn. apply list_lookup_insert_eq. by eapply lookup_lt_Some.
Qed.

Section kernel.
Context (ps : Z) (mmap : list (Z * Z) → Z → option Z) (mprotect : Z → Z → Z → bool) (munmap : Z → Z → bool) (backtrace : Z).

(** What the code relies on of the kernel: a page size, and fresh mappings in
    the lower half of the address space. *)
Definition kernel_ok : Prop := page_size_ok ps ∧ mmap_fresh ps mmap ∧ mmap_low mmap.

(** The kernel grants the request to close these pages. *)
Definition closes (a n : Z) : bool := mprotect a n (vm_flags PNone).

Context (Hk : kernel_ok).

Lemma protected_eq v a n : 0 ≤ n ≤ 2 ^ 63 → (ps | n) → protected ps mprotect a n PNone v = vm_try closes v a n HF_PROT_NONE.
Proof.
  destruct Hk as (Hps & _). intros Hn Hd. unfold protected, vm_protect. rewrite align_up_eq.
  rewrite hf_align_up_page, round_up_id by (done || (pose proof (page_size_bounds ps Hps); lia)). done.
Qed.

Lemma released_cases v a n : 0 ≤ n ≤ 2 ^ 63 → (ps | n) →
  released ps munmap a n v = v ∨ released ps munmap a n v = vm_unmap v a n.
Proof.
  destruct Hk as (Hps & _). intros Hn Hd. unfold released. rewrite align_up_eq.
  rewrite hf_align_up_page, round_up_id by (done || (pose proof (page_size_bounds ps Hps); lia)). destruct (_ && _); auto.
Qed.

(** The alignment of a request, and the data pages it needs. *)
Definition al_of (a : Z) : Z := Z.max 16 a.
Definition dp_of (n al : Z) : Z := round_up (round_up n al) ps.
(** Where the block starts. *)
Definition place (under : bool) (b n al : Z) : Z := if under then b + ps else b + ps + dp_of n al - round_up n al.

Lemma al_pow2 al : align_ok ps al → 16 ≤ al → ∃ k, 4 ≤ k ≤ 30 ∧ al = 2 ^ k ∧ (al | ps).
Proof.
  destruct Hk as ((kp & Hkp & Eps) & _). intros (k & Hk0 & -> & Hle) H16. exists k.
  assert (k ≤ kp) by (rewrite Eps in Hle; apply (Z.pow_le_mono_r_iff 2) in Hle; lia).
  assert (4 ≤ k) by (change 16 with (2 ^ 4) in H16; apply (Z.pow_le_mono_r_iff 2) in H16; lia).
  split; [lia|]. split; [done|]. rewrite Eps. apply pow2_divide. lia.
Qed.

(** The arithmetic of a request. *)
Lemma place_ok under b n al : align_ok ps al → 16 ≤ al → 0 < n ≤ 2 ^ 62 → 0 < b → (ps | b) →
  (ps | dp_of n al) ∧ n ≤ round_up n al ≤ dp_of n al ∧ dp_of n al < n + al + ps ∧ 4096 ≤ ps ≤ 2 ^ 30 ∧
  let u := place under b n al in
  b + ps ≤ u ∧ u + n ≤ b + ps + dp_of n al ∧ (al | u) ∧ (under = false → b + ps + dp_of n al < u + n + al).
Proof.
  intros Hal H16 Hn Hb Hbd. destruct (al_pow2 al Hal H16) as (k & Hkk & -> & Hap). pose proof Hk as (Hps & _).
  destruct (page_size_bounds ps Hps) as [Hp _]. set (al := 2 ^ k) in *.
  pose proof (round_up_ge n al ltac:(lia)). pose proof (round_up_lt n al ltac:(lia)).
  pose proof (round_up_ge (round_up n al) ps ltac:(lia)). pose proof (round_up_lt (round_up n al) ps ltac:(lia)).
  pose proof (round_up_divide n al). pose proof (round_up_divide (round_up n al) ps). fold (dp_of n al) in *.
  assert ((al | b + ps)) by (apply Z.divide_add_r; [by transitivity ps|done]).
  split_and!; try done; try lia. cbv zeta. unfold place. destruct under; split_and!; try done; try lia.
  apply Z.divide_sub_r; [apply Z.divide_add_r; [done|by transitivity ps]|done].
Qed.

(** ** [allocate] *)

(** The heap after a block of [n] bytes at [u] was entered in slot [i]. *)
Definition entered (w : world) (b dp : Z) (i : nat) (u n : Z) : world :=
  World (set_stats (count_alloc dp n (stats_ (self w))) (self w))
    (set_slots (<[i := Slot (Reg 1 b (ps + dp + ps) u n (policy_ (self w)) (underflow_ (self w)) backtrace) (Some (this (self w)))]>
                  (slots (env w)))
       (set_pages (vm_guarded ps closes (pages (env w)) b dp) (env w))).

Definition refused (w : world) : world := World (set_stats (bump_failed (bump_alloc (stats_ (self w)))) (self w)) (env w).

(** The alignment check accepts the powers of two up to a page. *)
Lemma align_test a : is_u64 a → (a >? ps) || negb (is_pow2 a) = false ↔ align_ok ps a.
Proof.
  intros Ha. rewrite orb_false_iff, negb_false_iff, Z.gtb_ltb, Z.ltb_ge, (hf_is_pow2_iff a Ha). split.
  - intros [Hle (k & Hk0 & E)]. exists k. rewrite <- E. lia.
  - intros (k & Hk0 & E & Hle). split; [lia|]. exists k. split; [|done]. split; [done|].
    apply (Z.pow_lt_mono_r_iff 2); [lia|lia|]. rewrite <- E. ulia.
Qed.

(** A request the alignment check turns away. *)
Lemma allocate_rejects size a w m : is_u64 a → ¬ align_ok ps (al_of a) →
  allocate ps mmap mprotect munmap backtrace size a w m = Ok (NULL, w, m).
Proof.
  intros Ha Hbad. unfold allocate. replace (if a <? 16 then 16 else a) with (al_of a) by (unfold al_of; destruct (Z.ltb_spec a 16); lia).
  destruct ((al_of a >? ps) || negb (is_pow2 (al_of a))) eqn:E; [done|]. exfalso. apply Hbad, align_test; [unfold al_of; ulia|done].
Qed.

(** The canaries around the block. *)
Lemma fill_slack_ok data dp u n w m : data ≤ u → u + n ≤ data + dp → 0 ≤ n →
  (∀ x, range data dp x → accessible (pages (env w)) x = true) →
  ∃ m', fill_slack data dp u n w m = Ok ((), w, m') ∧ (∀ x, ¬ range data dp x → load8 m' x = load8 m x) ∧
    ∀ x, range data dp x → ¬ range u n x → load8 m' x = kSlackFill.
Proof.
  intros H1 H2 Hn Hacc. unfold fill_slack. run_meth.
  set (m1 := if u >? data then memset m data kSlackFill (Z.to_nat (u - data)) else m).
  assert ((if u >? data then fill data kSlackFill (u - data) else λ s m, Ok ((), s, m)) w m = Ok ((), w, m1)) as ->.
  { unfold m1. destruct (u >? data); [|done]. apply fill_ok. intros x Hx. apply Hacc. unfold range in *. lia. }
  set (m2 := if u + n <? data + dp then memset m1 (u + n) kSlackFill (Z.to_nat (data + dp - (u + n))) else m1).
  assert ((if u + n <? data + dp then fill (u + n) kSlackFill (data + dp - (u + n)) else λ s m, Ok ((), s, m)) w m1 = Ok ((), w, m2)) as ->.
  { unfold m2. destruct (u + n <? data + dp); [|done]. apply fill_ok. intros x Hx. apply Hacc. unfold range in *. lia. }
  exists m2. split; [done|]. assert (0 ≤ kSlackFill < 256) as Hc by (unfold kSlackFill; lia).
  assert (∀ x, load8 m1 x = if decide (range data (u - data) x) then kSlackFill else load8 m x) as E1.
  { intros x. unfold m1. rewrite Z.gtb_ltb. destruct (Z.ltb_spec data u); [by apply load8_fill|].
    rewrite decide_False; [done|]. unfold range. lia. }
  assert (∀ x, load8 m2 x = if decide (range (u + n) (data + dp - (u + n)) x) then kSlackFill else load8 m1 x) as E2.
  { intros x. unfold m2. destruct (Z.ltb_spec (u + n) (data + dp)); [by apply load8_fill|].
    rewrite decide_False; [done|]. unfold range. lia. }
  split; intros x Hx; rewrite E2, E1.
  - rewrite !decide_False; [done|..]; unfold range in *; lia.
  - intros Hu. destruct (decide (range (u + n) _ x)); [done|]. rewrite decide_True; [done|]. unfold range in *. lia.
Qed.

(** The part under the lock; with all slots taken it waits for its own lock. *)
Lemma enter_cases b tot dp u n w m : mu_ (self w) = false →
  locked (enter ps munmap backtrace b tot dp u n) w m =
  match free_slot_from 0 (slots (env w)) with
  | None => OutOfFuel
  | Some i => Ok (u, World (set_stats (count_alloc dp n (stats_ (self w))) (self w))
      (set_slots (<[i := Slot (Reg 1 b tot u n (policy_ (self w)) (underflow_ (self w)) backtrace) (Some (this (self w)))]>
         (slots (env w))) (env w)), m)
  end.
Proof.
  intros Hmu. unfold locked, enter. rewrite Hmu. run_meth. unfold find_free_slot, gets. cbn [env].
  destruct (free_slot_from 0 (slots (env w))) as [i|] eqn:E; [|done].
  apply free_slot_Some in E as (_ & s & Hi & _). rewrite Nat.sub_0_r in Hi.
  rewrite (store_all_ok i _ _ _ s) by done. cbn. destruct w as [[] ?]. cbn in *. by subst.
Qed.

Lemma allocate_cases size a w m : mu_ (self w) = false → slots_ok ps closes (slots (env w)) (pages (env w)) →
  0 ≤ size ≤ 2 ^ 62 → align_ok ps (al_of a) →
  let n := Z.max 1 size in let al := al_of a in let dp := dp_of n al in
  match mmap (vm_maps (pages (env w))) (ps + dp + ps) with
  | None => allocate ps mmap mprotect munmap backtrace size a w m = Ok (NULL, refused w, m)
  | Some b =>
      fresh_base ps (pages (env w)) b dp ∧
      match free_slot_from 0 (slots (env w)) with
      | None => allocate ps mmap mprotect munmap backtrace size a w m = OutOfFuel
      | Some i =>
          let u := place (underflow_ (self w)) b n al in
          ∃ m', allocate ps mmap mprotect munmap backtrace size a w m = Ok (u, entered w b dp i u n, m') ∧
            (∀ x, ¬ range (b + ps) dp x → load8 m' x = load8 m x) ∧
            ∀ x, range (b + ps) dp x → ¬ range u n x → load8 m' x = kSlackFill
      end
  end.
Proof.
  intros Hmu Hl Hs Hal n al dp. pose proof Hk as (Hps & Hmm & Hlow).
  assert (16 ≤ al) as H16 by (unfold al, al_of; lia).
  destruct (al_pow2 al Hal H16) as (k & Hkk & Ek & Hap).
  assert (hf_align_up n al = round_up n al) as E1.
  { rewrite Ek. pose proof (pow2_le_mono k 30 ltac:(lia)). apply hf_align_up_pow2; unfold n; lia. }
  destruct (place_ok false ps n al Hal H16 ltac:(unfold n; lia) ltac:(destruct (page_size_bounds ps Hps); lia) (Z.divide_refl ps))
    as (Hd1 & Hd2 & Hd3 & Hp & _). fold dp in Hd1, Hd2, Hd3. assert (al ≤ ps) as Hale by (destruct Hal as (k' & _ & E' & ?); unfold al; lia).
  assert (hf_align_up (round_up n al) ps = dp) as E2 by (apply hf_align_up_page; [done|unfold n in *; lia]).
  assert ((ps | ps + dp + ps)) as Hdt by (repeat apply Z.divide_add_r; done || apply Z.divide_refl).
  assert (hf_align_up (ps + dp + ps) ps = ps + dp + ps) as E3.
  { rewrite hf_align_up_page, round_up_id; [done|lia|done|done|unfold n in *; lia]. }
  unfold allocate. replace (if a <? 16 then 16 else a) with al by (unfold al, al_of; destruct (Z.ltb_spec a 16); lia).
  replace (if size =? 0 then 1 else size) with n by (unfold n; destruct (Z.eqb_spec size 0); lia).
  assert ((al >? ps) || negb (is_pow2 al) = false) as ->.
  { rewrite Z.gtb_ltb, (proj2 (Z.ltb_ge _ _)) by done. apply negb_false_iff, hf_is_pow2_iff; [ulia|]. exists k. split; [lia|done]. }
  cbv iota. rewrite align_up_eq, E1, E2, (wrap64_small (ps + dp)), (wrap64_small (ps + dp + ps)) by (unfold n in *; ulia).
  unfold reserve. rewrite vm_reserve_eq. unfold hf_vm_reserve. rewrite align_up_eq, E3. run_meth.
  destruct (mmap (vm_maps (pages (env w))) (ps + dp + ps)) as [b|] eqn:Em.
  2: { rewrite Z.eqb_refl. cbv iota. rewrite Z.eqb_refl. unfold bump_fail, locked, stats_do. rewrite Hmu. by destruct w as [[] ?]; cbn in Hmu; subst. }
  pose proof (Hlow _ _ _ Em). pose proof (Hmm _ _ _ Em) as (Hb0 & Hbd & _ & Hf). assert (fresh_base ps (pages (env w)) b dp) as Hfb by done.
  split; [done|]. rewrite (proj2 (Z.eqb_neq b NULL)) by lia. cbv iota. rewrite (proj2 (Z.eqb_neq b NULL)) by lia.
  unfold protect, pages_do, modify. cbn [self env]. rewrite !protected_eq by (done || lia || apply Z.divide_refl).
  set (w1 := World (self w) _). assert (w1 = World (self w) (set_pages (vm_guarded ps closes (pages (env w)) b dp) (env w))) as Hw1 by done.
  clearbody w1. fold (place (underflow_ (self w)) b n al).
  destruct (place_ok (underflow_ (self w)) b n al Hal H16 ltac:(unfold n; lia) Hb0 Hbd) as (_ & _ & _ & _ & Hu1 & Hu2 & _ & _).
  set (u := place (underflow_ (self w)) b n al) in *.
  destruct (fill_slack_ok (b + ps) dp u n w1 m) as (m' & E & Hout & Hin); [done|done|unfold n; lia| |].
  { intros x Hx. rewrite Hw1. cbn. apply accessible_data; [done|lia]. }
  assert (mu_ (self w1) = false) as Hmu1 by (by rewrite Hw1).
  assert (∀ u', u' = u → match fill_slack (b + ps) dp u' n w1 m with
    | Ok (_, s1, m2) => locked (enter ps munmap backtrace b (ps + dp + ps) dp u' n) s1 m2
    | Abort => Abort | Fault => Fault | OutOfFuel => OutOfFuel end = locked (enter ps munmap backtrace b (ps + dp + ps) dp u n) w1 m') as Heval.
  { intros u' ->. by rewrite E. }
  rewrite Heval by done. rewrite (enter_cases _ _ _ _ _ _ _ Hmu1). rewrite Hw1. cbn [slots env set_pages].
  destruct (free_slot_from 0 (slots (env w))) as [i|]; [|done]. exists m'. done.
Qed.

(** ** The quarantine *)

(** The heap's queue and the slots belong together; the queue may be [extra]
    over its limit. *)
Record heap_ok (extra : Z) (w : world) : Prop := {
  ho_slots : slots_ok ps closes (slots (env w)) (pages (env w));
  ho_cap : 0 ≤ quarantine_cap_ (self w);
  ho_nodup : NoDup (quarantine_ (self w));
  ho_quar i : i ∈ quarantine_ (self w) → ∃ s, slots (env w) !! i = Some s ∧ mine (this (self w)) 2 s = true;
  ho_count : count_if (mine (this (self w)) 2) (slots (env w)) = Z.of_nat (length (quarantine_ (self w)));
  ho_len : Z.of_nat (length (quarantine_ (self w))) ≤ quarantine_cap_ (self w) + extra
}.

Lemma heap_ok_mu extra b w : heap_ok extra w → heap_ok extra (World (set_mu b (self w)) (env w)).
Proof. intros []. by constructor. Qed.

(** The oldest quarantined slot given back. *)
Definition evicted (w : world) (old : nat) (q : list nat) (s : slot) : world :=
  World (set_quarantine q (self w))
    (set_slots (<[old := set_owner None (set_state 0 s)]> (slots (env w)))
       (set_pages (released ps munmap (base (region s)) (total (region s)) (pages (env w))) (env w))).

Lemma evict_ok w m : heap_ok 1 w →
  ∃ w', evict ps munmap (S (length (quarantine_ (self w)))) w m = Ok ((), w', m) ∧ heap_ok 0 w' ∧
    ((w' = w ∧ Z.of_nat (length (quarantine_ (self w))) ≤ quarantine_cap_ (self w)) ∨
     ∃ old q s, quarantine_ (self w) = old :: q ∧ quarantine_cap_ (self w) = Z.of_nat (length q) ∧
       slots (env w) !! old = Some s ∧ mine (this (self w)) 2 s = true ∧ w' = evicted w old q s).
Proof.
  intros Hok. pose proof Hok as [Hsl Hcap Hnd Hq Hc Hlen]. cbn [evict]. run_meth.
  destruct (Z.gtb_spec (Z.of_nat (length (quarantine_ (self w)))) (quarantine_cap_ (self w))) as [Hgt|Hle].
  2: { exists w. split; [done|]. split; [constructor; try done; lia|by left]. }
  destruct (quarantine_ (self w)) as [|old q] eqn:Eq; [cbn in Hgt; lia|]. cbn [length] in *.
  assert (quarantine_cap_ (self w) = Z.of_nat (length q)) as Ecap by lia.
  destruct (Hq old ltac:(apply elem_of_cons; by left)) as (s & Hi & Hs). exists (evicted w old q s).
  pose proof Hs as [Ho Est]%mine_true. assert (busy s = true) as Hb by (apply busy_true; lia).
  pose proof (so_region _ _ _ _ Hsl old s Hi Hb) as [_ _ (Hb1 & _ & Hb2) (Hd & Hp0 & Ht) _ _]. cbn in Hb1, Hb2, Hd, Hp0, Ht.
  apply NoDup_cons in Hnd as [Hnotin Hnd]. split; [|split].
  - unfold quarantine_do, modify, slot_at, slot_do, release, pages_do, modify. cbn [self env]. rewrite Hi.
    cbn [evict slots set_slots set_pages env self]. run_meth. cbn [self quarantine_ set_quarantine quarantine_cap_].
    rewrite Ecap, Z.gtb_ltb, Z.ltb_irrefl.
    rewrite (alter_at _ _ _ _ Hi), (alter_at _ _ _ (set_state 0 s)), list_insert_insert_eq; [done|].
    by eapply list_lookup_insert_eq, lookup_lt_Some.
  - constructor; cbn.
    + eapply slots_ok_drop; [done|done|done|done|done|]. apply released_cases; [lia|done].
    + done.
    + done.
    + intros i Hin. destruct (Hq i ltac:(apply elem_of_cons; by right)) as (u & Hu & Hm). exists u. split; [|done].
      rewrite list_lookup_insert_ne; [done|]. by intros ->.
    + rewrite (count_if_insert _ _ _ _ _ Hi), Hs.
      assert (mine (this (self w)) 2 (set_owner None (set_state 0 s)) = false) as -> by done. lia.
    + lia.
  - right. by exists old, q, s.
Qed.

(** ** [deallocate] *)

(** The slack of the block in slot [s] still holds the canaries. *)
Definition slack_kept (m : mem) (s : slot) : Prop :=
  let r := region s in
  ∀ x, range (base r + ps) (total r - 2 * ps) x → ¬ range (user r) (user_size r) x → load8 m x = 0xFD.

(** The heap after slot [i] was put in quarantine, before the eviction. *)
Definition retired (w : world) (i : nat) (s : slot) (intact : bool) : world :=
  let r := region s in
  World (set_quarantine (quarantine_ (self w) ++ [i])
           (set_stats (set_used (used (stats_ (self w)) -% user_size r) (stats_ (self w))) (self w)))
    (set_slots (<[i := set_state 2 s]> (slots (env w)))
       (set_pages (vm_try closes (pages (env w)) (base r + ps) (total r - 2 * ps) HF_PROT_NONE)
          (set_log (log (env w) ++ (if intact then [] else [Bug "堆越界"; Dbg "修复完毕"])) (env w)))).

Lemma retire_ok w m i s : heap_ok 0 w → slots (env w) !! i = Some s → mine (this (self w)) 1 s = true →
  let r := region s in
  ∃ intact, (intact = true ↔ slack_kept m s) ∧ heap_ok 1 (retired w i s intact) ∧
    retire ps mprotect munmap i w m =
      evict ps munmap (S (length (quarantine_ (self (retired w i s intact))))) (retired w i s intact)
        (memset m (base r + ps) kPoison (Z.to_nat (total r - 2 * ps))).
Proof.
  intros Hok Hi Hm r. pose proof Hok as [Hsl Hcap Hnd Hq Hc Hlen]. pose proof Hm as [Ho Est]%mine_true.
  assert (busy s = true) as Hb by (apply busy_true; lia).
  pose proof (so_region _ _ _ _ Hsl i s Hi Hb) as [_ _ (Hb1 & _ & Hb2) (Hd & Hp0 & Ht) (Hu1 & Hu2 & Hu3) Hg].
  cbn in Hb1, Hb2, Hd, Hp0, Ht, Hu1, Hu2, Hu3. fold r in Hb1, Hb2, Hd, Ht, Hu1, Hu2, Hu3.
  assert (∀ x, range (base r + ps) (total r - 2 * ps) x → accessible (pages (env w)) x = true) as Hacc.
  { intros x Hx. rewrite (Hg x) by (cbn; fold r; unfold range in *; lia). by rewrite shut_data. }
  destruct (check_slack_ok (base r + ps) (user r - (base r + ps)) w m) as (b1 & E1 & H1).
  { intros x Hx. apply Hacc. unfold range in *. lia. }
  destruct (check_slack_ok (user r + user_size r) (base r + total r - ps - (user r + user_size r)) w m) as (b2 & E2 & H2).
  { intros x Hx. apply Hacc. unfold range in *. lia. }
  exists (b1 && b2). split; [|split].
  - rewrite andb_true_iff, H1, H2. unfold slack_kept. fold r. split.
    + intros [Ha Hz] x Hx Hout. destruct (decide (x < user r)); [apply Ha|apply Hz]; unfold range in *; lia.
    + intros H. split; intros x Hx; apply H; unfold range in *; lia.
  - constructor; cbn.
    + by apply slots_ok_retire.
    + done.
    + apply NoDup_app. split; [done|]. split; [|apply NoDup_singleton]. intros j Hj ->%list_elem_of_singleton.
      destruct (Hq i Hj) as (u & Hu & [_ Hu2']%mine_true). simplify_eq. lia.
    + intros j Hj. apply elem_of_app in Hj as [Hj| ->%list_elem_of_singleton].
      * destruct (Hq j Hj) as (u & Hu & Hmu). exists u. split; [|done]. rewrite list_lookup_insert_ne; [done|]. intros ->.
        simplify_eq. apply mine_true in Hmu as [_ ?]. lia.
      * exists (set_state 2 s). split; [by eapply list_lookup_insert_eq, lookup_lt_Some|]. by apply mine_true.
    + rewrite (count_if_insert _ _ _ _ _ Hi), length_app. cbn [length].
      assert (mine (this (self w)) 2 s = false) as -> by (unfold mine; by rewrite Est, andb_false_r).
      rewrite (proj2 (mine_true (this (self w)) 2 (set_state 2 s))) by done. lia.
    + rewrite length_app. cbn. lia.
  - unfold retire, slot_at. run_meth. rewrite Hi. fold r. rewrite E1.
    assert ((if b1 then check_slack (user r + user_size r) (base r + total r - ps - (user r + user_size r)) else λ s m, Ok (false, s, m)) w m
      = Ok (b1 && b2, w, m)) as -> by (destruct b1; [exact E2|done]).
    replace (base r + total r - ps - (base r + ps)) with (total r - 2 * ps) by lia.
    set (w1 := World (self w) (set_log (log (env w) ++ (if b1 && b2 then [] else [Bug "堆越界"; Dbg "修复完毕"])) (env w))).
    assert ((if negb (b1 && b2) then say [Bug "堆越界"; Dbg "修复完毕"] else λ s0 m0, Ok ((), s0, m0)) w m = Ok ((), w1, m)) as ->.
    { unfold w1. destruct (b1 && b2); cbn [negb]; [|done]. rewrite app_nil_r. by destruct w as [? []]. }
    unfold stats_do, modify. rewrite fill_ok by done. unfold protect, pages_do, modify. cbn [self env].
    rewrite protected_eq; [|lia|apply Z.divide_sub_r; [done|apply Z.divide_factor_r]].
    unfold slot_do, quarantine_do, modify. cbn [self env slots set_pages set_log w1]. rewrite (alter_at _ _ _ _ Hi). done.
Qed.

(** What is left unchanged by a free, and what happens to the slot. *)
Record freed_facts (w w' : world) (i : nat) (s : slot) (intact : bool) : Prop := {
  ff_this : this (self w') = this (self w);
  ff_mode : policy_ (self w') = policy_ (self w) ∧ underflow_ (self w') = underflow_ (self w);
  ff_cap : quarantine_cap_ (self w') = quarantine_cap_ (self w);
  ff_mu : mu_ (self w') = false;
  ff_log : log (env w') = log (env w) ++ (if intact then [] else [Bug "堆越界"; Dbg "修复完毕"]);
  ff_queue : quarantine_ (self w') = (if Z.of_nat (length (quarantine_ (self w))) <? quarantine_cap_ (self w)
                                      then quarantine_ (self w) ++ [i] else tail (quarantine_ (self w) ++ [i]));
  ff_slot : 0 < quarantine_cap_ (self w) → slots (env w') !! i = Some (set_state 2 s);
  ff_other j u : slots (env w) !! j = Some u → j ≠ i → mine (this (self w)) 2 u = false → slots (env w') !! j = Some u;
  ff_queued j u : slots (env w) !! j = Some u → j ≠ i → j ∈ quarantine_ (self w') → slots (env w') !! j = Some u;
  ff_live j u : slots (env w') !! j = Some u → state (region u) = 1 → j ≠ i ∧ slots (env w) !! j = Some u;
  ff_count1 : count_if (mine (this (self w)) 1) (slots (env w')) = count_if (mine (this (self w)) 1) (slots (env w)) - 1;
  ff_busy : count_if busy (slots (env w')) - Z.of_nat (length (quarantine_ (self w'))) =
            count_if busy (slots (env w)) - Z.of_nat (length (quarantine_ (self w))) - 1
}.

(** The bookkeeping of the lock and the call counter. *)
Definition entry (w : world) : world := World (set_mu true (set_stats (bump_free (stats_ (self w))) (self w))) (env w).

Lemma deallocate_live w m i s : mu_ (self w) = false → heap_ok 0 w → slots (env w) !! i = Some s → mine (this (self w)) 1 s = true →
  let r := region s in
  ∃ intact w', (intact = true ↔ slack_kept m s) ∧
    deallocate ps mprotect munmap (user r) w m = Ok ((), w', memset m (base r + ps) kPoison (Z.to_nat (total r - 2 * ps))) ∧
    heap_ok 0 w' ∧ freed_facts w w' i s intact.
Proof.
  intros Hmu Hok Hi Hm r. subst r. pose proof Hm as [Ho Est]%mine_true. assert (busy s = true) as Hb by (apply busy_true; lia).
  pose proof (so_region _ _ _ _ (ho_slots _ _ Hok) i s Hi Hb) as [_ _ (Hb1 & _ & _) (_ & Hp0 & _) (Hu1 & _ & _) _]. cbn in Hb1, Hp0, Hu1.
  assert (owned_from (this (self w)) (user (region s)) 0 (slots (env w)) = Some i) as Hown.
  { destruct (owned_from _ _ _ _) as [j|] eqn:E.
    - apply owned_Some in E as (_ & u & Hj & Hou & Hus & Hst). rewrite Nat.sub_0_r in Hj. f_equal. symmetry.
      eapply slots_user_inj; [by apply Hok|done|done|done|apply busy_true; lia|done].
    - exfalso. by apply (owned_None _ _ _ _ i s E Hi). }
  assert (heap_ok 0 (entry w)) as Hok0 by (destruct Hok; by constructor).
  destruct (retire_ok (entry w) m i s Hok0 Hi Hm) as (intact & Hint & Hok1 & Erun).
  destruct (evict_ok _ (memset m (base (region s) + ps) kPoison (Z.to_nat (total (region s) - 2 * ps))) Hok1) as (w2 & Eev & Hok2 & Hcase).
  exists intact, (World (set_mu false (self w2)) (env w2)). split; [done|]. split; [|split; [by apply heap_ok_mu|]].
  - unfold deallocate. rewrite (proj2 (Z.eqb_neq _ _)) by lia. unfold locked, stats_do. rewrite Hmu. run_meth.
    cbn [self env set_stats this set_mu stats_]. rewrite Hown.
    change (World (set_stats (bump_free (stats_ (self w))) (set_mu true (self w))) (env w)) with (entry w).
    by rewrite Erun, Eev.
  - assert (count_if busy (slots (env (retired (entry w) i s intact))) = count_if busy (slots (env w))) as Hb1c.
    { cbn. rewrite (count_if_insert _ _ _ _ _ Hi), Hb. assert (busy (set_state 2 s) = true) as -> by done. lia. }
    assert (count_if (mine (this (self w)) 1) (slots (env (retired (entry w) i s intact))) = count_if (mine (this (self w)) 1) (slots (env w)) - 1) as Hc1.
    { cbn. rewrite (count_if_insert _ _ _ _ _ Hi), Hm.
      assert (mine (this (self w)) 1 (set_state 2 s) = false) as -> by (unfold mine; apply andb_false_r). lia. }
    assert (∀ j u, slots (env (retired (entry w) i s intact)) !! j = Some u → state (region u) = 1 → j ≠ i ∧ slots (env w) !! j = Some u) as Hlv.
    { intros j u Hj Hu. cbn in Hj. apply list_lookup_insert_Some in Hj as [(-> & <- & _)|[? ?]]; [done|by split]. }
    destruct Hcase as [[-> Hle]|(old & q & u & Eq & Ecap & Hold & Hmu2 & ->)].
    + cbn in Hle. rewrite length_app in Hle. cbn in Hle. constructor; try done; cbn.
      * rewrite (proj2 (Z.ltb_lt _ _)) by lia. done.
      * intros _. by eapply list_lookup_insert_eq, lookup_lt_Some.
      * intros j z Hj Hne _. by rewrite list_lookup_insert_ne.
      * intros j z Hj Hne _. by rewrite list_lookup_insert_ne.
      * cbn in Hb1c. rewrite Hb1c, length_app. cbn. lia.
    + cbn in Eq, Ecap, Hold, Hmu2. pose proof Hmu2 as [Hou Hst]%mine_true.
      assert (length (quarantine_ (self w) ++ [i]) = S (length q)) as Elen by (by rewrite Eq). rewrite length_app in Elen. cbn in Elen.
      constructor; try done; cbn.
      * rewrite (proj2 (Z.ltb_ge _ _)) by lia. by rewrite Eq.
      * intros Hpos. rewrite list_lookup_insert_ne; [by eapply list_lookup_insert_eq, lookup_lt_Some|]. intros ->.
        pose proof (ho_nodup _ _ Hok1) as Hnd1. cbn in Hnd1. destruct (quarantine_ (self w)) as [|j l]; simplify_eq/=; [cbn in *; lia|].
        apply NoDup_cons in Hnd1 as [Hnin _]. set_solver.
      * intros j z Hj Hne Hmz. destruct (decide (j = old)) as [->|Hn].
        { exfalso. rewrite list_lookup_insert_ne in Hold by done. simplify_eq. congruence. }
        by rewrite !list_lookup_insert_ne.
      * intros j z Hj Hne Hin. pose proof (ho_nodup _ _ Hok1) as Hnd1. cbn in Hnd1. rewrite Eq in Hnd1. apply NoDup_cons in Hnd1 as [Hnin _].
        rewrite !list_lookup_insert_ne; [done|done|]. by intros ->.
      * intros j z Hj Hz. apply list_lookup_insert_Some in Hj as [(-> & <- & _)|[? Hj]]; [done|]. by apply Hlv.
      * cbn in Hc1. rewrite (count_if_insert _ _ _ _ _ Hold), Hc1.
        assert (mine (this (self w)) 1 u = false) as -> by (unfold mine; by rewrite Hst, andb_false_r).
        assert (mine (this (self w)) 1 (set_owner None (set_state 0 u)) = false) as -> by done. lia.
      * cbn in Hb1c. rewrite (count_if_insert _ _ _ _ _ Hold), Hb1c.
        assert (busy u = true) as -> by (apply busy_true; lia). assert (busy (set_owner None (set_state 0 u)) = false) as -> by done. lia.
Qed.

(** A pointer the heap has not handed out. *)
Lemma deallocate_other w m p : mu_ (self w) = false → p ≠ NULL →
  (∀ i s, slots (env w) !! i = Some s → mine (this (self w)) 1 s = true → user (region s) ≠ p) →
  deallocate ps mprotect munmap p w m =
    Ok ((), World (set_stats (bump_free (stats_ (self w))) (self w)) (set_log (log (env w) ++ [Bug "非法释放"; Dbg "修复完毕"]) (env w)), m).
Proof.
  intros Hmu Hp Hno. unfold deallocate. rewrite (proj2 (Z.eqb_neq _ _) Hp). unfold locked, stats_do. rewrite Hmu. run_meth.
  cbn [self env set_stats this set_mu stats_]. destruct (owned_from _ _ _ _) as [i|] eqn:E.
  - exfalso. apply owned_Some in E as (_ & s & Hi & Ho & Hu & Hst). rewrite Nat.sub_0_r in Hi.
    apply (Hno i s Hi); [by apply mine_true|done].
  - unfold say, modify. destruct w as [[] ?]. cbn in *. by subst.
Qed.
End kernel.

(** ** The fault handler *)

Lemma range_hit_Some x l r : hit_from x l = Some r → ∃ i s, l !! i = Some s ∧ region s = r ∧ busy s = true ∧ extent s x.
Proof.
  induction l as [|s l IH]; [done|]. cbn [hit_from]. intros H.
  assert (hit_from x l = Some r → ∃ i s', (s :: l) !! i = Some s' ∧ region s' = r ∧ busy s' = true ∧ extent s' x) as Hnext.
  { intros (i & s' & ?)%IH. by exists (S i), s'. }
  destruct (state (region s) =? 0) eqn:E0; [by apply Hnext|]. destruct (_ || _) eqn:E; [by apply Hnext|].
  injection H as <-. exists 0%nat, s. split; [done|]. split; [done|]. split; [unfold busy; by rewrite E0|].
  apply orb_false_iff in E as [E1 E2]. rewrite Z.geb_leb in E2. zb. unfold extent, range. lia.
Qed.

Lemma range_hit_None x l i s : hit_from x l = None → l !! i = Some s → busy s = true → ¬ extent s x.
Proof.
  revert i. induction l as [|u l IH]; intros i H Hi Hb; [done|]. cbn [hit_from] in H.
  destruct (state (region u) =? 0) eqn:E0.
  - destruct i as [|i]; simplify_eq/=; [unfold busy in Hb; by rewrite E0 in Hb|by apply (IH i)].
  - destruct (_ || _) eqn:E; [|done]. destruct i as [|i]; simplify_eq/=; [|by apply (IH i)].
    apply orb_true_iff in E. rewrite Z.geb_leb in E. unfold extent, range. destruct E; zb; lia.
Qed.

(** What the handler needs of the slots: that each one in use is a mapping of
    its own, whatever its pages' protections are. *)
Record slots_placed (l : list slot) (v : vm) : Prop := {
  sp_region i s : l !! i = Some s → busy s = true →
    0 < base (region s) ∧ base (region s) + total (region s) ≤ 2 ^ 63 ∧ (base (region s), total (region s)) ∈ vm_maps v;
  sp_apart i j s u x : l !! i = Some s → l !! j = Some u → i ≠ j → busy s = true → busy u = true →
    extent s x → ¬ extent u x
}.

Lemma slots_ok_placed ps mp l v : slots_ok ps mp l v → slots_placed l v.
Proof.
  intros Hl. constructor; [|apply Hl]. intros i s Hi Hb. pose proof (so_region _ _ _ _ Hl i s Hi Hb) as [_ Hm (? & _ & ?) _ _ _]. done.
Qed.

(** Two slots in use with a common address are one. *)
Lemma slots_placed_inj l v i j s u x : slots_placed l v → l !! i = Some s → l !! j = Some u → busy s = true → busy u = true →
  extent s x → extent u x → s = u.
Proof.
  intros Hl Hi Hj Hs Hu Hx Hx'. destruct (decide (i = j)) as [->|Hne]; [congruence|]. by destruct (sp_apart _ _ Hl i j s u x Hi Hj Hne Hs Hu Hx).
Qed.

(** Opening the page of an address. *)
Lemma open_page ps (ok : Z → Z → bool) v x : page_size_ok ps → is_u64 x → mapped v x = true →
  let page := Z.land x (not64 (ps -% 1)) in
  accessible (if ok page ps then Vm (vm_maps v) ((page, ps, HF_PROT_RW) :: vm_prot v) else v) x = ok (x / ps * ps) ps || accessible v x.
Proof.
  intros (k & Hk & ->) Hx Hm. assert (2 ^ k ≤ 2 ^ 30) by (apply pow2_le_mono; lia). pose proof (pow2_pos k ltac:(lia)).
  cbv zeta. rewrite align_mask, land_clear_low by (ulia || lia). pose proof (Z.div_mod x (2 ^ k) ltac:(lia)). pose proof (Z.mod_pos_bound x (2 ^ k) ltac:(lia)).
  fold (vm_try ok v (x / 2 ^ k * 2 ^ k) (2 ^ k) HF_PROT_RW). rewrite accessible_try, (proj2 (covers_true _ _ _)) by (unfold range; lia).
  cbn [andb]. destruct (ok _ _); [|done]. by rewrite bool_decide_eq_true_2, andb_true_r, Hm.
Qed.

(** The handler finds the slot whose mapping holds the address. *)
Lemma hit_from_in ps mp l v i s x : slots_ok ps mp l v → l !! i = Some s → busy s = true → extent s x → hit_from x l = Some (region s).
Proof.
  intros Hl Hi Hb Hx. destruct (hit_from x l) as [r|] eqn:E; [|by destruct (range_hit_None x l i s E Hi Hb)].
  apply range_hit_Some in E as (j & u & Hj & <- & Hub & Hux). destruct (decide (i = j)) as [->|Hne]; [congruence|].
  by destruct (so_apart _ _ _ _ Hl i j s u x Hi Hj Hne Hb Hub Hx).
Qed.

Lemma hit_from_out l x : (∀ i s, l !! i = Some s → busy s = true → ¬ extent s x) → hit_from x l = None.
Proof.
  intros H. destruct (hit_from x l) as [r|] eqn:E; [|done]. apply range_hit_Some in E as (i & s & Hi & _ & Hb & Hx). by destruct (H i s).
Qed.
