(* ===== verification/CppGuardSpec.v ===== *)
(** * The C++ guard heap: what it promises

    A client that keeps a bounded number of blocks is always served within the
    contract of [Allocator]; every block lies between two guard pages in both
    placements; a free is judged by the canaries around the block; a freed
    block stays in quarantine until enough later blocks have been freed; and
    the fault handler recognises the blocks of every heap at any instant.  No
    theorem assumes that [mprotect] succeeds: which pages are closed is stated
    by what the kernel answered, since the code does not look at it. *)

From S2P Require Import Prelude Memory Platform Allocator GuardHeap GuardProofs Cpp CppGuardHeap CppGuardProofs.
Import GuardHeapCpp.

(** ** Clients with a quota *)

Definition live_count (w : world) : Z := count_if (mine (this (self w)) 1) (slots (env w)).
(** Slots other heaps of the process occupy. *)
Definition other_slots (w : world) : Z :=
  count_if busy (slots (env w)) - Z.of_nat (length (quarantine_ (self w))) - live_count w.

Section spec.
Context (ps : Z) (mmap : list (Z * Z) → Z → option Z) (mprotect : Z → Z → Z → bool) (munmap : Z → Z → bool) (backtrace : Z).
(** How many blocks the client keeps, the heap, and the slots and the log it
    starts with. *)
Context (quota : Z) (addr : nat) (slots0 : list slot) (log0 : list note).

(** The heap used by a client that asks for a block only while it has fewer
    than [quota]. *)
Definition quota_allocate (size alignment : Z) : meth world Z := λ w m,
  if live_count w <? quota then allocate ps mmap mprotect munmap backtrace size alignment w m else Ok (NULL, w, m).

Definition quota_methods : IAllocator world := {|
  ia_allocate := quota_allocate;
  ia_deallocate := deallocate ps mprotect munmap;
  ia_name := name;
  ia_stats := stats;
  ia_walk := walk;
  ia_released := statics;
  ia_dtor := dtor ps munmap
|}.

(** Heap, memory and the client's blocks belong together. *)
Record guard_inv (w : world) (m : mem) (L : live_map) : Prop := {
  gi_mu : mu_ (self w) = false;
  gi_heap : heap_ok ps mprotect 0 w;
  gi_to p n : L !! p = Some n → 0 ≤ n ∧ ∃ i s, slots (env w) !! i = Some s ∧ mine (this (self w)) 1 s = true ∧
    user (region s) = p ∧ user_size (region s) = Z.max 1 n;
  gi_from i s : slots (env w) !! i = Some s → mine (this (self w)) 1 s = true → is_Some (L !! user (region s));
  gi_slack i s : slots (env w) !! i = Some s → mine (this (self w)) 1 s = true → slack_kept ps m s;
  gi_align i s : slots (env w) !! i = Some s → mine (this (self w)) 1 s = true → (16 | user (region s));
  gi_room : other_slots w + quota + quarantine_cap_ (self w) ≤ 4096;
  gi_others i sl : slots0 !! i = Some sl → busy sl = true → slots (env w) !! i = Some sl ∧ owner sl ≠ Some (this (self w));
  gi_log : log (env w) = log0;
  gi_this : this (self w) = addr
}.

Lemma mine_busy h k s : mine h k s = true → k ≠ 0 → busy s = true.
Proof. intros [_ E]%mine_true Hk. apply busy_true. lia. Qed.

(** The bytes of a client's block are in its mapping, inside the data pages. *)
Lemma live_in_slot w m L p n x : guard_inv w m L → L !! p = Some n → range p n x →
  ∃ i s, slots (env w) !! i = Some s ∧ mine (this (self w)) 1 s = true ∧ user (region s) = p ∧
    range (user (region s)) (user_size (region s)) x ∧ extent s x.
Proof.
  intros Hi Hp Hx. destruct (gi_to _ _ _ Hi p n Hp) as (Hn & i & s & Hs & Hm & Hu & Hz).
  pose proof (so_region _ _ _ _ (ho_slots _ _ _ _ (gi_heap _ _ _ Hi)) i s Hs (mine_busy _ _ _ Hm ltac:(done))) as [_ _ _ (_ & ? & ?) (? & ? & ?) _].
  cbn in *. exists i, s. unfold extent, range in *. split_and!; try done; lia.
Qed.

Lemma live_mapped w m L x : guard_inv w m L → in_live L x → mapped (pages (env w)) x = true.
Proof.
  intros Hi (p & n & Hp & Hx). destruct (live_in_slot w m L p n x Hi Hp Hx) as (i & s & Hs & Hm & _ & _ & He).
  eapply slot_mapped; [apply (gi_heap _ _ _ Hi)|done|by eapply mine_busy|done].
Qed.

(** The client's blocks depend on nothing else. *)
Lemma slack_kept_agree m m' s : (∀ x, extent s x → ¬ range (user (region s)) (user_size (region s)) x → load8 m' x = load8 m x) → 0 < ps →
  slack_kept ps m s → slack_kept ps m' s.
Proof.
  intros Hag Hp H x Hx Hout. rewrite Hag; [by apply H| |done]. unfold extent, range in *. lia.
Qed.

Context (Hk : kernel_ok ps mmap).

Lemma align_16 : align_ok ps (al_of 16).
Proof. destruct Hk as (Hps & _). exists 4. destruct (page_size_bounds ps Hps). split; [lia|]. split; [done|]. lia. Qed.

(** A slot is free while the client is below its quota. *)
Lemma slot_available w m L : guard_inv w m L → live_count w < quota → is_Some (free_slot_from 0 (slots (env w))).
Proof.
  intros Hi Hlt. destruct (free_slot_from 0 (slots (env w))) as [i|] eqn:E; [by eexists|]. exfalso.
  pose proof (gi_heap _ _ _ Hi) as [Hsl _ _ _ _ Hlen]. pose proof (gi_room _ _ _ Hi) as Hroom. unfold other_slots in Hroom.
  assert (count_if busy (slots (env w)) = 4096) as Hfull; [|lia].
  rewrite (count_if_const busy true); [by rewrite (so_len _ _ _ _ Hsl)|]. intros s Hs. apply list_elem_of_lookup_1 in Hs as [j Hj].
  apply busy_true. intros E0. apply (free_slot_None _ _ j s E Hj). split; [done|]. by apply (so_free _ _ _ _ Hsl j s Hj).
Qed.

(** A block entered in a free slot, whatever the alignment. *)
Lemma entered_ok w b dp i s u n : heap_ok ps mprotect 0 w → slots (env w) !! i = Some s → state (region s) = 0 → 4096 ≤ ps ≤ 2 ^ 30 → (ps | dp) →
  fresh_base ps (pages (env w)) b dp → 0 < n ≤ dp → b + ps ≤ u → u + n ≤ b + ps + dp →
  heap_ok ps mprotect 0 (entered ps mprotect backtrace w b dp i u n) ∧ live_count (entered ps mprotect backtrace w b dp i u n) = live_count w + 1 ∧
  other_slots (entered ps mprotect backtrace w b dp i u n) = other_slots w.
Proof.
  intros [Hsl Hcap Hnd Hq Hc Hlen] Hi Hs0 Hp Hd Hfb Hn Hu1 Hu2.
  assert (∀ k, k ≠ 0 → mine (this (self w)) k s = false) as Hm0.
  { intros k Hk0. unfold mine. rewrite Hs0. destruct (Z.eqb_spec 0 k); [lia|apply andb_false_r]. }
  assert (busy s = false) as Hb0 by (unfold busy; by rewrite Hs0).
  split; [constructor; cbn; try done|split].
  - by eapply slots_ok_enter.
  - intros j Hj. destruct (Hq j Hj) as (z & Hz & Hmz). exists z. split; [|done]. rewrite list_lookup_insert_ne; [done|].
    intros ->. simplify_eq. rewrite Hm0 in Hmz; [done|lia].
  - rewrite (count_if_insert _ _ _ _ _ Hi), Hm0 by lia. unfold mine at 2. cbn. rewrite andb_false_r. lia.
  - unfold live_count. cbn. rewrite (count_if_insert _ _ _ _ _ Hi), Hm0 by lia.
    rewrite (proj2 (mine_true (this (self w)) 1 _)) by done. lia.
  - unfold other_slots, live_count. cbn. rewrite !(count_if_insert _ _ _ _ _ Hi), Hb0, Hm0 by lia.
    rewrite (proj2 (mine_true (this (self w)) 1 _)) by done. cbn. lia.
Qed.

Lemma guard_inv_allocate w m L size : guard_inv w m L → 0 ≤ size ≤ 2 ^ 62 →
  ∃ w' m' p, quota_allocate size HF_DEFAULT_ALIGN w m = Ok (p, w', m') ∧ agree_on (in_live L) m m' ∧
    ((p = NULL ∧ guard_inv w' m' L) ∨ (p ≠ NULL ∧ L !! p = None ∧ apart L p size ∧ guard_inv w' m' (<[p := size]> L))).
Proof.
  intros Hinv Hs. unfold quota_allocate. destruct (Z.ltb_spec (live_count w) quota) as [Hlt|].
  2: { exists w, m, NULL. split; [done|]. split; [done|]. by left. }
  destruct (slot_available w m L Hinv Hlt) as [i Ei]. pose proof Hinv as [Hmu Hok Hto Hfrom Hsla Hali Hroom Hot0 Hlog Hthis].
  pose proof (allocate_cases ps mmap mprotect munmap backtrace Hk size 16 w m Hmu (ho_slots _ _ _ _ Hok) Hs align_16) as Hal.
  change HF_DEFAULT_ALIGN with 16. cbv zeta in Hal. set (n := Z.max 1 size) in *. change (al_of 16) with 16 in Hal. set (dp := dp_of ps n 16) in *.
  destruct (mmap (vm_maps (pages (env w))) (ps + dp + ps)) as [b|].
  2: { exists (refused w), m, NULL. split; [done|]. split; [done|]. left. split; [done|].
       by destruct Hok. }
  rewrite Ei in Hal. destruct Hal as (Hfb & m' & Erun & Hout & Hin). set (u := place ps (underflow_ (self w)) b n 16) in *.
  pose proof Hfb as (Hb0 & Hbd & Hlim & Hf). apply free_slot_Some in Ei as (_ & s & Hi & Hs0 & _). rewrite Nat.sub_0_r in Hi.
  destruct (place_ok ps mmap Hk (underflow_ (self w)) b n 16 align_16 ltac:(lia) ltac:(unfold n; lia) Hb0 Hbd)
    as (Hd & Hnd & _ & Hp & Hu1 & Hu2 & Hu3 & _). fold dp in Hd, Hnd, Hu1, Hu2. fold u in Hu1, Hu2, Hu3.
  assert (0 < n) as Hn by (unfold n; lia). assert (size ≤ n) as Hsn by (unfold n; lia).
  destruct (entered_ok w b dp i s u n Hok Hi Hs0 Hp Hd Hfb ltac:(lia) Hu1 Hu2) as (Hok' & Hlc & Hot).
  set (w' := entered ps mprotect backtrace w b dp i u n) in *. exists w', m', u. split; [done|].
  assert (∀ x, mapped (pages (env w)) x = true → ¬ range b (ps + dp + ps) x) as Hfresh by (intros x; by apply fresh_unmapped).
  assert (∀ j z, slots (env w) !! j = Some z → busy z = true → slots (env w') !! j = Some z) as Hkeep.
  { intros j z Hj Hz. cbn. rewrite list_lookup_insert_ne; [done|]. intros ->. simplify_eq. apply busy_true in Hz. lia. }
  assert (∀ x, in_live L x → ¬ range b (ps + dp + ps) x) as Hlv by (intros x Hx; apply Hfresh; by eapply live_mapped).
  assert (∀ j z, slots (env w') !! j = Some z → mine (this (self w)) 1 z = true →
    (z = Slot (Reg 1 b (ps + dp + ps) u n (policy_ (self w)) (underflow_ (self w)) backtrace) (Some (this (self w)))) ∨
    slots (env w) !! j = Some z) as Hnew.
  { intros j z Hj _. cbn in Hj. apply list_lookup_insert_Some in Hj as [(-> & <- & _)|[_ Hj]]; [by left|by right]. }
  assert (L !! u = None) as HN.
  { destruct (L !! u) as [k|] eqn:E; [|done]. exfalso. destruct (Hto u k E) as (_ & j & z & Hj & Hmz & Hu & _).
    pose proof (so_region _ _ _ _ (ho_slots _ _ _ _ Hok) j z Hj (mine_busy _ _ _ Hmz ltac:(done))) as [_ _ _ (_ & ? & ?) (? & ? & ?) _]. cbn in *.
    apply (Hfresh u); [|unfold range; lia]. eapply slot_mapped; [by apply Hok|exact Hj|by eapply mine_busy|]. unfold extent, range. lia. }
  split. { intros x Hx. apply Hout. specialize (Hlv x Hx). unfold range in *. lia. }
  right. split; [lia|]. split; [done|]. split. { intros x Hx Hlx. apply (Hlv x Hlx). unfold range in *. lia. }
  constructor; try done.
  - intros p k Hpk. destruct (decide (p = u)) as [->|Hne].
    + rewrite lookup_insert_eq in Hpk. simplify_eq. split; [lia|]. eexists i, _. split; [by eapply list_lookup_insert_eq, lookup_lt_Some|].
      split; [by apply mine_true|done].
    + rewrite lookup_insert_ne in Hpk by done. destruct (Hto p k Hpk) as (? & j & z & Hj & Hmz & ?). split; [done|].
      exists j, z. split; [|done]. apply Hkeep; [done|by eapply mine_busy].
  - intros j z Hj Hmz. destruct (Hnew j z Hj Hmz) as [->|Hj']; [by rewrite lookup_insert_eq; eexists|].
    destruct (Hfrom j z Hj' Hmz) as [k Hz]. destruct (decide (user (region z) = u)) as [E|Hne]; [congruence|].
    rewrite lookup_insert_ne by done. by eexists.
  - intros j z Hj Hmz. destruct (Hnew j z Hj Hmz) as [->|Hj'].
    + intros x Hx. cbn in *. apply Hin. replace (ps + dp + ps - 2 * ps) with dp in Hx by lia. done.
    + eapply slack_kept_agree; [|lia|by eapply Hsla]. intros x Hx _. apply Hout.
      assert (mapped (pages (env w)) x = true) as Hm by (eapply slot_mapped; [by apply Hok|exact Hj'|by eapply mine_busy|done]).
      specialize (Hfresh x Hm). unfold range in *. lia.
  - intros j z Hj Hmz. destruct (Hnew j z Hj Hmz) as [->|Hj']; [done|by eapply Hali].
  - rewrite Hot. done.
  - intros j z Hj Hz. destruct (Hot0 j z Hj Hz) as [Hj' Ho]. split; [|done]. by apply Hkeep.
Qed.

(** Poisoning the data pages of a slot touches no other slot. *)
Lemma poison_out w i s j z m x : heap_ok ps mprotect 0 w → slots (env w) !! i = Some s → slots (env w) !! j = Some z → i ≠ j →
  busy s = true → busy z = true → extent z x →
  load8 (memset m (base (region s) + ps) kPoison (Z.to_nat (total (region s) - 2 * ps))) x = load8 m x.
Proof.
  intros Hok Hi Hj Hne Hs Hz Hx. apply load8_memset_out.
  pose proof (so_region _ _ _ _ (ho_slots _ _ _ _ Hok) i s Hi Hs) as [_ _ _ (_ & ? & ?) _ _]. cbn in *.
  pose proof (so_apart _ _ _ _ (ho_slots _ _ _ _ Hok) j i z s x Hj Hi ltac:(done) Hz Hs Hx) as Hn. unfold extent, range in *. lia.
Qed.

Lemma guard_inv_deallocate w m L p n : guard_inv w m L → L !! p = Some n →
  ∃ w' m', deallocate ps mprotect munmap p w m = Ok ((), w', m') ∧ agree_on (in_live (delete p L)) m m' ∧ guard_inv w' m' (delete p L).
Proof.
  intros Hinv Hp. pose proof Hinv as [Hmu Hok Hto Hfrom Hsla Hali Hroom Hot0 Hlog Hthis].
  destruct (Hto p n Hp) as (Hn & i & s & Hi & Hm & Hu & Hsz). pose proof (mine_busy _ _ _ Hm ltac:(done)) as Hb.
  destruct (deallocate_live ps mmap mprotect munmap Hk w m i s Hmu Hok Hi Hm) as (intact & w' & Hint & Erun & Hok' & Hf).
  rewrite Hu in Erun. set (m' := memset _ _ _ _) in Erun. exists w', m'. split; [done|].
  assert (intact = true) as -> by (apply Hint; by eapply Hsla).
  assert (0 < ps) as Hp0 by (pose proof (so_region _ _ _ _ (ho_slots _ _ _ _ Hok) i s Hi Hb) as [_ _ _ (_ & ? & ?) _ _]; done).
  assert (∀ j z, slots (env w) !! j = Some z → mine (this (self w)) 1 z = true → j ≠ i → slots (env w') !! j = Some z) as Hkeep.
  { intros j z Hj Hmz Hne. eapply (ff_other _ _ _ _ _ Hf); [done|done|]. apply mine_true in Hmz as [_ E]. unfold mine. by rewrite E, andb_false_r. }
  assert (∀ j z, slots (env w') !! j = Some z → mine (this (self w')) 1 z = true →
    j ≠ i ∧ slots (env w) !! j = Some z ∧ mine (this (self w)) 1 z = true ∧ user (region z) ≠ p) as Hback.
  { intros j z Hj Hmz. rewrite (ff_this _ _ _ _ _ Hf) in Hmz. destruct (ff_live _ _ _ _ _ Hf j z Hj) as [Hne Hj']; [by apply mine_true in Hmz as [_ ?]|].
    split_and!; try done. intros E. apply Hne.
    apply (slots_user_inj ps (closes mprotect) _ _ j i z s (ho_slots _ _ _ _ Hok) Hj' Hi (mine_busy _ _ _ Hmz ltac:(done)) Hb). congruence. }
  assert (∀ q k, delete p L !! q = Some k → ∃ j z, slots (env w) !! j = Some z ∧ mine (this (self w)) 1 z = true ∧ j ≠ i ∧
    user (region z) = q ∧ user_size (region z) = Z.max 1 k ∧ 0 ≤ k) as Hdel.
  { intros q k Hq. apply lookup_delete_Some in Hq as [Hne Hq]. destruct (Hto q k Hq) as (? & j & z & Hj & Hmz & Huz & Hz).
    exists j, z. split_and!; try done. intros ->. congruence. }
  split; [|constructor].
  - intros x (q & k & Hq & Hx). destruct (Hdel q k Hq) as (j & z & Hj & Hmz & Hne & Huz & Hz & Hk0). unfold m'.
    apply (poison_out w i s j z m x Hok Hi Hj (not_eq_sym Hne)); [done|by eapply mine_busy|].
    apply lookup_delete_Some in Hq as [_ Hq]. destruct (live_in_slot w m L q k x Hinv Hq Hx) as (j' & z' & Hj' & Hmz' & Huz' & _ & He).
    assert (j' = j) as ->; [|by simplify_eq].
    apply (slots_user_inj ps (closes mprotect) _ _ j' j z' z (ho_slots _ _ _ _ Hok) Hj' Hj (mine_busy _ _ _ Hmz' ltac:(done)) (mine_busy _ _ _ Hmz ltac:(done))). congruence.
  - apply Hf.
  - done.
  - intros q k Hq. rewrite (ff_this _ _ _ _ _ Hf). destruct (Hdel q k Hq) as (j & z & Hj & Hmz & Hne & Huz & Hz & Hk0).
    split; [done|]. exists j, z. split; [by apply Hkeep|done].
  - intros j z Hj Hmz. destruct (Hback j z Hj Hmz) as (Hne & Hj' & Hmz' & Hup). rewrite lookup_delete_ne by done. by eapply Hfrom.
  - intros j z Hj Hmz. destruct (Hback j z Hj Hmz) as (Hne & Hj' & Hmz' & _).
    eapply slack_kept_agree; [|done|by eapply Hsla]. intros x Hx _. unfold m'.
    apply (poison_out w i s j z m x Hok Hi Hj' (not_eq_sym Hne)); [done|by eapply mine_busy|done].
  - intros j z Hj Hmz. destruct (Hback j z Hj Hmz) as (_ & Hj' & Hmz' & _). by eapply Hali.
  - rewrite (ff_cap _ _ _ _ _ Hf). pose proof (ff_busy _ _ _ _ _ Hf). pose proof (ff_count1 _ _ _ _ _ Hf).
    unfold other_slots, live_count in *. rewrite (ff_this _ _ _ _ _ Hf). lia.
  - intros j z Hj Hz. destruct (Hot0 j z Hj Hz) as [Hj' Hno]. rewrite (ff_this _ _ _ _ _ Hf). split; [|done].
    pose proof Hm as [Hos _]%mine_true. eapply (ff_other _ _ _ _ _ Hf); [done|intros ->; congruence|].
    unfold mine. by rewrite bool_decide_false.
  - rewrite (ff_log _ _ _ _ _ Hf), app_nil_r. done.
  - rewrite (ff_this _ _ _ _ _ Hf). done.
Qed.

Lemma guard_inv_write w m m' L : guard_inv w m L → agree_on (λ x, ¬ in_live L x) m m' → guard_inv w m' L.
Proof.
  intros Hinv Hag. pose proof Hinv as [Hmu Hok Hto Hfrom Hsla Hali Hroom Hot0 Hlog Hthis]. constructor; try done.
  intros i s Hi Hm. assert (0 < ps) as Hp0 by (pose proof (so_region _ _ _ _ (ho_slots _ _ _ _ Hok) i s Hi (mine_busy _ _ _ Hm ltac:(done))) as [_ _ _ (_ & ? & ?) _ _]; done).
  eapply slack_kept_agree; [|done|by eapply Hsla]. intros x Hx Hout. apply Hag. intros (p & n & Hp & Hr).
  destruct (live_in_slot w m L p n x Hinv Hp Hr) as (j & z & Hj & Hmz & Hu & Hin & He).
  destruct (decide (i = j)) as [->|Hne]; [by simplify_eq|].
  by apply (so_apart _ _ _ _ (ho_slots _ _ _ _ Hok) i j s z x Hi Hj Hne (mine_busy _ _ _ Hm ltac:(done)) (mine_busy _ _ _ Hmz ltac:(done)) Hx).
Qed.

(** With a quota the heap meets the contract. *)
Program Definition guard_spec : AllocatorSpec HF_DEFAULT_ALIGN (2 ^ 62) world (hf_allocator_vtable0 := IAllocator_vtable (IAllocator0 := quota_methods)) := {|
  alloc_inv := guard_inv
|}.
Next Obligation.
  intros w m L p n Hinv Hp. destruct (gi_to _ _ _ Hinv p n Hp) as (Hn & i & s & Hi & Hm & Hu & Hsz).
  pose proof (so_region _ _ _ _ (ho_slots _ _ _ _ (gi_heap _ _ _ Hinv)) i s Hi (mine_busy _ _ _ Hm ltac:(done))) as [_ _ (? & _ & ?) (_ & ? & ?) (? & ? & ?) _].
  cbn in *. split_and!; [lia|lia|lia|]. rewrite <- Hu. by eapply gi_align.
Qed.
Next Obligation.
  intros w m L p n q k Hinv Hp Hq Hne x Hx Hx'.
  destruct (live_in_slot w m L p n x Hinv Hp Hx) as (i & s & Hi & Hm & Hu & _ & He).
  destruct (live_in_slot w m L q k x Hinv Hq Hx') as (j & z & Hj & Hmz & Huz & _ & Hez).
  destruct (decide (i = j)) as [->|Hij]; [simplify_eq; congruence|].
  by apply (so_apart _ _ _ _ (ho_slots _ _ _ _ (gi_heap _ _ _ Hinv)) i j s z x Hi Hj Hij (mine_busy _ _ _ Hm ltac:(done)) (mine_busy _ _ _ Hmz ltac:(done)) He).
Qed.
Next Obligation.
  intros w m L size Hinv Hs. destruct (guard_inv_allocate w m L size Hinv Hs) as (w' & m' & p & E & H). exists w', m', p.
  split; [|done]. unfold hf_allocate. simpl. by rewrite E.
Qed.
Next Obligation.
  intros w m L p n Hinv Hp. destruct (guard_inv_deallocate w m L p n Hinv Hp) as (w' & m' & E & H). exists w', m'.
  split; [|done]. unfold hf_deallocate. simpl. by rewrite E.
Qed.
Next Obligation. intros w m m' L. apply guard_inv_write. Qed.
End spec.

(** ** The destructor *)

Lemma dtor_from_ok ps mmap mprotect munmap h n i s : kernel_ok ps mmap → slots_ok ps (closes mprotect) (slots s) (pages s) →
  let s' := dtor_from ps munmap h n i s in
  slots_ok ps (closes mprotect) (slots s') (pages s') ∧
  (∀ j sl, slots s !! j = Some sl → owner sl ≠ Some h → slots s' !! j = Some sl) ∧
  (∀ j sl, slots s' !! j = Some sl → (i ≤ j < i + n)%nat → owner sl ≠ Some h) ∧
  vm_maps (pages s') ⊆ vm_maps (pages s) ∧
  ((∀ a k, munmap a k = true) → ∀ j sl, slots s !! j = Some sl → (i ≤ j < i + n)%nat → owner sl = Some h →
     (base (region sl), total (region sl)) ∉ vm_maps (pages s')).
Proof.
  intros Hk. revert i s. induction n as [|n IH]; intros i s Hsl; cbn [dtor_from].
  { split_and!; try done; intros; lia. }
  destruct (slots s !! i) as [sl|] eqn:Hi.
  2: { apply lookup_ge_None in Hi. split_and!; try done; [intros j sl Hj%lookup_lt_Some ?; lia|intros _ j sl Hj%lookup_lt_Some ?; lia]. }
  destruct (negb (state (region sl) =? 0) && bool_decide (owner sl = Some h)) eqn:E.
  - apply andb_true_iff in E as [Hb Ho%bool_decide_eq_true]. fold (busy sl) in Hb.
    rewrite (alter_at _ _ _ _ Hi), (alter_at _ _ _ (set_state 0 sl)) by (by eapply list_lookup_insert_eq, lookup_lt_Some).
    cbn [slots set_slots set_pages]. rewrite list_insert_insert_eq.
    pose proof (so_region _ _ _ _ Hsl i sl Hi Hb) as [_ Hmap (Hb1 & _ & Hb2) (Hd & Hp0 & Ht) _ _]. cbn in Hmap, Hb1, Hb2, Hd, Hp0, Ht.
    pose proof (released_cases ps mmap munmap Hk (pages s) (base (region sl)) (total (region sl)) ltac:(lia) Hd) as Hrel.
    assert (slots_ok ps (closes mprotect) (<[i := set_owner None (set_state 0 sl)]> (slots s)) (released ps munmap (base (region sl)) (total (region sl)) (pages s))) as Hsl'
      by (eapply slots_ok_drop; done).
    set (s1 := set_slots _ _). destruct (IH (S i) s1 Hsl') as (H1 & H2 & H3 & H4 & H5).
    assert (vm_maps (pages s1) ⊆ vm_maps (pages s)) as Hsub.
    { cbn. destruct Hrel as [-> | ->]; [done|]. cbn. intros x Hx. by apply list_elem_of_filter in Hx as [_ ?]. }
    split_and!; try done.
    + intros j z Hj Hz. apply H2; [|done]. cbn. rewrite list_lookup_insert_ne; [done|]. intros ->. congruence.
    + intros j z Hj Hr. destruct (decide (j = i)) as [->|]; [|apply (H3 j z Hj); lia].
      rewrite (H2 i (set_owner None (set_state 0 sl))) in Hj by (done || by (cbn; eapply list_lookup_insert_eq, lookup_lt_Some)). by simplify_eq.
    + by etransitivity.
    + intros Hmun j z Hj Hr Hoz. destruct (decide (j = i)) as [->|Hne].
      * simplify_eq. intros Hin%H4. cbn in Hin. unfold released, vm_release in Hin.
        rewrite (proj2 (Z.eqb_neq _ NULL)), Hmun in Hin by lia. cbn in Hin. apply list_elem_of_filter in Hin as [Hin _]. apply Hin.
        destruct Hk as (Hps & _). rewrite align_up_eq, hf_align_up_page, round_up_id by (done || lia). done.
      * apply (H5 Hmun j z); [|lia|done]. cbn. by rewrite list_lookup_insert_ne.
  - destruct (IH (S i) s Hsl) as (H1 & H2 & H3 & H4 & H5).
    assert (owner sl ≠ Some h) as Hno.
    { intros Ho. rewrite Ho, bool_decide_true, andb_true_r in E by done. apply negb_false_iff, Z.eqb_eq in E.
      apply (so_free _ _ _ _ Hsl i sl Hi) in E. congruence. }
    split_and!; try done.
    + intros j z Hj Hr. destruct (decide (j = i)) as [->|]; [|apply (H3 j z Hj); lia]. rewrite (H2 i sl Hi Hno) in Hj. by simplify_eq.
    + intros Hmun j z Hj Hr Hoz. apply (H5 Hmun j z Hj); [|done]. destruct (decide (j = i)) as [->|]; [congruence|lia].
Qed.

(** A new heap in a process where no slot belongs to it yet. *)
Lemma ctor_env addr pol under cap s :
  slots (env (ctor addr pol under cap s)) = slots s ∧ pages (env (ctor addr pol under cap s)) = pages s ∧
  log (env (ctor addr pol under cap s)) = log s.
Proof. unfold ctor, install_handler. cbn. by destruct (once s). Qed.

Lemma none_mine addr k l : (∀ i sl, l !! i = Some sl → owner sl ≠ Some addr) → count_if (mine addr k) l = 0.
Proof.
  intros Hno. rewrite (count_if_const _ false); [done|]. intros sl Hin. apply list_elem_of_lookup_1 in Hin as [i Hi].
  unfold mine. by rewrite bool_decide_false by (by eapply Hno).
Qed.

Lemma ctor_heap_ok ps mprotect addr pol under cap s : slots_ok ps (closes mprotect) (slots s) (pages s) →
  (∀ i sl, slots s !! i = Some sl → owner sl ≠ Some addr) → 0 ≤ cap → heap_ok ps mprotect 0 (ctor addr pol under cap s).
Proof.
  intros Hsl Hno Hcap. destruct (ctor_env addr pol under cap s) as (Es & Ep & _).
  constructor; cbn [ctor self quarantine_ quarantine_cap_ this length]; rewrite ?Es, ?Ep;
    [done|done|apply NoDup_nil_2|by intros i ?%elem_of_nil|by apply none_mine|cbn; lia].
Qed.

(** ** Claims *)


(** C23. [allocate] of the C++ guard heap on every branch, for sizes up to
    2^62 and any alignment, on a heap in its invariant (so the handler has not
    continued from a fault). An alignment that is not a power of two or
    exceeds a page yields null and changes nothing; when the kernel refuses
    the mapping the call yields null and counts a failure; when all 4096 slots
    are taken it never returns, as it waits for the lock it holds; otherwise
    the block is fresh, aligned and accessible, starts right behind the front
    guard page (underflow mode) or ends less than the alignment before the
    back one, the handler tells the two guards apart, and the rest of the data
    pages holds the canary 0xFD. Each guard page is inaccessible exactly if
    the kernel granted the [mprotect] on it, whose result the code ignores. No
    page that was mapped before changes. *)
Theorem cpp_guard_allocate ps mmap mprotect munmap backtrace size a w m :
  kernel_ok ps mmap → mu_ (self w) = false → heap_ok ps mprotect 0 w → 0 ≤ size ≤ 2 ^ 62 → is_u64 a →
  let n := Z.max 1 size in let al := Z.max 16 a in
  let o := allocate ps mmap mprotect munmap backtrace size a w m in
  (¬ align_ok ps al ∧ o = Ok (NULL, w, m)) ∨
  (mmap (vm_maps (pages (env w))) (ps + round_up (round_up n al) ps + ps) = None ∧ o = Ok (NULL, refused w, m)) ∨
  ((∀ i s, slots (env w) !! i = Some s → busy s = true) ∧ o = OutOfFuel) ∨
  ∃ w' m' p front back, o = Ok (p, w', m') ∧ heap_ok ps mprotect 0 w' ∧ same_pages (pages (env w)) (pages (env w')) ∧
    (al | p) ∧ front + ps ≤ p ∧ p + n ≤ back ∧ (if underflow_ (self w) then p = front + ps else back < p + n + al) ∧
    (∀ x, range front (back + ps - front) x → mapped (pages (env w)) x = false) ∧
    (∀ x, range p n x → accessible (pages (env w')) x = true) ∧
    (∀ x, range front ps x → (accessible (pages (env w')) x = false ↔ mprotect front ps (vm_flags PNone) = true) ∧
       ∃ r, hit_from x (slots (env w')) = Some r ∧ user r = p ∧ kind ps r x = "堆下溢（写到前 guard 页）") ∧
    (∀ x, range back ps x → (accessible (pages (env w')) x = false ↔ mprotect back ps (vm_flags PNone) = true) ∧
       ∃ r, hit_from x (slots (env w')) = Some r ∧ user r = p ∧ kind ps r x = "堆上溢（写过块尾进入后 guard 页）") ∧
    ∀ x, if decide (range (front + ps) (back - front - ps) x) then ¬ range p n x → load8 m' x = 0xFD
         else load8 m' x = load8 m x.
Proof.
  intros Hk Hmu Hok Hs Ha n al o. destruct ((al_of a >? ps) || negb (is_pow2 (al_of a))) eqn:Et.
  { assert (¬ align_ok ps (al_of a)) as Hbad by (intros Hal%align_test; [congruence|unfold al_of; ulia]).
    left. split; [done|]. by apply allocate_rejects. }
  apply align_test in Et as Hal; [|unfold al_of; ulia]. right. pose proof (allocate_cases ps mmap mprotect munmap backtrace Hk size a w m Hmu (ho_slots _ _ _ _ Hok) Hs Hal) as H.
  cbv zeta in H. fold n al in H. change (al_of a) with al in *. fold o in H. unfold dp_of in H. set (dp := round_up (round_up n al) ps) in *.
  destruct (mmap (vm_maps (pages (env w))) (ps + dp + ps)) as [b|]; [right|by left]. destruct H as [Hfb H].
  pose proof (ho_slots _ _ _ _ Hok) as Hsl. destruct (free_slot_from 0 (slots (env w))) as [i|] eqn:Ei.
  2: { left. split; [|done]. intros i s Hi. apply busy_true. intros E0. apply (free_slot_None _ _ i s Ei Hi). split; [done|]. by apply (so_free _ _ _ _ Hsl i s Hi). }
  right. destruct H as (m' & Erun & Hout & Hin). pose proof Hfb as (Hb0 & Hbd & Hlim & Hf).
  apply free_slot_Some in Ei as (_ & s & Hi & Hs0 & _). rewrite Nat.sub_0_r in Hi.
  destruct (place_ok ps mmap Hk (underflow_ (self w)) b n al Hal ltac:(unfold al; lia) ltac:(unfold n; lia) Hb0 Hbd)
    as (Hd & Hnd & _ & Hp & Hu1 & Hu2 & Hu3 & Hu4). change (dp_of ps n al) with dp in *.
  set (u := place ps (underflow_ (self w)) b n al) in *. assert (0 < n) as Hn by (unfold n; lia).
  destruct (entered_ok ps mprotect backtrace w b dp i s u n Hok Hi Hs0 Hp Hd Hfb ltac:(lia) Hu1 Hu2) as (Hok' & _).
  set (w' := entered ps mprotect backtrace w b dp i u n) in *.
  set (sl := Slot (Reg 1 b (ps + dp + ps) u n (policy_ (self w)) (underflow_ (self w)) backtrace) (Some (this (self w)))).
  assert (slots (env w') !! i = Some sl) as Hsli by (by eapply list_lookup_insert_eq, lookup_lt_Some).
  assert (∀ x, range b (ps + dp + ps) x → hit_from x (slots (env w')) = Some (region sl)) as Hx.
  { intros x Hx. by eapply hit_from_in; [apply Hok'|exact Hsli|done|]. }
  exists w', m', u, b, (b + ps + dp). split; [done|]. split; [done|]. split; [apply vm_guarded_same; (done || lia)|].
  split; [done|]. split; [done|]. split; [done|]. split.
  { destruct (underflow_ (self w)) eqn:E; [unfold u, place; done|by apply Hu4]. }
  split. { intros x Hxr. destruct (mapped _ x) eqn:Em; [|done]. exfalso. eapply fresh_unmapped; [exact Hf|exact Em|]. unfold range in *. lia. }
  split. { intros x Hxr. cbn. apply accessible_data; unfold range in *; lia. }
  split; [|split].
  - intros x Hxr. rewrite (Hx x) by (unfold range in *; lia). split.
    { cbn. rewrite accessible_front by (done || lia). unfold closes. by destruct (mprotect b ps _). }
    exists (region sl). split; [done|]. split; [done|]. unfold kind. cbn. by rewrite (proj2 (Z.ltb_lt _ _)) by (unfold range in *; lia).
  - intros x Hxr. rewrite (Hx x) by (unfold range in *; lia). split.
    { cbn. rewrite accessible_back by (done || lia). unfold closes. by destruct (mprotect (b + ps + dp) ps _). }
    exists (region sl). split; [done|]. split; [done|]. unfold kind. cbn. rewrite (proj2 (Z.ltb_ge _ _)) by (unfold range in *; lia).
    by rewrite Z.geb_leb, (proj2 (Z.leb_le _ _)) by (unfold range in *; lia).
  - intros x. replace (b + ps + dp - b - ps) with dp by lia. destruct (decide _) as [Hr|Hr]; [by apply Hin|by apply Hout].
Qed.

(** C24. The verdict of the C++ guard heap on a free, on a heap in its
    invariant (so the handler has not continued from a fault) and for a
    pointer that is not null. The data pages of a live block of the heap are
    filled with 0xCD and it joins the quarantine as its newest block (the
    oldest leaves it when it is full), and a warning is logged exactly when a
    byte of its data pages around it was not 0xFD. If the quarantine can hold
    a block, the data pages of the freed block are then inaccessible exactly
    if the kernel granted the [mprotect] on them, whose result the code
    ignores, and its guard pages keep their access. Any other pointer, one of
    another heap included, is logged as an illegal free and otherwise changes
    nothing but the counter of calls. *)
Theorem cpp_guard_free ps mmap mprotect munmap w m p :
  kernel_ok ps mmap → mu_ (self w) = false → heap_ok ps mprotect 0 w → p ≠ NULL →
  (∃ i s w' m', slots (env w) !! i = Some s ∧ mine (this (self w)) 1 s = true ∧ user (region s) = p ∧
     deallocate ps mprotect munmap p w m = Ok ((), w', m') ∧ heap_ok ps mprotect 0 w' ∧ mu_ (self w') = false ∧
     (slack_kept ps m s → log (env w') = log (env w)) ∧
     (¬ slack_kept ps m s → log (env w') = log (env w) ++ [Bug "堆越界"; Dbg "修复完毕"]) ∧
     quarantine_ (self w') = (if Z.of_nat (length (quarantine_ (self w))) <? quarantine_cap_ (self w)
                              then quarantine_ (self w) ++ [i] else tail (quarantine_ (self w) ++ [i])) ∧
     (0 < quarantine_cap_ (self w) → ∀ x, extent s x →
        if decide (range (base (region s) + ps) (total (region s) - 2 * ps) x)
        then accessible (pages (env w')) x = false ↔ mprotect (base (region s) + ps) (total (region s) - 2 * ps) (vm_flags PNone) = true
        else accessible (pages (env w')) x = accessible (pages (env w)) x) ∧
     ∀ x, load8 m' x = if decide (range (base (region s) + ps) (total (region s) - 2 * ps) x) then 0xCD else load8 m x) ∨
  ((∀ i s, slots (env w) !! i = Some s → mine (this (self w)) 1 s = true → user (region s) ≠ p) ∧
   deallocate ps mprotect munmap p w m =
     Ok ((), World (set_stats (bump_free (stats_ (self w))) (self w)) (set_log (log (env w) ++ [Bug "非法释放"; Dbg "修复完毕"]) (env w)), m)).
Proof.
  intros Hk Hmu Hok Hp. destruct (owned_from (this (self w)) p 0 (slots (env w))) as [i|] eqn:E.
  - left. apply owned_Some in E as (_ & s & Hi & Ho & Hu & Hst). rewrite Nat.sub_0_r in Hi.
    assert (mine (this (self w)) 1 s = true) as Hm by (by apply mine_true).
    destruct (deallocate_live ps mmap mprotect munmap Hk w m i s Hmu Hok Hi Hm) as (intact & w' & Hint & Erun & Hok' & Hf).
    rewrite Hu in Erun. eexists i, s, w', _. split; [done|]. split; [done|]. split; [done|]. split; [exact Erun|]. split; [done|].
    split; [apply Hf|]. rewrite (ff_log _ _ _ _ _ Hf). split; [|split; [|split; [|split]]].
    + intros Hsk. rewrite (proj2 Hint Hsk). by rewrite app_nil_r.
    + intros Hsk. destruct intact; [by destruct Hsk; apply Hint|done].
    + apply Hf.
    + intros Hc x Hx. pose proof (ff_slot _ _ _ _ _ Hf Hc) as Hs'.
      apply (shut_freed ps (closes mprotect) (pages (env w)) (pages (env w')) s x); [|by apply (so_region _ _ _ _ (ho_slots _ _ _ _ Hok') i)|done|done].
      apply (so_region _ _ _ _ (ho_slots _ _ _ _ Hok) i s Hi). apply busy_true. lia.
    + intros x. by apply load8_fill.
  - right. assert (∀ i s, slots (env w) !! i = Some s → mine (this (self w)) 1 s = true → user (region s) ≠ p) as Hno.
    { intros i s Hi [Ho Hst]%mine_true Hu. by apply (owned_None _ _ _ _ i s E Hi). }
    split; [done|]. by apply deallocate_other.
Qed.

(** ** Programs on one heap *)

Inductive heap_op : Type :=
| Malloc (size a : Z)
| Free (ptr : Z).

Definition heap_op_ok (o : heap_op) : Prop :=
  match o with Malloc size a => 0 ≤ size ≤ 2 ^ 62 ∧ is_u64 a | Free _ => True end.
Definition is_free_op (o : heap_op) : bool := match o with Free _ => true | _ => false end.

Section programs.
Context (ps : Z) (mmap : list (Z * Z) → Z → option Z) (mprotect : Z → Z → Z → bool) (munmap : Z → Z → bool) (backtrace : Z).

(** The pointers the program gets. *)
Fixpoint run_ops (os : list heap_op) : meth world (list Z) :=
  match os with
  | [] => mret []
  | Malloc size a :: os => p ← allocate ps mmap mprotect munmap backtrace size a; ps ← run_ops os; mret (p :: ps)
  | Free ptr :: os => deallocate ps mprotect munmap ptr;; run_ops os
  end.

Context (Hk : kernel_ok ps mmap).

(** What one allocation leaves: the heap, and every slot in use. *)
Lemma allocate_keeps size a w m p w' m' : mu_ (self w) = false → heap_ok ps mprotect 0 w → 0 ≤ size ≤ 2 ^ 62 → is_u64 a →
  allocate ps mmap mprotect munmap backtrace size a w m = Ok (p, w', m') →
  mu_ (self w') = false ∧ heap_ok ps mprotect 0 w' ∧ quarantine_ (self w') = quarantine_ (self w) ∧
  quarantine_cap_ (self w') = quarantine_cap_ (self w) ∧
  (∀ j u, slots (env w) !! j = Some u → busy u = true → slots (env w') !! j = Some u) ∧
  (p ≠ NULL → mapped (pages (env w)) p = false).
Proof.
  intros Hmu Hok Hs Ha Erun. destruct ((al_of a >? ps) || negb (is_pow2 (al_of a))) eqn:Et.
  { rewrite allocate_rejects in Erun; [by simplify_eq|done|]. intros Hal%align_test; [congruence|unfold al_of; ulia]. }
  apply align_test in Et as Hal; [|unfold al_of; ulia].
  pose proof (allocate_cases ps mmap mprotect munmap backtrace Hk size a w m Hmu (ho_slots _ _ _ _ Hok) Hs Hal) as H. cbv zeta in H.
  set (n := Z.max 1 size) in *. set (al := al_of a) in *. set (dp := dp_of ps n al) in *.
  destruct (mmap _ (ps + dp + ps)) as [b|].
  2: { rewrite Erun in H. simplify_eq. split; [done|]. split; [|done]. by destruct Hok. }
  destruct H as [Hfb H]. destruct (free_slot_from 0 (slots (env w))) as [i|] eqn:Ei; [|congruence].
  destruct H as (m1 & E & _ & _). rewrite Erun in E. injection E as -> -> ->.
  pose proof Hfb as (Hb0 & Hbd & Hlim & Hf). apply free_slot_Some in Ei as (_ & s & Hi & Hs0 & _). rewrite Nat.sub_0_r in Hi.
  destruct (place_ok ps mmap Hk (underflow_ (self w)) b n al Hal ltac:(unfold al, al_of; lia) ltac:(unfold n; lia) Hb0 Hbd)
    as (Hd & Hnd & _ & Hp & Hu1 & Hu2 & _ & _). fold dp in Hd, Hnd, Hu1, Hu2.
  destruct (entered_ok ps mprotect backtrace w b dp i s _ n Hok Hi Hs0 Hp Hd Hfb ltac:(unfold n in *; lia) Hu1 Hu2) as (Hok' & _).
  split; [done|]. split; [done|]. split; [done|]. split; [done|]. split.
  - intros j z Hj Hz. cbn. rewrite list_lookup_insert_ne; [done|]. intros ->. simplify_eq. apply busy_true in Hz. lia.
  - intros _. destruct (mapped _ _) eqn:Em; [|done]. exfalso. eapply fresh_unmapped; [exact Hf|exact Em|]. unfold range, n in *. lia.
Qed.

(** While fewer blocks are freed than the quarantine holds, one that is in it
    stays. *)
Lemma run_ops_keeps os w m rs w' m' i s pre post : mu_ (self w) = false → heap_ok ps mprotect 0 w → Forall heap_op_ok os →
  run_ops os w m = Ok (rs, w', m') → slots (env w) !! i = Some s → mine (this (self w)) 2 s = true →
  quarantine_ (self w) = pre ++ i :: post → Z.of_nat (length post) + count_if is_free_op os < quarantine_cap_ (self w) →
  heap_ok ps mprotect 0 w' ∧ slots (env w') !! i = Some s ∧ ∀ p, p ∈ rs → p ≠ NULL → ¬ extent s p.
Proof.
  intros Hmu Hok Hos. revert w m rs pre post Hmu Hok. induction Hos as [|o os Ho _ IH]; intros w m rs pre post Hmu Hok Hrun Hi Hm Hq Hlt.
  { cbn in Hrun. injection Hrun as <- <- <-. split; [done|]. split; [done|]. by intros p ?%elem_of_nil. }
  pose proof (count_if_bounds is_free_op os). destruct o as [size a|ptr]; cbn [run_ops] in Hrun; revert Hrun; run_meth.
  - destruct Ho as [Hs Ha]. destruct (allocate _ _ _ _ _ size a w m) as [[[p w1] m1]| | |] eqn:Ea; try done.
    destruct (allocate_keeps size a w m p w1 m1 Hmu Hok Hs Ha Ea) as (Hmu1 & Hok1 & Hq1 & Hc1 & Hk1 & Hp).
    destruct (run_ops os w1 m1) as [[[rs1 w2] m2]| | |] eqn:Er; try done. intros [= <- <- <-].
    assert (mine (this (self w1)) 2 s = true) as Hm1.
    { destruct (ho_quar _ _ _ _ Hok1 i ltac:(rewrite Hq1, Hq, elem_of_app, elem_of_cons; auto)) as (s' & Hs' & Hms').
      rewrite (Hk1 i s Hi (mine_busy _ _ _ Hm ltac:(done))) in Hs'. by simplify_eq. }
    destruct (IH w1 m1 rs1 pre post Hmu1 Hok1 Er) as (H1 & H2 & H3).
    + apply Hk1; [done|by eapply mine_busy].
    + done.
    + by rewrite Hq1.
    + rewrite Hc1. cbn [count_if is_free_op] in Hlt. lia.
    + split; [done|]. split; [done|]. intros q Hin Hne. apply elem_of_cons in Hin as [->|Hin]; [|by apply H3].
      intros Hx. specialize (Hp Hne). rewrite (slot_mapped _ _ _ _ i s p (ho_slots _ _ _ _ Hok) Hi (mine_busy _ _ _ Hm ltac:(done)) Hx) in Hp. done.
  - destruct (deallocate _ _ _ ptr w m) as [[[[] w1] m1]| | |] eqn:Ed; try done. intros Hrun. cbn [count_if is_free_op] in Hlt.
    destruct (decide (ptr = NULL)) as [->|Hne].
    { cbn in Ed. injection Ed as <- <-. by apply (IH w m rs pre post); try done; lia. }
    destruct (owned_from (this (self w)) ptr 0 (slots (env w))) as [j|] eqn:Ej.
    + apply owned_Some in Ej as (_ & u & Hj & Hou & Hus & Hst). rewrite Nat.sub_0_r in Hj.
      destruct (deallocate_live ps mmap mprotect munmap Hk w m j u Hmu Hok Hj ltac:(by apply mine_true)) as (intact & w1' & _ & E & Hok1 & Hf).
      rewrite Hus, Ed in E. injection E as <- _. pose proof (ho_len _ _ _ _ Hok) as Hlen. rewrite Hq, length_app in Hlen. cbn in Hlen.
      assert (∃ pre', quarantine_ (self w1) = pre' ++ i :: (post ++ [j])) as [pre' Hq1].
      { rewrite (ff_queue _ _ _ _ _ Hf), Hq. destruct (Z.ltb_spec (Z.of_nat (length (pre ++ i :: post))) (quarantine_cap_ (self w))) as [|Hge].
        - exists pre. by rewrite <- app_assoc.
        - rewrite length_app in Hge. cbn in Hge. destruct pre as [|x pre]; [cbn in *; lia|]. exists pre. cbn. by rewrite <- app_assoc. }
      assert (slots (env w1) !! i = Some s) as Hi1.
      { apply (ff_queued _ _ _ _ _ Hf); [done| |rewrite Hq1, elem_of_app, elem_of_cons; auto]. intros ->. simplify_eq. apply mine_true in Hm as [_ ?]. lia. }
      apply (IH w1 m1 rs pre' (post ++ [j])); try done; [apply Hf|by rewrite (ff_this _ _ _ _ _ Hf)|].
      rewrite (ff_cap _ _ _ _ _ Hf), length_app. cbn. lia.
    + rewrite deallocate_other in Ed; [|done|done|].
      2: { intros j u Hj [Hou Hst]%mine_true Hus. by apply (owned_None _ _ _ _ j u Ej Hj). }
      injection Ed as <- <-. refine (IH _ m rs pre post _ _ Hrun _ _ _ _); try done; [by destruct Hok|cbn; lia].
Qed.
End programs.

(** Use after free under the C++ guard heap.  After a live block is freed,
    as long as fewer further frees are made than the quarantine holds, whatever
    else the program allocates, the handler reports every access to the block's
    mapping as a use after free of that block, no pointer handed out meanwhile
    lies in it, and its data pages are closed if the kernel granted it. *)
Theorem cpp_guard_quarantine ps mmap mprotect munmap backtrace w m i s w1 m1 os rs w2 m2 :
  kernel_ok ps mmap → mu_ (self w) = false → heap_ok ps mprotect 0 w → slots (env w) !! i = Some s → mine (this (self w)) 1 s = true →
  deallocate ps mprotect munmap (user (region s)) w m = Ok ((), w1, m1) → Forall heap_op_ok os →
  count_if is_free_op os < quarantine_cap_ (self w) → run_ops ps mmap mprotect munmap backtrace os w1 m1 = Ok (rs, w2, m2) →
  ∀ x, extent s x →
    (mprotect (base (region s) + ps) (total (region s) - 2 * ps) (vm_flags PNone) = true →
     range (base (region s) + ps) (total (region s) - 2 * ps) x → accessible (pages (env w2)) x = false) ∧ (x ∈ rs → x = NULL) ∧
    ∃ r, hit_from x (slots (env w2)) = Some r ∧ user r = user (region s) ∧ kind ps r x = "use-after-free（已释放块被访问）".
Proof.
  intros Hk Hmu Hok Hi Hm Ed Hos Hlt Hrun x Hx. pose proof (count_if_bounds is_free_op os).
  destruct (deallocate_live ps mmap mprotect munmap Hk w m i s Hmu Hok Hi Hm) as (intact & w1' & _ & E & Hok1 & Hf).
  rewrite Ed in E. injection E as <- _. pose proof (ff_slot _ _ _ _ _ Hf ltac:(lia)) as Hi1. pose proof Hm as [Ho Hst]%mine_true.
  assert (∃ pre, quarantine_ (self w1) = pre ++ i :: []) as [pre Hq].
  { rewrite (ff_queue _ _ _ _ _ Hf). destruct (Z.ltb_spec (Z.of_nat (length (quarantine_ (self w)))) (quarantine_cap_ (self w))); [by eexists|].
    destruct (quarantine_ (self w)) as [|y q]; [cbn in *; lia|]. by exists q. }
  destruct (run_ops_keeps ps mmap mprotect munmap backtrace Hk os w1 m1 rs w2 m2 i (set_state 2 s) pre []) as (Hok2 & Hi2 & Hp); try done.
  { apply Hf. }
  { rewrite (ff_this _ _ _ _ _ Hf). by apply mine_true. }
  { rewrite (ff_cap _ _ _ _ _ Hf). cbn. lia. }
  split_and!.
  - intros Hg Hd. rewrite (ro_guarded _ _ _ _ (so_region _ _ _ _ (ho_slots _ _ _ _ Hok2) i _ Hi2 eq_refl) x Hx). fold (closes mprotect (base (region s) + ps) (total (region s) - 2 * ps)) in Hg.
    unfold shut. cbn -[closes]. by rewrite Hg, (proj2 (covers_true _ _ _) Hd), orb_true_r.
  - intros Hin. destruct (decide (x = NULL)) as [|Hne]; [done|]. by destruct (Hp x Hin Hne).
  - exists (region (set_state 2 s)). split; [|done]. eapply hit_from_in; [apply Hok2|exact Hi2|done|done].
Qed.


(** The Windows handler counts the same faults and opens the same pages as the
    POSIX one; it leaves the dispositions alone. *)
Lemma on_veh_same ps mprotect sig addr frames s :
  let '(s1, _) := on_fault ps mprotect sig addr frames s in
  let '(s2, res) := on_veh ps mprotect true addr s in
  violation_count s2 = violation_count s1 ∧ pages s2 = pages s1 ∧
  (res = EXCEPTION_CONTINUE_EXECUTION ↔ ∃ r, hit_from addr (slots s) = Some r ∧ policy r = PContinue).
Proof.
  unfold on_fault, on_veh. cbn [negb]. destruct (hit_from addr (slots s)) as [r|]; [|destruct sig; naive_solver].
  destruct (bool_decide (policy r = PContinue)) eqn:E.
  - apply bool_decide_eq_true in E. destruct sig; naive_solver.
  - apply bool_decide_eq_false in E. destruct sig; naive_solver.
Qed.

(** [mu_] is a member, so two heaps do not exclude each other: if both pick the
    same free slot before either has filled it, the second one's stores replace
    the first one's, whose block is then in no slot. *)
Lemma slot_race backtrace h h' b tot u n b' tot' u' n' (l : list slot) (i : nat) s : l !! i = Some s →
  let first := foldl (λ s f, f s) s (publish backtrace h b tot u n) in
  <[i := foldl (λ s f, f s) first (publish backtrace h' b' tot' u' n')]> (<[i := first]> l) =
  <[i := Slot (Reg 1 b' tot' u' n' (policy_ h') (underflow_ h') backtrace) (Some (this h'))]> l.
Proof. intros Hi first. by rewrite list_insert_insert_eq. Qed.

(** ** A process with one guard heap *)

Definition ex_yes2 (a b : Z) : bool := true.
Definition ex_yes3 (a b c : Z) : bool := true.

Lemma ex_kernel_cpp : kernel_ok 4096 ex_mmaps.
Proof. split; [apply page_4096_ok|]. split; [apply ex_mmaps_fresh|apply ex_mmaps_low]. Qed.

Definition ex_statics : statics := statics_init (Vm [] []) DDefault (DOther 3).

Lemma ex_statics_slot i sl : slots ex_statics !! i = Some sl → sl = Slot region_init None.
Proof. cbn [ex_statics statics_init slots]. rewrite lookup_replicate. by intros [-> _]. Qed.

Lemma ex_statics_ok : slots_ok 4096 (closes ex_yes3) (slots ex_statics) (pages ex_statics).
Proof.
  constructor.
  - apply length_replicate.
  - intros i sl ->%ex_statics_slot. done.
  - intros i sl ->%ex_statics_slot. done.
  - intros i j sl u x ->%ex_statics_slot. done.
Qed.

Lemma ex_statics_free i sl : slots ex_statics !! i = Some sl → owner sl ≠ Some 7%nat.
Proof. by intros ->%ex_statics_slot. Qed.

(** Heap 7 keeps two freed blocks and continues after a fault. *)
Definition ex_guard : world := ctor 7 PContinue false 2 ex_statics.

Lemma ex_guard_ok : heap_ok 4096 ex_yes3 0 ex_guard.
Proof. apply ctor_heap_ok; [apply ex_statics_ok|apply ex_statics_free|lia]. Qed.

(** The state a call ends in, where it returns. *)
Definition state_after {A : Type} (o : outcome (A * world * mem)) : world * mem :=
  match o with Ok (_, w, m) => (w, m) | _ => (ex_guard, ∅) end.
Definition value_of {A : Type} (d : A) (o : outcome (A * world * mem)) : A :=
  match o with Ok (x, _, _) => x | _ => d end.

Definition returns {A : Type} (o : outcome A) : bool := match o with Ok _ => true | _ => false end.

Lemma returns_ok {A : Type} (d : A) (o : outcome (A * world * mem)) : returns o = true →
  o = Ok (value_of d o, (state_after o).1, (state_after o).2).
Proof. by destruct o as [[[x w] m]| | |]. Qed.

#[local] Opaque allocate deallocate run_ops.

Lemma returns_unit (o : outcome (unit * world * mem)) : returns o = true → o = Ok ((), (state_after o).1, (state_after o).2).
Proof. by destruct o as [[[[] w] m]| | |]. Qed.

(** It after a block of 100 bytes was allocated at the end of its page. *)
Abbreviation ex_guard1 := (state_after (allocate 4096 ex_mmaps ex_yes3 ex_yes2 5 100 16 ex_guard ∅)).
Definition ex_block : Z := 2 ^ 20 + 8192 - 112.

Lemma ex_guard1_run : allocate 4096 ex_mmaps ex_yes3 ex_yes2 5 100 16 ex_guard ∅ = Ok (ex_block, ex_guard1.1, ex_guard1.2).
Proof.
  assert (value_of NULL (allocate 4096 ex_mmaps ex_yes3 ex_yes2 5 100 16 ex_guard ∅) = ex_block) as <- by (vm_compute; reflexivity).
  apply returns_ok. vm_compute. reflexivity.
Qed.

Lemma ex_guard1_ok : mu_ (self ex_guard1.1) = false ∧ heap_ok 4096 ex_yes3 0 ex_guard1.1.
Proof.
  destruct (allocate_keeps 4096 ex_mmaps ex_yes3 ex_yes2 5 ex_kernel_cpp 100 16 ex_guard ∅ _ _ _ eq_refl ex_guard_ok ltac:(lia) ltac:(ulia) ex_guard1_run)
    as (H1 & H2 & _). exact (conj H1 H2).
Qed.

Definition ex_slot : slot := Slot (Reg 1 (2 ^ 20) 12288 ex_block 100 PContinue false 5) (Some 7%nat).

Lemma ex_slot_at : slots (env ex_guard1.1) !! 0%nat = Some ex_slot.
Proof. vm_compute. reflexivity. Qed.

(** A kernel that refuses every [mprotect]. *)
Definition ex_no3 (a b c : Z) : bool := false.

(** The heap does not notice that its guards are missing: with such a kernel an
    allocation of 100 bytes succeeds, and both pages next to its data page are
    accessible. *)
Theorem cpp_guards_refused :
  match allocate 4096 ex_mmaps ex_no3 ex_yes2 5 100 16 ex_guard ∅ with
  | Ok (p, w, _) => p = ex_block ∧ accessible (pages (env w)) (2 ^ 20) = true ∧ accessible (pages (env w)) (2 ^ 20 + 8192) = true
  | _ => False
  end.
Proof. vm_compute. split; [reflexivity|]. split; reflexivity. Qed.


(** Witness of C23: the block of 100 bytes. *)
Lemma cpp_guard_allocate_witness : ∃ w' m' p,
  allocate 4096 ex_mmaps ex_yes3 ex_yes2 5 100 16 ex_guard ∅ = Ok (p, w', m') ∧ heap_ok 4096 ex_yes3 0 w' ∧ (16 | p).
Proof.
  destruct (cpp_guard_allocate 4096 ex_mmaps ex_yes3 ex_yes2 5 100 16 ex_guard ∅ ex_kernel_cpp eq_refl ex_guard_ok ltac:(lia) ltac:(ulia))
    as [[Hbad _]|[[Hno _]|[[Hfull _]|(w' & m' & p & front & back & E & Hok & _ & Hal & _)]]].
  - destruct Hbad. exists 4. split; [lia|]. split; [reflexivity|]. lia.
  - vm_compute in Hno. discriminate Hno.
  - assert (slots (env ex_guard) !! 0%nat = Some (Slot region_init None)) as Hi by (vm_compute; reflexivity).
    specialize (Hfull 0%nat _ Hi). discriminate Hfull.
  - exists w', m', p. split; [exact E|]. split; [exact Hok|exact Hal].
Defined.

(** Witness of C24: the block is freed. *)
Lemma cpp_guard_free_witness : ∃ w' m',
  deallocate 4096 ex_yes3 ex_yes2 ex_block ex_guard1.1 ex_guard1.2 = Ok ((), w', m') ∧ quarantine_ (self w') = [0%nat] ∧ load8 m' ex_block = kPoison.
Proof.
  destruct ex_guard1_ok as [Hmu Hok].
  destruct (cpp_guard_free 4096 ex_mmaps ex_yes3 ex_yes2 ex_guard1.1 ex_guard1.2 ex_block ex_kernel_cpp Hmu Hok ltac:(unfold ex_block; lia))
    as [(i & s & w' & m' & Hi & Hm & Hu & E & _ & _ & _ & _ & Hq & _ & Hld)|[Hno _]].
  - assert (i = 0%nat) as ->.
    { apply (slots_user_inj 4096 (closes ex_yes3) _ _ i 0%nat s ex_slot (ho_slots _ _ _ _ Hok) Hi ex_slot_at (mine_busy _ _ _ Hm ltac:(done)) eq_refl). exact Hu. }
    rewrite ex_slot_at in Hi. injection Hi as <-. exists w', m'. split; [exact E|]. split; [rewrite Hq; vm_compute; reflexivity|].
    rewrite Hld, decide_True; [reflexivity|]. cbn [region ex_slot base total]. unfold range, ex_block. lia.
  - destruct (Hno 0%nat ex_slot ex_slot_at); vm_compute; reflexivity.
Defined.

(** The heap after the free and one more allocation. *)
Abbreviation ex_guard2 := (state_after (deallocate 4096 ex_yes3 ex_yes2 ex_block ex_guard1.1 ex_guard1.2)).
Abbreviation ex_guard3 := (run_ops 4096 ex_mmaps ex_yes3 ex_yes2 5 [Malloc 10 64; Free 12345] ex_guard2.1 ex_guard2.2).

(** The freed block after an allocation and an illegal free. *)
Lemma cpp_guard_quarantine_witness :
  accessible (pages (env (state_after ex_guard3).1)) ex_block = false ∧ ∃ r, hit_from ex_block (slots (env (state_after ex_guard3).1)) = Some r ∧ user r = ex_block.
Proof.
  destruct ex_guard1_ok as [Hmu Hok].
  destruct (cpp_guard_quarantine 4096 ex_mmaps ex_yes3 ex_yes2 5 ex_guard1.1 ex_guard1.2 0 ex_slot ex_guard2.1 ex_guard2.2
    [Malloc 10 64; Free 12345] (value_of [] ex_guard3) (state_after ex_guard3).1 (state_after ex_guard3).2) with (x := ex_block) as (Ha & _ & r & Hh & Hu & _).
  - apply ex_kernel_cpp.
  - exact Hmu.
  - exact Hok.
  - exact ex_slot_at.
  - vm_compute. reflexivity.
  - change (user (region ex_slot)) with ex_block. apply returns_unit. vm_compute. reflexivity.
  - repeat constructor; simpl; lia.
  - vm_compute. reflexivity.
  - apply (returns_ok [] ex_guard3). vm_compute. reflexivity.
  - cbn. unfold extent, range, ex_block. cbn. lia.
  - split; [apply Ha; [reflexivity|unfold range, ex_block; cbn; lia]|]. exists r. split; [exact Hh|exact Hu].
Defined.

