(* ===== verification/CppPool.v ===== *)
(** * The C++ persistent pool ([include/heapforge/persistent_pool.h]): the code

    The file has a header page with two checksummed meta slots, a page of
    32-byte log records, a bitmap and the data.  As for the C pool
    ([PersistentPool]) the memory is the mapped file, indexed by offsets, and
    every operation emits its stores and syncs.  The class differs from the C
    code in the layout, in choosing the meta slot by a generation count, in
    replaying every valid record beyond the watermark in order of its number
    instead of a window of numbers, in doing so only after an unclean shutdown,
    and in never checking what [msync] answers while it commits. *)

From Stdlib Require Import String.
From stdpp Require Import sorting.
From S2P Require Import Prelude Memory Platform PersistentPool Cpp.

Module PersistentPoolCpp.

Inductive Durability : Type := Fast | Full.

Definition kMagic : Z := 0x484650502e763032.
Definition kVersion : Z := 2.

(** [WalOp]. *)
Definition op_Alloc : Z := 1.
Definition op_Free : Z := 2.

(** Offsets of the members of [FileHeader]; [slot i] is [slots[i]]. *)
Definition off_magic : Z := 0.
Definition off_version : Z := 8.
Definition off_block_size : Z := 12.
Definition off_block_count : Z := 16.
Definition off_bitmap_bytes : Z := 24.
Definition off_clean : Z := 32.
Definition slot (i : Z) : Z := 40 + 24 * i.
Definition sizeof_FileHeader : Z := 88.
Definition sizeof_WalRecord : Z := 32.

(** The members but the pointers into the mapping, which are offsets; [data_]
    is fixed by the constructor; the log. *)
Record t : Type := Make {
  base_ : Z;
  map_size_ : Z;
  wal_capacity_ : Z;
  data_ : Z;
  next_seq_ : Z;
  durability_ : Durability;
  ok_ : bool;
  recovered_dirty_ : bool;
  fd_ : bool;
  log : list note
}.

Definition set_next_seq (x : Z) (p : t) : t :=
  Make (base_ p) (map_size_ p) (wal_capacity_ p) (data_ p) x (durability_ p) (ok_ p) (recovered_dirty_ p) (fd_ p) (log p).
Definition say (l : list note) (p : t) : t :=
  Make (base_ p) (map_size_ p) (wal_capacity_ p) (data_ p) (next_seq_ p) (durability_ p) (ok_ p) (recovered_dirty_ p) (fd_ p) (log p ++ l).
Definition set_durability (d : Durability) (p : t) : t :=
  Make (base_ p) (map_size_ p) (wal_capacity_ p) (data_ p) (next_seq_ p) d (ok_ p) (recovered_dirty_ p) (fd_ p) (log p).
Definition set_data (x : Z) (p : t) : t :=
  Make (base_ p) (map_size_ p) (wal_capacity_ p) x (next_seq_ p) (durability_ p) (ok_ p) (recovered_dirty_ p) (fd_ p) (log p).
Definition set_ok (b : bool) (p : t) : t :=
  Make (base_ p) (map_size_ p) (wal_capacity_ p) (data_ p) (next_seq_ p) (durability_ p) b (recovered_dirty_ p) (fd_ p) (log p).
Definition set_dirty (b : bool) (p : t) : t :=
  Make (base_ p) (map_size_ p) (wal_capacity_ p) (data_ p) (next_seq_ p) (durability_ p) (ok_ p) b (fd_ p) (log p).
Definition set_map (b n cap : Z) (p : t) : t :=
  Make b n cap (data_ p) (next_seq_ p) (durability_ p) (ok_ p) (recovered_dirty_ p) (fd_ p) (log p).
Definition set_base (b : Z) (p : t) : t :=
  Make b (map_size_ p) (wal_capacity_ p) (data_ p) (next_seq_ p) (durability_ p) (ok_ p) (recovered_dirty_ p) (fd_ p) (log p).
Definition open_fd (p : t) : t :=
  Make (base_ p) (map_size_ p) (wal_capacity_ p) (data_ p) (next_seq_ p) (durability_ p) (ok_ p) (recovered_dirty_ p) true (log p).
Definition close_fd (p : t) : t :=
  Make (base_ p) (map_size_ p) (wal_capacity_ p) (data_ p) (next_seq_ p) (durability_ p) (ok_ p) (recovered_dirty_ p) false (log p).

(** ** Checksums *)

Definition fnv1a (bs : list Z) : Z :=
  foldl (λ h b, Z.lxor h b *% 1099511628211) 1469598103934665603 bs.

Definition rec_crc (seq op index : Z) : Z :=
  fnv1a (le_bytes 8 seq ++ le_bytes 8 (Z.lor (Z.shiftl op 32) index)).
Definition slot_crc (applied_seq generation : Z) : Z :=
  fnv1a (le_bytes 8 applied_seq ++ le_bytes 8 generation).

(** The bytes of [make_slot(seq, gen)]. *)
Definition make_slot (seq gen : Z) : list Z := le_bytes 8 seq ++ le_bytes 8 gen ++ le_bytes 8 (slot_crc seq gen).

(** Members of a [MetaSlot] and of a [WalRecord] at offset [a]. *)
Definition s_seq (m : mem) (a : Z) : Z := load64 m a.
Definition s_gen (m : mem) (a : Z) : Z := load64 m (a + 8).
Definition s_crc (m : mem) (a : Z) : Z := load64 m (a + 16).
Definition r_seq (m : mem) (a : Z) : Z := load64 m a.
Definition r_op (m : mem) (a : Z) : Z := load32 m (a + 8).
Definition r_index (m : mem) (a : Z) : Z := load32 m (a + 12).
Definition r_crc (m : mem) (a : Z) : Z := load64 m (a + 16).

Section ops.
(** The page size, and whether [msync] succeeds. *)
Context (ps : Z) (msync : Z → Z → bool).

Definition wal_ : Z := ps.
Definition bitmap_ : Z := ps + ps.

(** ** Sync primitives *)

Definition sync_range (w : world) (addr len : Z) : world * bool :=
  let page := Z.land addr (not64 (ps -% 1)) in
  let span := align_up (addr - page + len) ps in
  if msync page span then (emit w (EvSync page span), true) else (w, false).

Definition full_sync (w : world) : world := emit w EvFsync.

(** [if (durability_ == Durability::Full) full_sync();] *)
Definition if_full (p : t) (w : world) : world :=
  match durability_ p with Full => full_sync w | Fast => w end.

(** ** The three-step commit *)

Definition bit_test (m : mem) (i : Z) : bool :=
  negb (Z.land (load8 m (bitmap_ + i / 8)) (Z.shiftl 1 (i mod 8)) =? 0).

Definition rec_at (p : t) (seq : Z) : Z := wal_ + seq mod wal_capacity_ p * sizeof_WalRecord.

Definition wal_append (p : t) (w : world) (seq op index : Z) : world :=
  let rec := rec_at p seq in
  let w := put w rec (le_bytes 8 seq) in
  let w := put w (rec + 8) (le_bytes 4 op) in
  let w := put w (rec + 12) (le_bytes 4 index) in
  let w := put w (rec + 16) (le_bytes 8 (rec_crc seq op index)) in
  let w := put w (rec + 24) (le_bytes 8 0) in
  let w := (sync_range w rec sizeof_WalRecord).1 in
  if_full p w.

Definition apply (w : world) (op index : Z) : world :=
  let a := bitmap_ + index / 8 in
  if op =? op_Alloc
  then put w a [Z.lor (load8 (w_file w) a) (wrap8 (Z.shiftl 1 (index mod 8)))]
  else put w a [Z.land (load8 (w_file w) a) (wrap8 (Z.lnot (Z.shiftl 1 (index mod 8))))].

Definition next_gen (m : mem) : Z := Z.max (s_gen m (slot 0)) (s_gen m (slot 1)) +% 1.

Definition meta_commit (p : t) (w : world) (seq : Z) : world :=
  let gen := next_gen (w_file w) in
  let w := put w (slot (gen mod 2)) (make_slot seq gen) in
  let w := (sync_range w 0 sizeof_FileHeader).1 in
  if_full p w.

Definition commit (p : t) (w : world) (op index : Z) : t * world :=
  let seq := next_seq_ p in
  let p := set_next_seq (next_seq_ p +% 1) p in
  let w := wal_append p w seq op (wrap32 index) in
  let w := apply w op index in
  let w := (sync_range w (bitmap_ + index / 8) 1).1 in
  (p, meta_commit p w seq).

(** ** Recovery *)

(** The loop over the two slots, with [best_seq] and [best_gen]. *)
Definition load_applied_seq (m : mem) : Z :=
  (foldl (λ best a,
      if s_gen m a =? 0 then best else
      if negb (slot_crc (s_seq m a) (s_gen m a) =? s_crc m a) then best else
      if s_gen m a >? best.2 then (s_seq m a, s_gen m a) else best)
    (0, 0) [slot 0; slot 1]).1.

(** A log record. *)
Record record : Type := Rec {
  rc_seq : Z;
  rc_op : Z;
  rc_index : Z
}.

(** The record at [a], if it is pending. *)
Definition pending_at (m : mem) (applied a : Z) : option record :=
  if (r_seq m a =? 0) || (r_seq m a <=? applied) then None else
  if negb (r_crc m a =? rec_crc (r_seq m a) (r_op m a) (r_index m a)) then None else
  if r_index m a >=? load64 m off_block_count then None else
  Some (Rec (r_seq m a) (r_op m a) (r_index m a)).

Definition pending (p : t) (m : mem) (applied : Z) : list record :=
  omap (λ i, pending_at m applied (wal_ + i * sizeof_WalRecord)) (seqZ 0 (wal_capacity_ p)).

(** [std::sort] by number; records with equal numbers, which no run of the
    pool writes, keep their order. *)
Definition by_seq (a b : record) : Prop := rc_seq a ≤ rc_seq b.
#[export] Instance by_seq_dec : RelDecision by_seq.
Proof. intros a b. unfold by_seq. apply _. Defined.

(** [recover]; the number of records is the size of [pending]. *)
Definition recover (p : t) (w : world) (applied : Z) : t * world * nat :=
  let todo := merge_sort by_seq (pending p (w_file w) applied) in
  let '(w, max_seq) := foldl (λ wm r, (apply wm.1 (rc_op r) (rc_index r), rc_seq r)) (w, applied) todo in
  match todo with
  | [] => (p, w, 0%nat)
  | _ =>
      let w := (sync_range w bitmap_ (load64 (w_file w) off_bitmap_bytes)).1 in
      let w := meta_commit p w max_seq in
      (set_next_seq (max_seq +% 1) p, w, length todo)
  end.

(** ** Opening and closing *)

(** The header of a new file. *)
Definition init (w : world) (map_size block_size block_count bitmap_bytes : Z) : world :=
  let w := put w 0 (replicate (Z.to_nat map_size) 0) in
  let w := put w off_magic (le_bytes 8 kMagic) in
  let w := put w off_version (le_bytes 4 kVersion) in
  let w := put w off_block_size (le_bytes 4 (wrap32 block_size)) in
  let w := put w off_block_count (le_bytes 8 block_count) in
  let w := put w off_bitmap_bytes (le_bytes 8 bitmap_bytes) in
  let w := put w off_clean (le_bytes 8 0) in
  let w := put w (slot 0) (make_slot 0 1) in
  let w := put w (slot 1) (replicate 24 0) in
  let w := (sync_range w 0 sizeof_FileHeader).1 in
  full_sync w.

(** The part of the constructor after the header was written or checked:
    recovery, and the mark that the pool is in use. *)
Definition attach (p : t) (w : world) : t * world :=
  let p := set_data (bitmap_ +% load64 (w_file w) off_bitmap_bytes) p in
  let applied := load_applied_seq (w_file w) in
  let p := set_next_seq (applied +% 1) p in
  let '(p, w) :=
    if recovered_dirty_ p then
      let p := say [Bug "崩溃恢复"] p in
      let '(p, w, replayed) := recover p w applied in
      (say [Dbg "修复完毕"] p, w)
    else (p, w) in
  let w := put w off_clean (le_bytes 8 0) in
  let w := (sync_range w 0 sizeof_FileHeader).1 in
  (set_ok true p, w).

(** What the system answers: [open] succeeds, the size of the file, whether
    [ftruncate] succeeds, where [mmap] maps the file. *)
Record open_env : Type := OpenEnv {
  fd_ok : bool;
  st_size : Z;
  trunc_ok : bool;
  map_at : option Z
}.

(** The constructor; the last part of the result is the length of the file
    afterwards, which [ftruncate] may have changed. *)
Definition ctor (env : open_env) (w : world) (block_size block_count : Z) (durability : Durability) : t * world * Z :=
  let p := Make NULL 0 0 NULL 1 durability false false false [] in
  if negb (fd_ok env) then (p, w, st_size env) else
  let p := open_fd p in
  let fresh := st_size env =? 0 in
  let bitmap_bytes := align_up ((block_count +% 7) / 8) ps in
  let want := ps +% ps +% bitmap_bytes +% block_size *% block_count in
  let want := align_up want ps in
  if fresh && negb (trunc_ok env) then (close_fd p, w, st_size env) else
  let map_size := if fresh then want else st_size env in
  let len := map_size in
  match map_at env with
  | None => (close_fd (set_map NULL map_size 0 p), w, len)
  | Some base =>
      let p := set_map base map_size (ps / sizeof_WalRecord) p in
      if fresh then (attach p (init w map_size block_size block_count bitmap_bytes), len)
      else if negb (load64 (w_file w) off_magic =? kMagic) || negb (load32 (w_file w) off_version =? kVersion)
      then (close_fd (set_base NULL (say [Bug "文件损坏"] p)), w, len)
      else (attach (set_dirty (load64 (w_file w) off_clean =? 0) p) w, len)
  end.

(** [close], which is also the destructor. *)
Definition close (p : t) (w : world) : t * world :=
  let '(p, w) :=
    if base_ p =? NULL then (p, w) else
    let w :=
      if ok_ p then
        let w := put w off_clean (le_bytes 8 1) in
        let w := if msync 0 (map_size_ p) then emit w (EvSync 0 (map_size_ p)) else w in
        full_sync w
      else w in
    (set_base NULL p, w) in
  (set_ok false (close_fd p), w).

(** ** The pool *)

(** The loop of [allocate], [n] rounds left; a null pointer is [None]. *)
Fixpoint alloc_loop (p : t) (w : world) (i : Z) (n : nat) : t * world * option (Z * Z) :=
  match n with
  | O => (p, w, None)
  | S n =>
      if bit_test (w_file w) i then alloc_loop p w (i +% 1) n else
      let '(p, w) := commit p w op_Alloc i in
      (p, w, Some (base_ p +% data_ p +% i *% load32 (w_file w) off_block_size, i))
  end.

Definition allocate (p : t) (w : world) : t * world * option (Z * Z) :=
  if negb (ok_ p) then (p, w, None) else
  alloc_loop p w 0 (Z.to_nat (load64 (w_file w) off_block_count)).

Definition deallocate (p : t) (w : world) (index : Z) : t * world :=
  if negb (ok_ p) || (index >=? load64 (w_file w) off_block_count) then (p, w) else
  if negb (bit_test (w_file w) index) then (p, w) else
  commit p w op_Free index.

Definition at_ (p : t) (m : mem) (index : Z) : Z :=
  if negb (ok_ p) || (index >=? load64 m off_block_count) || negb (bit_test m index) then NULL
  else base_ p +% data_ p +% index *% load32 m off_block_size.

Definition in_use (p : t) (m : mem) (index : Z) : bool :=
  ok_ p && (index <? load64 m off_block_count) && bit_test m index.

Definition block_size (p : t) (m : mem) : Z := if ok_ p then load32 m off_block_size else 0.
Definition block_count (p : t) (m : mem) : Z := if ok_ p then load64 m off_block_count else 0.

Definition flush (p : t) (w : world) (index : Z) : world * bool :=
  if negb (ok_ p) || (index >=? load64 (w_file w) off_block_count) then (w, false) else
  let '(w, r) := sync_range w (data_ p +% index *% load32 (w_file w) off_block_size) (load32 (w_file w) off_block_size) in
  (if_full p w, r).

(** The hooks for crash drills. *)
Definition debug_append_wal_only (p : t) (w : world) (op index : Z) : t * world :=
  if negb (ok_ p) then (p, w) else
  let seq := next_seq_ p in
  let p := set_next_seq (next_seq_ p +% 1) p in
  (p, wal_append p w seq op (wrap32 index)).

Definition simulate_crash (p : t) (w : world) : t * world := (set_ok false (close_fd (set_base NULL p)), w).

Definition ok (p : t) : bool := ok_ p.
Definition recovered_from_crash (p : t) : bool := recovered_dirty_ p.
End ops.
End PersistentPoolCpp.
