(* ===== verification/CppPoolProofs.v ===== *)
(** * The C++ persistent pool: phases, records and the crash invariant

    A commit writes a log record, a byte of the bitmap and a meta slot, and
    syncs each before it goes on; recovery stores bitmap bytes several times
    before its sync.  [durable m W F] says of a file [m] that a pool opened
    from it has the bits [F] and the watermark [W]: every bit that differs
    from [F] has a record beyond the watermark of [m], and the newest record
    of every block says what [F] says.  It holds at every point of every
    operation, whichever stores a crash loses or tears. *)

From stdpp Require Import sorting.
From S2P Require Import Prelude Memory Platform PersistentPool PoolTrace PoolProofs PoolSpec Cpp CppPool.
Import PersistentPoolCpp.

(** ** Syncs *)

Lemma w_ext_emit w e : (match e with EvStore _ _ => False | _ => True end) → w_ext w (emit w e) [e].
Proof. by destruct e. Qed.

(** [ts] stores nothing and settles all that [tr] stored. *)
Definition settles (m : mem) (tr ts : list event) : Prop :=
  (∀ x, stored ts x = []) ∧ (∀ m0, run m0 ts = m0) ∧ settled m (tr ++ ts).

Section sync.
Context (ps : Z) (msync : Z → Z → bool) (Hps : page_size_ok ps) (Hms : ∀ a len, msync a len = true).

Lemma sync_range_eq w a len : 0 ≤ a → 0 ≤ len → a + len ≤ 2 ^ 62 →
  ∃ s l, s ≤ a ∧ a + len ≤ s + l ∧ sync_range ps msync w a len = (emit w (EvSync s l), true).
Proof.
  intros Ha Hl Hal. pose proof (page_size_bounds ps Hps) as (Hb & _). pose proof Hps as (k & Hk & Ek).
  unfold sync_range. rewrite Hms, align_up_eq. rewrite (wrap64_small (ps - 1)) by ulia.
  rewrite Ek in *. rewrite not64_spec by (unfold is_u64; lia). rewrite land_clear_low by (unfold is_u64; lia).
  pose proof (Z.mod_pos_bound a (2 ^ k) ltac:(lia)). pose proof (Z.div_mod a (2 ^ k) ltac:(lia)).
  pose proof (Z.div_pos a (2 ^ k) Ha ltac:(lia)).
  eexists _, _. split; [|split; [|reflexivity]]; [lia|].
  rewrite hf_align_up_page by (done || lia).
  pose proof (round_up_ge (a - a / 2 ^ k * 2 ^ k + len) (2 ^ k) ltac:(lia)). lia.
Qed.

(** A sync of everything a run stored. *)
Lemma sync_settles w w1 tr a len : w_ext w w1 tr → 0 ≤ a → 0 ≤ len → a + len ≤ 2 ^ 62 →
  (∀ x, stored tr x ≠ [] → range a len x) →
  ∃ ts, settles (w_file w) tr ts ∧ w_ext w (sync_range ps msync w1 a len).1 (tr ++ ts).
Proof.
  intros Hw Ha Hl Hal Hst. destruct (sync_range_eq w1 a len Ha Hl Hal) as (s & l & Hs & Hsl & ->).
  exists [EvSync s l]. split; [|by apply (w_ext_trans _ w1), w_ext_emit]. split_and!; try done.
  apply settled_sync. intros x Hx. specialize (Hst x Hx). rlia.
Qed.

Lemma if_full_settles p w tr ts w1 : settles (w_file w) tr ts → w_ext w w1 (tr ++ ts) →
  ∃ ts', settles (w_file w) tr ts' ∧ w_ext w (if_full p w1) (tr ++ ts').
Proof.
  intros (H1 & H2 & H3) Hw. unfold if_full. destruct (durability_ p); [by exists ts|].
  exists (ts ++ [EvFsync]). split.
  - split_and!; [intros x; by rewrite stored_app, H1|intros m0; by rewrite run_app, H2|].
    rewrite app_assoc. apply settled_fsync.
  - rewrite app_assoc. by apply (w_ext_trans _ w1), w_ext_emit.
Qed.

(** Both, as [wal_append] and [meta_commit] end. *)
Lemma sync_full_settles p w w1 tr a len : w_ext w w1 tr → 0 ≤ a → 0 ≤ len → a + len ≤ 2 ^ 62 →
  (∀ x, stored tr x ≠ [] → range a len x) →
  ∃ ts, settles (w_file w) tr ts ∧ w_ext w (if_full p (sync_range ps msync w1 a len).1) (tr ++ ts).
Proof.
  intros Hw Ha Hl Hal Hst. destruct (sync_settles w w1 tr a len Hw Ha Hl Hal Hst) as (ts & H1 & H2).
  by apply (if_full_settles p w tr ts).
Qed.
End sync.

Lemma settles_stored m tr ts x : settles m tr ts → stored (tr ++ ts) x = stored tr x.
Proof. intros (H & _). by rewrite stored_app, H, app_nil_r. Qed.

Lemma settles_run m tr ts m0 : settles m tr ts → run m0 (tr ++ ts) = run m0 tr.
Proof. intros (_ & H & _). by rewrite run_app. Qed.

Lemma settles_once m tr ts : settles m tr ts → once tr → once (tr ++ ts).
Proof. intros H Ho x. rewrite (settles_stored _ _ _ _ H). apply Ho. Qed.

(** ** Log records

    The checksum of a log record covers its number, its index and its
    operation, in this order, so seen in this order a record is one of the C
    pool's. *)

Definition view (m : mem) (a : Z) : list Z :=
  load_bytes m a 8 ++ load_bytes m (a + 12) 4 ++ load_bytes m (a + 8) 4 ++ load_bytes m (a + 16) 8.

Lemma length_view m a : length (view m a) = 24%nat.
Proof. unfold view. by rewrite !length_app, !length_load_bytes. Qed.

Lemma view_byte m a : Forall (λ b, 0 ≤ b < 2 ^ 8) (view m a).
Proof. unfold view. rewrite !Forall_app. split_and!; apply load_bytes_byte. Qed.

Lemma view_agree m m' a : (∀ x, range a 24 x → load8 m' x = load8 m x) → view m' a = view m a.
Proof. intros H. unfold view. by rewrite !(load_bytes_agree m m') by (intros x Hx; apply H; rlia). Qed.

Lemma le_bytes_split k j v : le_bytes (k + j) v = le_bytes k v ++ le_bytes j (v / 2 ^ (8 * Z.of_nat k)).
Proof.
  revert v. induction k as [|k IH]; intros v; [cbn; by rewrite Z.div_1_r|].
  cbn [Nat.add le_bytes app]. f_equal. rewrite IH. do 2 f_equal. rewrite Z.div_div by lia. f_equal.
  rewrite <- Z.pow_add_r by lia. f_equal. lia.
Qed.

Lemma le_bytes_mod k v : le_bytes k (v mod 2 ^ (8 * Z.of_nat k)) = le_bytes k v.
Proof. rewrite <- le_val_le_bytes. rewrite <- (length_le_bytes k v) at 1. apply le_bytes_le_val, le_bytes_byte. Qed.

(** [(std::uint64_t(op) << 32) | index] in memory. *)
Lemma pack_bytes op index : 0 ≤ index < 2 ^ 32 →
  le_bytes 8 (Z.lor (Z.shiftl op 32) index) = le_bytes 4 index ++ le_bytes 4 op.
Proof.
  intros Hi. assert (Z.lor (Z.shiftl op 32) index = index + 2 ^ 32 * op) as ->.
  { rewrite Z.shiftl_mul_pow2 by lia. rewrite Z.lor_comm. pose proof (Z.add_lor_land index (op * 2 ^ 32)) as E.
    assert (Z.land index (op * 2 ^ 32) = 0) as E0; [|lia]. clear E.
    rewrite <- (Z.mod_small index (2 ^ 32)) by lia. rewrite <- Z.land_ones by lia. rewrite <- Z.land_assoc.
    rewrite <- Z.shiftl_mul_pow2 by lia. rewrite (Z.land_comm (Z.ones 32)), Z.land_ones, Z.shiftl_mul_pow2 by lia.
    by rewrite Z_mod_mult, Z.land_0_r. }
  rewrite (le_bytes_split 4 4). change (8 * Z.of_nat 4) with 32. f_equal.
  - rewrite <- le_bytes_mod. change (8 * Z.of_nat 4) with 32. rewrite (Z.mul_comm (2 ^ 32)), Z_mod_plus_full.
    by rewrite Z.mod_small.
  - f_equal. rewrite (Z.mul_comm (2 ^ 32)), Z_div_plus_full, Z.div_small by lia. lia.
Qed.

Lemma le_bytes_load m a k : le_bytes k (le_val (load_bytes m a k)) = load_bytes m a k.
Proof. rewrite <- (length_load_bytes m a k) at 1. apply le_bytes_le_val, load_bytes_byte. Qed.

Lemma view_seq m a : rec_seq (view m a) = r_seq m a.
Proof. unfold rec_seq, view. rewrite (take_app_length' _ _ 8) by (by rewrite length_load_bytes). done. Qed.

Lemma view_index m a : rec_op (view m a) = r_index m a.
Proof.
  unfold rec_op, view. rewrite (drop_app_length' _ _ 8), (take_app_length' _ _ 4) by (by rewrite length_load_bytes). done.
Qed.

Lemma view_op m a : rec_index (view m a) = r_op m a.
Proof.
  unfold rec_index, view. rewrite app_assoc, (drop_app_length' _ _ 12) by (by rewrite length_app, !length_load_bytes).
  rewrite (take_app_length' _ _ 4) by (by rewrite length_load_bytes). done.
Qed.

Lemma fnv1a_eq bs : fnv1a bs = PersistentPool.fnv1a bs.
Proof. done. Qed.

#[local] Opaque fnv1a PersistentPool.fnv1a.

Lemma view_valid m a : rec_valid (view m a) = (r_crc m a =? rec_crc (r_seq m a) (r_op m a) (r_index m a)).
Proof.
  unfold rec_crc. pose proof (load32_range m (a + 12)) as Hi. rewrite pack_bytes by (unfold r_index; lia).
  unfold r_seq, r_op, r_index, load64, load32. rewrite !le_bytes_load, fnv1a_eq.
  unfold rec_valid, view. rewrite app_assoc, app_assoc.
  rewrite (drop_app_length' _ _ 16), (take_app_length' _ _ 16) by (by rewrite !length_app, !length_load_bytes).
  by rewrite <- app_assoc.
Qed.

(** The bytes [wal_append] writes, and the same seen in the order of the checksum. *)
Definition rec_bytes (seq op index : Z) : list (list Z) :=
  [le_bytes 8 seq; le_bytes 4 op; le_bytes 4 index; le_bytes 8 (rec_crc seq op index); le_bytes 8 0].

Lemma length_rec_bytes seq op index : length (mjoin (rec_bytes seq op index)) = 32%nat.
Proof. unfold rec_bytes. generalize (rec_crc seq op index). intros c. cbn [mjoin list_join]. by rewrite !length_app, !length_le_bytes. Qed.

Lemma rec_bytes_byte seq op index : Forall (λ b, 0 ≤ b < 2 ^ 8) (mjoin (rec_bytes seq op index)).
Proof.
  unfold rec_bytes. generalize (rec_crc seq op index). intros c. cbn [mjoin list_join]. rewrite !Forall_app.
  split_and!; try apply le_bytes_byte. constructor.
Qed.

Lemma view_written m a seq op index : 0 ≤ index < 2 ^ 32 →
  view (run m (chunks a (rec_bytes seq op index))) a = wal_record seq index op.
Proof.
  intros Hi. set (m' := run m _).
  assert (load_bytes m' a 32 = mjoin (rec_bytes seq op index)) as E.
  { apply load_bytes_run_chunks; [apply rec_bytes_byte|by rewrite length_rec_bytes]. }
  change 32%nat with (8 + (4 + (4 + (8 + 8))))%nat in E. rewrite !load_bytes_app in E.
  change (mjoin (rec_bytes seq op index)) with
    (le_bytes 8 seq ++ le_bytes 4 op ++ le_bytes 4 index ++ le_bytes 8 (rec_crc seq op index) ++ le_bytes 8 0 ++ []) in E.
  apply app_inj_1 in E as [E1 E]; [|by rewrite length_load_bytes, length_le_bytes].
  apply app_inj_1 in E as [E2 E]; [|by rewrite length_load_bytes, length_le_bytes].
  apply app_inj_1 in E as [E3 E]; [|by rewrite length_load_bytes, length_le_bytes].
  apply app_inj_1 in E as [E4 _]; [|by rewrite length_load_bytes, length_le_bytes].
  unfold view, wal_record, sealed. rewrite E1. change (Z.of_nat 8) with 8 in *. change (Z.of_nat 4) with 4 in *.
  replace (a + 8 + 4) with (a + 12) in * by lia. replace (a + 12 + 4) with (a + 16) in * by lia.
  rewrite E2, E3, E4. unfold rec_crc. rewrite pack_bytes, fnv1a_eq by done. rewrite <- !app_assoc. reflexivity.
Qed.

(** Byte by byte. *)
Lemma load_bytes_map m a k n : load_bytes m (a + k) n = (λ j, load8 m (a + j)) <$> seqZ k (Z.of_nat n).
Proof.
  revert k. induction n as [|n IH]; intros k; [done|]. rewrite seqZ_cons by lia. cbn [load_bytes fmap list_fmap].
  f_equal. replace (Z.pred (Z.of_nat (S n))) with (Z.of_nat n) by lia. rewrite <- Z.add_assoc. apply IH.
Qed.

Lemma view_map m a : view m a = (λ j, load8 m (a + j)) <$> (seqZ 0 8 ++ seqZ 12 4 ++ seqZ 8 4 ++ seqZ 16 8).
Proof.
  unfold view. rewrite <- (Z.add_0_r a) at 1. rewrite !load_bytes_map, !fmap_app. done.
Qed.

(** A torn record. *)
Lemma view_torn m m1 m' a : tear_detected (view m a) (view m1 a) = true →
  (∀ x, range a 24 x → load8 m' x = load8 m x ∨ load8 m' x = load8 m1 x) → rec_valid (view m' a) = true →
  view m' a = view m a ∨ view m' a = view m1 a.
Proof.
  intros Ht Hx. apply tear_detected_spec; [exact Ht|apply length_view..|apply view_byte|].
  intros i v. rewrite !view_map, !list_lookup_fmap. destruct (_ !! i) as [j|] eqn:Ej; [|done]. intros [= <-]. cbn.
  assert (0 ≤ j < 24) as Hj.
  { apply list_elem_of_lookup_2 in Ej. rewrite !elem_of_app, !elem_of_seqZ in Ej. lia. }
  destruct (Hx (a + j) ltac:(rlia)) as [-> | ->]; auto.
Qed.

(** ** Meta slots *)

Lemma make_slot_eq seq gen : make_slot seq gen = meta_record seq gen.
Proof. unfold make_slot, meta_record, sealed, slot_crc. by rewrite <- app_assoc, fnv1a_eq. Qed.

Lemma slot_seq m a : s_seq m a = rec_seq (record_at m a).
Proof. apply rec_seq_at. Qed.

Definition rec_gen (r : list Z) : Z := le_val (take 8 (drop 8 r)).

Lemma slot_gen m a : s_gen m a = rec_gen (record_at m a).
Proof. unfold rec_gen, record_at. change 24%nat with (8 + (8 + 8))%nat. by rewrite drop_load_bytes, take_load_bytes. Qed.

Lemma slot_valid_eq m a : (slot_crc (s_seq m a) (s_gen m a) =? s_crc m a) = rec_valid (record_at m a).
Proof.
  rewrite <- rec_valid_at, Z.eqb_sym. unfold s_crc, slot_crc, s_seq, s_gen, load64. rewrite !le_bytes_load, fnv1a_eq.
  change 16%nat with (8 + 8)%nat. by rewrite load_bytes_app.
Qed.

(** The slot counts: its generation is not zero and its checksum is right. *)
Definition slot_ok (m : mem) (a : Z) : bool := negb (s_gen m a =? 0) && rec_valid (record_at m a).

Lemma applied_cases m : let a := slot 0 in let b := slot 1 in
  load_applied_seq m =
  if slot_ok m a then if slot_ok m b && (s_gen m b >? s_gen m a) then s_seq m b else s_seq m a
  else if slot_ok m b then s_seq m b else 0.
Proof.
  intros a b. unfold load_applied_seq. cbn [foldl]. fold a b. unfold slot_ok. rewrite !slot_valid_eq.
  assert (∀ c, (s_gen m c =? 0) = false → (s_gen m c >? 0) = true) as Hpos.
  { intros c Hc. apply Z.eqb_neq in Hc. pose proof (load64_range m (c + 8)). apply Z.gtb_lt. unfold s_gen in *. ulia. }
  pose proof (Hpos a). pose proof (Hpos b).
  destruct (s_gen m a =? 0), (rec_valid (record_at m a)); cbn [negb andb snd fst]; rewrite ?H by done; cbn [snd fst];
    destruct (s_gen m b =? 0), (rec_valid (record_at m b)); cbn [negb andb snd fst]; rewrite ?H0 by done; cbn [snd fst];
    try done. destruct (s_gen m b >? s_gen m a); reflexivity.
Qed.

Lemma applied_le m W : 0 ≤ W → (∀ j, j = 0 ∨ j = 1 → slot_ok m (slot j) = true → s_seq m (slot j) ≤ W) → load_applied_seq m ≤ W.
Proof.
  intros HW H. rewrite applied_cases. pose proof (H 0 (or_introl eq_refl)). pose proof (H 1 (or_intror eq_refl)).
  destruct (slot_ok m (slot 0)), (slot_ok m (slot 1)); cbn [andb]; try destruct (_ >? _); auto.
Qed.

(** The slot with the greater generation wins. *)
Lemma applied_newest m j : j = 0 ∨ j = 1 → slot_ok m (slot j) = true → s_gen m (slot (1 - j)) < s_gen m (slot j) →
  load_applied_seq m = s_seq m (slot j).
Proof.
  intros Hj Hok Hg. rewrite applied_cases.
  destruct Hj as [-> | ->]; [change (1 - 0) with 1 in *|change (1 - 1) with 0 in *]; rewrite Hok, Z.gtb_ltb.
  - rewrite (proj2 (Z.ltb_ge _ _)) by lia. by rewrite andb_false_r.
  - rewrite (proj2 (Z.ltb_lt _ _)) by lia. cbn [andb]. by destruct (slot_ok m (slot 0)).
Qed.

Lemma meta_record_gen seq gen : is_u64 gen → rec_gen (meta_record seq gen) = gen.
Proof.
  intros Hg. unfold rec_gen, meta_record, sealed. rewrite <- app_assoc.
  rewrite (drop_app_length' _ _ 8), (take_app_length' _ _ 8) by (by rewrite length_le_bytes).
  rewrite le_val_le_bytes. apply Z.mod_small. unfold is_u64 in Hg. simpl. lia.
Qed.

Lemma applied_agree m m' : (∀ x, range 40 48 x → load8 m' x = load8 m x) → load_applied_seq m' = load_applied_seq m.
Proof.
  intros H. rewrite !applied_cases. unfold slot_ok. rewrite !slot_gen, !slot_seq.
  assert (∀ j, j = 0 ∨ j = 1 → record_at m' (slot j) = record_at m (slot j)) as E.
  { intros j Hj. apply record_agree. intros x Hx. apply H. unfold slot in Hx. destruct Hj as [-> | ->]; rlia. }
  by rewrite !E by auto.
Qed.

(** ** What a file says *)

(** The record at [a] counts: it has a number, its checksum is right and its
    block exists. *)
Definition vrec (n : Z) (m : mem) (a : Z) : option record :=
  if negb (r_seq m a =? 0) && rec_valid (view m a) && (r_index m a <? n)
  then Some (Rec (r_seq m a) (r_op m a) (r_index m a)) else None.

Lemma vrec_view n m m' a : view m' a = view m a → vrec n m' a = vrec n m a.
Proof. intros E. unfold vrec. by rewrite <- !view_seq, <- !view_op, <- !view_index, E. Qed.

Lemma vrec_range n m a r : vrec n m a = Some r → 0 ≤ rc_index r < n ∧ 0 < rc_seq r < 2 ^ 64.
Proof.
  unfold vrec. destruct (_ && _) eqn:Ev; [|done]. apply andb_true_iff in Ev as [Ev Hi%Z.ltb_lt].
  apply andb_true_iff in Ev as [Hs%negb_true_iff%Z.eqb_neq _]. intros [= <-]. cbn [rc_index rc_seq].
  pose proof (load32_range m (a + 12)). pose proof (load64_range m a). unfold is_u64 in *.
  unfold r_index, r_seq in *. lia.
Qed.

Lemma vrec_written n m a seq op index : view m a = wal_record seq index op → 0 < seq < 2 ^ 64 →
  0 ≤ op < 2 ^ 32 → 0 ≤ index < n → n ≤ 2 ^ 32 → vrec n m a = Some (Rec seq op index).
Proof.
  intros E Hs Ho Hi Hn. destruct (wal_record_spec seq index op) as (_ & Hv & E1 & E2 & E3); [unfold is_u64; lia|lia|lia|].
  unfold vrec. rewrite <- !view_seq, <- !view_op, <- !view_index, E, Hv, E1, E2, E3.
  rewrite (proj2 (Z.eqb_neq _ _)), (proj2 (Z.ltb_lt _ _)) by lia. done.
Qed.

Section file.
(** The page size, and the number and size of the blocks and the bytes of the
    bitmap, which are in the header. *)
Context (ps n bs B : Z).

Definition cap : Z := ps / sizeof_WalRecord.
Definition wal_at (k : Z) : Z := ps + k * sizeof_WalRecord.

Record geometry : Prop := {
  gm_page : page_size_ok ps;
  gm_count : 0 ≤ n < 2 ^ 32;
  gm_bytes : (n + 7) / 8 ≤ B ≤ 2 ^ 61
}.

(** A record of the log. *)
Definition in_log (m : mem) (r : record) : Prop := ∃ k, 0 ≤ k < cap ∧ vrec n m (wal_at k) = Some r.

Definition bits_are (m : mem) (F : list bool) : Prop := ∀ i, 0 ≤ i < n → F !! Z.to_nat i = Some (bit_test ps m i).

Definition header_is (m : mem) : Prop :=
  load64 m off_magic = kMagic ∧ load32 m off_version = kVersion ∧ load32 m off_block_size = bs ∧
  load64 m off_block_count = n ∧ load64 m off_bitmap_bytes = B.

Record durable (m : mem) (W : Z) (F : list bool) : Prop := {
  du_header : header_is m;
  du_length : Z.of_nat (length F) = n;
  du_W : 0 ≤ W;
  du_place : ∀ k r, 0 ≤ k < cap → vrec n m (wal_at k) = Some r → rc_seq r mod cap = k ∧ W - cap < rc_seq r ≤ W;
  du_newest : ∀ r, in_log m r → (∀ r', in_log m r' → rc_index r' = rc_index r → rc_seq r' ≤ rc_seq r) →
    F !! Z.to_nat (rc_index r) = Some (rc_op r =? op_Alloc);
  du_bits : ∀ i, 0 ≤ i < n → F !! Z.to_nat i = Some (bit_test ps m i) ∨
    ∃ r, in_log m r ∧ rc_index r = i ∧ load_applied_seq m < rc_seq r;
  du_slots : ∀ j, j = 0 ∨ j = 1 → slot_ok m (slot j) = true → s_seq m (slot j) ≤ W;
  du_mark : load_applied_seq m = W ∨ ∃ r, in_log m r ∧ rc_seq r = W;
  du_clean : load64 m off_clean = 0 ∨ load_applied_seq m = W ∧ bits_are m F
}.

(** The bitmap and the watermark are up to date. *)
Definition current (m : mem) (W : Z) (F : list bool) : Prop :=
  durable m W F ∧ load_applied_seq m = W ∧ bits_are m F.

(** A pool is open on the file. *)
Definition live (m : mem) (W : Z) (F : list bool) : Prop := current m W F ∧ load64 m off_clean = 0.

(** *** Frames *)

Context (G : geometry).

Lemma geometry_bounds : 4096 ≤ ps ≤ 2 ^ 30 ∧ 0 < cap ∧ cap * 32 ≤ ps ∧ 0 ≤ (n + 7) / 8.
Proof.
  pose proof (page_size_bounds ps (gm_page G)) as (H & _). pose proof (gm_count G). unfold cap, sizeof_WalRecord.
  pose proof (Z.div_mod ps 32 ltac:(lia)). pose proof (Z.mod_pos_bound ps 32 ltac:(lia)).
  pose proof (Z.div_pos (n + 7) 8 ltac:(lia) ltac:(lia)). lia.
Qed.

Lemma wal_at_range k : 0 ≤ k < cap → ps ≤ wal_at k ∧ wal_at k + 32 ≤ 2 * ps.
Proof. intros Hk. pose proof geometry_bounds. unfold wal_at, sizeof_WalRecord. lia. Qed.

Lemma bit_at_range i : 0 ≤ i < n → 2 * ps ≤ bitmap_ ps + i / 8 < 2 * ps + B.
Proof.
  intros Hi. unfold bitmap_. pose proof (gm_bytes G). pose proof (Z.div_pos i 8). pose proof (Z.div_mod i 8 ltac:(lia)).
  pose proof (Z.mod_pos_bound i 8 ltac:(lia)). pose proof (Z.div_mod (n + 7) 8 ltac:(lia)).
  pose proof (Z.mod_pos_bound (n + 7) 8 ltac:(lia)). lia.
Qed.

Lemma vrec_agree m m' k : 0 ≤ k < cap → agree_on (range ps ps) m m' → vrec n m' (wal_at k) = vrec n m (wal_at k).
Proof. intros Hk H. apply vrec_view, view_agree. intros x Hx. apply H. pose proof (wal_at_range k Hk). rlia. Qed.

Lemma in_log_agree m m' r : agree_on (range ps ps) m m' → in_log m' r ↔ in_log m r.
Proof. intros H. unfold in_log. split; intros (k & Hk & E); exists k; (split; [done|]); by rewrite <- E, (vrec_agree m m'). Qed.

Lemma header_is_agree m m' : agree_on (range 0 32) m m' → header_is m → header_is m'.
Proof.
  intros H (H1 & H2 & H3 & H4 & H5). unfold header_is.
  unfold off_magic, off_version, off_block_size, off_block_count, off_bitmap_bytes in *.
  rewrite !(load64_agree m m') by (intros x Hx; apply H; rlia). rewrite !(load32_agree m m') by (intros x Hx; apply H; rlia). done.
Qed.

Lemma bit_test_at m i : bit_test ps m i = Z.testbit (load8 m (bitmap_ ps + i / 8)) (i mod 8).
Proof.
  unfold bit_test. pose proof (Z.mod_pos_bound i 8 ltac:(lia)). set (b := load8 _ _).
  destruct (Z.testbit b (i mod 8)) eqn:E.
  - assert (Z.land b (Z.shiftl 1 (i mod 8)) ≠ 0) as H0; [|by rewrite (proj2 (Z.eqb_neq _ _))].
    intros E0. apply (f_equal (λ z, Z.testbit z (i mod 8))) in E0.
    rewrite Z.land_spec, E, Z.shiftl_1_l, Z.pow2_bits_true, Z.bits_0 in E0 by lia. done.
  - assert (Z.land b (Z.shiftl 1 (i mod 8)) = 0) as ->; [|done]. apply Z.bits_inj'. intros j Hj.
    rewrite Z.land_spec, Z.shiftl_1_l, Z.pow2_bits_eqb, Z.bits_0 by lia.
    destruct (Z.eqb_spec (i mod 8) j) as [<-|]; [by rewrite E|apply andb_false_r].
Qed.

Lemma cpp_bit_test_agree m m' i : 0 ≤ i < n → agree_on (range (2 * ps) B) m m' → bit_test ps m' i = bit_test ps m i.
Proof. intros Hi H. rewrite !bit_test_at. rewrite H; [done|]. pose proof (bit_at_range i Hi). rlia. Qed.

Lemma bits_are_agree m m' F : agree_on (range (2 * ps) B) m m' → bits_are m F → bits_are m' F.
Proof. intros H Hb i Hi. rewrite (cpp_bit_test_agree m m') by done. by apply Hb. Qed.

Lemma slots_agree m m' j : j = 0 ∨ j = 1 → agree_on (range 40 48) m m' → record_at m' (slot j) = record_at m (slot j).
Proof. intros Hj H. apply record_agree. intros x Hx. apply H. unfold slot in Hx. destruct Hj as [-> | ->]; rlia. Qed.

Lemma slot_ok_record m m' a : record_at m' a = record_at m a → slot_ok m' a = slot_ok m a ∧ s_seq m' a = s_seq m a.
Proof. intros E. unfold slot_ok. by rewrite !slot_gen, !slot_seq, E. Qed.

(** *** What each phase may leave *)

(** The bytes from the header to the end of the bitmap decide. *)
Lemma durable_ext m m' W F : agree_on (range 0 (2 * ps + B)) m m' → durable m W F → durable m' W F.
Proof.
  intros H D. pose proof geometry_bounds as Hg. pose proof (gm_bytes G).
  assert (agree_on (range ps ps) m m') as Hw by (intros x Hx; apply H; rlia).
  assert (agree_on (range (2 * ps) B) m m') as Hb by (intros x Hx; apply H; rlia).
  assert (agree_on (range 40 48) m m') as Hs by (intros x Hx; apply H; rlia).
  assert (load_applied_seq m' = load_applied_seq m) as Ea by (by apply applied_agree).
  split.
  - apply (header_is_agree m); [|apply D]. intros x Hx. apply H. rlia.
  - apply D.
  - apply D.
  - intros k r Hk. rewrite (vrec_agree m m') by done. by apply D.
  - intros r Hr Hn. apply (du_newest _ _ _ D); [by apply (in_log_agree m m')|]. intros r' Hr'. apply Hn. by apply (in_log_agree m m').
  - intros i Hi. rewrite (cpp_bit_test_agree m m'), Ea by done. destruct (du_bits _ _ _ D i Hi) as [?|(r & Hr & ?)]; [by left|right].
    exists r. by rewrite (in_log_agree m m').
  - intros j Hj. destruct (slot_ok_record m m' (slot j)) as [-> ->]; [by apply slots_agree|]. by apply D.
  - rewrite Ea. destruct (du_mark _ _ _ D) as [?|(r & Hr & ?)]; [by left|right]. exists r. by rewrite (in_log_agree m m').
  - rewrite Ea, (load64_agree m m') by (intros x Hx; apply H; unfold off_clean in *; rlia).
    destruct (du_clean _ _ _ D) as [?|[? ?]]; [by left|right]. split; [done|]. by apply (bits_are_agree m).
Qed.

(** The ring holds the last [c] numbers: that of the slot for [W + 1] is the
    oldest of them. *)
Lemma mod_window s W c : 0 < c → s mod c = (W + 1) mod c → W - c < s ≤ W → s = W + 1 - c.
Proof.
  intros Hc E Hs. pose proof (Z.div_mod s c ltac:(lia)). pose proof (Z.div_mod (W + 1) c ltac:(lia)).
  assert ((W + 1) / c - s / c = 1); [|nia]. assert (0 < c * ((W + 1) / c - s / c) ≤ c) by lia. nia.
Qed.

(** The log record is lost or torn: only the oldest record of the ring may be gone. *)
Lemma log_lost m m' W F : live m W F → let k := (W + 1) mod cap in
  (∀ x, ¬ range (wal_at k) 32 x → load8 m' x = load8 m x) →
  vrec n m' (wal_at k) = None ∨ vrec n m' (wal_at k) = vrec n m (wal_at k) → durable m' W F.
Proof.
  intros [[D [Ea Hbits]] Hclean] k Hout Hk. pose proof geometry_bounds as Hg.
  pose proof (Z.mod_pos_bound (W + 1) cap ltac:(lia)) as Hkr. fold k in Hkr. pose proof (wal_at_range k Hkr) as Hka.
  assert (∀ j, 0 ≤ j < cap → j ≠ k → vrec n m' (wal_at j) = vrec n m (wal_at j)) as Hoth.
  { intros j Hj Hne. apply vrec_view, view_agree. intros x Hx. apply Hout. unfold wal_at, sizeof_WalRecord in *. rlia. }
  assert (∀ j r, 0 ≤ j < cap → vrec n m' (wal_at j) = Some r → vrec n m (wal_at j) = Some r) as Hsub.
  { intros j r Hj E. destruct (decide (j = k)) as [->|Hne]; [|by rewrite <- Hoth]. destruct Hk as [Hk|Hk]; congruence. }
  assert (load_applied_seq m' = load_applied_seq m) as Ea' by (apply applied_agree; intros x Hx; apply Hout; rlia).
  assert (bits_are m' F) as Hb' by (apply (bits_are_agree m); [|done]; intros x Hx; apply Hout; rlia).
  split; [|apply D|apply D|..].
  - apply (header_is_agree m); [|apply D]. intros x Hx. apply Hout. rlia.
  - intros j r Hj E. apply (du_place _ _ _ D j r Hj). by apply Hsub.
  - intros r (j & Hj & E) Hn. apply (du_newest _ _ _ D); [exists j; split; [done|by apply Hsub]|].
    intros r' (j' & Hj' & E') Hi. destruct (decide (j' = k)) as [Hjk|Hne].
    + destruct (du_place _ _ _ D j r Hj ltac:(by apply Hsub)) as [_ [Hlo _]].
      destruct (du_place _ _ _ D j' r' Hj' E') as [Hm Hr].
      rewrite Hjk in Hm. rewrite (mod_window (rc_seq r') W cap) by (done || lia). lia.
    + apply Hn; [|done]. exists j'. split; [done|]. by rewrite Hoth.
  - intros i Hi. left. by apply Hb'.
  - intros j Hj. destruct (slot_ok_record m m' (slot j)) as [-> ->]; [|by apply D].
    apply slots_agree; [done|]. intros x Hx. apply Hout. rlia.
  - left. by rewrite Ea'.
  - left. rewrite <- Hclean. apply load64_agree. intros x Hx. apply Hout. unfold off_clean in *. rlia.
Qed.

(** The log record is there. *)
Lemma log_there m m' W F op index : live m W F → W + 1 < 2 ^ 64 → 0 ≤ op < 2 ^ 32 → 0 ≤ index < n →
  let k := (W + 1) mod cap in
  (∀ x, ¬ range (wal_at k) 32 x → load8 m' x = load8 m x) →
  view m' (wal_at k) = wal_record (W + 1) index op → durable m' (W + 1) (apply_bits op index F) ∧ in_log m' (Rec (W + 1) op index).
Proof.
  intros [[D [Ea Hbits]] Hclean] HW Hop Hidx k Hout Hv. pose proof geometry_bounds as Hg. pose proof (gm_count G). pose proof (du_W _ _ _ D).
  pose proof (du_length _ _ _ D) as Hlen.
  pose proof (Z.mod_pos_bound (W + 1) cap ltac:(lia)) as Hkr. fold k in Hkr. pose proof (wal_at_range k Hkr) as Hka.
  assert (vrec n m' (wal_at k) = Some (Rec (W + 1) op index)) as Hk by (apply vrec_written; [done|lia..]).
  assert (∀ j, 0 ≤ j < cap → j ≠ k → vrec n m' (wal_at j) = vrec n m (wal_at j)) as Hoth.
  { intros j Hj Hne. apply vrec_view, view_agree. intros x Hx. apply Hout. unfold wal_at, sizeof_WalRecord in *. rlia. }
  assert (in_log m' (Rec (W + 1) op index)) as Hin by (by exists k).
  assert (load_applied_seq m' = load_applied_seq m) as Ea' by (apply applied_agree; intros x Hx; apply Hout; rlia).
  assert (∀ j r, 0 ≤ j < cap → j ≠ k → vrec n m (wal_at j) = Some r → W + 1 - cap < rc_seq r ≤ W) as Hrange.
  { intros j r Hj Hne E. destruct (du_place _ _ _ D j r Hj E) as [Hm Hr].
    assert (rc_seq r ≠ W + 1 - cap); [|lia]. intros E'. apply Hne. rewrite <- Hm, E'. unfold k.
    rewrite <- (Z_mod_plus_full (W + 1 - cap) 1 cap). f_equal. lia. }
  split; [|done]. split.
  - apply (header_is_agree m); [|apply D]. intros x Hx. apply Hout. rlia.
  - unfold apply_bits. by rewrite length_insert.
  - lia.
  - intros j r Hj E. destruct (decide (j = k)) as [->|Hne]; [rewrite Hk in E; injection E as <-; cbn; split; [done|lia]|].
    rewrite Hoth in E by done. destruct (du_place _ _ _ D j r Hj E) as [? _]. specialize (Hrange j r Hj Hne E). lia.
  - intros r (j & Hj & E) Hn. unfold apply_bits. destruct (decide (j = k)) as [->|Hne].
    { rewrite Hk in E. injection E as <-. cbn [rc_index rc_op]. rewrite list_lookup_insert_eq by lia. done. }
    rewrite Hoth in E by done. pose proof (Hrange j r Hj Hne E) as Hr.
    assert (rc_index r ≠ index) as Hne'. { intros E'. specialize (Hn _ Hin). cbn in Hn. specialize (Hn (eq_sym E')). lia. }
    pose proof (vrec_range _ _ _ _ E) as Hri.
    rewrite list_lookup_insert_ne by lia. apply (du_newest _ _ _ D); [by exists j|].
    intros r' (j' & Hj' & E') Hi. destruct (decide (j' = k)) as [Hjk|Hnk].
    + destruct (du_place _ _ _ D j' r' Hj' E') as [Hm Hr'].
      rewrite Hjk in Hm. rewrite (mod_window (rc_seq r') W cap) by (done || lia). lia.
    + apply Hn; [|done]. exists j'. split; [done|]. by rewrite Hoth.
  - intros i Hi. destruct (decide (i = index)) as [->|Hne].
    + right. eexists. split; [exact Hin|]. rewrite Ea', Ea. cbn. split; [done|lia].
    + left. unfold apply_bits. rewrite list_lookup_insert_ne by lia. rewrite (cpp_bit_test_agree m m'); [by apply Hbits|done|].
      intros x Hx. apply Hout. rlia.
  - intros j Hj Hok. destruct (slot_ok_record m m' (slot j)) as [E1 E2].
    { apply slots_agree; [done|]. intros x Hx. apply Hout. rlia. }
    rewrite E1 in Hok. rewrite E2. pose proof (du_slots _ _ _ D j Hj Hok). lia.
  - right. by eexists.
  - left. rewrite <- Hclean. apply load64_agree. intros x Hx. apply Hout. unfold off_clean in *. rlia.
Qed.

(** Bits with a record beyond the watermark may have any value. *)
Lemma bitmap_any m m' W F : durable m W F → load64 m off_clean = 0 →
  (∀ x, ¬ range (2 * ps) B x → load8 m' x = load8 m x) →
  (∀ i, 0 ≤ i < n → bit_test ps m' i = bit_test ps m i ∨ F !! Z.to_nat i = Some (bit_test ps m' i) ∨
     ∃ r, in_log m r ∧ rc_index r = i ∧ load_applied_seq m < rc_seq r) →
  durable m' W F ∧ load_applied_seq m' = load_applied_seq m ∧ load64 m' off_clean = 0 ∧ (∀ r, in_log m' r ↔ in_log m r).
Proof.
  intros D Hclean Hout Hb. pose proof geometry_bounds as Hg.
  assert (agree_on (range ps ps) m m') as Hw by (intros x Hx; apply Hout; rlia).
  assert (load_applied_seq m' = load_applied_seq m) as Ea by (apply applied_agree; intros x Hx; apply Hout; rlia).
  assert (load64 m' off_clean = 0) as Hclean'.
  { rewrite <- Hclean. apply load64_agree. intros x Hx. apply Hout. unfold off_clean in *. rlia. }
  assert (∀ r, in_log m' r ↔ in_log m r) as Hl by (intros r; by apply in_log_agree).
  split; [|done]. split; [|apply D|apply D|..].
  - apply (header_is_agree m); [|apply D]. intros x Hx. apply Hout. rlia.
  - intros k r Hk. rewrite (vrec_agree m m') by done. by apply D.
  - intros r Hr Hn. apply (du_newest _ _ _ D); [by apply Hl|]. intros r' Hr'. apply Hn. by apply Hl.
  - intros i Hi. setoid_rewrite Hl. rewrite Ea. destruct (Hb i Hi) as [E|[E|H]]; [|by left|by right].
    rewrite E. by apply D.
  - intros j Hj. destruct (slot_ok_record m m' (slot j)) as [-> ->]; [|by apply D].
    apply slots_agree; [done|]. intros x Hx. apply Hout. rlia.
  - setoid_rewrite Hl. rewrite Ea. apply D.
  - by left.
Qed.

(** With the bitmap up to date and the record of [W] in the log the meta slots
    may hold anything up to [W]. *)
Lemma slots_any m m' W F : durable m W F → load64 m off_clean = 0 → bits_are m F → (∃ r, in_log m r ∧ rc_seq r = W) →
  (∀ x, ¬ range 40 48 x → load8 m' x = load8 m x) →
  (∀ j, j = 0 ∨ j = 1 → slot_ok m' (slot j) = true → s_seq m' (slot j) ≤ W) →
  durable m' W F ∧ bits_are m' F ∧ load64 m' off_clean = 0.
Proof.
  intros D Hclean Hbits Hrec Hout Hs. pose proof geometry_bounds as Hg.
  assert (agree_on (range ps ps) m m') as Hw by (intros x Hx; apply Hout; rlia).
  assert (load64 m' off_clean = 0) as Hclean'.
  { rewrite <- Hclean. apply load64_agree. intros x Hx. apply Hout. unfold off_clean in *. rlia. }
  assert (bits_are m' F) as Hb' by (apply (bits_are_agree m); [|done]; intros x Hx; apply Hout; rlia).
  assert (∀ r, in_log m' r ↔ in_log m r) as Hl by (intros r; by apply in_log_agree).
  split; [|done]. split; [|apply D|apply D|..].
  - apply (header_is_agree m); [|apply D]. intros x Hx. apply Hout. rlia.
  - intros k r Hk. rewrite (vrec_agree m m') by done. by apply D.
  - intros r Hr Hn. apply (du_newest _ _ _ D); [by apply Hl|]. intros r' Hr'. apply Hn. by apply Hl.
  - intros i Hi. left. by apply Hb'.
  - done.
  - right. by setoid_rewrite Hl.
  - by left.
Qed.

(** The mark of a clean shutdown may have any value when all is up to date. *)
Lemma mark_any m m' W F : current m W F → (∀ x, ¬ range off_clean 8 x → load8 m' x = load8 m x) → current m' W F.
Proof.
  intros (D & Ea & Hbits) Hout. pose proof geometry_bounds as Hg. unfold off_clean in *.
  assert (agree_on (range ps ps) m m') as Hw by (intros x Hx; apply Hout; rlia).
  assert (load_applied_seq m' = W) as Ea' by (rewrite <- Ea; apply applied_agree; intros x Hx; apply Hout; rlia).
  assert (bits_are m' F) as Hb' by (apply (bits_are_agree m); [|done]; intros x Hx; apply Hout; rlia).
  assert (∀ r, in_log m' r ↔ in_log m r) as Hl by (intros r; by apply in_log_agree).
  split; [|done]. split; [|apply D|apply D|..].
  - apply (header_is_agree m); [|apply D]. intros x Hx. apply Hout. rlia.
  - intros k r Hk. rewrite (vrec_agree m m') by done. by apply D.
  - intros r Hr Hn. apply (du_newest _ _ _ D); [by apply Hl|]. intros r' Hr'. apply Hn. by apply Hl.
  - intros i Hi. left. by apply Hb'.
  - intros j Hj. destruct (slot_ok_record m m' (slot j)) as [-> ->]; [|by apply D].
    apply slots_agree; [done|]. intros x Hx. apply Hout. rlia.
  - by left.
  - by right.
Qed.
End file.
