(* ===== verification/CppPoolPhases.v ===== *)
(** * The C++ persistent pool: commits, recovery and opening

    The stores and syncs of each step of the code, and that [durable] holds
    wherever a crash interrupts them. *)

From stdpp Require Import sorting.
From S2P Require Import Prelude Memory Platform PersistentPool PoolTrace PoolProofs PoolSpec Cpp CppPool CppPoolProofs.
Import PersistentPoolCpp.

#[local] Opaque fnv1a PersistentPool.fnv1a tear_detected rec_valid.

(** ** One byte of the bitmap *)

Lemma stored_byte a v x : stored [EvStore a [v]] x = if decide (x = a) then [wrap8 v] else [].
Proof.
  cbn [stored omap list_omap]. unfold hit. case_decide as E.
  - subst. rewrite (proj2 (Z.leb_le _ _)), Z.sub_diag by lia. done.
  - destruct (Z.leb_spec a x); [|done]. destruct (Z.to_nat (x - a)) as [|k] eqn:Ek; [lia|done].
Qed.

Section bitmap.
Context (ps n B : Z) (G : geometry ps n B).

Abbreviation byte_of i := (bitmap_ ps + i / 8) (only parsing).

Lemma apply_ext w op index : 0 ≤ index → ∃ v, w_ext w (apply ps w op index) [EvStore (byte_of index) [v]] ∧
  ∀ k, 0 ≤ k < 8 → Z.testbit (wrap8 v) k = if k =? index mod 8 then op =? op_Alloc else Z.testbit (load8 (w_file w) (byte_of index)) k.
Proof.
  intros Hi. pose proof (Z.mod_pos_bound index 8 ltac:(lia)). unfold apply.
  destruct (op =? op_Alloc); (eexists; split; [apply put_ext|]); intros k Hk.
  - rewrite set_bit_byte by lia. by destruct (k =? index mod 8).
  - rewrite clear_bit_byte by lia. by destruct (k =? index mod 8).
Qed.

(** The replay of a list of records. *)
Definition apply_all (w : world) (l : list record) : world := foldl (λ w r, apply ps w (rc_op r) (rc_index r)) w l.

(** What the records of [l] make of bit [i]. *)
Definition bit_after (i : Z) (l : list record) (b : bool) : bool :=
  foldl (λ b r, if rc_index r =? i then rc_op r =? op_Alloc else b) b l.

Lemma apply_all_ext l : ∀ w, Forall (λ r, 0 ≤ rc_index r < n) l →
  ∃ tr, w_ext w (apply_all w l) tr ∧
    (∀ x, stored tr x ≠ [] → ∃ r, r ∈ l ∧ x = byte_of (rc_index r)) ∧
    (∀ i, 0 ≤ i < n → bit_test ps (run (w_file w) tr) i = bit_after i l (bit_test ps (w_file w) i)) ∧
    (∀ i v, 0 ≤ i < n → Forall (λ r, rc_index r ≠ i) l → v ∈ stored tr (byte_of i) → Z.testbit v (i mod 8) = bit_test ps (w_file w) i).
Proof.
  induction l as [|r l IH]; intros w Hl.
  { exists []. split; [apply w_ext_refl|]. split_and!; [by intros|by intros|]. intros i v _ _ Hv. by apply not_elem_of_nil in Hv. }
  apply Forall_cons in Hl as [Hr Hl]. destruct (apply_ext w (rc_op r) (rc_index r) ltac:(lia)) as (v & Hv & Hbits).
  set (w1 := apply ps w (rc_op r) (rc_index r)) in *.
  assert (∀ i, 0 ≤ i < n → bit_test ps (w_file w1) i = if rc_index r =? i then rc_op r =? op_Alloc else bit_test ps (w_file w) i) as H1.
  { intros i Hi. destruct Hv as [Hf _]. rewrite !bit_test_at, Hf, run_stored, stored_byte.
    pose proof (Z.mod_pos_bound i 8 ltac:(lia)). pose proof (Z.div_mod i 8 ltac:(lia)). pose proof (Z.div_mod (rc_index r) 8 ltac:(lia)).
    case_decide as E; cbn [last default].
    - rewrite Hbits by lia. destruct (Z.eqb_spec (rc_index r) i) as [Ei|Hne]; [by rewrite Ei, Z.eqb_refl|].
      rewrite (proj2 (Z.eqb_neq _ _)) by lia. by rewrite E.
    - destruct (Z.eqb_spec (rc_index r) i) as [Ei|Hne]; [by rewrite Ei in E|done]. }
  destruct (IH w1 Hl) as (tr & Hext & Hst & Hb & Hv').
  assert (run (w_file w) [EvStore (byte_of (rc_index r)) [v]] = w_file w1) as Ef by (symmetry; apply Hv).
  exists ([EvStore (byte_of (rc_index r)) [v]] ++ tr). split_and!.
  - by apply (w_ext_trans _ w1).
  - intros x. rewrite stored_app, stored_byte. case_decide as E; [intros _; exists r; split; [by left|done]|].
    cbn [app]. intros Hx. destruct (Hst x Hx) as (r' & Hr' & ->). exists r'. split; [by right|done].
  - intros i Hi. rewrite run_app, Ef, Hb, H1 by done. done.
  - intros i u Hi [Hne Hl']%Forall_cons. rewrite stored_app, elem_of_app, stored_byte. intros [Hu|Hu].
    + case_decide as E; [|by apply not_elem_of_nil in Hu]. apply list_elem_of_singleton in Hu as ->.
      pose proof (Z.mod_pos_bound i 8 ltac:(lia)). rewrite Hbits by lia.
      pose proof (Z.div_mod i 8 ltac:(lia)). pose proof (Z.div_mod (rc_index r) 8 ltac:(lia)).
      rewrite (proj2 (Z.eqb_neq _ _)) by lia. by rewrite bit_test_at, E.
    + rewrite (Hv' i u) by done. rewrite H1 by done. by rewrite (proj2 (Z.eqb_neq _ _)).
Qed.

(** In order of their numbers, the newest record of a block decides. *)
Lemma bit_after_newest i l b : StronglySorted by_seq l →
  (bit_after i l b = b ∧ Forall (λ r, rc_index r ≠ i) l) ∨
  ∃ r, r ∈ l ∧ rc_index r = i ∧ bit_after i l b = (rc_op r =? op_Alloc) ∧
    ∀ r', r' ∈ l → rc_index r' = i → rc_seq r' ≤ rc_seq r.
Proof.
  induction l as [|r l IH] using rev_ind; intros Hs; [by left|].
  assert (StronglySorted by_seq l ∧ ∀ r', r' ∈ l → rc_seq r' ≤ rc_seq r) as [Hs' Hle].
  { clear IH. induction l as [|a l IHl]; [split; [constructor|]; intros r' Hr'; by apply not_elem_of_nil in Hr'|].
    cbn [app] in Hs. apply StronglySorted_inv in Hs as [Hs Ha]. destruct (IHl Hs) as [H1 H2]. rewrite Forall_app in Ha.
    destruct Ha as [Ha1 [Ha2 _]%Forall_cons]. split; [by constructor|].
    intros r' [->|Hr']%elem_of_cons; [exact Ha2|auto]. }
  unfold bit_after. rewrite foldl_app. cbn [foldl]. fold (bit_after i l b).
  destruct (Z.eqb_spec (rc_index r) i) as [E|E].
  - right. exists r. split; [apply elem_of_app; right; by left|]. split_and!; try done.
    intros r' [Hr'|Hr']%elem_of_app _; [by apply Hle|]. apply list_elem_of_singleton in Hr' as ->. lia.
  - destruct (IH Hs') as [[H1 H2]|(r0 & H1 & H2 & H3 & H4)].
    + left. split; [done|]. apply Forall_app. split; [done|]. by apply Forall_singleton.
    + right. exists r0. split; [apply elem_of_app; by left|]. split_and!; try done.
      intros r' [Hr'|Hr']%elem_of_app Hi; [by apply H4|]. apply list_elem_of_singleton in Hr' as ->. done.
Qed.
End bitmap.

(** ** The phases of a commit and of recovery *)

Section phases.
Context (ps n bs B : Z) (G : geometry ps n B) (msync : Z → Z → bool) (Hms : ∀ a len, msync a len = true).

Abbreviation durable := (durable ps n bs B).
Abbreviation live := (live ps n bs B).
Abbreviation in_log := (in_log ps n).
Abbreviation bits_are := (bits_are ps n).
Abbreviation cap := (cap ps).
Abbreviation wal_at := (wal_at ps).

Lemma cpp_wal_append_ext p w seq op index : wal_capacity_ p = cap → 0 ≤ index < 2 ^ 32 → let a := wal_at (seq mod cap) in
  ∃ t, w_ext w (wal_append ps msync p w seq op index) t ∧ settled (w_file w) t ∧ once t ∧
    (∀ x, ¬ range a 32 x → stored t x = []) ∧ view (run (w_file w) t) a = wal_record seq index op.
Proof.
  intros Hcap Hi a. pose proof (geometry_bounds ps n B G) as Hg.
  pose proof (wal_at_range ps n B G (seq mod cap) (Z.mod_pos_bound seq cap ltac:(lia))) as Ha. fold a in Ha.
  set (tr := chunks a (rec_bytes seq op index)). set (w1 := World (run (w_file w) tr) (w_trace w ++ tr)).
  assert (∀ x, ¬ range a 32 x → stored tr x = []) as Hst.
  { intros x Hx. apply stored_chunks_out. by rewrite length_rec_bytes. }
  destruct (sync_full_settles ps msync (gm_page _ _ _ G) Hms p w w1 tr a 32) as (ts & Hs & Hext); [done|lia..| |].
  { intros x Hx. destruct (decide (range a 32 x)); [done|]. by rewrite Hst in Hx. }
  exists (tr ++ ts). split_and!.
  - assert (wal_append ps msync p w seq op index = if_full p (sync_range ps msync w1 a 32).1) as ->; [|done].
    unfold wal_append, rec_at, wal_. rewrite Hcap. fold (wal_at (seq mod cap)). fold a.
    unfold w1, tr, rec_bytes. generalize (rec_crc seq op index). intros c. cbn [chunks]. rewrite !length_le_bytes.
    replace (a + Z.of_nat 8 + Z.of_nat 4 + Z.of_nat 4 + Z.of_nat 8) with (a + 24) by lia.
    replace (a + Z.of_nat 8 + Z.of_nat 4 + Z.of_nat 4) with (a + 16) by lia.
    replace (a + Z.of_nat 8 + Z.of_nat 4) with (a + 12) by lia. change (Z.of_nat 8) with 8.
    unfold put. cbn [w_file w_trace run foldl run_event]. by rewrite <- !app_assoc.
  - apply Hs.
  - apply (settles_once _ _ _ Hs), once_chunks.
  - intros x Hx. rewrite (settles_stored _ _ _ _ Hs). by apply Hst.
  - rewrite (settles_run _ _ _ _ Hs). by apply view_written.
Qed.

Lemma cpp_log_phase p w W F op index : wal_capacity_ p = cap → live (w_file w) W F → W + 1 < 2 ^ 64 →
  0 ≤ op < 2 ^ 32 → 0 ≤ index < n →
  ∃ t, w_ext w (wal_append ps msync p w (W + 1) op index) t ∧ settled (w_file w) t ∧
    (∀ x, ¬ range ps ps x → stored t x = []) ∧
    durable (run (w_file w) t) (W + 1) (apply_bits op index F) ∧ in_log (run (w_file w) t) (Rec (W + 1) op index) ∧
    (∀ t' m', t' `prefix_of` t → crash (w_file w) t' m' →
       tear_detected (view (w_file w) (wal_at ((W + 1) mod cap))) (wal_record (W + 1) index op) = true →
       durable m' W F ∨ durable m' (W + 1) (apply_bits op index F)).
Proof.
  intros Hcap Hl HW Hop Hi. pose proof (geometry_bounds ps n B G) as Hg. pose proof (gm_count _ _ _ G).
  destruct (cpp_wal_append_ext p w (W + 1) op index Hcap ltac:(lia)) as (t & Hext & Hset & Ho & Hst & Hv).
  set (k := (W + 1) mod cap) in *. set (m := w_file w) in *.
  pose proof (wal_at_range ps n B G k (Z.mod_pos_bound (W + 1) cap ltac:(lia))) as Ha.
  destruct (log_there ps n bs B G m (run m t) W F op index Hl HW Hop Hi) as [D1 D2]; [|done|].
  { intros x Hx. by apply run_untouched, Hst. }
  exists t. split_and!; try done.
  { intros x Hx. apply Hst. rlia. }
  intros t' m' Hpre Hcr Htear. pose proof (λ x, crash_phase m t t' m' x Ho Hpre Hcr) as Hc.
  assert (∀ x, ¬ range (wal_at k) 32 x → load8 m' x = load8 m x) as Hout by (intros x Hx; by apply Hc, Hst).
  destruct (rec_valid (view m' (wal_at k))) eqn:Ev.
  2: { left. apply (log_lost ps n bs B G m); try done. left. unfold vrec. fold k. rewrite Ev. by rewrite andb_false_r. }
  destruct (view_torn m (run m t) m' (wal_at k)) as [E|E]; [by rewrite Hv|intros x _; apply Hc|done|..].
  - left. apply (log_lost ps n bs B G m); try done. right. by apply vrec_view.
  - right. apply (log_there ps n bs B G m); try done. fold k. by rewrite E.
Qed.

(** A crash leaves bytes that were there or were stored. *)
Lemma crash_stored m tr tr' m' x : tr' `prefix_of` tr → crash m tr' m' →
  load8 m' x = load8 m x ∨ load8 m' x ∈ stored tr x.
Proof.
  intros [t2 ->] Hc. specialize (Hc x). apply cands_sub in Hc as [E|E]; [by left|right].
  rewrite stored_app, elem_of_app. by left.
Qed.

(** A record that recovery would replay. *)
Definition due (m : mem) (r : record) : Prop := in_log m r ∧ load_applied_seq m < rc_seq r.

Lemma in_log_range m r : in_log m r → 0 ≤ rc_index r < n ∧ 0 < rc_seq r < 2 ^ 64.
Proof. intros (k & _ & E). by apply vrec_range in E. Qed.

Lemma cpp_bitmap_phase w W F l a len : durable (w_file w) W F → load64 (w_file w) off_clean = 0 →
  Forall (due (w_file w)) l → bitmap_ ps ≤ a → 0 ≤ len → a + len ≤ bitmap_ ps + B →
  (∀ r, r ∈ l → range a len (bitmap_ ps + rc_index r / 8)) →
  ∃ t, let m1 := run (w_file w) t in
    w_ext w (sync_range ps msync (apply_all ps w l) a len).1 t ∧ settled (w_file w) t ∧
    (∀ x, ¬ range (2 * ps) B x → stored t x = []) ∧ durable m1 W F ∧
    load_applied_seq m1 = load_applied_seq (w_file w) ∧ load64 m1 off_clean = 0 ∧ (∀ r, in_log m1 r ↔ in_log (w_file w) r) ∧
    (∀ i, 0 ≤ i < n → bit_test ps m1 i = bit_after i l (bit_test ps (w_file w) i)) ∧
    (∀ t' m', t' `prefix_of` t → crash (w_file w) t' m' → durable m' W F).
Proof.
  intros D Hclean Hdue Ha Hlen Hal Hcov. pose proof (geometry_bounds ps n B G) as Hg. pose proof (gm_bytes _ _ _ G).
  set (m := w_file w) in *. unfold bitmap_ in Ha, Hal.
  destruct (apply_all_ext ps n l w) as (tr & Hext & Hst & Hb & Hv).
  { eapply Forall_impl; [exact Hdue|]. intros r [Hr _]. apply (in_log_range m r Hr). }
  fold m in Hb, Hv.
  assert (∀ x, stored tr x ≠ [] → range a len x) as Hst'.
  { intros x Hx. destruct (Hst x Hx) as (r & Hr & ->). by apply Hcov. }
  assert (∀ x, ¬ range (2 * ps) B x → stored tr x = []) as Hout.
  { intros x Hx. destruct (stored tr x) as [|v vs] eqn:E; [done|]. destruct Hx. specialize (Hst' x). rewrite E in Hst'.
    specialize (Hst' ltac:(done)). rlia. }
  destruct (sync_settles ps msync (gm_page _ _ _ G) Hms w (apply_all ps w l) tr a len Hext) as (ts & Hs & Hext2); [lia..|done|].
  pose proof (settles_run _ _ _ m Hs) as Erun. pose proof (λ x, settles_stored _ _ _ x Hs) as Est.
  assert (∀ m', (∀ x, load8 m' x = load8 m x ∨ load8 m' x ∈ stored tr x) →
    durable m' W F ∧ load_applied_seq m' = load_applied_seq m ∧ load64 m' off_clean = 0 ∧ (∀ r, in_log m' r ↔ in_log m r)) as Hany.
  { intros m' Hx. apply (bitmap_any ps n bs B G m); [done..| |].
    - intros x Hr. destruct (Hx x) as [E|E]; [done|]. rewrite Hout in E by done. by apply not_elem_of_nil in E.
    - intros i Hi. destruct (decide (Forall (λ r, rc_index r ≠ i) l)) as [Hno|Hyes].
      + left. rewrite (bit_test_at ps m'). destruct (Hx (bitmap_ ps + i / 8)) as [E|E]; [rewrite E; by rewrite <- bit_test_at|by apply Hv].
      + right. right. apply not_Forall_Exists in Hyes; [|apply _]. apply Exists_exists in Hyes as (r & Hr & Ei).
        apply dec_stable in Ei. rewrite Forall_forall in Hdue. destruct (Hdue r Hr). by exists r. }
  exists (tr ++ ts). cbn zeta. rewrite Erun.
  destruct (Hany (run m tr)) as (D1 & D2 & D3 & D4).
  { intros x. rewrite run_stored. destruct (last (stored tr x)) as [v|] eqn:E; [right|by left]. cbn. by apply last_Some_elem_of. }
  split_and!; try done.
  - apply Hs.
  - intros x Hx. rewrite Est. by apply Hout.
  - intros t' m' Hpre Hcr. apply Hany. intros x. rewrite <- Est. by apply (crash_stored m _ t').
Qed.

(** ** The meta slot *)

(** The generations have not run out. *)
Definition gens_ok (m : mem) : Prop := Z.max (s_gen m (slot 0)) (s_gen m (slot 1)) + 1 < 2 ^ 64.

Definition meta_tear (m : mem) (W : Z) : bool :=
  tear_detected (record_at m (slot (next_gen m mod 2))) (make_slot W (next_gen m)).

Lemma cpp_meta_commit_ext p w seq : let g := next_gen (w_file w) in let a := slot (g mod 2) in
  ∃ t, w_ext w (meta_commit ps msync p w seq) t ∧ settled (w_file w) t ∧ once t ∧
    (∀ x, ¬ range a 24 x → stored t x = []) ∧ record_at (run (w_file w) t) a = make_slot seq g.
Proof.
  intros g a. pose proof (geometry_bounds ps n B G) as Hg. pose proof (Z.mod_pos_bound g 2 ltac:(lia)).
  set (tr := chunks a [make_slot seq g]).
  assert (length (mjoin [make_slot seq g]) = 24%nat) as Hlen.
  { cbn [mjoin list_join]. unfold make_slot. by rewrite !length_app, !length_le_bytes. }
  assert (∀ x, ¬ range a 24 x → stored tr x = []) as Hst.
  { intros x Hx. apply stored_chunks_out. by rewrite Hlen. }
  assert (w_ext w (put w a (make_slot seq g)) tr) as Hw by apply put_ext.
  destruct (sync_full_settles ps msync (gm_page _ _ _ G) Hms p w _ tr 0 sizeof_FileHeader Hw) as (ts & Hs & Hext);
    [unfold sizeof_FileHeader; lia..| |].
  { intros x Hx. destruct (decide (range a 24 x)); [unfold a, slot, sizeof_FileHeader in *; rlia|]. by rewrite Hst in Hx. }
  exists (tr ++ ts). split_and!.
  - done.
  - apply Hs.
  - apply (settles_once _ _ _ Hs), once_chunks.
  - intros x Hx. rewrite (settles_stored _ _ _ _ Hs). by apply Hst.
  - rewrite (settles_run _ _ _ _ Hs). unfold record_at, tr. rewrite load_bytes_run_chunks; [|clear Hlen|done].
    + cbn [mjoin list_join]. by rewrite app_nil_r.
    + cbn [mjoin list_join]. unfold make_slot. rewrite !Forall_app. split_and!; try apply le_bytes_byte. constructor.
Qed.

Lemma cpp_meta_phase p w W F : durable (w_file w) W F → load64 (w_file w) off_clean = 0 → bits_are (w_file w) F →
  (∃ r, in_log (w_file w) r ∧ rc_seq r = W) → gens_ok (w_file w) →
  ∃ t, w_ext w (meta_commit ps msync p w W) t ∧ settled (w_file w) t ∧ (∀ x, ¬ range 40 48 x → stored t x = []) ∧
    live (run (w_file w) t) W F ∧
    (∀ t' m', t' `prefix_of` t → crash (w_file w) t' m' → meta_tear (w_file w) W = true → durable m' W F).
Proof.
  intros D Hclean Hbits Hrec Hgen. destruct (cpp_meta_commit_ext p w W) as (t & Hext & Hset & Ho & Hst & Hr).
  set (m := w_file w) in *. set (g := next_gen m) in *.
  pose proof (load64_range m (slot 0 + 8)) as Hg0. pose proof (load64_range m (slot 1 + 8)) as Hg1. unfold gens_ok, s_gen in Hgen.
  assert (g = Z.max (s_gen m (slot 0)) (s_gen m (slot 1)) + 1) as Eg.
  { unfold g, next_gen, s_gen. rewrite wrap64_small; [done|]. unfold is_u64 in *. lia. }
  assert (0 < g < 2 ^ 64) as Hgr by (rewrite Eg; unfold s_gen, is_u64 in *; lia).
  assert (0 ≤ W < 2 ^ 64) as HW.
  { destruct Hrec as (r & Hr' & <-). apply in_log_range in Hr'. lia. }
  destruct (meta_record_spec W g ltac:(unfold is_u64; lia)) as (_ & Mv & Ms). rewrite <- make_slot_eq in Mv, Ms.
  set (j := g mod 2) in *. assert (j = 0 ∨ j = 1) as Hj by (pose proof (Z.mod_pos_bound g 2 ltac:(lia)); fold j in H; lia).
  assert (∀ x, range (slot j) 24 x → range 40 48 x) as Hjr by (unfold slot; intros x; destruct Hj as [-> | ->]; rlia).
  assert (∀ x, ¬ range 40 48 x → stored t x = []) as Hst' by (intros x Hx; apply Hst; auto).
  assert (∀ m' i, (∀ x, ¬ range (slot j) 24 x → load8 m' x = load8 m x) → i = 0 ∨ i = 1 → i ≠ j →
    record_at m' (slot i) = record_at m (slot i)) as Hother.
  { intros m' i Hx Hi Hne. apply record_agree. intros x Hr'. apply Hx. unfold slot in *.
    destruct Hj as [-> | ->], Hi as [-> | ->]; done || rlia. }
  assert (∀ m', (∀ x, ¬ range (slot j) 24 x → load8 m' x = load8 m x) →
    (slot_ok m' (slot j) = true → s_seq m' (slot j) ≤ W) → durable m' W F ∧ bits_are m' F ∧ load64 m' off_clean = 0) as Hany.
  { intros m' Hx Hs. apply (slots_any ps n bs B G m); [done..| |]; [intros x Hr'; apply Hx; auto|].
    intros i Hi. destruct (decide (i = j)) as [->|Hne]; [done|].
    destruct (slot_ok_record m m' (slot i)) as [-> ->]; [by apply Hother|]. by apply D. }
  exists t. split_and!; try done.
  - assert (∀ x, ¬ range (slot j) 24 x → load8 (run m t) x = load8 m x) as Hx by (intros x Hx; by apply run_untouched, Hst).
    destruct (Hany (run m t) Hx) as (D1 & D2 & D3); [intros _; rewrite slot_seq, Hr, Ms; lia|].
    split; [|done]. split; [done|]. split; [|done].
    rewrite (applied_newest _ j Hj); [by rewrite slot_seq, Hr|..].
    + unfold slot_ok. rewrite slot_gen, Hr, Mv, make_slot_eq, meta_record_gen by (unfold is_u64; lia).
      by rewrite (proj2 (Z.eqb_neq _ _)) by lia.
    + rewrite (slot_gen _ (slot j)), Hr, make_slot_eq, meta_record_gen by (unfold is_u64; lia).
      rewrite slot_gen, (Hother (run m t)), <- slot_gen by (done || lia).
      rewrite Eg. destruct Hj as [-> | ->]; [change (1 - 0) with 1|change (1 - 1) with 0]; lia.
  - intros t' m' Hpre Hcr Htear. pose proof (λ x, crash_phase m t t' m' x Ho Hpre Hcr) as Hc.
    apply Hany; [intros x Hx; by apply Hc, Hst|]. intros Hok.
    assert (rec_valid (record_at m' (slot j)) = true) as Hv by (by apply andb_true_iff in Hok as [_ ?]).
    destruct (record_torn m (run m t) m' (slot j)) as [E|E]; [rewrite Hr; exact Htear|intros x _; apply Hc|done|..].
    + destruct (slot_ok_record m m' (slot j) E) as [E1 ->]. rewrite E1 in Hok. by apply D.
    + rewrite slot_seq, E, Hr, Ms. lia.
Qed.

Lemma slots_same m m' : agree_on (range 40 48) m m' →
  (gens_ok m → gens_ok m') ∧ ∀ W, meta_tear m' W = meta_tear m W.
Proof.
  intros H. assert (∀ j, j = 0 ∨ j = 1 → record_at m' (slot j) = record_at m (slot j)) as E by (intros j Hj; by apply slots_agree).
  assert (next_gen m' = next_gen m) as En by (unfold next_gen; rewrite !slot_gen, !E by auto; done).
  split; [unfold gens_ok; by rewrite !slot_gen, !E by auto|]. intros W. unfold meta_tear. rewrite En, E; [done|].
  pose proof (Z.mod_pos_bound (next_gen m) 2 ltac:(lia)). lia.
Qed.

(** ** A commit *)

Lemma cpp_commit_spec p w W F op index : wal_capacity_ p = cap → next_seq_ p = W + 1 → live (w_file w) W F → W + 2 < 2 ^ 64 →
  gens_ok (w_file w) → 0 ≤ op < 2 ^ 32 → 0 ≤ index < n →
  ∃ w' t1 t2, commit ps msync p w op index = (set_next_seq (W + 2) p, w') ∧ w_ext w w' (t1 ++ t2) ∧
    t2 ≠ [] ∧ settled (w_file w) (t1 ++ t2) ∧ (∀ x, 2 * ps + B ≤ x → stored (t1 ++ t2) x = []) ∧
    live (w_file w') (W + 1) (apply_bits op index F) ∧
    (∀ t' m', t' `prefix_of` t1 ++ t2 → crash (w_file w) t' m' →
       tear_detected (view (w_file w) (wal_at ((W + 1) mod cap))) (wal_record (W + 1) index op) = true →
       meta_tear (w_file w) (W + 1) = true →
       durable m' W F ∧ t' `prefix_of` t1 ∨ durable m' (W + 1) (apply_bits op index F)).
Proof.
  intros Hcap Hseq Hl HW Hgen Hop Hi. pose proof (geometry_bounds ps n B G) as Hg. pose proof (gm_count _ _ _ G).
  pose proof Hl as ((D & Ea & Hbits) & Hclean). pose proof (du_W _ _ _ _ _ _ _ D) as HW0. pose proof (gm_bytes _ _ _ G).
  pose proof (bit_at_range ps n B G index Hi) as Hby. unfold bitmap_ in Hby.
  assert (∃ p1, p1 = set_next_seq (W + 2) p) as [p1 Ep1] by eauto.
  destruct (cpp_log_phase p1 w W F op index) as (t1 & [Hf1 Ht1] & Hs1 & Hst1 & D1 & Hin & Hcr1); [by rewrite Ep1|done|lia..|].
  unfold commit. rewrite Hseq. replace (W + 1 + 1) with (W + 2) by lia. rewrite wrap64_small, <- Ep1 by ulia.
  assert (wrap32 index = index) as -> by (apply Z.mod_small; lia).
  set (F' := apply_bits op index F) in *. set (m := w_file w) in *.
  set (w1 := wal_append ps msync p1 w (W + 1) op index) in *. rewrite <- Hf1 in D1, Hin.
  assert (∀ x, ¬ range ps ps x → load8 (w_file w1) x = load8 m x) as Hag1 by (intros x Hx; rewrite Hf1; by apply run_untouched, Hst1).
  assert (load_applied_seq (w_file w1) = W) as Ea1 by (rewrite <- Ea; apply applied_agree; intros x Hx; apply Hag1; rlia).
  assert (load64 (w_file w1) off_clean = 0) as Hc1.
  { rewrite <- Hclean. apply load64_agree. intros x Hx. apply Hag1. unfold off_clean in *. rlia. }
  set (r := Rec (W + 1) op index) in *.
  destruct (cpp_bitmap_phase w1 (W + 1) F' [r] (bitmap_ ps + index / 8) 1 D1 Hc1)
    as (t2 & [Hf2 Ht2] & Hs2 & Hst2 & D2 & Ea2 & Hc2 & Hl2 & Hb2 & Hcr2).
  { apply Forall_singleton. split; [done|]. rewrite Ea1. cbn. lia. }
  { unfold bitmap_. lia. }
  { lia. }
  { unfold bitmap_. lia. }
  { intros r' Hr'. apply list_elem_of_singleton in Hr' as ->. cbn. rlia. }
  change (apply_all ps w1 [r]) with (apply ps w1 op index) in *.
  set (w2 := (sync_range ps msync (apply ps w1 op index) (bitmap_ ps + index / 8) 1).1) in *. rewrite <- Hf2 in D2, Hc2, Hl2, Hb2.
  assert (∀ x, range 0 ps x → load8 (w_file w2) x = load8 m x) as Hag2.
  { intros x Hx. rewrite <- Hag1, Hf2 by rlia. apply run_untouched, Hst2. rlia. }
  assert (bits_are (w_file w2) F') as Hbits2.
  { intros i Hi'. rewrite Hb2 by done. cbn [bit_after foldl rc_index rc_op r]. unfold F', apply_bits.
    pose proof (du_length _ _ _ _ _ _ _ D). destruct (Z.eqb_spec index i) as [->|Hne]; [by rewrite list_lookup_insert_eq by lia|].
    rewrite list_lookup_insert_ne by lia. rewrite (Hbits i Hi'). f_equal. symmetry. apply (cpp_bit_test_agree ps n B G m _ i Hi').
    intros x Hx. apply Hag1. rlia. }
  destruct (slots_same m (w_file w2)) as [Hg2 Ht]; [intros x Hx; apply Hag2; rlia|].
  destruct (cpp_meta_phase p1 w2 (W + 1) F' D2 Hc2 Hbits2) as (t3 & [Hf3 Ht3] & Hs3 & Hst3 & L3 & Hcr3); [|by apply Hg2|].
  { exists r. split; [|done]. by apply Hl2. }
  set (w3 := meta_commit ps msync p1 w2 (W + 1)) in *. rewrite <- Hf3 in L3.
  exists w3, t1, (t2 ++ t3). split_and!.
  - done.
  - split; [by rewrite Hf3, Hf2, Hf1, !run_app|]. by rewrite Ht3, Ht2, Ht1, !app_assoc.
  - intros [_ E3]%app_nil. rewrite E3 in Hf3. cbn in Hf3. rewrite Hf3 in L3. destruct L3 as [(_ & L3 & _) _].
    rewrite Hf2, Ea2 in L3. lia.
  - apply settled_app; [done|]. rewrite <- Hf1. apply settled_app; [done|]. by rewrite <- Hf2.
  - intros x Hx. rewrite !stored_app, Hst1, Hst2, Hst3; [done|rlia..].
  - done.
  - intros t' m' Hpre Hcr T1 T2. apply prefix_app_cases in Hpre as [Hpre|(t4 & -> & Hpre)].
    { destruct (Hcr1 t' m' Hpre Hcr T1); [by left|by right]. }
    right. apply crash_app in Hcr; [|done]. rewrite <- Hf1 in Hcr.
    apply prefix_app_cases in Hpre as [Hpre|(t5 & -> & Hpre)]; [by apply (Hcr2 t4)|].
    apply crash_app in Hcr; [|done]. rewrite <- Hf2 in Hcr. apply (Hcr3 t5); [done..|]. rewrite Ht. exact T2.
Qed.

(** ** Recovery *)

Lemma pending_at_spec m applied a r : load64 m off_block_count = n →
  pending_at m applied a = Some r ↔ vrec n m a = Some r ∧ applied < rc_seq r.
Proof.
  intros Hn. assert (pending_at m applied a =
    match vrec n m a with Some r => if applied <? rc_seq r then Some r else None | None => None end) as ->.
  { unfold pending_at, vrec. rewrite view_valid, Hn, Z.geb_leb, (Z.leb_antisym applied), (Z.ltb_antisym n).
    destruct (r_seq m a =? 0), (r_crc m a =? _), (n <=? r_index m a); cbn [orb negb andb rc_seq]; try done;
      by destruct (applied <? r_seq m a). }
  destruct (vrec n m a) as [r'|]; [|split; [done|by intros [? _]]].
  destruct (Z.ltb_spec applied (rc_seq r')) as [Hlt|Hge]; (split; [intros [= <-]|intros [[= <-] ?]]); try done; lia.
Qed.

Lemma elem_of_pending p m r : wal_capacity_ p = cap → load64 m off_block_count = n →
  r ∈ pending ps p m (load_applied_seq m) ↔ due m r.
Proof.
  intros Hcap Hn. unfold pending, due, CppPoolProofs.in_log. rewrite list_elem_of_omap, Hcap. unfold wal_. split.
  - intros (k & Hk & E). apply elem_of_seqZ in Hk. apply pending_at_spec in E as [E Ha]; [|done]. split; [|done].
    exists k. split; [lia|done].
  - intros [(k & Hk & E) Ha]. exists k. split; [apply elem_of_seqZ; lia|]. by apply pending_at_spec.
Qed.

(** The fold of [recover] keeps the number of the last record. *)
Lemma recover_fold w applied l :
  foldl (λ wm r, (apply ps wm.1 (rc_op r) (rc_index r), rc_seq r)) (w, applied) l =
  (apply_all ps w l, default applied (rc_seq <$> last l)).
Proof.
  revert w applied. induction l as [|r l IH]; intros w applied; [done|]. cbn [foldl fst]. rewrite IH. f_equal.
  by destruct l as [|r' l]; [|rewrite last_cons_cons; destruct (last (r' :: l)) eqn:E; [|apply last_None in E]].
Qed.

Lemma last_by_seq l r : StronglySorted by_seq l → r ∈ l → ∃ r', last l = Some r' ∧ r' ∈ l ∧ rc_seq r ≤ rc_seq r'.
Proof.
  intros Hs Hr. destruct (last l) as [r'|] eqn:E; [|apply last_None in E as ->; by apply not_elem_of_nil in Hr].
  exists r'. split_and!; [done|by apply last_Some_elem_of|]. apply last_Some in E as [l' ->].
  apply elem_of_app in Hr as [Hr|Hr]; [|apply list_elem_of_singleton in Hr as ->; lia].
  clear -Hs Hr. induction l' as [|a l' IH]; [by apply not_elem_of_nil in Hr|]. cbn [app] in Hs.
  apply StronglySorted_inv in Hs as [Hs Ha]. apply elem_of_cons in Hr as [->|Hr]; [|auto].
  apply Forall_app in Ha as [_ [Ha _]%Forall_cons]. exact Ha.
Qed.

(** The records to replay, in order. *)
Definition todo (p : t) (m : mem) : list record := merge_sort by_seq (pending ps p m (load_applied_seq m)).

Lemma todo_spec p m : wal_capacity_ p = cap → load64 m off_block_count = n →
  (∀ r, r ∈ todo p m ↔ due m r) ∧ StronglySorted by_seq (todo p m).
Proof.
  intros Hcap Hn. split.
  - intros r. unfold todo. rewrite merge_sort_Permutation. by apply elem_of_pending.
  - apply StronglySorted_merge_sort; [intros a b c; unfold by_seq; lia|]. intros a b. unfold by_seq. lia.
Qed.

(** After the replay every bit is up to date. *)
Lemma replayed_bits p m W F : wal_capacity_ p = cap → durable m W F →
  ∀ i, 0 ≤ i < n → F !! Z.to_nat i = Some (bit_after i (todo p m) (bit_test ps m i)).
Proof.
  intros Hcap D i Hi. destruct (todo_spec p m Hcap) as [Hin Hs]; [apply D|].
  destruct (bit_after_newest i (todo p m) (bit_test ps m i) Hs) as [[-> Hno]|(r & Hr & Ei & -> & Hmax)].
  - destruct (du_bits _ _ _ _ _ _ _ D i Hi) as [?|(r & H1 & H2 & H3)]; [done|]. rewrite Forall_forall in Hno.
    by destruct (Hno r (proj2 (Hin r) (conj H1 H3))).
  - apply Hin in Hr as [Hr Ha]. rewrite <- Ei. apply (du_newest _ _ _ _ _ _ _ D r Hr). intros r' Hr' Ei'.
    destruct (Z.lt_ge_cases (load_applied_seq m) (rc_seq r')); [|lia]. apply Hmax; [by apply Hin|congruence].
Qed.

Lemma set_next_seq_id p x : next_seq_ p = x → set_next_seq x p = p.
Proof. intros <-. by destruct p. Qed.

(** There is nothing to replay and the watermark is up to date, or the last
    record to replay brings it up to date. *)
Lemma todo_last p m W F : wal_capacity_ p = cap → durable m W F →
  (todo p m = [] ∧ load_applied_seq m = W) ∨ ∃ r, last (todo p m) = Some r ∧ due m r ∧ rc_seq r = W.
Proof.
  intros Hcap D. destruct (todo_spec p m Hcap) as [Hin Hs]; [apply D|].
  pose proof (applied_le m W (du_W _ _ _ _ _ _ _ D) (du_slots _ _ _ _ _ _ _ D)) as Hle.
  destruct (last (todo p m)) as [r0|] eqn:Hlast.
  - right. exists r0. split; [done|]. assert (due m r0) as Hr0 by (by apply Hin, last_Some_elem_of). split; [done|].
    destruct Hr0 as [(k & Hk & Ek) Ha0]. destruct (du_place _ _ _ _ _ _ _ D k r0 Hk Ek) as [_ Hr0].
    destruct (du_mark _ _ _ _ _ _ _ D) as [Ea|(r & Hr & Er)]; [lia|].
    destruct (last_by_seq (todo p m) r Hs) as (r1 & E1 & _ & Hr1); [apply Hin; split; [done|lia]|].
    rewrite Hlast in E1. injection E1 as <-. lia.
  - left. apply last_None in Hlast. split; [done|]. destruct (du_mark _ _ _ _ _ _ _ D) as [?|(r & Hr & Er)]; [done|].
    destruct (Z.lt_ge_cases (load_applied_seq m) W) as [Hlt|Hge]; [|lia].
    exfalso. apply (not_elem_of_nil r). rewrite <- Hlast. apply Hin. split; [done|lia].
Qed.

Lemma recover_spec p w W F : wal_capacity_ p = cap → durable (w_file w) W F → load64 (w_file w) off_clean = 0 →
  next_seq_ p = load_applied_seq (w_file w) + 1 → W + 1 < 2 ^ 64 → gens_ok (w_file w) →
  ∃ w' k tr, recover ps msync p w (load_applied_seq (w_file w)) = (set_next_seq (W + 1) p, w', k) ∧ w_ext w w' tr ∧
    settled (w_file w) tr ∧ (∀ x, 2 * ps + B ≤ x → stored tr x = []) ∧ live (w_file w') W F ∧
    (∀ t' m', t' `prefix_of` tr → crash (w_file w) t' m' → meta_tear (w_file w) W = true → durable m' W F).
Proof.
  intros Hcap D Hclean Hseq HW Hgen. pose proof (geometry_bounds ps n B G) as Hg. pose proof (gm_bytes _ _ _ G).
  pose proof (du_header _ _ _ _ _ _ _ D) as (_ & _ & _ & Hn & HB). destruct (todo_spec p (w_file w) Hcap Hn) as [Hin Hs].
  pose proof (replayed_bits p (w_file w) W F Hcap D) as Hbits.
  unfold recover. fold (todo p (w_file w)). rewrite recover_fold.
  destruct (todo_last p (w_file w) W F Hcap D) as [[Etodo Ea]|(r0 & Hlast & [Hlog0 _] & ErW)].
  - rewrite Etodo in *. cbn. exists w, 0%nat, [].
    split_and!; [by rewrite set_next_seq_id by lia|apply w_ext_refl|apply settled_nil|done|exact (conj (conj D (conj Ea Hbits)) Hclean)|].
    intros t' m' Hpre Hcr _. apply prefix_nil_inv in Hpre as ->. apply (durable_ext ps n bs B G (w_file w)); [|done].
    intros x _. by apply crash_nil.
  - set (l := todo p (w_file w)) in *.
    destruct (cpp_bitmap_phase w W F l (bitmap_ ps) B D Hclean) as (t1 & [Hf1 Ht1] & Hs1 & Hst1 & D1 & Ea1 & Hc1 & Hl1 & Hb1 & Hcr1).
    { apply Forall_forall. intros r Hr. by apply Hin. }
    { lia. }
    { lia. }
    { lia. }
    { intros r Hr. apply Hin in Hr as [Hr _]. apply in_log_range in Hr as [Hr _]. pose proof (bit_at_range ps n B G _ Hr).
      unfold bitmap_ in *. rlia. }
    assert (load64 (w_file (apply_all ps w l)) off_bitmap_bytes = B) as EB.
    { destruct (sync_range_eq ps msync (gm_page _ _ _ G) Hms (apply_all ps w l) (bitmap_ ps) B) as (? & ? & _ & _ & E); [unfold bitmap_; lia..|].
      rewrite E in Hf1. cbn in Hf1. rewrite Hf1. apply D1. }
    set (w1 := (sync_range ps msync (apply_all ps w l) (bitmap_ ps) B).1) in *. rewrite <- Hf1 in D1, Ea1, Hc1, Hl1, Hb1.
    assert (agree_on (range 40 48) (w_file w) (w_file w1)) as Hag by (intros x Hx; rewrite Hf1; apply run_untouched, Hst1; rlia).
    destruct (slots_same _ _ Hag) as [Hg1 Htear].
    destruct (cpp_meta_phase p w1 W F D1 Hc1) as (t2 & [Hf2 Ht2] & Hs2 & Hst2 & L2 & Hcr2).
    { intros i Hi. rewrite Hb1 by done. by apply Hbits. }
    { exists r0. split; [by apply Hl1|done]. }
    { by apply Hg1. }
    set (w2 := meta_commit ps msync p w1 W) in *. rewrite <- Hf2 in L2.
    exists w2, (length l), (t1 ++ t2). split_and!.
    + rewrite Hlast. cbn [default fmap option_fmap option_map]. rewrite ErW. unfold id. destruct l; [done|].
      rewrite EB. fold w1. fold w2. by rewrite (wrap64_small (W + 1)) by (pose proof (du_W _ _ _ _ _ _ _ D); ulia).
    + split; [by rewrite Hf2, Hf1, run_app|by rewrite Ht2, Ht1, app_assoc].
    + apply settled_app; [done|]. by rewrite <- Hf1.
    + intros x Hx. rewrite stored_app, Hst1, Hst2; [done|rlia..].
    + done.
    + intros t' m' Hpre Hcr HT. apply prefix_app_cases in Hpre as [Hpre|(t3 & -> & Hpre)]; [by apply (Hcr1 t')|].
      apply crash_app in Hcr; [|done]. rewrite <- Hf1 in Hcr. apply (Hcr2 t3); [done..|]. rewrite Htear. exact HT.
Qed.
End phases.
