(* ===== verification/CppPoolSpec.v ===== *)
(** * The C++ persistent pool: sessions, crashes and claims

    Opening a file from which the bits [F] are to be had gives a pool with the
    bits [F]; every operation of the pool is an operation on the bits; and a
    crash in the middle leaves a file from which the bits before or after the
    operation are to be had. *)

From Stdlib Require Import String.
From stdpp Require Import sorting.
From S2P Require Import Prelude Memory Platform PersistentPool PoolTrace PoolProofs PoolSpec Cpp CppPool CppPoolProofs CppPoolPhases.
Import PersistentPoolCpp.

#[local] Opaque fnv1a PersistentPool.fnv1a tear_detected rec_valid.

(** ** Opening *)

Section opening.
Context (ps n bs B : Z) (G : geometry ps n B) (msync : Z → Z → bool) (Hms : ∀ a len, msync a len = true).

Abbreviation durable := (durable ps n bs B).
Abbreviation current := (current ps n bs B).
Abbreviation live := (live ps n bs B).
Abbreviation cap := (cap ps).

(** The file is marked as in use. *)
Lemma mark_phase w W F : current (w_file w) W F →
  ∃ t, w_ext w (sync_range ps msync (put w off_clean (le_bytes 8 0)) 0 sizeof_FileHeader).1 t ∧ settled (w_file w) t ∧
    (∀ x, ¬ range off_clean 8 x → stored t x = []) ∧ live (run (w_file w) t) W F ∧
    (∀ t' m', t' `prefix_of` t → crash (w_file w) t' m' → durable m' W F).
Proof.
  intros Hc. pose proof (geometry_bounds ps n B G). set (tr := chunks off_clean [le_bytes 8 0]).
  assert (w_ext w (put w off_clean (le_bytes 8 0)) tr) as Hw by apply put_ext.
  assert (∀ x, ¬ range off_clean 8 x → stored tr x = []) as Hst by (intros x Hx; by apply stored_chunks_out).
  destruct (sync_settles ps msync (gm_page _ _ _ G) Hms w _ tr 0 sizeof_FileHeader Hw) as (ts & Hs & Hext);
    [unfold sizeof_FileHeader; lia..| |].
  { intros x Hx. destruct (decide (range off_clean 8 x)); [unfold off_clean, sizeof_FileHeader in *; rlia|]. by rewrite Hst in Hx. }
  exists (tr ++ ts). split_and!; [done|apply Hs|..].
  - intros x Hx. rewrite (settles_stored _ _ _ _ Hs). by apply Hst.
  - rewrite (settles_run _ _ _ _ Hs). split.
    + apply (mark_any ps n bs B G (w_file w)); [done|]. intros x Hx. by apply run_untouched, Hst.
    + unfold tr. cbn [chunks run foldl run_event]. apply load64_store_le. by split.
  - intros t' m' Hpre Hcr. apply (mark_any ps n bs B G (w_file w)); [done|]. intros x Hx.
    destruct (crash_stored (w_file w) _ t' m' x Hpre Hcr) as [?|E]; [done|].
    rewrite (settles_stored _ _ _ _ Hs), Hst in E by done. by apply not_elem_of_nil in E.
Qed.

(** What the constructor makes of a handle. *)
Definition attached (p : t) (W : Z) (l : list note) : t :=
  Make (base_ p) (map_size_ p) (wal_capacity_ p) (2 * ps + B) (W + 1) (durability_ p) true (recovered_dirty_ p) (fd_ p) (log p ++ l).

Definition recovery_log (dirty : bool) : list note := if dirty then [Bug "崩溃恢复"; Dbg "修复完毕"] else [].

Lemma attach_spec p w W F : wal_capacity_ p = cap → durable (w_file w) W F → W + 1 < 2 ^ 64 → gens_ok (w_file w) →
  (if recovered_dirty_ p then load64 (w_file w) off_clean = 0 else current (w_file w) W F) →
  ∃ w' tr, attach ps msync p w = (attached p W (recovery_log (recovered_dirty_ p)), w') ∧ w_ext w w' tr ∧
    settled (w_file w) tr ∧ (∀ x, 2 * ps + B ≤ x → stored tr x = []) ∧ live (w_file w') W F ∧
    (∀ t' m', t' `prefix_of` tr → crash (w_file w) t' m' → meta_tear (w_file w) W = true → durable m' W F).
Proof.
  intros Hcap D HW Hgen Hd. pose proof (geometry_bounds ps n B G) as Hg. pose proof (gm_bytes _ _ _ G).
  pose proof (du_header _ _ _ _ _ _ _ D) as (_ & _ & _ & _ & HB).
  pose proof (applied_le (w_file w) W (du_W _ _ _ _ _ _ _ D) (du_slots _ _ _ _ _ _ _ D)) as Hle.
  assert (0 ≤ load_applied_seq (w_file w)) as Hpos.
  { rewrite applied_cases. pose proof (load64_range (w_file w) (slot 0)). pose proof (load64_range (w_file w) (slot 1)).
    unfold s_seq, is_u64 in *. destruct (slot_ok _ (slot 0)), (slot_ok _ (slot 1)); cbn [andb]; try destruct (_ >? _); lia. }
  unfold attach. rewrite HB. unfold bitmap_. replace (ps + ps) with (2 * ps) by lia.
  rewrite (wrap64_small (2 * ps + B)) by ulia. rewrite (wrap64_small (load_applied_seq _ + 1)) by ulia.
  change (recovered_dirty_ (set_next_seq ?x (set_data ?y p))) with (recovered_dirty_ p).
  destruct (recovered_dirty_ p) eqn:Ed.
  - set (p1 := say _ _). destruct (recover_spec ps n bs B G msync Hms p1 w W F) as (w1 & k & t1 & E & [Hf1 Ht1] & Hs1 & Hst1 & L1 & Hcr1);
      [done..|]. rewrite E.
    destruct (mark_phase w1 W F (proj1 L1)) as (t2 & [Hf2 Ht2] & Hs2 & Hst2 & L2 & Hcr2).
    set (w2 := (sync_range ps msync _ 0 sizeof_FileHeader).1) in *. rewrite <- Hf2 in L2. exists w2, (t1 ++ t2). split_and!.
    + f_equal. unfold p1, attached, set_ok, say, set_next_seq, set_data. cbn. by rewrite Ed, <- app_assoc.
    + split; [by rewrite Hf2, Hf1, run_app|by rewrite Ht2, Ht1, app_assoc].
    + apply settled_app; [done|]. by rewrite <- Hf1.
    + intros x Hx. rewrite stored_app, Hst1, Hst2; [done|unfold off_clean; rlia|rlia].
    + done.
    + intros t' m' Hpre Hcr HT. apply prefix_app_cases in Hpre as [Hpre|(t3 & -> & Hpre)]; [by apply (Hcr1 t')|].
      apply crash_app in Hcr; [|done]. rewrite <- Hf1 in Hcr. by apply (Hcr2 t3).
  - destruct (mark_phase w W F Hd) as (t2 & [Hf2 Ht2] & Hs2 & Hst2 & L2 & Hcr2). destruct Hd as (_ & Ea & _).
    set (w2 := (sync_range ps msync _ 0 sizeof_FileHeader).1) in *. rewrite <- Hf2 in L2. exists w2, t2. split_and!; try done.
    + f_equal. unfold attached, set_ok, set_next_seq, set_data. cbn. by rewrite Ed, Ea, app_nil_r.
    + intros x Hx. apply Hst2. unfold off_clean. rlia.
    + intros t' m' Hpre Hcr _. by apply (Hcr2 t').
Qed.

(** The pool [p] is open on the file [m] and its bits are [F]. *)
Definition pool_inv (p : t) (m : mem) (F : list bool) : Prop :=
  ok_ p = true ∧ wal_capacity_ p = cap ∧ data_ p = 2 * ps + B ∧ base_ p ≠ NULL ∧ live m (next_seq_ p - 1) F.

(** An existing file is opened and mapped. *)
Definition open_ok (env : open_env) : Prop :=
  fd_ok env = true ∧ st_size env ≠ 0 ∧ ∃ base, map_at env = Some base ∧ base ≠ NULL.

Lemma cpp_reopen_spec env m W F bs' bc' d : open_ok env → durable m W F → W + 1 < 2 ^ 64 → gens_ok m →
  ∃ q w, ctor ps msync env (World m []) bs' bc' d = (q, w, st_size env) ∧ pool_inv q (w_file w) F ∧ next_seq_ q = W + 1 ∧
    recovered_dirty_ q = (load64 m off_clean =? 0) ∧ durability_ q = d ∧ map_size_ q = st_size env ∧
    settled m (w_trace w) ∧ (∀ x, 2 * ps + B ≤ x → load8 (w_file w) x = load8 m x) ∧
    (∀ t' m', t' `prefix_of` w_trace w → crash m t' m' → meta_tear m W = true →
       durable m' W F ∧ ∀ x, 2 * ps + B ≤ x → load8 m' x = load8 m x).
Proof.
  intros (E1 & E2 & base & E3 & Hbase) D HW Hgen. pose proof (du_header _ _ _ _ _ _ _ D) as (Hm & Hv & _).
  unfold ctor. rewrite E1, E3, (proj2 (Z.eqb_neq _ _) E2). cbn [negb andb w_file]. rewrite Hm, Hv, !Z.eqb_refl. cbn [negb orb].
  set (p := set_dirty _ _).
  destruct (attach_spec p (World m []) W F) as (w & tr & E & [Hf Ht] & Hs & Hst & L & Hcr); try done.
  { change (recovered_dirty_ p) with (load64 m off_clean =? 0). cbn [w_file]. destruct (Z.eqb_spec (load64 m off_clean) 0); [done|]. destruct (du_clean _ _ _ _ _ _ _ D) as [?|Hc]; [done|exact (conj D Hc)]. }
  rewrite E. cbn in Ht, Hf. eexists _, w. split; [reflexivity|]. rewrite Ht.
  assert (∀ t' m', t' `prefix_of` tr → crash m t' m' → ∀ x, 2 * ps + B ≤ x → load8 m' x = load8 m x) as Hdata.
  { intros t' m' Hpre Hc x Hx. destruct (crash_stored m tr t' m' x Hpre Hc) as [?|Hx']; [done|].
    rewrite Hst in Hx' by done. by apply not_elem_of_nil in Hx'. }
  split_and!; try done.
  - split_and!; try done. cbn. by replace (W + 1 - 1) with W by lia.
  - intros x Hx. rewrite Hf. by apply run_untouched, Hst.
  - intros t' m' Hpre Hc HT. split; [by apply (Hcr t')|by apply (Hdata t')].
Qed.
End opening.

(** ** Creating *)

Lemma load32_store_out m a bs b : b + 4 ≤ a ∨ a + Z.of_nat (length bs) ≤ b → load32 (store_bytes m a bs) b = load32 m b.
Proof. intros H. unfold load32. by rewrite load_bytes_store_out. Qed.

Lemma load32_store_le m a v : 0 ≤ v < 2 ^ 32 → load32 (store_bytes m a (le_bytes 4 v)) a = v.
Proof. intros H. change (store_bytes m a (le_bytes 4 v)) with (store32 m a v). rewrite load32_store32_eq. by apply Z.mod_small. Qed.

Lemma length_make_slot seq gen : length (make_slot seq gen) = 24%nat.
Proof. unfold make_slot. by rewrite !length_app, !length_le_bytes. Qed.

(** Skips the stores that do not touch what is loaded. *)
Ltac peel32 := repeat (rewrite load32_store_out by (rewrite ?length_le_bytes, ?length_replicate, ?length_make_slot; lia)).
Ltac peel64 := repeat (rewrite load64_store_out by (rewrite ?length_le_bytes, ?length_replicate, ?length_make_slot; lia)).
Ltac peel8 := repeat (rewrite load_bytes_store_out by (rewrite ?length_le_bytes, ?length_replicate, ?length_make_slot; lia)).

Section creating.
Context (ps n bs B : Z) (G : geometry ps n B) (msync : Z → Z → bool) (Hms : ∀ a len, msync a len = true).

Lemma init_file w size : w_file (init ps msync w size bs n B) =
  store_bytes (store_bytes (store_bytes (store_bytes (store_bytes (store_bytes (store_bytes (store_bytes (store_bytes (w_file w)
    0 (replicate (Z.to_nat size) 0)) 0 (le_bytes 8 kMagic)) 8 (le_bytes 4 kVersion)) 12 (le_bytes 4 (wrap32 bs)))
    16 (le_bytes 8 n)) 24 (le_bytes 8 B)) 32 (le_bytes 8 0)) 40 (make_slot 0 1)) 64 (replicate 24 0).
Proof. unfold init, sync_range. rewrite Hms. reflexivity. Qed.

(** What the constructor writes into a new file. *)
Lemma init_fields w size : 0 ≤ bs < 2 ^ 32 → 2 * ps + B ≤ size → let m := w_file (init ps msync w size bs n B) in
  header_is n bs B m ∧ load64 m off_clean = 0 ∧ record_at m (slot 0) = make_slot 0 1 ∧ record_at m (slot 1) = replicate 24 0 ∧
  (∀ x k, 88 ≤ x → x + Z.of_nat k ≤ size → load_bytes m x k = replicate k 0).
Proof.
  intros Hbs Hsize m. pose proof (geometry_bounds ps n B G) as Hg. pose proof (gm_count _ _ _ G). pose proof (gm_bytes _ _ _ G).
  pose proof (init_file w size) as Em. fold m in Em. clearbody m. split; [|split; [|split; [|split]]].
  - unfold header_is, off_magic, off_version, off_block_size, off_block_count, off_bitmap_bytes. rewrite Em.
    split_and!; [peel64; apply load64_store_le; by split|peel32; apply load32_store_le; by split| |peel64; apply load64_store_le; unfold is_u64; lia..].
    peel32. unfold wrap32. rewrite load32_store_le by (apply Z.mod_pos_bound; lia). by apply Z.mod_small.
  - unfold off_clean. rewrite Em. peel64. apply load64_store_le. by split.
  - unfold record_at. change (slot 0) with 40. rewrite Em. peel8. rewrite <- (length_make_slot 0 1). apply load_bytes_store_bytes.
    unfold make_slot. rewrite !Forall_app. split_and!; apply le_bytes_byte.
  - unfold record_at. change (slot 1) with 64. rewrite Em. apply (load_bytes_zeros _ 64 24 64 24); lia.
  - intros x k Hx Hk. rewrite Em. peel8. apply load_bytes_zeros; lia.
Qed.

Lemma init_current w size : 0 ≤ bs < 2 ^ 32 → 2 * ps + B ≤ size →
  let m := w_file (init ps msync w size bs n B) in
  current ps n bs B m 0 (replicate (Z.to_nat n) false) ∧ load64 m off_clean = 0 ∧ gens_ok m.
Proof.
  intros Hbs Hsize m. pose proof (geometry_bounds ps n B G) as Hg. pose proof (gm_count _ _ _ G). pose proof (gm_bytes _ _ _ G).
  destruct (init_fields w size Hbs Hsize) as (Hh & Hc & E0 & E1 & Hz). fold m in Hh, Hc, E0, E1, Hz. clearbody m.
  destruct (meta_record_spec 0 1 ltac:(by split)) as (_ & Mv & Ms). rewrite <- make_slot_eq in Mv, Ms.
  assert (s_gen m (slot 0) = 1) as Eg0 by (rewrite slot_gen, E0, make_slot_eq, meta_record_gen; [done|by split]).
  assert (s_gen m (slot 1) = 0) as Eg1 by (by rewrite slot_gen, E1).
  assert (slot_ok m (slot 0) = true) as Ok0 by (unfold slot_ok; by rewrite Eg0, E0, Mv).
  assert (slot_ok m (slot 1) = false) as Ok1 by (unfold slot_ok; by rewrite Eg1).
  assert (s_seq m (slot 0) = 0) as Es0 by (by rewrite slot_seq, E0).
  assert (load_applied_seq m = 0) as Ea by (rewrite applied_cases, Ok0, Ok1; done).
  assert (∀ k, 0 ≤ k < cap ps → vrec n m (wal_at ps k) = None) as Hv.
  { intros k Hk. pose proof (wal_at_range ps n B G k Hk). unfold vrec, r_seq, load64. rewrite Hz by (simpl; lia). done. }
  assert (bits_are ps n m (replicate (Z.to_nat n) false)) as Hb.
  { intros i Hi. rewrite lookup_replicate_2 by lia. rewrite bit_test_at. pose proof (bit_at_range ps n B G i Hi).
    assert (load_bytes m (bitmap_ ps + i / 8) 1 = [0]) as E by (apply Hz; lia). injection E as ->. by rewrite Z.bits_0. }
  split; [|split; [done|unfold gens_ok; rewrite Eg0, Eg1; lia]]. split; [|exact (conj Ea Hb)]. split.
  - exact Hh.
  - rewrite length_replicate. lia.
  - lia.
  - intros k r Hk E. by rewrite Hv in E.
  - intros r (k & Hk & E). by rewrite Hv in E.
  - intros i Hi. left. by apply Hb.
  - intros j [-> | ->]; [rewrite Es0; lia|rewrite Ok1; discriminate].
  - by left.
  - by left.
Qed.
End creating.

(** The kernel gives a new file and maps it. *)
Definition create_env_ok (env : open_env) : Prop :=
  fd_ok env = true ∧ st_size env = 0 ∧ trunc_ok env = true ∧ ∃ base, map_at env = Some base ∧ base ≠ NULL.

(** The bytes the constructor gives the bitmap. *)
Definition bitmap_size (ps n : Z) : Z := round_up ((n + 7) / 8) ps.

Lemma create_geometry ps n : page_size_ok ps → 0 ≤ n < 2 ^ 32 → geometry ps n (bitmap_size ps n).
Proof.
  intros Hps Hn. pose proof (page_size_bounds ps Hps) as (Hpb & _). unfold bitmap_size.
  pose proof (Z.div_pos (n + 7) 8 ltac:(lia) ltac:(lia)). pose proof (Z.div_le_upper_bound (n + 7) 8 (2 ^ 30) ltac:(lia) ltac:(lia)).
  pose proof (round_up_ge ((n + 7) / 8) ps ltac:(lia)). pose proof (round_up_lt ((n + 7) / 8) ps ltac:(lia)).
  split; [done|done|lia].
Qed.

Lemma cpp_create_spec ps msync env w n bs d : page_size_ok ps → (∀ a len, msync a len = true) → create_ok bs n → create_env_ok env →
  ∃ p w', ctor ps msync env w bs n d = (p, w', map_size_ p) ∧ pool_inv ps n bs (bitmap_size ps n) p (w_file w') (replicate (Z.to_nat n) false) ∧
    next_seq_ p = 1 ∧ recovered_dirty_ p = false ∧ data_ p + n * bs ≤ map_size_ p.
Proof.
  intros Hps Hms [Hbs Hn] (E1 & E2 & E3 & base & E4 & Hbase). pose proof (page_size_bounds ps Hps) as (Hpb & _).
  pose proof (create_geometry ps n Hps ltac:(lia)) as G. pose proof (gm_bytes _ _ _ G). set (B := bitmap_size ps n) in *.
  pose proof (Z.div_pos (n + 7) 8 ltac:(lia) ltac:(lia)).
  pose proof (Z.div_le_upper_bound (n + 7) 8 (2 ^ 30) ltac:(lia) ltac:(lia)). assert (0 < bs * n ≤ 2 ^ 60) by nia.
  assert (B < 2 ^ 30 + ps) by (unfold B, bitmap_size; pose proof (round_up_lt ((n + 7) / 8) ps ltac:(lia)); lia).
  unfold ctor. rewrite E1, E2, E3, E4. cbn [negb andb]. change (0 =? 0) with true. cbn [negb andb].
  rewrite align_up_eq. rewrite (wrap64_small (n + 7)) by ulia. rewrite (hf_align_up_page ((n + 7) / 8)) by (done || lia).
  fold (bitmap_size ps n). fold B. rewrite (wrap64_small (ps + ps)) by ulia. rewrite (wrap64_small (ps + ps + B)) by ulia.
  rewrite (wrap64_small (bs * n)) by ulia. rewrite (wrap64_small (ps + ps + B + bs * n)) by ulia.
  rewrite hf_align_up_page by (done || lia). pose proof (round_up_ge (ps + ps + B + bs * n) ps ltac:(lia)).
  set (size := round_up _ ps) in *.
  destruct (init_current ps n bs B G msync Hms w size ltac:(lia) ltac:(lia)) as (Hcur & Hclean & Hgen).
  set (p := set_map _ _ _ _). set (w1 := init ps msync w size bs n B) in *.
  destruct (attach_spec ps n bs B G msync Hms p w1 0 (replicate (Z.to_nat n) false)) as (w' & tr & E & _ & _ & _ & L & _);
    [done|apply Hcur|lia|done|exact Hcur|].
  exists (attached ps B p 0 (recovery_log (recovered_dirty_ p))), w'. split; [by rewrite E|]. split_and!; try done.
  cbn. lia.
Qed.

(** ** Operations *)

Section operations.
Context (ps n bs B : Z) (G : geometry ps n B) (msync : Z → Z → bool) (Hms : ∀ a len, msync a len = true).

Abbreviation durable := (durable ps n bs B).
Abbreviation pool_inv := (pool_inv ps n bs B).

Definition run_op (p : t) (w : world) (o : pool_op) : t * world :=
  match o with PAlloc => (allocate ps msync p w).1 | PFree i => deallocate ps msync p w i end.

(** The checksums detect torn writes of the two records of a commit. *)
Definition commit_tears (p : t) (m : mem) (op index : Z) : Prop :=
  tear_detected (view m (rec_at ps p (next_seq_ p))) (wal_record (next_seq_ p) index op) = true ∧
  meta_tear m (next_seq_ p) = true.

Definition op_tears (p : t) (m : mem) (F : list bool) (o : pool_op) : Prop :=
  match o with
  | PAlloc => match first_free F with Some k => commit_tears p m op_Alloc (Z.of_nat k) | None => True end
  | PFree i => commit_tears p m op_Free i
  end.

Lemma pool_inv_header p m F : pool_inv p m F →
  load64 m off_block_count = n ∧ load32 m off_block_size = bs ∧ Z.of_nat (length F) = n ∧ CppPoolProofs.bits_are ps n m F.
Proof. intros (_ & _ & _ & _ & ((D & _ & Hb) & _)). pose proof (du_header _ _ _ _ _ _ _ D) as (_ & _ & ? & ? & _). by pose proof (du_length _ _ _ _ _ _ _ D). Qed.

Lemma first_free_at F k : F !! k = Some false → (∀ j, (j < k)%nat → F !! j = Some true) → first_free F = Some k.
Proof.
  intros Hk Hlow. unfold first_free. rewrite (proj2 (list_find_Some _ _ k false)); [done|]. split_and!; [done|done|].
  intros j b Hb Hj ->. rewrite Hlow in Hb; done.
Qed.

Lemma cpp_alloc_loop_spec p w F k : CppPoolProofs.bits_are ps n (w_file w) F → Z.of_nat (length F) = n → n < 2 ^ 32 →
  ∀ i, 0 ≤ i → i + Z.of_nat k = n → (∀ j, (j < Z.to_nat i)%nat → F !! j = Some true) →
  alloc_loop ps msync p w i k =
  match first_free F with
  | None => (p, w, None)
  | Some k => let '(p', w') := commit ps msync p w op_Alloc (Z.of_nat k) in
              (p', w', Some (base_ p' +% data_ p' +% Z.of_nat k *% load32 (w_file w') off_block_size, Z.of_nat k))
  end.
Proof.
  intros Hb Hlen Hn. induction k as [|k IH]; intros i Hi Hk Hlow; cbn [alloc_loop].
  - destruct (first_free F) as [j|] eqn:E; [|done]. apply first_free_Some in E as [Hj _].
    pose proof (lookup_lt_Some _ _ _ Hj). rewrite Hlow in Hj by lia. done.
  - pose proof (Hb i ltac:(lia)) as Hbi. destruct (bit_test ps (w_file w) i).
    + rewrite wrap64_small by ulia. apply IH; [lia..|]. intros j Hj. destruct (decide (j = Z.to_nat i)) as [->|]; [done|apply Hlow; lia].
    + rewrite (first_free_at F (Z.to_nat i)) by (done || by rewrite Hbi). by rewrite Z2Nat.id by lia.
Qed.

Lemma allocate_eq p w F : pool_inv p (w_file w) F → allocate ps msync p w =
  match first_free F with
  | None => (p, w, None)
  | Some k => let '(p', w') := commit ps msync p w op_Alloc (Z.of_nat k) in
              (p', w', Some (base_ p' +% data_ p' +% Z.of_nat k *% load32 (w_file w') off_block_size, Z.of_nat k))
  end.
Proof.
  intros Hinv. pose proof (pool_inv_header _ _ _ Hinv) as (Hn & _ & Hlen & Hb). destruct Hinv as (Hok & _). pose proof (gm_count _ _ _ G).
  unfold allocate. rewrite Hok, Hn. cbn [negb]. apply cpp_alloc_loop_spec; [done|done|lia..|]. intros j Hj. simpl in Hj. lia.
Qed.

Lemma deallocate_eq p w F i : pool_inv p (w_file w) F → 0 ≤ i →
  deallocate ps msync p w i = if bool_decide (F !! Z.to_nat i = Some true) then commit ps msync p w op_Free i else (p, w).
Proof.
  intros Hinv Hi. pose proof (pool_inv_header _ _ _ Hinv) as (Hn & _ & Hlen & Hb). destruct Hinv as (Hok & _).
  unfold deallocate. rewrite Hok, Hn, Z.geb_leb. cbn [negb orb]. destruct (Z.leb_spec n i) as [Hge|Hlt].
  - rewrite bool_decide_eq_false_2; [done|]. rewrite lookup_ge_None_2; [done|lia].
  - rewrite (Hb i) by lia. destruct (bit_test ps (w_file w) i); cbn [negb];
      [by rewrite bool_decide_eq_true_2|by rewrite bool_decide_eq_false_2].
Qed.

(** An operation is one commit or nothing. *)
Lemma cpp_run_op_cases p w F o : pool_inv p (w_file w) F → pool_op_ok o →
  (run_op p w o = (p, w) ∧ abs_op F o = F) ∨
  ∃ op index, 0 ≤ op < 2 ^ 32 ∧ 0 ≤ index < n ∧ run_op p w o = commit ps msync p w op index ∧
    abs_op F o = apply_bits op index F ∧ (op_tears p (w_file w) F o ↔ commit_tears p (w_file w) op index).
Proof.
  intros Hinv Ho. pose proof (pool_inv_header _ _ _ Hinv) as (_ & _ & Hlen & _). destruct o as [|i]; cbn [run_op abs_op op_tears].
  - rewrite (allocate_eq p w F Hinv). destruct (first_free F) as [k|] eqn:E; [right|by left].
    apply first_free_Some in E as [Hk%lookup_lt_Some _]. exists op_Alloc, (Z.of_nat k).
    split; [unfold op_Alloc; lia|]. split; [lia|]. split; [by destruct (commit _ _ _ _ _ _)|]. split; reflexivity.
  - rewrite (deallocate_eq p w F i Hinv Ho). case_bool_decide as E; [right|by left].
    apply lookup_lt_Some in E. simpl in Ho. exists op_Free, i. split; [unfold op_Free; lia|]. split; [lia|]. split_and!; reflexivity.
Qed.

(** A file from which the bits [F] are to be had. *)
Definition recoverable (m : mem) (F : list bool) : Prop := ∃ W, W < 2 ^ 63 ∧ durable m W F.

Lemma cpp_run_op_spec p m F o p' w' : pool_inv p m F → next_seq_ p < 2 ^ 62 → gens_ok m → pool_op_ok o →
  run_op p (World m []) o = (p', w') →
  pool_inv p' (w_file w') (abs_op F o) ∧ base_ p' = base_ p ∧ data_ p' = data_ p ∧ map_size_ p' = map_size_ p ∧
  (∀ x, 2 * ps + B ≤ x → load8 (w_file w') x = load8 m x) ∧
  (∀ t' m', t' `prefix_of` w_trace w' → crash m t' m' → op_tears p m F o →
     (∀ x, 2 * ps + B ≤ x → load8 m' x = load8 m x) ∧
     (recoverable m' (abs_op F o) ∨ recoverable m' F ∧ t' ≠ w_trace w')).
Proof.
  intros Hinv Hseq Hgen Ho Hrun. pose proof Hinv as (Hok & Hcap & Hd & Hb & L). pose proof L as ((D & _) & _).
  pose proof (du_W _ _ _ _ _ _ _ D) as HW.
  destruct (cpp_run_op_cases p (World m []) F o Hinv Ho) as [[E ->]|(op & index & Hop & Hidx & E & -> & Et)]; rewrite E in Hrun.
  - injection Hrun as <- <-. split_and!; try done. intros t' m' Hpre Hcr _. apply prefix_nil_inv in Hpre as ->.
    pose proof (crash_nil _ _ Hcr) as Hx. split; [by intros|]. left. exists (next_seq_ p - 1). split; [lia|].
    apply (durable_ext ps n bs B G m); [|done]. intros x _. apply Hx.
  - destruct (cpp_commit_spec ps n bs B G msync Hms p (World m []) (next_seq_ p - 1) F op index Hcap ltac:(lia) L ltac:(lia) Hgen Hop Hidx)
      as (w2 & t1 & t2 & Ec & [Hf Htr] & Hne & Hset & Hst & L' & Hcr).
    rewrite Ec in Hrun. injection Hrun as <- <-. cbn [w_file w_trace app] in *.
    split_and!; try done.
    + split_and!; try done. cbn. by replace (next_seq_ p - 1 + 2 - 1) with (next_seq_ p - 1 + 1) by lia.
    + intros x Hx. rewrite Hf. by apply run_untouched, Hst.
    + intros t' m' Hpre Hcr' Htear. rewrite Htr in *. apply Et in Htear as [T1 T2]. split.
      { intros x Hx. destruct (crash_stored m _ t' m' x Hpre Hcr') as [?|Hx']; [done|]. rewrite Hst in Hx' by done. by apply not_elem_of_nil in Hx'. }
      replace (next_seq_ p) with (next_seq_ p - 1 + 1) in T1, T2 by lia. unfold rec_at in T1. rewrite Hcap in T1.
      destruct (Hcr t' m' Hpre Hcr' T1 T2) as [[D' Hp1]|D'].
      * right. split; [by exists (next_seq_ p - 1); split; [lia|]|]. intros ->. apply prefix_length in Hp1.
        rewrite length_app in Hp1. destruct t2; [done|]. simpl in Hp1. lia.
      * left. exists (next_seq_ p - 1 + 1). split; [lia|done].
Qed.
End operations.
