(* ===== verification/CppPoolClaims.v ===== *)
(** * The C++ persistent pool: claims

    Commits are atomic under any number of crashes, sessions refine a list of
    bits, allocation and free on every branch, closing and reopening, the
    crash drill, and what goes wrong when a crash interrupts the creation. *)

From Stdlib Require Import String.
From stdpp Require Import sorting.
From S2P Require Import Prelude Memory Platform PersistentPool PoolTrace PoolProofs PoolSpec Cpp CppPool CppPoolProofs CppPoolPhases CppPoolSpec.
Import PersistentPoolCpp.

(** ** Crashes during recovery *)

(** The machine stops while the constructor recovers the file [m]; [m2] is what
    is left of it. *)
Definition recovery_crash (ps : Z) (msync : Z → Z → bool) (env : open_env) (bs bc : Z) (d : Durability) (m m2 : mem) : Prop :=
  let '(q, w, _) := ctor ps msync env (World m []) bs bc d in
  gens_ok m ∧ meta_tear m (next_seq_ q - 1) = true ∧ ∃ t', t' `prefix_of` w_trace w ∧ crash m t' m2.

Section crashes.
Context (ps n bs B : Z) (G : geometry ps n B) (msync : Z → Z → bool) (Hms : ∀ a len, msync a len = true).
Context (env : open_env) (Henv : open_ok env) (bs' bc' : Z) (d : Durability).

#[local] Opaque ctor tear_detected.

Lemma recovery_crash_keeps m m2 F : recovery_crash ps msync env bs' bc' d m m2 → recoverable ps n bs B m F →
  recoverable ps n bs B m2 F ∧ ∀ x, 2 * ps + B ≤ x → load8 m2 x = load8 m x.
Proof.
  unfold recovery_crash. intros H (W & HW & D). destruct (ctor _ _ _ _ _ _ _) as [[q w] len] eqn:E. destruct H as (Hg & HT & t' & Hpre & Hcr).
  destruct (cpp_reopen_spec ps n bs B G msync Hms env m W F bs' bc' d Henv D ltac:(lia) Hg) as (q' & w' & E' & _ & Hs & _ & _ & _ & _ & _ & Hc).
  rewrite E in E'. injection E' as <- <- _. rewrite Hs in HT. replace (W + 1 - 1) with W in HT by lia.
  destruct (Hc t' m2 Hpre Hcr HT) as [D2 Hd]. split; [by exists W|done].
Qed.

Lemma recovery_crashes_keep m m2 F : rtc (recovery_crash ps msync env bs' bc' d) m m2 → recoverable ps n bs B m F →
  recoverable ps n bs B m2 F ∧ ∀ x, 2 * ps + B ≤ x → load8 m2 x = load8 m x.
Proof.
  induction 1 as [m|m m1 m2 H _ IH]; intros Hr; [done|]. destruct (recovery_crash_keeps m m1 F H Hr) as [H1 Hd1].
  destruct (IH H1) as [H2 Hd2]. split; [done|]. intros x Hx. by rewrite Hd2, Hd1.
Qed.

(** Opening what a crash left. *)
Lemma reopen_recoverable m F : recoverable ps n bs B m F → gens_ok m →
  ∃ q w, ctor ps msync env (World m []) bs' bc' d = (q, w, st_size env) ∧ pool_inv ps n bs B q (w_file w) F ∧
    ∀ x, 2 * ps + B ≤ x → load8 (w_file w) x = load8 m x.
Proof.
  intros (W & HW & D) Hg.
  destruct (cpp_reopen_spec ps n bs B G msync Hms env m W F bs' bc' d Henv D ltac:(lia) Hg) as (q & w & E & Hi & _ & _ & _ & _ & _ & Hd & _).
  by exists q, w.
Qed.
End crashes.

(** ** Closing *)

Lemma close_spec ps n bs B msync p m F : geometry ps n B → pool_inv ps n bs B p m F → let '(p', w) := close msync p (World m []) in
  ok_ p' = false ∧ w_file w = run m (w_trace w) ∧ ∀ t' m', t' `prefix_of` w_trace w → crash m t' m' →
    current ps n bs B m' (next_seq_ p - 1) F ∧ (∀ x, ¬ range off_clean 8 x → load8 m' x = load8 m x) ∧ (t' = w_trace w → load64 m' off_clean = 1).
Proof.
  intros G (Hok & Hcap & Hd & Hb & ((D & Ha) & _)). unfold close. rewrite Hok, (proj2 (Z.eqb_neq _ _) Hb). cbn [fst snd].
  set (w := full_sync _).
  assert (∃ ts, w_trace w = chunks off_clean [le_bytes 8 1] ++ ts ++ [EvFsync] ∧ ∀ x, stored ts x = []) as (ts & Ht & Hts).
  { unfold w, full_sync, emit, put. cbn [w_trace w_file]. destruct (msync 0 (map_size_ p)); [by exists [EvSync 0 (map_size_ p)]|by exists []]. }
  split; [done|]. split; [unfold w, full_sync, emit, put; cbn [w_trace w_file]; by destruct (msync 0 (map_size_ p))|]. intros t' m' Hpre Hcr.
  assert (∀ x, ¬ range off_clean 8 x → load8 m' x = load8 m x) as Hx.
  { intros x Hx. destruct (crash_stored m _ t' m' x Hpre Hcr) as [?|E]; [done|].
    rewrite Ht, !stored_app, Hts, stored_chunks_out in E by done. by apply not_elem_of_nil in E. }
  split; [|split].
  - by apply (mark_any ps n bs B G m).
  - done.
  - intros ->. rewrite Ht, app_assoc in Hcr. pose proof (crash_settled _ _ _ (settled_fsync m _) Hcr) as Heq.
    erewrite load64_agree; [|intros x _; apply Heq]. rewrite !run_app. cbn [run foldl run_event chunks].
    assert (∀ m0, (∀ x, load8 (foldl run_event m0 ts) x = load8 m0 x)) as Hn by (intros m0 x; apply (run_untouched m0 ts x), Hts).
    erewrite load64_agree; [|intros x _; apply Hn]. apply load64_store_le. by split.
Qed.

(** ** Sessions *)

(** The bits of the bitmap. *)
Definition bits_in (ps : Z) (m : mem) : list bool := bit_test ps m <$> seqZ 0 (load64 m off_block_count).

Lemma bits_in_inv ps n bs B p m F : pool_inv ps n bs B p m F → bits_in ps m = F.
Proof.
  intros Hinv. pose proof (pool_inv_header _ _ _ _ _ _ _ Hinv) as (Hn & _ & Hlen & Hb). unfold bits_in. rewrite Hn.
  apply list_eq. intros i. rewrite list_lookup_fmap. destruct (decide (Z.of_nat i < n)) as [Hi|Hi].
  - rewrite lookup_seqZ_lt by lia. specialize (Hb (Z.of_nat i) ltac:(lia)). rewrite Nat2Z.id in Hb. by rewrite Hb.
  - rewrite lookup_seqZ_ge, lookup_ge_None_2 by lia. done.
Qed.

Definition abs_step (F F' : list bool) : Prop := ∃ o, F' = abs_op F o.

(** A session: operations; crashes in the middle of one, and in the middle of
    any number of recoveries, until the file is opened again; and closing the
    pool, in the middle of which the machine may stop, and opening it again. *)
Inductive pool_step (ps : Z) (msync : Z → Z → bool) : t * mem → t * mem → Prop :=
| step_op p m o p' w' : next_seq_ p < 2 ^ 62 → gens_ok m → pool_op_ok o →
    run_op ps msync p (World m []) o = (p', w') → pool_step ps msync (p, m) (p', w_file w')
| step_crash p m o p' w' t' m1 m2 env bs bc d q w len : next_seq_ p < 2 ^ 62 → gens_ok m → pool_op_ok o →
    run_op ps msync p (World m []) o = (p', w') → t' `prefix_of` w_trace w' → crash m t' m1 → op_tears ps p m (bits_in ps m) o →
    open_ok env → rtc (recovery_crash ps msync env bs bc d) m1 m2 → gens_ok m2 →
    ctor ps msync env (World m2 []) bs bc d = (q, w, len) → pool_step ps msync (p, m) (q, w_file w)
| step_close p m p' w' t' m1 m2 env bs bc d q w len : next_seq_ p < 2 ^ 62 →
    close msync p (World m []) = (p', w') → t' `prefix_of` w_trace w' → crash m t' m1 →
    open_ok env → rtc (recovery_crash ps msync env bs bc d) m1 m2 → gens_ok m2 →
    ctor ps msync env (World m2 []) bs bc d = (q, w, len) → pool_step ps msync (p, m) (q, w_file w).

Section refines.
Context (ps n bs B : Z) (G : geometry ps n B) (msync : Z → Z → bool) (Hms : ∀ a len, msync a len = true).

#[local] Opaque ctor tear_detected.

Lemma cpp_pool_step_refines s s' F : pool_step ps msync s s' → pool_inv ps n bs B s.1 s.2 F →
  ∃ F', rtc abs_step F F' ∧ pool_inv ps n bs B s'.1 s'.2 F'.
Proof.
  intros [p m o p' w' Hseq Hg Ho Hrun|p m o p' w' t' m1 m2 env b c d q w len Hseq Hg Ho Hrun Hpre Hcr HT Henv Hrec Hg2 Hopen
    |p m p' w' t' m1 m2 env b c d q w len Hseq Hcl Hpre Hcr Henv Hrec Hg2 Hopen] Hinv; cbn [fst snd] in *.
  - exists (abs_op F o). split; [apply rtc_once; by exists o|]. by apply (cpp_run_op_spec ps n bs B G msync Hms p m F o p' w' Hinv Hseq Hg Ho Hrun).
  - destruct (cpp_run_op_spec ps n bs B G msync Hms p m F o p' w' Hinv Hseq Hg Ho Hrun) as (_ & _ & _ & _ & _ & Hcrash).
    rewrite (bits_in_inv _ _ _ _ _ _ _ Hinv) in HT. destruct (Hcrash t' m1 Hpre Hcr HT) as [_ Hcase].
    assert (∃ F', recoverable ps n bs B m1 F' ∧ rtc abs_step F F') as (F' & Hr & Hst).
    { destruct Hcase as [H|[H _]]; eexists; (split; [exact H|]); [apply rtc_once; by exists o|reflexivity]. }
    destruct (recovery_crashes_keep ps n bs B G msync Hms env Henv b c d m1 m2 F' Hrec Hr) as [Hr2 _].
    destruct (reopen_recoverable ps n bs B G msync Hms env Henv b c d m2 F' Hr2 Hg2) as (q' & w2 & E & Hi & _).
    rewrite Hopen in E. injection E as <- <- _. by exists F'.
  - pose proof (close_spec ps n bs B msync p m F G Hinv) as Hc. rewrite Hcl in Hc. destruct Hc as (_ & _ & Hc).
    destruct (Hc t' m1 Hpre Hcr) as ((D & _) & _).
    destruct (recovery_crashes_keep ps n bs B G msync Hms env Henv b c d m1 m2 F Hrec) as [Hr2 _]; [exists (next_seq_ p - 1); split; [lia|done]|].
    destruct (reopen_recoverable ps n bs B G msync Hms env Henv b c d m2 F Hr2 Hg2) as (q' & w2 & E & Hi & _).
    rewrite Hopen in E. injection E as <- <- _. by exists F.
Qed.
End refines.

(** ** A pool of eight blocks of 32 bytes *)

Definition ex_msync : Z → Z → bool := λ _ _, true.
Definition ex_create : open_env := OpenEnv true 0 true (Some (2 ^ 20)).
Definition ex_open : open_env := OpenEnv true 16384 true (Some (2 ^ 20)).

Definition ex_pool : t := Make (2 ^ 20) 16384 128 12288 1 Fast true false true [].
Abbreviation ex_file := (w_file (init 4096 ex_msync (World ∅ []) 16384 32 8 4096)).

Lemma ex_geometry : geometry 4096 8 4096.
Proof. split; [apply page_4096_ok|lia|]. split; [by vm_compute|lia]. Qed.

Lemma ex_live : live 4096 8 32 4096 ex_file 0 (replicate 8 false) ∧ gens_ok ex_file.
Proof.
  destruct (init_current 4096 8 32 4096 ex_geometry ex_msync ltac:(done) (World ∅ []) 16384 ltac:(lia) ltac:(lia)) as (H1 & H2 & H3).
  split; [split; [exact H1|exact H2]|exact H3].
Qed.

Lemma cpp_ex_pool_inv : pool_inv 4096 8 32 4096 ex_pool ex_file (replicate 8 false).
Proof. split; [reflexivity|]. split; [reflexivity|]. split; [reflexivity|]. split; [discriminate|]. apply ex_live. Qed.

(** The first allocation: every torn mix of its two records is detected. *)
Lemma cpp_ex_tears : op_tears 4096 ex_pool ex_file (bits_in 4096 ex_file) PAlloc.
Proof.
  rewrite (bits_in_inv _ _ _ _ _ _ _ cpp_ex_pool_inv). change (first_free (replicate 8 false)) with (Some 0%nat).
  destruct (init_fields 4096 8 32 4096 ex_geometry ex_msync ltac:(done) (World ∅ []) 16384 ltac:(lia) ltac:(lia)) as (_ & _ & E0 & E1 & Hz).
  unfold op_tears, commit_tears. split.
  - change (rec_at 4096 ex_pool (next_seq_ ex_pool)) with 4128. unfold view. rewrite !Hz by (simpl; lia). vm_compute. reflexivity.
  - assert (next_gen ex_file = 2) as En by (unfold next_gen; rewrite !slot_gen, E0, E1; vm_compute; reflexivity).
    unfold meta_tear. rewrite En. change (2 mod 2) with 0. rewrite E0. vm_compute. reflexivity.
Qed.

Lemma ex_open_ok : open_ok ex_open.
Proof. split; [reflexivity|]. split; [discriminate|]. by exists (2 ^ 20). Qed.

(** ** Claims *)


Lemma put_prefix w a b : w_trace w `prefix_of` w_trace (put w a b).
Proof. by apply prefix_app_r. Qed.

Lemma sync_prefix ps msync w a len : w_trace w `prefix_of` w_trace (sync_range ps msync w a len).1.
Proof. unfold sync_range. destruct (msync _ _); [by apply prefix_app_r|done]. Qed.

Lemma if_full_prefix p w : w_trace w `prefix_of` w_trace (if_full p w).
Proof. unfold if_full. destruct (durability_ p); [done|by apply prefix_app_r]. Qed.

(** A commit logs its record before anything else. *)
Lemma commit_logs_first ps msync p w op index :
  w_trace (wal_append ps msync (set_next_seq (next_seq_ p +% 1) p) w (next_seq_ p) op (wrap32 index)) `prefix_of`
  w_trace (commit ps msync p w op index).2.
Proof.
  unfold commit, meta_commit. cbn [snd]. set (w1 := wal_append _ _ _ _ _ _ _).
  etrans; [|apply if_full_prefix]. etrans; [|apply sync_prefix]. etrans; [|apply put_prefix]. etrans; [|apply sync_prefix].
  unfold apply. destruct (op =? op_Alloc); apply put_prefix.
Qed.

(** The record of the first allocation. *)
Abbreviation ex_cut := (chunks 4128 (rec_bytes 1 1 0) ++ [EvSync 4096 4096]).

Lemma ex_cut_prefix m : ex_cut `prefix_of` w_trace (commit 4096 ex_msync ex_pool (World m []) op_Alloc 0).2.
Proof.
  etrans; [|apply commit_logs_first]. apply (reflexivity (R := prefix)).
Qed.

Lemma ex_run : ∃ p1 w1, run_op 4096 ex_msync ex_pool (World ex_file []) PAlloc = (p1, w1) ∧ ex_cut `prefix_of` w_trace w1.
Proof.
  unfold run_op. rewrite (allocate_eq 4096 8 32 4096 ex_geometry ex_msync ex_pool (World ex_file []) _ cpp_ex_pool_inv).
  change (first_free (replicate 8 false)) with (Some 0%nat). cbv iota. pose proof (ex_cut_prefix ex_file) as H.
  change (Z.of_nat 0) with 0. destruct (commit 4096 ex_msync ex_pool _ op_Alloc 0) as [p1 w1]. by exists p1, w1.
Qed.

Lemma ex_cut_gens : gens_ok (run ex_file ex_cut).
Proof.
  apply (slots_same ex_file); [|apply ex_live]. intros x Hx. apply run_untouched. rewrite stored_app.
  rewrite stored_chunks_out; [done|]. rewrite length_rec_bytes. rlia.
Qed.




(** C31. Allocation and free of the C++ pool, every branch.  On an open pool
    allocation fails exactly when every block is in use, and changes nothing
    then; otherwise it takes the free block with the lowest index, returns the
    address [at] gives for it, and leaves the other blocks and all data alone.
    Freeing a block in use gives it back; freeing any other index changes
    nothing. *)
Theorem cpp_pool_operations ps n bs B msync p m F i :
  geometry ps n B → (∀ a len, msync a len = true) → pool_inv ps n bs B p m F → next_seq_ p < 2 ^ 62 → gens_ok m → 0 ≤ i →
  match allocate ps msync p (World m []) with
  | (p', w', None) => p' = p ∧ w_file w' = m ∧ Forall (λ b, b = true) F
  | (p', w', Some (ptr, k)) =>
      0 ≤ k < n ∧ F !! Z.to_nat k = Some false ∧ (∀ j, (j < Z.to_nat k)%nat → F !! j = Some true) ∧
      pool_inv ps n bs B p' (w_file w') (<[Z.to_nat k := true]> F) ∧
      at_ ps p' (w_file w') k = ptr ∧ in_use ps p' (w_file w') k = true ∧
      (∀ x, 2 * ps + B ≤ x → load8 (w_file w') x = load8 m x)
  end ∧
  let '(p', w') := deallocate ps msync p (World m []) i in
  if bool_decide (F !! Z.to_nat i = Some true)
  then pool_inv ps n bs B p' (w_file w') (<[Z.to_nat i := false]> F) ∧
       at_ ps p' (w_file w') i = NULL ∧ in_use ps p' (w_file w') i = false ∧
       (∀ x, 2 * ps + B ≤ x → load8 (w_file w') x = load8 m x)
  else p' = p ∧ w_file w' = m.
Proof.
  intros G Hms Hinv Hseq Hg Hi. pose proof (pool_inv_header _ _ _ _ _ _ _ Hinv) as (_ & _ & Hlen & _). split.
  - pose proof (allocate_eq ps n bs B G msync p (World m []) F Hinv) as Ea.
    destruct (run_op ps msync p (World m []) PAlloc) as [p1 w1] eqn:Erun.
    pose proof (cpp_run_op_spec ps n bs B G msync Hms p m F PAlloc p1 w1 Hinv Hseq Hg I Erun) as (Hinv' & _ & _ & _ & Hd & _).
    cbn [run_op abs_op] in Erun, Hinv'. rewrite Ea in Erun |- *. destruct (first_free F) as [k|] eqn:Ek; [|by apply first_free_None in Ek].
    apply first_free_Some in Ek as [Hk Hlow]. destruct (commit _ _ _ _ _ _) as [p' w']. cbn [fst] in Erun. injection Erun as -> ->.
    rewrite Nat2Z.id. unfold apply_bits in Hinv'. change (WAL_OP_ALLOC =? WAL_OP_ALLOC) with true in Hinv'. rewrite Nat2Z.id in Hinv'.
    pose proof (pool_inv_header _ _ _ _ _ _ _ Hinv') as (Hn' & _ & _ & Hb'). pose proof (lookup_lt_Some _ _ _ Hk).
    specialize (Hb' (Z.of_nat k) ltac:(lia)). rewrite Nat2Z.id, list_lookup_insert_eq in Hb' by lia. injection Hb' as Hb'.
    pose proof Hinv' as (Hok & _). split_and!; try done; [lia..| |]; unfold at_, in_use; rewrite Hok, Hn', <- Hb'.
    + rewrite Z.geb_leb, (proj2 (Z.leb_gt _ _)) by lia. done.
    + by rewrite (proj2 (Z.ltb_lt _ _)) by lia.
  - destruct (run_op ps msync p (World m []) (PFree i)) as [p1 w1] eqn:Erun.
    pose proof (cpp_run_op_spec ps n bs B G msync Hms p m F (PFree i) p1 w1 Hinv Hseq Hg Hi Erun) as (Hinv' & _ & _ & _ & Hd & _).
    cbn [run_op abs_op] in Erun, Hinv'. rewrite Erun. rewrite (deallocate_eq ps n bs B msync p (World m []) F i Hinv Hi) in Erun.
    case_bool_decide as E; [|by injection Erun as <- <-]. pose proof (lookup_lt_Some _ _ _ E).
    unfold apply_bits in Hinv'. change (WAL_OP_FREE =? WAL_OP_ALLOC) with false in Hinv'.
    pose proof (pool_inv_header _ _ _ _ _ _ _ Hinv') as (Hn' & _ & _ & Hb').
    specialize (Hb' i ltac:(lia)). rewrite list_lookup_insert_eq in Hb' by lia. injection Hb' as Hb'.
    split_and!; try done; unfold at_, in_use; rewrite <- Hb'; [by rewrite orb_true_r|by rewrite andb_false_r].
Qed.

(** Witness of C31: the first allocation of the example pool takes block 0. *)
Lemma cpp_pool_operations_witness : ∃ p' w' ptr,
  allocate 4096 ex_msync ex_pool (World ex_file []) = (p', w', Some (ptr, 0)) ∧
  at_ 4096 p' (w_file w') 0 = ptr ∧ in_use 4096 p' (w_file w') 0 = true.
Proof.
  destruct (cpp_pool_operations 4096 8 32 4096 ex_msync ex_pool ex_file (replicate 8 false) 0) as [H _].
  - exact ex_geometry.
  - intros a len. reflexivity.
  - exact cpp_ex_pool_inv.
  - cbn. lia.
  - exact (proj2 ex_live).
  - lia.
  - destruct (allocate 4096 ex_msync ex_pool (World ex_file [])) as [[p' w'] [[ptr k]|]].
    + destruct H as (Hk & _ & Hlow & _ & Hat & Huse & _). destruct (decide (k = 0)) as [->|Hne].
      * exists p', w', ptr. split; [reflexivity|]. split; [exact Hat|exact Huse].
      * specialize (Hlow 0%nat ltac:(lia)). discriminate Hlow.
    + destruct H as (_ & _ & H). inversion H. discriminate.
Defined.

(** ** Closing and reopening *)

(** C32. Creating, closing and reopening the C++ pool, when every [msync]
    succeeds, the sequence number is below 2^62 and the generations have not
    run out.  A pool created with blocks of 1 to 2^28 bytes and fewer than 2^32
    of them ([create_ok]; the constructor cuts the block size to 32 bits and
    its size product can wrap, [cpp_pool_size_cut]) has no block in use and its
    blocks lie inside the file.  After [close] the constructor gives back the
    same bits and sequence number and reports no crash; after a process crash
    ([simulate_crash]) it gives them back too, and reports it. *)
Theorem cpp_pool_reopen ps n bs B msync p m F env env' w0 n0 bs0 bs' bc' d :
  geometry ps n B → (∀ a len, msync a len = true) → create_ok bs0 n0 → create_env_ok env →
  pool_inv ps n bs B p m F → next_seq_ p < 2 ^ 62 → gens_ok m → open_ok env' →
  (∃ p0 w1 len, ctor ps msync env w0 bs0 n0 d = (p0, w1, len) ∧
     pool_inv ps n0 bs0 (bitmap_size ps n0) p0 (w_file w1) (replicate (Z.to_nat n0) false) ∧
     recovered_from_crash p0 = false ∧ data_ p0 + n0 * bs0 ≤ len) ∧
  (∃ q w1, ctor ps msync env' (World (w_file (close msync p (World m [])).2) []) bs' bc' d = (q, w1, st_size env') ∧
     pool_inv ps n bs B q (w_file w1) F ∧ next_seq_ q = next_seq_ p ∧ recovered_from_crash q = false) ∧
  (∃ q w1, ctor ps msync env' (World (w_file (simulate_crash p (World m [])).2) []) bs' bc' d = (q, w1, st_size env') ∧
     pool_inv ps n bs B q (w_file w1) F ∧ next_seq_ q = next_seq_ p ∧ recovered_from_crash q = true).
Proof.
  intros G Hms Hcr Henv Hinv Hseq Hg Henv'. pose proof Hinv as (_ & _ & _ & _ & ((D & _) & Hclean)).
  split; [|split].
  - destruct (cpp_create_spec ps msync env w0 n0 bs0 d (gm_page _ _ _ G) Hms Hcr Henv) as (p0 & w1 & E & Hi & _ & Hr & Hm).
    by exists p0, w1, (map_size_ p0).
  - pose proof (close_spec ps n bs B msync p m F G Hinv) as Hc. destruct (close msync p (World m [])) as [p' w'] eqn:Ec.
    destruct Hc as (_ & Hf & Hc). cbn [snd]. rewrite Hf.
    destruct (Hc (w_trace w') (run m (w_trace w')) ltac:(done) (crash_run m _)) as ((D' & _) & Hhi & Hmark).
    destruct (cpp_reopen_spec ps n bs B G msync Hms env' _ _ F bs' bc' d Henv' D') as (q & w1 & E & Hi & Hs & Hr & _); [lia| |].
    { apply (slots_same m); [|done]. intros x Hx. apply Hhi. unfold off_clean. rlia. }
    exists q, w1. split; [exact E|]. split; [done|]. split; [lia|]. unfold recovered_from_crash. rewrite Hr, Hmark by done. done.
  - destruct (cpp_reopen_spec ps n bs B G msync Hms env' m _ F bs' bc' d Henv' D) as (q & w1 & E & Hi & Hs & Hr & _); [lia|done|].
    exists q, w1. split; [exact E|]. split; [done|]. split; [lia|]. unfold recovered_from_crash. by rewrite Hr, Hclean.
Qed.

(** Witness of C32: a new file, and the example pool closed or crashed and
    opened again. *)
Lemma cpp_pool_reopen_witness : ∃ q w1,
  ctor 4096 ex_msync ex_open (World (w_file (close ex_msync ex_pool (World ex_file [])).2) []) 0 0 Full = (q, w1, st_size ex_open) ∧
  pool_inv 4096 8 32 4096 q (w_file w1) (replicate 8 false) ∧ recovered_from_crash q = false.
Proof.
  destruct (cpp_pool_reopen 4096 8 32 4096 ex_msync ex_pool ex_file (replicate 8 false) ex_create ex_open (World ∅ []) 8 32 0 0 Full)
    as (_ & (q & w1 & E & Hi & _ & Hr) & _).
  - exact ex_geometry.
  - intros a len. reflexivity.
  - split; lia.
  - split; [reflexivity|]. split; [reflexivity|]. split; [reflexivity|]. exists (2 ^ 20). split; [reflexivity|discriminate].
  - exact cpp_ex_pool_inv.
  - cbn. lia.
  - exact (proj2 ex_live).
  - exact ex_open_ok.
  - exists q, w1. split; [exact E|]. split; [exact Hi|exact Hr].
Defined.

(** The crash drill.  A record appended to the log without being applied,
    followed by a crash of the process, is replayed when the file is opened
    again: the block is in use, or free, as the record says, the other blocks
    and the data are as before, and the pool reports the recovery. *)
Theorem cpp_pool_drill ps n bs B msync p m F op index env bs' bc' d :
  geometry ps n B → (∀ a len, msync a len = true) → pool_inv ps n bs B p m F → next_seq_ p < 2 ^ 62 → gens_ok m → open_ok env →
  op = op_Alloc ∨ op = op_Free → 0 ≤ index < n →
  let s := debug_append_wal_only ps msync p (World m []) op index in
  let r := (ctor ps msync env (World (w_file (simulate_crash s.1 s.2).2) []) bs' bc' d).1 in
  pool_inv ps n bs B r.1 (w_file r.2) (<[Z.to_nat index := (op =? op_Alloc)]> F) ∧ next_seq_ r.1 = next_seq_ p + 1 ∧
  recovered_from_crash r.1 = true ∧ ∀ x, 2 * ps + B ≤ x → load8 (w_file r.2) x = load8 m x.
Proof.
  intros G Hms (Hok & Hcap & Hd & Hb & L) Hseq Hg Henv Hop Hidx. pose proof L as ((D & _) & Hclean). pose proof (du_W _ _ _ _ _ _ _ D).
  pose proof (geometry_bounds ps n B G). pose proof (gm_count _ _ _ G).
  assert (0 ≤ op < 2 ^ 32) as Hop' by (unfold op_Alloc, op_Free in Hop; lia).
  unfold debug_append_wal_only. rewrite Hok. cbn [negb fst snd]. assert (wrap32 index = index) as -> by (apply Z.mod_small; lia).
  set (p1 := set_next_seq _ p).
  destruct (cpp_log_phase ps n bs B G msync Hms p1 (World m []) (next_seq_ p - 1) F op index) as (t & [Hf _] & _ & Hst & D' & _);
    [done|done|lia|done|done|].
  replace (next_seq_ p - 1 + 1) with (next_seq_ p) in * by lia. cbn [w_file] in *. unfold simulate_crash. cbn [snd]. cbv zeta.
  rewrite <- Hf in D'. set (m1 := w_file (wal_append _ _ _ _ _ _ _)) in *.
  assert (∀ x, ¬ range ps ps x → load8 m1 x = load8 m x) as Hx by (intros x Hx; rewrite Hf; by apply run_untouched, Hst).
  destruct (cpp_reopen_spec ps n bs B G msync Hms env m1 (next_seq_ p) _ bs' bc' d Henv D') as (q & w2 & -> & Hi & Hs & Hr & _ & _ & _ & Hdata & _).
  { lia. }
  { apply (slots_same m); [|done]. intros x Hr. apply Hx. rlia. }
  split; [exact Hi|]. split; [done|]. split.
  - unfold recovered_from_crash. cbn [fst]. rewrite Hr. apply Z.eqb_eq. rewrite <- Hclean. apply load64_agree. intros x Hr'. apply Hx.
    unfold off_clean in Hr'. rlia.
  - intros x Hr'. rewrite Hdata by done. apply Hx. pose proof (gm_bytes _ _ _ G). rlia.
Qed.

(** Block 5 is logged as allocated. *)
Lemma cpp_pool_drill_witness :
  let s := debug_append_wal_only 4096 ex_msync ex_pool (World ex_file []) op_Alloc 5 in
  let r := (ctor 4096 ex_msync ex_open (World (w_file (simulate_crash s.1 s.2).2) []) 0 0 Fast).1 in
  pool_inv 4096 8 32 4096 r.1 (w_file r.2) (<[5%nat := true]> (replicate 8 false)) ∧ recovered_from_crash r.1 = true.
Proof.
  intros s r.
  destruct (cpp_pool_drill 4096 8 32 4096 ex_msync ex_pool ex_file (replicate 8 false) op_Alloc 5 ex_open 0 0 Fast) as (Hi & _ & Hr & _).
  - exact ex_geometry.
  - intros a len. reflexivity.
  - exact cpp_ex_pool_inv.
  - cbn. lia.
  - exact (proj2 ex_live).
  - exact ex_open_ok.
  - left. reflexivity.
  - lia.
  - split; [exact Hi|exact Hr].
Defined.

(** The length the constructor gives an empty file. *)
Definition created_size (ps bs bc : Z) : Z :=
  align_up (ps +% ps +% align_up ((bc +% 7) / 8) ps +% bs *% bc) ps.

(** C33. What the C++ pool refuses.  When the file cannot be opened, extended or
    mapped, or is not a pool of this version, the pool is not [ok] and no byte
    of the file has changed; its length has not changed either, except that an
    empty file that was extended before [mmap] failed keeps the length it was
    given (and is then refused, for want of a header, whenever it is opened
    again).  And on a pool that is not [ok] - refused, closed or crashed - no
    operation returns a block, touches the file or reports a block in use. *)
Theorem cpp_pool_refuses ps msync env w bs bc d p op index :
  (fd_ok env = false ∨ map_at env = None ∨ (st_size env = 0 ∧ trunc_ok env = false) ∨
   (st_size env ≠ 0 ∧ (load64 (w_file w) off_magic ≠ kMagic ∨ load32 (w_file w) off_version ≠ kVersion))) →
  ok_ p = false →
  (let '(q, w', len) := ctor ps msync env w bs bc d in
   ok q = false ∧ w' = w ∧ base_ q = NULL ∧ fd_ q = false ∧
   (fd_ok env = true → st_size env = 0 → trunc_ok env = true → len = created_size ps bs bc) ∧
   (fd_ok env = false ∨ st_size env ≠ 0 ∨ trunc_ok env = false → len = st_size env)) ∧
  allocate ps msync p w = (p, w, None) ∧ deallocate ps msync p w index = (p, w) ∧ debug_append_wal_only ps msync p w op index = (p, w) ∧
  flush ps msync p w index = (w, false) ∧ at_ ps p (w_file w) index = NULL ∧ in_use ps p (w_file w) index = false ∧
  block_size p (w_file w) = 0 ∧ block_count p (w_file w) = 0 ∧ w_file (close msync p w).2 = w_file w.
Proof.
  intros Hbad Hok. split.
  - unfold ctor. destruct (fd_ok env); cbn [negb]; [|by split_and!].
    destruct (Z.eqb_spec (st_size env) 0) as [Es|Es]; cbn [andb].
    + destruct (trunc_ok env); cbn [negb]; [|by split_and!]. destruct (map_at env).
      * exfalso. destruct Hbad as [?|[?|[[_ ?]|[? _]]]]; done.
      * split_and!; try done. intros [?|[?|?]]; done.
    + destruct (map_at env); [|by split_and!].
      assert (negb (load64 (w_file w) off_magic =? kMagic) || negb (load32 (w_file w) off_version =? kVersion) = true) as ->; [|by split_and!].
      destruct Hbad as [?|[?|[[? _]|[_ [H|H]]]]]; try done; apply Z.eqb_neq in H; rewrite H; [done|apply orb_true_r].
  - unfold allocate, deallocate, debug_append_wal_only, flush, at_, in_use, block_size, block_count, close. rewrite Hok.
    split_and!; try done. by destruct (base_ p =? NULL).
Qed.

(** Witness of C33: an empty file is extended to four pages and cannot be
    mapped; opened again it is refused. *)
Lemma cpp_pool_refuses_witness :
  let '(q, w', len) := ctor 4096 ex_msync (OpenEnv true 0 true None) (World ∅ []) 32 8 Fast in
  ok q = false ∧ w' = World ∅ [] ∧ len = 16384 ∧
  ok (ctor 4096 ex_msync (OpenEnv true len true (Some (2 ^ 20))) w' 32 8 Fast).1.1 = false.
Proof.
  destruct (cpp_pool_refuses 4096 ex_msync (OpenEnv true 0 true None) (World ∅ []) 32 8 Fast
    (ctor 4096 ex_msync (OpenEnv true 0 true None) (World ∅ []) 32 8 Fast).1.1 op_Alloc 0) as (H1 & _).
  - right. left. reflexivity.
  - reflexivity.
  - destruct (cpp_pool_refuses 4096 ex_msync (OpenEnv true 16384 true (Some (2 ^ 20))) (World ∅ []) 32 8 Fast
      (ctor 4096 ex_msync (OpenEnv true 0 true None) (World ∅ []) 32 8 Fast).1.1 op_Alloc 0) as (H2 & _).
    + right. right. right. split; [discriminate|]. left. vm_compute. discriminate.
    + reflexivity.
    + destruct (ctor 4096 ex_msync (OpenEnv true 0 true None) (World ∅ []) 32 8 Fast) as [[q w'] len].
      destruct H1 as (Hq & -> & _ & _ & Hl & _). split; [exact Hq|]. split; [reflexivity|].
      assert (len = 16384) as -> by (apply Hl; reflexivity). split; [reflexivity|].
      destruct (ctor 4096 ex_msync (OpenEnv true 16384 true (Some (2 ^ 20))) (World ∅ []) 32 8 Fast) as [[q2 w2] len2].
      destruct H2 as (Hq2 & _). exact Hq2.
Defined.

(** The sizes of a new pool are not checked: the block size is cut to 32 bits
    when it is stored in the header, so that a pool of 4 GiB blocks has blocks
    of size 0, all at the same address; and the length of the file is computed
    modulo 2^64, so that 2^31 blocks of 2^33 bytes get a file without data. *)
Theorem cpp_pool_size_cut ps msync w size bs n B :
  load32 (w_file (init ps msync w size bs n B)) off_block_size = wrap32 bs ∧
  wrap32 (2 ^ 32) = 0 ∧
  created_size 4096 (2 ^ 33) (2 ^ 31) = 4096 + 4096 + 2 ^ 28.
Proof.
  split; [|split; reflexivity]. unfold init, full_sync, emit. cbn [w_file].
  assert (∀ v a len, w_file (sync_range ps msync v a len).1 = w_file v) as Hsync
    by (intros v a len; unfold sync_range; by destruct (msync _ _)).
  rewrite Hsync. unfold put. cbn [w_file].
  do 5 (rewrite load32_store_out; [|unfold off_block_size, off_block_count, off_bitmap_bytes, off_clean, slot; cbn; lia]).
  change (store_bytes ?m ?a (le_bytes 4 ?v)) with (store32 m a v). rewrite load32_store32_eq. unfold wrap32. by rewrite Zmod_mod.
Qed.

(** Stores that no sync followed may all be lost. *)
Lemma crash_lost m tr : Forall (λ e, match e with EvStore _ _ => True | _ => False end) tr → crash m tr m.
Proof.
  intros H x. induction tr as [|e tr IH] using rev_ind; [by left|]. apply Forall_app in H as [H [He _]%Forall_cons]. rewrite cands_snoc.
  destruct e; [|done..]. cbn [cand_step]. destruct (hit _ _ _); [right|]; by apply IH.
Qed.

(** A crash while the constructor creates the file, after [ftruncate] and before
    the header is synced, can leave a file of zeros; it is refused for ever. *)
Lemma create_interrupted ps msync env bs bc d size : open_ok env →
  (∃ t', t' `prefix_of` w_trace (init ps msync (World ∅ []) size bs bc (bitmap_size ps bc)) ∧ length t' = 9%nat ∧ crash ∅ t' ∅) ∧
  ok (ctor ps msync env (World ∅ []) bs bc d).1.1 = false.
Proof.
  intros (E1 & E2 & base & E3 & _). split.
  - unfold init. set (w := put _ (slot 1) _). exists (w_trace w). split_and!.
    + etrans; [|apply prefix_app_r; reflexivity]. apply sync_prefix.
    + reflexivity.
    + apply crash_lost. repeat constructor.
  - unfold ctor. rewrite E1, E3, (proj2 (Z.eqb_neq _ _) E2). reflexivity.
Qed.
