(* ===== verification/Demo.v ===== *)
(** * The demo ([c/examples/demo.c])

    The benchmark runs on any allocator through the interface; the theorem
    about it is proved once against the contract [AllocatorSpec], so it holds
    of the free list, the buddy allocator and the block pool that [main]
    creates.  The second and third part of [main] - detection of an overrun,
    fragmentation of the same free list - are run on the models as they are.
    Printing and timing are left out. *)

From S2P Require Import Prelude Memory Platform Allocator BlockPool FreeList FreeListProofs FreeListSpec Buddy BuddySpec DebugHeap Analyzer.

(** ** [bench] *)

Section bench.
Context {A : Type} `{!hf_allocator_vtable A}.

(** [N]; a [nat] in what follows, so that the loops are structural. *)
Definition bench_N : Z := 20000.

(** [for (int i = 0; i < N; ++i) live[i] = hf_allocate(a, 64)], with [n]
    rounds left. *)
Fixpoint bench_alloc (n : nat) (s : A) (m : mem) (live : list Z) : outcome (A * mem * list Z) :=
  match n with
  | O => Ok (s, m, live)
  | S n => '(s, m, p) ← hf_allocate s m 64; bench_alloc n s m (live ++ [p])
  end.

(** [hf_deallocate(a, live[i])] for the elements in the given order. *)
Fixpoint bench_free (l : list Z) (s : A) (m : mem) : outcome (A * mem) :=
  match l with
  | [] => Ok (s, m)
  | p :: l => '(s, m) ← hf_deallocate s m p; bench_free l s m
  end.

Definition bench (N : nat) (s : A) (m : mem) (reverse : bool) : outcome (A * mem) :=
  '(s, m, live) ← bench_alloc N s m [];
  bench_free (if reverse then rev live else live) s m.

(** ** What it leaves behind *)

Context {al lim : Z} `{!AllocatorSpec al lim A}.
Context (Hlim : 64 ≤ lim) (Hnull : ∀ (s : A) (m : mem), hf_deallocate s m NULL = Ok (s, m)).

(** The blocks of the requests that were served. *)
Definition served (l : list Z) : list Z := base.filter (λ p, p ≠ NULL) l.
Definition served_map (l : list Z) : live_map := list_to_map ((λ p, (p, 64)) <$> served l).

(** The live blocks are those of [L] and, besides, the served ones of [l]. *)
Definition owns (L : live_map) (l : list Z) (L' : live_map) : Prop :=
  NoDup (served l) ∧ (∀ p, p ∈ served l → L !! p = None) ∧ L' = served_map l ∪ L.

Lemma served_lookup l p n : served_map l !! p = Some n → p ∈ served l.
Proof. intros H. apply elem_of_list_to_map_2, list_elem_of_fmap in H as (q & [= -> ->] & Hq). done. Qed.

Lemma owns_perm L l l' L' : l ≡ₚ l' → owns L l L' → owns L l' L'.
Proof.
  intros Hp (Hnd & Hf & ->). assert (served l ≡ₚ served l') as Hs by (unfold served; by rewrite Hp).
  split; [by rewrite <- Hs|]. split; [intros p H; apply Hf; by rewrite Hs|]. f_equal. unfold served_map.
  apply list_to_map_proper; [|by rewrite Hs]. rewrite <- list_fmap_compose. cbn. by rewrite list_fmap_id.
Qed.

Lemma owns_snoc L l L' p : owns L l L' → p ≠ NULL → L' !! p = None → owns L (l ++ [p]) (<[p := 64]> L').
Proof.
  intros (Hnd & Hf & ->) Hp HN. apply lookup_union_None in HN as [HN1 HN2].
  assert (p ∉ served l) as Hnew.
  { intros Hin. destruct (served_map l !! p) eqn:E; [done|]. apply not_elem_of_list_to_map in E.
    apply E. rewrite <- list_fmap_compose. cbn. by rewrite list_fmap_id. }
  apply (owns_perm L (p :: l)); [by rewrite Permutation_app_comm|]. assert (served (p :: l) = p :: served l) as Es'.
  { unfold served. cbn. by rewrite decide_True. }
  split; [rewrite Es'; by apply NoDup_cons|]. split.
  - rewrite Es'. intros q [->|Hq]%elem_of_cons; [done|by apply Hf].
  - unfold served_map. rewrite Es'. cbn. by rewrite insert_union_l.
Qed.

Lemma owns_fail L l L' : owns L l L' → owns L (l ++ [NULL]) L'.
Proof.
  intros Ho. apply (owns_perm L (NULL :: l)); [by rewrite Permutation_app_comm|].
  assert (served (NULL :: l) = served l) as Es by (unfold served; cbn; by rewrite decide_False by auto).
  unfold owns, served_map. rewrite Es. exact Ho.
Qed.

(** Memory the caller owned before is not touched by the allocations. *)
Lemma bench_alloc_ok n : ∀ s m l L L', alloc_inv s m L' → owns L l L' →
  ∃ s' m' l' L'', bench_alloc n s m l = Ok (s', m', l') ∧ alloc_inv s' m' L'' ∧ owns L l' L'' ∧ agree_on (in_live L) m m'.
Proof using Hlim.
  induction n as [|n IH]; intros s m l L L' Hi Ho; cbn [bench_alloc]; [by exists s, m, l, L'|].
  destruct (spec_allocate s m L' 64 Hi ltac:(lia)) as (s1 & m1 & p & -> & Hag & Hp). cbn [mbind outcome_bind].
  assert (∃ L1, alloc_inv s1 m1 L1 ∧ owns L (l ++ [p]) L1) as (L1 & Hi1 & Ho1).
  { destruct Hp as [[-> Hi1]|(Hp & HN & _ & Hi1)]; eexists; (split; [done|]); [by apply owns_fail|by apply owns_snoc]. }
  destruct (IH s1 m1 (l ++ [p]) L L1 Hi1 Ho1) as (s' & m' & l' & L'' & -> & Hi' & Ho' & Hag'). exists s', m', l', L''. split_and!; try done.
  intros x Hx. rewrite Hag' by done. apply Hag. destruct Hx as (q & k & Hq & Hr). exists q, k. split; [|done].
  destruct Ho as (_ & Hf & ->). apply lookup_union_Some_raw. right. split; [|done].
  destruct (served_map l !! q) eqn:E; [|done]. apply served_lookup, Hf in E. congruence.
Qed.

Lemma bench_free_ok l : ∀ s m L L', alloc_inv s m L' → owns L l L' →
  ∃ s' m', bench_free l s m = Ok (s', m') ∧ alloc_inv s' m' L ∧ agree_on (in_live L) m m'.
Proof using Hnull.
  induction l as [|p l IH]; intros s m L L' Hi (Hnd & Hf & ->); cbn [bench_free].
  { exists s, m. split; [done|]. split; [|done]. unfold served_map in Hi. cbn in Hi. by rewrite map_empty_union in Hi. }
  unfold served_map, served in Hi, Hnd, Hf. cbn in Hi, Hnd, Hf. destruct (decide (p ≠ NULL)) as [Hp|Hp].
  - apply NoDup_cons in Hnd as [Hnew Hnd]. cbn in Hi. rewrite <- insert_union_l in Hi.
    destruct (spec_deallocate s m _ p 64 Hi ltac:(apply lookup_insert_eq)) as (s1 & m1 & -> & Hag & Hi1). cbn [mbind outcome_bind].
    assert ((served_map l ∪ L) !! p = None) as HN.
    { apply lookup_union_None. split; [|apply Hf; by left]. destruct (served_map l !! p) eqn:E; [|done]. by apply served_lookup in E. }
    rewrite delete_insert_id in Hi1, Hag by exact HN.
    destruct (IH s1 m1 L _ Hi1) as (s' & m' & -> & Hi' & Hag').
    { split; [done|]. split; [|done]. intros q Hq. apply Hf. by right. }
    exists s', m'. split_and!; try done. intros x Hx. rewrite Hag' by done. apply Hag.
    destruct Hx as (q & k & Hq & Hr). exists q, k. split; [|done]. apply lookup_union_Some_raw. right. split; [|done].
    destruct (served_map l !! q) eqn:E; [|done]. apply served_lookup in E. rewrite Hf in Hq by (by right). done.
  - assert (p = NULL) as -> by (destruct (decide (p = NULL)); [done|by destruct Hp]). rewrite Hnull. cbn [mbind outcome_bind].
    by apply (IH s m L (served_map l ∪ L)).
Qed.

(** Any number of rounds, forwards or backwards, and whether or not the arena
    is large enough: the benchmark returns with the live blocks it started
    with, and their bytes. *)
Lemma bench_restores N s m L reverse : alloc_inv s m L →
  ∃ s' m', bench N s m reverse = Ok (s', m') ∧ alloc_inv s' m' L ∧ agree_on (in_live L) m m'.
Proof using Hlim Hnull.
  intros Hi. unfold bench.
  destruct (bench_alloc_ok N s m [] L L Hi) as (s1 & m1 & l & L1 & -> & Hi1 & Ho1 & Hag1).
  { split; [constructor|]. split; [intros p Hp; by apply elem_of_nil in Hp|]. unfold served_map. cbn. by rewrite map_empty_union. }
  cbn [mbind outcome_bind]. destruct (bench_free_ok (if reverse then rev l else l) s1 m1 L L1 Hi1) as (s' & m' & -> & Hi' & Hag').
  { apply (owns_perm L l); [|done]. destruct reverse; [apply Permutation_rev|done]. }
  exists s', m'. split_and!; try done. intros x Hx. rewrite Hag' by done. by apply Hag1.
Qed.
End bench.

(** The benchmark on the three allocators of [main] that meet the contract, in
    both builds: it comes back, and to an allocator without a live block - as
    often as it is run. *)
Theorem demo_bench nd N reverse :
  (∀ a m L, fl_inv a m L → ∃ a' m', bench (hf_allocator_vtable0 := FL_VT nd) N a m reverse = Ok (a', m') ∧ fl_inv a' m' L) ∧
  (∀ a m L, bd_inv a m L → ∃ a' m', bench (hf_allocator_vtable0 := BD_VT nd) N a m reverse = Ok (a', m') ∧ bd_inv a' m' L) ∧
  (∀ a m L, bp_inv a m L → ∃ a' m', bench (hf_allocator_vtable0 := BP_VT nd) N a m reverse = Ok (a', m') ∧ bp_inv a' m' L).
Proof.
  split_and!; intros a m L Hi.
  - destruct (bench_restores (AllocatorSpec0 := fl_spec nd) ltac:(lia) ltac:(done) N a m L reverse Hi) as (a' & m' & E & Hi' & _). by exists a', m'.
  - destruct (bench_restores (AllocatorSpec0 := bd_spec nd) ltac:(lia) ltac:(done) N a m L reverse Hi) as (a' & m' & E & Hi' & _). by exists a', m'.
  - destruct (bench_restores (AllocatorSpec0 := bp_spec nd) ltac:(lia) ltac:(done) N a m L reverse Hi) as (a' & m' & E & Hi' & _). by exists a', m'.
Qed.

(** ** [main] *)

Section main.
Context (nd : bool) (calloc realloc : Z → bool).

Abbreviation demo_heap := (dh_heap fl_alloc).

(** Part 2: a leak and an overrun by one byte; yields what the check found. *)
Definition demo_safety (h : demo_heap) (m : mem) : outcome (demo_heap * mem * Z) :=
  let vt := DH_VT (hf_allocator_vtable0 := FL_VT nd) calloc in
  '(h, m, leak) ← hf_allocate h m 128;
  '(h, m, bad) ← hf_allocate h m 16;
  if bad =? NULL then Fault else
  let m := store8 m (bad + 16) 0x41 in
  '(h, n) ← hf_debug_heap_check h m;
  '(h, m) ← hf_deallocate h m bad;
  Ok (h, m, n).

(** Part 3 works on the free list below the debug heap. *)
Definition demo_fragmentation (h : demo_heap) (m : mem) : outcome (demo_heap * mem * hf_snapshot) :=
  let vt := FL_VT nd in
  let fl := dh_backend h in
  '(fl, m, a1) ← hf_allocate fl m 4000;
  '(fl, m, a2) ← hf_allocate fl m 4000;
  '(fl, m, a3) ← hf_allocate fl m 4000;
  '(fl, m) ← hf_deallocate fl m a2;
  snap ← hf_snapshot_take realloc fl m;
  Ok (DhHeap fl (dh_tab h) (dh_rep h), m, snap).
End main.

(** Parts 2 and 3 and the end of the debug heap, on a free list of 4 MB: the
    check finds the one smashed block (the report counts it again when it is
    freed) and one leak of 128 bytes; the snapshot shows the leaked block and
    the hole between [a1] and [a3]; at the end the leaked block is free. *)
Example demo_run :
  match hf_free_list_create 4096 ex_mmap true ∅ (Z.shiftl 4 20) HF_FIT_FIRST with
  | None => Fault
  | Some (fl, m) =>
      match hf_debug_heap_create true true (Some fl) with
      | None => Fault
      | Some h =>
          '(h, m, n) ← demo_safety false (λ _, true) h m;
          let rep := hf_debug_heap_report h in
          '(h, m, snap) ← demo_fragmentation false (λ _, true) h m;
          '(fl, m) ← dh_destroy (hf_allocator_vtable0 := FL_VT false) h m;
          bs ← fl_walk fl m;
          Ok (n, rep, blocks snap, largest_free snap, bs)
      end
  end =
  Ok (1, Report 1 2 1 2 0 0 1 128,
      [BlockInfo 0 160 false; BlockInfo 160 4016 false; BlockInfo 4176 4016 true; BlockInfo 8192 4016 false; BlockInfo 12208 4182096 true],
      4182096,
      [BlockInfo 0 160 true; BlockInfo 160 4016 false; BlockInfo 4176 4016 true; BlockInfo 8192 4016 false; BlockInfo 12208 4182096 true]).
Proof. vm_compute. reflexivity. Qed.
