(* ===== verification/Rust.v ===== *)
(** * The Rust port: base ([rust/src/lib.rs], [rust/src/platform.rs])

    The trait [Allocator], the arithmetic helpers and the mapped regions of
    the Rust port.  Integers are [usize] of 64 bits.  With overflow checks
    ([chk], a debug build) an operation that leaves the range panics, without
    them it wraps around; [debug_assert!] is compiled in exactly with them.  A
    panic - a failed check or assert, an index outside a [Vec] - is [Abort]. *)

From S2P Require Import Prelude Memory Platform Allocator.

(** ** Checked arithmetic and vectors *)

Definition u_add (chk : bool) (x y : Z) : outcome Z := if chk && (2 ^ 64 <=? x + y) then Abort else Ok (x +% y).
Definition u_sub (chk : bool) (x y : Z) : outcome Z := if chk && (x <? y) then Abort else Ok (x -% y).
Definition u_mul (chk : bool) (x y : Z) : outcome Z := if chk && (2 ^ 64 <=? x * y) then Abort else Ok (x *% y).

(** [1 << n]: without checks the amount is taken modulo the width. *)
Definition u_shl1 (chk : bool) (n : Z) : outcome Z :=
  if n <? 64 then Ok (Z.shiftl 1 n) else if chk then Abort else Ok (Z.shiftl 1 (n mod 64)).

(** [x % y] and [x / y] panic on 0 in every build. *)
Definition u_rem (x y : Z) : outcome Z := if y =? 0 then Abort else Ok (x mod y).
Definition u_div (x y : Z) : outcome Z := if y =? 0 then Abort else Ok (x / y).

(** [v[i]] and [v[i] = x] on a [Vec]. *)
Definition vec_get {A : Type} (v : list A) (i : Z) : outcome A :=
  match v !! Z.to_nat i with Some x => Ok x | None => Abort end.
Definition vec_set {A : Type} (v : list A) (i : Z) (x : A) : outcome (list A) :=
  if i <? Z.of_nat (length v) then Ok (<[Z.to_nat i := x]> v) else Abort.

(** [assert!] and [debug_assert!]. *)
Definition r_assert (b : bool) : outcome unit := if b then Ok () else Abort.
Definition debug_assert (chk b : bool) : outcome unit := if chk then r_assert b else Ok ().

(** ** [lib.rs] *)

Definition DEFAULT_ALIGN : Z := 16.

(** [Stats] and [BlockInfo] have the fields of the C structs. *)
Abbreviation Stats_t := hf_stats.
Abbreviation BlockInfo_t := hf_block_info.

(** The trait [Allocator]; [walk] yields the blocks its closure is called
    with, [drop] what is unmapped when the value is dropped. *)
Class RAllocator (S : Type) : Type := {
  ra_allocate : S → mem → Z → Z → outcome (S * mem * option Z);
  ra_deallocate : S → mem → Z → outcome (S * mem);
  ra_name : S → string;
  ra_stats : S → Stats_t;
  ra_walk : S → mem → outcome (list BlockInfo_t);
  ra_drop : S → list (Z * Z)
}.

(** The provided method [alloc]. *)
Definition alloc {S : Type} `{!RAllocator S} (s : S) (m : mem) (size : Z) : outcome (S * mem * option Z) :=
  ra_allocate s m size DEFAULT_ALIGN.

(** A Rust allocator behind the interface of the C code: [None] is the null
    pointer. *)
#[global] Instance RAllocator_vtable {S : Type} `{!RAllocator S} : hf_allocator_vtable S := {
  vt_allocate := λ s m size al, '(s, m, p) ← ra_allocate s m size al; Ok (s, m, default NULL p);
  vt_deallocate := ra_deallocate;
  vt_name := ra_name;
  vt_get_stats := ra_stats;
  vt_walk := ra_walk;
  vt_destroyed := list (Z * Z);
  vt_destroy := λ s m, Ok (ra_drop s)
}.

(** [stats.alloc_calls += 1] and the like. *)
Definition count_alloc (chk : bool) (st : Stats_t) : outcome Stats_t :=
  n ← u_add chk (alloc_calls st) 1; Ok (Stats (capacity st) (used st) (peak_used st) n (free_calls st) (failed_allocs st)).
Definition count_free (chk : bool) (st : Stats_t) : outcome Stats_t :=
  n ← u_add chk (free_calls st) 1; Ok (Stats (capacity st) (used st) (peak_used st) (alloc_calls st) n (failed_allocs st)).
Definition count_failed (chk : bool) (st : Stats_t) : outcome Stats_t :=
  n ← u_add chk (failed_allocs st) 1; Ok (Stats (capacity st) (used st) (peak_used st) (alloc_calls st) (free_calls st) n).

(** [stats.used += n; stats.peak_used = stats.peak_used.max(stats.used)]. *)
Definition add_used (chk : bool) (n : Z) (st : Stats_t) : outcome Stats_t :=
  u ← u_add chk (used st) n;
  Ok (Stats (capacity st) u (Z.max (peak_used st) u) (alloc_calls st) (free_calls st) (failed_allocs st)).

(** [stats.used -= n]. *)
Definition sub_used (chk : bool) (n : Z) (st : Stats_t) : outcome Stats_t := u ← u_sub chk (used st) n; Ok (set_used u st).

Definition align_up (chk : bool) (n align : Z) : outcome Z :=
  t ← u_add chk n align;
  t ← u_sub chk t 1;
  a ← u_sub chk align 1;
  Ok (Z.land t (not64 a)).

Definition next_pow2 (chk : bool) (n : Z) : outcome Z :=
  if n <=? 1 then Ok 1 else
  n ← u_sub chk n 1;
  let n := Z.lor n (Z.shiftr n 1) in
  let n := Z.lor n (Z.shiftr n 2) in
  let n := Z.lor n (Z.shiftr n 4) in
  let n := Z.lor n (Z.shiftr n 8) in
  let n := Z.lor n (Z.shiftr n 16) in
  let n := Z.lor n (Z.shiftr n 32) in
  u_add chk n 1.

(** [while n > 1 { n >>= 1; r += 1; }] runs at most 63 times. *)
Fixpoint log2_floor_loop (fuel : nat) (n r : Z) : outcome Z :=
  match fuel with
  | O => OutOfFuel
  | S fuel => if n >? 1 then log2_floor_loop fuel (Z.shiftr n 1) (r + 1) else Ok r
  end.

Definition log2_floor (n : Z) : outcome Z := log2_floor_loop 64 n 0.

(** ** [platform.rs] *)

(** [page_size]: the [OnceLock] is set on the first call. *)
Definition page_size (sysconf : Z) (ps : option Z) : Z * option Z :=
  let v := match ps with Some v => v | None => wrap64 sysconf end in (v, Some v).

Inductive Protection : Type :=
| PNone
| PReadOnly
| PReadWrite.

Record VmRegion : Type := Region { base : Z; len : Z }.

Definition reserve (chk : bool) (ps : Z) (mmap : Z → option Z) (size : Z) : outcome (option VmRegion) :=
  len ← align_up chk (Z.max size 1) ps;
  match mmap len with
  | None => Ok None
  | Some p => Ok (Some (Region p len))
  end.

Definition is_empty (r : VmRegion) : bool := len r =? 0.

(** [PROT_READ] is 1, [PROT_WRITE] 2. *)
Definition prot_flags (prot : Protection) : Z :=
  match prot with PNone => 0 | PReadOnly => 1 | PReadWrite => Z.lor 1 2 end.

Definition protect (chk : bool) (ps : Z) (mprotect : Z → Z → Z → Z) (r : VmRegion) (offset size : Z) (prot : Protection) : outcome bool :=
  len ← align_up chk size ps;
  Ok (mprotect (base r + offset) len (prot_flags prot) =? 0).

(** One iteration per page and one for the exit; touching a page that is not
    mapped faults. *)
Fixpoint prefault_loop (fuel : nat) (mapped : Z → bool) (chk : bool) (ps : Z) (m : mem) (r : VmRegion) (off : Z) : outcome mem :=
  match fuel with
  | O => OutOfFuel
  | S fuel =>
      if off <? len r then
        if negb (mapped (base r + off)) then Fault else
        let m := store8 m (base r + off) (load8 m (base r + off)) in
        off' ← u_add chk off ps;
        prefault_loop fuel mapped chk ps m r off'
      else Ok m
  end.

Definition prefault (mapped : Z → bool) (chk : bool) (ps : Z) (m : mem) (r : VmRegion) : outcome mem :=
  prefault_loop (S (S (Z.to_nat (len r / ps)))) mapped chk ps m r 0.

(** [Drop]: the range [munmap] is called on. *)
Definition VmRegion_drop (r : VmRegion) : Z * Z := (base r, len r).

Definition raw_protect (mprotect : Z → Z → Z → Z) (addr n : Z) (prot : Protection) : bool :=
  mprotect addr n (prot_flags prot) =? 0.

(** ** In range the checks never fire *)

Lemma u_add_ok chk x y : 0 ≤ x → 0 ≤ y → x + y < 2 ^ 64 → u_add chk x y = Ok (x + y).
Proof.
  intros. unfold u_add. assert ((2 ^ 64 <=? x + y) = false) as -> by (apply Z.leb_gt; lia).
  rewrite andb_false_r. by rewrite wrap64_small by ulia.
Qed.

Lemma u_sub_ok chk x y : 0 ≤ y ≤ x → x < 2 ^ 64 → u_sub chk x y = Ok (x - y).
Proof.
  intros. unfold u_sub. assert ((x <? y) = false) as -> by (apply Z.ltb_ge; lia).
  rewrite andb_false_r. by rewrite wrap64_small by ulia.
Qed.

Lemma u_mul_ok chk x y : 0 ≤ x * y < 2 ^ 64 → u_mul chk x y = Ok (x * y).
Proof.
  intros. unfold u_mul. assert ((2 ^ 64 <=? x * y) = false) as -> by (apply Z.leb_gt; lia).
  rewrite andb_false_r. by rewrite wrap64_small by ulia.
Qed.

Lemma u_shl1_ok chk n : n < 64 → u_shl1 chk n = Ok (Z.shiftl 1 n).
Proof. intros. unfold u_shl1. by rewrite (proj2 (Z.ltb_lt _ _)). Qed.

Lemma vec_get_ok {A} (v : list A) i x : v !! Z.to_nat i = Some x → vec_get v i = Ok x.
Proof. intros H. unfold vec_get. by rewrite H. Qed.

Lemma vec_set_ok {A} (v : list A) i x : i < Z.of_nat (length v) → vec_set v i x = Ok (<[Z.to_nat i := x]> v).
Proof. intros H. unfold vec_set. by rewrite (proj2 (Z.ltb_lt _ _)). Qed.

Lemma align_up_ok chk n k : 0 ≤ n → 0 ≤ k < 64 → n + 2 ^ k < 2 ^ 64 → align_up chk n (2 ^ k) = Ok (round_up n (2 ^ k)).
Proof.
  intros Hn Hk Hb. pose proof (pow2_pos k ltac:(lia)). unfold align_up. rewrite u_add_ok by lia. cbn [mbind outcome_bind].
  rewrite !u_sub_ok by lia. cbn [mbind outcome_bind]. f_equal. rewrite <- hf_align_up_pow2 by lia.
  unfold hf_align_up. rewrite (wrap64_small (n + 2 ^ k)) by ulia. rewrite !wrap64_small by ulia. done.
Qed.

Lemma align_up_page chk n ps : page_size_ok ps → 0 ≤ n ≤ 2 ^ 63 → align_up chk n ps = Ok (round_up n ps).
Proof. intros (k & Hk & ->) Hn. pose proof (pow2_le_mono k 30 ltac:(lia)). apply align_up_ok; lia. Qed.

Lemma smear_u64 x k : is_u64 x → 0 ≤ k → is_u64 (Z.lor x (Z.shiftr x k)).
Proof.
  intros [Hx1 Hx2] Hk. apply lor_u64; [done|]. rewrite Z.shiftr_div_pow2 by done. pose proof (pow2_pos k Hk).
  split; [by apply Z.div_pos|]. apply Z.div_lt_upper_bound; [done|nia].
Qed.

Lemma next_pow2_ok chk n : 1 ≤ n ≤ 2 ^ 63 → next_pow2 chk n = Ok (hf_next_pow2 n).
Proof.
  intros Hn. unfold next_pow2. destruct (n <=? 1) eqn:E; zb; [assert (n = 1) as -> by lia; done|]. rewrite u_sub_ok by lia.
  cbn [mbind outcome_bind].
  match goal with |- u_add chk ?x 1 = _ => set (y := x) end.
  assert (y +% 1 = hf_next_pow2 n) as Hy.
  { unfold hf_next_pow2. destruct (n <=? 1) eqn:E2; zb; [lia|]. by rewrite (wrap64_small (n - 1)) by ulia. }
  assert (is_u64 y) as [Hy1 Hy2] by (unfold y; repeat (apply smear_u64; [|lia]); ulia).
  assert (0 < hf_next_pow2 n) as Hpos by (rewrite hf_next_pow2_log2_up by lia; apply pow2_pos, Z.log2_up_nonneg).
  assert (y + 1 < 2 ^ 64) as Hlt.
  { destruct (decide (y + 1 = 2 ^ 64)) as [Eq|]; [|lia]. rewrite <- Hy, Eq in Hpos. by vm_compute in Hpos. }
  clearbody y. rewrite u_add_ok by lia. f_equal. by rewrite wrap64_small in Hy by ulia.
Qed.

Lemma log2_floor_loop_ok fuel n r : 0 < n < 2 ^ Z.of_nat fuel → log2_floor_loop fuel n r = Ok (r + Z.log2 n).
Proof.
  revert n r. induction fuel as [|fuel IH]; intros n r Hn; [simpl in Hn; lia|]. cbn [log2_floor_loop].
  rewrite Nat2Z.inj_succ, Z.pow_succ_r in Hn by lia. destruct (n >? 1) eqn:E; zb.
  - assert (0 < Z.shiftr n 1 < 2 ^ Z.of_nat fuel) as Hs.
    { rewrite Z.shiftr_div_pow2, Z.pow_1_r by lia. split; [apply Z.div_str_pos; lia|apply Z.div_lt_upper_bound; lia]. }
    rewrite IH by done. f_equal. rewrite Z.log2_shiftr by lia. pose proof (Z.log2_pos n ltac:(lia)). lia.
  - assert (n = 1) as -> by lia. f_equal. cbn. lia.
Qed.

Lemma log2_floor_ok n : 0 < n < 2 ^ 64 → log2_floor n = Ok (Z.log2 n).
Proof. intros Hn. unfold log2_floor. by rewrite log2_floor_loop_ok by done. Qed.

Lemma reserve_ok chk ps mmap n : page_size_ok ps → mmap_ok ps mmap → 1 ≤ n ≤ 2 ^ 63 →
  reserve chk ps mmap n = Ok (match mmap (round_up n ps) with Some p => Some (Region p (round_up n ps)) | None => None end) ∧
  ∀ p, mmap (round_up n ps) = Some p → 0 < p ∧ (ps | p) ∧ p + n ≤ 2 ^ 64.
Proof.
  intros Hps Hm Hn. unfold reserve. rewrite Z.max_l by lia. rewrite align_up_page by (done || lia). cbn [mbind outcome_bind].
  split; [by destruct (mmap _)|]. intros p Hp. destruct (Hm _ _ Hp) as (? & ? & ?). pose proof (page_size_bounds ps Hps).
  pose proof (round_up_ge n ps ltac:(lia)). split_and!; [done|done|lia].
Qed.

(** ** What a Rust allocator promises *)

(** The number of calls so far, as far as the counters know. *)
Definition calls (st : Stats_t) : Z := Z.max (alloc_calls st) (Z.max (free_calls st) (failed_allocs st)).

(** With overflow checks the counters themselves can panic, after 2^64 calls. *)
Definition room (chk : bool) (st : Stats_t) : Prop := chk = true → calls st < 2 ^ 64 - 1.

Definition counters_u64 (st : Stats_t) : Prop := is_u64 (alloc_calls st) ∧ is_u64 (free_calls st) ∧ is_u64 (failed_allocs st).

(** The contract of [Allocator], for an allocator built with or without
    overflow checks. *)
Class RustSpec (chk : bool) (lim : Z) (S : Type) `{!RAllocator S} : Type := {
  r_inv : S → mem → live_map → Prop;
  r_live_range s m L p n :
    r_inv s m L → L !! p = Some n → 0 < p ∧ 0 ≤ n ∧ p + n ≤ 2 ^ 64 ∧ (DEFAULT_ALIGN | p);
  r_live_apart s m L p n q k :
    r_inv s m L → L !! p = Some n → L !! q = Some k → p ≠ q → ∀ x, range p n x → ¬ range q k x;
  r_allocate s m L size :
    r_inv s m L → 0 ≤ size ≤ lim → room chk (ra_stats s) →
    ∃ s' m' p, alloc s m size = Ok (s', m', p) ∧ calls (ra_stats s') ≤ calls (ra_stats s) + 1 ∧
      agree_on (in_live L) m m' ∧
      match p with
      | None => r_inv s' m' L
      | Some p => 0 < p ∧ L !! p = None ∧ r_inv s' m' (<[p := size]> L)
      end;
  r_deallocate s m L p n :
    r_inv s m L → L !! p = Some n → room chk (ra_stats s) →
    ∃ s' m', ra_deallocate s m p = Ok (s', m') ∧ calls (ra_stats s') ≤ calls (ra_stats s) + 1 ∧
      agree_on (in_live (delete p L)) m m' ∧ r_inv s' m' (delete p L);
  r_client_write s m m' L :
    r_inv s m L → agree_on (λ x, ¬ in_live L x) m m' → r_inv s m' L
}.

Section client.
Context {chk : bool} {lim : Z} {S : Type} `{!RAllocator S} `{!RustSpec chk lim S}.

Definition rust_client_inv (c : client S) : Prop :=
  r_inv (cl_alloc c) (cl_mem c) (cl_live c) ∧
  ∀ x v, cl_shadow c !! x = Some v → in_live (cl_live c) x ∧ load8 (cl_mem c) x = v.

Lemma rust_client_step c o : rust_client_inv c → op_ok lim o → room chk (ra_stats (cl_alloc c)) →
  ∃ c', client_step c o = Ok c' ∧ rust_client_inv c' ∧ calls (ra_stats (cl_alloc c')) ≤ calls (ra_stats (cl_alloc c)) + 1.
Proof.
  intros [Hinv Hsh] Ho Hroom. destruct o as [n|p|x v]; cbn [client_step].
  - destruct (r_allocate _ _ _ n Hinv Ho Hroom) as (s' & m' & p & E & Hcalls & Hag & Hp). unfold alloc, DEFAULT_ALIGN in E.
    unfold hf_allocate, vt_allocate, RAllocator_vtable, HF_DEFAULT_ALIGN. rewrite E. cbn [mbind outcome_bind].
    eexists. split; [done|]. split; [|done].
    assert (∀ x v, cl_shadow c !! x = Some v → load8 m' x = v) as Hkeep.
    { intros x v Hx. destruct (Hsh x v Hx) as [Hl <-]. by apply Hag. }
    destruct p as [p|]; simpl.
    + destruct Hp as (Hp & HN & Hi). destruct (Z.eqb_spec p 0); [lia|]. split; [done|]. cbn. intros x v Hx.
      split; [|by apply Hkeep]. apply in_live_insert; [done|]. right. by apply (Hsh x v).
    + split; [done|]. cbn. intros x v Hx. split; [by apply (Hsh x v)|by apply Hkeep].
  - destruct (cl_live c !! p) as [n|] eqn:Hp; [|exists c; split_and!; try done; lia].
    destruct (r_deallocate _ _ _ p n Hinv Hp Hroom) as (s' & m' & E & Hcalls & Hag & Hi).
    unfold hf_deallocate, vt_deallocate, RAllocator_vtable. rewrite E. cbn [mbind outcome_bind].
    eexists. split; [done|]. split; [|done]. split; [done|]. cbn. intros x v Hx. apply map_lookup_filter_Some in Hx as [Hx Hout].
    cbn in Hout. destruct (Hsh x v Hx) as [(q & k & Hq & Hr) <-].
    assert (in_live (delete p (cl_live c)) x) as Hl.
    { exists q, k. split; [|done]. apply lookup_delete_Some. split; [|done]. intros <-. simplify_eq. rlia. }
    split; [done|]. by apply Hag.
  - destruct (in_live_b _ x) eqn:Hx; [|exists c; split_and!; try done; lia]. apply in_live_b_spec in Hx.
    eexists. split; [done|]. split; [|cbn; lia]. split; cbn.
    + eapply r_client_write; [done|]. intros y Hy. rewrite load8_store8, decide_False; [done|]. by intros ->.
    + intros y w Hy. rewrite load8_store8. destruct (decide (y = x)) as [->|].
      * rewrite lookup_insert_eq in Hy. by simplify_eq.
      * rewrite lookup_insert_ne in Hy by done. by apply Hsh.
Qed.

(** Programs of fewer than 2^64 calls run safely in both builds. *)
Lemma rust_client_run os c : rust_client_inv c → Forall (op_ok lim) os →
  calls (ra_stats (cl_alloc c)) + Z.of_nat (length os) < 2 ^ 64 →
  ∃ c', client_run c os = Ok c' ∧ rust_client_inv c'.
Proof.
  intros Hc Hos. revert c Hc. induction Hos as [|o os Ho _ IH]; intros c Hc Hn; [by exists c|]. cbn [length] in Hn.
  destruct (rust_client_step c o Hc Ho) as (c1 & E & Hc1 & Hcalls); [intros _; lia|].
  cbn [client_run]. rewrite E. cbn [mbind outcome_bind]. apply IH; [done|lia].
Qed.

Lemma rust_client_ok c : rust_client_inv c → client_ok DEFAULT_ALIGN c.
Proof.
  intros [Hinv Hsh]. split_and!.
  - intros p n Hp. pose proof (r_live_range _ _ _ p n Hinv Hp). tauto.
  - intros p n q k x Hp Hq Hne. by apply (r_live_apart _ _ _ p n q k Hinv).
  - intros x v Hx. by apply Hsh.
Qed.

Lemma rust_client_safe s m os : r_inv s m ∅ → Forall (op_ok lim) os →
  calls (ra_stats s) + Z.of_nat (length os) < 2 ^ 64 →
  ∃ c, client_run (Client s m ∅ ∅) os = Ok c ∧ client_ok DEFAULT_ALIGN c.
Proof.
  intros Hi Hos Hn. destruct (rust_client_run os (Client s m ∅ ∅)) as (c & Hr & Hc); [|done|done|].
  - split; [done|]. intros x v. cbn. by rewrite lookup_empty.
  - exists c. split; [done|]. by apply rust_client_ok.
Qed.
End client.

(** ** The counters *)

Section counters.
Context (chk : bool) (st : Stats_t) (Hu : counters_u64 st) (Hroom : room chk st).

Lemma bump_ok x : is_u64 x → x ≤ calls st → ∃ y, u_add chk x 1 = Ok y ∧ is_u64 y ∧ y ≤ x + 1.
Proof.
  intros Hx Hc. unfold u_add. destruct (chk && _) eqn:E.
  - apply andb_true_iff in E as [-> E]. zb. specialize (Hroom eq_refl). ulia.
  - eexists. split; [done|]. pose proof (wrap64_range (x + 1)). split; [done|].
    unfold wrap64. apply Z.mod_le; ulia.
Qed.

(** A counter goes up by one; the others and [used] stay. *)
Definition counted (st st' : Stats_t) : Prop :=
  capacity st' = capacity st ∧ used st' = used st ∧ peak_used st' = peak_used st ∧
  counters_u64 st' ∧ calls st' ≤ calls st + 1.

Lemma count_alloc_ok : ∃ st', count_alloc chk st = Ok st' ∧ counted st st' ∧ failed_allocs st' = failed_allocs st.
Proof.
  destruct Hu as (H1 & H2 & H3). destruct (bump_ok (alloc_calls st) H1 ltac:(unfold calls; lia)) as (y & E & Hy & Hle).
  unfold count_alloc. rewrite E. cbn [mbind outcome_bind]. eexists. split; [done|]. split; [|done]. split_and!; try done. unfold calls. cbn. lia.
Qed.

Lemma count_free_ok : ∃ st', count_free chk st = Ok st' ∧ counted st st'.
Proof.
  destruct Hu as (H1 & H2 & H3). destruct (bump_ok (free_calls st) H2 ltac:(unfold calls; lia)) as (y & E & Hy & Hle).
  unfold count_free. rewrite E. cbn [mbind outcome_bind]. eexists. split; [done|]. split_and!; try done. unfold calls. cbn. lia.
Qed.

(** Both counters of a request that fails. *)
Lemma count_failed_ok st1 : counted st st1 → failed_allocs st1 = failed_allocs st → ∃ st', count_failed chk st1 = Ok st' ∧ counted st st'.
Proof.
  intros (C1 & C2 & C3 & C4 & C5) Ef. destruct Hu as (H1 & H2 & H3).
  destruct (bump_ok (failed_allocs st) H3 ltac:(unfold calls; lia)) as (y & E & Hy & Hle).
  unfold count_failed. rewrite Ef, E. cbn [mbind outcome_bind]. eexists. split; [done|]. destruct C4 as (? & ? & ?).
  split_and!; try done. unfold calls in *. cbn. lia.
Qed.
End counters.

Lemma add_used_ok chk n st : 0 ≤ used st → 0 ≤ n → used st + n < 2 ^ 64 →
  add_used chk n st = Ok (Stats (capacity st) (used st + n) (Z.max (peak_used st) (used st + n)) (alloc_calls st) (free_calls st) (failed_allocs st)).
Proof. intros. unfold add_used. by rewrite u_add_ok by lia. Qed.

Lemma sub_used_ok chk n st : 0 ≤ n ≤ used st → used st < 2 ^ 64 → sub_used chk n st = Ok (set_used (used st - n) st).
Proof. intros. unfold sub_used. by rewrite u_sub_ok by lia. Qed.

(** ** Ports of C allocators *)

(** With room in the counters they count as in C. *)
Lemma count_alloc_eq chk st : counters_u64 st → room chk st →
  count_alloc chk st = Ok (bump_alloc st) ∧ counted st (bump_alloc st).
Proof.
  intros Hu Hr. destruct (count_alloc_ok chk st Hu Hr) as (st' & E & Hc & _). assert (st' = bump_alloc st) as ->; [|done].
  unfold count_alloc, u_add in E. destruct (chk && _); [discriminate|]. by injection E as <-.
Qed.

Lemma count_free_eq chk st : counters_u64 st → room chk st →
  count_free chk st = Ok (bump_free st) ∧ counted st (bump_free st).
Proof.
  intros Hu Hr. destruct (count_free_ok chk st Hu Hr) as (st' & E & Hc). assert (st' = bump_free st) as ->; [|done].
  unfold count_free, u_add in E. destruct (chk && _); [discriminate|]. by injection E as <-.
Qed.

Lemma count_failed_eq chk st : counters_u64 st → room chk st →
  count_failed chk (bump_alloc st) = Ok (bump_failed (bump_alloc st)) ∧ counted st (bump_failed (bump_alloc st)).
Proof.
  intros Hu Hr. destruct (count_alloc_eq chk st Hu Hr) as [_ Hc1].
  destruct (count_failed_ok chk st Hu Hr (bump_alloc st) Hc1 eq_refl) as (st' & E & Hc).
  assert (st' = bump_failed (bump_alloc st)) as ->; [|done]. unfold count_failed, u_add in E. destruct (chk && _); [discriminate|]. by injection E as <-.
Qed.

Lemma raise_peak_max st : raise_peak st =
  Stats (capacity st) (used st) (Z.max (peak_used st) (used st)) (alloc_calls st) (free_calls st) (failed_allocs st).
Proof. unfold raise_peak. f_equal. rewrite Z.gtb_ltb. destruct (Z.ltb_spec (peak_used st) (used st)); lia. Qed.

(** Only [used] and its peak differ. *)
Lemma counted_used st st' u k : counted st st' →
  counters_u64 (Stats (capacity st') u k (alloc_calls st') (free_calls st') (failed_allocs st')) ∧
  calls (Stats (capacity st') u k (alloc_calls st') (free_calls st') (failed_allocs st')) ≤ calls st + 1.
Proof. by intros (_ & _ & _ & ? & ?). Qed.

(** A Rust allocator that does what a C one does, on the states [to_c] relates,
    inherits its contract. *)
Section port.
Context {chk : bool} {lim : Z} {S A : Type} `{!RAllocator S} `{!hf_allocator_vtable A} `{!AllocatorSpec DEFAULT_ALIGN lim A}.
Context (to_c : S → A).

Definition port_inv (s : S) (m : mem) (L : live_map) : Prop := alloc_inv (to_c s) m L ∧ counters_u64 (ra_stats s).

Context (Halloc : ∀ s m L size a' m' p, port_inv s m L → 0 ≤ size ≤ lim → room chk (ra_stats s) →
  hf_allocate (to_c s) m size = Ok (a', m', p) →
  ∃ s' r, alloc s m size = Ok (s', m', r) ∧ default NULL r = p ∧ r ≠ Some NULL ∧ to_c s' = a' ∧
    counters_u64 (ra_stats s') ∧ calls (ra_stats s') ≤ calls (ra_stats s) + 1).
Context (Hfree : ∀ s m L p n a' m', port_inv s m L → L !! p = Some n → room chk (ra_stats s) →
  hf_deallocate (to_c s) m p = Ok (a', m') →
  ∃ s', ra_deallocate s m p = Ok (s', m') ∧ to_c s' = a' ∧
    counters_u64 (ra_stats s') ∧ calls (ra_stats s') ≤ calls (ra_stats s) + 1).

Lemma port_spec : RustSpec chk lim S.
Proof using Halloc Hfree.
  refine {| r_inv := port_inv |}.
  - intros s m L p n [Hi _]. by apply (spec_live_range (to_c s) m).
  - intros s m L p n q k [Hi _]. by apply (spec_live_apart (to_c s) m).
  - intros s m L size Hs Hsz Hroom. pose proof Hs as [Hi Hc].
    destruct (spec_allocate _ _ _ size Hi Hsz) as (a' & m' & p & E & Hag & Hcase).
    destruct (Halloc s m L size a' m' p Hs Hsz Hroom E) as (s' & r & -> & Ep & Hnn & <- & Hc' & Hca).
    exists s', m', r. split; [done|]. split; [done|]. split; [done|]. destruct r as [p'|]; cbn in Ep; subst p.
    + destruct Hcase as [[-> _]|(Hp & HN & _ & Hi')]; [done|].
      pose proof (spec_live_range _ _ _ p' size Hi' ltac:(apply lookup_insert_eq)) as [? _]. split; [done|]. split; [done|]. by split.
    + destruct Hcase as [[_ Hi']|[? _]]; [by split|done].
  - intros s m L p n Hs Hp Hroom. pose proof Hs as [Hi Hc].
    destruct (spec_deallocate _ _ _ p n Hi Hp) as (a' & m' & E & Hag & Hi').
    destruct (Hfree s m L p n a' m' Hs Hp Hroom E) as (s' & -> & <- & Hc' & Hca).
    exists s', m'. split; [done|]. split; [done|]. split; [done|]. by split.
  - intros s m m' L [Hi Hc] Hag. split; [by apply (spec_client_write _ m)|done].
Defined.
End port.
