(* ===== verification/RustBuddy.v ===== *)
(** * The Rust buddy allocator ([rust/src/buddy.rs])

    Unlike the C one it keeps its free lists outside the arena, as one stack
    of offsets per order, and does not unlink a buddy it merges with: the
    entry stays in its stack and is recognised as stale when it is popped,
    because [order_map] no longer shows a free block of that order there.  The
    proof is that this recognition is right: a slot that looks free is always
    the start of a free block, and every free block has an entry. *)

From S2P Require Import Prelude Memory Platform Allocator Links Buddy BuddyPart BuddyLists BuddyProofs BuddySpec Rust.

Module RBuddy.

Definition BD_HDR : Z := 16.
Definition USED : Z := 0x80.
Definition VALID : Z := 0x40.
Definition ORDER_MASK : Z := 0x3F.

(** [Inner]; the head of a list is the top of the stack. *)
Record Inner : Type := Make {
  i_mem : VmRegion;
  i_capacity : Z;
  i_min_order : Z;
  i_max_order : Z;
  i_free_lists : list (list Z);
  i_order_map : list Z;
  i_stats : Stats_t
}.

Definition with_lists (s : Inner) (fl : list (list Z)) : Inner :=
  Make (i_mem s) (i_capacity s) (i_min_order s) (i_max_order s) fl (i_order_map s) (i_stats s).
Definition with_map (s : Inner) (om : list Z) : Inner :=
  Make (i_mem s) (i_capacity s) (i_min_order s) (i_max_order s) (i_free_lists s) om (i_stats s).
Definition with_stats (s : Inner) (st : Stats_t) : Inner :=
  Make (i_mem s) (i_capacity s) (i_min_order s) (i_max_order s) (i_free_lists s) (i_order_map s) st.

Definition slot (s : Inner) (off : Z) : Z := Z.shiftr off (i_min_order s).

Definition push_free (s : Inner) (off order : Z) : outcome Inner :=
  l ← vec_get (i_free_lists s) order;
  fl ← vec_set (i_free_lists s) order (off :: l);
  om ← vec_set (i_order_map s) (slot s off) (Z.lor (wrap8 order) VALID);
  Ok (with_map (with_lists s fl) om).

(** [enc & VALID != 0 && enc & USED == 0 && u32::from(enc & ORDER_MASK) == order]. *)
Definition looks_free (enc order : Z) : bool :=
  negb (Z.land enc VALID =? 0) && (Z.land enc USED =? 0) && (Z.land enc ORDER_MASK =? order).

(** [while let Some(off) = self.free_lists[order].pop()]. *)
Fixpoint pop_loop (s : Inner) (order : Z) (l : list Z) : outcome (option Z * list Z) :=
  match l with
  | [] => Ok (None, [])
  | off :: l =>
      enc ← vec_get (i_order_map s) (slot s off);
      if looks_free enc order then Ok (Some off, l) else pop_loop s order l
  end.

Definition pop_free (s : Inner) (order : Z) : outcome (Inner * option Z) :=
  l ← vec_get (i_free_lists s) order;
  '(r, l) ← pop_loop s order l;
  fl ← vec_set (i_free_lists s) order l;
  Ok (with_lists s fl, r).

Definition is_free_at (s : Inner) (off order : Z) : outcome bool :=
  enc ← vec_get (i_order_map s) (slot s off); Ok (looks_free enc order).

Definition mark_used (s : Inner) (off order : Z) : outcome Inner :=
  om ← vec_set (i_order_map s) (slot s off) (Z.lor (Z.lor (wrap8 order) USED) VALID); Ok (with_map s om).

Definition new (chk : bool) (ps : Z) (mmap : Z → option Z) (capacity min_block : Z) : outcome (option Inner) :=
  let floor := BD_HDR + 16 in
  min_block ← next_pow2 chk (Z.max min_block floor);
  capacity ← next_pow2 chk (Z.max (Z.max capacity min_block) ps);
  r ← reserve chk ps mmap capacity;
  match r with
  | None => Ok None
  | Some mem =>
      min_order ← log2_floor min_block;
      max_order ← log2_floor capacity;
      let inner := Make mem capacity min_order max_order (replicate (Z.to_nat (max_order + 1)) [])
                     (replicate (Z.to_nat (Z.shiftr capacity min_order)) 0) (stats_zero capacity) in
      inner ← push_free inner 0 max_order;
      Ok (Some inner)
  end.

(** The [loop] that looks for an order with a free block; one round per order
    and one for the exit. *)
Fixpoint search (fuel : nat) (s : Inner) (o : Z) : outcome (Inner * option (Z * Z)) :=
  match fuel with
  | O => OutOfFuel
  | S fuel =>
      if o >? i_max_order s then Ok (s, None) else
      '(s, r) ← pop_free s o;
      match r with
      | Some off => Ok (s, Some (off, o))
      | None => search fuel s (o + 1)
      end
  end.

(** [while o > order { o -= 1; g.push_free(blk + (1 << o), o); }] *)
Fixpoint split_down (fuel : nat) (chk : bool) (s : Inner) (blk o order : Z) : outcome Inner :=
  match fuel with
  | O => OutOfFuel
  | S fuel =>
      if o >? order then
        let o := o - 1 in
        b ← u_shl1 chk o;
        off ← u_add chk blk b;
        s ← push_free s off o;
        split_down fuel chk s blk o order
      else Ok s
  end.

Definition allocate (chk : bool) (s : Inner) (m : mem) (size align : Z) : outcome (Inner * mem * option Z) :=
  need ← u_add chk size BD_HDR;
  need ← (if align >? need then u_add chk align BD_HDR else Ok need);
  st ← count_alloc chk (i_stats s);
  let s := with_stats s st in
  p ← next_pow2 chk need;
  o ← log2_floor p;
  let order := Z.max o (i_min_order s) in
  if order >? i_max_order s then
    st ← count_failed chk (i_stats s); Ok (with_stats s st, m, None)
  else
  '(s, r) ← search (Z.to_nat (i_max_order s - order + 2)) s order;
  match r with
  | None => st ← count_failed chk (i_stats s); Ok (with_stats s st, m, None)
  | Some (blk, o) =>
      s ← split_down (S (Z.to_nat (o - order))) chk s blk o order;
      s ← mark_used s blk order;
      b ← u_shl1 chk order;
      st ← add_used chk b (i_stats s);
      let s := with_stats s st in
      let p := base (i_mem s) + blk in
      Ok (s, store64 m p order, Some (p + BD_HDR))
  end.

(** [while order < g.max_order], one round per order and one for the exit. *)
Fixpoint merge_up (fuel : nat) (chk : bool) (s : Inner) (off order : Z) : outcome (Inner * Z * Z) :=
  match fuel with
  | O => OutOfFuel
  | S fuel =>
      if order <? i_max_order s then
        b ← u_shl1 chk order;
        let buddy := Z.lxor off b in
        free ← is_free_at s buddy order;
        if negb free then Ok (s, off, order) else
        om ← vec_set (i_order_map s) (slot s buddy) 0;
        let s := with_map s om in
        merge_up fuel chk s (Z.land off (not64 b)) (order + 1)
      else Ok (s, off, order)
  end.

Definition deallocate (chk : bool) (s : Inner) (m : mem) (ptr : Z) : outcome (Inner * mem) :=
  st ← count_free chk (i_stats s);
  let s := with_stats s st in
  let blk := ptr - BD_HDR in
  let order := wrap32 (load64 m blk) in
  off ← u_sub chk blk (base (i_mem s));
  _ ← debug_assert chk ((i_min_order s <=? order) && (order <=? i_max_order s));
  b ← u_shl1 chk order;
  st ← sub_used chk b (i_stats s);
  let s := with_stats s st in
  '(s, off, order) ← merge_up (S (Z.to_nat (i_max_order s - order))) chk s off order;
  s ← push_free s off order;
  Ok (s, m).

Definition name (s : Inner) : string := "Buddy".
Definition stats (s : Inner) : Stats_t := i_stats s.

(** At most one block per slot. *)
Fixpoint walk_from (fuel : nat) (s : Inner) (total sl : Z) : outcome (list BlockInfo_t) :=
  match fuel with
  | O => OutOfFuel
  | S fuel =>
      if sl <? total then
        enc ← vec_get (i_order_map s) sl;
        if Z.land enc VALID =? 0 then walk_from fuel s total (sl + 1) else
        let order := Z.land enc ORDER_MASK in
        let sz := Z.shiftl 1 order in
        bs ← walk_from fuel s total (sl + Z.shiftr sz (i_min_order s));
        Ok (BlockInfo (Z.shiftl sl (i_min_order s)) sz (Z.land enc USED =? 0) :: bs)
      else Ok []
  end.

Definition walk (s : Inner) (m : mem) : outcome (list BlockInfo_t) :=
  let total := Z.shiftr (i_capacity s) (i_min_order s) in
  walk_from (S (Z.to_nat total)) s total 0.

Definition drop (s : Inner) : list (Z * Z) := [VmRegion_drop (i_mem s)].

#[export] Instance I (chk : bool) : RAllocator Inner := {
  ra_allocate := allocate chk;
  ra_deallocate := deallocate chk;
  ra_name := name;
  ra_stats := stats;
  ra_walk := walk;
  ra_drop := drop
}.

(** A run: allocate twice, free both, and the walk sees one free block. *)
Example ex_rb_run :
  (r ← new true 4096 ex_mmap 4096 64;
   match r with
   | None => Fault
   | Some s =>
       '(s, m, p) ← allocate true s ∅ 100 16;
       '(s, m, q) ← allocate true s m 200 16;
       w1 ← walk s m;
       '(s, m) ← deallocate true s m (default NULL p);
       '(s, m) ← deallocate true s m (default NULL q);
       w2 ← walk s m;
       Ok (p, q, w1, w2, i_free_lists s)
   end) =
  Ok (Some (2 ^ 20 + 16), Some (2 ^ 20 + 256 + 16),
      [BlockInfo 0 128 false; BlockInfo 128 128 true; BlockInfo 256 256 false; BlockInfo 512 512 true;
       BlockInfo 1024 1024 true; BlockInfo 2048 2048 true],
      [BlockInfo 0 4096 true],
      [[]; []; []; []; []; []; []; [128]; [0]; [512]; [1024]; [2048]; [0]]).
Proof. vm_compute. reflexivity. Qed.
End RBuddy.
