(* ===== verification/RustBuddyProofs.v ===== *)
(** * The Rust buddy allocator: correctness

    The invariant ties [order_map] and the stacks to a partition of the arena
    ([BuddyPart]): the byte of a block's first slot is its order and state, a
    slot that looks free is the first of a block that is free (or in the hand
    of the current call), and the stack of an order contains every free block
    of it - besides entries that have gone stale. *)

From S2P Require Import Prelude Memory Platform Allocator Links Buddy BuddyPart BuddyLists BuddyProofs BuddySpec Rust RustBuddy.
Import RBuddy.

Record rb_geo (s : Inner) : Prop := {
  rg_base : 0 < base (i_mem s) ∧ (16 | base (i_mem s));
  rg_space : base (i_mem s) + 2 ^ i_max_order s ≤ 2 ^ 64;
  rg_orders : 5 ≤ i_min_order s ≤ i_max_order s ∧ i_max_order s ≤ 62;
  rg_lists : Z.of_nat (length (i_free_lists s)) = i_max_order s + 1;
  rg_map : Z.of_nat (length (i_order_map s)) = 2 ^ (i_max_order s - i_min_order s)
}.

(** The stack of order [o]. *)
Record rb_stack (s : Inner) (T : part_map) (o : Z) (l : list Z) : Prop := {
  rs_has off : T !! off = Some (o, BFree) → off ∈ l;
  rs_in off : off ∈ l → 0 ≤ off < 2 ^ i_max_order s ∧ (2 ^ i_min_order s | off)
}.

Record rb_core (s : Inner) (m : mem) (T : part_map) : Prop := {
  rc_geo : rb_geo s;
  rc_part : part (i_min_order s) (i_max_order s) T;
  rc_map off o t : T !! off = Some (o, t) → t ≠ BHand →
    i_order_map s !! Z.to_nat (off / 2 ^ i_min_order s) = Some (enc o t);
  rc_stale i e k : i_order_map s !! i = Some e → looks_free e k = true →
    ∃ o t, T !! (Z.of_nat i * 2 ^ i_min_order s) = Some (o, t) ∧ t ≠ BUsed;
  rc_lists o : 0 ≤ o ≤ i_max_order s → ∃ l, i_free_lists s !! Z.to_nat o = Some l ∧ rb_stack s T o l;
  rc_tag off o : T !! off = Some (o, BUsed) → load64 m (base (i_mem s) + off) = o
}.

(** What an operation leaves alone. *)
Definition rb_same (s s' : Inner) : Prop :=
  i_mem s' = i_mem s ∧ i_capacity s' = i_capacity s ∧ i_min_order s' = i_min_order s ∧
  i_max_order s' = i_max_order s ∧ i_stats s' = i_stats s.

Lemma rb_same_refl s : rb_same s s.
Proof. done. Qed.

Lemma rb_same_trans s1 s2 s3 : rb_same s1 s2 → rb_same s2 s3 → rb_same s1 s3.
Proof. intros (? & ? & ? & ? & ?) (? & ? & ? & ? & ?). split_and!; congruence. Qed.

(** ** Bytes of [order_map] *)

Lemma looks_free_enc o k : 0 ≤ o < 64 → looks_free (enc o BFree) k = (o =? k) ∧ looks_free (enc o BUsed) k = false.
Proof.
  intros Ho. destruct (enc_bytes o Ho) as (_ & _ & (F1 & F2 & F3) & (U1 & U2 & _)).
  unfold looks_free, VALID, USED, ORDER_MASK. split.
  - rewrite F2, F3. apply Z.eqb_neq in F1. by rewrite F1.
  - apply Z.eqb_neq in U2. by rewrite U2, andb_false_r.
Qed.

Lemma enc_lor o : 0 ≤ o < 64 → Z.lor (wrap8 o) VALID = enc o BFree ∧ Z.lor (Z.lor (wrap8 o) USED) VALID = enc o BUsed.
Proof.
  intros Ho. pose proof (forallb_below 64 (λ o, (Z.lor (wrap8 o) VALID =? enc o BFree) && (Z.lor (Z.lor (wrap8 o) USED) VALID =? enc o BUsed))
    ltac:(vm_compute; reflexivity) o Ho) as H. cbv beta in H. zb. done.
Qed.

Lemma looks_free_0 k : looks_free 0 k = false.
Proof. done. Qed.

(** ** Blocks and slots *)

Section core.
Context (s : Inner) (m : mem) (T : part_map).
Context (Hc : rb_core s m T).

Lemma rb_block off o t : T !! off = Some (o, t) →
  5 ≤ i_min_order s ≤ o ∧ o ≤ i_max_order s ∧ 0 ≤ off ∧ off + 2 ^ o ≤ 2 ^ i_max_order s ∧ (2 ^ o | off) ∧
  32 ≤ 2 ^ o ∧ (16 | base (i_mem s) + off) ∧ 0 < base (i_mem s) ∧ base (i_mem s) + off + 2 ^ o ≤ 2 ^ 64 ∧ i_max_order s ≤ 62.
Proof.
  intros H. destruct (pt_block _ _ _ (rc_part _ _ _ Hc) _ _ _ H) as (? & Hd & ? & ?).
  destruct (rc_geo _ _ _ Hc) as [[? Hm] ? [? ?] _ _]. pose proof (pow2_le_mono 5 o ltac:(lia)). split_and!; try done; try lia.
  apply Z.divide_add_r; [done|]. etransitivity; [apply (pow2_divide 4 o); lia|done].
Qed.

Lemma rb_apart x o t y k u : T !! x = Some (o, t) → T !! y = Some (k, u) → x ≠ y →
  ∀ z, range (base (i_mem s) + x) (2 ^ o) z → ¬ range (base (i_mem s) + y) (2 ^ k) z.
Proof. intros Hx Hy Hne z H1 H2. destruct (pt_apart _ _ _ (rc_part _ _ _ Hc) _ _ _ _ _ _ Hx Hy Hne); rlia. Qed.

(** A multiple of the smallest block size is found again from its slot. *)
Lemma slot_back off : 0 ≤ off < 2 ^ i_max_order s → (2 ^ i_min_order s | off) →
  slot s off = off / 2 ^ i_min_order s ∧ 0 ≤ slot s off < Z.of_nat (length (i_order_map s)) ∧
  Z.of_nat (Z.to_nat (slot s off)) * 2 ^ i_min_order s = off.
Proof.
  intros Hoff [j ->]. destruct (rc_geo _ _ _ Hc) as [_ _ [? ?] _ Hmap]. pose proof (pow2_pos (i_min_order s) ltac:(lia)).
  assert (slot s (j * 2 ^ i_min_order s) = j) as -> by (unfold slot; rewrite Z.shiftr_div_pow2, Z.div_mul by lia; done).
  rewrite Z.div_mul by lia. assert (0 ≤ j) by nia. split; [done|]. split; [|rewrite Z2Nat.id; lia].
  split; [done|]. rewrite Hmap. apply (Z.mul_lt_mono_pos_r (2 ^ i_min_order s)); [done|].
  rewrite <- Z.pow_add_r by lia. replace (i_max_order s - i_min_order s + i_min_order s) with (i_max_order s) by lia. lia.
Qed.

Lemma rb_slot off o t : T !! off = Some (o, t) →
  slot s off = off / 2 ^ i_min_order s ∧ 0 ≤ slot s off < Z.of_nat (length (i_order_map s)) ∧
  Z.of_nat (Z.to_nat (slot s off)) * 2 ^ i_min_order s = off.
Proof.
  intros H. pose proof (rb_block _ _ _ H) as (? & ? & ? & ? & Hd & ? & _). apply slot_back; [lia|].
  etransitivity; [apply (pow2_divide _ o); lia|done].
Qed.

Lemma rb_slot_ne x o t y k u : T !! x = Some (o, t) → T !! y = Some (k, u) → x ≠ y →
  Z.to_nat (slot s x) ≠ Z.to_nat (slot s y).
Proof.
  intros Hx Hy Hne E. destruct (rb_slot _ _ _ Hx) as (_ & _ & H1). destruct (rb_slot _ _ _ Hy) as (_ & _ & H2).
  apply Hne. by rewrite <- H1, <- H2, E.
Qed.

(** What a slot shows at an offset in a stack: a free block of the order, if
    it looks like one. *)
Lemma rb_looks off k : 0 ≤ off < 2 ^ i_max_order s → (2 ^ i_min_order s | off) → (∀ x j, T !! x ≠ Some (j, BHand)) →
  ∃ e, vec_get (i_order_map s) (slot s off) = Ok e ∧ (looks_free e k = true ↔ T !! off = Some (k, BFree)).
Proof.
  intros Hoff Hd Hno. destruct (slot_back off Hoff Hd) as (Es & Hs & Hback).
  destruct (lookup_lt_is_Some_2 (i_order_map s) (Z.to_nat (slot s off))) as [e He]; [lia|].
  exists e. split; [by apply vec_get_ok|]. split.
  - intros Hl. destruct (rc_stale _ _ _ Hc _ _ _ He Hl) as (o & t & Ht & Hu). rewrite Hback in Ht.
    destruct t; [|done|by destruct (Hno _ _ Ht)]. pose proof (rc_map _ _ _ Hc _ _ _ Ht ltac:(done)) as Hm. rewrite <- Es, He in Hm.
    assert (e = enc o BFree) as -> by congruence. pose proof (rb_block _ _ _ Ht) as (? & ? & _ & _ & _ & _ & _ & _ & _ & ?).
    rewrite (proj1 (looks_free_enc o k ltac:(lia))) in Hl. zb. by subst.
  - intros Ht. pose proof (rc_map _ _ _ Hc _ _ _ Ht ltac:(done)) as Hm. rewrite <- Es, He in Hm. assert (e = enc k BFree) as -> by congruence.
    pose proof (rb_block _ _ _ Ht) as (? & ? & _ & _ & _ & _ & _ & _ & _ & ?).
    rewrite (proj1 (looks_free_enc k k ltac:(lia))). apply Z.eqb_refl.
Qed.
End core.

(** ** Stacks *)

Lemma rb_stack_same s s' T T' o l : i_max_order s' = i_max_order s → i_min_order s' = i_min_order s →
  (∀ off, T' !! off = Some (o, BFree) → T !! off = Some (o, BFree)) → rb_stack s T o l → rb_stack s' T' o l.
Proof. intros E1 E2 Hsub [H1 H2]. split; [intros off Hoff; by apply H1, Hsub|]. intros off. rewrite E1, E2. apply H2. Qed.

(** The geometry does not depend on the contents of the vectors. *)
Lemma rb_geo_update s fl om : rb_geo s → length fl = length (i_free_lists s) → length om = length (i_order_map s) →
  rb_geo (with_map (with_lists s fl) om).
Proof. intros [] E1 E2. split; cbn; rewrite ?E1, ?E2; done. Qed.

(** The same vectors and memory with another partition. *)
Lemma rb_rehand s m T T' : rb_core s m T → part (i_min_order s) (i_max_order s) T' →
  (∀ off o t, t ≠ BHand → T' !! off = Some (o, t) → T !! off = Some (o, t)) →
  (∀ off o t, T !! off = Some (o, t) → t ≠ BUsed → (∃ e k, i_order_map s !! Z.to_nat (off / 2 ^ i_min_order s) = Some e ∧ looks_free e k = true) →
     ∃ o' t', T' !! off = Some (o', t') ∧ t' ≠ BUsed) → rb_core s m T'.
Proof.
  intros Hc Hp Hsub Hkeep. destruct Hc as [Hg Hpt Hmap Hst Hl Ht] eqn:EHc. clear EHc. split; try done.
  - intros off o t H Hn. apply (Hmap off); [by apply Hsub|done].
  - intros i e k Hi Hlf. destruct (Hst i e k Hi Hlf) as (o & t & Ht' & Hu). apply (Hkeep _ o t Ht' Hu). exists e, k. split; [|done].
    pose proof (rg_orders _ Hg). pose proof (pow2_pos (i_min_order s) ltac:(lia)). by rewrite Z.div_mul, Nat2Z.id by lia.
  - intros o Ho. destruct (Hl o Ho) as (l & El & Hs). exists l. split; [done|]. apply (rb_stack_same s _ T); [done|done| |done].
    intros off. by apply Hsub.
  - intros off o H. by apply Ht, Hsub.
Qed.

(** ** Putting a block back *)

Lemma push_core s m T off o : rb_core s m T → T !! off = Some (o, BHand) →
  ∃ s', push_free s off o = Ok s' ∧ rb_same s s' ∧ rb_core s' m (<[off := (o, BFree)]> T).
Proof.
  intros Hc Hoff. pose proof (rb_block _ _ _ Hc _ _ _ Hoff) as (B1 & B2 & B3 & B4 & B5 & B6 & _ & _ & _ & B7).
  destruct (rb_slot _ _ _ Hc _ _ _ Hoff) as (Es & Hs & Hback).
  destruct (rc_lists _ _ _ Hc o ltac:(lia)) as (l & El & [Hhas Hin]). pose proof (rg_lists _ (rc_geo _ _ _ Hc)) as Hlen.
  unfold push_free. rewrite (vec_get_ok _ _ _ El). cbn [mbind outcome_bind]. rewrite vec_set_ok by lia. cbn [mbind outcome_bind].
  rewrite vec_set_ok by lia. cbn [mbind outcome_bind]. rewrite (proj1 (enc_lor o ltac:(lia))).
  eexists. split; [reflexivity|]. split; [done|]. split.
  - apply rb_geo_update; [apply Hc|by rewrite length_insert..].
  - apply (part_restate _ _ T off o BHand); [apply Hc|done].
  - cbn. intros x k t Hx Hn. apply lookup_insert_Some in Hx as [[<- [= <- <-]]|[Hne Hx]].
    + rewrite <- Es. apply list_lookup_insert_eq. lia.
    + destruct (rb_slot _ _ _ Hc _ _ _ Hx) as (Ex & _). rewrite <- Ex. rewrite list_lookup_insert_ne.
      * rewrite Ex. by apply (rc_map _ _ _ Hc).
      * by eapply (rb_slot_ne _ _ _ Hc).
  - cbn. intros i e k Hi Hlf. apply list_lookup_insert_Some in Hi as [(<- & <- & _)|[Hne Hi]].
    + rewrite Hback, lookup_insert_eq. by eexists _, _.
    + destruct (rc_stale _ _ _ Hc _ _ _ Hi Hlf) as (o' & t & Ht & Hu).
      destruct (decide (Z.of_nat i * 2 ^ i_min_order s = off)) as [->|]; [rewrite lookup_insert_eq; by eexists _, _|].
      rewrite lookup_insert_ne by done. by exists o', t.
  - cbn. intros k Hk. destruct (decide (k = o)) as [->|Hko].
    + exists (off :: l). split; [apply list_lookup_insert_eq; lia|]. split.
      * intros x Hx. apply lookup_insert_Some in Hx as [[<- _]|[_ Hx]]; [by left|right; by apply Hhas].
      * intros x [->|Hx]%elem_of_cons; [|by apply Hin]. cbn. pose proof (pow2_pos o ltac:(lia)). split; [lia|].
        etransitivity; [apply (pow2_divide _ o); lia|done].
    + destruct (rc_lists _ _ _ Hc k Hk) as (l' & El' & Hs'). exists l'. rewrite list_lookup_insert_ne by lia. split; [done|].
      apply (rb_stack_same s _ T); [done|done| |done]. intros x Hx. apply lookup_insert_Some in Hx as [[_ [= E]]|[_ Hx]]; [by destruct Hko|done].
  - cbn. intros x k Hx. apply lookup_insert_Some in Hx as [[_ [=]]|[_ Hx]]. by apply (rc_tag _ _ _ Hc).
Qed.

(** ** Taking a block *)

Definition no_hand (T : part_map) : Prop := ∀ x j, T !! x ≠ Some (j, BHand).

Lemma pop_loop_spec s m T o l : rb_core s m T → no_hand T →
  (∀ off, off ∈ l → 0 ≤ off < 2 ^ i_max_order s ∧ (2 ^ i_min_order s | off)) →
  ∃ r l', pop_loop s o l = Ok (r, l') ∧ (∀ x, x ∈ l' → x ∈ l) ∧
    match r with
    | None => ∀ x, x ∈ l → T !! x ≠ Some (o, BFree)
    | Some off => T !! off = Some (o, BFree) ∧ ∀ x, x ∈ l → T !! x = Some (o, BFree) → x = off ∨ x ∈ l'
    end.
Proof.
  intros Hc Hno. induction l as [|off l IH]; intros Hin; cbn [pop_loop].
  - exists None, []. split; [done|]. split; [done|]. intros x Hx. by apply elem_of_nil in Hx.
  - destruct (Hin off ltac:(left)) as [Hoff Hd]. destruct (rb_looks _ _ _ Hc off o Hoff Hd Hno) as (e & -> & Hlf). cbn [mbind outcome_bind].
    destruct (looks_free e o) eqn:El.
    + exists (Some off), l. split; [done|]. split; [by right|]. split; [by apply Hlf|]. intros x [->|Hx]%elem_of_cons _; [by left|by right].
    + destruct IH as (r & l' & -> & Hsub & Hr); [intros x Hx; apply Hin; by right|].
      assert (T !! off ≠ Some (o, BFree)) as Hnf by (intros H; apply Hlf in H; congruence).
      exists r, l'. split; [done|]. split; [intros x Hx; right; by apply Hsub|]. destruct r as [off'|].
      * destruct Hr as [H1 H2]. split; [done|]. intros x [->|Hx]%elem_of_cons Hf; [done|by apply H2].
      * intros x [->|Hx]%elem_of_cons; [done|by apply Hr].
Qed.

(** Popping yields a free block of the order, if there is one. *)
Lemma pop_core s m T o : rb_core s m T → no_hand T → 0 ≤ o ≤ i_max_order s →
  ∃ s' r, pop_free s o = Ok (s', r) ∧ rb_same s s' ∧ i_order_map s' = i_order_map s ∧
    match r with
    | None => rb_core s' m T ∧ ∀ x, T !! x ≠ Some (o, BFree)
    | Some off => T !! off = Some (o, BFree) ∧ rb_core s' m (<[off := (o, BHand)]> T)
    end.
Proof.
  intros Hc Hno Ho. destruct (rc_lists _ _ _ Hc o Ho) as (l & El & [Hhas Hin]). pose proof (rg_lists _ (rc_geo _ _ _ Hc)) as Hlen.
  unfold pop_free. rewrite (vec_get_ok _ _ _ El). cbn [mbind outcome_bind].
  destruct (pop_loop_spec s m T o l Hc Hno Hin) as (r & l' & -> & Hsub & Hr). cbn [mbind outcome_bind].
  rewrite vec_set_ok by lia. cbn [mbind outcome_bind]. set (s' := with_lists s _).
  assert (∀ T', part (i_min_order s) (i_max_order s) T' →
    (∀ off k t, t ≠ BHand → T' !! off = Some (k, t) → T !! off = Some (k, t)) →
    (∀ x, T' !! x = Some (o, BFree) → x ∈ l') →
    (∀ off k t, T !! off = Some (k, t) → t ≠ BUsed → ∃ k' t', T' !! off = Some (k', t') ∧ t' ≠ BUsed) → rb_core s' m T') as Hnew.
  { intros T' Hp Hs1 Hs2 Hs3. split; cbn.
    - destruct (rc_geo _ _ _ Hc). split; cbn; rewrite ?length_insert; done.
    - done.
    - intros x k t Hx Hn. apply (rc_map _ _ _ Hc); [by apply Hs1|done].
    - intros i e k Hi Hlf. destruct (rc_stale _ _ _ Hc _ _ _ Hi Hlf) as (k' & t & Ht & Hu). by eapply Hs3.
    - intros k Hk. destruct (decide (k = o)) as [->|Hko].
      + exists l'. split; [apply list_lookup_insert_eq; lia|]. split; [done|]. intros x Hx. by apply Hin, Hsub.
      + destruct (rc_lists _ _ _ Hc k Hk) as (l2 & El2 & Hs'). exists l2. rewrite list_lookup_insert_ne by lia. split; [done|].
        apply (rb_stack_same s _ T); [done|done| |done]. intros x. by apply Hs1.
    - intros x k Hx. by apply (rc_tag _ _ _ Hc), Hs1. }
  exists s', r. split; [done|]. split; [done|]. split; [done|]. destruct r as [off|].
  - destruct Hr as [Hf Hl]. split; [done|]. apply Hnew.
    + apply (part_restate _ _ T off o BFree); [apply Hc|done].
    + intros x k t Ht Hx. by apply lookup_insert_Some in Hx as [[_ [= _ <-]]|[_ Hx]].
    + intros x Hx. apply lookup_insert_Some in Hx as [[_ [=]]|[Hne Hx]]. by destruct (Hl x (Hhas x Hx) Hx).
    + intros x k t Hx Ht. destruct (decide (x = off)) as [->|]; [rewrite lookup_insert_eq; by eexists _, _|].
      rewrite lookup_insert_ne by done. by exists k, t.
  - assert (∀ x, T !! x ≠ Some (o, BFree)) as Hnone by (intros x Hx; by apply (Hr x (Hhas x Hx))). split; [|done].
    apply Hnew; [apply Hc|done|intros x Hx; by destruct (Hnone x)|intros x k t Hx Ht; by exists k, t].
Qed.

(** ** Splitting, using and merging *)

Lemma split_core s m T off o : rb_core s m T → T !! off = Some (o + 1, BHand) → i_min_order s ≤ o →
  T !! (off + 2 ^ o) = None ∧ rb_core s m (<[off + 2 ^ o := (o, BHand)]> (<[off := (o, BHand)]> T)).
Proof.
  intros Hc Hoff Ho. destruct (part_split _ _ _ _ _ _ BHand BHand (rc_part _ _ _ Hc) Hoff Ho) as [Hn Hp]. split; [done|].
  apply (rb_rehand s m T); [done|done|..].
  - intros x k t Ht Hx. apply lookup_insert_Some in Hx as [[_ [= _ <-]]|[_ Hx]]; [done|].
    by apply lookup_insert_Some in Hx as [[_ [= _ <-]]|[_ Hx]].
  - intros x k t Hx Ht _. destruct (decide (x = off + 2 ^ o)) as [->|]; [rewrite lookup_insert_eq; by eexists _, _|].
    rewrite lookup_insert_ne by done. destruct (decide (x = off)) as [->|]; [rewrite lookup_insert_eq; by eexists _, _|].
    rewrite lookup_insert_ne by done. by exists k, t.
Qed.

(** The slot of a block is overwritten with [e]. *)
Lemma set_slot_core s m T T' off o t e : rb_core s m T → T !! off = Some (o, t) →
  part (i_min_order s) (i_max_order s) T' → (∀ x, x ≠ off → T' !! x = T !! x) →
  (∀ o' t', T' !! off = Some (o', t') → t' ≠ BHand → e = enc o' t') →
  (∀ k, looks_free e k = true → ∃ o' t', T' !! off = Some (o', t') ∧ t' ≠ BUsed) →
  (∀ o', T' !! off ≠ Some (o', BFree)) →
  (∀ o', T' !! off = Some (o', BUsed) → load64 m (base (i_mem s) + off) = o') →
  rb_core (with_map s (<[Z.to_nat (slot s off) := e]> (i_order_map s))) m T'.
Proof.
  intros Hc Hoff Hp Hsame He Hlooks Hnf Htag. destruct (rb_slot _ _ _ Hc _ _ _ Hoff) as (Es & Hs & Hback). split; cbn.
  - destruct (rc_geo _ _ _ Hc). split; cbn; rewrite ?length_insert; done.
  - done.
  - intros x k u Hx Hu. destruct (decide (x = off)) as [->|Hne].
    + rewrite <- Es, list_lookup_insert_eq by lia. f_equal. by apply He.
    + rewrite Hsame in Hx by done. destruct (rb_slot _ _ _ Hc _ _ _ Hx) as (Ex & _). rewrite <- Ex, list_lookup_insert_ne.
      * rewrite Ex. by apply (rc_map _ _ _ Hc).
      * apply not_eq_sym. by eapply (rb_slot_ne _ _ _ Hc).
  - intros i e' k Hi Hlf. apply list_lookup_insert_Some in Hi as [(<- & <- & _)|[Hne Hi]].
    + rewrite Hback. by apply (Hlooks k).
    + destruct (rc_stale _ _ _ Hc _ _ _ Hi Hlf) as (o' & u & Hu & Hn).
      destruct (decide (Z.of_nat i * 2 ^ i_min_order s = off)) as [Eo|]; [|rewrite Hsame by done; by exists o', u].
      destruct Hne. rewrite Es, <- Eo. pose proof (rg_orders _ (rc_geo _ _ _ Hc)). pose proof (pow2_pos (i_min_order s) ltac:(lia)).
      by rewrite Z.div_mul, Nat2Z.id by lia.
  - intros k Hk. destruct (rc_lists _ _ _ Hc k Hk) as (l & El & Hst). exists l. split; [done|].
    apply (rb_stack_same s _ T); [done|done| |done]. intros x Hx. destruct (decide (x = off)) as [->|]; [by destruct (Hnf k)|].
    by rewrite Hsame in Hx by done.
  - intros x k Hx. destruct (decide (x = off)) as [->|]; [by apply Htag|]. rewrite Hsame in Hx by done. by apply (rc_tag _ _ _ Hc).
Qed.

(** Writing inside a block that is not used keeps the tags. *)
Lemma rb_core_mem s m m' T : rb_core s m T → agree_on (used_area (base (i_mem s)) T) m m' → rb_core s m' T.
Proof.
  intros Hc Hag. destruct Hc as [Hg Hp Hm Hs Hl Ht] eqn:E. clear E. split; try done. intros off o Hoff.
  rewrite <- (Ht off o Hoff). apply load64_agree. intros x Hx. apply Hag. exists off, o. split; [done|].
  pose proof (rb_block _ _ _ Hc _ _ _ Hoff) as (_ & _ & _ & _ & _ & ? & _). rlia.
Qed.

Lemma use_core s m T off o : rb_core s m T → T !! off = Some (o, BHand) →
  let m' := store64 m (base (i_mem s) + off) o in
  ∃ s', mark_used s off o = Ok s' ∧ rb_same s s' ∧ rb_core s' m' (<[off := (o, BUsed)]> T) ∧
    agree_on (used_area (base (i_mem s)) T) m m'.
Proof.
  intros Hc Hoff m'. pose proof (rb_block _ _ _ Hc _ _ _ Hoff) as (B1 & B2 & B3 & B4 & B5 & B6 & _ & _ & B8 & B7).
  destruct (rb_slot _ _ _ Hc _ _ _ Hoff) as (Es & Hs & _).
  assert (agree_on (used_area (base (i_mem s)) T) m m') as Hag.
  { apply agree_on_store64. intros x (y & k & Hy & Hr) Hx. assert (y ≠ off) as Hne by (intros ->; simplify_eq).
    apply (rb_apart _ _ _ Hc _ _ _ _ _ _ Hy Hoff Hne x); [done|rlia]. }
  assert (load64 m' (base (i_mem s) + off) = o) as Htag by (unfold m'; rewrite load64_store64_eq; apply wrap64_small; ulia).
  pose proof (rb_core_mem _ _ _ _ Hc Hag) as Hc'. clearbody m'.
  unfold mark_used. rewrite vec_set_ok by lia. cbn [mbind outcome_bind]. rewrite (proj2 (enc_lor o ltac:(lia))).
  eexists. split; [reflexivity|]. split; [done|]. split; [|done].
  apply (set_slot_core s m' T _ off o BHand); [done|done|..].
  - apply (part_restate _ _ T off o BHand); [apply Hc|done].
  - intros x Hne. by rewrite lookup_insert_ne.
  - intros o' t'. rewrite lookup_insert_eq. by intros [= <- <-].
  - intros k. by rewrite (proj2 (looks_free_enc o k ltac:(lia))).
  - intros o'. by rewrite lookup_insert_eq.
  - intros o'. rewrite lookup_insert_eq. by intros [= <-].
Qed.

(** The slot of the block in the hand does not look free (it was used). *)
Definition quiet (s : Inner) (off : Z) : Prop :=
  ∀ e k, i_order_map s !! Z.to_nat (off / 2 ^ i_min_order s) = Some e → looks_free e k = false.

(** A used block is taken into the hand: nothing in memory changes. *)
Lemma hold_core s m T off o : rb_core s m T → T !! off = Some (o, BUsed) →
  rb_core s m (<[off := (o, BHand)]> T) ∧ quiet s off.
Proof.
  intros Hc Hoff. pose proof (rb_block _ _ _ Hc _ _ _ Hoff) as (B1 & B2 & _ & _ & _ & _ & _ & _ & _ & B7). split.
  - apply (rb_rehand s m T); [done|..].
    + apply (part_restate _ _ T off o BUsed); [apply Hc|done].
    + intros x k t Ht Hx. by apply lookup_insert_Some in Hx as [[_ [= _ <-]]|[_ Hx]].
    + intros x k t Hx Ht _. destruct (decide (x = off)) as [->|]; [rewrite lookup_insert_eq; by eexists _, _|].
      rewrite lookup_insert_ne by done. by exists k, t.
  - intros e k He. rewrite (rc_map _ _ _ Hc _ _ _ Hoff ltac:(done)) in He.
    assert (e = enc o BUsed) as -> by congruence. apply (looks_free_enc o k). lia.
Qed.

Lemma buddy_ne off o : 0 ≤ o → buddy_off off o ≠ off.
Proof. intros Ho. unfold buddy_off. pose proof (pow2_pos o Ho). destruct (Z.testbit off o); lia. Qed.

(** The buddy's slot is cleared and the two halves are one block. *)
Lemma merge_core s m T off o : rb_core s m T → T !! off = Some (o, BHand) → quiet s off →
  T !! buddy_off off o = Some (o, BFree) → o < i_max_order s →
  let x := merge_off off o in
  let s' := with_map s (<[Z.to_nat (slot s (buddy_off off o)) := 0]> (i_order_map s)) in
  rb_core s' m (<[x := (o + 1, BHand)]> (delete (x + 2 ^ o) (<[buddy_off off o := (o, BHand)]> T))) ∧ quiet s' x.
Proof.
  intros Hc Hoff Hq Hb Ho x s'. pose proof (rb_block _ _ _ Hc _ _ _ Hoff) as (B1 & B2 & B3 & B4 & B5 & _).
  pose proof (buddy_ne off o ltac:(lia)) as Hbne. set (b := buddy_off off o) in *.
  destruct (rb_slot _ _ _ Hc _ _ _ Hb) as (Esb & Hsb & _). destruct (rb_slot _ _ _ Hc _ _ _ Hoff) as (Eso & Hso & _).
  set (T1 := <[b := (o, BHand)]> T).
  assert (rb_core s' m T1) as Hc1.
  { apply (set_slot_core s m T _ b o BFree); [done|done|..].
    - apply (part_restate _ _ T b o BFree); [apply Hc|done].
    - intros y Hy. unfold T1. by rewrite lookup_insert_ne.
    - intros o' t'. unfold T1. rewrite lookup_insert_eq. by intros [= <- <-].
    - intros k. by rewrite looks_free_0.
    - intros o'. unfold T1. by rewrite lookup_insert_eq.
    - intros o'. unfold T1. by rewrite lookup_insert_eq. }
  assert (quiet s' b) as Hqb.
  { intros e k. cbn. rewrite <- Esb, list_lookup_insert_eq by lia. intros [= <-]. apply looks_free_0. }
  assert (quiet s' off) as Hqo.
  { intros e k. cbn. rewrite <- Eso, list_lookup_insert_ne by (by eapply (rb_slot_ne _ _ _ Hc)). rewrite Eso. apply Hq. }
  assert (T1 !! off = Some (o, BHand)) as H1o by (unfold T1; by rewrite lookup_insert_ne).
  assert (T1 !! b = Some (o, BHand)) as H1b by (unfold T1; by rewrite lookup_insert_eq).
  pose proof (merge_off_divide off o ltac:(lia) B5) as Hd. fold x in Hd.
  pose proof (buddy_halves off o) as Hhalves. fold x b in Hhalves.
  assert (T1 !! x = Some (o, BHand) ∧ T1 !! (x + 2 ^ o) = Some (o, BHand)) as [H1x H1y].
  { destruct Hhalves as [[<- <-]|[<- <-]]; done. }
  assert (∀ y, y = x ∨ y = x + 2 ^ o → quiet s' y) as Hqs.
  { destruct Hhalves as [[<- <-]|[<- <-]]; intros y [->| ->]; done. }
  split; [|apply Hqs; by left]. apply (rb_rehand s' m T1); [done|..].
  - apply (part_merge _ _ T1 x o BHand BHand BHand); [apply Hc1|done|done|done|done].
  - intros y k t Ht Hy. apply lookup_insert_Some in Hy as [[_ [= _ <-]]|[_ Hy]]; [done|]. by apply lookup_delete_Some in Hy as [_ Hy].
  - intros y k t Hy Ht (e & j & He & Hlf). assert (¬ quiet s' y) as Hnq by (intros H; by rewrite (H e j He) in Hlf).
    assert (y ≠ x ∧ y ≠ x + 2 ^ o) as [Hne1 Hne2] by (split; intros ->; apply Hnq, Hqs; auto).
    rewrite lookup_insert_ne, lookup_delete_ne by done. by exists k, t.
Qed.

(** ** The loops *)

Lemma rb_search_spec n : ∀ s m T o, rb_core s m T → no_hand T → 0 ≤ o → Z.of_nat n = i_max_order s - o + 2 →
  o ≤ i_max_order s + 1 →
  ∃ s' r, search n s o = Ok (s', r) ∧ rb_same s s' ∧
    match r with
    | None => rb_core s' m T ∧ ∀ x k, T !! x = Some (k, BFree) → k < o
    | Some (off, k) => o ≤ k ∧ T !! off = Some (k, BFree) ∧ rb_core s' m (<[off := (k, BHand)]> T) ∧
        ∀ x j, T !! x = Some (j, BFree) → o ≤ j → k ≤ j
    end.
Proof.
  induction n as [|n IH]; intros s m T o Hc Hno Ho Hn Hmx; [lia|]. cbn [search]. destruct (o >? _) eqn:E; zb.
  - exists s, None. split; [done|]. split; [done|]. split; [done|]. intros x k Hx. pose proof (rb_block _ _ _ Hc _ _ _ Hx). lia.
  - destruct (pop_core s m T o Hc Hno ltac:(lia)) as (s1 & r & -> & Hs1 & _ & Hr). cbn [mbind outcome_bind].
    destruct r as [off|].
    + destruct Hr as [Hf Hc1]. exists s1, (Some (off, o)). split; [done|]. split; [done|]. split; [lia|]. split; [done|]. split; [done|lia..].
    + destruct Hr as [Hc1 Hnone]. pose proof Hs1 as (_ & _ & _ & Emx & _).
      destruct (IH s1 m T (o + 1) Hc1 Hno ltac:(lia) ltac:(lia) ltac:(lia)) as (s2 & r & -> & Hs2 & Hr).
      exists s2, r. split; [done|]. split; [by eapply rb_same_trans|]. destruct r as [[off k]|].
      * destruct Hr as (H1 & H2 & H3 & H4). split; [lia|]. split; [done|]. split; [done|]. intros x j Hx Hj.
        destruct (decide (j = o)) as [->|]; [by destruct (Hnone x)|]. apply (H4 x j Hx). lia.
      * destruct Hr as [H1 H2]. split; [done|]. intros x k Hx. destruct (decide (k = o)) as [->|]; [by destruct (Hnone x)|].
        pose proof (H2 x k Hx). lia.
Qed.

Lemma rb_split_spec n : ∀ chk s m T off o order, rb_core s m T → T !! off = Some (o, BHand) → only_hand T off →
  i_min_order s ≤ order ≤ o → Z.of_nat n = o - order →
  ∃ s' T', split_down (S n) chk s off o order = Ok s' ∧ rb_same s s' ∧ rb_core s' m T' ∧
    T' !! off = Some (order, BHand) ∧ only_hand T' off ∧ used_eq T T'.
Proof.
  induction n as [|n IH]; intros chk s m T off o order Hc Hoff Hon Hord Hn.
  - assert (o = order) as -> by lia. cbn [split_down]. assert ((order >? order) = false) as -> by (rewrite Z.gtb_ltb; apply Z.ltb_irrefl).
    by exists s, T.
  - remember (S n) as n' eqn:En. cbn [split_down]. subst n'. destruct (o >? order) eqn:E; zb; [|lia].
    pose proof (rb_block _ _ _ Hc _ _ _ Hoff) as (B1 & B2 & B3 & B4 & B5 & B6 & _ & _ & B8 & B7).
    pose proof (pow2_pos (o - 1) ltac:(lia)). pose proof (pow2_lt_mono (o - 1) o ltac:(lia)).
    assert (2 ^ o = 2 ^ (o - 1) + 2 ^ (o - 1)) as Ehalf by (rewrite <- pow2_succ by lia; f_equal; lia).
    pose proof (pow2_le_mono (i_max_order s) 62 ltac:(lia)).
    rewrite u_shl1_ok by lia. cbn [mbind outcome_bind]. rewrite Z.shiftl_1_l. rewrite u_add_ok by lia. cbn [mbind outcome_bind].
    destruct (split_core s m T off (o - 1) Hc) as [Hnone Hc1]; [by replace (o - 1 + 1) with o by lia|lia|].
    set (T1 := <[off + 2 ^ (o - 1) := (o - 1, BHand)]> (<[off := (o - 1, BHand)]> T)) in *.
    destruct (push_core s m T1 (off + 2 ^ (o - 1)) (o - 1) Hc1) as (s1 & -> & Hs1 & Hc2); [apply lookup_insert_eq|]. cbn [mbind outcome_bind].
    pose proof Hs1 as (_ & _ & Emn & _ & _). set (T2 := <[off + 2 ^ (o - 1) := (o - 1, BFree)]> T1) in *.
    assert (T2 !! off = Some (o - 1, BHand)) as H2off.
    { unfold T2, T1. rewrite !lookup_insert_ne by lia. apply lookup_insert_eq. }
    assert (only_hand T2 off) as Hon2.
    { intros x k Hx. unfold T2, T1 in Hx. apply lookup_insert_Some in Hx as [[_ [=]]|[? Hx]].
      apply lookup_insert_Some in Hx as [[? _]|[? Hx]]; [done|]. apply lookup_insert_Some in Hx as [[? _]|[? Hx]]; [done|]. by eapply Hon. }
    assert (used_eq T T2) as He.
    { unfold T2, T1. rewrite insert_insert_eq. transitivity (<[off := (o - 1, BHand)]> T).
      - by apply (used_eq_update _ _ (o, BHand)).
      - apply used_eq_insert; [|done]. by rewrite lookup_insert_ne by lia. }
    destruct (IH chk s1 m T2 off (o - 1) order Hc2 H2off Hon2 ltac:(lia) ltac:(lia)) as (s2 & T3 & -> & Hs2 & Hc3 & H3 & Hon3 & He3).
    exists s2, T3. split_and!; try done; [by eapply rb_same_trans|by transitivity T2].
Qed.

(** What [is_free_at] sees at the buddy of a block. *)
Lemma rb_buddy_free s m T off o : rb_core s m T → T !! off = Some (o, BHand) → only_hand T off → o < i_max_order s →
  ∃ b, is_free_at s (buddy_off off o) o = Ok b ∧ (b = true ↔ T !! buddy_off off o = Some (o, BFree)).
Proof.
  intros Hc Hoff Hon Ho. pose proof (rb_block _ _ _ Hc _ _ _ Hoff) as (B1 & _).
  destruct (part_buddy _ _ _ _ _ _ (rc_part _ _ _ Hc) Hoff Ho) as (k & t & Hb & Hk).
  assert (t ≠ BHand) as Ht by (intros ->; apply (buddy_ne off o ltac:(lia)); by eapply Hon).
  destruct (rb_slot _ _ _ Hc _ _ _ Hb) as (Es & _ & _). pose proof (rc_map _ _ _ Hc _ _ _ Hb Ht) as Hm. rewrite <- Es in Hm.
  pose proof (rb_block _ _ _ Hc _ _ _ Hb) as (B1' & B2' & _ & _ & _ & _ & _ & _ & _ & B7').
  unfold is_free_at. rewrite (vec_get_ok _ _ _ Hm). eexists. split; [reflexivity|]. rewrite Hb.
  destruct (looks_free_enc k o ltac:(lia)) as [EF EU]. destruct t; [rewrite EF|rewrite EU|done].
  - rewrite Z.eqb_eq. split; [by intros ->|by intros [= ->]].
  - split; [done|by intros [=]].
Qed.

Lemma rb_merge_spec n : ∀ chk s m T off o, rb_core s m T → T !! off = Some (o, BHand) → quiet s off → only_hand T off →
  Z.of_nat n = i_max_order s - o →
  ∃ s' off' o' T', merge_up (S n) chk s off o = Ok (s', off', o') ∧ rb_same s s' ∧ rb_core s' m T' ∧
    T' !! off' = Some (o', BHand) ∧ only_hand T' off' ∧ used_eq T T'.
Proof.
  induction n as [|n IH]; intros chk s m T off o Hc Hoff Hq Hon Hn.
  - cbn [merge_up]. destruct (o <? _) eqn:E; zb; [lia|]. by exists s, off, o, T.
  - remember (S n) as n' eqn:En. cbn [merge_up]. subst n'. destruct (o <? _) eqn:E; zb; [|lia].
    pose proof (rb_block _ _ _ Hc _ _ _ Hoff) as (B1 & B2 & B3 & B4 & B5 & B6 & _ & _ & B8 & B7).
    rewrite u_shl1_ok by lia. cbn [mbind outcome_bind]. rewrite lxor_pow2 by lia.
    destruct (rb_buddy_free s m T off o Hc Hoff Hon E) as (b & -> & Hb). cbn [mbind outcome_bind].
    destruct b; cbn [negb].
    2:{ by exists s, off, o, T. }
    apply proj1 in Hb. specialize (Hb eq_refl). destruct (rb_slot _ _ _ Hc _ _ _ Hb) as (_ & Hsb & _).
    rewrite vec_set_ok by lia. cbn [mbind outcome_bind]. pose proof (pow2_le_mono (i_max_order s) 62 ltac:(lia)). pose proof (pow2_pos o ltac:(lia)).
    rewrite land_not_pow2 by (ulia || lia).
    destruct (merge_core s m T off o Hc Hoff Hq Hb E) as [Hc1 Hq1]. set (s1 := with_map s _) in *. set (x := merge_off off o) in *.
    set (T1 := <[x := (o + 1, BHand)]> (delete (x + 2 ^ o) (<[buddy_off off o := (o, BHand)]> T))) in *.
    assert (T1 !! x = Some (o + 1, BHand)) as H1x by apply lookup_insert_eq.
    pose proof (buddy_halves off o) as Hh. fold x in Hh. set (bo := buddy_off off o) in *.
    pose proof (buddy_ne off o ltac:(lia)) as Hbne. fold bo in Hbne.
    assert (only_hand T1 x) as Hon1.
    { intros y k Hy. unfold T1 in Hy. apply lookup_insert_Some in Hy as [[<- _]|[? Hy]]; [done|].
      apply lookup_delete_Some in Hy as [? Hy]. apply lookup_insert_Some in Hy as [[<- _]|[? Hy]].
      - destruct Hh as [[? ?]|[? ?]]; congruence.
      - apply Hon in Hy. destruct Hh as [[? ?]|[? ?]]; congruence. }
    assert (used_eq T T1) as He1.
    { unfold T1. assert (used_eq T (<[bo := (o, BHand)]> T)) as Ha by (by apply (used_eq_update _ _ (o, BFree))).
      assert (<[bo := (o, BHand)]> T !! x = Some (o, BHand) ∧ <[bo := (o, BHand)]> T !! (x + 2 ^ o) = Some (o, BHand)) as [Hx1 Hy1].
      { assert (<[bo := (o, BHand)]> T !! off = Some (o, BHand)) by (by rewrite lookup_insert_ne).
        assert (<[bo := (o, BHand)]> T !! bo = Some (o, BHand)) by apply lookup_insert_eq.
        destruct Hh as [[<- <-]|[<- <-]]; done. }
      etransitivity; [exact Ha|]. etransitivity; [by apply (used_eq_delete _ (x + 2 ^ o) (o, BHand))|].
      apply (used_eq_update _ _ (o, BHand)); [|done|done]. rewrite lookup_delete_ne by lia. done. }
    destruct (IH chk s1 m T1 x (o + 1) Hc1 H1x Hq1 Hon1 ltac:(cbn; lia)) as (s2 & off' & o' & T2 & -> & Hs2 & Hc2 & H2 & Hon2 & He2).
    exists s2, off', o', T2. split_and!; try done. by transitivity T1.
Qed.

(** ** The operations *)

Definition rb_inv (s : Inner) (m : mem) (L : live_map) : Prop :=
  ∃ T, rb_core s m T ∧ no_hand T ∧ used (i_stats s) = used_sum T ∧ counters_u64 (i_stats s) ∧ bd_live (base (i_mem s)) T L.

Lemma rb_core_stats s m T st : rb_core s m T → rb_core (with_stats s st) m T.
Proof.
  intros [Hg ? ? ? Hl ?]. split; try done; [by destruct Hg; split|]. intros o Ho. destruct (Hl o Ho) as (l & ? & Hs).
  exists l. split; [done|]. by apply (rb_stack_same s _ T).
Qed.

(** The order that serves a request. *)
Lemma request_order chk s size : 0 ≤ size ≤ 2 ^ 62 → 5 ≤ i_min_order s →
  let order := order_spec (i_min_order s) (size + 16) in
  (p ← next_pow2 chk (size + 16); o ← log2_floor p; Ok (Z.max o (i_min_order s))) = Ok order ∧
  size + 16 ≤ 2 ^ order ∧ i_min_order s ≤ order.
Proof.
  intros Hs Hmn order. rewrite next_pow2_ok by lia. cbn [mbind outcome_bind]. rewrite hf_next_pow2_log2_up by lia.
  pose proof (Z.log2_up_nonneg (size + 16)).
  assert (Z.log2_up (size + 16) ≤ 63) by (rewrite <- (Z.log2_up_pow2 63) by lia; apply Z.log2_up_le_mono; lia).
  pose proof (pow2_pos (Z.log2_up (size + 16)) ltac:(lia)). pose proof (pow2_lt_mono (Z.log2_up (size + 16)) 64 ltac:(lia)).
  rewrite log2_floor_ok by lia. cbn [mbind outcome_bind]. rewrite Z.log2_pow2 by lia. unfold order, order_spec.
  split; [f_equal; lia|]. split; [|lia]. pose proof (Z.log2_up_spec (size + 16) ltac:(lia)) as [_ ?].
  pose proof (pow2_le_mono (Z.log2_up (size + 16)) (Z.max (i_min_order s) (Z.log2_up (size + 16))) ltac:(lia)). lia.
Qed.

(** A request that fails: only the counters change. *)
Lemma rb_fail_core chk s s2 m st1 : counters_u64 (i_stats s) → room chk (i_stats s) → counted (i_stats s) st1 →
  failed_allocs st1 = failed_allocs (i_stats s) → rb_same (with_stats s st1) s2 →
  ∃ st2, (st ← count_failed chk (i_stats s2); Ok (with_stats s2 st, m : mem, @None Z)) = Ok (with_stats s2 st2, m, None) ∧
    counted (i_stats s) st2.
Proof.
  intros Hcu Hroom Hct Ef (_ & _ & _ & _ & Est). rewrite Est. cbn [i_stats with_stats].
  destruct (count_failed_ok chk (i_stats s) Hcu Hroom st1 Hct Ef) as (st2 & -> & Hct2). by exists st2.
Qed.

(** A block in the hand is cut down to the order and used. *)
Lemma rb_carve_core chk s m T off o order : rb_core s m T → T !! off = Some (o, BHand) → only_hand T off →
  i_min_order s ≤ order ≤ o → used (i_stats s) = used_sum T →
  ∃ s3 s' T', let st := i_stats s in
    let st' := Stats (capacity st) (used st + 2 ^ order) (Z.max (peak_used st) (used st + 2 ^ order))
                 (alloc_calls st) (free_calls st) (failed_allocs st) in
    let m' := store64 m (base (i_mem s) + off) order in
    split_down (S (Z.to_nat (o - order))) chk s off o order = Ok s3 ∧ mark_used s3 off order = Ok s' ∧
    u_shl1 chk order = Ok (2 ^ order) ∧ add_used chk (2 ^ order) (i_stats s') = Ok st' ∧
    i_mem s' = i_mem s ∧ rb_core s' m' T' ∧ no_hand T' ∧ used st + 2 ^ order = used_sum T' ∧ T' !! off = Some (order, BUsed) ∧
    (∀ x k, x ≠ off → T' !! x = Some (k, BUsed) ↔ T !! x = Some (k, BUsed)) ∧
    agree_on (used_area (base (i_mem s)) T) m m'.
Proof.
  intros Hc H2 Hon Hord Hused. pose proof (rb_block _ _ _ Hc _ _ _ H2) as (B1 & B2 & _ & _ & _ & _ & _ & _ & _ & B7).
  destruct (rb_split_spec (Z.to_nat (o - order)) chk s m T off o order Hc H2 Hon) as (s3 & T3 & E3 & Hs3 & Hc3 & H3 & Hon3 & He);
    [lia|lia|]. pose proof Hs3 as (Em3 & _ & Emn3 & Emx3 & Est3).
  destruct (use_core s3 m T3 off order Hc3 H3) as (s4 & E4 & Hs4 & Hc4 & Hag4). pose proof Hs4 as (Em4 & _ & Emn4 & Emx4 & Est4).
  set (T4 := <[off := (order, BUsed)]> T3) in *.
  assert (used_sum T4 = used_sum T + 2 ^ order) as Hsum4.
  { unfold T4. rewrite (used_sum_update _ _ _ _ H3), (used_sum_eq T T3 He). unfold block_used. cbn. lia. }
  pose proof (used_sum_bounds _ _ _ (rc_part _ _ _ Hc)) as Hub. pose proof (used_sum_bounds _ _ _ (rc_part _ _ _ Hc4)) as Hub4.
  rewrite Emx4, Emx3 in Hub4. pose proof (pow2_pos order ltac:(lia)). pose proof (pow2_le_mono (i_max_order s) 62 ltac:(lia)).
  rewrite Em3 in Hc4, Hag4. exists s3, s4, T4. cbn zeta. split; [done|]. split; [done|].
  split; [by rewrite u_shl1_ok, Z.shiftl_1_l by lia|]. split; [rewrite Est4, Est3; apply add_used_ok; lia|].
  split; [congruence|]. split; [done|]. split.
  { intros x k Hx. unfold T4 in Hx. apply lookup_insert_Some in Hx as [[_ [=]]|[Hne Hx]]. by apply Hon3 in Hx. }
  split; [lia|]. split; [apply lookup_insert_eq|]. split.
  - intros x k Hne. unfold T4. rewrite lookup_insert_ne by done. apply He.
  - eapply agree_on_sub; [exact Hag4|]. intros x. by apply used_area_eq.
Qed.

(** A request: nothing fits, or a block cut from a free one of the smallest
    sufficient order. *)
Lemma rb_allocate_core chk s m T size : rb_core s m T → no_hand T → used (i_stats s) = used_sum T →
  counters_u64 (i_stats s) → 0 ≤ size ≤ 2 ^ 62 → room chk (i_stats s) →
  let order := order_spec (i_min_order s) (size + 16) in
  ∃ s' m' p, allocate chk s m size 16 = Ok (s', m', p) ∧ i_mem s' = i_mem s ∧
    counters_u64 (i_stats s') ∧ calls (i_stats s') ≤ calls (i_stats s) + 1 ∧
    ((p = None ∧ m' = m ∧ rb_core s' m T ∧ used (i_stats s') = used_sum T ∧ (∀ x k, T !! x = Some (k, BFree) → k < order)) ∨
     (∃ off o T', p = Some (base (i_mem s) + off + 16) ∧ T !! off = Some (o, BFree) ∧ order ≤ o ∧
        (∀ x k, T !! x = Some (k, BFree) → order ≤ k → o ≤ k) ∧
        rb_core s' m' T' ∧ no_hand T' ∧ used (i_stats s') = used_sum T' ∧ T' !! off = Some (order, BUsed) ∧ size + 16 ≤ 2 ^ order ∧
        (∀ x k, x ≠ off → T' !! x = Some (k, BUsed) ↔ T !! x = Some (k, BUsed)) ∧
        agree_on (used_area (base (i_mem s)) T) m m')).
Proof.
  intros Hc Hno Hused Hcu Hs Hroom order. pose proof (rg_orders _ (rc_geo _ _ _ Hc)) as [Hord Hmx].
  destruct (request_order chk s size Hs ltac:(lia)) as (Eord & Hfit & Hmn). fold order in Eord, Hfit, Hmn.
  unfold allocate, BD_HDR. rewrite (u_add_ok chk size 16) by lia. cbn [mbind outcome_bind].
  assert ((16 >? size + 16) = false) as -> by (rewrite Z.gtb_ltb; apply Z.ltb_ge; lia). cbn [mbind outcome_bind].
  destruct (count_alloc_ok chk (i_stats s) Hcu Hroom) as (st1 & -> & Hct1 & Ef1). cbn [mbind outcome_bind].
  pose proof Hct1 as (_ & Eu1 & _ & Hcu1 & Hca1). pose proof (rb_core_stats s m T st1 Hc) as Hc1.
  change (i_min_order (with_stats s st1)) with (i_min_order s). change (i_max_order (with_stats s st1)) with (i_max_order s).
  destruct (next_pow2 chk (size + 16)) as [pw| | |]; cbn [mbind outcome_bind] in Eord |- *; try discriminate.
  destruct (log2_floor pw) as [lg| | |]; cbn [mbind outcome_bind] in Eord |- *; try discriminate. injection Eord as ->.
  destruct (order >? i_max_order s) eqn:Ebig; zb.
  { destruct (rb_fail_core chk s (with_stats s st1) m st1 Hcu Hroom Hct1 Ef1 (rb_same_refl _)) as (st2 & -> & (_ & Eu2 & _ & Hcu2 & Hca2)).
    eexists _, _, _. split; [reflexivity|]. split; [done|]. split; [done|]. split; [done|]. left. split; [done|]. split; [done|].
    split; [by do 2 apply rb_core_stats|]. split; [cbn; congruence|]. intros x k Hx. pose proof (rb_block _ _ _ Hc _ _ _ Hx). lia. }
  destruct (rb_search_spec (Z.to_nat (i_max_order s - order + 2)) (with_stats s st1) m T order Hc1 Hno ltac:(lia) ltac:(cbn; lia) ltac:(cbn; lia))
    as (s2 & r & -> & Hs2 & Hr). cbn [mbind outcome_bind]. pose proof Hs2 as (Em2 & _ & Emn2 & Emx2 & Est2). cbn in Em2, Emn2, Est2.
  destruct r as [[off o]|].
  2:{ destruct Hr as [Hc2 Hnofit].
      destruct (rb_fail_core chk s s2 m st1 Hcu Hroom Hct1 Ef1 Hs2) as (st2 & -> & (_ & Eu2 & _ & Hcu2 & Hca2)).
      eexists _, _, _. split; [reflexivity|]. split; [done|]. split; [done|]. split; [done|]. left. split; [done|]. split; [done|].
      split; [by apply rb_core_stats|]. split; [cbn; congruence|done]. }
  destruct Hr as (Ho & Hoff & Hc2 & Hbest). set (T2 := <[off := (o, BHand)]> T) in *.
  assert (only_hand T2 off) as Hon2.
  { intros x k Hx. apply lookup_insert_Some in Hx as [[? _]|[? Hx]]; [done|]. by destruct (Hno x k). }
  assert (used_eq T T2) as He2 by (by apply (used_eq_update _ _ (o, BFree))).
  destruct (rb_carve_core chk s2 m T2 off o order Hc2) as (s3 & s4 & T4 & -> & E4 & E5 & E6 & Em & Hc4 & Hno4 & Hu4 & H4 & Hsame & Hag);
    [apply lookup_insert_eq|done|lia|rewrite (used_sum_eq T T2 He2); congruence|].
  cbn [mbind outcome_bind]. rewrite E4. cbn [mbind outcome_bind]. rewrite E5. cbn [mbind outcome_bind]. rewrite E6. cbn [mbind outcome_bind i_mem with_stats].
  rewrite Em, Em2 in *.
  eexists _, _, _. split; [reflexivity|]. split; [done|]. rewrite Est2. split; [done|]. split; [done|]. right.
  exists off, o, T4. split; [done|]. split; [done|]. split; [done|]. split; [done|].
  split; [by apply rb_core_stats|]. split; [done|]. split; [rewrite <- Hu4, Est2; done|]. split; [done|]. split; [done|]. split.
  - intros x k Hne. rewrite (Hsame x k Hne). apply He2.
  - eapply agree_on_sub; [exact Hag|]. intros x. by apply used_area_eq.
Qed.

(** A free: the block of the pointer is no longer used. *)
Lemma rb_deallocate_core chk s m T off o : rb_core s m T → no_hand T → used (i_stats s) = used_sum T →
  counters_u64 (i_stats s) → room chk (i_stats s) → T !! off = Some (o, BUsed) →
  ∃ s' T', deallocate chk s m (base (i_mem s) + off + 16) = Ok (s', m) ∧ i_mem s' = i_mem s ∧
    counters_u64 (i_stats s') ∧ calls (i_stats s') ≤ calls (i_stats s) + 1 ∧
    rb_core s' m T' ∧ no_hand T' ∧ used (i_stats s') = used_sum T' ∧
    (∀ x k, T' !! x = Some (k, BUsed) ↔ x ≠ off ∧ T !! x = Some (k, BUsed)).
Proof.
  intros Hc Hno Hused Hcu Hroom Hoff. pose proof (rb_block _ _ _ Hc _ _ _ Hoff) as (B1 & B2 & B3 & B4 & B5 & B6 & _ & B9 & B8 & B7).
  unfold deallocate, BD_HDR. destruct (count_free_ok chk (i_stats s) Hcu Hroom) as (st1 & -> & (_ & Eu1 & _ & Hcu1 & Hca1)).
  cbn [mbind outcome_bind]. replace (base (i_mem s) + off + 16 - 16) with (base (i_mem s) + off) by lia.
  rewrite (rc_tag _ _ _ Hc _ _ Hoff). assert (wrap32 o = o) as -> by (unfold wrap32; apply Z.mod_small; lia).
  cbn [i_mem i_min_order i_max_order with_stats i_stats]. rewrite u_sub_ok by (pose proof (pow2_pos o ltac:(lia)); lia). cbn [mbind outcome_bind].
  replace (base (i_mem s) + off - base (i_mem s)) with off by lia.
  assert (debug_assert chk ((i_min_order s <=? o) && (o <=? i_max_order s)) = Ok ()) as ->.
  { unfold debug_assert, r_assert. rewrite !(proj2 (Z.leb_le _ _)) by lia. by destruct chk. }
  cbn [mbind outcome_bind]. rewrite u_shl1_ok by lia. cbn [mbind outcome_bind]. rewrite Z.shiftl_1_l.
  set (T0 := <[off := (o, BHand)]> T).
  assert (used_sum T0 = used_sum T - 2 ^ o) as Hsum0 by (unfold T0; rewrite (used_sum_update _ _ _ _ Hoff); unfold block_used; cbn; lia).
  destruct (hold_core s m T off o Hc Hoff) as [Hc0 Hq0]. fold T0 in Hc0.
  pose proof (used_sum_bounds _ _ _ (rc_part _ _ _ Hc)) as Hub. pose proof (used_sum_bounds _ _ _ (rc_part _ _ _ Hc0)) as Hub0.
  pose proof (pow2_pos o ltac:(lia)). pose proof (pow2_le_mono (i_max_order s) 62 ltac:(lia)).
  rewrite sub_used_ok by lia. cbn [mbind outcome_bind].
  set (s1 := with_stats (with_stats s st1) _). assert (rb_core s1 m T0) as Hc1 by (by do 2 apply rb_core_stats).
  assert (T0 !! off = Some (o, BHand)) as HT0 by apply lookup_insert_eq.
  assert (only_hand T0 off) as Hon0.
  { intros x k Hx. apply lookup_insert_Some in Hx as [[? _]|[? Hx]]; [done|]. by destruct (Hno x k). }
  destruct (rb_merge_spec (Z.to_nat (i_max_order s - o)) chk s1 m T0 off o Hc1 HT0 Hq0 Hon0 ltac:(cbn; lia))
    as (s2 & off2 & o2 & T2 & E2 & Hs2 & Hc2 & H2 & Hon2 & He2).
  change (i_max_order s1) with (i_max_order s). rewrite E2. cbn [mbind outcome_bind].
  destruct (push_core s2 m T2 off2 o2 Hc2 H2) as (s3 & -> & Hs3 & Hc3). cbn [mbind outcome_bind].
  pose proof Hs2 as (Em2 & _ & _ & _ & Est2). pose proof Hs3 as (Em3 & _ & _ & _ & Est3).
  assert (used_eq T2 (<[off2 := (o2, BFree)]> T2)) as He3 by (by apply (used_eq_update _ _ (o2, BHand))).
  assert (used_eq T0 (<[off2 := (o2, BFree)]> T2)) as He by (by transitivity T2).
  exists s3, (<[off2 := (o2, BFree)]> T2). split; [done|]. rewrite Est3, Est2. split; [by rewrite Em3, Em2|].
  split; [done|]. split; [done|]. split; [done|]. split_and!.
  - intros x k Hx. apply lookup_insert_Some in Hx as [[_ [=]]|[Hne Hx]]. by apply Hon2 in Hx.
  - cbn. rewrite (used_sum_eq T0 _ He). lia.
  - intros x k. etransitivity; [apply He|]. unfold T0. rewrite lookup_insert_Some. split; [intros [[_ [=]]|?]|intros]; naive_solver.
Qed.

(** ** The interface *)

(** Bytes behind the tags are the clients'. *)
Lemma rb_core_payload s m m' T L : rb_core s m T → bd_live (base (i_mem s)) T L →
  agree_on (λ x, ¬ in_live L x) m m' → rb_core s m' T.
Proof.
  intros Hc [HL _] Hag. destruct Hc as [Hg Hp Hm Hs Hl Ht] eqn:E. clear E. split; try done. intros off o Hoff.
  rewrite <- (Ht off o Hoff). apply load64_agree. intros x Hx. apply Hag. intros (p & n & Hpn & Hr).
  destruct (HL p n Hpn) as (_ & k & Hk & Hle). pose proof (rb_block _ _ _ Hc _ _ _ Hoff) as (_ & _ & _ & _ & _ & ? & _).
  destruct (decide (p - 16 - base (i_mem s) = off)) as [E|Hne]; [rlia|].
  apply (rb_apart _ _ _ Hc _ _ _ _ _ _ Hk Hoff Hne x); rlia.
Qed.

#[global] Instance rb_spec (chk : bool) : RustSpec chk (2 ^ 62) Inner (RAllocator0 := RBuddy.I chk).
Proof.
  refine {| r_inv := rb_inv |}.
  - intros s m L p n (T & Hc & _ & _ & _ & [HL _]) Hp. destruct (HL p n Hp) as (? & o & Ho & Hle).
    pose proof (rb_block _ _ _ Hc _ _ _ Ho) as (_ & _ & ? & ? & _ & ? & Hd & ? & ? & _). split_and!; try lia.
    replace p with (base (i_mem s) + (p - 16 - base (i_mem s)) + 16) by lia. apply Z.divide_add_r; [done|by exists 1].
  - intros s m L p n q k (T & Hc & _ & _ & _ & [HL _]) Hp Hq Hne x Hx Hx'.
    destruct (HL p n Hp) as (_ & o & Ho & ?). destruct (HL q k Hq) as (_ & j & Hj & ?).
    apply (rb_apart _ _ _ Hc _ _ _ _ _ _ Ho Hj ltac:(lia) x); rlia.
  - intros s m L size (T & Hc & Hno & Hu & Hcu & Hlive) Hs Hroom.
    destruct (rb_allocate_core chk s m T size Hc Hno Hu Hcu Hs Hroom) as (s' & m' & p & E & Em & Hcu' & Hca & Hcase).
    exists s', m', p. split; [exact E|]. split; [done|].
    destruct Hcase as [(-> & -> & Hc' & Hu' & _)|(off & o & T' & -> & Hoff & _ & _ & Hc' & Hno' & Hu' & Ho' & Hfit & Hsame & Hag)].
    { split; [done|]. exists T. by rewrite Em. }
    split; [eapply agree_on_sub; [exact Hag|]; intros x; by apply (bd_live_area _ _ L)|].
    destruct (bd_live_insert (base (i_mem s)) T T' L off (order_spec (i_min_order s) (size + 16)) size Hlive) as (_ & HN & Hlive'); [by intros k; rewrite Hoff|exact Ho'|done|lia|done|].
    pose proof (rb_block _ _ _ Hc _ _ _ Hoff) as (_ & _ & ? & _ & _ & _ & _ & ? & _).
    split; [lia|]. split; [done|]. exists T'. by rewrite Em.
  - intros s m L p n (T & Hc & Hno & Hu & Hcu & Hlive) Hp Hroom. pose proof Hlive as [HL _]. destruct (HL p n Hp) as (_ & o & Ho & _).
    set (off := p - 16 - base (i_mem s)) in *. assert (p = base (i_mem s) + off + 16) as Ep by (unfold off; lia). clearbody off. subst p.
    destruct (rb_deallocate_core chk s m T off o Hc Hno Hu Hcu Hroom Ho) as (s' & T' & E & Em & Hcu' & Hca & Hc' & Hno' & Hu' & Hsame).
    exists s', m. split; [exact E|]. split; [done|]. split; [done|]. exists T'. rewrite Em. split_and!; try done.
    by apply (bd_live_delete _ T).
  - intros s m m' L (T & Hc & Hno & Hu & Hcu & Hlive) Hag. exists T. split_and!; try done. by apply (rb_core_payload s m m' T L).
Defined.

(** ** Creation *)

Lemma pow2_ceil chk n : 1 ≤ n ≤ 2 ^ 62 →
  ∃ k, 0 ≤ k ≤ 62 ∧ next_pow2 chk n = Ok (2 ^ k) ∧ log2_floor (2 ^ k) = Ok k ∧ n ≤ 2 ^ k.
Proof.
  intros Hn. destruct (next_pow2_spec n Hn) as (k & Hk & E & _ & Hle). exists k. split; [done|].
  pose proof (pow2_pos k ltac:(lia)). pose proof (pow2_lt_mono k 64 ltac:(lia)).
  rewrite next_pow2_ok, E, log2_floor_ok, Z.log2_pow2 by lia. done.
Qed.

(** A new arena is one free block; creation never panics. *)
Lemma rb_new_inv chk ps mmap m cap mb : page_size_ok ps → mmap_ok ps mmap → 0 ≤ cap ≤ 2 ^ 62 → 0 ≤ mb ≤ 2 ^ 62 →
  ∃ r, new chk ps mmap cap mb = Ok r ∧ ∀ s, r = Some s → rb_inv s m ∅ ∧ calls (i_stats s) = 0 ∧
    i_capacity s = 2 ^ i_max_order s ∧ cap ≤ i_capacity s.
Proof.
  intros Hps Hmm Hcap Hmb. unfold new. change (BD_HDR + 16) with 32. pose proof (page_size_bounds ps Hps) as (Hpb & Hp16 & _).
  destruct (pow2_ceil chk (Z.max mb 32) ltac:(lia)) as (mn & Hmn & -> & Emn & Hle1). cbn [mbind outcome_bind].
  pose proof (pow2_pos mn ltac:(lia)). pose proof (pow2_le_mono mn 62 ltac:(lia)).
  destruct (pow2_ceil chk (Z.max (Z.max cap (2 ^ mn)) ps) ltac:(lia)) as (mx & Hmx & -> & Emx & Hle2). cbn [mbind outcome_bind].
  assert (5 ≤ mn) as H5 by (apply pow2_le_inv; lia). assert (mn ≤ mx) as Hmnx by (apply pow2_le_inv; lia).
  pose proof (pow2_le_mono mx 62 ltac:(lia)).
  destruct (reserve_ok chk ps mmap (2 ^ mx) Hps Hmm ltac:(lia)) as [-> Hmap]. cbn [mbind outcome_bind].
  destruct (mmap _) as [p|]; [|by exists None]. destruct (Hmap p eq_refl) as (Hp & Hpd & Hsp).
  rewrite Emn. cbn [mbind outcome_bind]. rewrite Emx. cbn [mbind outcome_bind]. set (s0 := Make _ _ _ _ _ _ _).
  assert (Z.shiftr (2 ^ mx) mn = 2 ^ (mx - mn)) as Esh by (rewrite Z.shiftr_div_pow2 by lia; by rewrite Z.pow_sub_r by lia).
  pose proof (pow2_pos (mx - mn) ltac:(lia)).
  assert (rb_core s0 m {[0 := (mx, BHand)]}) as Hc0.
  { split; cbn; try done.
    - split; cbn; try done; try lia; [split; [done|by apply (Z.divide_trans _ ps)]|..]; rewrite length_replicate, ?Esh; lia.
    - apply part_whole. lia.
    - intros off o t Hx. by apply lookup_singleton_Some in Hx as [<- [= <- <-]].
    - intros i e k He Hlf. apply lookup_replicate in He as [-> _]. by rewrite looks_free_0 in Hlf.
    - intros o Ho. exists []. split; [apply lookup_replicate; split; [done|lia]|]. split.
      + intros off Hx. by apply lookup_singleton_Some in Hx as [_ [=]].
      + intros off Hx. by apply elem_of_nil in Hx.
    - intros off o Hx. by apply lookup_singleton_Some in Hx as [_ [=]]. }
  destruct (push_core s0 m _ 0 mx Hc0) as (s1 & -> & (Em & Ec & _ & Emx1 & Est) & Hc1); [apply lookup_singleton_eq|]. cbn [mbind outcome_bind].
  eexists. split; [reflexivity|]. intros s [= <-]. rewrite insert_singleton_eq in Hc1. cbn in Ec, Emx1. rewrite Ec, Emx1, Est.
  split_and!; [|done|done|lia]. exists {[0 := (mx, BFree)]}. rewrite Est. split; [done|]. split.
  { intros x k Hx. by apply lookup_singleton_Some in Hx as [_ [=]]. }
  split; [unfold used_sum; by rewrite map_fold_singleton|]. split; [by split_and!|apply bd_live_empty].
Qed.

(** ** Requests above 2^63 - 16 bytes *)

(** The next power of two does not fit: a debug build panics, a release build
    wraps to 0. *)
Lemma next_pow2_over chk n : 2 ^ 63 < n < 2 ^ 64 → next_pow2 chk n = if chk then Abort else Ok 0.
Proof.
  intros Hn. unfold next_pow2. rewrite (proj2 (Z.leb_gt n 1)) by lia. rewrite u_sub_ok by lia. cbn [mbind outcome_bind].
  match goal with |- u_add chk ?x 1 = _ => set (y := x) end.
  assert (y +% 1 = 0) as Hy.
  { rewrite <- (hf_next_pow2_overflow n) by lia. unfold hf_next_pow2. rewrite (proj2 (Z.leb_gt n 1)) by lia.
    by rewrite (wrap64_small (n - 1)) by ulia. }
  assert (is_u64 y) as [Hy1 Hy2] by (unfold y; repeat (apply smear_u64; [|lia]); ulia). clearbody y.
  unfold u_add. rewrite Hy. destruct (decide (y = 2 ^ 64 - 1)) as [->|Hne]; [by destruct chk|].
  rewrite wrap64_small in Hy by ulia. lia.
Qed.

(** A request above 2^63 - 16 bytes: a debug build panics; a release build
    serves it like an empty one, with a block of the smallest order. *)
Theorem rust_buddy_oversize s m size : 5 ≤ i_min_order s → 2 ^ 63 - 16 < size < 2 ^ 64 →
  allocate true s m size 16 = Abort ∧ allocate false s m size 16 = allocate false s m 0 16.
Proof.
  intros Hmn Hs. split.
  - unfold allocate, BD_HDR. destruct (decide (2 ^ 64 ≤ size + 16)).
    { assert (u_add true size 16 = Abort) as -> by (unfold u_add; by rewrite (proj2 (Z.leb_le _ _)) by lia). done. }
    rewrite (u_add_ok true size 16) by lia. cbn [mbind outcome_bind].
    assert ((16 >? size + 16) = false) as -> by (rewrite Z.gtb_ltb; apply Z.ltb_ge; lia). cbn [mbind outcome_bind].
    assert (count_alloc true (i_stats s) = Abort ∨ ∃ st, count_alloc true (i_stats s) = Ok st) as [->|(st & ->)]; [|done|].
    { unfold count_alloc, u_add. destruct (true && _); [by left|right; by eexists]. }
    cbn [mbind outcome_bind]. by rewrite next_pow2_over by lia.
  - assert (∃ need p o, (need ← u_add false size 16; if 16 >? need then u_add false 16 16 else Ok need) = Ok need ∧
      next_pow2 false need = Ok p ∧ log2_floor p = Ok o ∧ o ≤ 5) as (need & p & o & En & Ep & Eo & Ho).
    { unfold u_add. cbn [andb mbind outcome_bind]. destruct (decide (2 ^ 64 ≤ size + 16)).
      - exists 32, 32, 5. rewrite wrap64_add_carry by lia. rewrite Z.gtb_ltb, (proj2 (Z.ltb_lt _ _)) by lia. by split_and!.
      - exists (size + 16), 0, 0. rewrite wrap64_small by ulia. rewrite Z.gtb_ltb, (proj2 (Z.ltb_ge _ _)) by lia.
        split_and!; try done. by apply (next_pow2_over false); lia. }
    unfold allocate, BD_HDR. change (u_add false 0 16) with (Ok 16). cbn [mbind outcome_bind]. change (16 >? 16) with false. cbn [mbind outcome_bind].
    change (next_pow2 false 16) with (Ok 16). destruct (u_add false size 16) as [need'| | |]; cbn [mbind outcome_bind] in En |- *; try discriminate.
    rewrite En. cbn [mbind outcome_bind]. destruct (count_alloc false (i_stats s)) as [st| | |]; cbn [mbind outcome_bind]; try done.
    rewrite Ep. cbn [mbind outcome_bind]. rewrite Eo. change (log2_floor 16) with (Ok 4). cbn [mbind outcome_bind].
    cbn [i_min_order with_stats]. by rewrite !Z.max_r by lia.
Qed.

(** A small arena. *)
Definition ex_rb : Inner := Eval vm_compute in
  match new true 4096 ex_mmap 4096 64 with
  | Ok (Some s) => s
  | _ => Make (Region 0 0) 0 0 0 [] [] (stats_zero 0)
  end.

Lemma ex_rb_new : new true 4096 ex_mmap 4096 64 = Ok (Some ex_rb).
Proof. vm_compute. reflexivity. Qed.

(** C35. Client safety of the Rust buddy allocator, whose free lists contain
    stale entries: from any arena [new] returns for a capacity and a minimal
    block of at most 2^62, in debug builds (overflow checks, [debug_assert!])
    and in release builds, every program of fewer than 2^64 allocations of at
    most 2^62 bytes each, frees of owned blocks and writes to owned bytes runs
    without a panic or an endless loop; live blocks are 16-aligned and never
    overlap, and every owned byte holds what the client last wrote there.
    (Above 2^63 - 16 bytes a debug build panics, [rust_buddy_oversize].) *)
Theorem rust_buddy_safe chk ps mmap m cap mb s os :
  page_size_ok ps → mmap_ok ps mmap → 0 ≤ cap ≤ 2 ^ 62 → 0 ≤ mb ≤ 2 ^ 62 →
  new chk ps mmap cap mb = Ok (Some s) → Forall (op_ok (2 ^ 62)) os → Z.of_nat (length os) < 2 ^ 64 →
  ∃ c, client_run (hf_allocator_vtable0 := RAllocator_vtable (RAllocator0 := RBuddy.I chk)) (Client s m ∅ ∅) os = Ok c ∧
    client_ok DEFAULT_ALIGN c.
Proof.
  intros Hps Hmm Hcap Hmb Hnew Hos Hlen.
  destruct (rb_new_inv chk ps mmap m cap mb Hps Hmm Hcap Hmb) as (r & E & Hr). rewrite Hnew in E. injection E as <-.
  destruct (Hr s eq_refl) as (Hinv & Hcalls & _).
  apply (rust_client_safe (RustSpec0 := rb_spec chk) s m os Hinv Hos). change (ra_stats s) with (i_stats s). lia.
Qed.

(** Witness of C35: a debug build; a stale entry is popped on the way. *)
Lemma rust_buddy_safe_witness :
  ∃ c, client_run (hf_allocator_vtable0 := RAllocator_vtable (RAllocator0 := RBuddy.I true)) (Client ex_rb ∅ ∅ ∅)
      [CAlloc 100; CWrite (2 ^ 20 + 20) 7; CFree (2 ^ 20 + 16); CAlloc 100; CAlloc 3000] = Ok c ∧ client_ok DEFAULT_ALIGN c.
Proof.
  apply (rust_buddy_safe true 4096 ex_mmap ∅ 4096 64).
  - apply page_4096_ok.
  - apply ex_mmap_ok.
  - lia.
  - lia.
  - exact ex_rb_new.
  - repeat constructor; simpl; unfold request_ok; lia.
  - simpl. lia.
Defined.
