(* ===== verification/RustStack.v ===== *)
(** * The Rust stack allocator ([rust/src/stack.rs])

    The code.  It does what the C one does, except that a failed check panics
    in every build and that arithmetic is checked in debug builds. *)

From S2P Require Import Prelude Memory Platform Allocator Rust.

Module RStack.

Definition FHDR : Z := 16.
Definition NONE : Z := 2 ^ 64 - 1.

Record Inner : Type := Make {
  i_mem : VmRegion;
  i_capacity : Z;
  i_top : Z;
  i_last_payload : Z;
  i_stats : Stats_t
}.

Definition with_stats (s : Inner) (st : Stats_t) : Inner := Make (i_mem s) (i_capacity s) (i_top s) (i_last_payload s) st.

Definition new (chk : bool) (ps : Z) (mmap : Z → option Z) (capacity : Z) : outcome (option Inner) :=
  capacity ← align_up chk (Z.max capacity 1) ps;
  r ← reserve chk ps mmap capacity;
  match r with
  | None => Ok None
  | Some mem => Ok (Some (Make mem capacity 0 NONE (stats_zero capacity)))
  end.

(** [Marker]. *)
Definition mark (s : Inner) : Z := i_top s.

Definition rewind (s : Inner) (mk : Z) : outcome Inner :=
  _ ← r_assert (mk <=? i_top s);
  Ok (Make (i_mem s) (i_capacity s) mk NONE (set_used mk (i_stats s))).

Definition reset (s : Inner) : outcome Inner := rewind s 0.

Definition allocate (chk : bool) (s : Inner) (m : mem) (size align : Z) : outcome (Inner * mem * option Z) :=
  st ← count_alloc chk (i_stats s);
  hdr_at ← align_up chk (i_top s) (Z.max 8 8);
  t ← u_add chk hdr_at FHDR;
  payload ← align_up chk t (Z.max align 1);
  new_top ← u_add chk payload size;
  if new_top >? i_capacity s then
    st ← count_failed chk st; Ok (with_stats s st, m, None)
  else
    h ← u_sub chk payload FHDR;
    let h := base (i_mem s) + h in
    let m := store64 m h (i_top s) in
    let m := store64 m (h + 8) (i_last_payload s) in
    let st := set_used new_top st in
    let st := Stats (capacity st) (used st) (Z.max (peak_used st) new_top) (alloc_calls st) (free_calls st) (failed_allocs st) in
    Ok (Make (i_mem s) (i_capacity s) new_top payload st, m, Some (base (i_mem s) + payload)).

Definition deallocate (chk : bool) (s : Inner) (m : mem) (ptr : Z) : outcome (Inner * mem) :=
  st ← count_free chk (i_stats s);
  payload ← u_sub chk ptr (base (i_mem s));
  _ ← r_assert (payload =? i_last_payload s);
  h ← u_sub chk payload FHDR;
  let h := base (i_mem s) + h in
  let top := load64 m h in
  Ok (Make (i_mem s) (i_capacity s) top (load64 m (h + 8)) (set_used top st), m).

Definition name (s : Inner) : string := "Stack".
Definition stats (s : Inner) : Stats_t := i_stats s.

Definition walk (chk : bool) (s : Inner) (m : mem) : outcome (list BlockInfo_t) :=
  b2 ← (if i_top s <? i_capacity s then n ← u_sub chk (i_capacity s) (i_top s); Ok [BlockInfo (i_top s) n true] else Ok []);
  Ok ((if i_top s >? 0 then [BlockInfo 0 (i_top s) false] else []) ++ b2).

Definition drop (s : Inner) : list (Z * Z) := [VmRegion_drop (i_mem s)].

#[export] Instance I (chk : bool) : RAllocator Inner := {
  ra_allocate := allocate chk;
  ra_deallocate := deallocate chk;
  ra_name := name;
  ra_stats := stats;
  ra_walk := walk chk;
  ra_drop := drop
}.
End RStack.
