(* ===== verification/RustBlockPool.v ===== *)
(** * The Rust block pool ([rust/src/block_pool.rs])

    The code.  It does what the C one does, except that a failed check panics
    in every build and that arithmetic is checked in debug builds. *)

From S2P Require Import Prelude Memory Platform Allocator Rust.

(** [x.trailing_zeros()]: at most 64. *)
Fixpoint trailing_zeros_from (x i : Z) (n : nat) : Z :=
  match n with
  | O => i
  | S n => if Z.testbit x i then i else trailing_zeros_from x (i + 1) n
  end.
Definition trailing_zeros (x : Z) : Z := trailing_zeros_from x 0 64.

Module RPool.

Record Inner : Type := Make {
  i_mem : VmRegion;
  i_block_size : Z;
  i_block_count : Z;
  i_hint : Z;
  i_bitmap : list Z;
  i_stats : Stats_t
}.

Definition with_stats (s : Inner) (st : Stats_t) : Inner :=
  Make (i_mem s) (i_block_size s) (i_block_count s) (i_hint s) (i_bitmap s) st.
Definition with_map (s : Inner) (bm : list Z) (hint : Z) : Inner :=
  Make (i_mem s) (i_block_size s) (i_block_count s) hint bm (i_stats s).

Definition test (s : Inner) (idx : Z) : outcome bool :=
  bits ← vec_get (i_bitmap s) (idx / 64);
  Ok (negb (Z.land bits (Z.shiftl 1 (idx mod 64)) =? 0)).

(** [checked_mul(..)?] is [None] on overflow, in every build. *)
Definition new (chk : bool) (ps : Z) (mmap : Z → option Z) (block_size block_count : Z) : outcome (option Inner) :=
  block_size ← align_up chk (Z.max block_size 1) DEFAULT_ALIGN;
  if 2 ^ 64 <=? block_size * block_count then Ok None else
  bytes ← align_up chk (block_size * block_count) ps;
  r ← reserve chk ps mmap bytes;
  match r with
  | None => Ok None
  | Some mem => Ok (Some (Make mem block_size block_count 0 (replicate (Z.to_nat ((block_count + 63) / 64)) 0) (stats_zero bytes)))
  end.

(** [for w in 0..words], from round [w] with [n] rounds left. *)
Fixpoint scan (n : nat) (chk : bool) (s : Inner) (w : Z) : outcome (option (Inner * Z)) :=
  match n with
  | O => Ok None
  | S n =>
      t ← u_add chk (i_hint s) w;
      wi ← u_rem t (Z.of_nat (length (i_bitmap s)));
      bits ← vec_get (i_bitmap s) wi;
      if bits =? 2 ^ 64 - 1 then scan n chk s (w + 1) else
      let bit := trailing_zeros (not64 bits) in
      t ← u_mul chk wi 64;
      idx ← u_add chk t bit;
      if idx >=? i_block_count s then scan n chk s (w + 1) else
      bm ← vec_set (i_bitmap s) wi (Z.lor bits (Z.shiftl 1 bit));
      st ← add_used chk (i_block_size s) (i_stats s);
      off ← u_mul chk idx (i_block_size s);
      Ok (Some (with_stats (with_map s bm wi) st, base (i_mem s) + off))
  end.

Definition allocate (chk : bool) (s : Inner) (m : mem) (size _align : Z) : outcome (Inner * mem * option Z) :=
  st ← count_alloc chk (i_stats s);
  let s := with_stats s st in
  if size >? i_block_size s then st ← count_failed chk (i_stats s); Ok (with_stats s st, m, None) else
  r ← scan (length (i_bitmap s)) chk s 0;
  match r with
  | Some (s, p) => Ok (s, m, Some p)
  | None => st ← count_failed chk (i_stats s); Ok (with_stats s st, m, None)
  end.

Definition deallocate (chk : bool) (s : Inner) (m : mem) (ptr : Z) : outcome (Inner * mem) :=
  st ← count_free chk (i_stats s);
  let s := with_stats s st in
  off ← u_sub chk ptr (base (i_mem s));
  r ← u_rem off (i_block_size s);
  _ ← r_assert (r =? 0);
  idx ← u_div off (i_block_size s);
  _ ← r_assert (idx <? i_block_count s);
  let mask := Z.shiftl 1 (idx mod 64) in
  bits ← vec_get (i_bitmap s) (idx / 64);
  _ ← r_assert (negb (Z.land bits mask =? 0));
  bm ← vec_set (i_bitmap s) (idx / 64) (Z.land bits (not64 mask));
  let s := with_map s bm (idx / 64) in
  st ← sub_used chk (i_block_size s) (i_stats s);
  Ok (with_stats s st, m).

Definition name (s : Inner) : string := "BlockPool".
Definition stats (s : Inner) : Stats_t := i_stats s.

(** [for i in 1..=block_count], at [i] with [n] rounds left. *)
Fixpoint walk_from (n : nat) (chk : bool) (s : Inner) (i run_start : Z) (run_used : bool) : outcome (list BlockInfo_t) :=
  match n with
  | O => Ok []
  | S n =>
      used ← (if i <? i_block_count s then test s i else Ok (negb run_used));
      if negb (Bool.eqb used run_used) then
        off ← u_mul chk run_start (i_block_size s);
        k ← u_sub chk i run_start;
        sz ← u_mul chk k (i_block_size s);
        bs ← walk_from n chk s (i + 1) i used;
        Ok (BlockInfo off sz (negb run_used) :: bs)
      else walk_from n chk s (i + 1) run_start run_used
  end.

Definition walk (chk : bool) (s : Inner) (m : mem) : outcome (list BlockInfo_t) :=
  if i_block_count s =? 0 then Ok [] else
  run_used ← test s 0;
  walk_from (Z.to_nat (i_block_count s)) chk s 1 0 run_used.

Definition drop (s : Inner) : list (Z * Z) := [VmRegion_drop (i_mem s)].

#[export] Instance I (chk : bool) : RAllocator Inner := {
  ra_allocate := allocate chk;
  ra_deallocate := deallocate chk;
  ra_name := name;
  ra_stats := stats;
  ra_walk := walk chk;
  ra_drop := drop
}.
End RPool.
