(* ===== verification/RustSlab.v ===== *)
(** * The Rust slab allocator ([rust/src/slab.rs])

    The code.  It is simpler than the C version: one stack of free slots
    outside the slabs and no magazines. *)

From S2P Require Import Prelude Memory Platform Allocator Rust.

Module RSlab.

(** [mmap] depends on what is mapped already, the address and size of every
    slab; the head of [i_free] is the top of the stack. *)
Record Inner : Type := Make {
  i_obj_size : Z;
  i_slab_bytes : Z;
  i_slabs : list VmRegion;
  i_free : list Z;
  i_stats : Stats_t
}.

Definition with_stats (s : Inner) (st : Stats_t) : Inner :=
  Make (i_obj_size s) (i_slab_bytes s) (i_slabs s) (i_free s) st.

(** [for i in (0..slots).rev()]: pushes slots [i - 1], ..., 0. *)
Fixpoint push_slots (chk : bool) (start obj : Z) (i : nat) (free : list Z) : outcome (list Z) :=
  match i with
  | O => Ok free
  | S i => off ← u_mul chk (Z.of_nat i) obj; push_slots chk start obj i ((start + off) :: free)
  end.

Definition grow (chk : bool) (ps : Z) (mmap : list (Z * Z) → Z → option Z) (s : Inner) : outcome Inner :=
  r ← reserve chk ps (mmap (VmRegion_drop <$> i_slabs s)) (i_slab_bytes s);
  match r with
  | None => Ok s
  | Some region =>
      slots ← u_div (i_slab_bytes s) (i_obj_size s);
      free ← push_slots chk (base region) (i_obj_size s) (Z.to_nat slots) (i_free s);
      let st := i_stats s in
      c ← u_add chk (capacity st) (i_slab_bytes s);
      let st := Stats c (used st) (peak_used st) (alloc_calls st) (free_calls st) (failed_allocs st) in
      Ok (Make (i_obj_size s) (i_slab_bytes s) (i_slabs s ++ [region]) free st)
  end.

Definition new (chk : bool) (ps : Z) (object_size slab_bytes : Z) : outcome (option Inner) :=
  obj ← align_up chk (Z.max object_size 8) DEFAULT_ALIGN;
  slab_bytes ← align_up chk (if slab_bytes =? 0 then 64 * 1024 else slab_bytes) ps;
  k ← u_div slab_bytes obj;
  if k =? 0 then Ok None else
  Ok (Some (Make obj slab_bytes [] [] (stats_zero 0))).

Definition allocate (chk : bool) (ps : Z) (mmap : list (Z * Z) → Z → option Z) (s : Inner) (m : mem) (size _align : Z) :
    outcome (Inner * mem * option Z) :=
  st ← count_alloc chk (i_stats s);
  let s := with_stats s st in
  if size >? i_obj_size s then st ← count_failed chk (i_stats s); Ok (with_stats s st, m, None) else
  s ← (match i_free s with [] => grow chk ps mmap s | _ => Ok s end);
  match i_free s with
  | p :: free =>
      st ← add_used chk (i_obj_size s) (i_stats s);
      Ok (Make (i_obj_size s) (i_slab_bytes s) (i_slabs s) free st, m, Some p)
  | [] => st ← count_failed chk (i_stats s); Ok (with_stats s st, m, None)
  end.

Definition deallocate (chk : bool) (s : Inner) (m : mem) (ptr : Z) : outcome (Inner * mem) :=
  st ← count_free chk (i_stats s);
  st ← sub_used chk (i_obj_size s) st;
  Ok (Make (i_obj_size s) (i_slab_bytes s) (i_slabs s) (ptr :: i_free s) st, m).

Definition name (s : Inner) : string := "Slab".
Definition stats (s : Inner) : Stats_t := i_stats s.

(** [for _ in &g.slabs]. *)
Fixpoint walk_slabs (chk : bool) (bytes remaining off : Z) (slabs : list VmRegion) : outcome (list BlockInfo_t) :=
  match slabs with
  | [] => Ok []
  | _ :: slabs =>
      let used := Z.min remaining bytes in
      remaining ← u_sub chk remaining used;
      b2 ← (if used <? bytes then
              o ← u_add chk off used; n ← u_sub chk bytes used; Ok [BlockInfo o n true]
            else Ok []);
      off' ← u_add chk off bytes;
      bs ← walk_slabs chk bytes remaining off' slabs;
      Ok ((if used >? 0 then [BlockInfo off used false] else []) ++ b2 ++ bs)
  end.

Definition walk (chk : bool) (s : Inner) (m : mem) : outcome (list BlockInfo_t) :=
  walk_slabs chk (i_slab_bytes s) (used (i_stats s)) 0 (i_slabs s).

Definition drop (s : Inner) : list (Z * Z) := VmRegion_drop <$> i_slabs s.

#[export] Instance I (chk : bool) (ps : Z) (mmap : list (Z * Z) → Z → option Z) : RAllocator Inner := {
  ra_allocate := allocate chk ps mmap;
  ra_deallocate := deallocate chk;
  ra_name := name;
  ra_stats := stats;
  ra_walk := walk chk;
  ra_drop := drop
}.
End RSlab.
