(* ===== verification/RustPoolsProofs.v ===== *)
(** * The Rust stack, block pool and slab allocators: correctness

    The block pool and the stack refine the C ones - so the contract of the C
    pool carries over - and the slab allocator is correct on its own terms. *)

From S2P Require Import Prelude Memory Platform Allocator Stack BlockPool Rust RustStack RustBlockPool RustSlab.

(** ** The block pool *)

Section pool.
Import RPool.

(** The C struct with the same contents. *)
Definition pool_c (s : Inner) : bp_alloc :=
  BpAlloc (base (i_mem s)) (capacity (i_stats s)) (i_block_size s) (i_block_count s) (i_hint s) (i_bitmap s)
          (Z.of_nat (length (i_bitmap s))) (i_stats s).

Lemma trailing_zeros_from_spec x i n k : (∀ j, i ≤ j < k → Z.testbit x j = false) → Z.testbit x k = true →
  i ≤ k < i + Z.of_nat n → trailing_zeros_from x i n = k.
Proof.
  revert i. induction n as [|n IH]; intros i Hlow Hk Hr; [lia|]. cbn [trailing_zeros_from].
  destruct (decide (i = k)) as [->|]; [by rewrite Hk|]. rewrite Hlow by lia. apply IH; [|done|lia]. intros j Hj. apply Hlow. lia.
Qed.

(** [trailing_zeros] of the complement is what the C code computes with masks. *)
Lemma trailing_zeros_lowest bits : is_u64 bits → bits ≠ 2 ^ 64 - 1 → trailing_zeros (not64 bits) = lowest_zero bits.
Proof.
  intros Hu Hn. destruct (lowest_zero_spec bits Hu Hn) as (Hr & Hz & Hlow).
  assert (∀ j, 0 ≤ j < 64 → Z.testbit (not64 bits) j = negb (Z.testbit bits j)) as Hnot.
  { intros j Hj. unfold not64, wrap64. rewrite Z.mod_pow2_bits_low by lia. by rewrite Z.lnot_spec by lia. }
  apply trailing_zeros_from_spec; [|by rewrite Hnot, Hz by lia|lia]. intros j Hj. rewrite Hnot by lia. by rewrite Hlow.
Qed.

Context (chk : bool).

(** The C scan and the Rust one visit the same words; on success the Rust one
    also does the update. *)
Lemma rp_scan_c n : ∀ s w r, bp_wf (pool_c s) → 0 ≤ w → w + Z.of_nat n ≤ Z.of_nat (length (i_bitmap s)) →
  bp_find (pool_c s) w n = Ok r → (r ≠ None → used (i_stats s) + i_block_size s < 2 ^ 64) →
  scan n chk s w = Ok (match r with
    | None => None
    | Some (wi, bit) =>
        Some (with_stats (with_map s (<[Z.to_nat wi := Z.lor (default 0 (i_bitmap s !! Z.to_nat wi)) (Z.shiftl 1 bit)]> (i_bitmap s)) wi)
               (raise_peak (set_used (used (i_stats s) + i_block_size s) (i_stats s))),
              base (i_mem s) + (wi * 64 + bit) * i_block_size s)
    end).
Proof.
  induction n as [|n IH]; intros s w r Hwf Hw Hn E Hused; cbn [bp_find scan] in *; [by simplify_eq|].
  pose proof (bp_words_bounds _ Hwf) as (Hw0 & Hw1 & _). pose proof (bp_wf_hint _ Hwf) as Hh. cbn in Hw0, Hw1, Hh.
  cbn [bp_hint pool_c bp_words] in E. rewrite u_add_ok by lia. rewrite (wrap64_small (i_hint s + w)) in E by ulia. cbn [mbind outcome_bind].
  unfold u_rem. rewrite (proj2 (Z.eqb_neq _ 0)) by lia. cbn [mbind outcome_bind].
  set (wi := (i_hint s + w) mod Z.of_nat (length (i_bitmap s))) in *.
  assert (0 ≤ wi < bp_words (pool_c s)) as Hwi by (apply Z.mod_pos_bound; cbn; lia).
  destruct (bp_word_ok _ Hwf wi Hwi) as (bits & Eb & Hlk & Hu). rewrite Eb in E. cbn [mbind outcome_bind] in E. cbn in Hlk, Hwi.
  rewrite (vec_get_ok _ _ _ Hlk). cbn [mbind outcome_bind]. destruct (bits =? 2 ^ 64 - 1) eqn:Ef; [apply IH; [done|lia|lia|done|done]|]. zb.
  rewrite trailing_zeros_lowest by done. pose proof (lowest_zero_spec bits Hu Ef) as (Hlz & _ & _).
  rewrite u_mul_ok by lia. cbn [mbind outcome_bind]. rewrite u_add_ok by lia. cbn [mbind outcome_bind].
  rewrite (wrap64_small (wi * 64)), wrap64_small in E by ulia. change (bp_block_count (pool_c s)) with (i_block_count s) in E.
  destruct (_ >=? _) eqn:Ege; [apply IH; [done|lia|lia|done|done]|]. zb. injection E as <-.
  cbn. rewrite Hlk. cbn [default option_rect]. rewrite vec_set_ok by lia. cbn [mbind outcome_bind].
  pose proof (bp_used_count_bounds _ Hwf) as Huc. pose proof (bp_wf_used _ Hwf) as Eu. pose proof (bp_wf_size _ Hwf) as [Hbs _].
  pose proof (bp_wf_fits _ Hwf) as Hfit. pose proof (bp_wf_space _ Hwf) as Hsp. pose proof (bp_wf_mem _ Hwf) as [Hm _].
  cbn in Eu, Hbs, Hfit, Hsp, Hm, Huc. rewrite add_used_ok; [|nia|lia|by apply Hused]. cbn [mbind outcome_bind].
  rewrite u_mul_ok by nia. cbn [mbind outcome_bind]. by rewrite raise_peak_max.
Qed.

Lemma rp_find_stats a st n : ∀ w, bp_find (bp_set_stats a st) w n = bp_find a w n.
Proof. induction n as [|n IH]; intros w; [done|]. cbn. destruct (bp_word _ _); cbn; [|done..]. by rewrite IH. Qed.

(** A block that is found is not counted in [used] yet. *)
Lemma pool_found_room s size wi bit : bp_wf (pool_c s) → size ≤ i_block_size s →
  bp_find (pool_c s) 0 (length (i_bitmap s)) = Ok (Some (wi, bit)) → used (i_stats s) + i_block_size s < 2 ^ 64.
Proof.
  intros Hwf Hsz E.
  destruct (bp_allocate_cases (pool_c s) ∅ size 16 Hwf Hsz) as [(i & a' & Hi & Hf & _ & Hwf' & Hs & _ & Hb)|[Hfull _]].
  - pose proof (bp_used_count_set _ a' i Hwf Hi Hs Hf Hb) as Hcnt. pose proof (bp_used_count_bounds _ Hwf') as Hbd.
    pose proof Hs as (_ & _ & _ & Ec & _). rewrite Ec in Hbd. pose proof (bp_wf_used _ Hwf) as Eu.
    pose proof (bp_wf_fits _ Hwf). pose proof (bp_wf_space _ Hwf). pose proof (bp_wf_mem _ Hwf) as [? _].
    pose proof (bp_wf_size _ Hwf) as [? _]. cbn in *. nia.
  - destruct (bp_find_all _ Hwf) as (r & E' & Hr). cbn in E'. rewrite Nat2Z.id, E in E'. injection E' as <-.
    destruct Hr as (Hwi & Hbit & Hlt & Hfree). rewrite Hfull in Hfree by lia. done.
Qed.

Lemma pool_alloc_c s m L size a' m' p : port_inv (AllocatorSpec0 := bp_spec false) (RAllocator0 := I chk) pool_c s m L → room chk (i_stats s) →
  bp_allocate (pool_c s) m size 16 = Ok (a', m', p) →
  ∃ s' r, allocate chk s m size 16 = Ok (s', m', r) ∧ default NULL r = p ∧ r ≠ Some NULL ∧ pool_c s' = a' ∧
    counters_u64 (i_stats s') ∧ calls (i_stats s') ≤ calls (i_stats s) + 1.
Proof.
  intros [[Hwf Hl] Hcu] Hroom E. change (ra_stats s) with (i_stats s) in Hcu.
  destruct (count_alloc_eq chk _ Hcu Hroom) as [E1 Hct1]. destruct (count_failed_eq chk _ Hcu Hroom) as [E2 Hct2].
  pose proof Hct2 as (_ & _ & _ & Hcu2 & Hca2).
  unfold allocate. rewrite E1. unfold bp_allocate in E. cbn [mbind outcome_bind i_stats with_stats i_block_size i_bitmap] in *.
  cbn [bp_block_size bp_stats bp_words pool_c] in E. destruct (size >? i_block_size s) eqn:Esz; zb.
  { injection E as <- <- <-. rewrite E2. cbn [mbind outcome_bind]. eexists _, None. split; [reflexivity|]. done. }
  rewrite Nat2Z.id in E. destruct (bp_find_all _ Hwf) as (r & Er & Hr). cbn [bp_words pool_c] in Er. rewrite Nat2Z.id in Er.
  rewrite Er in E. cbn [mbind outcome_bind] in E. set (s1 := with_stats s (bump_alloc (i_stats s))).
  assert (bp_wf (pool_c s1)) as Hwf1 by (by apply (bp_wf_set_stats (pool_c s))).
  rewrite (rp_scan_c (length (i_bitmap s)) s1 0 r Hwf1); [|lia|cbn; lia| |].
  - cbn [mbind outcome_bind]. destruct r as [[wi bit]|].
    + destruct Hr as (Hwi & Hbit & Hlt & _). destruct (bp_word_ok _ Hwf wi Hwi) as (w & Ew & Hlk & _). rewrite Ew in E.
      cbn [mbind outcome_bind] in E. pose proof (bp_words_bounds _ Hwf) as (_ & Hw1 & _).
      pose proof (pool_found_room s size wi bit Hwf Esz Er) as Hu64. pose proof (bp_wf_mem _ Hwf) as [Hm _].
      pose proof (bp_wf_size _ Hwf) as [Hbs _]. pose proof (bp_used_count_bounds _ Hwf). pose proof (bp_wf_used _ Hwf) as Eu.
      cbn in Hlk, Hw1, Hwi, Hm, Hbs, Eu. cbn [used bump_alloc bp_block_size bp_mem pool_c] in E.
      rewrite (wrap64_small (used (i_stats s) + _)) in E by (unfold is_u64; nia).
      rewrite (wrap64_small (wi * 64)), (wrap64_small (wi * 64 + bit)) in E by ulia. injection E as <- <- <-.
      eexists _, (Some _). split; [reflexivity|]. split; [done|]. split; [cbn; intros [= Hx]; nia|]. split.
      * unfold pool_c, bp_set_word. cbn. rewrite Hlk, length_insert. done.
      * cbn [i_stats with_stats]. apply (counted_used _ (bump_alloc (i_stats s))). done.
    + injection E as <- <- <-. cbn [i_stats with_stats s1]. rewrite E2. cbn [mbind outcome_bind]. eexists _, None. split; [reflexivity|]. done.
  - rewrite <- Er. change (pool_c s1) with (bp_set_stats (pool_c s) (bump_alloc (i_stats s))). apply rp_find_stats.
  - intros Hne. destruct r as [[wi bit]|]; [|done]. by apply (pool_found_room s size wi bit).
Qed.

Lemma pool_free_c s m L p n a' m' : port_inv (AllocatorSpec0 := bp_spec false) (RAllocator0 := I chk) pool_c s m L → L !! p = Some n →
  room chk (i_stats s) → bp_deallocate false (pool_c s) m p = Ok (a', m') →
  ∃ s', deallocate chk s m p = Ok (s', m') ∧ pool_c s' = a' ∧
    counters_u64 (i_stats s') ∧ calls (i_stats s') ≤ calls (i_stats s) + 1.
Proof.
  intros [[Hwf Hl] Hcu] Hp Hroom E. change (ra_stats s) with (i_stats s) in Hcu.
  destruct (count_free_eq chk _ Hcu Hroom) as [E1 Hct1]. destruct Hl as [Hbits Hblk]. destruct (Hblk p n Hp) as (Hn & i & Hi & Ep).
  pose proof (proj2 (Hbits i Hi)) as Hbit. rewrite <- Ep, Hp in Hbit. specialize (Hbit ltac:(by eexists)).
  pose proof (bp_wf_mem _ Hwf) as [Hm _]. pose proof (bp_wf_size _ Hwf) as [Hbs _]. pose proof (bp_wf_fits _ Hwf).
  pose proof (bp_wf_space _ Hwf). pose proof (bp_used_count_bounds _ Hwf). pose proof (bp_wf_used _ Hwf) as Eu.
  pose proof (bp_idx_word _ Hwf i Hi) as Hiw. destruct (bp_word_ok _ Hwf (i / 64) Hiw) as (w & Ew & Hlk & _).
  assert (1 ≤ bp_used_count (pool_c s)) as Huc.
  { destruct (bp_deallocate_used false _ m i Hwf Hi Hbit) as (a1 & _ & Hwf1 & Hs1 & _ & Hb1).
    pose proof (bp_used_count_clear _ a1 i Hwf Hi Hs1 Hbit Hb1). pose proof (bp_used_count_bounds _ Hwf1). lia. }
  unfold bp_bit in Hbit. rewrite Hlk in Hbit. cbn in Hbit.
  unfold deallocate. rewrite E1. unfold bp_deallocate in E. unfold bp_addr in Ep. subst p.
  cbn [mbind outcome_bind i_stats with_stats i_block_size i_block_count i_bitmap i_mem] in *.
  cbn [pool_c bp_mem bp_block_size bp_block_count bp_capacity bp_words bp_bitmap bp_stats] in *.
  rewrite (proj2 (Z.eqb_neq _ 0)) in E by nia.
  assert (base (i_mem s) + i * i_block_size s - base (i_mem s) = i * i_block_size s) as Eoff by lia.
  rewrite u_sub_ok by nia. cbn [mbind outcome_bind]. rewrite Eoff in *. rewrite (wrap64_small (i * _)) in E by (unfold is_u64; nia).
  unfold u_rem, u_div. rewrite (proj2 (Z.eqb_neq (i_block_size s) 0)) by lia. cbn [mbind outcome_bind].
  rewrite Z.mod_mul, Z.div_mul in * by lia. cbn [Z.eqb] in *. rewrite (proj2 (Z.ltb_lt i (i_block_count s))) in * by lia.
  cbn [mbind outcome_bind r_assert c_assert orb] in *. fold (pool_c s) in E. rewrite Ew in E. rewrite (vec_get_ok _ _ _ Hlk).
  cbn [mbind outcome_bind] in *. pose proof (Z.mod_pos_bound i 64 ltac:(lia)).
  rewrite test_mask in * by lia. rewrite Hbit in *. cbn [mbind outcome_bind r_assert c_assert orb] in *.
  rewrite vec_set_ok by (cbn in Hiw; lia). cbn [mbind outcome_bind with_map i_block_size i_stats with_stats].
  cbn [used bump_free] in E. rewrite (wrap64_small (used (i_stats s) - _)) in E by (unfold is_u64; nia). injection E as <- <-.
  rewrite sub_used_ok by (cbn; nia). cbn [mbind outcome_bind]. eexists. split; [reflexivity|]. split.
  - unfold pool_c, bp_set_word. cbn. by rewrite length_insert.
  - cbn [i_stats with_stats]. by apply (counted_used _ (bump_free (i_stats s))).
Qed.

#[global] Instance rp_spec : RustSpec chk (2 ^ 62) Inner (RAllocator0 := I chk).
Proof.
  apply (port_spec (AllocatorSpec0 := bp_spec false) pool_c).
  - intros s m L size a' m' p Hs _ Hroom. by apply (pool_alloc_c s m L).
  - intros s m L p n a' m'. apply (pool_free_c s m L).
Defined.

(** [new] makes what the C function makes. *)
Lemma pool_new_c ps mmap bs n : page_size_ok ps → mmap_ok ps mmap → 0 < bs ≤ 2 ^ 30 → 0 < n ≤ 2 ^ 30 →
  ∃ r, new chk ps mmap bs n = Ok r ∧ (pool_c <$> r) = hf_block_pool_create ps mmap true true bs n ∧
    ∀ s, r = Some s → i_stats s = stats_zero (capacity (i_stats s)).
Proof.
  intros Hps Hmm Hbs Hn. unfold new, hf_block_pool_create. cbn [negb]. unfold DEFAULT_ALIGN, HF_DEFAULT_ALIGN.
  rewrite Z.max_l by lia. pose proof (page_size_bounds ps Hps) as (Hpb & _).
  pose proof (round_up_ge bs 16 ltac:(lia)). pose proof (round_up_lt bs 16 ltac:(lia)).
  change 16 with (2 ^ 4) at 1. rewrite align_up_ok by lia. change (2 ^ 4) with 16. cbn [mbind outcome_bind].
  rewrite hf_align_up_16 by lia. set (b := round_up bs 16) in *.
  assert (0 < b * n ≤ 2 ^ 31 * 2 ^ 30) by (split; [apply Z.mul_pos_pos; lia|apply Z.mul_le_mono_nonneg; lia]).
  rewrite (proj2 (Z.leb_gt (2 ^ 64) (b * n))) by lia. rewrite (wrap64_small (b * n)) by ulia.
  rewrite align_up_page, (hf_align_up_page (b * n)) by (done || lia). cbn [mbind outcome_bind].
  pose proof (round_up_ge (b * n) ps ltac:(lia)). pose proof (round_up_lt (b * n) ps ltac:(lia)). set (bytes := round_up (b * n) ps) in *.
  destruct (reserve_ok chk ps mmap bytes Hps Hmm ltac:(lia)) as [-> Hp]. cbn [mbind outcome_bind].
  unfold hf_vm_reserve. rewrite (hf_align_up_page bytes) by (done || lia).
  destruct (mmap (round_up bytes ps)) as [p|]; [|by exists None]. destruct (Hp p eq_refl) as [Hp0 _].
  cbn [default]. rewrite (proj2 (Z.eqb_neq p 0)) by lia. rewrite (wrap64_small (n + 63)) by ulia.
  eexists. split; [reflexivity|]. pose proof (Z.div_str_pos (n + 63) 64 ltac:(lia)). split; [|by intros s [= <-]].
  unfold pool_c. cbn. rewrite length_replicate, Z2Nat.id by lia. done.
Qed.
End pool.

(** ** The slab allocator *)

Section slab.
Import RSlab.

Definition per_slab (s : Inner) : Z := i_slab_bytes s / i_obj_size s.

(** The slots of the slabs. *)
Definition is_slot (s : Inner) (p : Z) : Prop :=
  ∃ r i, r ∈ i_slabs s ∧ 0 ≤ i < per_slab s ∧ p = base r + i * i_obj_size s.

Record rs_wf (s : Inner) (L : live_map) : Prop := {
  rw_obj : 0 < i_obj_size s ∧ (16 | i_obj_size s);
  rw_bytes : 0 < per_slab s ∧ i_slab_bytes s ≤ 2 ^ 62;
  rw_slabs r : r ∈ i_slabs s → 0 < base r ∧ (16 | base r) ∧ base r + i_slab_bytes s ≤ 2 ^ 64 ∧ len r = i_slab_bytes s;
  rw_apart i j r q : i_slabs s !! i = Some r → i_slabs s !! j = Some q → i ≠ j →
    base r + i_slab_bytes s ≤ base q ∨ base q + i_slab_bytes s ≤ base r;
  rw_nodup : NoDup (i_free s);
  rw_free p : p ∈ i_free s → is_slot s p;
  rw_live p n : L !! p = Some n → is_slot s p ∧ (p ∉ i_free s) ∧ 0 ≤ n ≤ i_obj_size s;
  rw_count : Z.of_nat (base.size L + length (i_free s)) = Z.of_nat (length (i_slabs s)) * per_slab s;
  rw_used : used (i_stats s) = i_obj_size s * Z.of_nat (base.size L);
  rw_cap : capacity (i_stats s) = i_slab_bytes s * Z.of_nat (length (i_slabs s))
}.

Section wf.
Context (s : Inner) (L : live_map) (Hwf : rs_wf s L).

Lemma per_slab_fits : i_obj_size s * per_slab s ≤ i_slab_bytes s ∧ i_obj_size s ≤ i_slab_bytes s.
Proof.
  destruct Hwf as [[? _] [? ?] _ _ _ _ _ _ _ _]. pose proof (Z.mul_div_le (i_slab_bytes s) (i_obj_size s) ltac:(lia)) as Hle.
  fold (per_slab s) in Hle. nia.
Qed.

Lemma slot_range p : is_slot s p → 0 < p ∧ p + i_obj_size s ≤ 2 ^ 64 ∧ (16 | p).
Proof.
  intros (r & i & Hr & Hi & ->). destruct (rw_slabs _ _ Hwf r Hr) as (? & ? & ? & _). pose proof per_slab_fits.
  destruct (rw_obj _ _ Hwf) as [? ?]. split; [nia|]. split; [nia|]. apply Z.divide_add_r; [done|by apply Z.divide_mul_r].
Qed.

Lemma slot_apart p q x : is_slot s p → is_slot s q → p ≠ q → range p (i_obj_size s) x → ¬ range q (i_obj_size s) x.
Proof.
  intros (r & i & Hr & Hi & ->) (r' & j & Hr' & Hj & ->) Hne Hx Hx'. pose proof per_slab_fits. destruct (rw_obj _ _ Hwf) as [? _].
  apply list_elem_of_lookup in Hr as [a Ha]. apply list_elem_of_lookup in Hr' as [b Hb].
  destruct (decide (a = b)) as [<-|Hab].
  - assert (r' = r) as -> by congruence. unfold range in *. assert (i ≠ j) by congruence. destruct (decide (i < j)); nia.
  - destruct (rw_apart _ _ Hwf a b r r' Ha Hb Hab); unfold range in *; nia.
Qed.

(** Disjoint slabs do not fill the address space. *)
Lemma slabs_bound : i_slab_bytes s * Z.of_nat (length (i_slabs s)) < 2 ^ 64.
Proof.
  destruct (rw_obj _ _ Hwf) as [? _]. pose proof per_slab_fits as [_ Hge]. pose proof (rw_apart _ _ Hwf) as Hap. pose proof (rw_slabs _ _ Hwf) as Hsl.
  revert Hge Hap Hsl. generalize (i_slab_bytes s) as sb. intros sb Hge Hap Hsl. set (K := (2 ^ 64 - 1) / sb).
  assert (NoDup ((λ r, (base r - 1) / sb) <$> i_slabs s)) as Hnd.
  { apply NoDup_fmap_2_strong; [|apply NoDup_alt].
    - intros r q Hr Hq E. apply list_elem_of_lookup in Hr as [i Hi]. apply list_elem_of_lookup in Hq as [j Hj].
      destruct (decide (i = j)) as [<-|Hij]; [congruence|exfalso].
      pose proof (Z.div_mod (base r - 1) sb ltac:(lia)). pose proof (Z.mod_pos_bound (base r - 1) sb ltac:(lia)).
      pose proof (Z.div_mod (base q - 1) sb ltac:(lia)). pose proof (Z.mod_pos_bound (base q - 1) sb ltac:(lia)).
      rewrite E in *. destruct (Hap i j r q Hi Hj Hij); lia.
    - intros i j r Hi Hj. destruct (decide (i = j)) as [|Hij]; [done|exfalso].
      destruct (Hap i j r r Hi Hj Hij); lia. }
  assert (length (i_slabs s) ≤ Z.to_nat K)%nat as Hlen.
  { rewrite <- (length_fmap (λ r, (base r - 1) / sb)), <- (length_seqZ 0 K). apply submseteq_length, NoDup_submseteq; [done|].
    intros x Hx. apply list_elem_of_fmap in Hx as (r & -> & Hr). destruct (Hsl r Hr) as (? & _ & ? & _).
    apply elem_of_seqZ. split; [apply Z.div_pos; lia|]. rewrite Z.add_0_l. unfold K.
    apply Z.lt_le_trans with ((base r - 1) / sb + 1); [lia|]. rewrite <- Z.div_add by lia. apply Z.div_le_mono; lia. }
  pose proof (Z.mul_div_le (2 ^ 64 - 1) sb ltac:(lia)) as Hle. fold K in Hle.
  assert (0 ≤ K) by (apply Z.div_pos; lia). nia.
Qed.

(** The bytes of all slots. *)
Lemma slots_bound : i_obj_size s * Z.of_nat (base.size L + length (i_free s)) < 2 ^ 64.
Proof.
  pose proof slabs_bound. pose proof per_slab_fits. destruct (rw_obj _ _ Hwf) as [? _]. destruct (rw_bytes _ _ Hwf).
  rewrite (rw_count _ _ Hwf). nia.
Qed.
End wf.

(** ** Growing *)

Lemma push_slots_ok chk start obj k free : 0 < obj → Z.of_nat k * obj < 2 ^ 64 →
  push_slots chk start obj k free = Ok (((λ i, start + i * obj) <$> seqZ 0 (Z.of_nat k)) ++ free).
Proof.
  intros Ho. revert free. induction k as [|k IH]; intros free Hk; [done|]. cbn [push_slots].
  rewrite u_mul_ok by nia. cbn [mbind outcome_bind]. rewrite IH by nia. f_equal.
  rewrite Nat2Z.inj_succ, <- Z.add_1_r, (seqZ_app 0 (Z.of_nat k) 1), fmap_app, <- app_assoc by lia. done.
Qed.

(** The state after a slab was added to an empty stack. *)
Definition add_slab (s : Inner) (r : VmRegion) : Inner :=
  let st := i_stats s in
  Make (i_obj_size s) (i_slab_bytes s) (i_slabs s ++ [r])
       ((λ i, base r + i * i_obj_size s) <$> seqZ 0 (per_slab s))
       (Stats (capacity st + i_slab_bytes s) (used st) (peak_used st) (alloc_calls st) (free_calls st) (failed_allocs st)).

Lemma add_slab_wf s L r : rs_wf s L → i_free s = [] → 0 < base r → (16 | base r) → base r + i_slab_bytes s ≤ 2 ^ 64 →
  len r = i_slab_bytes s → (∀ q, q ∈ i_slabs s → base r + i_slab_bytes s ≤ base q ∨ base q + i_slab_bytes s ≤ base r) →
  rs_wf (add_slab s r) L.
Proof.
  intros Hwf Hnil Hr Hr16 Hre Hlen Hnew. pose proof (per_slab_fits _ _ Hwf) as [Hf1 Hf2]. destruct (rw_obj _ _ Hwf) as [Ho _].
  assert (∀ q, is_slot s q → is_slot (add_slab s r) q) as Hmono.
  { intros q (r' & i & Hr' & Hi & Hq). exists r', i. split; [|done]. apply elem_of_app. by left. }
  assert (∀ p, p ∈ i_free (add_slab s r) → base r ≤ p ∧ p + i_obj_size s ≤ base r + i_slab_bytes s ∧ is_slot (add_slab s r) p) as Hfree.
  { intros p Hp. apply list_elem_of_fmap in Hp as (i & -> & Hi). apply elem_of_seqZ in Hi.
    assert ((i + 1) * i_obj_size s ≤ per_slab s * i_obj_size s) by (apply Z.mul_le_mono_nonneg_r; lia). split; [nia|]. split; [lia|].
    exists r, i. split; [apply elem_of_app; right; by apply list_elem_of_singleton|]. split; [change (per_slab (add_slab s r)) with (per_slab s); lia|done]. }
  pose proof Hwf as [W1 W2 W3 W4 W5 W6 W7 W8 W9 W10]. split; try done.
  - cbn. intros q [Hq|Hq]%elem_of_app; [by apply W3|]. by apply list_elem_of_singleton in Hq as ->.
  - cbn. intros i j q1 q2 H1 H2 Hij. apply lookup_app_Some in H1 as [H1|[H1 H1']]; apply lookup_app_Some in H2 as [H2|[H2 H2']].
    + by apply (W4 i j).
    + apply list_lookup_singleton_Some in H2' as [? <-]. apply list_elem_of_lookup_2 in H1. destruct (Hnew q1 H1); auto.
    + apply list_lookup_singleton_Some in H1' as [? <-]. apply list_elem_of_lookup_2 in H2. auto.
    + apply list_lookup_singleton_Some in H1' as [? _], H2' as [? _]. lia.
  - apply NoDup_fmap_2_strong; [|apply NoDup_seqZ]. intros i j _ _ E. nia.
  - intros p Hp. by apply Hfree.
  - intros p n Hp. destruct (W7 p n Hp) as (Hs & _ & Hn). split; [by apply Hmono|]. split; [|done].
    intros Hin. apply Hfree in Hin as (? & ? & _). destruct Hs as (q & i & Hq & Hi & ->). destruct (Hnew q Hq); nia.
  - cbn. change (per_slab (add_slab s r)) with (per_slab s). rewrite Hnil in W8. cbn in W8. rewrite length_fmap, length_seqZ, length_app. cbn. destruct W2. lia.
  - cbn. rewrite length_app. cbn. lia.
Qed.

Context (chk : bool) (ps : Z) (mmap : list (Z * Z) → Z → option Z).
Context (Hps : page_size_ok ps) (Hmm : mmap_fresh ps mmap).

(** When the stack is empty a new slab fills it, or nothing changes. *)
Lemma grow_wf s L : rs_wf s L → (ps | i_slab_bytes s) → i_free s = [] →
  ∃ s', grow chk ps mmap s = Ok s' ∧ rs_wf s' L ∧ i_slab_bytes s' = i_slab_bytes s ∧ i_obj_size s' = i_obj_size s ∧
    i_stats s' = Stats (capacity (i_stats s')) (used (i_stats s)) (peak_used (i_stats s))
                   (alloc_calls (i_stats s)) (free_calls (i_stats s)) (failed_allocs (i_stats s)).
Proof using Hps Hmm.
  intros Hwf Hd Hnil. pose proof (page_size_bounds ps Hps) as (Hpb & Hp16 & _). destruct (rw_obj _ _ Hwf) as [Ho Ho16].
  destruct (rw_bytes _ _ Hwf) as [Hps0 Hsb]. pose proof (per_slab_fits _ _ Hwf) as [Hf1 Hf2].
  unfold grow, reserve. rewrite Z.max_l by lia. rewrite align_up_page by (done || lia). cbn [mbind outcome_bind].
  assert (round_up (i_slab_bytes s) ps = i_slab_bytes s) as -> by (apply round_up_id; [lia|done]).
  destruct (mmap _ (i_slab_bytes s)) as [p|] eqn:Ep; cbn [mbind outcome_bind]; [|exists s; by destruct (i_stats s)].
  destruct (Hmm _ _ _ Ep) as (Hp & Hpd & Hpe & Hpf). set (r := Region p (i_slab_bytes s)).
  assert (rs_wf (add_slab s r) L) as Hwf'.
  { apply add_slab_wf; try done; [by apply (Z.divide_trans _ ps)|]. intros q Hq.
    destruct (rw_slabs _ _ Hwf q Hq) as (_ & _ & _ & Elen). rewrite <- Elen at 2. apply (Hpf (base q) (len q)).
    apply list_elem_of_fmap. by exists q. }
  unfold u_div. rewrite (proj2 (Z.eqb_neq _ 0)) by lia. cbn [mbind outcome_bind]. change (i_slab_bytes s / i_obj_size s) with (per_slab s).
  rewrite push_slots_ok by lia. cbn [mbind outcome_bind]. rewrite Z2Nat.id, Hnil, app_nil_r by lia.
  pose proof (slabs_bound _ _ Hwf') as Hb. pose proof (rw_cap _ _ Hwf') as Ec. pose proof (rw_cap _ _ Hwf) as Ec0. cbn in Ec, Hb.
  rewrite u_add_ok by nia. cbn [mbind outcome_bind]. by exists (add_slab s r).
Qed.

Definition rs_inv (s : Inner) (m : mem) (L : live_map) : Prop :=
  rs_wf s L ∧ (ps | i_slab_bytes s) ∧ counters_u64 (i_stats s).

Lemma rs_wf_stats s L st : rs_wf s L → used st = used (i_stats s) → capacity st = capacity (i_stats s) → rs_wf (with_stats s st) L.
Proof. intros [] E1 E2. split; try done; cbn; by rewrite ?E1, ?E2. Qed.

(** A free slot becomes live. *)
Lemma rs_take s L p free n st : rs_wf s L → i_free s = p :: free → 0 ≤ n ≤ i_obj_size s →
  used st = used (i_stats s) + i_obj_size s → capacity st = capacity (i_stats s) →
  L !! p = None ∧ rs_wf (Make (i_obj_size s) (i_slab_bytes s) (i_slabs s) free st) (<[p := n]> L).
Proof.
  intros Hwf Ef Hn Eu Ec. pose proof Hwf as [W1 W2 W3 W4 W5 W6 W7 W8 W9 W10]. rewrite Ef in W5, W6, W8. apply NoDup_cons in W5 as [Hp Hnd].
  assert (L !! p = None) as HN.
  { destruct (L !! p) as [k|] eqn:E; [|done]. destruct (W7 p k E) as (_ & H & _). rewrite Ef in H. destruct H. by left. }
  split; [done|]. split; try done; cbn.
  - intros q Hq. destruct (W6 q ltac:(by right)) as (r & i & ?). by exists r, i.
  - intros q k Hq. apply lookup_insert_Some in Hq as [[<- <-]|[Hne Hq]].
    + split; [|done]. destruct (W6 p ltac:(by left)) as (r & i & ?). by exists r, i.
    + destruct (W7 q k Hq) as ((r & i & ?) & H & ?). split; [by exists r, i|]. split; [|done]. intros Hin. apply H. rewrite Ef. by right.
  - rewrite map_size_insert_None by done. change (per_slab (Make _ _ _ _ _)) with (per_slab s). cbn in W8. lia.
  - rewrite map_size_insert_None by done. lia.
  - by rewrite Ec.
Qed.

(** A live slot goes back. *)
Lemma rs_give s L p n st : rs_wf s L → L !! p = Some n →
  used st = used (i_stats s) - i_obj_size s → capacity st = capacity (i_stats s) →
  rs_wf (Make (i_obj_size s) (i_slab_bytes s) (i_slabs s) (p :: i_free s) st) (delete p L).
Proof.
  intros Hwf Hp Eu Ec. pose proof Hwf as [W1 W2 W3 W4 W5 W6 W7 W8 W9 W10]. destruct (W7 p n Hp) as (Hs & Hnf & _).
  pose proof (map_size_delete_Some p L (mk_is_Some _ _ Hp)) as Esz. assert (0 < base.size L)%nat.
  { destruct (base.size L) eqn:E0; [|lia]. apply map_size_empty_iff in E0 as ->. by rewrite lookup_empty in Hp. }
  split; try done; cbn.
  - by apply NoDup_cons.
  - intros q [->|Hq]%elem_of_cons; [done|]. by apply W6.
  - intros q k Hq. apply lookup_delete_Some in Hq as [Hne Hq]. destruct (W7 q k Hq) as (? & Hnq & ?). split; [done|]. split; [|done].
    intros [->|Hin]%elem_of_cons; done.
  - change (per_slab (Make _ _ _ _ _)) with (per_slab s). rewrite Esz. lia.
  - rewrite Esz, Nat2Z.inj_pred by lia. rewrite Eu, W9. lia.
  - by rewrite Ec.
Qed.

Lemma rs_allocate_ok s m L size : rs_inv s m L → 0 ≤ size → room chk (i_stats s) →
  ∃ s' p, allocate chk ps mmap s m size 16 = Ok (s', m, p) ∧ calls (i_stats s') ≤ calls (i_stats s) + 1 ∧
    match p with
    | None => rs_inv s' m L
    | Some p => 0 < p ∧ L !! p = None ∧ rs_inv s' m (<[p := size]> L)
    end.
Proof using Hps Hmm.
  intros (Hwf & Hd & Hcu) Hs Hroom. destruct (count_alloc_eq chk _ Hcu Hroom) as [E1 Hct1].
  destruct (count_failed_eq chk _ Hcu Hroom) as [E2 Hct2]. unfold allocate. rewrite E1.
  cbn [mbind outcome_bind i_stats with_stats i_obj_size i_free]. destruct (size >? i_obj_size s) eqn:Esz; zb.
  { rewrite E2. cbn [mbind outcome_bind]. eexists _, None. split; [reflexivity|]. pose proof Hct2 as (_ & _ & _ & ? & ?).
    split; [done|]. split; [by apply (rs_wf_stats s)|done]. }
  set (s1 := with_stats s (bump_alloc (i_stats s))). assert (rs_wf s1 L) as Hwf1 by (by apply rs_wf_stats).
  assert (∃ s2, match i_free s with [] => grow chk ps mmap s1 | _ => Ok s1 end = Ok s2 ∧ rs_wf s2 L ∧
    i_slab_bytes s2 = i_slab_bytes s ∧ i_obj_size s2 = i_obj_size s ∧ ∃ c, i_stats s2 =
      Stats c (used (i_stats s)) (peak_used (i_stats s)) (alloc_calls (i_stats s) +% 1) (free_calls (i_stats s)) (failed_allocs (i_stats s)))
    as (s2 & -> & Hwf2 & Eb & Eo & c & Est).
  { destruct (i_free s) eqn:Ef.
    - destruct (grow_wf s1 L Hwf1 Hd Ef) as (s2 & -> & H2 & ? & ? & Es2). exists s2. split_and!; try done. eexists. exact Es2.
    - exists s1. split_and!; try done. by eexists. }
  cbn [mbind outcome_bind]. pose proof Hct1 as (_ & _ & _ & Hcu1 & Hca1). destruct (i_free s2) as [|p free] eqn:Ef2.
  - rewrite Est. assert (∃ c', count_failed chk (Stats c (used (i_stats s)) (peak_used (i_stats s)) (alloc_calls (i_stats s) +% 1)
      (free_calls (i_stats s)) (failed_allocs (i_stats s))) = Ok (Stats c' (used (i_stats s)) (peak_used (i_stats s))
      (alloc_calls (i_stats s) +% 1) (free_calls (i_stats s)) (failed_allocs (i_stats s) +% 1)) ∧ c' = c) as (c' & -> & ->).
    { exists c. split; [|done]. unfold count_failed in *. cbn in *. destruct (u_add chk _ 1); [|done..]. cbn in *. by injection E2 as ->. }
    cbn [mbind outcome_bind]. eexists _, None. split; [reflexivity|]. pose proof Hct2 as (_ & _ & _ & ? & ?).
    split; [done|]. split; [|split; [cbn; by rewrite Eb|done]]. apply rs_wf_stats; [done|by rewrite Est..].
  - pose proof (slots_bound _ _ Hwf2) as Hb. rewrite Ef2 in Hb. cbn in Hb. pose proof (rw_used _ _ Hwf2) as Eu. destruct (rw_obj _ _ Hwf2) as [Ho _].
    rewrite add_used_ok by (rewrite ?Eu; nia). cbn [mbind outcome_bind].
    match goal with |- context [Make _ _ _ free ?st] => destruct (rs_take s2 L p free size st Hwf2 Ef2 ltac:(lia) eq_refl eq_refl) as [HN Hwf3] end.
    eexists _, (Some p). split; [reflexivity|]. rewrite Est in *. cbn [i_stats used capacity peak_used alloc_calls free_calls failed_allocs].
    split; [exact Hca1|]. split; [apply (slot_range _ _ Hwf2), (rw_free _ _ Hwf2); rewrite Ef2; left|]. split; [done|].
    split; [exact Hwf3|]. split; [cbn; by rewrite Eb|exact Hcu1].
Qed.

Lemma rs_deallocate_ok s m L p n : rs_inv s m L → L !! p = Some n → room chk (i_stats s) →
  ∃ s', deallocate chk s m p = Ok (s', m) ∧ calls (i_stats s') ≤ calls (i_stats s) + 1 ∧ rs_inv s' m (delete p L).
Proof.
  intros (Hwf & Hd & Hcu) Hp Hroom. destruct (count_free_eq chk _ Hcu Hroom) as [E1 (_ & _ & _ & Hcu1 & Hca1)].
  unfold deallocate. rewrite E1. cbn [mbind outcome_bind]. pose proof (rw_used _ _ Hwf) as Eu. destruct (rw_obj _ _ Hwf) as [Ho _].
  pose proof (slots_bound _ _ Hwf) as Hb. assert (0 < base.size L)%nat.
  { destruct (base.size L) eqn:E0; [|lia]. apply map_size_empty_iff in E0 as ->. by rewrite lookup_empty in Hp. }
  rewrite sub_used_ok by (cbn; nia). cbn [mbind outcome_bind]. eexists. split; [reflexivity|]. split; [done|]. split; [|done].
  apply (rs_give s L p n); done.
Qed.

#[global] Instance rs_spec : RustSpec chk (2 ^ 62) Inner (RAllocator0 := I chk ps mmap).
Proof using Hps Hmm.
  refine {| r_inv := rs_inv |}.
  - intros s m L p n (Hwf & _) Hp. destruct (rw_live _ _ Hwf p n Hp) as (Hs & _ & Hn). pose proof (slot_range _ _ Hwf p Hs) as (? & ? & ?).
    split_and!; try done; lia.
  - intros s m L p n q k (Hwf & _) Hp Hq Hne x Hx Hx'. destruct (rw_live _ _ Hwf p n Hp) as (Hs & _ & Hn).
    destruct (rw_live _ _ Hwf q k Hq) as (Hs' & _ & Hk). apply (slot_apart _ _ Hwf p q x Hs Hs' Hne); rlia.
  - intros s m L size Hi Hsz Hroom. destruct (rs_allocate_ok s m L size Hi ltac:(lia) Hroom) as (s' & p & E & Hca & Hp).
    exists s', m, p. split; [exact E|]. done.
  - intros s m L p n Hi Hp Hroom. destruct (rs_deallocate_ok s m L p n Hi Hp Hroom) as (s' & E & Hca & Hi').
    exists s', m. split; [exact E|]. done.
  - intros s m m' L Hi _. exact Hi.
Defined.

(** [new] panics for no size up to 2^62. *)
Lemma rs_new_inv m obj sb : 0 ≤ obj ≤ 2 ^ 62 → 0 ≤ sb ≤ 2 ^ 61 →
  ∃ r, new chk ps obj sb = Ok r ∧ ∀ s, r = Some s → rs_inv s m ∅ ∧ calls (i_stats s) = 0 ∧ obj ≤ i_obj_size s.
Proof using Hps.
  intros Ho Hs. unfold new, DEFAULT_ALIGN. pose proof (page_size_bounds ps Hps) as (Hpb & _).
  pose proof (round_up_ge (Z.max obj 8) 16 ltac:(lia)). pose proof (round_up_lt (Z.max obj 8) 16 ltac:(lia)).
  change 16 with (2 ^ 4) at 1. rewrite align_up_ok by lia. change (2 ^ 4) with 16. cbn [mbind outcome_bind].
  set (b := if sb =? 0 then _ else _). assert (0 < b ≤ 2 ^ 61) as Hb by (unfold b; case_match; zb; lia). clearbody b.
  rewrite align_up_page by (done || lia). cbn [mbind outcome_bind].
  pose proof (round_up_ge b ps ltac:(lia)). pose proof (round_up_lt b ps ltac:(lia)). set (o := round_up (Z.max obj 8) 16) in *.
  unfold u_div. rewrite (proj2 (Z.eqb_neq o 0)) by lia. cbn [mbind outcome_bind].
  destruct (_ =? 0) eqn:Ek; zb; [by exists None|]. eexists. split; [reflexivity|]. intros s [= <-].
  pose proof (Z.div_pos (round_up b ps) o ltac:(lia) ltac:(lia)). split; [|split; [done|cbn; lia]].
  split; [|split; [apply round_up_divide|by split_and!]]. split; cbn; try done.
  - split; [lia|apply round_up_divide].
  - unfold per_slab. cbn. lia.
  - intros r Hr. by apply elem_of_nil in Hr.
  - constructor.
  - intros p Hp. by apply elem_of_nil in Hp.
  - rewrite map_size_empty. lia.
  - lia.
Qed.
End slab.

(** ** Clients *)

(** C36. Client safety of the Rust slab allocator: if [mmap] returns mappings
    apart from the slabs that exist, then from any allocator [new] returns, in
    debug and release builds, every program of fewer than 2^64 allocations,
    frees of owned objects and writes to owned bytes runs without a panic -
    growing when the stack is empty, failing when [mmap] does; live objects are
    16-aligned and never overlap, and every owned byte holds what the client
    last wrote there. *)
Theorem rust_slab_safe chk ps mmap m obj sb s os :
  page_size_ok ps → mmap_fresh ps mmap → 0 ≤ obj ≤ 2 ^ 62 → 0 ≤ sb ≤ 2 ^ 61 →
  RSlab.new chk ps obj sb = Ok (Some s) → Forall (op_ok (2 ^ 62)) os → Z.of_nat (length os) < 2 ^ 64 →
  ∃ c, client_run (hf_allocator_vtable0 := RAllocator_vtable (RAllocator0 := RSlab.I chk ps mmap)) (Client s m ∅ ∅) os = Ok c ∧
    client_ok DEFAULT_ALIGN c.
Proof.
  intros Hps Hmm Ho Hsb Hnew Hos Hlen. destruct (rs_new_inv chk ps Hps m obj sb Ho Hsb) as (r & E & Hr).
  rewrite Hnew in E. injection E as <-. destruct (Hr s eq_refl) as (Hinv & Hcalls & _).
  apply (rust_client_safe (RustSpec0 := rs_spec chk ps mmap Hps Hmm) s m os Hinv Hos).
  change (ra_stats s) with (RSlab.i_stats s). lia.
Qed.

(** 2000-byte objects, two in a slab of one page. *)
Definition ex_rs : RSlab.Inner := RSlab.Make 2000 4096 [] [] (stats_zero 0).

Lemma ex_rs_new : RSlab.new true 4096 2000 4096 = Ok (Some ex_rs).
Proof. vm_compute. reflexivity. Qed.

(** Witness of C36: the third allocation needs a second slab. *)
Lemma rust_slab_safe_witness :
  ∃ c, client_run (hf_allocator_vtable0 := RAllocator_vtable (RAllocator0 := RSlab.I true 4096 ex_mmaps)) (Client ex_rs ∅ ∅ ∅)
      [CAlloc 100; CAlloc 2000; CAlloc 5; CWrite (2 ^ 20 + 20) 7; CFree (2 ^ 20)] = Ok c ∧ client_ok DEFAULT_ALIGN c.
Proof.
  apply (rust_slab_safe true 4096 ex_mmaps ∅ 2000 4096).
  - apply page_4096_ok.
  - apply ex_mmaps_fresh.
  - lia.
  - lia.
  - exact ex_rs_new.
  - repeat constructor; simpl; unfold request_ok; lia.
  - simpl. lia.
Defined.

(** Client safety of the Rust block pool, inherited from the C one. *)
Lemma rust_pool_safe chk ps mmap m bs n s os :
  page_size_ok ps → mmap_ok ps mmap → 0 < bs ≤ 2 ^ 30 → 0 < n ≤ 2 ^ 30 →
  RPool.new chk ps mmap bs n = Ok (Some s) → Forall (op_ok (2 ^ 62)) os → Z.of_nat (length os) < 2 ^ 64 →
  ∃ c, client_run (hf_allocator_vtable0 := RAllocator_vtable (RAllocator0 := RPool.I chk)) (Client s m ∅ ∅) os = Ok c ∧
    client_ok DEFAULT_ALIGN c.
Proof.
  intros Hps Hmm Hbs Hn Hnew Hos Hlen. destruct (pool_new_c chk ps mmap bs n Hps Hmm Hbs Hn) as (r & E & Hc & Hst).
  rewrite Hnew in E. injection E as <-. specialize (Hst s eq_refl).
  apply (rust_client_safe (RustSpec0 := rp_spec chk) s m os); [|done|].
  - split; [|change (ra_stats s) with (RPool.i_stats s); rewrite Hst; by split_and!].
    by apply (bp_create_inv ps mmap true true bs n); [..|apply bp_geometry_small|].
  - change (ra_stats s) with (RPool.i_stats s). rewrite Hst. change (calls _) with 0. lia.
Qed.

(** ** The stack allocator *)

Section stack.
Import RStack.

(** The C struct with the same contents. *)
Definition stack_c (s : Inner) : st_alloc :=
  StAlloc (base (i_mem s)) (i_capacity s) (i_top s) (i_last_payload s) (i_stats s).

Context (chk : bool) (s : Inner) (m : mem) (bot : Z) (fs : list (Z * Z)).
Context (Hwf : st_wf (stack_c s) m bot fs) (Hcu : counters_u64 (i_stats s)) (Hroom : room chk (i_stats s)).

Lemma stack_alloc_c size k : 0 ≤ size ≤ 2 ^ 62 → 0 ≤ k ≤ 60 →
  ∃ s' m' r, allocate chk s m size (2 ^ k) = Ok (s', m', r) ∧ r ≠ Some NULL ∧
    st_allocate (stack_c s) m size (2 ^ k) = Ok (stack_c s', m', default NULL r).
Proof using Hwf Hcu Hroom.
  intros Hsz Hk. destruct (count_alloc_eq chk _ Hcu Hroom) as [E1 _]. destruct (count_failed_eq chk _ Hcu Hroom) as [E2 _].
  pose proof (frames_top_ge _ _ _ _ _ _ (wf_frames _ _ _ _ Hwf)) as Hge. destruct Hwf as [W1 W2 W3 W4 W5 W6 _]. cbn in *.
  pose proof (pow2_pos k ltac:(lia)). pose proof (pow2_le_mono k 60 ltac:(lia)).
  unfold allocate, st_allocate, FHDR, st_header_size. rewrite E1. cbn [mbind outcome_bind stack_c st_top st_capacity st_mem st_last_payload st_stats].
  change (if 16 <? 8 then 8 else 8) with 8. change (Z.max 8 8) with 8.
  pose proof (round_up_ge (i_top s) 8 ltac:(lia)). pose proof (round_up_lt (i_top s) 8 ltac:(lia)).
  pose proof (align_up_ok chk (i_top s) 3 ltac:(lia) ltac:(lia) ltac:(lia)) as Ea.
  pose proof (hf_align_up_pow2 (i_top s) 3 ltac:(lia) ltac:(lia) ltac:(lia)) as Eb. change (2 ^ 3) with 8 in Ea, Eb. rewrite Ea, Eb.
  cbn [mbind outcome_bind]. set (h := round_up (i_top s) 8) in *. clearbody h.
  rewrite u_add_ok by lia. cbn [mbind outcome_bind]. rewrite (wrap64_small (h + 16)) by ulia. rewrite Z.max_l by lia.
  pose proof (round_up_ge (h + 16) (2 ^ k) ltac:(lia)). pose proof (round_up_lt (h + 16) (2 ^ k) ltac:(lia)).
  rewrite align_up_ok, hf_align_up_pow2 by lia. cbn [mbind outcome_bind]. set (p := round_up (h + 16) (2 ^ k)) in *. clearbody p.
  rewrite u_add_ok by lia. cbn [mbind outcome_bind]. rewrite (wrap64_small (p + size)) by ulia.
  destruct (p + size >? i_capacity s) eqn:Ebig; zb.
  - rewrite E2. cbn [mbind outcome_bind]. eexists _, _, None. split; [reflexivity|]. done.
  - rewrite u_sub_ok by lia. cbn [mbind outcome_bind]. replace (base (i_mem s) + (p - 16)) with (base (i_mem s) + p - 16) by lia.
    eexists _, _, (Some _). split; [reflexivity|]. split; [intros [= Hx]; lia|]. rewrite raise_peak_max. done.
Qed.

(** A free of the newest block succeeds as in C; any other pointer panics in
    every build, where the C code fails an assert. *)
Lemma stack_free_c p n fs' ptr : fs = (p, n) :: fs' → 0 < ptr < 2 ^ 64 →
  (ptr = base (i_mem s) + p → ∃ s', deallocate chk s m ptr = Ok (s', m) ∧ st_deallocate false (stack_c s) m ptr = Ok (stack_c s', m)) ∧
  (ptr ≠ base (i_mem s) + p → deallocate chk s m ptr = Abort ∧ st_deallocate false (stack_c s) m ptr = Abort).
Proof using Hwf Hcu Hroom.
  intros -> Hptr. destruct (count_free_eq chk _ Hcu Hroom) as [E1 _]. pose proof (wf_frames _ _ _ _ Hwf) as Hfr.
  destruct (frames_below _ _ _ _ _ _ p n Hfr ltac:(left)) as (Hb1 & Hb2 & Hb3). destruct Hwf as [W1 W2 W3 W4 W5 W6 _]. cbn in *.
  assert (i_last_payload s = p) as El by (by inversion Hfr).
  unfold deallocate, st_deallocate, FHDR, st_header_size. rewrite E1. cbn [mbind outcome_bind stack_c st_mem st_last_payload st_stats].
  rewrite (proj2 (Z.eqb_neq ptr 0)) by lia. rewrite El. split.
  - intros ->. replace (base (i_mem s) + p - base (i_mem s)) with p by lia. rewrite u_sub_ok by lia. cbn [mbind outcome_bind].
    replace (base (i_mem s) + p - base (i_mem s)) with p by lia. rewrite wrap64_small by ulia. rewrite Z.eqb_refl.
    cbn [r_assert c_assert orb mbind outcome_bind negb]. rewrite u_sub_ok by lia. cbn [mbind outcome_bind].
    replace (base (i_mem s) + (p - 16)) with (base (i_mem s) + p - 16) by lia. by eexists.
  - intros Hne. assert (wrap64 (ptr - base (i_mem s)) ≠ p) as Hw.
    { intros E. destruct (decide (base (i_mem s) ≤ ptr)); [rewrite wrap64_small in E by ulia; lia|].
      unfold wrap64 in E. rewrite <- (Z.mod_add _ 1), Z.mod_small in E by lia. lia. }
    apply Z.eqb_neq in Hw. rewrite Hw. split; [|done]. unfold u_sub. destruct (chk && _); [done|]. cbn [mbind outcome_bind]. by rewrite Hw.
Qed.

(** [rewind] is the C one; above the top it panics. *)
Lemma stack_rewind_c mk :
  match rewind s mk with
  | Ok s' => hf_stack_rewind false (stack_c s) mk = Ok (stack_c s')
  | _ => mk > i_top s ∧ hf_stack_rewind false (stack_c s) mk = Abort
  end.
Proof.
  clear Hwf Hcu Hroom. unfold rewind, hf_stack_rewind, r_assert, c_assert. cbn [stack_c st_top].
  destruct (mk <=? i_top s) eqn:E; zb; [done|]. split; [lia|done].
Qed.
End stack.
